(* ===== verification/_CoqProject ===== *)
-Q . S2P
Prelude.v
Wire.v
GoErrors.v
Settings.v
Limiter.v
Resources.v
ErrorDispatch.v
Lifecycle.v
Server.v
Request.v
Channel.v
Names.v
Terminal.v
Context.v
Auth.v
Session.v
SessionLaws.v
Copy.v
Net.v
OpenChannel.v
Forward.v
ForwardHandlers.v
ForwardConnections.v
Preparation.v
Serving.v
Signals.v
Breaks.v
ChannelAnswers.v
Wiring.v
Accessors.v
Logging.v
Connection.v
ConnectionReturns.v
Delivery.v
DeliveryRefines.v
ForwardRequests.v
ForwardLedger.v
ForwardReplies.v
ForwardedCopy.v
Platform.v
Examples.v
ExampleServers.v
