(* ===== verification/Prelude.v ===== *)
(** * Verification of the SSH server library ([package ssh])

    The library runs SSH servers on top of [golang.org/x/crypto/ssh].  [Serve]
    accepts transports in a loop; each goes to [handleConn], which wraps it
    (PROXY protocol, deadlines), registers it with the serve scope, runs the SSH
    handshake with the configured authentication callbacks and then serves two
    streams until the connection ends: global requests and channels.  A session
    channel runs its own loop of requests and at most one handler.  Errors of
    every part go through one mechanism, [dispatchError], to an [ErrorHandler]
    of the application.  The hard parts are that all of this is concurrent, that
    each reply, response and clean-up has to happen once, and that every error
    path has to fail closed.

    ** Files, and the sources under [src/] they model

    - [Prelude]: outcomes of Go functions, machine integers, sums, the hint
      database [ssh] and the tactics the other files use.
    - [Wire]: [codec-util.go].  Decoders of PTY and window payloads; the
      encodings of RFC 4254 are the specification.
    - [GoErrors]: Go error values as trees, [errors.Is], [errors.Join] and the
      classifying functions of [error-handling.go], [session.go], [io-util*.go].
    - [Settings]: limits, timeouts, [MaxStartups], retry delays ([server.go]),
      connection deadlines ([conn.go]) and [wrapProxyProtocolConn].
    - [Limiter]: [resourceLimiter] and [connectionChannelLimiter] ([server.go])
      as programs over atomic counters, interleaved.
    - [Resources]: [connectionResources] and its acquisition protocol
      ([context.go]), interleaved.
    - [ErrorDispatch]: one-shot responses and next handlers, [dispatchError] and
      [dispatchErrorOrEscalate] ([error-handling.go]).
    - [Lifecycle]: [serveContext] ([lifecycle.go]): admission, forced close,
      draining, the limit on error handlers.
    - [Server]: the accept loop of [Serve] and all of [handleConn] ([server.go]).
    - [Request]: [requestResponse] ([request.go]) and the request loop of a
      connection ([handleRequests] in [server.go]).
    - [Channel]: [trackedNewChannel], the worker of a channel and the loop that
      hands out channels with the accounting of their slots ([server.go]).
    - [Names]: the named [uint8] types of [cipher.go], [key-exchange.go],
      [message-authentication.go] and [error-handling.go].
    - [Terminal]: [session.Write] and window changes ([session.go]).
    - [Context]: [sshContext], connection metadata and workers ([context.go]) and
      the agent flag of a session ([agent.go]).
    - [Auth]: [configForConnection] with the callbacks of authentication and the
      state of public keys ([server.go]).
    - [Session]: the request loop of a session, deferred subsystems, [Exit] and
      the end of a handler ([session.go]); [SessionLaws] has its theorems.
    - [Copy]: [FullDuplexCopy] ([copy.go]) with its goroutines.
    - [Net]: the functions of [net] and [strconv] on addresses that forwarding
      uses, and the keys of forwards ([tcpip.go]).
    - [OpenChannel]: [openForwardedChannel] ([tcpip.go]) over time.
    - [Forward]: the life of a reverse forward ([tcpip.go], [streamlocal.go]),
      interleaved; [ForwardHandlers]: the requests that make and cancel forwards,
      branch by branch; [ForwardConnections]: the accept loops, the workers of
      forwarded connections, [ForwardAgentConnections] ([agent.go]) and the
      channel handlers for direct forwards.
    - [Preparation]: host keys, [options.go], [Serve] and [ListenAndServe]
      ([ssh.go], [server.go]), [KeysEqual], and [prepare] under concurrent calls.
    - [Serving]: [newServeContext], the whole of [Serve] and [HandleConn], made of
      [Lifecycle], [Server] and [Preparation].
    - [Signals] and [Breaks]: the delivery of signals and breaks to the channels a
      handler registers, and their end by [Exit] ([session.go]), interleaved.
    - [ChannelAnswers]: [trackedNewChannel] and the worker of a channel whose
      handler leaves goroutines behind that answer it ([server.go]).
    - [Wiring]: the limiters of a scope and its connections, the gate on client
      authentication and [DefaultSessionHandler], made of [Limiter], [Auth],
      [Server] and [Channel].
    - [Accessors]: what a session gives away of its maps and slices, the handlers
      with their defaults, [requestResponse.wait] and [NewAgentListener].
    - [Connection]: a connection as a whole ([handleConn] in [server.go]): its
      goroutines, workers, channels, slots and resources as one system, made of
      [Server], [Channel], [ChannelAnswers], [Context] and [Resources];
      [ConnectionReturns]: how it comes to its end.
    - [Delivery]: [Signals], [Breaks] and [Exit] as one system with the loop that
      reads the requests ([session.go]); [DeliveryRefines] compares it with the
      turns of [Session].
    - [ForwardRequests]: the handlers of [ForwardHandlers] as executions of the
      system of [Forward].
    - [ForwardLedger]: all reverse forwards of a server: the request loops of its
      connections, the maps and counters they share, the closes, the workers and
      [closeAll] as one system, made of [Request], [ForwardHandlers] and
      [Wiring]; [ForwardReplies]: what the client is told, and the round trip of
      a forward and its cancellation.
    - [ForwardedCopy]: a forwarded connection from the start of its copy to the
      last deferred call, with [contextForChannelRequests] ([tcpip.go]); made of
      [Copy] and the calls of [ForwardConnections].
    - [Logging]: which logger a part uses and the fields a connection attaches
      ([conn.go] and the [logger] methods).
    - [Platform]: the builds of [_isClosedError] ([io-util_*.go]).
    - [Examples]: the programs of [_examples] as clients of the package;
      [ExampleServers]: the servers their [main] functions put together.

    ** How the code is modelled

    A function without concurrency is a function: on a state record where the
    code has one, with an [outcome] where it may panic, with the early returns
    of the code as branches.  A mutex-protected section or an atomic operation
    is one atomic function on the shared state, and a step relation lets any
    number of goroutines run them in any order ([lstep], [cstep], [dstep],
    [lcstep], [qstep]); theorems about those hold in every reachable state.
    Where a witness has to run such a system, the steps are a function of a
    choice ([copy_exec], [forward_exec], [prepare_exec], [signal_exec],
    [break_exec], [answer_exec], [delivery_exec], [cn_exec], [ledger_exec],
    [forwarded_exec]) that is [None] where the step is not possible or would block, and an execution is a list of choices; so a blocked mutex,
    wait group, channel or select is a step that cannot be taken.
    The sequential view of a component and its interleaved view share the same
    critical sections, and [ErrorDispatch.dispatch_refines],
    [DeliveryRefines.delivery_refines] and [ForwardRequests.requests_refine]
    relate the two.  [Connection] does not repeat what its parts do: its steps
    are their steps, on a state that has theirs as fields, in the order in which
    [Server.handleConn] lists the events of the path that the connection takes.
    An action of [ForwardLedger] is a whole turn, of a request loop, a close or a
    worker; [Forward] has the same operations at the grain of critical sections,
    and [ForwardRequests] relates the turns of the requests to it.
    Effects that are not state (replies, closes, log entries, started handlers)
    are events on a trace.  The class [ErrorDispatch.World] is the interface
    between the error dispatch and its clients: the dispatch is defined and
    verified over any world in which it can emit events, and requests, sessions and
    channels run it in worlds of their own.  The class [Names.NamedEnum] is the
    common design of the named types, with the laws their tables satisfy, and
    [Context.GoContext] what the package asks of a context; [Auth] needs no more
    of it.

    What callbacks, the network, the clock and [x/crypto/ssh] answer is an
    argument: a function, an outcome, or the fields of an environment record.
    In [ForwardLedger] every request brings the answers that it gets from
    callbacks, sockets and the client ([requestEnv]), so that the same call may
    be answered differently later.  [Auth.auth_run] lets a handshake call the
    callbacks of a configuration in any order; that [NoClientAuthCallback] is not
    called without [NoClientAuth] is what [x/crypto/ssh] documents.
    An [int] keeps its width as a parameter where it can overflow; a
    [time.Duration] is an integer of nanoseconds.  Counters are integers without
    a bound: they stay within the limits, which are [int]s.

    ** What the theorems show

    - Concurrency: limits hold and leak nothing, resources are closed exactly
      once and none escapes a close, start-up and channel slots are exact,
      [drained] is closed exactly when it should be, a forced scope closes every
      connection it admitted, responders and default actions run at most once
      and never after the dispatch has ended; requests and channels are answered
      once, also when a handler leaves goroutines behind that answer them, and a
      session starts one handler and sends one exit status.
    - A connection as a whole: when [handleConn] returns, everything it has
      counted has ended, the slots and counters are what the application still
      holds, every channel has been answered and closed or the connection has,
      and nothing new is taken in; it serves no channel before its gates and no
      more than its limits; and from every state it can come to its end
      ([connection_returns]: there is a continuation that does; the scheduler,
      the handlers and the peer are what may keep it from taking it).
    - Serving: [Serve] hands every connection it admits to one goroutine and
      returns with nothing left, with the cause of the context, the filtered error
      of [Accept] or only errors of closes; counted by the users that hold a
      slot, the limits hold over all connections of a scope;
      concurrent calls of [prepare] make at most one key and agree.
    - Forwarding: a forward has one owner, is closed once and gives its slot back
      on every path; forwarded connections neither leak nor outlive what they
      need; nothing is dialled that the application has not allowed; a request
      that is handled while no forward is being closed takes steps of the
      interleaved system and leaves what is left there; the loop
      that opens a channel and the stream copy end, and the copy reports the
      first relevant error.  Over all connections of a server the slots taken, the
      listeners open and the entries of the maps agree, the limits on reverse
      forwards hold, and a connection whose [closeAll] has come through has none
      left; the client is told the truth about each request: a forward that it is
      granted is in the map under its key, one whose cancellation is accepted has
      been closed, and a refusal changes nothing; what it cancels
      is as if it had never been granted.  A forwarded connection is cut off only
      with its SSH connection or, for TCP, with the client's channel, and ends
      with everything closed.
    - Signals and breaks: nothing is sent but to the channel registered last;
      signals come in order, and none is lost but by a full buffer, a send that
      fails or the end of the context; every break is answered, none after the exit;
      neither [Signals], [Break] nor [Exit] waits for a receiver.  Together with
      the exit: each request is answered once and in order, nothing is delivered
      after the exit status, and every interleaving gives the client what a run
      of the session of whole turns gives.
    - Authentication: the public key in the context is one that was verified and
      accepted, whatever the handshake calls; a method with a handler is never
      left to another callback; every attempt starts from empty permissions.
    - Failing closed: an error without a positive answer closes the connection;
      a failing session callback denies the request and closes the session
      unless the error handler and every reply succeeded; channels are served
      only after the gates of [handleConn]; every path of it cleans up.
    - Functional behaviour: decoders accept exactly the encodings of the RFC and
      never panic; error classification is characterised on error trees; the
      drop rate and the deadlines in force; PTY output; names round trips; exit
      statuses; deferred subsystems follow the first deciding event.
    - Bounds: what a client can make a session store; concurrent error handlers.
    - Aliasing: no caller can change a session through what its accessors return,
      and they show what the session has.
    - Clients: what the policies and callbacks of the examples come to when the
      package runs them; what the builds for other platforms change.

    ** Fuel

    [Wire]: the loop over terminal modes consumes five bytes a turn and is run
    with the length of its input; [parsePtyRequest_returns] shows that this is
    always enough.  [Terminal.replace_fuel] is run with the length of its input
    and consumes at least one byte per unit ([replace_fuel_enough]).
    [Session.wait_loop] runs the steps it is given and then the timer, which
    always ends it.  [OpenChannel.open_loop] is given 21 attempts; the delays
    grow and the time for registration runs out before they are used up
    ([open_loop_ok], with [start_at] the earliest start of an attempt).
    [Net.FormatUint] is given 20 digits, enough for 64 bits.  The executions of
    [Copy], [ForwardedCopy], [Breaks] and [Preparation] are lists of steps that a measure bounds,
    so that they end whatever the schedule.  Nothing else needs fuel.

    ** What is not modelled

    [x/crypto/ssh], [go-proxyproto], shlex, the logger and sockets are parameters
    or absent: log entries have no effect on the rest.  The calls of crypto/rsa
    are arguments of [generateSigner].  [wrap.go] is left out, as it only gives
    names to types and functions of [x/crypto/ssh], and [doc.go] is a comment.
    Accessors that return a field ([User], [RemoteAddr], [RawCommand] and the
    like) have no definition, nor do [Server.config], which only the tests call,
    and the interfaces and function types that have no code.

    [Connection] has the goroutine that serves the global requests, but not what
    each request does: that is [Request], and for forwards [ForwardHandlers] and
    [ForwardLedger].  [requests_refine] is about a request that is not
    interrupted, and that does not run while a forward of the same handler is
    being closed; in [ForwardLedger] a close is one turn.  [ForwardedCopy] leaves
    to its environment when a call of a stream returns: that a closed stream
    answers is up to the network. *)
From Stdlib Require Export ZArith Lia.
From Stdlib Require Export Strings.Byte.
From stdpp Require Export base tactics list gmap sets strings pretty.

#[global] Set Default Goal Selector "!".
#[global] Set Warnings "-clear-no-such-hyp,-register-all".

Create HintDb ssh discriminated.

(** * Outcomes of Go functions

    [Ok a] is a normal return, [Bad] a return with [ok == false],
    [Panic] a run-time panic (a slice expression out of range), [NoFuel] a
    loop that was cut off by the fuel of its model. *)
Inductive outcome (A : Type) : Type :=
| Ok (a : A)
| Bad
| Panic
| NoFuel.
Arguments Ok {A} a.
Arguments Bad {A}.
Arguments Panic {A}.
Arguments NoFuel {A}.

Definition obind {A B} (m : outcome A) (k : A -> outcome B) : outcome B :=
  match m with
  | Ok a => k a
  | Bad => Bad
  | Panic => Panic
  | NoFuel => NoFuel
  end.

Declare Scope go_scope.
Delimit Scope go_scope with go.
Notation "'let*' p := m 'in' k" := (obind m (fun p => k))
  (at level 10, p pattern, m at level 100, k at level 200) : go_scope.
Open Scope go_scope.

(** A returning outcome: neither a panic nor an exhausted loop. *)
Definition returns {A} (m : outcome A) : Prop :=
  match m with Ok _ | Bad => True | Panic | NoFuel => False end.

Lemma returns_bind {A B} (m : outcome A) (k : A -> outcome B) :
  returns m -> (forall a, m = Ok a -> returns (k a)) -> returns (obind m k).
Proof. destruct m; simpl; auto. Qed.

Lemma obind_ok {A B} (m : outcome A) (k : A -> outcome B) (b : B) :
  obind m k = Ok b -> exists a, m = Ok a /\ k a = Ok b.
Proof. destruct m; simpl; intros H; try discriminate H; eauto. Qed.

(** Splits the hypotheses that state that a sequence of calls succeeded. *)
Ltac invert_ok :=
  repeat match goal with
  | H : obind _ _ = Ok _ |- _ =>
      apply obind_ok in H; destruct H as (? & ? & H); simplify_eq/=
  | H : (if ?b then _ else _) = Ok _ |- _ =>
      let E := fresh "Hif" in destruct b eqn:E; simplify_eq/=
  | H : (let '(_, _) := ?p in _) = Ok _ |- _ => destruct p; simplify_eq/=
  end.

(** Settles a closed decidable goal by computation. *)
Ltac by_decide := apply (bool_decide_unpack _); vm_compute; exact I.

(** * Machine integers *)
Section Integers.
Local Open Scope Z_scope.

Definition uwrap (w z : Z) : Z := z mod 2 ^ w.
Definition swrap (w z : Z) : Z :=
  let u := z mod 2 ^ w in if u <? 2 ^ (w - 1) then u else u - 2 ^ w.

Lemma pow2_double w : 0 < w -> 2 ^ w = 2 * 2 ^ (w - 1).
Proof. intros. rewrite <- Z.pow_succ_r by lia. f_equal. lia. Qed.

Lemma uwrap_small w z : 0 <= z < 2 ^ w -> uwrap w z = z.
Proof. apply Z.mod_small. Qed.

Lemma swrap_small w z :
  0 < w -> - 2 ^ (w - 1) <= z < 2 ^ (w - 1) -> swrap w z = z.
Proof.
  intros Hw Hz. unfold swrap. pose proof (pow2_double w Hw) as E.
  destruct (Z_lt_le_dec z 0) as [Hn|Hp].
  - replace (z mod 2 ^ w) with (z + 2 ^ w).
    + destruct (Z.ltb_spec (z + 2 ^ w) (2 ^ (w - 1))); lia.
    + rewrite <- (Z.mod_small (z + 2 ^ w) (2 ^ w)) by lia.
      rewrite <- (Z_mod_plus_full z 1 (2 ^ w)). f_equal. lia.
  - rewrite (Z.mod_small z) by lia.
    destruct (Z.ltb_spec z (2 ^ (w - 1))); lia.
Qed.

Lemma swrap_range w z : 0 < w -> - 2 ^ (w - 1) <= swrap w z < 2 ^ (w - 1).
Proof.
  intros Hw. unfold swrap. pose proof (pow2_double w Hw) as E.
  pose proof (Z.mod_pos_bound z (2 ^ w) ltac:(lia)).
  destruct (Z.ltb_spec (z mod 2 ^ w) (2 ^ (w - 1))); lia.
Qed.
End Integers.

(** * Sums over lists *)

Definition sumZ {A} (f : A -> Z) (l : list A) : Z := foldr (fun a z => (f a + z)%Z) 0%Z l.

Lemma sumZ_insert {A} (f : A -> Z) (l : list A) i a a' :
  l !! i = Some a -> sumZ f (<[i := a']> l) = (sumZ f l - f a + f a')%Z.
Proof.
  revert i. induction l as [|x l IH]; intros [|i] H; simplify_eq/=; [lia|].
  rewrite (IH _ H). lia.
Qed.

Lemma sumZ_le {A} (f g : A -> Z) l :
  (forall a, a ∈ l -> (f a <= g a)%Z) -> (sumZ f l <= sumZ g l)%Z.
Proof.
  induction l as [|x l IH]; intros H; simpl; [lia|].
  assert (f x <= g x)%Z by (apply H; left).
  assert (sumZ f l <= sumZ g l)%Z by (apply IH; intros; apply H; by right). lia.
Qed.

Lemma sumZ_zero {A} (f : A -> Z) l : (forall a, a ∈ l -> f a = 0%Z) -> sumZ f l = 0%Z.
Proof.
  induction l as [|x l IH]; intros H; simpl; [done|].
  rewrite (H x) by left. rewrite IH by (intros; apply H; by right). lia.
Qed.

Lemma sumZ_app {A} (f : A -> Z) l l' : sumZ f (l ++ l') = (sumZ f l + sumZ f l')%Z.
Proof. induction l as [|x l IH]; simpl; [done|]. rewrite IH. lia. Qed.

Lemma sumZ_nonneg {A} (f : A -> Z) l : (forall a, (0 <= f a)%Z) -> (0 <= sumZ f l)%Z.
Proof. intros H. induction l as [|x l IH]; simpl; [lia|]. specialize (H x). lia. Qed.

Lemma sumZ_pos {A} (f : A -> Z) l : (0 < sumZ f l)%Z -> exists i a, l !! i = Some a /\ (0 < f a)%Z.
Proof.
  induction l as [|x l IH]; simpl; [lia|]. intros H. destruct (decide (0 < f x)%Z) as [Hx|Hx].
  - by exists 0%nat, x.
  - destruct IH as (i & a & Hi & Ha); [lia|]. by exists (S i), a.
Qed.

(** * Occurrences in a list of addresses *)

Definition cnt (c : nat) (l : list nat) : Z := Z.of_nat (count_occ Nat.eq_dec l c).

Lemma sumZ_perm {A} (f : A -> Z) l l' : l ≡ₚ l' -> sumZ f l = sumZ f l'.
Proof. induction 1; simpl; lia. Qed.

Lemma cnt_nonneg c l : (0 <= cnt c l)%Z.
Proof. unfold cnt. lia. Qed.
Lemma cnt_cons c d l : cnt c (d :: l) = ((if decide (d = c) then 1 else 0) + cnt c l)%Z.
Proof. unfold cnt. simpl. destruct (Nat.eq_dec d c), (decide (d = c)); try done; lia. Qed.
Lemma cnt_perm c l l' : l ≡ₚ l' -> cnt c l = cnt c l'.
Proof. unfold cnt. intros H. by rewrite (proj1 (Permutation_count_occ Nat.eq_dec l l') H). Qed.
Lemma cnt_elem c l : c ∈ l -> (1 <= cnt c l)%Z.
Proof.
  intros H%list_elem_of_In%(count_occ_In Nat.eq_dec). unfold cnt. lia.
Qed.

Lemma cnt_zero c l : c ∉ l -> cnt c l = 0%Z.
Proof.
  induction l as [|d l IH]; [done|]. intros [Hd Hl]%not_elem_of_cons. rewrite cnt_cons, decide_False by congruence. by rewrite IH.
Qed.
Lemma cnt_NoDup c l : NoDup l -> (cnt c l <= 1)%Z.
Proof.
  induction 1 as [|d l Hd _ IH]; [done|]. rewrite cnt_cons. destruct (decide (d = c)) as [->|]; [rewrite cnt_zero by done|]; lia.
Qed.
#[export] Hint Resolve cnt_nonneg cnt_elem sumZ_le : ssh.
