(* ===== verification/Wire.v ===== *)
(** Wire: the decoders of [codec-util.go] (PTY and window-change payloads).

    A Go byte slice is a [list byte], a Go string the same byte sequence, and a
    [uint32] a [Z] between 0 and 2^32 - 1.  The platform-dependent [int] has
    [int_bits] bits (32 or 64), so that the [int] conversions of the code keep
    their width.  Every slice expression and [binary.BigEndian.Uint32] is a
    primitive that panics out of range, as in Go. *)
From S2P Require Import Prelude.
Local Open Scope Z_scope.

(** ** Primitives of the language and of [encoding/binary] *)

Definition byte_val (b : byte) : Z := Z.of_N (Byte.to_N b).
Definition byte_of (z : Z) : byte :=
  match Byte.of_N (Z.to_N (z mod 256)) with Some b => b | None => x00 end.

(** [in[n:]] and [in[:n]]. *)
Definition slice_from (n : Z) (s : list byte) : outcome (list byte) :=
  if (0 <=? n) && (n <=? Z.of_nat (length s)) then Ok (drop (Z.to_nat n) s) else Panic.
Definition slice_to (n : Z) (s : list byte) : outcome (list byte) :=
  if (0 <=? n) && (n <=? Z.of_nat (length s)) then Ok (take (Z.to_nat n) s) else Panic.

(** [binary.BigEndian.Uint32]. *)
Definition big_endian_uint32 (s : list byte) : outcome Z :=
  match s with
  | b0 :: b1 :: b2 :: b3 :: _ =>
      Ok (Z.lor (Z.lor (Z.lor (byte_val b3) (Z.shiftl (byte_val b2) 8))
                       (Z.shiftl (byte_val b1) 16))
                (Z.shiftl (byte_val b0) 24))
  | _ => Panic
  end.

Definition zlen (s : list byte) : Z := Z.of_nat (length s).

(** ** Data *)
Record Window := mkWindow {
  Width : Z; Height : Z; WidthPixels : Z; HeightPixels : Z }.

(** [gossh.TerminalModes] is a map from opcodes (bytes) to [uint32] values. *)
Record Pty := mkPty {
  Term : list byte;
  PtyWindow : Window;
  TerminalModes : gmap Z Z }.

#[export] Instance Window_eq_dec : EqDecision Window.
Proof. solve_decision. Defined.

Definition zeroWindow : Window := mkWindow 0 0 0 0.

Section Decoders.
Variable int_bits : Z.

Definition parseUint32 (inp : list byte) : outcome (Z * list byte) :=
  if zlen inp <? 4 then Bad
  else let* v := big_endian_uint32 inp in
       let* rest := slice_from 4 inp in
       Ok (v, rest).

Definition uint32ToInt (value : Z) : outcome Z :=
  let result := swrap int_bits value in
  if (0 <=? result) && (uwrap 32 result =? value) then Ok result else Bad.

Definition parseString (inp : list byte) : outcome (list byte * list byte) :=
  if zlen inp <? 4 then Bad
  else
    let* length := big_endian_uint32 inp in
    let* inp := slice_from 4 inp in
    if uwrap 64 (zlen inp) <? uwrap 64 length then Bad
    else
      let n := swrap int_bits length in
      let* out := slice_to n inp in
      let* rest := slice_from n inp in
      Ok (out, rest).

(** The loop over [values := [4]int{}]. *)
Fixpoint parseWindow_loop (i : nat) (s : list byte) : outcome (list Z * list byte) :=
  match i with
  | O => Ok ([], s)
  | S i =>
      let* (value, s) := parseUint32 s in
      let* v := uint32ToInt value in
      let* (values, s) := parseWindow_loop i s in
      Ok (v :: values, s)
  end.

Definition parseWindow (s : list byte) : outcome (Window * list byte) :=
  let* (values, s) := parseWindow_loop 4 s in
  match values with
  | [w; h; wp; hp] => Ok (mkWindow w h wp hp, s)
  | _ => Panic
  end.

Definition parseWinchRequest (s : list byte) : outcome Window :=
  let* (win, rest) := parseWindow s in
  if (length rest =? 0)%nat then Ok win else Bad.

(** [for len(in) > 0 { ... }]; the fuel bounds the number of iterations. *)
Fixpoint parseTerminalModes_loop (fuel : nat) (inp : list byte) (modes : gmap Z Z)
  : outcome (gmap Z Z) :=
  if zlen inp =? 0 then Bad
  else
    match fuel with
    | O => NoFuel
    | S fuel =>
        match inp with
        | [] => Panic
        | b :: _ =>
            let opcode := byte_val b in
            let* inp := slice_from 1 inp in
            if opcode =? 0 then
              if negb (zlen inp =? 0) then Bad else Ok modes
            else if 160 <=? opcode then Ok modes
            else if zlen inp <? 4 then Bad
            else
              let* v := big_endian_uint32 inp in
              let* inp := slice_from 4 inp in
              parseTerminalModes_loop fuel inp (<[opcode := v]> modes)
        end
    end.

Definition parseTerminalModes (inp : list byte) : outcome (gmap Z Z) :=
  parseTerminalModes_loop (length inp) inp ∅.

Definition parsePtyRequest (s : list byte) : outcome Pty :=
  let* (term, s) := parseString s in
  let* (window, s) := parseWindow s in
  let* (encodedModes, rest) := parseString s in
  if negb (length rest =? 0)%nat then Bad
  else
    let* terminalModes := parseTerminalModes encodedModes in
    Ok (mkPty term window terminalModes).
End Decoders.

(** ** Reference encodings (RFC 4251, section 5; RFC 4254, sections 6.2, 6.7 and 8) *)

Definition enc_uint32 (v : Z) : list byte :=
  [byte_of (Z.shiftr v 24); byte_of (Z.shiftr v 16); byte_of (Z.shiftr v 8); byte_of v].
Definition enc_string (s : list byte) : list byte := enc_uint32 (zlen s) ++ s.
Definition enc_window (w : Window) : list byte :=
  enc_uint32 (Width w) ++ enc_uint32 (Height w) ++
  enc_uint32 (WidthPixels w) ++ enc_uint32 (HeightPixels w).

(** A list of (opcode, argument) pairs and a byte string that encodes it: it
    ends with TTY_OP_END (0), which must be the last byte, or at the first
    opcode from 160 on, whose format is undefined. *)
Inductive modes_enc : list (Z * Z) -> list byte -> Prop :=
| modes_end : modes_enc [] [x00]
| modes_undefined op rest : 160 <= byte_val op -> modes_enc [] (op :: rest)
| modes_mode op v l rest :
    0 < op < 160 -> 0 <= v < 2 ^ 32 -> modes_enc l rest ->
    modes_enc ((op, v) :: l) (byte_of op :: enc_uint32 v ++ rest).

Definition apply_modes (l : list (Z * Z)) (m : gmap Z Z) : gmap Z Z :=
  foldl (fun m p => <[p.1 := p.2]> m) m l.

(** ** Bytes and big-endian words *)

Lemma byte_val_range b : 0 <= byte_val b < 256.
Proof. destruct b; vm_compute; split; congruence. Qed.

Lemma byte_of_val b : byte_of (byte_val b) = b.
Proof. destruct b; reflexivity. Qed.

Lemma byte_val_of z : byte_val (byte_of z) = z mod 256.
Proof.
  unfold byte_of, byte_val. pose proof (Z.mod_pos_bound z 256 ltac:(lia)) as Hb.
  destruct (Byte.of_N (Z.to_N (z mod 256))) as [b|] eqn:E.
  - apply Byte.to_of_N in E. rewrite E. lia.
  - exfalso. apply Byte.of_N_None_iff in E. lia.
Qed.

Lemma lor_disjoint_add a b n : 0 <= n -> 0 <= a < 2 ^ n -> Z.lor a (Z.shiftl b n) = a + b * 2 ^ n.
Proof.
  intros Hn Ha. rewrite Z.shiftl_mul_pow2 by lia.
  assert (Hland : Z.land a (b * 2 ^ n) = 0).
  { rewrite <- (Z.mod_small a (2 ^ n)) by lia.
    apply Z.bits_inj'. intros k Hk. rewrite Z.land_spec, Z.bits_0.
    destruct (Z_lt_le_dec k n).
    - rewrite Z.mul_pow2_bits_low by lia. apply andb_false_r.
    - rewrite Z.mod_pow2_bits_high by lia. reflexivity. }
  rewrite Z.add_nocarry_lxor by exact Hland. symmetry. apply Z.lxor_lor, Hland.
Qed.

Lemma big_endian_arith b0 b1 b2 b3 s :
  big_endian_uint32 (b0 :: b1 :: b2 :: b3 :: s) =
  Ok (byte_val b3 + byte_val b2 * 2 ^ 8 + byte_val b1 * 2 ^ 16 + byte_val b0 * 2 ^ 24).
Proof.
  pose proof (byte_val_range b0). pose proof (byte_val_range b1).
  pose proof (byte_val_range b2). pose proof (byte_val_range b3).
  unfold big_endian_uint32. f_equal.
  rewrite (lor_disjoint_add _ (byte_val b2) 8), (lor_disjoint_add _ (byte_val b1) 16),
    (lor_disjoint_add _ (byte_val b0) 24) by lia. reflexivity.
Qed.

Lemma big_endian_range s v : big_endian_uint32 s = Ok v -> 0 <= v < 2 ^ 32.
Proof.
  destruct s as [|b0 [|b1 [|b2 [|b3 s]]]]; try discriminate.
  rewrite big_endian_arith. intros [= <-].
  pose proof (byte_val_range b0). pose proof (byte_val_range b1).
  pose proof (byte_val_range b2). pose proof (byte_val_range b3). lia.
Qed.

Lemma big_endian_enc v s :
  0 <= v < 2 ^ 32 -> big_endian_uint32 (enc_uint32 v ++ s) = Ok v.
Proof.
  intros Hv. unfold enc_uint32. simpl app. rewrite big_endian_arith. f_equal.
  rewrite !byte_val_of, !Z.shiftr_div_pow2 by lia.
  change (2 ^ 8) with 256. change (2 ^ 16) with (256 * 256).
  change (2 ^ 24) with (256 * 256 * 256).
  rewrite <- !Z.div_div by lia.
  pose proof (Z.div_mod v 256 ltac:(lia)).
  pose proof (Z.div_mod (v / 256) 256 ltac:(lia)).
  pose proof (Z.div_mod (v / 256 / 256) 256 ltac:(lia)).
  assert (v / 256 / 256 / 256 < 256).
  { rewrite !Z.div_div by lia. apply Z.div_lt_upper_bound; lia. }
  assert (0 <= v / 256 / 256 / 256) by (rewrite !Z.div_div by lia; apply Z.div_pos; lia).
  rewrite (Z.mod_small (v / 256 / 256 / 256)) by lia. lia.
Qed.

Lemma enc_big_endian b0 b1 b2 b3 v :
  big_endian_uint32 [b0; b1; b2; b3] = Ok v -> enc_uint32 v = [b0; b1; b2; b3].
Proof.
  rewrite big_endian_arith. intros [= <-].
  pose proof (byte_val_range b0). pose proof (byte_val_range b1).
  pose proof (byte_val_range b2). pose proof (byte_val_range b3).
  assert (Hb : forall z b k, z = byte_val b + 256 * k -> byte_of z = b).
  { intros z b k ->. rewrite <- (byte_of_val b) at 2. unfold byte_of.
    rewrite Z.mul_comm, Z_mod_plus_full. reflexivity. }
  unfold enc_uint32. rewrite !Z.shiftr_div_pow2 by lia.
  f_equal; [|f_equal; [|f_equal; [|f_equal]]].
  - apply (Hb _ _ 0). symmetry; apply Z.div_unique with ((byte_val b3) + (byte_val b2) * 2 ^ 8 + (byte_val b1) * 2 ^ 16); lia.
  - apply (Hb _ _ (byte_val b0)). symmetry; apply Z.div_unique with ((byte_val b3) + (byte_val b2) * 2 ^ 8); lia.
  - apply (Hb _ _ ((byte_val b1) + (byte_val b0) * 2 ^ 8)). symmetry; apply Z.div_unique with (byte_val b3); lia.
  - apply (Hb _ _ ((byte_val b2) + (byte_val b1) * 2 ^ 8 + (byte_val b0) * 2 ^ 16)). lia.
Qed.

Lemma length_enc_uint32 v : length (enc_uint32 v) = 4%nat.
Proof. reflexivity. Qed.

Lemma zlen_app s t : zlen (s ++ t) = zlen s + zlen t.
Proof. unfold zlen. rewrite length_app. lia. Qed.
Lemma zlen_nonneg s : 0 <= zlen s.
Proof. unfold zlen. lia. Qed.
Lemma zlen_cons b s : zlen (b :: s) = 1 + zlen s.
Proof. unfold zlen. simpl. lia. Qed.
Lemma zlen_enc_uint32 v : zlen (enc_uint32 v) = 4.
Proof. reflexivity. Qed.
Create Rewrite HintDb wire.
#[export] Hint Rewrite zlen_app zlen_cons zlen_enc_uint32 : wire.

Lemma slice_from_app s t n : n = zlen s -> slice_from n (s ++ t) = Ok t.
Proof.
  intros ->. unfold slice_from, zlen. rewrite length_app, Nat2Z.id.
  replace ((0 <=? Z.of_nat (length s)) && (Z.of_nat (length s) <=? Z.of_nat (length s + length t)))
    with true by (symmetry; apply andb_true_intro; split; apply Z.leb_le; lia).
  rewrite drop_app_length. reflexivity.
Qed.

Lemma slice_to_app s t n : n = zlen s -> slice_to n (s ++ t) = Ok s.
Proof.
  intros ->. unfold slice_to, zlen. rewrite length_app, Nat2Z.id.
  replace ((0 <=? Z.of_nat (length s)) && (Z.of_nat (length s) <=? Z.of_nat (length s + length t)))
    with true by (symmetry; apply andb_true_intro; split; apply Z.leb_le; lia).
  rewrite take_app_length. reflexivity.
Qed.

(** Four bytes are available exactly when the input starts with a word. *)
Lemma word_view s :
  zlen s < 4 \/ exists v rest, 0 <= v < 2 ^ 32 /\ s = enc_uint32 v ++ rest.
Proof.
  destruct s as [|b0 [|b1 [|b2 [|b3 rest]]]]; try (left; vm_compute; reflexivity).
  right. destruct (big_endian_uint32 [b0; b1; b2; b3]) as [v| | |] eqn:E;
    try (rewrite big_endian_arith in E; discriminate).
  exists v, rest. split; [eapply big_endian_range; eauto|].
  rewrite (enc_big_endian _ _ _ _ _ E). reflexivity.
Qed.

Lemma parseUint32_enc v rest :
  0 <= v < 2 ^ 32 -> parseUint32 (enc_uint32 v ++ rest) = Ok (v, rest).
Proof.
  intros Hv. unfold parseUint32. autorewrite with wire.
  pose proof (zlen_nonneg rest).
  destruct (Z.ltb_spec (4 + zlen rest) 4); [lia|].
  rewrite big_endian_enc by lia. cbn [obind].
  rewrite slice_from_app by reflexivity. reflexivity.
Qed.

Lemma parseUint32_short s : zlen s < 4 -> parseUint32 s = Bad.
Proof. intros. unfold parseUint32. destruct (Z.ltb_spec (zlen s) 4); [done|lia]. Qed.

Lemma parseUint32_ok s v rest :
  parseUint32 s = Ok (v, rest) <-> 0 <= v < 2 ^ 32 /\ s = enc_uint32 v ++ rest.
Proof.
  split.
  - destruct (word_view s) as [Hs | (v' & rest' & Hv & ->)].
    + rewrite parseUint32_short by done. discriminate.
    + rewrite parseUint32_enc by done. intros [= <- <-]. done.
  - intros [Hv ->]. by apply parseUint32_enc.
Qed.

Lemma enc_uint32_inj v v' r r' :
  0 <= v < 2 ^ 32 -> 0 <= v' < 2 ^ 32 ->
  enc_uint32 v ++ r = enc_uint32 v' ++ r' -> v = v' /\ r = r'.
Proof.
  intros Hv Hv' E. pose proof (parseUint32_enc v r Hv) as H1.
  rewrite E, parseUint32_enc in H1 by done. by simplify_eq.
Qed.

Section DecoderLemmas.
Context (int_bits : Z) (Hbits : int_bits = 32 \/ int_bits = 64).

(** [int] values that a [uint32] can take. *)
Definition int_limit : Z := Z.min (2 ^ 32) (2 ^ (int_bits - 1)).

Lemma pow_int_bits : 2 ^ 31 <= 2 ^ (int_bits - 1).
Proof. destruct Hbits as [-> | ->]; vm_compute; congruence. Qed.

Lemma uint32ToInt_ok v r :
  0 <= v < 2 ^ 32 -> uint32ToInt int_bits v = Ok r <-> r = v /\ v < int_limit.
Proof.
  intros Hv. unfold uint32ToInt, int_limit.
  destruct (Z_lt_le_dec v (2 ^ (int_bits - 1))) as [Hs|Hs].
  - rewrite swrap_small by lia. rewrite uwrap_small by lia.
    rewrite Z.eqb_refl. destruct (Z.leb_spec 0 v); [|lia]. simpl.
    split; [intros [= <-]; lia | intros [-> _]; done].
  - destruct Hbits as [-> | ->]; [|lia].
    unfold swrap. rewrite Z.mod_small by lia.
    destruct (Z.ltb_spec v (2 ^ (32 - 1))); [lia|].
    destruct (Z.leb_spec 0 (v - 2 ^ 32)); [lia|]. simpl.
    split; [discriminate | lia].
Qed.

Lemma uint32ToInt_returns v : returns (uint32ToInt int_bits v).
Proof. unfold uint32ToInt. by destruct (_ && _). Qed.

(** A slice length is a nonnegative [int]. *)
Definition fits (s : list byte) : Prop := zlen s < 2 ^ (int_bits - 1).

Lemma fits_app_r s t : fits (s ++ t) -> fits t.
Proof using Type. clear Hbits. unfold fits. autorewrite with wire. pose proof (zlen_nonneg s). lia. Qed.

Lemma pow_int_bits_u64 : 2 ^ (int_bits - 1) <= 2 ^ 63.
Proof. destruct Hbits as [-> | ->]; vm_compute; congruence. Qed.

Lemma uwrap64_zlen s : fits s -> uwrap 64 (zlen s) = zlen s.
Proof.
  unfold fits. intros. apply uwrap_small. pose proof (zlen_nonneg s).
  pose proof pow_int_bits_u64. lia.
Qed.

Lemma parseString_enc out rest :
  fits (enc_string out ++ rest) -> zlen out < 2 ^ 32 ->
  parseString int_bits (enc_string out ++ rest) = Ok (out, rest).
Proof.
  intros Hf Ho. unfold parseString, enc_string in *. rewrite <- app_assoc in *.
  assert (Hr : fits (out ++ rest)) by (eapply fits_app_r; eauto).
  autorewrite with wire. pose proof (zlen_nonneg rest). pose proof (zlen_nonneg out).
  destruct (Z.ltb_spec (4 + (zlen out + zlen rest)) 4); [lia|].
  rewrite big_endian_enc by lia. cbn [obind].
  rewrite slice_from_app by reflexivity. cbn [obind].
  rewrite uwrap64_zlen by done. rewrite (uwrap_small 64 (zlen out)) by lia.
  unfold fits in Hr. autorewrite with wire in *.
  destruct (Z.ltb_spec (zlen out + zlen rest) (zlen out)); [lia|].
  rewrite swrap_small by (destruct Hbits; lia).
  rewrite slice_to_app, slice_from_app by done. reflexivity.
Qed.

(** Either the input starts with an encoded string, or the decoder refuses. *)
Lemma parseString_view s :
  fits s ->
  parseString int_bits s = Bad \/
  exists out rest, zlen out < 2 ^ 32 /\ s = enc_string out ++ rest.
Proof.
  intros Hf. destruct (word_view s) as [Hs | (n & body & Hn & ->)].
  - left. unfold parseString. destruct (Z.ltb_spec (zlen s) 4); [done|lia].
  - destruct (Z_lt_le_dec (zlen body) n) as [Hl|Hl].
    + left. unfold parseString. autorewrite with wire.
      pose proof (zlen_nonneg body).
      destruct (Z.ltb_spec (4 + zlen body) 4); [lia|].
      rewrite big_endian_enc by lia. cbn [obind].
      rewrite slice_from_app by reflexivity. cbn [obind].
      rewrite uwrap64_zlen by (eapply fits_app_r; eauto).
      rewrite (uwrap_small 64 n) by lia.
      destruct (Z.ltb_spec (zlen body) n); [done|lia].
    + right. exists (take (Z.to_nat n) body), (drop (Z.to_nat n) body).
      assert (Hz : zlen (take (Z.to_nat n) body) = n).
      { unfold zlen in *. rewrite length_take. lia. }
      unfold enc_string. rewrite Hz, <- app_assoc, take_drop. split; [lia|done].
Qed.

Lemma parseString_ok s out rest :
  fits s ->
  parseString int_bits s = Ok (out, rest) <->
  zlen out < 2 ^ 32 /\ s = enc_string out ++ rest.
Proof.
  intros Hf. split.
  - intros E. destruct (parseString_view s Hf) as [E' | (o & r & Ho & ->)]; [congruence|].
    rewrite parseString_enc in E by done. by simplify_eq.
  - intros [Ho ->]. by apply parseString_enc.
Qed.

Lemma parseString_returns s : fits s -> returns (parseString int_bits s).
Proof.
  intros Hf. destruct (parseString_view s Hf) as [E | (o & r & Ho & ->)].
  - by rewrite E.
  - by rewrite parseString_enc.
Qed.

Lemma parseUint32_returns s : returns (parseUint32 s).
Proof.
  destruct (word_view s) as [Hs | (v & rest & Hv & ->)].
  - by rewrite parseUint32_short.
  - by rewrite parseUint32_enc.
Qed.

Lemma parseWindow_loop_ok i s values rest :
  parseWindow_loop int_bits i s = Ok (values, rest) <->
  length values = i /\ Forall (fun v => 0 <= v < int_limit) values /\
  s = concat (map enc_uint32 values) ++ rest.
Proof.
  revert s values. induction i as [|i IH]; intros s values; cbn [parseWindow_loop].
  - split.
    + intros [= <- <-]. done.
    + intros (Hl & _ & ->). by apply nil_length_inv in Hl as ->.
  - split.
    + intros E. apply obind_ok in E as ((v & s1) & E1 & E).
      apply obind_ok in E as (v' & E2 & E). apply obind_ok in E as ((vs & r) & E3 & [= <- <-]).
      apply parseUint32_ok in E1 as [Hv ->]. apply uint32ToInt_ok in E2 as [-> Hv']; [|done].
      apply IH in E3 as (Hl & Hvs & ->). cbn [length map concat].
      rewrite <- app_assoc. split; [lia|]. split; [constructor; [lia|done]|done].
    + intros (Hl & Hvs & ->). destruct values as [|v vs]; [done|].
      apply Forall_cons in Hvs as [Hv Hvs]. cbn [map concat]. rewrite <- app_assoc.
      unfold int_limit in Hv.
      rewrite parseUint32_enc by lia. cbn [obind].
      rewrite (proj2 (uint32ToInt_ok v v ltac:(lia))) by (unfold int_limit; lia). cbn [obind].
      rewrite (proj2 (IH _ vs)); [done|]. auto with lia.
Qed.

Definition window_ok (w : Window) : Prop :=
  Forall (fun v => 0 <= v < int_limit) [Width w; Height w; WidthPixels w; HeightPixels w].

Lemma parseWindow_ok s w rest :
  parseWindow int_bits s = Ok (w, rest) <-> window_ok w /\ s = enc_window w ++ rest.
Proof.
  unfold parseWindow, window_ok, enc_window. rewrite <- !app_assoc. split.
  - intros E. apply obind_ok in E as ((vs & r) & E1 & E).
    apply parseWindow_loop_ok in E1 as (Hl & Hvs & ->).
    destruct vs as [|w0 [|h [|wp [|hp [|? ?]]]]]; try discriminate.
    injection E as [= <- <-]. cbn [Width Height WidthPixels HeightPixels map concat] in *.
    by rewrite <- ?app_assoc.
  - intros [Hw ->]. destruct w as [w0 h wp hp]. cbn in Hw.
    erewrite (proj2 (parseWindow_loop_ok 4 _ [w0; h; wp; hp] rest)); [done|].
    split; [done|]. split; [done|]. cbn [Width Height WidthPixels HeightPixels map concat].
    by rewrite <- ?app_assoc.
Qed.

Lemma parseWindow_loop_returns i s : returns (parseWindow_loop int_bits i s).
Proof.
  revert s. induction i as [|i IH]; intros s; [done|]. cbn [parseWindow_loop].
  apply returns_bind; [apply parseUint32_returns|]. intros [v s1] _.
  apply returns_bind; [apply uint32ToInt_returns|]. intros v' _.
  apply returns_bind; [apply IH|]. by intros [vs s2] _.
Qed.

Lemma parseWindow_returns s : returns (parseWindow int_bits s).
Proof.
  unfold parseWindow. apply returns_bind; [apply parseWindow_loop_returns|].
  intros [vs r] E. apply parseWindow_loop_ok in E as (Hl & _).
  destruct vs as [|? [|? [|? [|? [|? ?]]]]]; try discriminate. done.
Qed.
End DecoderLemmas.

(** ** Terminal modes *)

Lemma modes_loop_fuel fuel inp m :
  (length inp <= fuel)%nat -> returns (parseTerminalModes_loop fuel inp m).
Proof.
  revert inp m. induction fuel as [|fuel IH]; intros inp m Hl; cbn [parseTerminalModes_loop].
  - destruct inp; [done|simpl in Hl; lia].
  - destruct inp as [|b inp]; [done|]. destruct (zlen (b :: inp) =? 0); [done|].
    change (b :: inp) with ([b] ++ inp). rewrite slice_from_app by done. cbn [obind].
    destruct (byte_val b =? 0); [by destruct (negb _)|].
    destruct (160 <=? byte_val b); [done|].
    destruct (word_view inp) as [Hs | (v & rest & Hv & ->)].
    + destruct (Z.ltb_spec (zlen inp) 4); [done|lia].
    + destruct (Z.ltb_spec (zlen (enc_uint32 v ++ rest)) 4); [done|].
      rewrite big_endian_enc, slice_from_app by done. cbn [obind].
      apply IH. rewrite length_cons, length_app, length_enc_uint32 in Hl. lia.
Qed.

Lemma modes_enc_cons l b inp :
  modes_enc l (b :: inp) ->
  (byte_val b = 0 /\ inp = [] /\ l = []) \/
  (160 <= byte_val b /\ l = []) \/
  (exists v l' rest, 0 < byte_val b < 160 /\ 0 <= v < 2 ^ 32 /\
     l = (byte_val b, v) :: l' /\ inp = enc_uint32 v ++ rest /\ modes_enc l' rest).
Proof.
  inversion 1 as [|op r Hop|op v l' rest Hop Hv Hr]; subst.
  - left. done.
  - right; left. done.
  - right; right. exists v, l', rest.
    rewrite byte_val_of, Z.mod_small by lia. done.
Qed.

Lemma modes_loop_ok fuel inp m m' :
  (length inp <= fuel)%nat ->
  parseTerminalModes_loop fuel inp m = Ok m' <->
  exists l, modes_enc l inp /\ m' = apply_modes l m.
Proof.
  revert inp m. induction fuel as [|fuel IH]; intros inp m Hl.
  { destruct inp; [|simpl in Hl; lia]. cbn. split; [done|]. intros (l & H & _). inversion H. }
  cbn [parseTerminalModes_loop]. destruct inp as [|b inp].
  { cbn. split; [done|]. intros (l & H & _). inversion H. }
  destruct (Z.eqb_spec (zlen (b :: inp)) 0) as [E|_].
  { autorewrite with wire in E. pose proof (zlen_nonneg inp). lia. }
  change (slice_from 1 (b :: inp)) with (slice_from 1 ([b] ++ inp)).
  rewrite slice_from_app by done. cbn [obind]. pose proof (byte_val_range b).
  destruct (Z.eqb_spec (byte_val b) 0) as [E0|N0]; [|destruct (Z.leb_spec 160 (byte_val b))].
  - destruct inp as [|c inp].
    + cbn. split.
      * intros [= <-]. exists []. split; [|done].
        replace b with x00 by (rewrite <- (byte_of_val b), E0; done). constructor.
      * intros (l & Hm & ->). by apply modes_enc_cons in Hm as [(_ & _ & ->)|[[? _]|(? & ? & ? & ? & _)]]; [|lia..].
    + replace (zlen (c :: inp) =? 0) with false
        by (symmetry; apply Z.eqb_neq; autorewrite with wire; pose proof (zlen_nonneg inp); lia).
      split; [done|]. intros (l & Hm & ->).
      by apply modes_enc_cons in Hm as [(_ & ? & _)|[[? _]|(? & ? & ? & ? & _)]]; [|lia..].
  - split; [intros [= <-]; exists []; split; [by constructor|done]|].
    intros (l & Hm & ->). by apply modes_enc_cons in Hm as [(? & _)|[[_ ->]|(? & ? & ? & ? & _)]]; [lia|..|lia].
  - destruct (word_view inp) as [Hs | (v & rest & Hv & ->)].
    + destruct (Z.ltb_spec (zlen inp) 4); [|lia]. split; [done|]. intros (l & Hm & ->).
      apply modes_enc_cons in Hm as [(? & _)|[[? _]|(v & l' & rest & _ & _ & _ & -> & _)]]; [lia..|].
      autorewrite with wire in Hs. pose proof (zlen_nonneg rest). lia.
    + autorewrite with wire. pose proof (zlen_nonneg rest).
      destruct (Z.ltb_spec (4 + zlen rest) 4); [lia|].
      rewrite big_endian_enc, slice_from_app by done. cbn [obind].
      rewrite IH by (rewrite length_cons, length_app, length_enc_uint32 in Hl; lia).
      split.
      * intros (l & Hm & ->). exists ((byte_val b, v) :: l). split; [|done].
        rewrite <- (byte_of_val b) at 2. by constructor; [lia|..].
      * intros (l & Hm & ->).
        apply modes_enc_cons in Hm as [(? & _)|[[? _]|(v' & l' & rest' & _ & Hv' & -> & E & Hm)]]; [lia..|].
        apply enc_uint32_inj in E as [-> ->]; [|done..]. by exists l'.
Qed.

Lemma parseTerminalModes_returns inp : returns (parseTerminalModes inp).
Proof. by apply modes_loop_fuel. Qed.

Lemma parseTerminalModes_ok inp m :
  parseTerminalModes inp = Ok m <-> exists l, modes_enc l inp /\ m = apply_modes l ∅.
Proof. by apply modes_loop_ok. Qed.

(** ** The contract of the decoders *)

(** The wire form of a PTY request: term, window and modes, with [l] the list
    of modes that the mode string carries. *)
Definition pty_wire (int_bits : Z) (p : Pty) (s : list byte) : Prop :=
  exists modes l,
    s = enc_string (Term p) ++ enc_window (PtyWindow p) ++ enc_string modes /\
    zlen (Term p) < 2 ^ 32 /\ zlen modes < 2 ^ 32 /\
    window_ok int_bits (PtyWindow p) /\
    modes_enc l modes /\ TerminalModes p = apply_modes l ∅.

(** C37. [parsePtyRequest] accepts exactly the well-formed [pty-req] payloads and
    returns what they encode: it returns a PTY for an input if and only if the
    input is the RFC 4254 encoding of that PTY (term, four window words, a
    mode string that is terminated), with nothing after it and every window
    dimension a nonnegative [int]. *)
Theorem parsePtyRequest_exact int_bits s p :
  int_bits = 32 \/ int_bits = 64 -> fits int_bits s ->
  parsePtyRequest int_bits s = Ok p <-> pty_wire int_bits p s.
Proof.
  intros Hb Hf. unfold parsePtyRequest, pty_wire. split.
  - intros E. apply obind_ok in E as ((term & s1) & E1 & E).
    apply parseString_ok in E1 as [Ht ->]; [|done..].
    apply obind_ok in E as ((w & s2) & E2 & E). apply parseWindow_ok in E2 as [Hw ->]; [|done].
    apply obind_ok in E as ((modes & rest) & E3 & E).
    do 2 apply fits_app_r in Hf. apply parseString_ok in E3 as [Hm ->]; [|done..].
    destruct rest; [|done]. cbn in E. apply obind_ok in E as (m & E4 & [= <-]).
    apply parseTerminalModes_ok in E4 as (l & Hl & ->).
    exists modes, l. rewrite app_nil_r. done.
  - intros (modes & l & -> & Ht & Hm & Hw & Hl & Hmodes). destruct p as [term w tm].
    cbn [Term PtyWindow TerminalModes] in *.
    rewrite parseString_enc by done. cbn [obind].
    rewrite (proj2 (parseWindow_ok _ Hb _ w _)) by done. cbn [obind].
    rewrite <- (app_nil_r (enc_string modes)) in Hf |- *.
    do 2 apply fits_app_r in Hf. rewrite parseString_enc by done. cbn.
    rewrite (proj2 (parseTerminalModes_ok modes tm)) by eauto. done.
Qed.

(** A request for the terminal "vt" of 80 by 24 characters with ECHO (53) on. *)
Definition sample_modes : list byte := [x35; x00; x00; x00; x01; x00].
Definition sample_pty : Pty :=
  mkPty [x76; x74] (mkWindow 80 24 0 0) (<[53 := 1]> ∅).
Definition sample_payload : list byte :=
  enc_string (Term sample_pty) ++ enc_window (PtyWindow sample_pty) ++ enc_string sample_modes.

Lemma sample_pty_wire : pty_wire 64 sample_pty sample_payload.
Proof.
  exists sample_modes, [(53, 1)]. split; [done|].
  split; [done|]. split; [done|]. split; [unfold window_ok; by_decide|].
  split; [|done]. apply (modes_mode 53 1 [] [x00]); [lia|lia|constructor].
Qed.

Lemma parsePtyRequest_exact_witness :
  parsePtyRequest 64 sample_payload = Ok sample_pty.
Proof.
  apply (parsePtyRequest_exact 64 sample_payload sample_pty);
    [right; reflexivity | vm_compute; reflexivity | exact sample_pty_wire].
Defined.

(** No input makes [parsePtyRequest] panic or loop: on every byte slice
    whose length is an [int], each slice expression and word read is in
    range and the loop over the terminal modes ends. *)
Theorem parsePtyRequest_returns int_bits s :
  int_bits = 32 \/ int_bits = 64 -> fits int_bits s ->
  returns (parsePtyRequest int_bits s).
Proof.
  intros Hb Hf. unfold parsePtyRequest.
  apply returns_bind; [by apply parseString_returns|]. intros [term s1] E1.
  apply parseString_ok in E1 as [Ht ->]; [|done..]. apply fits_app_r in Hf.
  apply returns_bind; [by apply parseWindow_returns|]. intros [w s2] E2.
  apply parseWindow_ok in E2 as [Hw ->]; [|done]. apply fits_app_r in Hf.
  apply returns_bind; [by apply parseString_returns|]. intros [modes rest] E3.
  destruct (negb _); [done|].
  apply returns_bind; [apply parseTerminalModes_returns|]. done.
Qed.

Lemma parsePtyRequest_returns_witness :
  returns (parsePtyRequest 32 [x00; x00; x00; xff; x01]).
Proof. apply parsePtyRequest_returns; [left; reflexivity | vm_compute; reflexivity]. Defined.

(** [parseWinchRequest] accepts exactly the 16-byte encodings of a window
    whose dimensions are nonnegative [int]s, and returns that window; on a
    32-bit platform a dimension of 2^31 or more is refused, on a 64-bit
    platform every [uint32] is accepted. *)
Theorem parseWinchRequest_exact int_bits s w :
  int_bits = 32 \/ int_bits = 64 ->
  parseWinchRequest int_bits s = Ok w <-> s = enc_window w /\ window_ok int_bits w.
Proof.
  intros Hb. unfold parseWinchRequest. split.
  - intros E. apply obind_ok in E as ((w' & rest) & E1 & E).
    apply parseWindow_ok in E1 as [Hw ->]; [|done].
    destruct rest; [|done]. cbn in E. injection E as [= <-]. by rewrite app_nil_r.
  - intros [-> Hw]. rewrite <- (app_nil_r (enc_window w)).
    by rewrite (proj2 (parseWindow_ok _ Hb _ w [])).
Qed.

Lemma parseWinchRequest_exact_witness :
  parseWinchRequest 32 (enc_window (mkWindow 132 50 0 0)) = Ok (mkWindow 132 50 0 0).
Proof.
  apply (parseWinchRequest_exact 32); [left; reflexivity|].
  split; [reflexivity | unfold window_ok; by_decide].
Defined.
