(* ===== verification/GoErrors.v ===== *)
(** GoErrors: error values as the trees that [errors.Is], [errors.As] and
    [errors.Join] walk, with the functions of [error-handling.go],
    [session.go] and [io-util.go] that classify them.

    An [error] is a non-nil Go error; the interface value is [option error].
    Values made by [errors.New] carry an identity, wrappers are identified with
    their structure (two wrappers of the same kind around the same cause are
    the same value of the model). *)
From S2P Require Import Prelude.
Local Open Scope Z_scope.

(** ** Data *)

Record SessionExitError := mkSessionExitError { Code : Z; Message : string }.

(** What this code can observe of an error type of another package that wraps
    nothing: its text, the [*SessionExitError] its [As] method offers, what
    [Temporary] of [net.Error] answers, whether it is a
    [*gossh.PartialSuccessError], and reason and message of a
    [*gossh.OpenChannelError]. *)
Record Foreign := mkForeign {
  f_id : Z;
  f_text : string;
  f_as_exit : option SessionExitError;
  f_net_temporary : option bool;
  f_partial : bool;
  f_open_channel : option (Z * string) }.

Definition ErrorScope := Z.
Definition ErrorScopeServer : ErrorScope := 0.
Definition ErrorScopeConnection : ErrorScope := 1.
Definition ErrorScopeRequest : ErrorScope := 2.
Definition ErrorScopeChannel : ErrorScope := 3.
Definition ErrorScopeSession : ErrorScope := 4.
Definition ErrorScopeForwarding : ErrorScope := 5.

Definition ErrorOperation := Z.
Definition ErrorOperationAccept : ErrorOperation := 0.
Definition ErrorOperationParse : ErrorOperation := 1.
Definition ErrorOperationHandle : ErrorOperation := 2.
Definition ErrorOperationReply : ErrorOperation := 3.
Definition ErrorOperationHandshake : ErrorOperation := 4.
Definition ErrorOperationDial : ErrorOperation := 5.
Definition ErrorOperationListen : ErrorOperation := 6.
Definition ErrorOperationOpenChannel : ErrorOperation := 7.
Definition ErrorOperationForward : ErrorOperation := 8.

Inductive error : Type :=
| ErrNew (id : Z) (text : string)                 (* errors.New *)
| ErrErrno (n : Z)                                (* syscall.Errno *)
| ErrForeign (f : Foreign)
| ErrExit (e : option SessionExitError)           (* *SessionExitError, possibly a nil pointer *)
| ErrLocated (scope : ErrorScope) (operation : ErrorOperation) (err : error)  (* *locatedError *)
| ErrWrap (text : string) (err : error)           (* fmt.Errorf with %w *)
| ErrNetOp (text : string) (temporary : bool) (err : option error)  (* *net.OpError *)
| ErrSyscall (text : string) (err : option error) (* *os.SyscallError *)
| ErrJoin (errs : list error).                    (* Unwrap() []error *)

(** Sentinels of the standard library and of this package. *)
Definition io_EOF := ErrNew 1 "EOF".
Definition io_ErrClosedPipe := ErrNew 2 "io: read/write on closed pipe".
Definition net_ErrClosed := ErrNew 3 "use of closed network connection".
Definition context_Canceled := ErrNew 4 "context canceled".
Definition context_DeadlineExceeded := ErrNew 5 "context deadline exceeded".
Definition io_ErrShortWrite := ErrNew 6 "short write".
Definition syscall_EIO := ErrErrno 5.
Definition unix_EPIPE := ErrErrno 32.

(** ** Identity of error values *)

#[export] Instance SessionExitError_eq_dec : EqDecision SessionExitError.
Proof. solve_decision. Defined.
#[export] Instance Foreign_eq_dec : EqDecision Foreign.
Proof. solve_decision. Defined.

(** [err == target] on interface values. *)
Fixpoint error_eqb (a b : error) {struct a} : bool :=
  match a, b with
  | ErrNew i s, ErrNew j t => (i =? j) && bool_decide (s = t)
  | ErrErrno m, ErrErrno n => m =? n
  | ErrForeign f, ErrForeign g => bool_decide (f = g)
  | ErrExit x, ErrExit y => bool_decide (x = y)
  | ErrLocated s o x, ErrLocated s' o' y => (s =? s') && (o =? o') && error_eqb x y
  | ErrWrap s x, ErrWrap t y => bool_decide (s = t) && error_eqb x y
  | ErrNetOp s u None, ErrNetOp t v None => bool_decide (s = t) && bool_decide (u = v)
  | ErrNetOp s u (Some x), ErrNetOp t v (Some y) =>
      bool_decide (s = t) && bool_decide (u = v) && error_eqb x y
  | ErrSyscall s None, ErrSyscall t None => bool_decide (s = t)
  | ErrSyscall s (Some x), ErrSyscall t (Some y) => bool_decide (s = t) && error_eqb x y
  | ErrJoin l, ErrJoin m =>
      (fix go l m := match l, m with
                     | [], [] => true
                     | x :: l, y :: m => error_eqb x y && go l m
                     | _, _ => false
                     end) l m
  | _, _ => false
  end.

(** ** The standard library's [errors] package *)

Definition error_children (e : error) : list error :=
  match e with
  | ErrLocated _ _ x | ErrWrap _ x => [x]
  | ErrNetOp _ _ x | ErrSyscall _ x => match x with Some x => [x] | None => [] end
  | ErrJoin l => l
  | _ => []
  end.

(** Depth-first search for the first error of the tree that [f] accepts: the
    order of [errors.Is] and [errors.As]. *)
Fixpoint errors_find {A} (f : error -> option A) (e : error) {struct e} : option A :=
  match f e with
  | Some a => Some a
  | None =>
      match e with
      | ErrLocated _ _ x | ErrWrap _ x => errors_find f x
      | ErrNetOp _ _ (Some x) | ErrSyscall _ (Some x) => errors_find f x
      | ErrJoin l =>
          (fix go l := match l with
                       | [] => None
                       | x :: l => match errors_find f x with Some a => Some a | None => go l end
                       end) l
      | _ => None
      end
  end.

(** [errors.Is]. *)
Definition errors_Is (err target : option error) : bool :=
  match err, target with
  | None, None => true
  | Some e, Some t =>
      if errors_find (fun x => if error_eqb x t then Some tt else None) e is Some _ then true else false
  | _, _ => false
  end.

(** [errors.Join] drops the nil values and is nil when nothing is left. *)
Definition errors_Join (errs : list (option error)) : option error :=
  match omap id errs with
  | [] => None
  | l => Some (ErrJoin l)
  end.

(** [errors.Unwrap]: the result of [Unwrap() error], nil for a join. *)
Definition errors_Unwrap (e : error) : option error :=
  match e with
  | ErrLocated _ _ x | ErrWrap _ x => Some x
  | ErrNetOp _ _ x | ErrSyscall _ x => x
  | _ => None
  end.

(** ** [error-handling.go] and [session.go] *)

Definition locateError (scope : ErrorScope) (operation : ErrorOperation) (err : error) : error :=
  ErrLocated scope operation err.

Definition as_located (e : error) : option (ErrorScope * ErrorOperation) :=
  match e with ErrLocated s o _ => Some (s, o) | _ => None end.

Definition resolveErrorLocation (scope : ErrorScope) (operation : ErrorOperation)
    (err : option error) : ErrorScope * ErrorOperation :=
  match err with
  | Some e => match errors_find as_located e with Some l => l | None => (scope, operation) end
  | None => (scope, operation)
  end.

(** [isOnlyError] on non-nil arguments; [isOnlyErrorOpt] adds the nil test. *)
Fixpoint isOnlyError (err target : error) {struct err} : bool :=
  match err with
  | ErrJoin children =>
      match children with
      | [] => false
      | _ :: _ =>
          (fix go l := match l with
                       | [] => true
                       | child :: l => if negb (isOnlyError child target) then false else go l
                       end) children
      end
  | ErrLocated _ _ wrapped | ErrWrap _ wrapped => isOnlyError wrapped target
  | ErrNetOp _ _ (Some wrapped) | ErrSyscall _ (Some wrapped) => isOnlyError wrapped target
  | _ => errors_Is (Some err) (Some target)
  end.
Definition isOnlyErrorOpt (err target : option error) : bool :=
  match err, target with
  | Some e, Some t => isOnlyError e t
  | _, _ => false
  end.

Definition as_exit (e : error) : option SessionExitError :=
  match e with
  | ErrExit x => x
  | ErrForeign f => f_as_exit f
  | _ => None
  end.

(** [exclusiveSessionExitError]: [Some x] stands for [(x, true)]. *)
Fixpoint exclusiveSessionExitError (err : error) {struct err} : option SessionExitError :=
  match err with
  | ErrExit (Some exitErr) => Some exitErr
  | ErrJoin children =>
      (fix go l result :=
         match l with
         | [] => result
         | child :: l =>
             match exclusiveSessionExitError child, result with
             | Some exitErr, None => go l (Some exitErr)
             | _, _ => None
             end
         end) children None
  | ErrLocated _ _ wrapped | ErrWrap _ wrapped => exclusiveSessionExitError wrapped
  | ErrNetOp _ _ (Some wrapped) | ErrSyscall _ (Some wrapped) => exclusiveSessionExitError wrapped
  | _ => errors_find as_exit err
  end.
Definition exclusiveSessionExitErrorOpt (err : option error) : option SessionExitError :=
  match err with Some e => exclusiveSessionExitError e | None => None end.

(** [Error()] of the error types; the texts of the standard library's
    wrappers are data. *)
Definition SessionExitError_Error (e : option SessionExitError) : string :=
  match e with
  | None => "ssh: session exit requested"
  | Some e =>
      if bool_decide (Message e = "")
      then "ssh: session exit requested with code " +:+ pretty (Code e)
      else "ssh: session exit requested with code " +:+ pretty (Code e) +:+ ": " +:+ Message e
  end%string.

Fixpoint error_text (e : error) : string :=
  match e with
  | ErrNew _ text | ErrWrap text _ | ErrNetOp text _ _ | ErrSyscall text _ => text
  | ErrErrno n => "errno " +:+ pretty n
  | ErrForeign f => f_text f
  | ErrExit x => SessionExitError_Error x
  | ErrLocated _ _ x => error_text x
  | ErrJoin l =>
      (fix go l := match l with
                   | [] => ""
                   | [x] => error_text x
                   | x :: l => error_text x +:+ String (Ascii.ascii_of_nat 10) (go l)
                   end) l
  end%string.

(** ** [io-util.go] *)

Definition as_syscall (e : error) : option (option error) :=
  match e with ErrSyscall _ x => Some x | _ => None end.
Definition as_netop (e : error) : option (option error) :=
  match e with ErrNetOp _ _ x => Some x | _ => None end.

(** [_isClosedError] of [io-util_unix.go]. *)
Definition _isClosedError (err : error) : bool :=
  match errors_find as_syscall err with
  | Some (Some inner) => error_eqb inner unix_EPIPE
  | _ => false
  end.

Definition isClosedError (err : option error) : bool :=
  match err with
  | None => false
  | Some e =>
      if errors_Is err (Some io_ErrClosedPipe) || errors_Is err (Some io_EOF) ||
         errors_Is err (Some net_ErrClosed)
      then true
      else if _isClosedError e then true
      else match errors_find as_netop e with
           | Some (Some inner) =>
               bool_decide (error_text inner = "use of closed network connection"%string)
           | _ => false
           end
  end.

Definition isRelevantIoError (err : option error) : bool :=
  match err with
  | None => false
  | Some _ => negb (errors_Is err (Some syscall_EIO)) && negb (isClosedError err)
  end.

(** Which error types implement [net.Error], and what [Temporary] answers. *)
Definition errno_temporary (n : Z) : bool :=
  bool_decide (n ∈ [4; 11; 23; 24; 110]).   (* EINTR, EAGAIN, ENFILE, EMFILE, ETIMEDOUT *)
Definition as_net (e : error) : option bool :=
  match e with
  | ErrErrno n => Some (errno_temporary n)
  | ErrNetOp _ temporary _ => Some temporary
  | ErrForeign f => f_net_temporary f
  | ErrNew _ _ =>
      if error_eqb e net_ErrClosed then Some false
      else if error_eqb e context_DeadlineExceeded then Some true else None
  | _ => None
  end.
(** [errors.AsType[net.Error]]. *)
Definition as_net_error (err : option error) : option bool :=
  match err with Some e => errors_find as_net e | None => None end.

(** ** Structural facts *)

(** Induction with the hypothesis for every error a value wraps. *)
Lemma error_children_ind (Q : error -> Prop) :
  (forall e, Forall Q (error_children e) -> Q e) -> forall e, Q e.
Proof.
  intros H. fix IH 1. intros e. apply H. destruct e as [| | | |s o x|t x|t tmp x|t x|l]; simpl.
  1-4: constructor.
  1-2: by constructor; [apply IH|constructor].
  1-2: destruct x as [x|]; [by constructor; [apply IH|constructor]|constructor].
  induction l as [|x l IHl]; constructor; [apply IH|exact IHl].
Qed.

Lemma error_eqb_eq a b : error_eqb a b = true <-> a = b.
Proof.
  revert b. induction a as [a IH] using error_children_ind. intros b.
  destruct a as [i s|n|f|x|s o x|s x|s u [x|]|s [x|]|l],
    b as [j t|m|g|y|s' o' y|t y|t v [y|]|t [y|]|m]; simpl in *;
    try (split; intros; discriminate);
    try (apply List.Forall_inv in IH; cbv beta in IH; rewrite !andb_true_iff, ?Z.eqb_eq, ?bool_decide_eq_true, IH);
    rewrite ?andb_true_iff, ?Z.eqb_eq, ?bool_decide_eq_true; try (split; naive_solver).
  revert m. induction IH as [|x l Hx Hl IHl]; intros [|y m]; try (split; intros; done).
  rewrite andb_true_iff, Hx, IHl. naive_solver.
Qed.

#[export] Instance error_eq_dec : EqDecision error.
Proof.
  intros a b. destruct (error_eqb a b) eqn:E.
  - left. by apply error_eqb_eq.
  - right. intros H%error_eqb_eq. congruence.
Defined.

Lemma error_eqb_refl e : error_eqb e e = true.
Proof. by apply error_eqb_eq. Qed.

(** [errors_find] by the children of a node. *)
Fixpoint find_first {A} (f : error -> option A) (l : list error) : option A :=
  match l with
  | [] => None
  | x :: l => match errors_find f x with Some a => Some a | None => find_first f l end
  end.

Lemma errors_find_unfold {A} (f : error -> option A) e :
  errors_find f e = match f e with Some a => Some a | None => find_first f (error_children e) end.
Proof.
  destruct e as [| | | |s o x|t x|t tmp [x|]|t [x|]|l]; cbn [errors_find]; destruct (f _); cbn; try done;
    try by destruct (errors_find f x).
  induction l as [|x l IHl]; cbn; [done|]. destruct (errors_find f x); [done|apply IHl].
Qed.

(** The errors at the ends of the tree. *)
Fixpoint error_leaves (e : error) : list error :=
  match e with
  | ErrLocated _ _ x | ErrWrap _ x => error_leaves x
  | ErrNetOp _ _ (Some x) | ErrSyscall _ (Some x) => error_leaves x
  | ErrJoin l => flat_map error_leaves l
  | _ => [e]
  end.

Lemma leaf_children e l : l ∈ error_leaves e -> error_children l = [].
Proof.
  induction e as [e IH] using error_children_ind.
  destruct e as [| | | |s o x|t x|t tmp [x|]|t [x|]|ls]; simpl in *;
    try (by intros ->%list_elem_of_singleton);
    try (by apply List.Forall_inv in IH).
  induction IH as [|x ls Hx Hls IHls]; simpl; [by intros ?%not_elem_of_nil|].
  intros [H|H]%elem_of_app; auto.
Qed.

(** No join is empty: [errors.Join] and [fmt.Errorf] never build one. *)
Fixpoint wf_error (e : error) : bool :=
  match e with
  | ErrLocated _ _ x | ErrWrap _ x => wf_error x
  | ErrNetOp _ _ (Some x) | ErrSyscall _ (Some x) => wf_error x
  | ErrJoin l => negb (bool_decide (l = [])) && forallb wf_error l
  | _ => true
  end.

Lemma wf_leaves e : wf_error e = true -> error_leaves e <> [].
Proof.
  induction e as [e IH] using error_children_ind.
  destruct e as [| | | |s o x|t x|t tmp [x|]|t [x|]|l]; simpl in *; try done;
    try by apply List.Forall_inv in IH.
  intros [Hne Hwf]%andb_true_iff. destruct l as [|x l]; [done|]. simpl in *.
  apply Forall_cons in IH as [Hx _]. apply andb_true_iff in Hwf as [Hwf _].
  intros [H _]%app_eq_nil. by apply Hx.
Qed.

(** ** Classification of error trees *)

Lemma errors_Is_leaf e t :
  error_children e = [] -> errors_Is (Some e) (Some t) = error_eqb e t.
Proof.
  intros H. unfold errors_Is. rewrite errors_find_unfold, H. simpl. by destruct (error_eqb e t).
Qed.

Lemma errors_Is_child e x t :
  x ∈ error_children e -> errors_Is (Some x) (Some t) = true -> errors_Is (Some e) (Some t) = true.
Proof.
  unfold errors_Is. intros Hx Ht. rewrite errors_find_unfold. destruct (error_eqb e t); [done|].
  induction (error_children e) as [|y l IH]; [by apply not_elem_of_nil in Hx|]. simpl.
  destruct (errors_find _ y) eqn:Ey; [done|].
  apply elem_of_cons in Hx as [->|Hx]; [by rewrite Ey in Ht|by apply IH].
Qed.

Lemma errors_Is_refl e : errors_Is (Some e) (Some e) = true.
Proof. unfold errors_Is. rewrite errors_find_unfold. by rewrite error_eqb_refl. Qed.

(** A joined error is found in the join. *)
Lemma errors_Is_Join errs e t :
  Some e ∈ errs -> errors_Is (Some e) (Some t) = true -> errors_Is (errors_Join errs) (Some t) = true.
Proof.
  intros He Ht. unfold errors_Join. assert (Hin : e ∈ omap id errs) by (apply list_elem_of_omap; eauto).
  destruct (omap id errs) as [|x l]; [by apply not_elem_of_nil in Hin|].
  by apply (errors_Is_child (ErrJoin (x :: l)) e).
Qed.

(** The join cases of the two walks, as list functions. *)
Lemma isOnlyError_join l t :
  isOnlyError (ErrJoin l) t = negb (bool_decide (l = [])) && forallb (fun e => isOnlyError e t) l.
Proof.
  destruct l as [|x l]; [done|]. simpl. destruct (isOnlyError x t); [|done]. simpl.
  induction l as [|y l IH]; [done|]. simpl. by destruct (isOnlyError y t).
Qed.

Lemma exclusive_join_two x y l :
  exclusiveSessionExitError (ErrJoin (x :: y :: l)) = None.
Proof.
  cbn. destruct (exclusiveSessionExitError x); [|done]. by destruct (exclusiveSessionExitError y).
Qed.

Lemma exclusive_join_one x :
  exclusiveSessionExitError (ErrJoin [x]) = exclusiveSessionExitError x.
Proof. cbn. by destruct (exclusiveSessionExitError x). Qed.

(** [isOnlyError err target] holds exactly when every error at the ends of
    the tree of [err] is [target]: a joined independent error makes it false. *)
Theorem isOnlyError_leaves err target :
  wf_error err = true ->
  isOnlyError err target = true <-> Forall (fun l => l = target) (error_leaves err).
Proof.
  induction err as [e IH] using error_children_ind.
  destruct e as [| | | |s o x|t x|t tmp [x|]|t [x|]|l]; intros Hwf;
    try (apply List.Forall_inv in IH; by apply IH);
    try (cbn [isOnlyError error_leaves]; rewrite errors_Is_leaf, error_eqb_eq, Forall_singleton; done).
  rewrite isOnlyError_join. cbn [error_leaves error_children] in *. simpl in Hwf.
  apply andb_true_iff in Hwf as [-> Hwf]. simpl.
  induction IH as [|x l Hx Hl IHl]; simpl in *; [split; [constructor|done]|].
  apply andb_true_iff in Hwf as [Hwx Hwl]. rewrite Forall_app, andb_true_iff, Hx, IHl; done.
Qed.

Definition sample_target := ErrNew 100 "target".

Lemma isOnlyError_leaves_witness :
  isOnlyError (ErrJoin [ErrWrap "wrapped: target" sample_target; sample_target]) sample_target = true.
Proof. apply isOnlyError_leaves; [reflexivity | repeat constructor]. Defined.

(** An error that wraps another error is never "only itself": [isOnlyError
    err err] holds exactly for errors that wrap nothing, so that a wrapped
    response error returned unchanged by an [ErrorHandler] is not recognised
    as the response error. *)
Theorem isOnlyError_reflexive err :
  wf_error err = true -> isOnlyError err err = true <-> error_children err = [].
Proof.
  intros Hwf. rewrite isOnlyError_leaves by done. split.
  - intros H. pose proof (wf_leaves _ Hwf) as Hne.
    destruct (error_leaves err) as [|l ls] eqn:E; [done|]. apply List.Forall_inv in H as ->.
    apply (leaf_children err). rewrite E. left.
  - intros H. destruct err as [| | | |s o x|t x|t tmp [x|]|t [x|]|l]; simpl in *; try done; try (by constructor).
    by destruct l.
Qed.

Lemma isOnlyError_reflexive_witness :
  ~ isOnlyError (ErrWrap "write session error response" context_DeadlineExceeded)
      (ErrWrap "write session error response" context_DeadlineExceeded) = true.
Proof.
  intros H. apply (isOnlyError_reflexive (ErrWrap _ context_DeadlineExceeded) eq_refl) in H.
  discriminate H.
Defined.

(** [exclusiveSessionExitError] finds a controlled exit exactly when the
    error tree has a single end, and that end is (or offers through [As]) a
    non-nil [*SessionExitError]: wrapping preserves the exit, joining any
    other error hides it. *)
Theorem exclusiveSessionExitError_exact err x :
  wf_error err = true ->
  exclusiveSessionExitError err = Some x <->
  exists l, error_leaves err = [l] /\ as_exit l = Some x.
Proof.
  induction err as [e IH] using error_children_ind.
  destruct e as [| | |[y|]|s o e|t e|t tmp [e|]|t [e|]|l]; intros Hwf;
    try (apply List.Forall_inv in IH; by apply IH);
    try (cbn; split; [intros H; eexists; split; [reflexivity|exact H]
                     |intros (l & [= <-] & H); exact H]);
    try (by cbn; split; [done|intros (l & [= <-] & H)]).
  { cbn. destruct (f_as_exit f) eqn:E; split; intros H.
    - exists (ErrForeign f). cbn. by rewrite E.
    - destruct H as (l & [= <-] & H). cbn in H. congruence.
    - done.
    - destruct H as (l & [= <-] & H). cbn in H. congruence. }
  simpl in Hwf. apply andb_true_iff in Hwf as [Hne Hwf].
  destruct l as [|a [|b l]]; [done| |].
  - rewrite exclusive_join_one. apply List.Forall_inv in IH. simpl in Hwf |- *.
    rewrite andb_true_r in Hwf. rewrite app_nil_r. by apply IH.
  - rewrite exclusive_join_two. split; [done|]. intros (x' & Hl & _). simpl in *.
    apply andb_true_iff in Hwf as [Ha [Hb _]%andb_true_iff].
    apply wf_leaves in Ha, Hb. destruct (error_leaves a), (error_leaves b); try done.
    apply (f_equal length) in Hl. simpl in Hl. rewrite length_app in Hl. simpl in Hl. lia.
Qed.

Definition sample_exit := mkSessionExitError 42 "quota exceeded".

Lemma exclusiveSessionExitError_exact_witness :
  exclusiveSessionExitError
    (ErrWrap "run" (ErrJoin [ErrLocated ErrorScopeSession ErrorOperationHandle (ErrExit (Some sample_exit))]))
  = Some sample_exit.
Proof.
  apply exclusiveSessionExitError_exact; [reflexivity|].
  exists (ErrExit (Some sample_exit)). split; reflexivity.
Defined.
