(* ===== verification/Settings.v ===== *)
(** Settings: how [server.go], [conn.go] and [proxyproto.go] turn configured
    values into the limits, deadlines, delays and wrappers in force.

    A [*int] or [*time.Duration] field is an [option Z]; a [time.Time] is an
    [option Z], [None] being the zero time; durations are in nanoseconds. *)
From S2P Require Import Prelude GoErrors.
Local Open Scope Z_scope.

(** ** Defaults ([server.go]) *)
Definition Millisecond : Z := 1000000.
Definition Second : Z := 1000 * Millisecond.
Definition Minute : Z := 60 * Second.

Definition DefaultHandshakeTimeout : Z := 2 * Minute.
Definition DefaultIdleTimeout : Z := 0.
Definition DefaultMaxTimeout : Z := 0.
Definition DefaultSessionRequestTimeout : Z := 30 * Second.
Definition DefaultSubsystemReplyTimeout : Z := 30 * Second.
Definition DefaultMaxStartupsStart : Z := 10.
Definition DefaultMaxStartupsRate : Z := 30.
Definition DefaultMaxStartupsFull : Z := 100.
Definition DefaultMaxSessionsPerConnection : Z := 10.
Definition DefaultMaxChannelsPerConnection : Z := 64.
Definition DefaultMaxReverseForwardsPerConnection : Z := 16.
Definition DefaultMaxConnections : Z := 256.
Definition DefaultMaxChannels : Z := 64.
Definition DefaultMaxReverseForwards : Z := 256.
Definition defaultMaxConcurrentErrorHandlers : Z := 64.

Definition configuredDuration (value : option Z) (defaultValue : Z) : Z :=
  match value with
  | None => defaultValue
  | Some v => if v <=? 0 then 0 else v
  end.

Definition configuredLimit (value : option Z) (defaultValue : Z) : Z :=
  match value with
  | None => defaultValue
  | Some v => if v <=? 0 then 0 else v
  end.

(** ** Random early drop *)

Record MaxStartupsConfig := mkMaxStartups { Start : Z; Rate : Z; Full : Z }.

Definition effectiveMaxStartups (MaxStartups : option MaxStartupsConfig) : MaxStartupsConfig :=
  match MaxStartups with
  | None => mkMaxStartups DefaultMaxStartupsStart DefaultMaxStartupsRate DefaultMaxStartupsFull
  | Some result =>
      if Full result <=? 0 then mkMaxStartups 0 0 0
      else
        let start := if Start result <? 0 then 0 else Start result in
        let start := if Full result <? start then Full result else start in
        let rate := if Rate result <? 0 then 0
                    else if 100 <? Rate result then 100 else Rate result in
        mkMaxStartups start rate (Full result)
  end.

Section DropRate.
Variable int_bits : Z.

(** Arithmetic on [int], wrapping around; [/] truncates. *)
Definition iadd (a b : Z) : Z := swrap int_bits (a + b).
Definition isub (a b : Z) : Z := swrap int_bits (a - b).
Definition imul (a b : Z) : Z := swrap int_bits (a * b).
Definition idiv (a b : Z) : Z := swrap int_bits (Z.quot a b).

Definition maxStartupsDropRate (current : Z) (config : MaxStartupsConfig) : Z :=
  if Full config <=? 0 then 0
  else if Full config <=? current then 100
  else if current <? Start config then 0
  else if Full config <=? Start config then 0
  else iadd (Rate config)
         (idiv (imul (isub 100 (Rate config)) (isub current (Start config)))
               (isub (Full config) (Start config))).
End DropRate.

(** The configurations [effectiveMaxStartups] produces. *)
Definition startups_normal (c : MaxStartupsConfig) : Prop :=
  (Full c <= 0 /\ Start c = 0 /\ Rate c = 0) \/
  (0 < Full c /\ 0 <= Start c <= Full c /\ 0 <= Rate c <= 100).

Lemma effectiveMaxStartups_normal m : startups_normal (effectiveMaxStartups m).
Proof.
  unfold startups_normal, effectiveMaxStartups. destruct m as [[s r f]|]; simpl;
    [|unfold DefaultMaxStartupsStart, DefaultMaxStartupsRate, DefaultMaxStartupsFull; lia].
  destruct (Z.leb_spec f 0); simpl; [lia|]. right.
  repeat (match goal with |- context [?a <? ?b] => destruct (Z.ltb_spec a b) end; simpl); lia.
Qed.

Section DropRateFacts.
Context (int_bits : Z) (Hbits : int_bits = 32 \/ int_bits = 64).
Context (config : MaxStartupsConfig) (Hnormal : startups_normal config).
(** [100 * Full] is an [int]. *)
Context (Hfull : 100 * Full config < 2 ^ (int_bits - 1)).

Lemma swrap_id z : - 2 ^ (int_bits - 1) <= z < 2 ^ (int_bits - 1) -> swrap int_bits z = z.
Proof. apply swrap_small. destruct Hbits; lia. Qed.

Lemma drop_rate_value current :
  Start config <= current < Full config ->
  maxStartupsDropRate int_bits current config =
  Rate config + (100 - Rate config) * (current - Start config) / (Full config - Start config).
Proof.
  intros Hc. destruct Hnormal as [?|(Hf & Hs & Hr)]; [lia|]. unfold maxStartupsDropRate.
  destruct (Z.leb_spec (Full config) 0); [lia|].
  destruct (Z.leb_spec (Full config) current); [lia|].
  destruct (Z.ltb_spec current (Start config)); [lia|].
  destruct (Z.leb_spec (Full config) (Start config)); [lia|].
  assert (Hp : 2 ^ 31 <= 2 ^ (int_bits - 1)) by (destruct Hbits as [-> | ->]; vm_compute; congruence).
  assert (Hm : 0 <= (100 - Rate config) * (current - Start config) <= 100 * Full config) by nia.
  assert (Hq : 0 <= (100 - Rate config) * (current - Start config) / (Full config - Start config)
               <= 100).
  { split; [apply Z.div_pos; lia|]. apply Z.div_le_upper_bound; [lia|]. nia. }
  unfold iadd, idiv, imul, isub.
  rewrite (swrap_id (100 - _)), (swrap_id (current - _)), (swrap_id (Full config - _)) by lia.
  rewrite (swrap_id ((100 - _) * _)) by lia.
  rewrite Z.quot_div_nonneg by lia. rewrite (swrap_id (_ / _)) by lia. apply swrap_id. lia.
Qed.

Lemma drop_rate_bounds current :
  0 <= current -> 0 <= maxStartupsDropRate int_bits current config <= 100.
Proof.
  intros Hc. destruct (Z_lt_le_dec current (Full config)) as [Hlt|Hge].
  - destruct (Z_lt_le_dec current (Start config)) as [Hs|Hs].
    + unfold maxStartupsDropRate. destruct (_ <=? 0); [lia|].
      destruct (Z.leb_spec (Full config) current); [lia|].
      destruct (Z.ltb_spec current (Start config)); lia.
    + rewrite drop_rate_value by lia. destruct Hnormal as [?|(Hf & Hst & Hr)]; [lia|].
      assert (0 <= (100 - Rate config) * (current - Start config) / (Full config - Start config)
              <= 100 - Rate config); [|lia].
      split; [apply Z.div_pos; nia|]. apply Z.div_le_upper_bound; nia.
  - unfold maxStartupsDropRate. destruct (_ <=? 0); [lia|].
    destruct (Z.leb_spec (Full config) current); lia.
Qed.
End DropRateFacts.

(** For every configured [MaxStartups] (unset, disabled, out of range) the
    drop rate in force is a percentage without [int] overflow: nothing is
    dropped below [Start], everything from [Full] on, in between the rate grows
    linearly from [Rate] and never decreases with the number of unauthenticated
    connections; a disabled limit never drops. *)
Theorem drop_rate_profile int_bits m current :
  int_bits = 32 \/ int_bits = 64 ->
  100 * Full (effectiveMaxStartups m) < 2 ^ (int_bits - 1) -> 0 <= current ->
  let c := effectiveMaxStartups m in
  let rate n := maxStartupsDropRate int_bits n c in
  0 <= rate current <= 100 /\
  rate current <= rate (current + 1) /\
  (Full c <= 0 -> rate current = 0) /\
  (0 < Full c ->
     (current < Start c -> current < Full c -> rate current = 0) /\
     (Full c <= current -> rate current = 100) /\
     (Start c <= current < Full c ->
        rate current = Rate c + (100 - Rate c) * (current - Start c) / (Full c - Start c))).
Proof.
  intros Hb Hf Hc c rate. pose proof (effectiveMaxStartups_normal m) as Hn. fold c in Hn, Hf.
  assert (Hbounds : forall n, 0 <= n -> 0 <= rate n <= 100) by (intros; by apply drop_rate_bounds).
  assert (Hhi : 0 < Full c -> forall n, Full c <= n -> rate n = 100).
  { intros ? n ?. unfold rate, maxStartupsDropRate.
    destruct (Z.leb_spec (Full c) 0), (Z.leb_spec (Full c) n); lia. }
  assert (Hlo : forall n, n < Start c -> n < Full c -> rate n = 0).
  { intros n ? ?. unfold rate, maxStartupsDropRate.
    destruct (Z.leb_spec (Full c) 0), (Z.leb_spec (Full c) n), (Z.ltb_spec n (Start c)); lia. }
  assert (Hmid : forall n, Start c <= n < Full c ->
            rate n = Rate c + (100 - Rate c) * (n - Start c) / (Full c - Start c))
    by (intros; by apply drop_rate_value).
  split; [auto|]. split; [|split; [|auto]].
  - destruct (Z_lt_le_dec (Full c) 1) as [Hz|Hz].
    { unfold rate, maxStartupsDropRate. destruct (Z.leb_spec (Full c) 0); lia. }
    destruct (Z_lt_le_dec (current + 1) (Full c)) as [Hlt|Hge];
      [|rewrite (Hhi ltac:(lia) (current + 1)) by lia; by apply Hbounds].
    destruct (Z_lt_le_dec current (Start c)) as [Hs|Hs];
      [rewrite (Hlo current) by lia; apply Hbounds; lia|].
    rewrite !Hmid by lia. apply Z.add_le_mono_l, Z.div_le_mono; [lia|].
    destruct Hn as [?|?]; nia.
  - intros. unfold rate, maxStartupsDropRate. destruct (Z.leb_spec (Full c) 0); lia.
Qed.

Lemma drop_rate_profile_witness :
  maxStartupsDropRate 32 55 (effectiveMaxStartups None) = 65 /\
  maxStartupsDropRate 32 55 (effectiveMaxStartups None)
    <= maxStartupsDropRate 32 56 (effectiveMaxStartups None).
Proof.
  split; [vm_compute; reflexivity|].
  apply (drop_rate_profile 32 None 55); [left; reflexivity | vm_compute; reflexivity |].
  vm_compute. congruence.
Defined.

(** ** Delays between attempts *)

(** [waitForRetry]: the new delay, and whether the timer fired before [ctx]
    was done. *)
Definition waitForRetry (timer_first : bool) (delay : Z) : bool * Z :=
  let delay := if delay =? 0 then 5 * Millisecond else delay * 2 in
  let delay := if Second <? delay then Second else delay in
  (timer_first, delay).

(** The delay before the [n]-th consecutive retry. *)
Definition retry_delay (n : nat) : Z := Nat.iter n (fun d => snd (waitForRetry true d)) 0.

(** Consecutive failed accepts are retried after 5 ms, then after twice
    the previous delay up to one second: the [n]-th delay is
    [min (5ms * 2^(n-1)) 1s], never zero. *)
Theorem retry_delay_backoff n :
  retry_delay (S n) = Z.min (5 * Millisecond * 2 ^ Z.of_nat n) Second.
Proof.
  induction n as [|n IH]; [reflexivity|].
  change (retry_delay (S (S n))) with (snd (waitForRetry true (retry_delay (S n)))).
  rewrite IH, Nat2Z.inj_succ, Z.pow_succ_r by lia.
  assert (0 < 2 ^ Z.of_nat n) by (apply Z.pow_pos_nonneg; lia).
  unfold waitForRetry, snd, Second, Millisecond in *.
  destruct (Z.eqb_spec (Z.min (5 * 1000000 * 2 ^ Z.of_nat n) (1000 * 1000000)) 0); [lia|].
  match goal with |- context [?a <? ?b] => destruct (Z.ltb_spec a b) end; lia.
Qed.

(** ** Deadlines *)

Definition Before (a b : Z) : bool := a <? b.

Definition earliestDeadline (deadlines : list (option Z)) : option Z :=
  foldl (fun result deadline =>
    match deadline with
    | None => result
    | Some d => match result with
                | None => deadline
                | Some r => if Before d r then deadline else result
                end
    end) None deadlines.

(** [cancelAt]: no timer, or one that fires after [time.Until(deadline)]; a timer
    with a duration that is not positive fires at once. *)
Definition cancelAt (now : Z) (deadline : option Z) : option Z :=
  match deadline with None => None | Some d => Some (d - now) end.
Definition fires_at (now : Z) (timer : option Z) : option Z := (fun d => now + Z.max 0 d) <$> timer.

(** [serverConn]: the wrapped connection is seen through the deadline last set
    on it; [cancelled] records the call of [closeCanceler]. *)
Record serverConn := mkServerConn {
  idleTimeout : Z;
  handshakeDeadline : option Z;
  maxDeadline : option Z;
  closeCanceler : bool;
  connDeadline : option Z;
  cancelled : bool }.

Definition SetDeadline (d : option Z) (c : serverConn) : serverConn :=
  mkServerConn (idleTimeout c) (handshakeDeadline c) (maxDeadline c) (closeCanceler c) d (cancelled c).

Definition updateDeadlineLocked (now : Z) (c : serverConn) : serverConn :=
  let deadline := maxDeadline c in
  let deadline :=
    match handshakeDeadline c with
    | Some h => match deadline with
                | None => Some h
                | Some d => if Before h d then Some h else deadline
                end
    | None => deadline
    end in
  let deadline :=
    if 0 <? idleTimeout c then
      let idleDeadline := now + idleTimeout c in
      match deadline with
      | None => Some idleDeadline
      | Some d => if Before idleDeadline d then Some idleDeadline else deadline
      end
    else deadline in
  SetDeadline deadline c.

Definition updateDeadline := updateDeadlineLocked.

Definition clearHandshakeDeadline (now : Z) (c : serverConn) : serverConn :=
  updateDeadlineLocked now
    (mkServerConn (idleTimeout c) None (maxDeadline c) (closeCanceler c) (connDeadline c) (cancelled c)).

Definition callCanceler (c : serverConn) : serverConn :=
  mkServerConn (idleTimeout c) (handshakeDeadline c) (maxDeadline c) (closeCanceler c) (connDeadline c) true.

(** [Read] and [Write]: [result] is what the wrapped connection returns. *)
Definition serverConn_Read (now : Z) (result : Z * option error) (c : serverConn)
  : (Z * option error) * serverConn :=
  let c := if 0 <? idleTimeout c then updateDeadline now c else c in
  match as_net_error (snd result) with
  | Some _ => (result, if closeCanceler c then callCanceler c else c)
  | None => (result, c)
  end.
Definition serverConn_Write (now : Z) (result : Z * option error) (c : serverConn)
  : (Z * option error) * serverConn :=
  let c := if 0 <? idleTimeout c then updateDeadline now c else c in
  match as_net_error (snd result) with
  | Some _ => (result, if closeCanceler c then callCanceler c else c)
  | None => (result, c)
  end.

Definition serverConn_Close (result : option error) (c : serverConn) : option error * serverConn :=
  (result, if closeCanceler c then callCanceler c else c).

(** The idle deadline of an operation at time [now]. *)
Definition idle_deadline (now : Z) (c : serverConn) : option Z :=
  if 0 <? idleTimeout c then Some (now + idleTimeout c) else None.

(** [d] is the earliest of the deadlines that are set. *)
Definition is_earliest (d : option Z) (deadlines : list (option Z)) : Prop :=
  match d with
  | None => forall x, x ∈ deadlines -> x = None
  | Some t => Some t ∈ deadlines /\ forall u, Some u ∈ deadlines -> t <= u
  end.

Lemma is_earliest_snoc d l x :
  is_earliest d l ->
  is_earliest (match x with
     | None => d
     | Some t => match d with None => x | Some r => if Before t r then x else d end
     end) (l ++ [x]).
Proof.
  unfold Before. intros H. destruct x as [t|].
  - destruct d as [r|]; simpl in *.
    + destruct H as [Hin Hle]. destruct (Z.ltb_spec t r); split;
        try (apply elem_of_app; (by left) || (right; by left));
        intros u [Hu|[= ->]%list_elem_of_singleton]%elem_of_app; auto; try lia;
        specialize (Hle _ Hu); lia.
    + split; [apply elem_of_app; right; by left|].
      intros u [Hu|[= ->]%list_elem_of_singleton]%elem_of_app; [|lia]. by apply H in Hu.
  - destruct d as [r|]; simpl in *.
    + destruct H as [Hin Hle]. split; [apply elem_of_app; by left|].
      intros u [Hu|Hu%list_elem_of_singleton]%elem_of_app; [auto|done].
    + intros y [Hy|Hy%list_elem_of_singleton]%elem_of_app; auto.
Qed.

Lemma earliestDeadline_spec l : is_earliest (earliestDeadline l) l.
Proof.
  unfold earliestDeadline. induction l as [|x l IH] using rev_ind.
  - by intros x Hx%elem_of_nil.
  - rewrite foldl_snoc. by apply is_earliest_snoc.
Qed.

(** A timer for the earliest of some deadlines fires at that deadline, or now
    where it has passed: never before the earliest, never after a deadline that
    is still to come, and not at all where there is none. *)
Lemma cancelAt_fires now l :
  match fires_at now (cancelAt now (earliestDeadline l)) with
  | Some t => now <= t /\ (exists d, Some d ∈ l /\ t = Z.max now d) /\ forall d, Some d ∈ l -> now <= d -> t <= d
  | None => forall d, Some d ∉ l
  end.
Proof.
  pose proof (earliestDeadline_spec l) as H. destruct (earliestDeadline l) as [d|]; cbn in *.
  - destruct H as [Hd Hmin]. split; [lia|]. split; [exists d; split; [done|lia]|]. intros d' Hd' Hn. specialize (Hmin d' Hd'). lia.
  - intros d Hd. by specialize (H _ Hd).
Qed.

Lemma updateDeadline_earliest now c :
  connDeadline (updateDeadline now c) =
  earliestDeadline [maxDeadline c; handshakeDeadline c; idle_deadline now c].
Proof.
  destruct c as [idle h m cc cd ca]. unfold updateDeadline, updateDeadlineLocked, idle_deadline. simpl.
  destruct m, h; simpl; destruct (0 <? idle); simpl; done.
Qed.

(** Arming a connection sets the earliest of its maximum lifetime, its
    handshake deadline and, when an idle timeout is configured, the idle
    deadline counted from now; clearing the handshake deadline leaves exactly
    the other two in force, and never postpones the maximum lifetime. *)
Theorem deadline_in_force now c :
  is_earliest (connDeadline (updateDeadline now c))
    [maxDeadline c; handshakeDeadline c; idle_deadline now c] /\
  is_earliest (connDeadline (clearHandshakeDeadline now c)) [maxDeadline c; idle_deadline now c] /\
  (forall m, maxDeadline c = Some m ->
     exists d, connDeadline (clearHandshakeDeadline now c) = Some d /\ d <= m).
Proof.
  rewrite updateDeadline_earliest.
  assert (E : connDeadline (clearHandshakeDeadline now c) =
              earliestDeadline [maxDeadline c; idle_deadline now c]).
  { unfold clearHandshakeDeadline. fold updateDeadline. rewrite (updateDeadline_earliest now). simpl.
    by destruct (maxDeadline c). }
  rewrite E. split; [apply earliestDeadline_spec|]. split; [apply earliestDeadline_spec|].
  intros m Hm. pose proof (earliestDeadline_spec [maxDeadline c; idle_deadline now c]) as H.
  destruct (earliestDeadline _) as [d|]; simpl in H.
  - exists d. split; [done|]. apply H. rewrite Hm. left.
  - specialize (H (Some m)). rewrite Hm in H. discriminate H. left.
Qed.

(** ** PROXY protocol wrapping ([proxyproto.go]) *)

(** The options of [proxyproto.NewConn] the code builds. *)
Inductive proxy_option (policy validator : Type) : Type :=
| WithPolicy (p : policy)
| ValidateHeader (v : validator)
| SetReadHeaderTimeout (timeout : Z)
| WithBufferSize (size : Z).
Arguments WithPolicy {policy validator} p.
Arguments ValidateHeader {policy validator} v.
Arguments SetReadHeaderTimeout {policy validator} timeout.
Arguments WithBufferSize {policy validator} size.

Section ProxyProtocol.
(** The go-proxyproto package: its policies, and the connection it builds. *)
Context {conn addr policy validator : Type} `{EqDecision policy}.
Variable REQUIRE SKIP : policy.
Variable is_proxy_conn : conn -> bool.
Variable NewConn : conn -> list (proxy_option policy validator) -> conn.
Variable RemoteAddr LocalAddr : conn -> addr.

Record ProxyProtocolConfig := mkProxyProtocolConfig {
  ConnPolicy : option (addr -> addr -> policy * option error);
  HeaderValidator : option validator;
  ReadHeaderTimeout : Z;
  ReadBufferSize : Z }.

Definition errProxyProtocolAlreadyWrapped : error :=
  ErrNew 20 "ssh: connection is already wrapped for PROXY protocol".

(** The option list of [NewConn]. *)
Definition proxy_options (config : ProxyProtocolConfig) (p : policy)
    : list (proxy_option policy validator) :=
  let options := [WithPolicy p] in
  let options := match HeaderValidator config with
                 | Some v => options ++ [ValidateHeader v]
                 | None => options
                 end in
  let options := if ReadHeaderTimeout config <? 0 then options ++ [SetReadHeaderTimeout 0]
                 else if 0 <? ReadHeaderTimeout config
                 then options ++ [SetReadHeaderTimeout (ReadHeaderTimeout config)]
                 else options in
  if 0 <? ReadBufferSize config then options ++ [WithBufferSize (ReadBufferSize config)]
  else options.

Definition wrapProxyProtocolConn (c : conn) (config : ProxyProtocolConfig) : conn + error :=
  if is_proxy_conn c then inr errProxyProtocolAlreadyWrapped
  else
    match ConnPolicy config with
    | None => inl (NewConn c (proxy_options config REQUIRE))
    | Some decide_policy =>
        match decide_policy (RemoteAddr c) (LocalAddr c) with
        | (_, Some err) => inr err
        | (p, None) =>
            if decide (p = SKIP) then inl c
            else inl (NewConn c (proxy_options config p))
        end
    end.

(** The decision in force for a connection. *)
Definition decided_policy (c : conn) (config : ProxyProtocolConfig) : policy :=
  match ConnPolicy config with
  | None => REQUIRE
  | Some f => fst (f (RemoteAddr c) (LocalAddr c))
  end.
End ProxyProtocol.

Lemma proxy_options_spec {addr policy validator : Type}
    (config : @ProxyProtocolConfig addr policy validator) p :
  exists options, proxy_options config p = WithPolicy p :: options /\
    forall v, HeaderValidator config = Some v <-> ValidateHeader v ∈ proxy_options config p.
Proof.
  unfold proxy_options. destruct config as [cp [v0|] timeout size]; simpl;
    destruct (timeout <? 0), (0 <? timeout), (0 <? size); simpl;
    (eexists; split; [reflexivity|]); intros v; rewrite ?elem_of_cons, ?elem_of_nil; naive_solver.
Qed.

(** PROXY processing fails closed: a connection that leaves
    [wrapProxyProtocolConn] without an error was not wrapped before, and it is
    either the input, only because the configured policy said SKIP, or the
    go-proxyproto connection enforcing the decided policy - REQUIRE when no
    policy is configured - with the configured validator among its options. *)
Theorem proxy_fails_closed {conn addr policy validator : Type} `{EqDecision policy}
    (REQUIRE SKIP : policy) is_proxy NewConn (RemoteAddr LocalAddr : conn -> addr)
    (config : @ProxyProtocolConfig addr policy validator) c c' :
  wrapProxyProtocolConn REQUIRE SKIP is_proxy NewConn RemoteAddr LocalAddr c config = inl c' ->
  is_proxy c = false /\
  ((c' = c /\ ConnPolicy config <> None /\
    decided_policy REQUIRE RemoteAddr LocalAddr c config = SKIP) \/
   exists options,
     c' = NewConn c options /\
     head options = Some (WithPolicy (decided_policy REQUIRE RemoteAddr LocalAddr c config)) /\
     (forall v, HeaderValidator config = Some v <-> ValidateHeader v ∈ options)).
Proof.
  unfold wrapProxyProtocolConn, decided_policy. destruct (is_proxy c); [done|].
  intros H. split; [done|].
  assert (Hopt : forall p, head (proxy_options config p) = Some (WithPolicy p) /\
            forall v, HeaderValidator config = Some v <-> ValidateHeader v ∈ proxy_options config p).
  { intros p. destruct (proxy_options_spec config p) as (os & E & Hv). split; [by rewrite E|done]. }
  destruct (ConnPolicy config) as [f|].
  - destruct (f (RemoteAddr c) (LocalAddr c)) as [p [e|]]; [done|]. simpl.
    destruct (decide (p = SKIP)) as [->|]; injection H as <-; [by left|right; eauto].
  - injection H as <-. right. eauto.
Qed.

(** The witness takes the option list itself as the wrapped connection. *)
Definition sample_proxy_config : @ProxyProtocolConfig Z Z Z :=
  mkProxyProtocolConfig None (Some 7) (-1) 4096.
Definition sample_new_conn (c : Z * list (proxy_option Z Z)) (os : list (proxy_option Z Z)) :=
  (c.1, os).

Lemma proxy_fails_closed_witness :
  wrapProxyProtocolConn 3 4 (fun _ => false) sample_new_conn fst fst (9, []) sample_proxy_config
    = inl (9, [WithPolicy 3; ValidateHeader 7; SetReadHeaderTimeout 0; WithBufferSize 4096]) /\
  (fun _ : Z * list (proxy_option Z Z) => false) (9, []) = false.
Proof.
  split; [reflexivity|].
  exact (proj1 (proxy_fails_closed 3 4 (fun _ => false) sample_new_conn fst fst
                  sample_proxy_config (9, []) _ eq_refl)).
Defined.
