(* ===== verification/Limiter.v ===== *)
(** Limiter: [resourceLimiter] and [connectionChannelLimiter] of [server.go].

    The limiters count on shared [atomic.Int64] counters: the global counters
    of a Serve scope are reached from every connection.  An operation is a
    program whose only effect is the atomic [Add]; it is run alone by
    [arun], and interleaved with other goroutines, one atomic operation at a
    time, by the step relation [lstep]. *)
From S2P Require Import Prelude.
Local Open Scope Z_scope.

(** ** Programs over atomic counters *)

(** A counter is named by its address. *)
Abbreviation counter := nat (only parsing).

Inductive aprog (A : Type) : Type :=
| ARet (a : A)
| AAdd (c : counter) (delta : Z) (k : Z -> aprog A).   (* k is given the new value *)
Arguments ARet {A} a.
Arguments AAdd {A} c delta k.

Fixpoint abind {A B} (p : aprog A) (f : A -> aprog B) : aprog B :=
  match p with
  | ARet a => f a
  | AAdd c d k => AAdd c d (fun v => abind (k v) f)
  end.

Abbreviation store := (gmap counter Z) (only parsing).
Definition load (st : store) (c : counter) : Z := default 0 (st !! c).
Definition atomic_add (st : store) (c : counter) (d : Z) : store := <[c := load st c + d]> st.

(** The whole program, without interference. *)
Fixpoint arun {A} (p : aprog A) (st : store) : A * store :=
  match p with
  | ARet a => (a, st)
  | AAdd c d k => let st' := atomic_add st c d in arun (k (load st' c)) st'
  end.

(** ** The limiters *)

Inductive resourceLimiter : Type :=
| mkResourceLimiter (limit : Z) (active : option counter) (parent : option resourceLimiter).

Fixpoint resourceLimiter_reserve (l : resourceLimiter) : aprog bool :=
  match l with
  | mkResourceLimiter limit active parent =>
      let reserve_parent (localReserved : option counter) :=
        match parent with
        | Some p =>
            abind (resourceLimiter_reserve p) (fun ok =>
              if ok then ARet true
              else match localReserved with
                   | Some c => AAdd c (-1) (fun _ => ARet false)
                   | None => ARet false
                   end)
        | None => ARet true
        end in
      match active with
      | Some c =>
          if 0 <? limit then
            AAdd c 1 (fun v =>
              if limit <? v then AAdd c (-1) (fun _ => ARet false)
              else reserve_parent (Some c))
          else reserve_parent None
      | None => reserve_parent None
      end
  end.

Fixpoint resourceLimiter_release (l : resourceLimiter) : aprog unit :=
  match l with
  | mkResourceLimiter limit active parent =>
      let release_parent :=
        match parent with Some p => resourceLimiter_release p | None => ARet tt end in
      match active with
      | Some c => if 0 <? limit then AAdd c (-1) (fun _ => release_parent) else release_parent
      | None => release_parent
      end
  end.

(** The methods on a possibly nil receiver. *)
Definition resourceLimiter_reserve_ptr (l : option resourceLimiter) : aprog bool :=
  match l with None => ARet true | Some l => resourceLimiter_reserve l end.
Definition resourceLimiter_release_ptr (l : option resourceLimiter) : aprog unit :=
  match l with None => ARet tt | Some l => resourceLimiter_release l end.

Record connectionChannelLimiter := mkConnectionChannelLimiter {
  ccl_limit : Z;
  ccl_active : counter;
  ccl_global : option resourceLimiter }.

(** The receiver is a pointer: [None] is nil. *)
Definition connectionChannelLimiter_reserve (l : option connectionChannelLimiter) : aprog bool :=
  match l with
  | None => ARet true
  | Some l =>
      let reserve_global :=
        match ccl_global l with
        | Some g =>
            abind (resourceLimiter_reserve g) (fun ok =>
              if ok then ARet true
              else if 0 <? ccl_limit l then AAdd (ccl_active l) (-1) (fun _ => ARet false)
              else ARet false)
        | None => ARet true
        end in
      if 0 <? ccl_limit l then
        AAdd (ccl_active l) 1 (fun v =>
          if ccl_limit l <? v then AAdd (ccl_active l) (-1) (fun _ => ARet false)
          else reserve_global)
      else reserve_global
  end.

Definition connectionChannelLimiter_release (l : option connectionChannelLimiter) : aprog unit :=
  match l with
  | None => ARet tt
  | Some l =>
      let release_global :=
        match ccl_global l with Some g => resourceLimiter_release g | None => ARet tt end in
      if 0 <? ccl_limit l then AAdd (ccl_active l) (-1) (fun _ => release_global)
      else release_global
  end.

(** The chain limiter a channel limiter amounts to. *)
Definition channel_chain (l : connectionChannelLimiter) : resourceLimiter :=
  mkResourceLimiter (ccl_limit l) (Some (ccl_active l)) (ccl_global l).

Lemma channel_reserve_chain l :
  connectionChannelLimiter_reserve (Some l) = resourceLimiter_reserve (channel_chain l).
Proof. destruct l as [n c g]. cbn. by destruct (0 <? n). Qed.

Lemma channel_release_chain l :
  connectionChannelLimiter_release (Some l) = resourceLimiter_release (channel_chain l).
Proof. destruct l as [n c g]. cbn. by destruct (0 <? n). Qed.

(** ** Levels of a limiter *)

(** The counters that are in force, from the limiter up to its last parent,
    with their limits. *)
Fixpoint levels (l : resourceLimiter) : list (counter * Z) :=
  match l with
  | mkResourceLimiter limit active parent =>
      let up := match parent with Some p => levels p | None => [] end in
      match active with
      | Some c => if 0 <? limit then (c, limit) :: up else up
      | None => up
      end
  end.
Definition counters (l : resourceLimiter) : list counter := (levels l).*1.

Lemma resourceLimiter_ind' (Q : resourceLimiter -> Prop) :
  (forall limit active, Q (mkResourceLimiter limit active None)) ->
  (forall limit active p, Q p -> Q (mkResourceLimiter limit active (Some p))) ->
  forall l, Q l.
Proof.
  intros H0 H1. fix IH 1. intros [limit active [p|]]; [apply H1, IH | apply H0].
Qed.

(** ** Goroutines that reserve and release *)

Inductive tstate :=
| TIdle
| TReserving (p : aprog bool)
| THolding
| TReleasing (p : aprog unit).

(** A goroutine with the limiter it uses. *)
Definition thread := (resourceLimiter * tstate)%type.
Definition lsystem := (store * list thread)%type.

(** One step of one goroutine: it starts an operation, performs one atomic
    operation of it, or finishes it. *)
Inductive tstep : resourceLimiter -> store -> tstate -> store -> tstate -> Prop :=
| step_reserve l st : tstep l st TIdle st (TReserving (resourceLimiter_reserve l))
| step_reserve_add l st c d k :
    tstep l st (TReserving (AAdd c d k))
      (atomic_add st c d) (TReserving (k (load (atomic_add st c d) c)))
| step_reserved l st : tstep l st (TReserving (ARet true)) st THolding
| step_refused l st : tstep l st (TReserving (ARet false)) st TIdle
| step_release l st : tstep l st THolding st (TReleasing (resourceLimiter_release l))
| step_release_add l st c d k :
    tstep l st (TReleasing (AAdd c d k))
      (atomic_add st c d) (TReleasing (k (load (atomic_add st c d) c)))
| step_released l st : tstep l st (TReleasing (ARet tt)) st TIdle.

Inductive lstep : lsystem -> lsystem -> Prop :=
| lstep_thread st ts i l t st' t' :
    ts !! i = Some (l, t) -> tstep l st t st' t' ->
    lstep (st, ts) (st', <[i := (l, t')]> ts).

Definition initial_system (ls : list resourceLimiter) : lsystem := (∅, map (fun l => (l, TIdle)) ls).

(** The goroutines that hold a reservation on counter [c]. *)
Definition holds (c : counter) (t : thread) : bool :=
  match t with
  | (l, THolding) => bool_decide (c ∈ counters l)
  | _ => false
  end.
Definition holders (c : counter) (ts : list thread) : Z := Z.of_nat (length (List.filter (holds c) ts)).

Inductive reachable_limiter (ls : list resourceLimiter) : lsystem -> Prop :=
| reach_init : reachable_limiter ls (initial_system ls)
| reach_step s s' : reachable_limiter ls s -> lstep s s' -> reachable_limiter ls s'.

Lemma reach_thread ls st ts i l t st' t' :
  reachable_limiter ls (st, ts) -> ts !! i = Some (l, t) -> tstep l st t st' t' ->
  reachable_limiter ls (st', <[i := (l, t')]> ts).
Proof. intros H Hi Hs. eapply reach_step; [exact H|]. by econstructor. Qed.

(** ** Accounting

    Each goroutine owns the increments it has performed and not undone ([C]),
    and those of them that found the counter within its limit ([G]). *)

Definition within (G C : list counter) : Prop := forall c, cnt c G <= cnt c C.

Section Accounting.
Context (lim : counter -> Z).

(** A reserving program: [full] is what it owns when it succeeds; when it
    fails, it owns nothing. *)
Inductive res_ok (full : list counter) : aprog bool -> list counter -> list counter -> Prop :=
| rok_true C : C ≡ₚ full -> res_ok full (ARet true) C C
| rok_false : res_ok full (ARet false) [] []
| rok_add c k C G :
    (forall v, v <= lim c -> res_ok full (k v) (c :: C) (c :: G)) ->
    (forall v, lim c < v -> res_ok full (k v) (c :: C) G) ->
    res_ok full (AAdd c 1 k) C G
| rok_undo_refused c k C G :
    within G C -> (forall v, res_ok full (k v) C G) -> res_ok full (AAdd c (-1) k) (c :: C) G
| rok_undo_granted c k C G :
    (forall v, res_ok full (k v) C G) -> res_ok full (AAdd c (-1) k) (c :: C) (c :: G).

Inductive rel_ok : aprog unit -> list counter -> Prop :=
| relok_ret : rel_ok (ARet tt) []
| relok_sub c k C C' : C ≡ₚ c :: C' -> (forall v, rel_ok (k v) C') -> rel_ok (AAdd c (-1) k) C.

Definition thread_ok (t : thread) (g : list counter * list counter) : Prop :=
  within g.2 g.1 /\
  match t.2 with
  | TIdle => g = ([], [])
  | TReserving p => res_ok (counters t.1) p g.1 g.2
  | THolding => g.1 = g.2 /\ g.1 ≡ₚ counters t.1
  | TReleasing p => g.1 = g.2 /\ rel_ok p g.1
  end.

Definition limiter_inv (s : lsystem) : Prop :=
  exists gs, Forall2 thread_ok s.2 gs /\
    forall c, load s.1 c = sumZ (fun g => cnt c g.1) gs /\
              sumZ (fun g => cnt c g.2) gs <= Z.max 0 (lim c).

(** The limits of a limiter are those of its counters. *)
Definition respects (l : resourceLimiter) : Prop :=
  forall c n, (c, n) ∈ levels l -> lim c = n.

Lemma res_ok_assoc full (p : aprog bool) (f k : bool -> aprog bool) C G :
  res_ok full (abind p (fun x => abind (f x) k)) C G ->
  res_ok full (abind (abind p f) k) C G.
Proof.
  revert C G. induction p as [a|c d kp IH]; simpl; intros C G H; [done|].
  inversion H; subst.
  - apply rok_add; auto.
  - apply rok_undo_refused; auto.
  - apply rok_undo_granted; auto.
Qed.

Lemma within_cons c G C : within G C -> within (c :: G) (c :: C).
Proof. intros H x. rewrite !cnt_cons. specialize (H x). lia. Qed.
Lemma within_skip c G C : within G C -> within G (c :: C).
Proof. intros H x. rewrite cnt_cons. specialize (H x). destruct (decide _); lia. Qed.

Lemma reserve_ok full l (k : bool -> aprog bool) C G :
  within G C -> respects l ->
  res_ok full (k true) (rev (counters l) ++ C) (rev (counters l) ++ G) ->
  res_ok full (k false) C G ->
  res_ok full (abind (resourceLimiter_reserve l) k) C G.
Proof.
  revert k C G. induction l as [limit active|limit active p IH] using resourceLimiter_ind';
    intros k C G Hw Hr Ht Hf; unfold counters in *; cbn [resourceLimiter_reserve levels] in *.
  - destruct active as [c|]; [|done]. destruct (0 <? limit) eqn:E; [|done]. cbn [abind] in *.
    assert (Hc : lim c = limit) by (apply Hr; cbn; rewrite E; left).
    apply rok_add; intros v Hv.
    + destruct (Z.ltb_spec limit v); [lia|]. exact Ht.
    + destruct (Z.ltb_spec limit v); [|lia]. cbn [abind]. by apply rok_undo_refused.
  - assert (Hrp : respects p).
    { intros c n H. apply Hr. cbn. destruct active; [|done]. destruct (0 <? limit); [by right|done]. }
    destruct active as [c|]; [destruct (0 <? limit) eqn:E|].
    + cbn [abind]. assert (Hc : lim c = limit) by (apply Hr; cbn; rewrite E; left).
      apply rok_add; intros v Hv.
      * destruct (Z.ltb_spec limit v); [lia|]. apply res_ok_assoc, IH; auto using within_cons.
        -- cbn [abind]. cbn in Ht. by rewrite <- !app_assoc in Ht.
        -- cbn [abind]. by apply rok_undo_granted.
      * destruct (Z.ltb_spec limit v); [|lia]. cbn [abind]. by apply rok_undo_refused.
    + apply res_ok_assoc, IH; auto.
    + apply res_ok_assoc, IH; auto.
Qed.

Lemma reserve_ok_start l : respects l -> res_ok (counters l) (resourceLimiter_reserve l) [] [].
Proof.
  intros Hr.
  assert (H : forall p C G, res_ok (counters l) (abind p ARet) C G -> res_ok (counters l) p C G).
  { induction p as [a|c d k IH]; intros C G H; [done|].
    inversion H; subst; [apply rok_add|apply rok_undo_refused|apply rok_undo_granted]; auto. }
  apply H, reserve_ok; [by intros c|done| |constructor].
  rewrite !app_nil_r. constructor. symmetry. apply Permutation_rev.
Qed.

Lemma release_ok l C : C ≡ₚ counters l -> rel_ok (resourceLimiter_release l) C.
Proof.
  revert C. induction l as [limit active|limit active p IH] using resourceLimiter_ind';
    unfold counters in *; cbn [resourceLimiter_release levels]; intros C HC.
  - destruct active as [c|]; [destruct (0 <? limit)|]; cbn in *.
    + apply relok_sub with []; [done|]. constructor.
    + apply Permutation_nil_r in HC as ->. constructor.
    + apply Permutation_nil_r in HC as ->. constructor.
  - destruct active as [c|]; [destruct (0 <? limit)|]; cbn in *; auto.
    apply relok_sub with (levels p).*1; auto.
Qed.

(** One step of a goroutine keeps its accounting, and moves the counters with
    what it owns. *)
Lemma tstep_inv l st t st' t' C G :
  respects l -> thread_ok (l, t) (C, G) ->
  tstep l st t st' t' ->
  exists C' G', thread_ok (l, t') (C', G') /\
    (forall c, load st' c = load st c - cnt c C + cnt c C') /\
    (forall c, cnt c G' <= cnt c G \/
               (cnt c G' = cnt c G + 1 /\ cnt c C' = cnt c C + 1 /\ load st' c <= lim c)).
Proof.
  intros Hr [Hw Ht] Hstep. cbn [fst snd] in *.
  assert (Hload : forall c d x, load (atomic_add st c d) x = load st x + if decide (c = x) then d else 0).
  { intros c d x. unfold load at 1, atomic_add. rewrite lookup_insert.
    destruct (decide (c = x)) as [->|]; simpl; [done|]. unfold load. lia. }
  inversion Hstep; subst; clear Hstep.
  - simplify_eq. exists [], []. split; [split; [by intros c|by apply reserve_ok_start]|].
    split; intros c; [lia|left; lia].
  - inversion Ht as [| |c0 k0 C0 G0 Hin Hout|c0 k0 C0 G0 Hw0 Hk|c0 k0 C0 G0 Hk]; subst.
    + destruct (Z_le_gt_dec (load (atomic_add st c 1) c) (lim c)).
      * exists (c :: C), (c :: G). split; [split; [by apply within_cons|by apply Hin]|].
        split; intros x; rewrite ?cnt_cons, ?Hload; [destruct (decide _); lia|].
        rewrite Hload in *. destruct (decide (c = x)) as [->|]; [right|left]; rewrite ?decide_True in * by done; lia.
      * exists (c :: C), G. split; [split; [by apply within_skip|apply Hout; lia]|].
        split; intros x; rewrite ?cnt_cons, ?Hload; [destruct (decide _); lia|left; lia].
    + exists C0, G. split; [split; [done|apply Hk]|].
      split; intros x; rewrite ?cnt_cons, ?Hload; [destruct (decide _); lia|left; lia].
    + exists C0, G0. split; [split; [|apply Hk]|].
      { intros x. specialize (Hw x). rewrite !cnt_cons in Hw. simpl. lia. }
      split; intros x; rewrite ?cnt_cons, ?Hload; [destruct (decide _); lia|].
      left. destruct (decide _); lia.
  - inversion Ht; subst. exists G, G. split; [done|]. split; intros c; [lia|left; lia].
  - inversion Ht; subst. exists [], []. split; [done|]. split; intros c; [lia|left; lia].
  - destruct Ht as [-> HC]. exists G, G. split; [split; [done|split; [done|by apply release_ok]]|].
    split; intros c; [lia|left; lia].
  - destruct Ht as [-> HC]. inversion HC as [|c' k' C0 C' HCC Hk]; subst.
    exists C', C'. split; [split; [by intros x|split; [done|apply Hk]]|].
    split; intros x; rewrite (cnt_perm x _ _ HCC), cnt_cons, ?Hload; [destruct (decide _); lia|].
    left. destruct (decide _); lia.
  - destruct Ht as [-> HC]. inversion HC; subst.
    exists [], []. split; [done|]. split; intros c; [lia|left; lia].
Qed.

Lemma limiter_inv_step s s' :
  Forall (fun t => respects t.1) s.2 -> limiter_inv s -> lstep s s' ->
  limiter_inv s' /\ Forall (fun t => respects t.1) s'.2.
Proof.
  intros Hr (gs & Hts & Hc) Hstep. destruct Hstep as [st ts i l t st' t' Hi Hstep]. simpl in *.
  destruct (Forall2_lookup_l _ _ _ _ _ Hts Hi) as ([C G] & Hgi & Hok).
  assert (Hrl : respects l) by exact (proj1 (Forall_lookup _ _) Hr i _ Hi).
  destruct (tstep_inv l st t st' t' C G Hrl Hok Hstep) as (C' & G' & Hok' & Hload & Hg).
  split.
  - exists (<[i := (C', G')]> gs). split; [by apply Forall2_insert|].
    intros c. destruct (Hc c) as [Hsum Hle]. simpl.
    rewrite (sumZ_insert _ _ _ _ _ Hgi), (sumZ_insert _ _ _ _ _ Hgi). simpl.
    rewrite Hload, Hsum. split; [lia|].
    destruct (Hg c) as [?|(HG & HC & Hlim)]; [lia|].
    rewrite Hload, Hsum in Hlim.
    assert (sumZ (fun g => cnt c g.2) gs <= sumZ (fun g => cnt c g.1) gs).
    { apply sumZ_le. intros g (j & Hj)%list_elem_of_lookup.
      destruct (Forall2_lookup_r _ _ _ _ _ Hts Hj) as (t0 & _ & [Hw _]). apply Hw. }
    lia.
  - apply Forall_insert; [done|]. exact Hrl.
Qed.

Lemma limiter_inv_init ls : limiter_inv (initial_system ls).
Proof.
  exists (map (fun _ => ([], [])) ls). simpl. split.
  - induction ls; constructor; [split; [by intros c|done]|done].
  - intros c. rewrite !sumZ_zero.
    + split; [done|lia].
    + by intros g (? & -> & _)%list_elem_of_fmap.
    + by intros g (? & -> & _)%list_elem_of_fmap.
Qed.

Lemma limiter_inv_reachable ls s :
  Forall respects ls -> reachable_limiter ls s -> limiter_inv s /\ Forall (fun t => respects t.1) s.2.
Proof.
  intros Hr H. induction H as [|s s' Hs [IH IHr] Hstep].
  - split; [apply limiter_inv_init|]. simpl. by apply Forall_map.
  - by eapply limiter_inv_step.
Qed.

Lemma holders_granted c ts gs :
  Forall2 thread_ok ts gs -> holders c ts <= sumZ (fun g => cnt c g.2) gs.
Proof.
  unfold holders. induction 1 as [|[l t] [C G] ts gs [Hw Ht] Hts IH]; simpl; [lia|].
  pose proof (cnt_nonneg c G). destruct t; simpl; try lia.
  destruct Ht as [-> HC]. case_bool_decide as Hin; simpl; [|lia].
  apply cnt_elem in Hin. rewrite (cnt_perm _ _ _ HC). simpl. lia.
Qed.
End Accounting.

(** C1. Under every interleaving of the atomic operations of any number of
    goroutines, the goroutines that hold a reservation covered by a counter
    never exceed its limit, although [Add] makes the counter itself exceed
    it transiently. *)
Theorem limiter_never_exceeded lim ls s c n :
  Forall (respects lim) ls -> reachable_limiter ls s ->
  0 < n -> lim c = n -> holders c s.2 <= n.
Proof.
  intros Hr Hs Hn Hc. destruct (limiter_inv_reachable _ _ _ Hr Hs) as [(gs & Hts & Hinv) _].
  destruct (Hinv c) as [_ Hle]. pose proof (holders_granted _ c _ _ Hts). lia.
Qed.

(** No interleaving leaks a slot: whenever no goroutine is inside an
    operation or holds a reservation, every counter is back to zero, so that
    refused and aborted reservations of a limiter and its parents have been
    undone completely. *)
Theorem limiter_no_leak lim ls s c :
  Forall (respects lim) ls -> reachable_limiter ls s ->
  Forall (fun t => t.2 = TIdle) s.2 -> load s.1 c = 0.
Proof.
  intros Hr Hs Hidle. destruct (limiter_inv_reachable _ _ _ Hr Hs) as [(gs & Hts & Hinv) _].
  rewrite (proj1 (Hinv c)). apply sumZ_zero. intros g (j & Hj)%list_elem_of_lookup.
  destruct (Forall2_lookup_r _ _ _ _ _ Hts Hj) as ([l t] & Ht & [_ Hok]).
  rewrite Forall_lookup in Hidle. specialize (Hidle _ _ Ht). simpl in *. subst t. by subst g.
Qed.

(** ** Without interference *)

Lemma load_add st c d x : load (atomic_add st c d) x = load st x + if decide (c = x) then d else 0.
Proof.
  unfold load at 1, atomic_add. rewrite lookup_insert.
  destruct (decide (c = x)) as [->|]; simpl; [done|]. unfold load. lia.
Qed.

Lemma arun_bind {A B} (p : aprog A) (f : A -> aprog B) st :
  arun (abind p f) st = arun (f (arun p st).1) (arun p st).2.
Proof. revert st. induction p as [a|c d k IH]; intros st; simpl; auto. Qed.

(** Free slots at every level. *)
Definition has_room (l : resourceLimiter) (st : store) : bool :=
  forallb (fun p => load st p.1 <? p.2) (levels l).

Definition taken (l : resourceLimiter) (c : counter) : Z := cnt c (counters l).

Definition reserve_post (l : resourceLimiter) (st : store) (r : bool * store) : Prop :=
  r.1 = has_room l st /\
  forall c, load r.2 c = load st c + if has_room l st then taken l c else 0.

Lemma has_room_other l st c d :
  c ∉ counters l -> has_room l (atomic_add st c d) = has_room l st.
Proof.
  intros Hc. unfold has_room. assert (Hin : forall p, p ∈ levels l -> p.1 <> c).
  { intros [c' n'] Hp Heq. apply Hc, list_elem_of_fmap. exists (c', n'). done. }
  induction (levels l) as [|p ls IH]; simpl; [done|].
  rewrite load_add, decide_False by (intros ->; by apply (Hin p); [left|]).
  rewrite Z.add_0_r, IH; [done|]. intros q Hq. apply Hin. by right.
Qed.

Lemma reserve_run l st :
  NoDup (counters l) -> reserve_post l st (arun (resourceLimiter_reserve l) st).
Proof.
  revert st. induction l as [limit active|limit active p IH] using resourceLimiter_ind'; intros st Hnd;
    unfold reserve_post, taken, has_room, counters in *; cbn [levels resourceLimiter_reserve] in *.
  - destruct active as [c|]; [destruct (0 <? limit)|]; cbn; try (split; [done|intros; unfold cnt; simpl; lia]).
    rewrite load_add, decide_True, andb_true_r by done.
    destruct (Z.ltb_spec limit (load st c + 1)), (Z.ltb_spec (load st c) limit); try lia; cbn;
      (split; [done|]); intros x; rewrite ?load_add, ?cnt_cons; unfold cnt; simpl;
      destruct (decide _); lia.
  - assert (Hpar : forall st, NoDup (levels p).*1 ->
              arun (abind (resourceLimiter_reserve p) (fun ok => if ok then ARet true else ARet false)) st
              = arun (resourceLimiter_reserve p) st).
    { intros st' _. rewrite arun_bind. destruct (arun _ st') as [b st'']. by destruct b. }
    destruct active as [c|]; [destruct (0 <? limit)|]; cbn [fmap list_fmap] in *.
    2,3: rewrite Hpar by done; by apply IH.
    apply NoDup_cons in Hnd as [Hc Hnd]. cbn [arun forallb fst snd].
    rewrite load_add, decide_True by done.
    destruct (Z.ltb_spec limit (load st c + 1)), (Z.ltb_spec (load st c) limit); try lia.
    + cbn. split; [done|]. intros x. rewrite !load_add. destruct (decide _); lia.
    + rewrite arun_bind. destruct (IH (atomic_add st c 1) Hnd) as [Hb Hl].
      pose proof (has_room_other p st c 1 Hc) as Ho. unfold has_room in Ho. rewrite Ho in *.
      destruct (arun _ (atomic_add st c 1)) as [b st']. cbn [fst snd] in *. subst b.
      destruct (forallb _ (levels p)); cbn; split; try done; intros x; rewrite ?load_add, Hl, load_add, ?cnt_cons;
        destruct (decide _); lia.
Qed.

Lemma release_run l st c :
  load (arun (resourceLimiter_release l) st).2 c = load st c - taken l c.
Proof.
  revert st. induction l as [limit active|limit active p IH] using resourceLimiter_ind'; intros st;
    unfold taken, counters in *; cbn [levels resourceLimiter_release];
    destruct active as [a|]; try destruct (0 <? limit); cbn;
    rewrite ?IH, ?load_add, ?cnt_cons; unfold cnt; simpl; try destruct (decide _); lia.
Qed.

(** Run without interference, [reserve] succeeds exactly when every level
    of the chain has room; it then takes one slot at every level, and leaves
    every counter unchanged when it refuses; [release] gives back exactly what
    a successful [reserve] took. *)
Theorem reserve_release_sequential l st :
  NoDup (counters l) ->
  let '(ok, st') := arun (resourceLimiter_reserve l) st in
  ok = has_room l st /\
  (forall c, load st' c = load st c + if ok then cnt c (counters l) else 0) /\
  (ok = true -> forall c, load (arun (resourceLimiter_release l) st').2 c = load st c).
Proof.
  intros Hnd. destruct (reserve_run l st Hnd) as [Hb Hl].
  destruct (arun _ st) as [ok st']. cbn [fst snd] in *. subst ok.
  split; [done|]. split; [exact Hl|]. intros E c. rewrite release_run, Hl, E. lia.
Qed.

(** A connection limited to one channel under a global limit of two. *)
Definition sample_global := mkResourceLimiter 2 (Some 0%nat) None.
Definition sample_conn (c : counter) :=
  channel_chain (mkConnectionChannelLimiter 1 c (Some sample_global)).

Lemma reserve_release_sequential_witness :
  (arun (resourceLimiter_reserve (sample_conn 1)) ∅).1 = true /\
  NoDup (counters (sample_conn 1)) /\
  let '(ok, st') := arun (resourceLimiter_reserve (sample_conn 1)) ∅ in
  ok = has_room (sample_conn 1) ∅ /\
  (forall c, load st' c = load ∅ c + if ok then cnt c (counters (sample_conn 1)) else 0) /\
  (ok = true -> forall c, load (arun (resourceLimiter_release (sample_conn 1)) st').2 c = load ∅ c).
Proof.
  split; [reflexivity|]. assert (H : NoDup (counters (sample_conn 1))) by by_decide.
  split; [exact H|]. exact (reserve_release_sequential (sample_conn 1) ∅ H).
Defined.

Definition sample_lim (c : counter) : Z := match c with O => 2 | _ => 1 end.
Definition sample_limiters := [sample_conn 1; sample_conn 2].

Lemma sample_respects : Forall (respects sample_lim) sample_limiters.
Proof.
  repeat constructor; intros c n H;
    repeat (apply elem_of_cons in H as [[= -> ->]|H]; [reflexivity|]); by apply elem_of_nil in H.
Qed.

(** The first goroutine has reserved; the second is idle. *)
Lemma sample_reachable :
  reachable_limiter sample_limiters
    ((arun (resourceLimiter_reserve (sample_conn 1)) ∅).2,
     [(sample_conn 1, THolding); (sample_conn 2, TIdle)]).
Proof.
  pose proof (reach_init sample_limiters) as H. unfold initial_system in H. cbn in H.
  pose proof (reach_thread _ _ _ 0%nat _ _ _ _ H eq_refl (step_reserve _ _)) as H1.
  pose proof (reach_thread _ _ _ 0%nat _ _ _ _ H1 eq_refl (step_reserve_add _ _ _ _ _)) as H2.
  pose proof (reach_thread _ _ _ 0%nat _ _ _ _ H2 eq_refl (step_reserve_add _ _ _ _ _)) as H3.
  exact (reach_thread _ _ _ 0%nat _ _ _ _ H3 eq_refl (step_reserved _ _)).
Qed.

Lemma limiter_never_exceeded_witness :
  holders 1 [(sample_conn 1, THolding); (sample_conn 2, TIdle)] = 1 /\
  holders 1 [(sample_conn 1, THolding); (sample_conn 2, TIdle)] <= 1.
Proof.
  split; [reflexivity|].
  exact (limiter_never_exceeded sample_lim sample_limiters _ 1 1 sample_respects sample_reachable
           eq_refl eq_refl).
Defined.

Lemma limiter_no_leak_witness :
  load (initial_system sample_limiters).1 0 = 0.
Proof.
  apply (limiter_no_leak sample_lim sample_limiters); [exact sample_respects | apply reach_init |].
  repeat constructor.
Defined.
