(* ===== verification/Resources.v ===== *)
(** Resources: [connectionResources] of [context.go], the registry of what a
    connection must close when it ends.

    Every mutex-protected section of the code is one atomic function on the
    registry; the goroutines that acquire, register, unregister and close run
    them in any order ([cstep]).  [close(ch)] of a nil or closed channel is a
    panic. *)
From S2P Require Import Prelude.
Local Open Scope Z_scope.

(** ** The registry *)

(** A resource is named by its address.  [acquisitionsDrained] is the field
    (whether it is non-nil), [drainedClosed] the state of the channel it held;
    [closeDone] is nil, or open or closed. *)
Record connectionResources := mkCR {
  resources : gset nat;
  pendingAcquisitions : Z;
  acquisitionsDrained : bool;
  drainedClosed : bool;
  closed : bool;
  closeDone : option bool }.

Definition emptyResources : connectionResources := mkCR ∅ 0 false false false None.

(** The locked section of [register]; [true] when the caller must close the
    resource itself. *)
Definition register (resource : nat) (r : connectionResources) : connectionResources * bool :=
  if closed r then (r, true)
  else (mkCR ({[resource]} ∪ resources r) (pendingAcquisitions r) (acquisitionsDrained r)
          (drainedClosed r) (closed r) (closeDone r), false).

Definition unregister (resource : nat) (r : connectionResources) : connectionResources :=
  mkCR (resources r ∖ {[resource]}) (pendingAcquisitions r) (acquisitionsDrained r)
    (drainedClosed r) (closed r) (closeDone r).

(** The locked section of [closeAll]: [None] when a previous call is closing
    (the caller waits for [closeDone]), otherwise the resources to close and
    whether to wait for pending acquisitions. *)
Definition closeAll_begin (r : connectionResources)
  : connectionResources * option (list nat * bool) :=
  if closed r then (r, None)
  else
    let wait := 0 <? pendingAcquisitions r in
    (mkCR ∅ (pendingAcquisitions r) (wait || acquisitionsDrained r)
       (if wait then false else drainedClosed r) true (Some false),
     Some (elements (resources r), wait)).

(** [close(r.closeDone)]. *)
Definition closeAll_end (r : connectionResources) : option connectionResources :=
  match closeDone r with
  | Some false =>
      Some (mkCR (resources r) (pendingAcquisitions r) (acquisitionsDrained r) (drainedClosed r)
              (closed r) (Some true))
  | _ => None
  end.

(** The sections of [beginConnectionResourceAcquisition] and of the [finish]
    function it returns. *)
Definition beginAcquisition (r : connectionResources) : option connectionResources :=
  if closed r then None
  else Some (mkCR (resources r) (pendingAcquisitions r + 1) (acquisitionsDrained r) (drainedClosed r)
               (closed r) (closeDone r)).

(** The first locked section of [finish]: [closeFn] tells whether it was
    given a close function.  The result tells whether the resource has been
    registered and whether [closeFn] must be called. *)
Definition finish_insert (resource : nat) (closeFn : bool) (r : connectionResources)
  : connectionResources * bool * bool :=
  let was_closed := closed r in
  if negb was_closed && closeFn then
    (mkCR ({[resource]} ∪ resources r) (pendingAcquisitions r) (acquisitionsDrained r)
       (drainedClosed r) (closed r) (closeDone r), true, false)
  else (r, false, was_closed && closeFn).

(** The second one; [None] is the panic of closing a closed channel. *)
Definition finish_done (r : connectionResources) : option connectionResources :=
  let pending := pendingAcquisitions r - 1 in
  if closed r && (pending =? 0) && acquisitionsDrained r then
    if drainedClosed r then None
    else Some (mkCR (resources r) pending false true (closed r) (closeDone r))
  else Some (mkCR (resources r) pending (acquisitionsDrained r) (drainedClosed r) (closed r) (closeDone r)).

(** ** Goroutines *)

(** A goroutine that acquires a resource, or registers one it has; the
    resource is named by the index of the goroutine. *)
Inductive task :=
| AIdle | ARefused | AAcquiring | AMustClose | AFinishing (registered : bool)
| RIdle | RMustClose
| AHeld          (* owns the unregister function *)
| ADone.

(** The goroutine of the first [closeAll]. *)
Inductive main_phase :=
| MNone | MClosing (rest : list nat) (wait : bool) | MSignal | MFinished.

(** The callers of [closeAll]. *)
Inductive closer := CIdle | CFirst | CWaiting | CReturned.

Record csystem := mkCS {
  cr : connectionResources;
  tasks : list task;
  main : main_phase;
  closers : list closer;
  close_log : list nat;      (* the calls of close functions *)
  panicked : bool }.

Definition set_task (s : csystem) (i : nat) (t : task) (r : connectionResources) : csystem :=
  mkCS r (<[i := t]> (tasks s)) (main s) (closers s) (close_log s) (panicked s).
Definition log_close (s : csystem) (i : nat) : csystem :=
  mkCS (cr s) (tasks s) (main s) (closers s) (i :: close_log s) (panicked s).
Definition set_main (s : csystem) (m : main_phase) (r : connectionResources) : csystem :=
  mkCS r (tasks s) m (closers s) (close_log s) (panicked s).
Definition set_closer (s : csystem) (j : nat) (c : closer) : csystem :=
  mkCS (cr s) (tasks s) (main s) (<[j := c]> (closers s)) (close_log s) (panicked s).
Definition panic (s : csystem) : csystem :=
  mkCS (cr s) (tasks s) (main s) (closers s) (close_log s) true.

Inductive cstep : csystem -> csystem -> Prop :=
| c_begin s i r :
    tasks s !! i = Some AIdle -> beginAcquisition (cr s) = Some r ->
    cstep s (set_task s i AAcquiring r)
| c_begin_refused s i :
    tasks s !! i = Some AIdle -> beginAcquisition (cr s) = None ->
    cstep s (set_task s i ARefused (cr s))
| c_finish_insert s i closeFn r registered call :
    tasks s !! i = Some AAcquiring -> finish_insert i closeFn (cr s) = (r, registered, call) ->
    cstep s (set_task s i (if call : bool then AMustClose else AFinishing registered) r)
| c_finish_close s i :
    tasks s !! i = Some AMustClose ->
    cstep s (log_close (set_task s i (AFinishing false) (cr s)) i)
| c_finish_done s i registered r :
    tasks s !! i = Some (AFinishing registered) -> finish_done (cr s) = Some r ->
    cstep s (set_task s i (if registered : bool then AHeld else ADone) r)
| c_finish_panic s i registered :
    tasks s !! i = Some (AFinishing registered) -> finish_done (cr s) = None -> cstep s (panic s)
| c_register s i r call :
    tasks s !! i = Some RIdle -> register i (cr s) = (r, call) ->
    cstep s (set_task s i (if call : bool then RMustClose else AHeld) r)
| c_register_close s i :
    tasks s !! i = Some RMustClose -> cstep s (log_close (set_task s i ADone (cr s)) i)
| c_unregister s i :
    tasks s !! i = Some AHeld -> cstep s (set_task s i ADone (unregister i (cr s)))
| c_close_first s j r snapshot rest wait :
    closers s !! j = Some CIdle -> closeAll_begin (cr s) = (r, Some (snapshot, wait)) ->
    rest ≡ₚ snapshot ->      (* the iteration order of a map is unspecified *)
    cstep s (set_main (set_closer s j CFirst) (MClosing rest wait) r)
| c_close_again s j r :
    closers s !! j = Some CIdle -> closeAll_begin (cr s) = (r, None) ->
    cstep s (set_closer s j CWaiting)
| c_close_one s i rest wait :
    main s = MClosing (i :: rest) wait ->
    cstep s (log_close (set_main s (MClosing rest wait) (cr s)) i)
| c_close_wait s wait :
    main s = MClosing [] wait -> (wait = true -> drainedClosed (cr s) = true) ->
    cstep s (set_main s MSignal (cr s))
| c_close_end s r :
    main s = MSignal -> closeAll_end (cr s) = Some r -> cstep s (set_main s MFinished r)
| c_close_panic s : main s = MSignal -> closeAll_end (cr s) = None -> cstep s (panic s)
| c_return_first s j :
    closers s !! j = Some CFirst -> main s = MFinished -> cstep s (set_closer s j CReturned)
| c_return_waiting s j :
    closers s !! j = Some CWaiting -> closeDone (cr s) = Some true -> cstep s (set_closer s j CReturned).

(** [n] callers of [closeAll], and goroutines that have not started. *)
Definition start_task (t : task) : Prop := t = AIdle \/ t = RIdle.
Definition cinitial (ts : list task) (n : nat) : csystem :=
  mkCS emptyResources ts MNone (replicate n CIdle) [] false.

Inductive creachable (ts : list task) (n : nat) : csystem -> Prop :=
| creach_init : creachable ts n (cinitial ts n)
| creach_step s s' : creachable ts n s -> cstep s s' -> creachable ts n s'.

(** ** Invariant *)

Definition in_acquisition (t : task) : Z :=
  match t with AAcquiring | AMustClose | AFinishing _ => 1 | _ => 0 end.
Definition acquiring (s : csystem) : Z := sumZ in_acquisition (tasks s).

Definition to_close (m : main_phase) : list nat :=
  match m with MClosing rest _ => rest | _ => [] end.

(** How often resource [i] has been, or is about to be, closed. *)
Definition live (i : nat) (s : csystem) : Z :=
  cnt i (close_log s) + (if decide (i ∈ resources (cr s)) then 1 else 0) + cnt i (to_close (main s)).

Definition task_ok (i : nat) (t : option task) (s : csystem) : Prop :=
  match t with
  | Some (AFinishing true) | Some AHeld => live i s = 1
  | Some (AFinishing false) | Some ADone => live i s <= 1 /\ i ∉ resources (cr s)
  | _ => live i s = 0
  end.

(** The wake-up protocol between [closeAll] and the last acquisition. *)
Definition wake_ok (wait : bool) (s : csystem) : Prop :=
  if wait then
    (acquisitionsDrained (cr s) = true /\ drainedClosed (cr s) = false /\ 0 < acquiring s) \/
    (acquisitionsDrained (cr s) = false /\ drainedClosed (cr s) = true /\ acquiring s = 0)
  else acquiring s = 0.

Definition main_ok (s : csystem) : Prop :=
  match main s with
  | MNone => closed (cr s) = false /\ acquisitionsDrained (cr s) = false /\
             drainedClosed (cr s) = false /\ closeDone (cr s) = None
  | MClosing _ wait => closed (cr s) = true /\ closeDone (cr s) = Some false /\ wake_ok wait s
  | MSignal => closed (cr s) = true /\ closeDone (cr s) = Some false /\ acquiring s = 0
  | MFinished => closed (cr s) = true /\ closeDone (cr s) = Some true /\ acquiring s = 0
  end.

Record cinv (s : csystem) : Prop := mkCInv {
  ci_panicked : panicked s = false;
  ci_pending : pendingAcquisitions (cr s) = acquiring s;
  ci_closed : closed (cr s) = true -> resources (cr s) = ∅;
  ci_main : main_ok s;
  ci_tasks : forall i, task_ok i (tasks s !! i) s;
  ci_returned : forall j, closers s !! j = Some CReturned -> main s = MFinished }.

Lemma acquiring_insert s i t t' :
  tasks s !! i = Some t ->
  sumZ in_acquisition (<[i := t']> (tasks s)) = acquiring s - in_acquisition t + in_acquisition t'.
Proof. apply sumZ_insert. Qed.

Lemma acquiring_nonneg s : 0 <= acquiring s.
Proof.
  unfold acquiring. rewrite <- (sumZ_zero (fun _ => 0) (tasks s)) by done.
  apply sumZ_le. intros [] _; simpl; lia.
Qed.

Lemma acquiring_pos s i t :
  tasks s !! i = Some t -> in_acquisition t = 1 -> 0 < acquiring s.
Proof.
  intros Hi Ht. pose proof (acquiring_insert s i t ADone Hi) as H.
  pose proof (acquiring_nonneg (set_task s i ADone (cr s))) as Hn. unfold acquiring at 1 in Hn.
  simpl in *. lia.
Qed.

(** [task_ok] of the other goroutines survives a step that leaves their
    resources alone. *)
Lemma task_ok_other i t s s' :
  live i s' = live i s -> (i ∈ resources (cr s') -> i ∈ resources (cr s)) ->
  task_ok i t s -> task_ok i t s'.
Proof. unfold task_ok. intros -> Hin. destruct t as [[| | | |[]| | | |]|]; naive_solver. Qed.

Lemma tasks_ok_update s s' i t t' :
  (forall k, task_ok k (tasks s !! k) s) -> tasks s !! i = Some t -> tasks s' = <[i := t']> (tasks s) ->
  (forall k, k <> i -> live k s' = live k s /\ (k ∈ resources (cr s') -> k ∈ resources (cr s))) ->
  task_ok i (Some t') s' -> forall k, task_ok k (tasks s' !! k) s'.
Proof.
  intros Hok Hi Ht Hother Hi' k. rewrite Ht. destruct (decide (k = i)) as [->|Hne].
  - rewrite list_lookup_insert_eq; [done|]. by eapply lookup_lt_Some.
  - rewrite list_lookup_insert_ne by done. destruct (Hother k Hne). by eapply task_ok_other.
Qed.

Lemma cnt_elements i (X : gset nat) : cnt i (elements X) = if decide (i ∈ X) then 1 else 0.
Proof.
  unfold cnt. destruct (decide (i ∈ X)) as [Hin|Hin].
  - rewrite (proj1 (NoDup_count_occ' Nat.eq_dec (elements X))); [done| |].
    + apply NoDup_ListNoDup, NoDup_elements.
    + by apply list_elem_of_In, elem_of_elements.
  - rewrite (proj1 (count_occ_not_In Nat.eq_dec (elements X) i)); [done|].
    intros H%list_elem_of_In. by apply Hin, elem_of_elements.
Qed.

#[local] Arguments task_ok : simpl never.

(** ** Preservation *)

Lemma cinv_initial ts n : Forall start_task ts -> cinv (cinitial ts n).
Proof.
  intros Hts. assert (Hacq : acquiring (cinitial ts n) = 0).
  { apply sumZ_zero. intros t (i & Hi)%list_elem_of_lookup.
    by destruct (proj1 (Forall_lookup _ _) Hts i t Hi) as [-> | ->]. }
  split; try done; simpl.
  - intros i. assert (live i (cinitial ts n) = 0).
    { unfold live. simpl. rewrite decide_False by set_solver. done. }
    destruct (ts !! i) as [t|] eqn:E; [|done].
    by destruct (proj1 (Forall_lookup _ _) Hts i t E) as [-> | ->].
  - intros j H. apply lookup_replicate in H as [? _]. done.
Qed.

(** A step of a goroutine that changes neither the registry nor the log. *)
Lemma cinv_set_task s i t t' :
  cinv s -> tasks s !! i = Some t -> in_acquisition t' = in_acquisition t ->
  (task_ok i (Some t) s -> task_ok i (Some t') (set_task s i t' (cr s))) ->
  cinv (set_task s i t' (cr s)).
Proof.
  intros [Hp Hpend Hcl Hm Ht Hr] Hi Hacq Hok.
  assert (E : acquiring (set_task s i t' (cr s)) = acquiring s).
  { unfold acquiring at 1. simpl. rewrite (acquiring_insert _ _ _ _ Hi). lia. }
  split; simpl; auto.
  - by rewrite E.
  - unfold main_ok in *. simpl. destruct (main s); unfold wake_ok in *; rewrite ?E; done.
  - apply (tasks_ok_update s (set_task s i t' (cr s)) i _ _ Ht Hi eq_refl); [done|].
    specialize (Ht i). rewrite Hi in Ht. auto.
Qed.

Lemma cinv_begin s i r :
  cinv s -> tasks s !! i = Some AIdle -> beginAcquisition (cr s) = Some r ->
  cinv (set_task s i AAcquiring r).
Proof.
  intros [Hp Hpend Hcl Hm Ht Hr] Hi Hb. unfold beginAcquisition in Hb.
  destruct (closed (cr s)) eqn:Ec; [done|]. injection Hb as <-.
  assert (E : forall r, acquiring (set_task s i AAcquiring r) = acquiring s + 1).
  { intros r. unfold acquiring at 1. simpl. rewrite (acquiring_insert _ _ _ _ Hi). simpl. lia. }
  split; simpl; auto.
  - rewrite E. lia.
  - unfold main_ok in *. simpl. destruct (main s); rewrite Ec in *; try naive_solver.
  - refine (tasks_ok_update s (set_task s i AAcquiring _) i _ _ Ht Hi eq_refl _ _); [done|].
    specialize (Ht i). rewrite Hi in Ht. exact Ht.
Qed.

(** The locked section that registers a resource, of [finish] or [register]. *)
Lemma cinv_insert s i t t' r :
  cinv s -> tasks s !! i = Some t -> closed (cr s) = false ->
  r = mkCR ({[i]} ∪ resources (cr s)) (pendingAcquisitions (cr s)) (acquisitionsDrained (cr s))
        (drainedClosed (cr s)) (closed (cr s)) (closeDone (cr s)) ->
  in_acquisition t' = in_acquisition t -> (t = AAcquiring \/ t = RIdle) ->
  (t' = AFinishing true \/ t' = AHeld) ->
  cinv (set_task s i t' r).
Proof.
  intros [Hp Hpend Hcl Hm Ht Hr] Hi Ec -> Hacq Hs Hs'.
  assert (E : forall r, acquiring (set_task s i t' r) = acquiring s).
  { intros r. unfold acquiring at 1. simpl. rewrite (acquiring_insert _ _ _ _ Hi). lia. }
  specialize (Ht i) as Hti. rewrite Hi in Hti.
  assert (Hl : live i s = 0) by (destruct Hs as [-> | ->]; exact Hti).
  split; simpl; auto.
  - by rewrite E.
  - intros. congruence.
  - unfold main_ok in *. simpl. destruct (main s); rewrite Ec in *; naive_solver.
  - refine (tasks_ok_update s (set_task s i t' _) i _ _ Ht Hi eq_refl _ _).
    + intros k Hk. unfold live. simpl. split; [|set_solver].
      f_equal. f_equal. destruct (decide (k ∈ resources (cr s))), (decide (k ∈ {[i]} ∪ resources (cr s)));
        try done; set_solver.
    + assert (H1 : forall st, st = set_task s i t' (mkCR ({[i]} ∪ resources (cr s))
        (pendingAcquisitions (cr s)) (acquisitionsDrained (cr s)) (drainedClosed (cr s))
        (closed (cr s)) (closeDone (cr s))) -> live i st = 1).
      { intros st ->. unfold live in *. simpl. rewrite decide_True by set_solver.
        pose proof (cnt_nonneg i (close_log s)). pose proof (cnt_nonneg i (to_close (main s))).
        destruct (decide (i ∈ resources (cr s))); lia. }
      destruct Hs' as [-> | ->]; by apply H1.
Qed.

(** A goroutine closes its resource itself, because the registry is closed. *)
Lemma cinv_self_close s i t t' :
  cinv s -> tasks s !! i = Some t -> (t = AMustClose \/ t = RMustClose) ->
  in_acquisition t' = in_acquisition t -> (t' = AFinishing false \/ t' = ADone) ->
  cinv (log_close (set_task s i t' (cr s)) i).
Proof.
  intros [Hp Hpend Hcl Hm Ht Hr] Hi Hs Hacq Hs'.
  set (s' := log_close (set_task s i t' (cr s)) i).
  assert (E : acquiring s' = acquiring s).
  { unfold acquiring at 1. simpl. rewrite (acquiring_insert _ _ _ _ Hi). lia. }
  specialize (Ht i) as Hti. rewrite Hi in Hti.
  assert (Hl : live i s = 0) by (destruct Hs as [-> | ->]; exact Hti).
  pose proof (cnt_nonneg i (close_log s)). pose proof (cnt_nonneg i (to_close (main s))).
  split; simpl; auto.
  - by rewrite E.
  - unfold main_ok, s' in *. simpl. destruct (main s); unfold wake_ok in *; rewrite ?E; done.
  - apply (tasks_ok_update s s' i _ _ Ht Hi eq_refl).
    + intros k Hk. unfold live. simpl. rewrite cnt_cons, decide_False by done. done.
    + assert (live i s' <= 1 /\ i ∉ resources (cr s')).
      { unfold live, s' in *. simpl. rewrite cnt_cons, decide_True by done.
        destruct (decide (i ∈ resources (cr s))); [lia|]. split; [lia|done]. }
      by destruct Hs' as [-> | ->].
Qed.

Lemma cinv_finish_done s i registered r :
  cinv s -> tasks s !! i = Some (AFinishing registered) -> finish_done (cr s) = Some r ->
  cinv (set_task s i (if registered : bool then AHeld else ADone) r).
Proof.
  intros [Hp Hpend Hcl Hm Ht Hr] Hi Hd.
  set (t' := if registered : bool then AHeld else ADone).
  assert (Hpos : 0 < acquiring s) by (by eapply acquiring_pos).
  assert (E : acquiring (set_task s i t' r) = acquiring s - 1).
  { unfold acquiring at 1. simpl. rewrite (acquiring_insert _ _ _ _ Hi).
    unfold t'. destruct registered; simpl; lia. }
  assert (Er : resources r = resources (cr s) /\ closed r = closed (cr s) /\
               pendingAcquisitions r = pendingAcquisitions (cr s) - 1 /\ closeDone r = closeDone (cr s)).
  { unfold finish_done in Hd. repeat case_match; simplify_eq; done. }
  destruct Er as (Er & Ec & Epd & Ecd).
  split; simpl; auto.
  - rewrite E. lia.
  - by rewrite Er, Ec.
  - unfold main_ok in *. simpl. rewrite Ec, Ecd.
    unfold finish_done in Hd. destruct (main s) as [|rest wait| |]; [|..|lia|lia].
    + destruct Hm as (Hc & Ha & Hdc & Hcd). rewrite Hc, Ha, Hdc in *. simpl in Hd.
      injection Hd as <-. done.
    + destruct Hm as (Hc & Hcd & Hw). unfold wake_ok in *. rewrite Hc, E in *.
      destruct wait; [|lia]. destruct Hw as [(Ha & Hdc & _)|(_ & _ & ?)]; [|lia].
      rewrite Ha, Hdc in Hd. simpl in Hd. simpl.
      destruct (Z.eqb_spec (pendingAcquisitions (cr s) - 1) 0); simplify_eq/=;
        split_and!; try done; [right|left]; split_and!; try done; lia.
  - apply (tasks_ok_update s (set_task s i t' r) i _ _ Ht Hi eq_refl).
    + intros k _. unfold live. simpl. by rewrite Er.
    + specialize (Ht i). rewrite Hi in Ht. unfold task_ok, live, t' in *. simpl. rewrite Er.
      by destruct registered.
Qed.

Lemma cinv_unregister s i :
  cinv s -> tasks s !! i = Some AHeld -> cinv (set_task s i ADone (unregister i (cr s))).
Proof.
  intros [Hp Hpend Hcl Hm Ht Hr] Hi.
  set (s' := set_task s i ADone (unregister i (cr s))).
  assert (E : acquiring s' = acquiring s).
  { unfold acquiring at 1. simpl. rewrite (acquiring_insert _ _ _ _ Hi). simpl. lia. }
  split; simpl; auto.
  - by rewrite E.
  - intros Hc. rewrite (Hcl Hc). set_solver.
  - unfold main_ok in *. simpl. destruct (main s); unfold wake_ok in *; rewrite ?E; done.
  - apply (tasks_ok_update s s' i _ _ Ht Hi eq_refl).
    + intros k Hk. unfold live. simpl. split; [|set_solver]. f_equal. f_equal.
      destruct (decide (k ∈ resources (cr s))), (decide (k ∈ resources (cr s) ∖ {[i]})); try done; set_solver.
    + specialize (Ht i). rewrite Hi in Ht. unfold task_ok, live in *. simpl.
      rewrite (decide_False (P := i ∈ resources (cr s) ∖ {[i]})) by set_solver.
      split; [|set_solver]. destruct (decide (i ∈ resources (cr s))); lia.
Qed.

Lemma cinv_close_first s j r snapshot rest wait :
  cinv s -> closers s !! j = Some CIdle -> closeAll_begin (cr s) = (r, Some (snapshot, wait)) ->
  rest ≡ₚ snapshot -> cinv (set_main (set_closer s j CFirst) (MClosing rest wait) r).
Proof.
  intros [Hp Hpend Hcl Hm Ht Hr] Hj Hb Hperm. unfold closeAll_begin in Hb.
  destruct (closed (cr s)) eqn:Ec; [done|]. injection Hb as <- <- <-.
  assert (Hmn : main s = MNone).
  { unfold main_ok in Hm. destruct (main s); [done|destruct Hm; congruence..]. }
  unfold main_ok in Hm. rewrite Hmn in Hm. destruct Hm as (_ & Ha & Hdc & Hcd).
  assert (Hlive : forall i r, resources r = ∅ ->
            live i (set_main (set_closer s j CFirst) (MClosing rest (0 <? pendingAcquisitions (cr s))) r)
            = live i s).
  { intros i r Hres. unfold live. simpl. rewrite Hmn, Hres, decide_False by set_solver. simpl.
    rewrite (cnt_perm i _ _ Hperm), cnt_elements. change (cnt i []) with 0. lia. }
  split; simpl; auto.
  - unfold main_ok. simpl. split_and!; try done. unfold wake_ok, acquiring. simpl.
    change (sumZ in_acquisition (tasks s)) with (acquiring s). rewrite <- Hpend, Ha.
    destruct (Z.ltb_spec 0 (pendingAcquisitions (cr s))); [left; done|].
    pose proof (acquiring_nonneg s). lia.
  - intros i. eapply task_ok_other; [by apply Hlive|simpl; set_solver|apply Ht].
  - intros j' Hj'. exfalso. destruct (decide (j' = j)) as [->|].
    + rewrite list_lookup_insert_eq in Hj' by (by eapply lookup_lt_Some). done.
    + rewrite list_lookup_insert_ne in Hj' by done. apply Hr in Hj'. congruence.
Qed.

(** Only the state of one caller of [closeAll] changes. *)
Lemma cinv_set_closer s j c :
  cinv s -> (c = CReturned -> main s = MFinished) -> cinv (set_closer s j c).
Proof.
  intros [Hp Hpend Hcl Hm Ht Hr] Hc. split; auto. simpl. intros j' Hj'.
  destruct (decide (j' = j)) as [->|].
  - destruct (decide (j < length (closers s))%nat).
    + rewrite list_lookup_insert_eq in Hj' by done. simplify_eq. auto.
    + rewrite list_insert_ge in Hj' by lia. by apply (Hr j).
  - rewrite list_lookup_insert_ne in Hj' by done. by apply (Hr j').
Qed.

(** A step of the closing goroutine that leaves every [live] count alone. *)
Lemma cinv_main s s' :
  cinv s -> tasks s' = tasks s -> closers s' = closers s -> panicked s' = panicked s ->
  resources (cr s') = resources (cr s) -> closed (cr s') = closed (cr s) ->
  pendingAcquisitions (cr s') = pendingAcquisitions (cr s) ->
  (forall i, live i s' = live i s) -> main s <> MFinished -> main_ok s' -> cinv s'.
Proof.
  intros [Hp Hpend Hcl Hm Ht Hr] Et Ecl Ep Er Ec Epd Hlive Hnf Hmain. split; auto.
  - congruence.
  - rewrite Epd, Hpend. unfold acquiring. by rewrite Et.
  - by rewrite Er, Ec.
  - intros i. rewrite Et. eapply task_ok_other; [apply Hlive|by rewrite Er|apply Ht].
  - intros j. rewrite Ecl. intros H. apply Hr in H. congruence.
Qed.

Lemma cinv_step s s' : cinv s -> cstep s s' -> cinv s'.
Proof.
  intros H Hstep. pose proof (ci_main _ H) as Hm. unfold main_ok in Hm.
  destruct Hstep as [s i r Hi Hb|s i Hi Hb|s i f r reg call Hi Hf|s i Hi|s i reg r Hi Hd|s i reg Hi Hd
    |s i r call Hi Hrg|s i Hi|s i Hi|s j r snap rest w Hj Hb Hp|s j r Hj Hb|s i rest w Hmn|s w Hmn Hw
    |s r Hmn He|s Hmn He|s j Hj Hmn|s j Hj Hd].
  - by apply cinv_begin.
  - by eapply cinv_set_task.
  - unfold finish_insert in Hf. destruct (closed (cr s)) eqn:Ec, f; simpl in Hf; simplify_eq;
      try (eapply cinv_set_task; eauto; intros Hl; unfold task_ok in *; simpl in *; try done).
    + split; [by change (live i s <= 1); lia|]. simpl. rewrite (ci_closed _ H Ec). set_solver.
    + apply (cinv_insert s i AAcquiring); auto. by rewrite Ec.
    + split; [by change (live i s <= 1); lia|]. simpl. intros Hin. unfold live in Hl.
      rewrite decide_True in Hl by done.
      pose proof (cnt_nonneg i (close_log s)). pose proof (cnt_nonneg i (to_close (main s))). lia.
  - by eapply cinv_self_close; eauto.
  - by apply cinv_finish_done.
  - exfalso. pose proof (acquiring_pos _ _ _ Hi eq_refl). unfold finish_done in Hd.
    destruct (main s) as [|rest w| |]; destruct Hm as (Hc & Hm); rewrite Hc in Hd; simpl in Hd;
      [done| |destruct Hm; lia..]. destruct Hm as (_ & Hw). unfold wake_ok in Hw.
    destruct w; [|lia]. destruct Hw as [(Ha & Hdc & _)|(_ & _ & ?)]; [|lia].
    rewrite Ha, Hdc in Hd. by destruct (_ =? 0).
  - unfold register in Hrg. destruct (closed (cr s)) eqn:Ec; simplify_eq.
    + by eapply cinv_set_task.
    + apply (cinv_insert s i RIdle); auto. by rewrite Ec.
  - by eapply cinv_self_close; eauto.
  - by apply cinv_unregister.
  - by eapply cinv_close_first.
  - by apply cinv_set_closer.
  - rewrite Hmn in Hm. apply (cinv_main s); try done; simpl; try congruence.
    intros k. unfold live. rewrite Hmn. simpl. rewrite !cnt_cons. destruct (decide _); lia.
  - rewrite Hmn in Hm. destruct Hm as (Hc & Hcd & Hwk).
    apply (cinv_main s); try done; simpl; try congruence.
    + intros k. unfold live. by rewrite Hmn.
    + split_and!; try done. unfold wake_ok in Hwk. destruct w; [|done].
      destruct Hwk as [(_ & Hdc & _)|(_ & _ & ?)]; [|done]. rewrite Hw in Hdc by done. done.
  - rewrite Hmn in Hm. destruct Hm as (Hc & Hcd & Ha). unfold closeAll_end in He. rewrite Hcd in He.
    injection He as <-. apply (cinv_main s); try done; simpl; try congruence.
    intros k. unfold live. by rewrite Hmn.
  - rewrite Hmn in Hm. destruct Hm as (_ & Hcd & _). unfold closeAll_end in He. by rewrite Hcd in He.
  - by apply cinv_set_closer.
  - apply cinv_set_closer; [done|]. intros _.
    destruct (main s); try done; destruct Hm as (_ & Hm); rewrite Hd in Hm; naive_solver.
Qed.

Lemma cinv_reachable ts n s : Forall start_task ts -> creachable ts n s -> cinv s.
Proof.
  intros Hts H. induction H; [by apply cinv_initial|by eapply cinv_step].
Qed.

(** ** The contract of the registry *)

(** What a call of [closeAll] that has returned leaves. *)
Lemma returned_quiet s j :
  cinv s -> closers s !! j = Some CReturned ->
  acquiring s = 0 /\ resources (cr s) = ∅ /\ beginAcquisition (cr s) = None /\
  forall i, tasks s !! i = Some AHeld -> cnt i (close_log s) = 1.
Proof.
  intros [_ _ Hcl Hm Ht Hret] Hj. apply Hret in Hj. unfold main_ok in Hm. rewrite Hj in Hm. destruct Hm as (Hc & _ & Ha).
  split; [done|]. split; [auto|]. split; [unfold beginAcquisition; by rewrite Hc|].
  intros i Hi. specialize (Ht i). rewrite Hi in Ht. unfold task_ok, live in Ht.
  rewrite Hcl, Hj, decide_False in Ht by (auto; set_solver). change (cnt i (to_close MFinished)) with 0 in Ht. lia.
Qed.

Instance closer_eq_dec : EqDecision closer.
Proof. solve_decision. Defined.

(** ** A call of [closeAll] can return

    When some call has begun the closing has begun. *)
Lemma call_closes ts n s j c :
  Forall start_task ts -> creachable ts n s -> closers s !! j = Some c -> c <> CIdle -> main s <> MNone.
Proof.
  intros Hts Hr. revert j c. induction Hr as [|s s' Hr IH Hs]; intros j c Hj Hc.
  - by apply lookup_replicate in Hj as [-> _].
  - pose proof (ci_main _ (cinv_reachable _ _ _ Hts Hr)) as Hm.
    destruct Hs as [| | | | | | | | |s j' r snap rest w Hj' Hb Hp|s j' r Hj' Hb| | | | |s j' Hj' Hmn|s j' Hj' Hd]; cbn in *;
      try (by eauto).
    intros E. unfold main_ok in Hm. rewrite E in Hm. unfold closeAll_begin in Hb. by rewrite (proj1 Hm) in Hb.
Qed.

Definition task_steps (t : task) : Z := match t with AAcquiring => 3 | AMustClose => 2 | AFinishing _ => 1 | _ => 0 end.

(** The goroutines that acquire need nobody else to finish. *)
Lemma acquisitions_finish s :
  cinv s -> exists s', rtc cstep s s' /\ cinv s' /\ acquiring s' = 0 /\ main s' = main s /\ closers s' = closers s.
Proof.
  remember (Z.to_nat (sumZ task_steps (tasks s))) as m eqn:E. revert s E.
  induction m as [m IH] using lt_wf_ind. intros s E I.
  destruct (decide (Exists (fun t => in_acquisition t <> 0) (tasks s))) as [Hx|Hx].
  - apply Exists_exists in Hx as (t & (i & Hi)%list_elem_of_lookup & Ht).
    assert (exists s1 t', cstep s s1 /\ main s1 = main s /\ closers s1 = closers s /\ tasks s1 = <[i := t']> (tasks s) /\
              task_steps t' < task_steps t) as (s1 & t' & Hs & Hm & Hc & Hts & Hlt).
    { destruct t as [| | | |reg| | | |]; try done.
      - assert (finish_insert i false (cr s) = (cr s, false, false)) as Hf by (unfold finish_insert; by rewrite !andb_false_r).
        eexists _, _. split; [by apply (c_finish_insert s i false _ _ _ Hi Hf)|]. by split_and!.
      - eexists _, _. split; [by apply c_finish_close|]. by split_and!.
      - destruct (finish_done (cr s)) as [r|] eqn:Hd.
        + eexists _, _. split; [by eapply c_finish_done|]. split_and!; try done. by destruct reg.
        + assert (Hp : cinv (panic s)) by (eapply cinv_step; [done|by eapply c_finish_panic]). discriminate (ci_panicked _ Hp). }
    assert (0 <= sumZ task_steps (tasks s1)) by (apply sumZ_nonneg; by intros []).
    assert (sumZ task_steps (tasks s1) < sumZ task_steps (tasks s)) by (rewrite Hts, (sumZ_insert _ _ _ _ _ Hi); lia).
    destruct (IH (Z.to_nat (sumZ task_steps (tasks s1))) ltac:(lia) s1 eq_refl (cinv_step _ _ I Hs)) as (s' & Hr & I' & Ha & Hm' & Hc').
    exists s'. split; [by eapply rtc_l|]. split_and!; congruence.
  - exists s. split_and!; try done. apply sumZ_zero. intros t Ht. destruct (decide (in_acquisition t = 0)); [done|].
    destruct Hx. apply Exists_exists. eauto.
Qed.

Lemma closing_finishes s :
  cinv s -> main s <> MNone -> exists s', rtc cstep s s' /\ cinv s' /\ main s' = MFinished /\ closers s' = closers s.
Proof.
  intros I Hn. destruct (acquisitions_finish s I) as (s1 & Hr1 & I1 & Ha1 & Hm1 & Hc1). rewrite <- Hm1 in Hn. rewrite <- Hc1.
  enough (exists s', rtc cstep s1 s' /\ cinv s' /\ main s' = MFinished /\ closers s' = closers s1) as (s' & ? & ?)
    by (exists s'; split; [by etrans|done]).
  assert (Hsignal : forall s, cinv s -> main s = MSignal ->
            exists s', rtc cstep s s' /\ cinv s' /\ main s' = MFinished /\ closers s' = closers s).
  { intros x Ix Hx. pose proof (ci_main _ Ix) as Hm. unfold main_ok in Hm. rewrite Hx in Hm. destruct Hm as (_ & Hcd & _).
    assert (exists r, closeAll_end (cr x) = Some r) as [r He] by (unfold closeAll_end; rewrite Hcd; eauto).
    pose proof (c_close_end x r Hx He) as Hs. eexists. split; [by apply rtc_once|]. split; [by eapply cinv_step|done]. }
  clear s I Hr1 Hm1 Hc1. destruct (main s1) as [|rest wait| |] eqn:Hm; [done| |by apply Hsignal|by exists s1].
  revert s1 I1 Ha1 Hn Hm. induction rest as [|i rest IH]; intros s I Ha Hn Hm.
  - assert (Hs : cstep s (set_main s MSignal (cr s))).
    { apply (c_close_wait _ wait); [done|]. intros ->. pose proof (ci_main _ I) as H. unfold main_ok in H. rewrite Hm in H.
      destruct H as (_ & _ & [(_ & _ & ?)|(_ & ? & _)]); [lia|done]. }
    destruct (Hsignal _ (cinv_step _ _ I Hs) eq_refl) as (s' & Hr & ?). exists s'. split; [by eapply rtc_l|done].
  - pose proof (c_close_one s i rest wait Hm) as Hs.
    destruct (IH _ (cinv_step _ _ I Hs) Ha ltac:(done) eq_refl) as (s' & Hr & ?). exists s'. split; [by eapply rtc_l|done].
Qed.

Lemma closeAll_returns ts n s j :
  Forall start_task ts -> creachable ts n s -> (j < n)%nat ->
  exists s', rtc cstep s s' /\ closers s' !! j = Some CReturned.
Proof.
  intros Hts Hr Hlt. assert (Hlen : length (closers s) = n).
  { clear -Hr. induction Hr as [|s s' _ IH Hs]; [by apply length_replicate|]. destruct Hs; cbn; by rewrite ?length_insert. }
  assert (Hbegun : forall s c, creachable ts n s -> closers s !! j = Some c -> c <> CIdle ->
            exists s', rtc cstep s s' /\ closers s' !! j = Some CReturned).
  { clear s Hr Hlen. intros s c Hr Hj Hc.
    destruct (closing_finishes s (cinv_reachable _ _ _ Hts Hr) (call_closes _ _ _ _ _ Hts Hr Hj Hc)) as (s' & Hs & I' & Hm & Hc').
    rewrite <- Hc' in Hj. pose proof (ci_main _ I') as H. unfold main_ok in H. rewrite Hm in H. destruct H as (_ & Hcd & _).
    destruct c; [done|pose proof (c_return_first _ _ Hj Hm) as Hl|pose proof (c_return_waiting _ _ Hj Hcd) as Hl|by exists s'];
      (eexists; split; [eapply rtc_r; [exact Hs|exact Hl]|]; cbn; apply list_lookup_insert_eq; by eapply lookup_lt_Some). }
  destruct (lookup_lt_is_Some_2 (closers s) j) as [c Hj]; [lia|]. destruct (decide (c = CIdle)) as [->|Hc]; [|by eapply Hbegun].
  destruct (closeAll_begin (cr s)) as [r [[snapshot wait]|]] eqn:Hb;
    [pose proof (c_close_first s j r snapshot snapshot wait Hj Hb (reflexivity _)) as Hs|pose proof (c_close_again s j r Hj Hb) as Hs];
    (edestruct Hbegun as (s' & Hr' & Hret);
       [by eapply creach_step|cbn; apply list_lookup_insert_eq; by eapply lookup_lt_Some|done|exists s'; split; [by eapply rtc_l|done]]).
Qed.

(** C2. When any call of [closeAll] has returned, whatever the interleaving, no
    acquisition is in progress or can begin any more, nothing is registered,
    and every resource whose goroutine still holds it has been closed exactly
    once. *)
Theorem closeAll_complete ts n s j :
  Forall start_task ts -> creachable ts n s -> closers s !! j = Some CReturned ->
  acquiring s = 0 /\ resources (cr s) = ∅ /\ beginAcquisition (cr s) = None /\
  forall i, tasks s !! i = Some AHeld -> cnt i (close_log s) = 1.
Proof.
  intros Hts Hr Hj. exact (returned_quiet s j (cinv_reachable _ _ _ Hts Hr) Hj).
Qed.

(** No interleaving closes a resource twice, and none makes the registry
    close a nil or closed channel. *)
Theorem resource_closed_once ts n s i :
  Forall start_task ts -> creachable ts n s ->
  cnt i (close_log s) <= 1 /\ panicked s = false.
Proof.
  intros Hts Hr. destruct (cinv_reachable _ _ _ Hts Hr) as [Hp _ _ _ Ht _]. split; [|done].
  specialize (Ht i). unfold task_ok, live in Ht. pose proof (cnt_nonneg i (to_close (main s))).
  repeat case_match; subst; try lia;
    destruct (decide (i ∈ resources (cr s))); destruct Ht || idtac; lia.
Qed.

(** [closeAll] loses no wake-up: as long as it is closing, either it can
    take its next step, or some goroutine is still between the begin and the
    end of an acquisition. *)
Theorem closeAll_progress ts n s rest wait :
  Forall start_task ts -> creachable ts n s -> main s = MClosing rest wait ->
  (exists s', cstep s s' /\ main s' <> main s) \/ 0 < acquiring s.
Proof.
  intros Hts Hr Hmn. destruct (cinv_reachable _ _ _ Hts Hr) as [_ _ _ Hm _ _].
  unfold main_ok in Hm. rewrite Hmn in Hm. destruct Hm as (_ & _ & Hw).
  destruct rest as [|i rest].
  - unfold wake_ok in Hw. destruct wait; [destruct Hw as [(_ & _ & ?)|(_ & Hd & _)]|];
      [by right| |]; left; (eexists; split; [eapply c_close_wait; [exact Hmn|done]|]); simpl; congruence.
  - left. eexists. split; [by eapply c_close_one|]. simpl. intros E. rewrite Hmn in E.
    apply (f_equal (fun m => length (to_close m))) in E. simpl in E. lia.
Qed.

(** A goroutine acquires, the connection closes, a second caller waits. *)
Definition sample_tasks := [AIdle; RIdle].

Definition sample_closed : csystem :=
  mkCS (mkCR ∅ 0 false false true (Some true)) [AHeld; RIdle] MFinished [CReturned; CIdle] [0%nat] false.

Ltac resources_step H rule :=
  match type of H with creachable ?ts ?n ?s =>
    let s' := open_constr:(_ : csystem) in
    let K := fresh in
    let t := eval cbv beta in (rule s) in
    assert (K : cstep s s') by (eapply t; solve [reflexivity | done]);
    apply (creach_step _ _ _ _ H) in K; clear H; rename K into H
  end.

Lemma sample_closed_reachable : creachable sample_tasks 2 sample_closed.
Proof.
  pose proof (creach_init sample_tasks 2) as H.
  resources_step H (fun s => c_begin s 0).
  resources_step H (fun s => c_finish_insert s 0 true).
  resources_step H (fun s => c_finish_done s 0).
  resources_step H (fun s => c_close_first s 0).
  resources_step H (fun s => c_close_one s 0).
  resources_step H (fun s => c_close_wait s false).
  resources_step H c_close_end.
  resources_step H (fun s => c_return_first s 0).
  exact H.
Qed.

Lemma sample_start : Forall start_task sample_tasks.
Proof. repeat constructor; (by left) || (by right). Qed.

Lemma closeAll_complete_witness :
  closers sample_closed !! 0%nat = Some CReturned /\ acquiring sample_closed = 0 /\
  cnt 0 (close_log sample_closed) = 1.
Proof.
  split; [reflexivity|].
  destruct (closeAll_complete sample_tasks 2 sample_closed 0 sample_start sample_closed_reachable eq_refl)
    as (Ha & _ & _ & Hi).
  split; [exact Ha | apply (Hi 0%nat); reflexivity].
Defined.

Lemma resource_closed_once_witness : cnt 0 (close_log sample_closed) <= 1.
Proof.
  exact (proj1 (resource_closed_once sample_tasks 2 sample_closed 0 sample_start sample_closed_reachable)).
Defined.

Definition sample_waiting : csystem :=
  mkCS (mkCR ∅ 1 true false true (Some false)) [AAcquiring; RIdle] (MClosing [] true) [CFirst; CIdle] [] false.

Lemma sample_waiting_reachable : creachable sample_tasks 2 sample_waiting.
Proof.
  pose proof (creach_init sample_tasks 2) as H.
  resources_step H (fun s => c_begin s 0).
  resources_step H (fun s => c_close_first s 0).
  exact H.
Qed.

Lemma closeAll_progress_witness :
  (exists s', cstep sample_waiting s' /\ main s' <> main sample_waiting) \/ 0 < acquiring sample_waiting.
Proof.
  exact (closeAll_progress sample_tasks 2 sample_waiting [] true sample_start sample_waiting_reachable eq_refl).
Defined.
