(* ===== verification/ErrorDispatch.v ===== *)
(** * Error dispatch ([error-handling.go])

    The one-shot [errorResponse] and [nextErrorHandler], [dispatchError] and
    [dispatchErrorOrEscalate] with their default actions.  Two views share the
    critical sections of the state machines: [dispatchError] runs a handler
    that calls [respond] and [next] from its own goroutine and returns a trace
    of effects; [dstep] interleaves any number of goroutines that got hold of
    [respond] and [next] with the dispatch itself. *)
From stdpp Require Import relations.
From S2P Require Import Prelude GoErrors.

Definition ErrErrorResponseUnsupported := ErrNew 30 "ssh: error response is not supported".
Definition ErrErrorResponseAlreadySent := ErrNew 31 "ssh: error response was already sent".
Definition ErrErrorResponseExpired := ErrNew 32 "ssh: error responder has expired".
Definition ErrNextErrorHandlerAlreadyCalled := ErrNew 33 "ssh: next error handler was already called".
Definition ErrNextErrorHandlerExpired := ErrNew 34 "ssh: next error handler has expired".
Definition ErrNextErrorHandlerIncomplete :=
  ErrNew 35 "ssh: next error handler did not complete synchronously".
Definition errErrorResponseIncomplete :=
  ErrNew 36 "ssh: error response did not complete synchronously".

(** ** The state machines

    [R] stands for the responder, [D] for the default action and what it is
    called with. *)
Section Machines.
Context {R D : Type}.

Record errorResponse := mkErrorResponse {
  respond : option R; resp_active : bool; attempted : bool; resp_complete : bool;
  resp_err : option error; resp_close : bool }.

Record nextErrorHandler := mkNextErrorHandler {
  next_active : bool; called : bool; next_complete : bool; next_canContinue : bool;
  next_err : option error; defaultAction : option D }.

Definition newErrorResponse (f : option R) : errorResponse := mkErrorResponse f true false false None false.

(** [send] up to the call of the responder: its error, or the responder. *)
Definition send_begin (closeAfterResponse : bool) (r : errorResponse) : errorResponse * (error + R) :=
  if negb (resp_active r) then (r, inl ErrErrorResponseExpired)
  else if attempted r then (r, inl ErrErrorResponseAlreadySent)
  else match respond r with
       | None => (mkErrorResponse None (resp_active r) true true (Some ErrErrorResponseUnsupported) (resp_close r),
                  inl ErrErrorResponseUnsupported)
       | Some f => (mkErrorResponse (respond r) (resp_active r) true (resp_complete r) (resp_err r)
                      closeAfterResponse, inr f)
       end.

(** The section after the call. *)
Definition send_end (err : option error) (r : errorResponse) : errorResponse :=
  mkErrorResponse (respond r) (resp_active r) (attempted r) true err (resp_close r).

Definition response_result (r : errorResponse) : bool * option error :=
  if attempted r && negb (resp_complete r) then (true, Some errErrorResponseIncomplete)
  else (attempted r, resp_err r).

Definition closeRequested (r : errorResponse) : bool := resp_close r.

Definition response_expire (r : errorResponse) : errorResponse :=
  mkErrorResponse None false (attempted r) (resp_complete r) (resp_err r) (resp_close r).

Definition newNextErrorHandler (d : D) : nextErrorHandler :=
  mkNextErrorHandler true false false false None (Some d).

Definition call_begin (n : nextErrorHandler) : nextErrorHandler * (error + option D) :=
  if negb (next_active n) then (n, inl ErrNextErrorHandlerExpired)
  else if called n then (n, inl ErrNextErrorHandlerAlreadyCalled)
  else (mkNextErrorHandler (next_active n) true (next_complete n) (next_canContinue n) (next_err n)
          (defaultAction n), inr (defaultAction n)).

Definition call_end (res : bool * option error) (n : nextErrorHandler) : nextErrorHandler :=
  mkNextErrorHandler (next_active n) (called n) true (fst res) (snd res) (defaultAction n).

Definition next_expire (n : nextErrorHandler) : nextErrorHandler :=
  mkNextErrorHandler false (called n) (next_complete n) (next_canContinue n) (next_err n) None.

(** The return value once the handler has returned [handled]. *)
Definition dispatch_result (n : nextErrorHandler) (handled : bool * option error) : bool * option error :=
  if called n && negb (next_complete n) then (false, Some ErrNextErrorHandlerIncomplete) else handled.
End Machines.
Arguments errorResponse : clear implicits.
Arguments nextErrorHandler : clear implicits.

(** ** Dispatch of one error *)

Inductive event :=
| EvCloseConnection                                   (* ctx.Value(contextKeyCloseConnection)() *)
| EvCloseServerConn                                   (* closeQuietly of the gossh.ServerConn *)
| EvLogFailed (scope : ErrorScope) (operation : ErrorOperation) (err : error)
| EvLogEscalate (scope : ErrorScope) (operation : ErrorOperation) (dispatchErr original : error).

(** The state the effects of a dispatch act on.  A component that reports
    errors brings its own state and says how it takes note of these events. *)
Class World (W : Type) := {
  emit : list event -> W -> W;
  emit_nil w : emit [] w = w;
  emit_app l l' w : emit (l ++ l') w = emit l' (emit l w) }.

(** Where only the events matter, they are the state. *)
#[export] Instance trace_world : World (list event) := {|
  emit l w := w ++ l;
  emit_nil := @app_nil_r event;
  emit_app l l' w := app_assoc w l l' |}.

(** What the dispatch reads of its context. *)
Record dispatchContext := mkDispatchContext {
  hasCloseConnection : bool; hasServerConn : bool; hasDone : bool }.

Definition closeSSHConnection (ctx : option dispatchContext) : list event :=
  match ctx with
  | None => []
  | Some c => if hasCloseConnection c then [EvCloseConnection]
              else if hasServerConn c then [EvCloseServerConn] else []
  end.

(** A default action, as the calls it makes: it logs and closes, and it may ask
    for and use the response it was created with. *)
Inductive actionProgram :=
| AReturn (canContinue : bool) (filtered : option error)
| AEmit (l : list event) (k : actionProgram)
| AResult (k : bool -> option error -> actionProgram)               (* response.result() *)
| ASend (message : string) (closeAfterResponse : bool) (k : option error -> actionProgram).

Fixpoint action_bind (p : actionProgram) (f : bool -> option error -> actionProgram) : actionProgram :=
  match p with
  | AReturn c e => f c e
  | AEmit l k => AEmit l (action_bind k f)
  | AResult k => AResult (fun b e => action_bind (k b e) f)
  | ASend m c k => ASend m c (fun e => action_bind (k e) f)
  end.

Definition defaultErrorAction :=
  option dispatchContext -> ErrorScope -> ErrorOperation -> option error -> actionProgram.

Definition defaultClosingConnectionErrorAction : defaultErrorAction := fun ctx _ _ err =>
  AEmit (match err with Some _ => closeSSHConnection ctx | None => [] end)
    (AReturn (bool_decide (err = None)) err).

Definition defaultLogAndFailErrorAction : defaultErrorAction := fun _ scope operation err =>
  AEmit (match err with Some e => [EvLogFailed scope operation e] | None => [] end)
    (AReturn (bool_decide (err = None)) None).

Definition defaultClosingConnectionAndLogErrorAction : defaultErrorAction :=
  fun ctx scope operation err =>
    action_bind (defaultClosingConnectionErrorAction ctx scope operation err)
      (fun _ err => defaultLogAndFailErrorAction ctx scope operation err).

(** An error handler, as the calls it makes on its own goroutine. *)
Inductive handlerProgram :=
| HReturn (canContinue : bool) (filteredErr : option error)
| HRespond (message : string) (closeAfterResponse : bool) (k : option error -> handlerProgram)
| HNext (err : option error) (k : bool -> option error -> handlerProgram).

Definition ErrorHandler := ErrorScope -> ErrorOperation -> error -> handlerProgram.

Definition actionCall : Type := option dispatchContext * ErrorScope * ErrorOperation * defaultErrorAction.
Definition nextHandler := nextErrorHandler actionCall.

Section Dispatch.
Context {W : Type} `{World W}.

Definition ErrorResponder := string -> bool -> W -> option error * W.
Definition response := errorResponse ErrorResponder.

Definition send (message : string) (closeAfterResponse : bool) (r : response) (w : W)
    : option error * response * W :=
  match send_begin closeAfterResponse r with
  | (r, inl e) => (Some e, r, w)
  | (r, inr f) => let '(err, w) := f message closeAfterResponse w in (err, send_end err r, w)
  end.

Fixpoint run_action (p : actionProgram) (r : response) (w : W) : (bool * option error) * response * W :=
  match p with
  | AReturn c f => ((c, f), r, w)
  | AEmit l k => run_action k r (emit l w)
  | AResult k => let '(attempted, err) := response_result r in run_action (k attempted err) r w
  | ASend m c k => let '(err, r, w) := send m c r w in run_action (k err) r w
  end.

Definition call (err : option error) (n : nextHandler) (r : response) (w : W)
    : (bool * option error) * nextHandler * response * W :=
  match call_begin n with
  | (n, inl e) => ((false, Some e), n, r, w)
  | (n, inr (Some (ctx, scope, operation, action))) =>
      let '(res, r, w) := run_action (action ctx scope operation err) r w in (res, call_end res n, r, w)
  | (n, inr None) => ((false, None), n, r, w)   (* excluded: see call_begin_action *)
  end.

(** Runs a handler for at most [steps] calls ([None]: to its end).  What is
    left of it is returned with the state. *)
Fixpoint run_handler (steps : option nat) (p : handlerProgram) (r : response) (n : nextHandler) (w : W)
    : (handlerProgram * response * nextHandler * W) :=
  match steps, p with
  | _, HReturn _ _ => (p, r, n, w)
  | Some O, _ => (p, r, n, w)
  | _, HRespond m c k =>
      let '(err, r, w) := send m c r w in run_handler (pred <$> steps) (k err) r n w
  | _, HNext e k =>
      let '((b, err), n, r, w) := call e n r w in run_handler (pred <$> steps) (k b err) r n w
  end.

(** The response used where the caller has none. *)
Definition unsupportedResponse (ctx : option dispatchContext) : response :=
  newErrorResponse (Some (fun _ closeAfterResponse w =>
    (Some ErrErrorResponseUnsupported,
     if closeAfterResponse : bool then emit (closeSSHConnection ctx) w else w))).

Record dispatched := mkDispatched {
  d_result : bool * option error;
  d_response : response;
  d_world : W;
  d_running : option (handlerProgram * nextHandler) }.   (* a handler that was left running *)

(** [cancelled]: in the server scope, the context ended with this cause when
    the handler had made so many calls. *)
Definition dispatchError (ctx : dispatchContext) (handler : option ErrorHandler)
    (scope : ErrorScope) (operation : ErrorOperation) (err : option error)
    (resp : option response) (action : option defaultErrorAction)
    (cancelled : option (nat * option error)) (w : W) : dispatched :=
  let resp_or := match resp with Some r => r | None => unsupportedResponse (Some ctx) end in
  match err with
  | None => mkDispatched (true, None) resp_or w None
  | Some e =>
      let '(scope, operation) := resolveErrorLocation scope operation err in
      let action := match action with Some a => a | None => defaultLogAndFailErrorAction end in
      match handler with
      | None =>
          let '(res, r, w) := run_action (action (Some ctx) scope operation err) resp_or w in
          mkDispatched res (response_expire r) w None
      | Some h =>
          let next := newNextErrorHandler (Some ctx, scope, operation, action) in
          let cancelled := if negb (scope =? ErrorScopeServer)%Z || negb (hasDone ctx) then None
                           else cancelled in
          match run_handler (fst <$> cancelled) (h scope operation e) resp_or next w, cancelled with
          | (p, r, n, w), Some (_, cause) =>
              mkDispatched (false, cause) (response_expire r) w (Some (p, next_expire n))
          | (HReturn c f, r, n, w), None =>
              mkDispatched (dispatch_result n (c, f)) (response_expire r) w None
          | (p, r, n, w), None => mkDispatched (false, None) r w (Some (p, n))  (* see run_handler_end *)
          end
      end
  end.

Definition dispatchErrorOrEscalate (ctx : dispatchContext) (handler : option ErrorHandler)
    (scope : ErrorScope) (operation : ErrorOperation) (err : option error)
    (resp : option response) (action : option defaultErrorAction)
    (cancelled : option (nat * option error)) (w : W) : bool * dispatched :=
  let d := dispatchError ctx handler scope operation err resp action cancelled w in
  match d_result d with
  | (canContinue, None) => (canContinue, d)
  | (_, Some dErr) =>
      let '(scope, operation) := resolveErrorLocation scope operation err in
      let l := match err with Some e => [EvLogEscalate scope operation dErr e] | None => [] end in
      (false, mkDispatched (d_result d) (d_response d)
                (emit (closeSSHConnection (Some ctx)) (emit l (d_world d))) (d_running d))
  end.
End Dispatch.
Arguments response : clear implicits.
Arguments ErrorResponder : clear implicits.
Arguments dispatched : clear implicits.

(** ** Concurrent calls of [respond] and [next]

    [SIdle] and [NIdle] are goroutines that are about to call [respond] and
    [next]; they may do so before or after the handler returned.  The results
    of the responder, of the default action and of the handler are arbitrary. *)
Inductive caller :=
| SIdle (closeAfterResponse : bool) | SActing | SDone (err : option error)
| NIdle | NActing | NDone (res : bool * option error).

Inductive dphase :=
| DHandling                                   (* the handler runs *)
| DHandled (res : bool * option error)        (* it has returned *)
| DEvaluated (res : bool * option error)      (* next.result() has been read; defers pending *)
| DExpiring (res : bool * option error)       (* response.expire() done *)
| DReturned (res : bool * option error).

Record dsystem := mkDS {
  sresp : errorResponse unit; snext : nextErrorHandler unit; callers : list caller;
  phase : dphase; responder_calls : list nat; action_calls : list nat }.

Definition set_caller (s : dsystem) (i : nat) (c : caller) (r : errorResponse unit)
    (n : nextErrorHandler unit) (rc ac : list nat) : dsystem :=
  mkDS r n (<[i := c]> (callers s)) (phase s) rc ac.
Definition set_phase (s : dsystem) (p : dphase) (r : errorResponse unit) (n : nextErrorHandler unit) : dsystem :=
  mkDS r n (callers s) p (responder_calls s) (action_calls s).

(** [cancellable]: the scope is the server's and the context can end. *)
Inductive dstep (cancellable : bool) : dsystem -> dsystem -> Prop :=
| d_send_refused s i c r e :
    callers s !! i = Some (SIdle c) -> send_begin c (sresp s) = (r, inl e) ->
    dstep cancellable s (set_caller s i (SDone (Some e)) r (snext s) (responder_calls s) (action_calls s))
| d_send s i c r :
    callers s !! i = Some (SIdle c) -> send_begin c (sresp s) = (r, inr tt) ->
    dstep cancellable s (set_caller s i SActing r (snext s) (i :: responder_calls s) (action_calls s))
| d_send_end s i err :
    callers s !! i = Some SActing ->
    dstep cancellable s (set_caller s i (SDone err) (send_end err (sresp s)) (snext s)
                           (responder_calls s) (action_calls s))
| d_next_refused s i n e :
    callers s !! i = Some NIdle -> call_begin (snext s) = (n, inl e) ->
    dstep cancellable s (set_caller s i (NDone (false, Some e)) (sresp s) n (responder_calls s) (action_calls s))
| d_next s i n a :
    callers s !! i = Some NIdle -> call_begin (snext s) = (n, inr a) ->
    dstep cancellable s (set_caller s i NActing (sresp s) n (responder_calls s) (i :: action_calls s))
| d_next_end s i res :
    callers s !! i = Some NActing ->
    dstep cancellable s (set_caller s i (NDone res) (sresp s) (call_end res (snext s))
                           (responder_calls s) (action_calls s))
| d_handled s res : phase s = DHandling -> dstep cancellable s (set_phase s (DHandled res) (sresp s) (snext s))
| d_evaluated s res :
    phase s = DHandled res ->
    dstep cancellable s (set_phase s (DEvaluated (dispatch_result (snext s) res)) (sresp s) (snext s))
| d_cancelled s cause :
    cancellable = true -> (phase s = DHandling \/ exists res, phase s = DHandled res) ->
    dstep cancellable s (set_phase s (DEvaluated (false, cause)) (sresp s) (snext s))
| d_expire_response s res :
    phase s = DEvaluated res ->
    dstep cancellable s (set_phase s (DExpiring res) (response_expire (sresp s)) (snext s))
| d_expire_next s res :
    phase s = DExpiring res ->
    dstep cancellable s (set_phase s (DReturned res) (sresp s) (next_expire (snext s))).

Definition start_caller (c : caller) : Prop := (exists b, c = SIdle b) \/ c = NIdle.

(** [supported]: the response has a responder. *)
Definition dinitial (supported : bool) (cs : list caller) : dsystem :=
  mkDS (newErrorResponse (if supported then Some tt else None)) (newNextErrorHandler tt) cs DHandling [] [].

Inductive dreachable (cancellable supported : bool) (cs : list caller) : dsystem -> Prop :=
| dreach_init : dreachable cancellable supported cs (dinitial supported cs)
| dreach_step s s' :
    dreachable cancellable supported cs s -> dstep cancellable s s' ->
    dreachable cancellable supported cs s'.

(** *** Invariant *)

Definition sacting (c : caller) : bool := match c with SActing => true | _ => false end.
Definition nacting (c : caller) : bool := match c with NActing => true | _ => false end.

(** What a goroutine that has called has got. *)
Definition caller_ok (s : dsystem) (i : nat) (c : caller) : Prop :=
  match c with
  | SIdle _ => i ∉ responder_calls s
  | SActing => i ∈ responder_calls s /\ attempted (sresp s) = true /\ resp_complete (sresp s) = false
  | SDone err =>
      (i ∈ responder_calls s /\ resp_complete (sresp s) = true /\ resp_err (sresp s) = err) \/
      ((i ∉ responder_calls s) /\
       exists e, err = Some e /\
         e ∈ [ErrErrorResponseExpired; ErrErrorResponseAlreadySent; ErrErrorResponseUnsupported])
  | NIdle => i ∉ action_calls s
  | NActing => i ∈ action_calls s /\ called (snext s) = true /\ next_complete (snext s) = false
  | NDone res =>
      (i ∈ action_calls s /\ next_complete (snext s) = true /\
       (next_canContinue (snext s), next_err (snext s)) = res) \/
      ((i ∉ action_calls s) /\
       exists e, res = (false, Some e) /\
         e ∈ [ErrNextErrorHandlerExpired; ErrNextErrorHandlerAlreadyCalled])
  end.

Record dinv (s : dsystem) : Prop := mkDInv {
  dinv_callers : forall i c, callers s !! i = Some c -> caller_ok s i c;
  dinv_responder : match responder_calls s with
                   | [] => attempted (sresp s) = false -> resp_complete (sresp s) = false
                   | [i] => attempted (sresp s) = true /\
                       (resp_complete (sresp s) = false -> callers s !! i = Some SActing)
                   | _ => False
                   end;
  dinv_action : match action_calls s with
                | [] => called (snext s) = false /\ next_complete (snext s) = false
                | [i] => called (snext s) = true /\
                    (next_complete (snext s) = false -> callers s !! i = Some NActing)
                | _ => False
                end;
  dinv_active : resp_active (sresp s) = match phase s with DExpiring _ | DReturned _ => false | _ => true end /\
                next_active (snext s) = match phase s with DReturned _ => false | _ => true end }.

Lemma send_begin_refused {R} b (r r' : errorResponse R) e :
  send_begin b r = (r', inl e) ->
  e ∈ [ErrErrorResponseExpired; ErrErrorResponseAlreadySent; ErrErrorResponseUnsupported] /\
  (r' = r \/ attempted r = false /\ attempted r' = true /\ resp_complete r' = true /\
             resp_active r' = resp_active r).
Proof.
  unfold send_begin. repeat case_match; intros; simplify_eq/=;
    (split; [set_solver|]); (by left) || (right; auto).
Qed.

Lemma send_begin_ok {R} b (r r' : errorResponse R) f :
  send_begin b r = (r', inr f) ->
  attempted r = false /\ resp_active r = true /\ respond r = Some f /\
  r' = mkErrorResponse (Some f) true true (resp_complete r) (resp_err r) b.
Proof.
  unfold send_begin. destruct r as [f0 [] [] ? ? ?]; repeat case_match; intros; simplify_eq/=; auto.
Qed.

Lemma call_begin_refused {D} (n n' : nextErrorHandler D) e :
  call_begin n = (n', inl e) ->
  n' = n /\ e ∈ [ErrNextErrorHandlerExpired; ErrNextErrorHandlerAlreadyCalled].
Proof. unfold call_begin. repeat case_match; intros; simplify_eq/=; set_solver. Qed.

Lemma call_begin_ok {D} (n n' : nextErrorHandler D) a :
  call_begin n = (n', inr a) ->
  called n = false /\ next_active n = true /\ a = defaultAction n /\
  n' = mkNextErrorHandler true true (next_complete n) (next_canContinue n) (next_err n) (defaultAction n).
Proof.
  unfold call_begin. destruct n as [[] [] ? ? ? ?]; intros; simplify_eq/=; auto.
Qed.

(** A goroutine that was not the one that stepped keeps what it was promised,
    as long as the shared fields it depends on are kept. *)
Lemma caller_ok_mono s s' i c :
  caller_ok s i c ->
  (i ∈ responder_calls s' <-> i ∈ responder_calls s) -> (i ∈ action_calls s' <-> i ∈ action_calls s) ->
  (i ∈ responder_calls s -> attempted (sresp s') = attempted (sresp s) /\
     resp_complete (sresp s') = resp_complete (sresp s) /\ resp_err (sresp s') = resp_err (sresp s)) ->
  (i ∈ action_calls s -> called (snext s') = called (snext s) /\
     next_complete (snext s') = next_complete (snext s) /\
     next_canContinue (snext s') = next_canContinue (snext s) /\ next_err (snext s') = next_err (snext s)) ->
  caller_ok s' i c.
Proof.
  intros H Hr Ha Hr' Ha'. destruct c; simpl in *; rewrite ?Hr, ?Ha;
    intuition; repeat match goal with H : _ = _ |- _ => rewrite H end; auto.
Qed.

Lemma dinv_initial supported cs : Forall start_caller cs -> dinv (dinitial supported cs).
Proof.
  intros Hs. split; simpl; auto. intros i c Hc.
  destruct (Forall_lookup_1 _ _ _ _ Hs Hc) as [[b ->]| ->]; simpl; apply not_elem_of_nil.
Qed.

Ltac in_other := first [done | rewrite elem_of_cons; split; [intros [?|?]; [congruence|done]|auto]].

(** The goroutine [i] that stepped, and any other one. *)
Ltac dcaller s :=
  intros ?j ?c Hlook; apply list_lookup_insert_Some in Hlook;
  destruct Hlook as [(<- & <- & _)|[? Hlook]];
  [simpl | apply (caller_ok_mono s); simpl; [by eauto|in_other|in_other| |]].

Lemma dinv_send_refused s i b r e :
  dinv s -> callers s !! i = Some (SIdle b) -> send_begin b (sresp s) = (r, inl e) ->
  dinv (set_caller s i (SDone (Some e)) r (snext s) (responder_calls s) (action_calls s)).
Proof.
  intros [Hc Hr Ha Hact] Hi Hb. destruct (send_begin_refused _ _ _ _ Hb) as [He Hst].
  assert (Hkeep : forall k, k ∈ responder_calls s -> r = sresp s).
  { intros k Hk. destruct Hst as [->|[Hat _]]; [done|].
    destruct (responder_calls s) as [|? [|]]; [set_solver|destruct Hr; congruence|done]. }
  assert (Hidle := Hc _ _ Hi). simpl in Hidle. split; simpl.
  - dcaller s; [|intros Hj; by rewrite (Hkeep _ Hj)|done].
    right. eauto.
  - destruct (responder_calls s) as [|k [|]]; auto.
    + destruct Hst as [->|(_ & -> & _)]; done.
    + rewrite (Hkeep k) by set_solver. split; [tauto|]. intros H.
      rewrite list_lookup_insert_ne; [tauto|set_solver].
  - destruct (action_calls s) as [|k [|]]; auto. split; [tauto|]. intros H.
    rewrite list_lookup_insert_ne; [tauto|]. intros <-. destruct Ha as [_ Ha]. by rewrite (Ha H) in Hi.
  - destruct Hst as [->|(_ & _ & _ & ->)]; done.
Qed.

Lemma dinv_send s i b r :
  dinv s -> callers s !! i = Some (SIdle b) -> send_begin b (sresp s) = (r, inr tt) ->
  dinv (set_caller s i SActing r (snext s) (i :: responder_calls s) (action_calls s)).
Proof.
  intros [Hc Hr Ha Hact] Hi Hb. destruct (send_begin_ok _ _ _ _ Hb) as (Hat & Hac & Hf & ->).
  assert (responder_calls s = []) as Hnil.
  { destruct (responder_calls s) as [|? [|]]; [done|destruct Hr; congruence|done]. }
  rewrite Hnil in Hr. assert (Hi' := lookup_lt_Some _ _ _ Hi).
  split; simpl.
  - dcaller s; [|rewrite Hnil; set_solver|done].
    split; [set_solver|auto].
  - rewrite Hnil. split; [done|]. intros _. by apply list_lookup_insert_eq.
  - destruct (action_calls s) as [|k [|]]; auto. split; [tauto|]. intros H.
    rewrite list_lookup_insert_ne; [tauto|]. intros <-. destruct Ha as [_ Ha]. by rewrite (Ha H) in Hi.
  - by rewrite Hac in Hact.
Qed.

Lemma dinv_send_end s i err :
  dinv s -> callers s !! i = Some SActing ->
  dinv (set_caller s i (SDone err) (send_end err (sresp s)) (snext s) (responder_calls s) (action_calls s)).
Proof.
  intros [Hc Hr Ha Hact] Hi. destruct (Hc _ _ Hi) as (Hin & Hat & Hco).
  split; simpl; auto.
  - dcaller s; [by left| |done]. intros Hj.
    destruct (responder_calls s) as [|k [|]]; set_solver.
  - destruct (responder_calls s) as [|k [|]]; [set_solver|done|done].
  - destruct (action_calls s) as [|k [|]]; auto. split; [tauto|]. intros H.
    rewrite list_lookup_insert_ne; [tauto|]. intros <-. destruct Ha as [_ Ha]. by rewrite (Ha H) in Hi.
Qed.

Lemma dinv_next_refused s i n e :
  dinv s -> callers s !! i = Some NIdle -> call_begin (snext s) = (n, inl e) ->
  dinv (set_caller s i (NDone (false, Some e)) (sresp s) n (responder_calls s) (action_calls s)).
Proof.
  intros [Hc Hr Ha Hact] Hi Hb. destruct (call_begin_refused _ _ _ Hb) as [-> He].
  assert (Hidle := Hc _ _ Hi). simpl in Hidle. split; simpl; auto.
  - dcaller s; [right; eauto|done|done].
  - destruct (responder_calls s) as [|k [|]]; auto. split; [tauto|]. intros H.
    rewrite list_lookup_insert_ne; [tauto|]. intros <-. destruct Hr as [_ Hr]. by rewrite (Hr H) in Hi.
  - destruct (action_calls s) as [|k [|]]; auto. split; [tauto|]. intros H.
    rewrite list_lookup_insert_ne; [tauto|set_solver].
Qed.

Lemma dinv_next s i n a :
  dinv s -> callers s !! i = Some NIdle -> call_begin (snext s) = (n, inr a) ->
  dinv (set_caller s i NActing (sresp s) n (responder_calls s) (i :: action_calls s)).
Proof.
  intros [Hc Hr Ha Hact] Hi Hb. destruct (call_begin_ok _ _ _ Hb) as (Hcd & Hac & _ & ->).
  assert (action_calls s = []) as Hnil.
  { destruct (action_calls s) as [|? [|]]; [done|destruct Ha; congruence|done]. }
  rewrite Hnil in Ha. assert (Hi' := lookup_lt_Some _ _ _ Hi).
  split; simpl.
  - dcaller s; [|done|rewrite Hnil; set_solver].
    split; [set_solver|tauto].
  - destruct (responder_calls s) as [|k [|]]; auto. split; [tauto|]. intros H.
    rewrite list_lookup_insert_ne; [tauto|]. intros <-. destruct Hr as [_ Hr]. by rewrite (Hr H) in Hi.
  - rewrite Hnil. split; [done|]. intros _. by apply list_lookup_insert_eq.
  - by rewrite Hac in Hact.
Qed.

Lemma dinv_next_end s i res :
  dinv s -> callers s !! i = Some NActing ->
  dinv (set_caller s i (NDone res) (sresp s) (call_end res (snext s)) (responder_calls s) (action_calls s)).
Proof.
  intros [Hc Hr Ha Hact] Hi. destruct (Hc _ _ Hi) as (Hin & Hat & Hco).
  split; simpl; auto.
  - dcaller s; [left; by destruct res|done|]. intros Hj.
    destruct (action_calls s) as [|k [|]]; set_solver.
  - destruct (responder_calls s) as [|k [|]]; auto. split; [tauto|]. intros H.
    rewrite list_lookup_insert_ne; [tauto|]. intros <-. destruct Hr as [_ Hr]. by rewrite (Hr H) in Hi.
  - destruct (action_calls s) as [|k [|]]; [set_solver|done|done].
Qed.

Lemma dinv_phase s p r n :
  dinv s ->
  (attempted r = attempted (sresp s) /\ resp_complete r = resp_complete (sresp s) /\ resp_err r = resp_err (sresp s)) ->
  (called n = called (snext s) /\ next_complete n = next_complete (snext s) /\
   next_canContinue n = next_canContinue (snext s) /\ next_err n = next_err (snext s)) ->
  resp_active r = match p with DExpiring _ | DReturned _ => false | _ => true end ->
  next_active n = match p with DReturned _ => false | _ => true end ->
  dinv (set_phase s p r n).
Proof.
  intros [Hc Hr Ha Hact] Er En H1 H2. split; simpl; auto.
  - intros i c Hi. apply (caller_ok_mono s); simpl; auto.
  - destruct Er as (-> & -> & _). done.
  - destruct En as (-> & -> & _). done.
Qed.

Lemma dinv_step b s s' : dinv s -> dstep b s s' -> dinv s'.
Proof.
  intros H Hs. pose proof (dinv_active _ H) as [Ar An].
  destruct Hs as [| | | | | |s res Hp|s res Hp|s cause _ Hp|s res Hp|s res Hp];
    eauto using dinv_send_refused, dinv_send, dinv_send_end, dinv_next_refused, dinv_next, dinv_next_end;
    (apply dinv_phase; [done|by auto|by auto| |]); simpl;
    rewrite ?Ar, ?An; try done; try (rewrite Hp; done); by destruct Hp as [->|[? ->]].
Qed.

Lemma dinv_reachable b sup cs s : Forall start_caller cs -> dreachable b sup cs s -> dinv s.
Proof. induction 2; eauto using dinv_initial, dinv_step. Qed.

(** ** The contract of the dispatch *)


(** What [dispatchError] returns when its handler has returned: the
    handler's answer if no call of [next] is still running, and
    [ErrNextErrorHandlerIncomplete] if one is.  The answer then stays. *)
Theorem dispatch_outcome b sup cs s s' handled :
  Forall start_caller cs -> dreachable b sup cs s -> phase s = DHandled handled -> dstep b s s' ->
  phase s' = DHandled handled \/
  (b = true /\ exists cause, phase s' = DEvaluated (false, cause)) \/
  phase s' = DEvaluated
    (if existsb nacting (callers s) then (false, Some ErrNextErrorHandlerIncomplete) else handled).
Proof.
  intros Hs Hr Hp Hst. destruct (dinv_reachable _ _ _ _ Hs Hr) as [Hc _ Hac _].
  destruct Hst as [| | | | | | |s res Hp'|s cause Hb _| |]; simpl; eauto; [congruence| |congruence|congruence].
  right. right. rewrite Hp in Hp'. simplify_eq. f_equal. unfold dispatch_result.
  assert (called (snext s) && negb (next_complete (snext s)) = existsb nacting (callers s)) as ->; [|done].
  apply eq_bool_prop_intro. split.
  - intros [Hcd Hco]%andb_prop_elim. apply Is_true_true in Hcd.
    destruct (action_calls s) as [|i [|]]; [destruct Hac; congruence| |done].
    destruct Hac as [_ Hac]. apply Is_true_true, existsb_exists. exists NActing. split; [|done].
    apply list_elem_of_In, list_elem_of_lookup_2 with i, Hac. by destruct (next_complete (snext s)).
  - intros [c [Hin Hn]]%Is_true_true%existsb_exists. destruct c; try done.
    apply list_elem_of_In, list_elem_of_lookup in Hin as [i Hi].
    destruct (Hc _ _ Hi) as (_ & -> & ->). done.
Qed.

(** ** The handler on its own goroutine *)
Section Synchronous.
Context {W : Type} `{World W}.
Implicit Types (p : handlerProgram) (r : response W) (n : nextHandler) (w : W).

(** [next] still knows its action as long as it is active. *)
Definition next_wf n : Prop := next_active n = true -> is_Some (defaultAction n).

Lemma call_begin_action n n' a : next_wf n -> call_begin n = (n', inr a) -> is_Some a.
Proof. intros Hw Hb. destruct (call_begin_ok _ _ _ Hb) as (_ & Ha & -> & _). auto. Qed.

(** A call of [next] on the handler's goroutine has completed when the handler
    goes on. *)
Definition next_settled n : Prop := called n = true -> next_complete n = true.

Lemma call_keeps e n r w res n' r' w' :
  next_wf n -> next_settled n -> call e n r w = (res, n', r', w') -> next_wf n' /\ next_settled n'.
Proof.
  intros Hw Hs. unfold call. destruct (call_begin n) as [n1 [e'|a]] eqn:Hb.
  - destruct (call_begin_refused _ _ _ Hb) as [-> _]. intros. by simplify_eq.
  - destruct (call_begin_action _ _ _ Hw Hb) as [[[[ctx sc] op] act] ->].
    destruct (call_begin_ok _ _ _ Hb) as (_ & Ha & _ & ->).
    destruct (run_action (act ctx sc op e) r w) as [[res1 r1] w1]. intros. simplify_eq.
    split; [intros _; simpl; by apply Hw|done].
Qed.

(** Not stopped, a handler runs to its return. *)
Lemma run_handler_end p r n w :
  exists c f r' n' w', run_handler None p r n w = (HReturn c f, r', n', w').
Proof.
  revert r n w. induction p as [c f|m c k IH|e k IH]; intros r n w; simpl; [by eauto 10| |].
  - destruct (send m c r w) as [[err r1] w1]. apply IH.
  - destruct (call e n r w) as [[[[b err] n1] r1] w1]. apply IH.
Qed.

Lemma run_settled steps p r n w p' r' n' w' :
  next_wf n -> next_settled n -> run_handler steps p r n w = (p', r', n', w') -> next_settled n' /\ next_wf n'.
Proof.
  revert steps r n w. induction p as [c f|m c k IH|e k IH]; intros [[|steps]|] r n w Hw Hs Hrun;
    simpl in Hrun; simplify_eq; auto.
  1,2: destruct (send m c r w) as [[err r1] w1]; eauto.
  all: destruct (call e n r w) as [[[[b err] n1] r1] w1] eqn:Hc;
    destruct (call_keeps _ _ _ _ _ _ _ _ Hw Hs Hc); eauto.
Qed.

(** After the dispatch nothing has an effect any more. *)
Lemma run_handler_inert steps p r n w :
  resp_active r = false -> next_active n = false ->
  exists p', run_handler steps p r n w = (p', r, n, w).
Proof.
  intros Hr Hn. revert steps. induction p as [c f|m c k IH|e k IH]; intros [[|steps]|]; simpl; eauto.
  all: unfold send, call, send_begin, call_begin; rewrite ?Hr, ?Hn; apply IH.
Qed.

(** What the responder and the events keep, the whole dispatch keeps. *)
Definition response_keeps (P : W -> Prop) r : Prop :=
  forall f m c w, respond r = Some f -> P w -> P (snd (f m c w)).

Lemma send_keeps P m c r w :
  response_keeps P r -> P w ->
  response_keeps P (snd (fst (send m c r w))) /\ P (snd (send m c r w)).
Proof.
  intros Hr Hw. unfold send, send_begin.
  destruct (resp_active r); [|done]. destruct (attempted r); [done|]. simpl.
  destruct (respond r) as [f|] eqn:Ef; [|by split; [intros f|]].
  pose proof (Hr f m c w Ef Hw) as Hf. destruct (f m c w) as [err w']. simpl in *.
  split; [|done]. intros g m' c' v Hg. simpl in Hg. simplify_eq. by apply Hr.
Qed.

(** What sending and emitting keep of a response and the world together, the
    whole dispatch keeps. *)
Section Joint.
Variable J : response W -> W -> Prop.
Hypothesis emit_joint : forall l r w, J r w -> J r (emit l w).
Hypothesis send_joint : forall m c r w, J r w -> J (snd (fst (send m c r w))) (snd (send m c r w)).

Lemma run_action_joint (p : actionProgram) r w :
  J r w -> J (snd (fst (run_action p r w))) (snd (run_action p r w)).
Proof using emit_joint send_joint.
  revert r w. induction p as [c f|l k IH|k IH|m c k IH]; intros r w Hj; simpl; auto.
  - destruct (response_result r) as [att err]. auto.
  - pose proof (send_joint m c r w Hj) as Hs. destruct (send m c r w) as [[err r1] w1]. by apply IH.
Qed.

Lemma run_handler_joint steps p r n w :
  J r w -> let '(_, r', _, w') := run_handler steps p r n w in J r' w'.
Proof using emit_joint send_joint.
  revert steps r n w. induction p as [c f|m c k IH|e k IH]; intros [[|steps]|] r n w Hj; simpl; auto.
  1,2: pose proof (send_joint m c r w Hj) as Hs; destruct (send m c r w) as [[err r1] w1]; by apply IH.
  all: unfold call; destruct (call_begin n) as [n1 [e1|[[[[ctx sc] op] act]|]]]; [by apply IH| |by apply IH];
    pose proof (run_action_joint (act ctx sc op e) r w Hj) as Ha;
    destruct (run_action _ r w) as [[[b err] r1] w1]; by apply IH.
Qed.

Hypothesis expire_joint : forall r w, J r w -> J (response_expire r) w.

Lemma dispatch_joint ctx handler scope operation err resp action cancelled w :
  J (match resp with Some r => r | None => unsupportedResponse (Some ctx) end) w ->
  let d := dispatchError ctx handler scope operation err resp action cancelled w in J (d_response d) (d_world d).
Proof using emit_joint send_joint expire_joint.
  intros Hj. unfold dispatchError. destruct err as [e|]; [|done].
  destruct (resolveErrorLocation scope operation (Some e)) as [sc op].
  set (r0 := match resp with Some r => r | None => _ end) in *.
  destruct handler as [h|].
  - match goal with |- context [run_handler ?st ?p ?r ?n ?w] =>
      pose proof (run_handler_joint st p r n w Hj) as Hk; destruct (run_handler st p r n w) as [[[p' r'] n'] w'] end.
    destruct (if negb _ || negb _ then _ else _) as [[? ?]|]; destruct p'; simpl; auto.
  - match goal with |- context [run_action ?p ?r ?w] =>
      pose proof (run_action_joint p r w Hj) as Hk; destruct (run_action p r w) as [[res r'] w'] end. simpl. auto.
Qed.
End Joint.

(** A response that has been attempted has run its responder. *)
Lemma dispatch_attempted (P : W -> Prop) f ctx handler scope operation err action cancelled w :
  (forall l w, P w -> P (emit l w)) -> (forall m c w, P (snd (f m c w))) ->
  let d := dispatchError ctx handler scope operation err (Some (newErrorResponse (Some f))) action cancelled w in
  attempted (d_response d) = true -> P (d_world d).
Proof.
  intros He Hf. cbv zeta. set (d := dispatchError _ _ _ _ _ _ _ _ _). intros Ha.
  assert (Hd : (resp_active (d_response d) = true -> respond (d_response d) = Some f) /\
               (attempted (d_response d) = true -> P (d_world d))); [|by apply Hd].
  apply (dispatch_joint (fun r w =>
    (resp_active r = true -> respond r = Some f) /\ (attempted r = true -> P w))); [| | |by split].
  - intros l r v [H1 H2]. auto.
  - intros m c r v [H1 H2]. unfold send, send_begin. destruct (resp_active r) eqn:Hr; simpl; [|rewrite Hr; auto].
    destruct (attempted r) eqn:Hat; simpl; [rewrite Hr, Hat; auto|]. rewrite (H1 eq_refl). pose proof (Hf m c v) as Hp.
    destruct (f m c v) as [e v']. simpl in *. auto.
  - intros r v [H1 H2]. by split.
Qed.

Section Keeps.
Variable P : W -> Prop.
Hypothesis emit_keeps : forall l w, P w -> P (emit l w).

Lemma dispatch_keeps ctx handler scope operation err resp action cancelled w :
  (forall r, resp = Some r -> response_keeps P r) -> P w ->
  P (d_world (dispatchError ctx handler scope operation err resp action cancelled w)).
Proof using emit_keeps.
  intros Hr Hw. apply (dispatch_joint (fun r w => response_keeps P r /\ P w)).
  - intros l r v []. auto.
  - intros m c r v []. by apply send_keeps.
  - intros r v [H1 H2]. split; [by intros f|done].
  - split; [|done]. destruct resp as [r|]; [by apply Hr|]. intros f m c v Hf Hv. simpl in Hf. simplify_eq.
    simpl. destruct c; auto.
Qed.

Lemma escalate_keeps ctx handler scope operation err resp action cancelled w :
  (forall r, resp = Some r -> response_keeps P r) -> P w ->
  P (d_world (snd (dispatchErrorOrEscalate ctx handler scope operation err resp action cancelled w))).
Proof using emit_keeps.
  intros Hr Hw. unfold dispatchErrorOrEscalate.
  pose proof (dispatch_keeps ctx handler scope operation err resp action cancelled w Hr Hw) as Hk.
  destruct (d_result _) as [b [e|]]; [|done]. destruct (resolveErrorLocation _ _ _). simpl. auto.
Qed.
End Keeps.

(** *** Refinement of the interleaved system *)

Definition unit_response r : errorResponse unit :=
  mkErrorResponse (const tt <$> respond r) (resp_active r) (attempted r) (resp_complete r) (resp_err r) (resp_close r).
Definition unit_next n : nextErrorHandler unit :=
  mkNextErrorHandler (next_active n) (called n) (next_complete n) (next_canContinue n) (next_err n)
    (const tt <$> defaultAction n).

Definition at_state (s : dsystem) (r : response W) (n : nextHandler) (cs ready : list caller) : Prop :=
  sresp s = unit_response r /\ snext s = unit_next n /\ callers s = cs ++ ready /\ phase s = DHandling.

(** The list of goroutines after the first of the ready ones has moved. *)
Lemma insert_ready cs (c c' : caller) ready : <[length cs := c']> (cs ++ c :: ready) = (cs ++ [c']) ++ ready.
Proof. rewrite insert_app_r_alt, Nat.sub_diag by done. simpl. by rewrite <- app_assoc. Qed.

Lemma send_sim b s m c r w err r' w' n cs ready :
  send m c r w = (err, r', w') -> at_state s r n cs (SIdle c :: ready) ->
  exists s', rtc (dstep b) s s' /\ at_state s' r' n (cs ++ [SDone err]) ready.
Proof.
  intros Hs (Er & En & Ec & Ep). unfold send in Hs.
  assert (Hi : callers s !! length cs = Some (SIdle c)) by (rewrite Ec; by apply list_lookup_middle).
  destruct (send_begin c r) as [r1 [e|f]] eqn:Hb; simplify_eq/=.
  - eexists. split.
    + apply rtc_once. apply (d_send_refused b s (length cs) c (unit_response r') e Hi). rewrite Er.
      revert Hb. unfold send_begin. destruct r as [[f|] [] [] ? ? ?]; simpl; intros; simplify_eq/=; done.
    + split; [done|]. split; [done|]. split; [|done]. simpl. by rewrite Ec, insert_ready.
  - destruct (f m c w) as [err1 w1]; simplify_eq/=.
    destruct (send_begin_ok _ _ _ _ Hb) as (Hat & Hac & Hf & ->). eexists. split.
    + eapply rtc_l.
      * apply (d_send b s (length cs) c (unit_response (mkErrorResponse (Some f) true true (resp_complete r) (resp_err r) c)) Hi).
        rewrite Er. unfold send_begin, unit_response. simpl. by rewrite Hat, Hac, Hf.
      * apply rtc_once. eapply (d_send_end b _ (length cs) err). simpl.
        apply list_lookup_insert_eq. by apply (lookup_lt_Some _ _ _ Hi).
    + split; [done|]. split; [done|]. split; [|done]. simpl. by rewrite list_insert_insert_eq, Ec, insert_ready.
Qed.

(** A default action calls [send] like any other goroutine. *)
Lemma action_sim b (p : actionProgram) r w res r' w' n :
  run_action p r w = (res, r', w') ->
  exists ready, Forall start_caller ready /\ forall s cs rest, at_state s r n cs (ready ++ rest) ->
    exists s' cs', rtc (dstep b) s s' /\ at_state s' r' n (cs ++ cs') rest.
Proof.
  revert r w. induction p as [c f|l k IH|k IH|m c k IH]; intros r w Hrun; simpl in Hrun; simplify_eq; eauto.
  - exists []. split; [constructor|]. intros s cs rest Hat. exists s, []. rewrite app_nil_r. by split; [constructor|].
  - destruct (response_result r) as [att err]. eauto.
  - destruct (send m c r w) as [[err r1] w1] eqn:Hs. destruct (IH _ _ _ Hrun) as (ready & Hf & Hsim).
    exists (SIdle c :: ready). split; [constructor; [left; eauto|done]|]. intros s cs rest Hat.
    destruct (send_sim b _ _ _ _ _ _ _ _ _ _ _ Hs Hat) as (s1 & H1 & Hat1).
    destruct (Hsim _ _ _ Hat1) as (s2 & cs2 & H2 & Hat2). exists s2, (SDone err :: cs2).
    split; [by etrans|]. by rewrite <- app_assoc in Hat2.
Qed.

Lemma call_sim b e n r w res n' r' w' :
  next_wf n -> call e n r w = (res, n', r', w') ->
  exists ready, Forall start_caller ready /\ forall s cs rest, at_state s r n cs (ready ++ rest) ->
    exists s' cs', rtc (dstep b) s s' /\ at_state s' r' n' cs' rest.
Proof.
  intros Hw Hs. unfold call in Hs. destruct (call_begin n) as [n1 [e1|a]] eqn:Hb.
  - simplify_eq. exists [NIdle]. split; [apply Forall_cons_2; [by right|constructor]|].
    intros s cs rest (Er & En & Ec & Ep).
    assert (Hi : callers s !! length cs = Some NIdle) by (rewrite Ec; by apply list_lookup_middle).
    eexists _, _. split.
    + apply rtc_once. apply (d_next_refused b s (length cs) (unit_next n') e1 Hi). rewrite En.
      revert Hb. unfold call_begin. destruct n as [[] [] ? ? ? ?]; simpl; intros; simplify_eq/=; done.
    + split; [done|]. split; [done|]. split; [|done]. simpl. by rewrite Ec; simpl; rewrite insert_ready.
  - destruct (call_begin_action _ _ _ Hw Hb) as [[[[ctx sc] op] act] ->].
    destruct (run_action (act ctx sc op e) r w) as [[res1 r1] w1] eqn:Ha. simplify_eq.
    destruct (call_begin_ok _ _ _ Hb) as (Hcd & Hac & _ & Hn1).
    destruct (action_sim b _ _ _ _ _ _ n1 Ha) as (ready & Hf & Hsim).
    exists (NIdle :: ready). split; [constructor; [by right|done]|]. intros s cs rest (Er & En & Ec & Ep).
    assert (Hi : callers s !! length cs = Some NIdle) by (rewrite Ec; by apply list_lookup_middle).
    destruct (Hsim (set_caller s (length cs) NActing (sresp s) (unit_next n1) (responder_calls s)
      (length cs :: action_calls s)) (cs ++ [NActing]) rest) as (s2 & cs2 & H2 & (Er2 & En2 & Ec2 & Ep2)).
    { split; [done|]. split; [done|]. split; [|done]. simpl. by rewrite Ec; simpl; rewrite insert_ready. }
    assert (Hi2 : callers s2 !! length cs = Some NActing).
    { rewrite Ec2, <- !app_assoc. by apply list_lookup_middle. }
    eexists _, ((cs ++ [NDone res]) ++ cs2). split.
    + eapply rtc_l; [|etrans; [exact H2|apply rtc_once; by eapply (d_next_end b _ (length cs) res)]].
      eapply (d_next b s (length cs) _ (const tt <$> defaultAction n) Hi).
      rewrite En. subst n1. unfold call_begin, unit_next. simpl. by rewrite Hcd, Hac.
    + split; [done|]. split; [simpl; by rewrite En2|]. split; [|done]. simpl.
      rewrite Ec2, <- !app_assoc. simpl. by rewrite insert_ready, <- app_assoc.
Qed.

Lemma run_sim b p r n w c f r' n' w' :
  next_wf n -> next_settled n -> run_handler None p r n w = (HReturn c f, r', n', w') ->
  exists ready, Forall start_caller ready /\ forall s cs, at_state s r n cs ready ->
    exists s' cs', rtc (dstep b) s s' /\ at_state s' r' n' cs' [].
Proof.
  revert r n w. induction p as [c0 f0|m c0 k IH|e k IH]; intros r n w Hw Hst Hrun; simpl in Hrun; simplify_eq.
  - exists []. split; [constructor|]. eauto using rtc_refl.
  - destruct (send m c0 r w) as [[err r1] w1] eqn:Hs.
    destruct (IH _ _ _ _ Hw Hst Hrun) as (ready & Hf & Hsim). exists (SIdle c0 :: ready).
    split; [constructor; [left; eauto|done]|]. intros s cs Hat.
    destruct (send_sim b _ _ _ _ _ _ _ _ _ _ _ Hs Hat) as (s1 & H1 & Hat1).
    destruct (Hsim _ _ Hat1) as (s2 & cs2 & H2 & Hat2). exists s2, cs2. split; [by etrans|done].
  - destruct (call e n r w) as [[[[b1 err] n1] r1] w1] eqn:Hs.
    destruct (call_keeps _ _ _ _ _ _ _ _ Hw Hst Hs) as [Hw1 Hst1].
    destruct (call_sim b _ _ _ _ _ _ _ _ Hw Hs) as (ready1 & Hf1 & Hsim1).
    destruct (IH _ _ _ _ _ Hw1 Hst1 Hrun) as (ready & Hf & Hsim). exists (ready1 ++ ready).
    split; [by apply Forall_app|]. intros s cs Hat.
    destruct (Hsim1 _ _ _ Hat) as (s1 & cs1 & H1 & Hat1).
    destruct (Hsim _ _ Hat1) as (s2 & cs2 & H2 & Hat2). exists s2, cs2. split; [by etrans|done].
Qed.
End Synchronous.

Lemma dreach_rtc b sup cs s s' : dreachable b sup cs s -> rtc (dstep b) s s' -> dreachable b sup cs s'.
Proof. induction 2; eauto using dreachable. Qed.

(** C28. The dispatch of an error to a handler that works on its own goroutine
    returns what the handler returned (never [ErrNextErrorHandlerIncomplete] of
    its own making), with the effects of its calls, and refines the interleaved
    system: some run of it ends with the same result and the same response. *)
Theorem dispatch_refines {W} `{World W} ctx (h : ErrorHandler) scope operation e sc op
    (f : option (ErrorResponder W)) action w :
  resolveErrorLocation scope operation (Some e) = (sc, op) ->
  let d := dispatchError ctx (Some h) scope operation (Some e) (Some (newErrorResponse f)) action None w in
  d_running d = None /\
  (exists r n, run_handler None (h sc op e) (newErrorResponse f)
       (newNextErrorHandler (Some ctx, sc, op, default defaultLogAndFailErrorAction action)) w
     = (HReturn (fst (d_result d)) (snd (d_result d)), r, n, d_world d) /\ d_response d = response_expire r) /\
  exists cs s, Forall start_caller cs /\ dreachable false (bool_decide (is_Some f)) cs s /\
    phase s = DReturned (d_result d) /\ sresp s = unit_response (d_response d).
Proof.
  intros Hloc d. set (next := newNextErrorHandler (Some ctx, sc, op, default defaultLogAndFailErrorAction action)).
  assert (Hwf : next_wf next) by (intros _; simpl; eauto).
  assert (Hst : next_settled next) by done.
  destruct (run_handler_end (h sc op e) (newErrorResponse f) next w) as (c & g & r & n & w' & Hrun).
  destruct (run_settled _ _ _ _ _ _ _ _ _ Hwf Hst Hrun) as [Hset _].
  assert (Hres : dispatch_result n (c, g) = (c, g)).
  { unfold dispatch_result. unfold next_settled in Hset. destruct (called n); [by rewrite Hset|done]. }
  assert (Hd : d = mkDispatched (c, g) (response_expire r) w' None).
  { unfold d, dispatchError. rewrite Hloc.
    change (match action with Some a => a | None => defaultLogAndFailErrorAction end)
      with (default defaultLogAndFailErrorAction action).
    destruct (negb _ || negb _); simpl; fold next; rewrite Hrun, Hres; done. }
  rewrite Hd. simpl. split; [done|]. split; [eauto|].
  destruct (run_sim false _ _ _ _ _ _ _ _ _ Hwf Hst Hrun) as (ready & Hf & Hsim).
  destruct (Hsim (dinitial (bool_decide (is_Some f)) ready) []) as (s' & cs' & Hrtc & Er & En & Ec & Ep).
  { split; [|done]. unfold dinitial, newErrorResponse, unit_response. simpl. f_equal. by destruct f. }
  pose proof (dreach_rtc _ _ _ _ _ (dreach_init _ _ _) Hrtc) as Hr0.
  eapply dreach_step in Hr0; [|by eapply (d_handled _ _ (c, g))].
  eapply dreach_step in Hr0; [|by eapply d_evaluated].
  eapply dreach_step in Hr0; [|by eapply d_expire_response].
  eapply dreach_step in Hr0; [|by eapply d_expire_next].
  eexists ready, _. split; [done|]. split; [exact Hr0|]. simpl. split.
  - f_equal. rewrite En. exact Hres.
  - rewrite Er. done.
Qed.

(** C27. Error handling fails closed: processing goes on exactly when there was
    no error or the error was dispatched to a [canContinue] without a filtered
    error; a filtered error ends with the closing of the connection, after
    whatever the handler did; and an error that has neither a handler nor a
    default action is logged and stops the processing. *)
Theorem escalate_fails_closed {W} `{World W} ctx handler scope operation err
    (resp : option (response W)) action cancelled w :
  let '(ok, d) := dispatchErrorOrEscalate ctx handler scope operation err resp action cancelled w in
  (ok = true <-> d_result d = (true, None)) /\
  (snd (d_result d) <> None -> exists w', d_world d = emit (closeSSHConnection (Some ctx)) w') /\
  (err = None -> ok = true /\ d_world d = w) /\
  (forall e, err = Some e -> handler = None -> action = None -> ok = false /\
     d_world d = emit [EvLogFailed (fst (resolveErrorLocation scope operation err))
                     (snd (resolveErrorLocation scope operation err)) e] w).
Proof.
  unfold dispatchErrorOrEscalate.
  set (d := dispatchError ctx handler scope operation err resp action cancelled w).
  assert (Hnone : err = None -> d_result d = (true, None) /\ d_world d = w) by (by intros ->).
  assert (Hdef : forall e, err = Some e -> handler = None -> action = None ->
    d_result d = (false, None) /\
    d_world d = emit [EvLogFailed (fst (resolveErrorLocation scope operation err))
                     (snd (resolveErrorLocation scope operation err)) e] w).
  { intros e -> -> ->. unfold d, dispatchError. by destruct (resolveErrorLocation _ _ _). }
  destruct (d_result d) as [b [dErr|]] eqn:Hd.
  - destruct (resolveErrorLocation scope operation err) as [sc op]. simpl.
    split; [split; congruence|]. split; [intros _; by eexists|].
    split; [intros E; by destruct (Hnone E)|intros e H1 H2 H3; by destruct (Hdef e H1 H2 H3)].
  - rewrite Hd. simpl. split; [split; congruence|]. split; [done|]. split.
    + intros E. destruct (Hnone E). split; [congruence|done].
    + intros e H1 H2 H3. destruct (Hdef e H1 H2 H3). split; [congruence|done].
Qed.

(** A handler that the dispatch left running, because the server's context
    ended first, can do no harm: whatever it still calls, it has no effect and
    leaves response and default action untouched. *)
Theorem late_calls_inert {W} `{World W} ctx handler scope operation err (resp : option (response W)) action
    cancelled w p n :
  let d := dispatchError ctx handler scope operation err resp action cancelled w in
  d_running d = Some (p, n) ->
  (exists k cause, cancelled = Some (k, cause) /\ d_result d = (false, cause)) /\
  forall steps w', exists p', run_handler steps p (d_response d) n w' = (p', d_response d, n, w').
Proof.
  intros d. unfold d, dispatchError. destruct err as [e|]; [|done].
  destruct (resolveErrorLocation scope operation (Some e)) as [sc op].
  set (r0 := match resp with Some r => r | None => _ end).
  destruct handler as [h|]; [|by destruct (run_action _ _ _) as [[? ?] ?]].
  set (next := newNextErrorHandler _).
  destruct (negb _ || negb _); [|destruct cancelled as [[k cause]|]].
  1,3: destruct (run_handler_end (h sc op e) r0 next w) as (c & f & r & n' & w' & Hrun); simpl; by rewrite Hrun.
  simpl. destruct (run_handler (Some k) (h sc op e) r0 next w) as [[[p' r] n'] w'].
  destruct p'; simpl; intros; simplify_eq; (split; [eauto|]); intros steps w''; by apply run_handler_inert.
Qed.

(** Two goroutines respond, one calls [next], the handler returns. *)
Definition sample_callers := [SIdle true; SIdle false; NIdle].

Definition sample_dispatched : dsystem :=
  mkDS (mkErrorResponse None false true true None true)
       (mkNextErrorHandler false false false false None None)
       [SDone None; SDone (Some ErrErrorResponseAlreadySent); NDone (false, Some ErrNextErrorHandlerExpired)]
       (DReturned (true, None)) [0%nat] [].

Lemma sample_callers_start : Forall start_caller sample_callers.
Proof. repeat apply Forall_cons_2; [left; eauto|left; eauto|by right|constructor]. Qed.

Lemma sample_dispatched_reachable : dreachable false true sample_callers sample_dispatched.
Proof.
  pose proof (dreach_init false true sample_callers) as H.
  eapply dreach_step in H; [|by eapply (d_send _ _ 0%nat true)].
  eapply dreach_step in H; [|by apply (d_send_refused _ _ 1%nat false)].
  eapply dreach_step in H; [|by apply (d_send_end _ _ 0%nat None)].
  eapply dreach_step in H; [|by eapply (d_handled _ _ (true, None))].
  eapply dreach_step in H; [|by eapply d_evaluated].
  eapply dreach_step in H; [|by eapply d_expire_response].
  eapply dreach_step in H; [|by eapply d_expire_next].
  eapply dreach_step in H; [|by eapply (d_next_refused _ _ 2%nat)].
  exact H.
Qed.


Definition sample_incomplete : dsystem :=
  mkDS (newErrorResponse None) (mkNextErrorHandler true true false false None (Some tt))
       [NActing] (DHandled (true, None)) [] [0%nat].

Lemma sample_incomplete_reachable : dreachable false false [NIdle] sample_incomplete.
Proof.
  pose proof (dreach_init false false [NIdle]) as H.
  eapply dreach_step in H; [|by eapply (d_next _ _ 0%nat)].
  eapply dreach_step in H; [|by eapply (d_handled _ _ (true, None))].
  exact H.
Qed.

Lemma dispatch_outcome_witness :
  phase (set_phase sample_incomplete
    (DEvaluated (false, Some ErrNextErrorHandlerIncomplete)) (sresp sample_incomplete) (snext sample_incomplete))
  = DEvaluated (false, Some ErrNextErrorHandlerIncomplete).
Proof.
  assert (Hs : Forall start_caller [NIdle]) by (apply Forall_cons_2; [by right|constructor]).
  destruct (dispatch_outcome false false [NIdle] sample_incomplete _ (true, None) Hs
    sample_incomplete_reachable eq_refl (d_evaluated _ sample_incomplete (true, None) eq_refl))
    as [H|[[H _]|H]]; [discriminate H|discriminate H|exact H].
Defined.

(** A handler that responds first and asks for the default action afterwards. *)
Definition sample_handler : ErrorHandler := fun _ _ e =>
  HRespond "denied" false (fun _ => HNext (Some e) (fun c f => HReturn c f)).
Definition sample_responder : ErrorResponder (list event) := fun _ _ w => (None, emit [EvCloseServerConn] w).
Definition sample_context := mkDispatchContext true true true.

Lemma dispatch_refines_witness :
  d_world (dispatchError sample_context (Some sample_handler) ErrorScopeServer
    ErrorOperationAccept (Some io_EOF) (Some (newErrorResponse (Some sample_responder))) None None [])
  = [EvCloseServerConn; EvLogFailed ErrorScopeServer ErrorOperationAccept io_EOF].
Proof.
  destruct (dispatch_refines sample_context sample_handler ErrorScopeServer
    ErrorOperationAccept io_EOF ErrorScopeServer ErrorOperationAccept (Some sample_responder) None [] eq_refl)
    as (_ & (r & n & H & _) & _).
  vm_compute in H. vm_compute. congruence.
Defined.

Lemma late_calls_inert_witness :
  let d := dispatchError sample_context (Some sample_handler) ErrorScopeServer
    ErrorOperationAccept (Some io_EOF) (Some (newErrorResponse (Some sample_responder))) None
    (Some (1%nat, Some context_Canceled)) [] in
  exists p n, d_running d = Some (p, n) /\ run_handler None p (d_response d) n (d_world d)
    = (HReturn false (Some ErrNextErrorHandlerExpired), d_response d, n, [EvCloseServerConn]).
Proof.
  intros d. eexists _, _. split; [reflexivity|].
  destruct (late_calls_inert sample_context (Some sample_handler) ErrorScopeServer
    ErrorOperationAccept (Some io_EOF) (Some (newErrorResponse (Some sample_responder))) None
    (Some (1%nat, Some context_Canceled)) [] _ _ eq_refl) as [_ H].
  destruct (H None (d_world d)) as [p' H']. vm_compute in H'. vm_compute. congruence.
Defined.
