(* ===== verification/Lifecycle.v ===== *)
(** * Serve scopes ([lifecycle.go])

    A [serveContext] keeps the connections of one [Serve] or [HandleConn] call:
    it admits them under [MaxStartups], closes its [drained] channel when it
    has stopped and the last one has gone, and can force all of them closed.
    Every function works under the scope's mutex, so each critical section is
    one step of [lcstep]; [activeConn] objects live in a heap, since their
    owners keep the pointer after the scope has dropped it. *)
From S2P Require Import Prelude GoErrors Settings ErrorDispatch.
Local Open Scope Z_scope.

(** Transports, cancel functions and [activeConn] pointers are addresses. *)
Abbreviation transport := nat (only parsing).

Record activeConn := mkActiveConn {
  aconn : transport;
  transports : list transport;
  cancel : option nat;
  handshaking : bool;
  startupReserved : bool;
  aclosed : bool;
  closeCause : option error }.

Record serveContext := mkServeContext {
  heap : gmap nat activeConn;
  connections : gset nat;
  startups : Z;
  stopping : bool;
  forced : bool;
  drained : bool;                   (* the channel is closed *)
  listenerCloseOnce : bool;
  listenerCloseError : option error;
  panicked : bool }.                (* close of a closed channel *)

(** What [force] takes over from a connection it drops. *)
Record connectionCleanup := mkCleanup {
  cl_owner : nat; cl_cancel : option nat; cl_transports : list transport }.

Section Scope.
Variable int_bits : Z.
(** The server's configuration, constant while it serves. *)
Variable MaxStartups : option MaxStartupsConfig.
(** What [listener.Close] returns; [None] where there is no listener to fail. *)
Variable listener_Close : option error.

Definition newServeContext : serveContext := mkServeContext ∅ ∅ 0 false false false false None false.

Definition closeListener : option error :=
  match listener_Close with
  | Some err => if isClosedError (Some err) then None else Some err
  | None => None
  end.

Definition scope_closeListener (s : serveContext) : option error * serveContext :=
  if listenerCloseOnce s then (listenerCloseError s, s)
  else (closeListener,
        mkServeContext (heap s) (connections s) (startups s) (stopping s) (forced s) (drained s)
          true closeListener (panicked s)).

Definition maybeCloseDrainedLocked (s : serveContext) : serveContext :=
  if negb (stopping s) || negb (bool_decide (connections s = ∅)) then s
  else if drained s then s
  else mkServeContext (heap s) (connections s) (startups s) (stopping s) (forced s)
         true (listenerCloseOnce s) (listenerCloseError s) (panicked s || drained s).

(** The locked part of [stopAccepting]; the listener is closed afterwards. *)
Definition stopAccepting_locked (s : serveContext) : serveContext :=
  maybeCloseDrainedLocked
    (mkServeContext (heap s) (connections s) (startups s) true (forced s) (drained s)
       (listenerCloseOnce s) (listenerCloseError s) (panicked s)).

Definition stopAccepting (s : serveContext) : option error * serveContext :=
  scope_closeListener (stopAccepting_locked s).

Definition set_active (s : serveContext) (a : nat) (c : activeConn) (conns : gset nat) (n : Z) : serveContext :=
  mkServeContext (<[a := c]> (heap s)) conns n (stopping s) (forced s) (drained s)
    (listenerCloseOnce s) (listenerCloseError s) (panicked s).

(** [rand] is the value of [rand.UintN(100)]; [None] is a connection that was
    refused and closed. *)
Definition trackConnection (conn : transport) (rand : Z) (s : serveContext) : option nat * serveContext :=
  if stopping s then (None, s)
  else
    let maxStartups := effectiveMaxStartups MaxStartups in
    let dropRate := maxStartupsDropRate int_bits (startups s) maxStartups in
    if (100 <=? dropRate) || ((0 <? dropRate) && (rand <? dropRate)) then (None, s)
    else
      let a := fresh (dom (heap s)) in
      let reserved := 0 <? Full maxStartups in
      (Some a, set_active s a (mkActiveConn conn [conn] None true reserved false None)
                 ({[a]} ∪ connections s) (if reserved then startups s + 1 else startups s)).

Definition updateConnection (a : nat) (conn : transport) (s : serveContext) : bool * serveContext :=
  match heap s !! a with
  | Some c =>
      if negb (bool_decide (a ∈ connections s)) || aclosed c then (false, s)
      else (true, set_active s a (mkActiveConn conn [conn] (cancel c) (handshaking c) (startupReserved c)
                                    (aclosed c) (closeCause c)) (connections s) (startups s))
  | None => (false, s)
  end.

Definition updateCancel (a : nat) (f : nat) (s : serveContext) : bool * serveContext :=
  match heap s !! a with
  | Some c =>
      if negb (bool_decide (a ∈ connections s)) || aclosed c then (false, s)
      else (true, set_active s a (mkActiveConn (aconn c) (transports c) (Some f) (handshaking c)
                                    (startupReserved c) (aclosed c) (closeCause c))
                    (connections s) (startups s))
  | None => (false, s)
  end.

Definition isHandshaking (a : nat) (s : serveContext) : bool :=
  match heap s !! a with Some c => handshaking c | None => false end.

Definition releaseStartup (a : nat) (s : serveContext) : serveContext :=
  match heap s !! a with
  | Some c =>
      set_active s a (mkActiveConn (aconn c) (transports c) (cancel c) false false (aclosed c) (closeCause c))
        (connections s) (if startupReserved c then startups s - 1 else startups s)
  | None => s
  end.

(** The second critical section of [untrackConnection]. *)
Definition untrack_delete (a : nat) (s : serveContext) : serveContext :=
  maybeCloseDrainedLocked
    (mkServeContext (heap s) (connections s ∖ {[a]}) (startups s) (stopping s) (forced s) (drained s)
       (listenerCloseOnce s) (listenerCloseError s) (panicked s)).

Definition untrackConnection (a : nat) (s : serveContext) : serveContext :=
  untrack_delete a (releaseStartup a s).

Definition connectionCause (a : nat) (s : serveContext) : option error :=
  match heap s !! a with Some c => closeCause c | None => None end.

(** The loop of [force] over [s.connections], in the order [order] of the map's
    iteration: it closes the [activeConn]s, gives up their startups and collects
    their cleanups. *)
Fixpoint force_loop (cause : error) (order : list nat) (h : gmap nat activeConn)
    : gmap nat activeConn * Z * list connectionCleanup :=
  match order with
  | [] => (h, 0, [])
  | a :: order =>
      match h !! a with
      | Some c =>
          let h := <[a := mkActiveConn (aconn c) (transports c) (cancel c) (handshaking c) false
                            true (Some cause)]> h in
          let '(h, releases, cleanups) := force_loop cause order h in
          (h, (if startupReserved c then releases + 1 else releases),
           mkCleanup a (cancel c) (transports c) :: cleanups)
      | None => force_loop cause order h
      end
  end.

(** The locked part of [force] after [stopAccepting]. *)
Definition force_locked (cause : error) (order : list nat) (s : serveContext)
    : serveContext * list connectionCleanup :=
  if forced s then (s, [])
  else
    let '(h, releases, cleanups) := force_loop cause order (heap s) in
    (maybeCloseDrainedLocked
       (mkServeContext h ∅ (startups s - releases) (stopping s) true (drained s)
          (listenerCloseOnce s) (listenerCloseError s) (panicked s)), cleanups).

(** What the cleanups do, in order: cancel, close the transports from the last
    one on, close the resources. *)
Inductive cleanup_action := ACancel (f : nat) (cause : error) | ACloseTransport (t : transport) | ACloseResources (a : nat).

Definition run_cleanup (cause : error) (c : connectionCleanup) : list cleanup_action :=
  match cl_cancel c with Some f => [ACancel f cause] | None => [] end ++
  map ACloseTransport (rev (cl_transports c)) ++ [ACloseResources (cl_owner c)].

(** [close_result t] is what closing the transport [t] returns. *)
Definition force (close_result : transport -> option error) (cause : error) (order : list nat) (s : serveContext)
    : option error * serveContext * list cleanup_action :=
  let '(listenerErr, s) := stopAccepting s in
  if forced s then (listenerErr, s, [])
  else
    let '(s, cleanups) := force_locked cause order s in
    let errs := flat_map (fun c => map close_result (rev (cl_transports c))) cleanups in
    let result := fold_left (fun result err =>
      match err with
      | Some e => if isClosedError (Some e) then result else errors_Join [result; Some e]
      | None => result
      end) errs None in
    (errors_Join [listenerErr; result], s, flat_map (run_cleanup cause) cleanups).
End Scope.

Definition ErrGracefulShutdownTimeout : error := ErrNew 45 "ssh: graceful shutdown timeout".

(** ** Shutdown

    [handler] is what [GracefulShutdownHandler] returns, where there is one;
    [waited] the scope when the [select] fires and [drained_first] whether it
    fires because the scope has drained; [order] the iteration order of the
    connections. *)
Section Shutdown.
Variable listener_Close : option error.
Variable close_result : transport -> option error.

Definition shutdown (ctxCause : option error) (handler : option (Z * option error))
    (waited : serveContext) (drained_first : bool) (order : list nat) (s : serveContext)
    : option error * serveContext * list cleanup_action :=
  let cause := match ctxCause with Some c => c | None => context_Canceled end in
  let '(listenerErr, s) := stopAccepting listener_Close s in
  let force_with (forcedCause : error) (errs : list (option error)) (s : serveContext) :=
    let '(err, s, acts) := force listener_Close close_result forcedCause order s in
    (errors_Join (Some forcedCause :: errs ++ [err]), s, acts) in
  let after_handler (period : Z) :=
    if period <=? 0 then force_with cause [] s
    else if drained_first then (errors_Join [Some cause; listenerErr], waited, [])
    else if bool_decide (size (connections waited) = 0)%nat
    then (errors_Join [Some cause; listenerErr], waited, [])
    else force_with (ErrJoin [cause; ErrGracefulShutdownTimeout]) [] waited in
  match handler with
  | Some (_, Some err) => force_with (ErrJoin [cause; err]) [listenerErr] s
  | Some (period, None) => after_handler period
  | None => after_handler 0
  end.
End Shutdown.

(** The handler that [limitErrorHandler] makes of one: what a call of it does
    with [slots] handlers running already. *)
Inductive limited := RunHandler | CallNext.

Definition limitErrorHandler (slots : Z) : limited :=
  if slots <? defaultMaxConcurrentErrorHandlers then RunHandler else CallNext.

(** ** Interleaving

    [pending] are the owners between the two critical sections of
    [untrackConnection]; [cleaned] and [gone] record which connections [force]
    and their owners have taken out of the scope. *)
Record lcsystem := mkLC {
  sc : serveContext; pending : gset nat; cleaned : list connectionCleanup; gone : gset nat }.

Section Steps.
Variable int_bits : Z.
Variable MaxStartups : option MaxStartupsConfig.
Variable listener_Close : option error.

Inductive lcstep : lcsystem -> lcsystem -> Prop :=
| l_stop s : lcstep s (mkLC (stopAccepting_locked (sc s)) (pending s) (cleaned s) (gone s))
| l_close_listener s :
    lcstep s (mkLC (snd (scope_closeListener listener_Close (sc s))) (pending s) (cleaned s) (gone s))
| l_track s conn rand :
    0 <= rand < 100 ->
    lcstep s (mkLC (snd (trackConnection int_bits MaxStartups conn rand (sc s))) (pending s) (cleaned s) (gone s))
| l_update_connection s a conn :
    lcstep s (mkLC (snd (updateConnection a conn (sc s))) (pending s) (cleaned s) (gone s))
| l_update_cancel s a f :
    lcstep s (mkLC (snd (updateCancel a f (sc s))) (pending s) (cleaned s) (gone s))
| l_release s a : lcstep s (mkLC (releaseStartup a (sc s)) (pending s) (cleaned s) (gone s))
| l_untrack s a :
    a ∈ dom (heap (sc s)) ->
    lcstep s (mkLC (releaseStartup a (sc s)) ({[a]} ∪ pending s) (cleaned s) (gone s))
| l_untrack_delete s a :
    a ∈ pending s ->
    lcstep s (mkLC (untrack_delete a (sc s)) (pending s ∖ {[a]}) (cleaned s)
                ((connections (sc s) ∩ {[a]}) ∪ gone s))
| l_force s cause order s' cleanups :
    stopping (sc s) = true -> order ≡ₚ elements (connections (sc s)) ->
    force_locked cause order (sc s) = (s', cleanups) ->
    lcstep s (mkLC s' (pending s) (cleaned s ++ cleanups) (gone s)).

Definition lcinitial : lcsystem := mkLC newServeContext ∅ [] ∅.

Inductive lcreachable : lcsystem -> Prop :=
| lc_init : lcreachable lcinitial
| lc_step s s' : lcreachable s -> lcstep s s' -> lcreachable s'.

(** ** Invariant *)

(** The connections that hold a startup slot. *)
Definition reserved (h : gmap nat activeConn) : gset nat :=
  dom (filter (fun p => startupReserved p.2 = true) h).

Definition owners (l : list connectionCleanup) : gset nat := list_to_set (map cl_owner l).

Definition full_limit : Z := Full (effectiveMaxStartups MaxStartups).

Record lcinv (s : lcsystem) : Prop := mkLCInv {
  lc_startups : startups (sc s) = Z.of_nat (size (reserved (heap (sc s))));
  lc_bound : 0 < full_limit -> startups (sc s) <= full_limit;
  lc_unlimited : full_limit <= 0 -> reserved (heap (sc s)) = ∅;
  lc_reserved : reserved (heap (sc s)) ⊆ connections (sc s);
  lc_pending : reserved (heap (sc s)) ## pending s /\ pending s ⊆ dom (heap (sc s));
  lc_dom : dom (heap (sc s)) = connections (sc s) ∪ gone s ∪ owners (cleaned s);
  lc_disjoint : connections (sc s) ## gone s /\ connections (sc s) ## owners (cleaned s) /\
                gone s ## owners (cleaned s);
  lc_closed : forall a c, heap (sc s) !! a = Some c -> aclosed c = bool_decide (a ∈ owners (cleaned s));
  lc_cleaned : forall cl, cl ∈ cleaned s -> exists c, heap (sc s) !! cl_owner cl = Some c /\
                 cl_cancel cl = cancel c /\ cl_transports cl = transports c /\ is_Some (closeCause c);
  lc_nodup : NoDup (map cl_owner (cleaned s));
  lc_forced : if forced (sc s) then stopping (sc s) = true /\ connections (sc s) = ∅ else cleaned s = [];
  lc_drained : drained (sc s) = true -> stopping (sc s) = true /\ connections (sc s) = ∅;
  lc_panicked : panicked (sc s) = false }.

(** Between critical sections the [drained] channel is up to date. *)
Definition lcsettled (s : lcsystem) : Prop :=
  stopping (sc s) = true -> connections (sc s) = ∅ -> drained (sc s) = true.
End Steps.

Lemma reserved_spec h a :
  a ∈ reserved h <-> exists c, h !! a = Some c /\ startupReserved c = true.
Proof.
  unfold reserved. rewrite elem_of_dom. split.
  - intros [c H]. apply map_lookup_filter_Some in H. naive_solver.
  - intros (c & H & Hr). exists c. apply map_lookup_filter_Some. naive_solver.
Qed.

Lemma reserved_insert_keep h a c c' :
  h !! a = Some c -> startupReserved c' = startupReserved c -> reserved (<[a := c']> h) = reserved h.
Proof.
  intros Ha Hr. apply set_eq. intros b. rewrite !reserved_spec. split.
  - intros (x & Hx & Hr'). apply lookup_insert_Some in Hx as [[<- <-]|[? ?]]; naive_solver congruence.
  - intros (x & Hx & Hr'). destruct (decide (a = b)) as [<-|Hne].
    + exists c'. rewrite lookup_insert_eq. split; [done|congruence].
    + exists x. by rewrite lookup_insert_ne.
Qed.

Lemma reserved_insert_off h a c' :
  startupReserved c' = false -> reserved (<[a := c']> h) = reserved h ∖ {[a]}.
Proof.
  intros Hr. apply set_eq. intros b. rewrite elem_of_difference, elem_of_singleton, !reserved_spec.
  destruct (decide (a = b)) as [<-|Hne]; [rewrite lookup_insert_eq|rewrite lookup_insert_ne by done];
    naive_solver congruence.
Qed.

Lemma reserved_insert_on h a c' :
  startupReserved c' = true -> reserved (<[a := c']> h) = {[a]} ∪ reserved h.
Proof.
  intros Hr. apply set_eq. intros b. rewrite elem_of_union, elem_of_singleton, !reserved_spec.
  destruct (decide (a = b)) as [<-|Hne]; [rewrite lookup_insert_eq|rewrite lookup_insert_ne by done];
    naive_solver.
Qed.

Definition force_closed (cause : error) (c : activeConn) : activeConn :=
  mkActiveConn (aconn c) (transports c) (cancel c) (handshaking c) false true (Some cause).

Lemma force_loop_spec cause order h h' n l :
  NoDup order -> (forall a, a ∈ order -> a ∈ dom h) -> force_loop cause order h = (h', n, l) ->
  map cl_owner l = order /\ dom h' = dom h /\
  reserved h' = reserved h ∖ list_to_set order /\
  n + Z.of_nat (size (reserved h')) = Z.of_nat (size (reserved h)) /\
  (forall a, h' !! a = if decide (a ∈ order) then force_closed cause <$> h !! a else h !! a) /\
  (forall cl, cl ∈ l -> exists c, h !! cl_owner cl = Some c /\ cl_cancel cl = cancel c /\ cl_transports cl = transports c).
Proof.
  revert h h' n l. induction order as [|a order IH]; intros h h' n l Hnd Hin Hf; simpl in Hf.
  - simplify_eq. split; [done|]. split; [done|]. split; [clear; set_solver|]. split; [lia|].
    split; [done|]. intros cl Hcl. by apply not_elem_of_nil in Hcl.
  - apply NoDup_cons in Hnd as [Ha Hnd].
    destruct (h !! a) as [c|] eqn:Hc; [|destruct (proj2 (not_elem_of_dom h a) Hc); apply Hin; left].
    fold (force_closed cause c) in Hf. set (h1 := <[a := force_closed cause c]> h) in *.
    destruct (force_loop cause order h1) as [[h2 m] l2] eqn:Hrec. simplify_eq.
    assert (Hd1 : dom h1 = dom h) by (apply dom_insert_lookup_L; eauto).
    destruct (IH h1 h' m l2 Hnd) as (Ho & Hd & Hr & Hm & Hl & Hcl); [|done|].
    { intros b Hb. rewrite Hd1. apply Hin. by right. }
    assert (Hr1 : reserved h1 = reserved h ∖ {[a]}) by by apply reserved_insert_off.
    split; [simpl; by rewrite Ho|]. split; [congruence|]. split.
    { rewrite Hr, Hr1. simpl. clear. set_solver. }
    split.
    { rewrite Hr1 in Hr. destruct (startupReserved c) eqn:Hs.
      - assert (Hin' : a ∈ reserved h) by (apply reserved_spec; eauto).
        rewrite Hr1, size_difference, size_singleton in Hm by (clear - Hin'; set_solver).
        assert (size (reserved h) <> 0%nat) by (apply size_non_empty_iff; clear - Hin'; set_solver). lia.
      - assert (Hin' : a ∉ reserved h) by (rewrite reserved_spec; naive_solver congruence).
        rewrite Hr1, difference_disjoint_L in Hm by (clear - Hin'; set_solver). lia. }
    split.
    { intros b. rewrite Hl. unfold h1. destruct (decide (b = a)) as [->|Hne].
      - rewrite decide_False by done. rewrite lookup_insert_eq, decide_True by left. by rewrite Hc.
      - rewrite lookup_insert_ne by done.
        destruct (decide (b ∈ order)); [rewrite decide_True by (by right)|rewrite decide_False by set_solver]; done. }
    intros cl Hcl'. apply elem_of_cons in Hcl' as [->|Hcl']; simpl; [eauto|].
    destruct (Hcl _ Hcl') as (d & Hd' & He).
    assert (cl_owner cl <> a).
    { intros E. apply Ha. rewrite <- E, <- Ho. apply list_elem_of_fmap. eauto. }
    unfold h1 in Hd'. rewrite lookup_insert_ne in Hd' by done. eauto.
Qed.

Section Preservation.
Variable int_bits : Z.
Variable MaxStartups : option MaxStartupsConfig.
Variable listener_Close : option error.
Local Abbreviation inv := (lcinv MaxStartups).

Lemma inv_maybe s p l g :
  inv (mkLC s p l g) ->
  inv (mkLC (maybeCloseDrainedLocked s) p l g) /\ lcsettled (mkLC (maybeCloseDrainedLocked s) p l g).
Proof.
  intros Hinv. unfold maybeCloseDrainedLocked, lcsettled.
  destruct (stopping s) eqn:Es; simpl; [|split; [done|congruence]].
  case_bool_decide as Hc; simpl; [|split; [done|done]].
  destruct (drained s) eqn:Ed; [by split|].
  split; [|done]. destruct Hinv. split; simpl in *; auto; [|by rewrite lc_panicked0].
  by destruct (forced s).
Qed.

(** A change of one connection's fields that keeps what [force] took over. *)
Lemma inv_update s p l g a c c' n :
  inv (mkLC s p l g) -> heap s !! a = Some c ->
  aclosed c' = aclosed c -> closeCause c' = closeCause c ->
  a ∈ connections s \/ cancel c' = cancel c /\ transports c' = transports c ->
  (startupReserved c' = startupReserved c /\ n = startups s \/
   startupReserved c' = false /\ n = if startupReserved c then startups s - 1 else startups s) ->
  inv (mkLC (set_active s a c' (connections s) n) p l g).
Proof.
  intros [H1 H2 H3 H4 H5 H6 H7 H8 H9 H10 H11 H12 H13] Ha Hcl Hcc Hsame Hres; simpl in *.
  assert (Hr : reserved (<[a := c']> (heap s)) = reserved (heap s) /\ n = startups s \/
               reserved (<[a := c']> (heap s)) = reserved (heap s) ∖ {[a]} /\
               n = if bool_decide (a ∈ reserved (heap s)) then startups s - 1 else startups s).
  { destruct Hres as [[Hr ->]|[Hr ->]]; [left; split; [by eapply reserved_insert_keep|done]|].
    right. split; [by apply reserved_insert_off|].
    destruct (startupReserved c) eqn:E.
    - rewrite bool_decide_eq_true_2; [done|]. apply reserved_spec. eauto.
    - rewrite bool_decide_eq_false_2; [done|]. rewrite reserved_spec. intros (x & Hx & Hx'). congruence. }
  assert (Hsub : reserved (<[a := c']> (heap s)) ⊆ reserved (heap s)).
  { destruct Hr as [[-> _]|[-> _]]; clear; set_solver. }
  split; simpl.
  - destruct Hr as [[-> ->]|[-> ->]]; [done|]. case_bool_decide as Hin.
    + rewrite size_difference by (clear - Hin; set_solver). rewrite size_singleton.
      assert (size (reserved (heap s)) <> 0%nat) by (apply size_non_empty_iff; clear - Hin; set_solver). lia.
    + rewrite difference_disjoint by (clear - Hin; set_solver). done.
  - intros Hf. specialize (H2 Hf). destruct Hr as [[_ ->]|[_ ->]]; [done|]. case_bool_decide; lia.
  - intros Hf. specialize (H3 Hf). clear - H3 Hsub. set_solver.
  - clear - H4 Hsub. set_solver.
  - rewrite dom_insert_lookup_L by (by eexists). clear - H5 Hsub. set_solver.
  - rewrite dom_insert_lookup_L by (by eexists). done.
  - done.
  - intros b x Hb. apply lookup_insert_Some in Hb as [[<- <-]|[_ Hb]]; [rewrite Hcl|]; eauto.
  - intros x Hx. destruct (H9 x Hx) as (d & Hd & He1 & He2 & He3).
    destruct (decide (a = cl_owner x)) as [->|Hne].
    + rewrite lookup_insert_eq. rewrite Hd in Ha. simplify_eq. eexists. split; [done|]. rewrite Hcc.
      destruct Hsame as [Hin|[-> ->]]; [|done]. exfalso.
      destruct H7 as (_ & H7 & _). apply (H7 _ Hin), elem_of_list_to_set, list_elem_of_fmap. eauto.
    + rewrite lookup_insert_ne by done. eauto.
  - done.
  - done.
  - done.
  - done.
Qed.

Lemma inv_fields s s' p l g :
  heap s' = heap s -> connections s' = connections s -> startups s' = startups s ->
  (stopping s' = stopping s \/ stopping s' = true) -> forced s' = forced s -> drained s' = drained s ->
  panicked s' = panicked s -> inv (mkLC s p l g) -> inv (mkLC s' p l g).
Proof.
  intros E1 E2 E3 E4 E5 E6 E7 []; split; simpl in *; rewrite ?E1, ?E2, ?E3, ?E5, ?E6, ?E7; auto.
  - destruct (forced s); [|done]. by destruct E4 as [->| ->], lc_forced0.
  - intros H. destruct E4 as [->| ->]; [auto|]. split; [done|]. by apply lc_drained0.
Qed.

Lemma inv_release s p l g a : inv (mkLC s p l g) -> inv (mkLC (releaseStartup a s) p l g).
Proof.
  intros H. unfold releaseStartup. destruct (heap s !! a) as [c|] eqn:Ha; [|done].
  eapply inv_update; eauto.
Qed.

Lemma release_not_reserved s a : a ∉ reserved (heap (releaseStartup a s)).
Proof.
  unfold releaseStartup. rewrite reserved_spec.
  destruct (heap s !! a) as [c|] eqn:Ha; simpl; intros (x & Hx & Hr); [|congruence].
  rewrite lookup_insert_eq in Hx. by simplify_eq/=.
Qed.

Lemma release_dom s a : dom (heap (releaseStartup a s)) = dom (heap s).
Proof.
  unfold releaseStartup. destruct (heap s !! a) as [c|] eqn:Ha; [|done]. simpl.
  by apply dom_insert_lookup_L.
Qed.

Lemma inv_untrack s p l g a :
  a ∈ dom (heap s) -> inv (mkLC s p l g) -> inv (mkLC (releaseStartup a s) ({[a]} ∪ p) l g).
Proof.
  intros Ha H. destruct (inv_release _ _ _ _ a H). pose proof (release_not_reserved s a) as Hn.
  rewrite <- (release_dom s a) in Ha. split; simpl in *; auto. clear - lc_pending0 Hn Ha. set_solver.
Qed.

Lemma inv_delete s p l g a :
  a ∈ p -> inv (mkLC s p l g) ->
  inv (mkLC (mkServeContext (heap s) (connections s ∖ {[a]}) (startups s) (stopping s) (forced s) (drained s)
       (listenerCloseOnce s) (listenerCloseError s) (panicked s)) (p ∖ {[a]}) l ((connections s ∩ {[a]}) ∪ g)).
Proof.
  intros Ha []; split; simpl in *; auto.
  - clear - lc_pending0 lc_reserved0 Ha. set_solver.
  - clear - lc_pending0. set_solver.
  - rewrite lc_dom0. apply set_eq. intros b. clear.
    destruct (decide (b = a)); set_solver.
  - destruct lc_disjoint0 as (D1 & D2 & D3). clear - D1 D2 D3. set_solver.
  - destruct (forced s); [|done]. destruct lc_forced0 as [? ->]. split; [done|clear; set_solver].
  - intros H. destruct (lc_drained0 H) as [? ->]. split; [done|clear; set_solver].
Qed.

Lemma inv_track s p l g conn rand :
  0 < int_bits -> full_limit MaxStartups < 2 ^ (int_bits - 1) ->
  inv (mkLC s p l g) -> inv (mkLC (snd (trackConnection int_bits MaxStartups conn rand s)) p l g).
Proof.
  intros Hw Hfull Hinv. unfold trackConnection. destruct (stopping s) eqn:Es; [done|].
  fold (full_limit MaxStartups).
  set (rate := maxStartupsDropRate _ _ _).
  destruct ((100 <=? rate) || _) eqn:Hrate; [done|]. simpl.
  set (a := fresh (dom (heap s))). assert (Hf : a ∉ dom (heap s)) by apply is_fresh.
  assert (Hf' := proj1 (not_elem_of_dom _ _) Hf).
  destruct Hinv; simpl in *.
  assert (Hlt : 0 < full_limit MaxStartups -> startups s < full_limit MaxStartups).
  { intros Hp. apply Z.nle_gt. intros Hle. apply orb_false_iff in Hrate as [Hr _]. apply Z.leb_gt in Hr.
    subst rate. unfold maxStartupsDropRate, full_limit in *.
    rewrite (proj2 (Z.leb_gt _ _) Hp), (proj2 (Z.leb_le _ _) Hle) in Hr. lia. }
  assert (Ha' : a ∉ reserved (heap s)).
  { rewrite reserved_spec. intros (x & Hx & _). congruence. }
  assert (Hres : reserved (<[a:=mkActiveConn conn [conn] None true (0 <? full_limit MaxStartups) false None]> (heap s))
          = if 0 <? full_limit MaxStartups then {[a]} ∪ reserved (heap s) else reserved (heap s)).
  { destruct (0 <? full_limit MaxStartups); [by apply reserved_insert_on|].
    rewrite reserved_insert_off by done. clear - Ha'. set_solver. }
  assert (Hnew : (a ∉ connections s) /\ (a ∉ g) /\ (a ∉ owners l)) by (clear - lc_dom0 Hf; set_solver).
  change (Full (effectiveMaxStartups MaxStartups)) with (full_limit MaxStartups) in *.
  split; simpl; rewrite ?Hres; auto.
  - destruct (0 <? full_limit MaxStartups); [|done]. rewrite size_union by (clear - Ha'; set_solver). rewrite size_singleton. lia.
  - intros H. rewrite (proj2 (Z.ltb_lt _ _) H). specialize (Hlt H). lia.
  - intros H. rewrite (proj2 (Z.ltb_ge _ _) H). auto.
  - destruct (0 <? full_limit MaxStartups); clear - lc_reserved0; set_solver.
  - rewrite dom_insert_L. destruct lc_pending0 as [D1 D2].
    destruct (0 <? full_limit MaxStartups); clear - D1 D2 Hf; set_solver.
  - rewrite dom_insert_L, lc_dom0. clear. set_solver.
  - destruct lc_disjoint0 as (D1 & D2 & D3). clear - D1 D2 D3 Hnew. set_solver.
  - intros b x Hb. apply lookup_insert_Some in Hb as [[<- <-]|[_ Hb]]; [|eauto].
    symmetry. apply bool_decide_eq_false_2. tauto.
  - intros x Hx. destruct (lc_cleaned0 x Hx) as (d & Hd & He). exists d.
    rewrite lookup_insert_ne; [done|]. intros E. rewrite <- E in Hd. congruence.
  - destruct (forced s); [|done]. destruct lc_forced0; congruence.
  - intros H. destruct (lc_drained0 H). congruence.
Qed.
Lemma inv_force s p l g cause order s' cleanups :
  stopping s = true -> order ≡ₚ elements (connections s) -> inv (mkLC s p l g) ->
  force_locked cause order s = (s', cleanups) ->
  inv (mkLC s' p (l ++ cleanups) g) /\ (forced s = false -> lcsettled (mkLC s' p (l ++ cleanups) g)) /\
  (forced s = true -> s' = s).
Proof.
  intros Hst Hord Hinv Hf. unfold force_locked in Hf. destruct (forced s) eqn:Efd.
  { simplify_eq. by rewrite app_nil_r. }
  destruct (force_loop cause order (heap s)) as [[h n] cl] eqn:Hl. simplify_eq.
  destruct (force_loop_spec cause order (heap s) h n cleanups) as (Ho & Hd & Hr & Hn & Hlk & Hcl); [| |done|].
  { rewrite Hord. apply NoDup_elements. }
  { destruct Hinv; simpl in *. intros a Ha. rewrite Hord in Ha. apply elem_of_elements in Ha.
    rewrite lc_dom0. clear - Ha. set_solver. }
  assert (Hmem : forall a, a ∈ order <-> a ∈ connections s) by (intros a; by rewrite Hord, elem_of_elements).
  assert (Hoc : owners cleanups = connections s).
  { apply set_eq. intros a. unfold owners. by rewrite Ho, elem_of_list_to_set. }
  assert (Hr0 : reserved h = ∅).
  { destruct Hinv; simpl in *. rewrite Hr. apply set_eq. intros a.
    rewrite elem_of_difference, elem_of_list_to_set, Hmem. clear - lc_reserved0. set_solver. }
  match goal with |- inv (mkLC (maybeCloseDrainedLocked ?s1) _ _ _) /\ _ =>
    cut (inv (mkLC s1 p (l ++ cleanups) g)); [intros H1; destruct (inv_maybe _ _ _ _ H1); by split|] end.
  rewrite Hr0, size_empty in Hn.
  destruct Hinv; simpl in *. rewrite Efd in lc_forced0. subst l.
  destruct lc_disjoint0 as (D1 & D2 & D3).
  split; simpl; rewrite ?Hr0, ?Hd, ?Hoc; auto.
  - rewrite size_empty. lia.
  - intros Hpos. lia.
  - split; [clear; set_solver|tauto].
  - rewrite lc_dom0. clear. set_solver.
  - intros a c Ha. rewrite Hlk in Ha. destruct (decide (a ∈ order)) as [Hin|Hin].
    + apply fmap_Some in Ha as (c0 & _ & ->). simpl. symmetry. apply bool_decide_eq_true_2. by apply Hmem.
    + rewrite (lc_closed0 _ _ Ha). transitivity false; [apply bool_decide_eq_false_2; apply not_elem_of_empty|].
      symmetry. apply bool_decide_eq_false_2. by rewrite <- Hmem.
  - intros x Hx. destruct (Hcl x Hx) as (c & Hc & E1 & E2). exists (force_closed cause c).
    rewrite Hlk, decide_True; [by rewrite Hc; eauto|]. rewrite <- Ho. apply list_elem_of_fmap. eauto.
  - rewrite Ho, Hord. apply NoDup_elements.
Qed.

Lemma inv_step s s' :
  0 < int_bits -> full_limit MaxStartups < 2 ^ (int_bits - 1) ->
  inv s -> lcsettled s -> lcstep int_bits MaxStartups listener_Close s s' -> inv s' /\ lcsettled s'.
Proof.
  intros Hw Hfull Hinv Hset Hst. destruct Hst as [s|s|s conn rand|s a conn|s a f|s a|s a|s a|s cause order s' cl].
  all: destruct s as [s p l g]; simpl in *.
  - apply inv_maybe. revert Hinv. apply inv_fields; auto.
  - unfold scope_closeListener. destruct (listenerCloseOnce s); [done|]. split; [|done].
    revert Hinv. apply inv_fields; auto.
  - split; [by apply inv_track|]. unfold trackConnection. destruct (stopping s) eqn:Es; [done|].
    destruct (_ || _); [done|]. unfold lcsettled. simpl. congruence.
  - unfold updateConnection. destruct (heap s !! a) as [c|] eqn:Ha; [|done].
    case_bool_decide as Hin; simpl; [|done]. destruct (aclosed c) eqn:Hc; [done|]. simpl. split; [|done].
    eapply inv_update; eauto; simpl; auto.
  - unfold updateCancel. destruct (heap s !! a) as [c|] eqn:Ha; [|done].
    case_bool_decide as Hin; simpl; [|done]. destruct (aclosed c) eqn:Hc; [done|]. simpl. split; [|done].
    eapply inv_update; eauto; simpl; auto.
  - split; [by apply inv_release|]. unfold releaseStartup. by destruct (heap s !! a).
  - split; [by apply inv_untrack|]. unfold releaseStartup. by destruct (heap s !! a).
  - apply inv_maybe. by apply inv_delete.
  - destruct (inv_force s p l g cause order s' cl) as (K1 & K2 & K3); auto. split; [done|].
    destruct (forced s) eqn:E; [|auto]. rewrite (K3 eq_refl). done.
Qed.

Lemma inv_initial : inv lcinitial /\ lcsettled lcinitial.
Proof.
  split; [|done]. assert (Hr : reserved ∅ = ∅) by (apply set_eq; intros a; rewrite reserved_spec; set_solver).
  split; simpl; rewrite ?Hr; try done; try set_solver; try lia.
  all: try (by rewrite size_empty). constructor.
Qed.

Lemma inv_reachable s :
  0 < int_bits -> full_limit MaxStartups < 2 ^ (int_bits - 1) ->
  lcreachable int_bits MaxStartups listener_Close s -> inv s /\ lcsettled s.
Proof.
  intros Hw Hf. induction 1 as [|s s' _ [IH1 IH2] Hst]; [apply inv_initial|].
  eapply inv_step; eauto.
Qed.
End Preservation.

(** ** The contract of a scope *)

(** C20. Under every interleaving the startup slots in use are exactly the
    tracked connections that still hold one (so the count is never negative
    and nothing leaks), and never more than [Full] where it limits them. *)
Theorem startups_exact int_bits MaxStartups listener_Close s :
  0 < int_bits -> full_limit MaxStartups < 2 ^ (int_bits - 1) ->
  lcreachable int_bits MaxStartups listener_Close s ->
  startups (sc s) = Z.of_nat (size (reserved (heap (sc s)))) /\
  reserved (heap (sc s)) ⊆ connections (sc s) /\
  (0 < full_limit MaxStartups -> startups (sc s) <= full_limit MaxStartups) /\
  (full_limit MaxStartups <= 0 -> startups (sc s) = 0).
Proof.
  intros Hw Hf Hr. destruct (inv_reachable _ _ _ _ Hw Hf Hr) as [[] _].
  split; [done|]. split; [done|]. split; [done|]. intros Hu.
  rewrite lc_startups0, lc_unlimited0 by done. done.
Qed.

(** The [drained] channel is closed exactly when the scope has stopped and
    tracks no connection, and never twice. *)
Theorem drained_exact int_bits MaxStartups listener_Close s :
  0 < int_bits -> full_limit MaxStartups < 2 ^ (int_bits - 1) ->
  lcreachable int_bits MaxStartups listener_Close s ->
  (drained (sc s) = true <-> stopping (sc s) = true /\ connections (sc s) = ∅) /\
  panicked (sc s) = false.
Proof.
  intros Hw Hf Hr. destruct (inv_reachable _ _ _ _ Hw Hf Hr) as [[] Hset].
  split; [|done]. split; [done|]. intros [? ?]. by apply Hset.
Qed.

(** C24. Once a scope has been forced, every connection it ever admitted has
    either been untracked by its owner or is in exactly one cleanup, with the
    transports and the cancel function it has for good, and is marked closed
    with a cause; nothing is admitted any more, and an owner that brings a new
    transport or cancel function is told so. *)
Theorem force_complete int_bits MaxStartups listener_Close s :
  0 < int_bits -> full_limit MaxStartups < 2 ^ (int_bits - 1) ->
  lcreachable int_bits MaxStartups listener_Close s -> forced (sc s) = true ->
  connections (sc s) = ∅ /\ NoDup (map cl_owner (cleaned s)) /\
  (forall a c, heap (sc s) !! a = Some c -> a ∉ gone s ->
     mkCleanup a (cancel c) (transports c) ∈ cleaned s /\ aclosed c = true /\ is_Some (closeCause c)) /\
  (forall conn rand, fst (trackConnection int_bits MaxStartups conn rand (sc s)) = None) /\
  (forall a x, fst (updateConnection a x (sc s)) = false /\ fst (updateCancel a x (sc s)) = false).
Proof.
  intros Hw Hf Hr Hforced. destruct (inv_reachable _ _ _ _ Hw Hf Hr) as [[] _].
  rewrite Hforced in lc_forced0. destruct lc_forced0 as [Hst Hc].
  split; [done|]. split; [done|]. split; [|split].
  - intros a c Ha Hg. assert (Hin : a ∈ owners (cleaned s)).
    { apply elem_of_dom_2 in Ha. rewrite lc_dom0, Hc in Ha. clear - Ha Hg. set_solver. }
    assert (Hin' := Hin). unfold owners in Hin'. apply elem_of_list_to_set, list_elem_of_fmap in Hin' as (cl & -> & Hcl).
    destruct (lc_cleaned0 cl Hcl) as (d & Hd & E1 & E2 & E3). rewrite Ha in Hd. simplify_eq.
    destruct cl; simpl in *; subst. split; [done|]. split; [|done].
    rewrite (lc_closed0 _ _ Ha). by apply bool_decide_eq_true_2.
  - intros conn rand. unfold trackConnection. by rewrite Hst.
  - intros a x. unfold updateConnection, updateCancel. rewrite Hc.
    destruct (heap (sc s) !! a); [|done]. by rewrite bool_decide_eq_false_2 by apply not_elem_of_empty.
Qed.

Lemma force_connections listener_Close close_result cause order s :
  (forced s = true -> connections s = ∅) ->
  connections (snd (fst (force listener_Close close_result cause order s))) = ∅.
Proof.
  intros Hf. unfold force, stopAccepting, scope_closeListener, stopAccepting_locked, force_locked, maybeCloseDrainedLocked.
  destruct s as [h c n st fo dr lo le p]; simpl in *. 
  destruct (bool_decide (c = ∅)), dr, lo, fo; simpl; auto;
    destruct (force_loop cause order h) as [[h' m] cl]; simpl; auto;
    repeat case_match; simpl; auto.
Qed.

(** A forced end: nothing tracked, and the error contains its cause. *)
Lemma force_ends listener_Close close_result order fc errs x :
  (forced x = true -> connections x = ∅) ->
  let '(err, x', _) := (let '(err, y, acts) := force listener_Close close_result fc order x in
     (errors_Join (Some fc :: errs ++ [err]), y, acts)) in
  connections x' = ∅ /\ forall t, errors_Is (Some fc) (Some t) = true -> errors_Is err (Some t) = true.
Proof.
  intros Hx. pose proof (force_connections listener_Close close_result fc order x Hx) as Hc.
  destruct (force listener_Close close_result fc order x) as [[err y] acts]. split; [done|].
  intros t Ht. apply (errors_Is_Join _ fc); [left|done].
Qed.

Lemma errors_Is_joined x y z : x ∈ [y; z] -> errors_Is (Some (ErrJoin [y; z])) (Some x) = true.
Proof. intros Hx. apply (errors_Is_child _ x); [done|apply errors_Is_refl]. Qed.

Lemma shutdown_ends listener_Close close_result ctxCause handler waited drained_first order s :
  (forced s = true -> connections s = ∅) -> (forced waited = true -> connections waited = ∅) ->
  (drained_first = true -> connections waited = ∅) ->
  let '(err, s', _) := shutdown listener_Close close_result ctxCause handler waited drained_first order s in
  connections s' = ∅ /\
  errors_Is err (Some (default context_Canceled ctxCause)) = true /\
  (forall period, handler = Some (period, None) -> 0 < period -> drained_first = false ->
     connections waited <> ∅ -> errors_Is err (Some ErrGracefulShutdownTimeout) = true).
Proof.
  intros Hs Hwf Hd.
  unfold shutdown. change (match ctxCause with Some c => c | None => context_Canceled end) with (default context_Canceled ctxCause).
  set (cause := default context_Canceled ctxCause).
  destruct (stopAccepting listener_Close s) as [lerr s1] eqn:Es.
  assert (Hs1 : forced s1 = true -> connections s1 = ∅).
  { assert (E : forced s1 = forced s /\ connections s1 = connections s).
    { revert Es. unfold stopAccepting, scope_closeListener, stopAccepting_locked, maybeCloseDrainedLocked. simpl.
      repeat case_match; intros; simplify_eq/=; done. }
    by destruct E as [-> ->]. }
  pose proof (force_ends listener_Close close_result order) as HF. pose proof errors_Is_joined as Hjoin.
  assert (H0 : errors_Is (errors_Join [Some cause; lerr]) (Some cause) = true).
  { apply (errors_Is_Join _ cause); [left|apply errors_Is_refl]. }
  destruct handler as [[period [e|]]|].
  - pose proof (HF (ErrJoin [cause; e]) [lerr] s1 Hs1) as H. cbv zeta in *.
    destruct (let '(_, _, _) := _ in _) as [[err s'] acts]. destruct H as [Hc Hi].
    split; [done|]. split; [apply Hi, Hjoin; left|done].
  - destruct (Z.leb_spec period 0).
    + pose proof (HF cause [] s1 Hs1) as HF'. cbv zeta in *.
      destruct (let '(_, _, _) := _ in _) as [[err s'] acts]. destruct HF' as [Hc Hi].
      split; [done|]. split; [apply Hi, errors_Is_refl|]. intros q Hq. simplify_eq. lia.
    + destruct drained_first.
      { split; [by apply Hd|done]. }
      case_bool_decide as Hz.
      { apply size_empty_inv in Hz. split; [by apply leibniz_equiv|]. split; [done|].
        intros q _ _ _ Hn. by apply leibniz_equiv in Hz. }
      pose proof (HF (ErrJoin [cause; ErrGracefulShutdownTimeout]) [] waited Hwf) as HF'. cbv zeta in *.
      destruct (let '(_, _, _) := _ in _) as [[err s'] acts]. destruct HF' as [Hc Hi].
      split; [done|]. split; [apply Hi, Hjoin; left|]. intros _ _ _ _ _. apply Hi, Hjoin. right. left.
  - pose proof (HF cause [] s1 Hs1) as HF'. cbv zeta in *. simpl (0 <=? 0). cbv iota.
    destruct (let '(_, _, _) := _ in _) as [[err s'] acts]. destruct HF' as [Hc Hi].
    split; [done|]. split; [apply Hi, errors_Is_refl|done].
Qed.

(** A context-triggered shutdown ends with no connection tracked, whether
    it drains, times out or is forced at once, and its error always contains
    the context's cause, and [ErrGracefulShutdownTimeout] when a positive grace
    period ran out. *)
Theorem shutdown_complete int_bits MaxStartups listener_Close close_result ctxCause handler
    waited drained_first order s p l g p' l' g' :
  0 < int_bits -> full_limit MaxStartups < 2 ^ (int_bits - 1) ->
  lcreachable int_bits MaxStartups listener_Close (mkLC s p l g) ->
  lcreachable int_bits MaxStartups listener_Close (mkLC waited p' l' g') ->
  (drained_first = true -> drained waited = true) ->
  let '(err, s', _) := shutdown listener_Close close_result ctxCause handler waited drained_first order s in
  connections s' = ∅ /\
  errors_Is err (Some (default context_Canceled ctxCause)) = true /\
  (forall period, handler = Some (period, None) -> 0 < period -> drained_first = false ->
     connections waited <> ∅ -> errors_Is err (Some ErrGracefulShutdownTimeout) = true).
Proof.
  intros Hw Hf Hr Hr' Hd.
  destruct (inv_reachable _ _ _ _ Hw Hf Hr) as [[] _], (inv_reachable _ _ _ _ Hw Hf Hr') as [[] _]; simpl in *.
  apply shutdown_ends.
  - intros E. rewrite E in lc_forced0. tauto.
  - intros E. rewrite E in lc_forced1. tauto.
  - intros E. by apply lc_drained1, Hd.
Qed.

(** ** Concurrent error handlers

    The slots of [limitErrorHandler] and the goroutines that go through it. *)
Inductive ehstate := EHIdle | EHRunning | EHNext | EHDone.

Inductive ehstep : Z * list ehstate -> Z * list ehstate -> Prop :=
| eh_run slots l i :
    l !! i = Some EHIdle -> limitErrorHandler slots = RunHandler ->
    ehstep (slots, l) (slots + 1, <[i := EHRunning]> l)
| eh_next slots l i :
    l !! i = Some EHIdle -> limitErrorHandler slots = CallNext ->
    ehstep (slots, l) (slots, <[i := EHNext]> l)
| eh_return slots l i :
    l !! i = Some EHRunning -> ehstep (slots, l) (slots - 1, <[i := EHDone]> l).

Inductive ehreachable (n : nat) : Z * list ehstate -> Prop :=
| ehr_init : ehreachable n (0, replicate n EHIdle)
| ehr_step s s' : ehreachable n s -> ehstep s s' -> ehreachable n s'.

Definition running (e : ehstate) : Z := match e with EHRunning => 1 | _ => 0 end.

(** At most 64 error handlers of a scope run at the same time, the slots in
    use are exactly the running ones, and an invocation goes to the default
    action instead only when all of them are taken. *)
Theorem error_handlers_bounded n slots l :
  ehreachable n (slots, l) ->
  slots = sumZ running l /\ 0 <= slots <= defaultMaxConcurrentErrorHandlers /\
  (limitErrorHandler slots = CallNext <-> sumZ running l = defaultMaxConcurrentErrorHandlers).
Proof.
  intros H. assert (Hs : slots = sumZ running l /\ slots <= defaultMaxConcurrentErrorHandlers).
  { remember (slots, l) as s eqn:E. revert slots l E.
    induction H as [|s s' Hr IH Hst]; intros slots l E; simplify_eq.
    - split; [|done]. symmetry. apply sumZ_zero. intros a Ha. by apply elem_of_replicate in Ha as [-> _].
    - inversion Hst as [k m i Hi Hlim|k m i Hi Hlim|k m i Hi]; simplify_eq;
        destruct (IH _ _ eq_refl) as [Hk Hb]; rewrite (sumZ_insert _ _ _ _ _ Hi); simpl; try lia.
      unfold limitErrorHandler in Hlim. destruct (Z.ltb_spec k defaultMaxConcurrentErrorHandlers); [lia|done]. }
  destruct Hs as [Hs Hb]. split; [done|]. split; [split; [|done]|].
  - rewrite Hs. clear. induction l as [|[] l IH]; simpl; lia.
  - unfold limitErrorHandler. destruct (Z.ltb_spec slots defaultMaxConcurrentErrorHandlers); split; (done || lia).
Qed.

Lemma error_handlers_bounded_witness : sumZ running [EHRunning; EHIdle] = 1.
Proof.
  assert (H : ehreachable 2 (1, [EHRunning; EHIdle])).
  { exact (ehr_step 2 _ _ (ehr_init 2) (eh_run 0 [EHIdle; EHIdle] 0 eq_refl eq_refl)). }
  symmetry. exact (proj1 (error_handlers_bounded 2 1 _ H)).
Defined.

(** Two connections are admitted, [Full] of them; then the scope is forced. *)
Definition sample_startups : option MaxStartupsConfig := Some (mkMaxStartups 2 50 2).

Definition sample_track (conn : transport) (s : serveContext) : serveContext :=
  snd (trackConnection 64 sample_startups conn 0 s).
Definition sample_tracked : serveContext := sample_track 8 (sample_track 7 newServeContext).
Definition sample_stopped : serveContext := stopAccepting_locked sample_tracked.
Definition sample_forcing := force_locked io_EOF (elements (connections sample_stopped)) sample_stopped.

Lemma sample_tracked_reachable : lcreachable 64 sample_startups None (mkLC sample_tracked ∅ [] ∅).
Proof.
  pose proof (lc_init 64 sample_startups None) as H.
  eapply lc_step in H; [|by apply (l_track _ _ _ _ 7%nat 0)].
  eapply lc_step in H; [|by apply (l_track _ _ _ _ 8%nat 0)].
  exact H.
Qed.

Lemma sample_forced_reachable :
  lcreachable 64 sample_startups None (mkLC (fst sample_forcing) ∅ (snd sample_forcing) ∅).
Proof.
  pose proof sample_tracked_reachable as H.
  eapply lc_step in H; [|by apply l_stop].
  eapply lc_step in H; [|eapply (l_force _ _ _ _ io_EOF); [reflexivity|reflexivity|apply surjective_pairing]].
  exact H.
Qed.

Lemma startups_exact_witness :
  startups sample_tracked = 2 /\ size (reserved (heap sample_tracked)) = 2%nat /\
  fst (trackConnection 64 sample_startups 9 0 sample_tracked) = None.
Proof.
  destruct (startups_exact 64 sample_startups None _ eq_refl eq_refl sample_tracked_reachable) as [H _].
  assert (E : startups sample_tracked = 2) by reflexivity.
  split; [exact E|]. split; [|reflexivity]. cbn [sc] in H. lia.
Defined.

Lemma drained_exact_witness : drained (fst sample_forcing) = true /\ connections (fst sample_forcing) = ∅.
Proof.
  destruct (drained_exact 64 sample_startups None _ eq_refl eq_refl sample_forced_reachable) as [[H _] _].
  split; [reflexivity|]. apply H. reflexivity.
Defined.

Lemma force_complete_witness :
  forced (fst sample_forcing) = true /\
  exists c, heap (fst sample_forcing) !! 1%nat = Some c /\ transports c = [8%nat] /\ aclosed c = true.
Proof.
  split; [reflexivity|].
  destruct (force_complete 64 sample_startups None _ eq_refl eq_refl sample_forced_reachable eq_refl)
    as (_ & _ & H & _).
  destruct (heap (fst sample_forcing) !! 1%nat) as [c|] eqn:E.
  - destruct (H _ c E ltac:(apply not_elem_of_empty)) as (_ & Hc & _).
    exists c. split; [reflexivity|]. split; [|exact Hc]. vm_compute in E. by simplify_eq.
  - vm_compute in E. discriminate E.
Defined.

Lemma shutdown_complete_witness :
  let '(err, s, _) := shutdown None (fun _ => None) None (Some (5, None)) sample_stopped false
    (elements (connections sample_stopped)) sample_tracked in
  connections s = ∅ /\ errors_Is err (Some context_Canceled) = true.
Proof.
  assert (Hst : lcreachable 64 sample_startups None (mkLC sample_stopped ∅ [] ∅)).
  { pose proof sample_tracked_reachable as H. eapply lc_step in H; [|by apply l_stop]. exact H. }
  pose proof (shutdown_complete 64 sample_startups None (fun _ => None) None (Some (5, None)) sample_stopped
    false (elements (connections sample_stopped)) _ _ _ _ _ _ _ eq_refl eq_refl
    sample_tracked_reachable Hst ltac:(discriminate)) as H.
  destruct (shutdown _ _ _ _ _ _ _ _) as [[err s] acts]. destruct H as (H1 & H2 & _).
  split; [exact H1|exact H2].
Defined.
