(* ===== verification/Server.v ===== *)
(** * Accepting and handling connections ([server.go])

    The accept loop of [Serve] and the life of one connection in [handleConn]:
    the stages, the early returns and the deferred clean-up, as a trace of the
    effects each path has.  What callbacks, the transport and the SSH handshake
    answer is the environment; what the channel and request loops do is the
    single event [HvServe]. *)
From S2P Require Import Prelude GoErrors Settings ErrorDispatch.
Local Open Scope Z_scope.

Definition ErrServerClientAuthRequired : error :=
  ErrNew 21 "ssh: at least one client authentication method is required".

(** ** The accept loop *)

(** The default action of [Serve] for a failed [Accept]. *)
Definition acceptErrorAction : defaultErrorAction := fun _ _ _ err =>
  match as_net_error err with
  | Some true => AReturn true None
  | _ => AReturn false err
  end.

Inductive acceptDecision :=
| AShutdown                        (* return scope.shutdown(ctx) *)
| AForceJoined (err : error)       (* return errors.Join(err, scope.force(err)) *)
| AForce (err : error)             (* return scope.force(err) *)
| ARetry.                          (* waitForRetry, continue *)

(** [doneBefore] and [doneAfter]: [ctx.Err() != nil] before and after the dispatch. *)
Definition acceptFailed (ctx : dispatchContext) (errorHandler : option ErrorHandler)
    (acceptErr : error) (doneBefore : bool) (cancelled : option (nat * option error)) (doneAfter : bool)
    : acceptDecision :=
  if doneBefore then AShutdown
  else
    let d := dispatchError ctx errorHandler ErrorScopeServer ErrorOperationAccept (Some acceptErr)
               None (Some acceptErrorAction) cancelled [] in
    if doneAfter then AShutdown
    else match d_result d with
         | (_, Some filteredErr) => AForceJoined filteredErr
         | (canContinue, None) =>
             if canContinue && negb (isClosedError (Some acceptErr)) then ARetry else AForce acceptErr
         end.

(** What [Accept] yields, and what the environment does about a failure. *)
Inductive acceptResult :=
| Accepted
| AcceptFailed (err : error) (doneBefore : bool) (cancelled : option (nat * option error))
               (doneAfter : bool) (retry : bool).     (* retry: the timer fires before ctx.Done() *)

(** The loop: how it ends ([None]: it still accepts), the delays it waited for
    and the number of connections it handed over. *)
Fixpoint serve_loop (ctx : dispatchContext) (errorHandler : option ErrorHandler) (tempDelay : Z)
    (l : list acceptResult) : option acceptDecision * list Z * nat :=
  match l with
  | [] => (None, [], 0%nat)
  | Accepted :: l =>
      let '(e, delays, n) := serve_loop ctx errorHandler 0 l in (e, delays, S n)
  | AcceptFailed err db c da retry :: l =>
      match acceptFailed ctx errorHandler err db c da with
      | ARetry =>
          let '(ok, tempDelay) := waitForRetry retry tempDelay in
          if ok : bool then
            let '(e, delays, n) := serve_loop ctx errorHandler tempDelay l in (e, tempDelay :: delays, n)
          else (Some AShutdown, [tempDelay], 0%nat)
      | d => (Some d, [], 0%nat)
      end
  end.

(** ** One connection *)

Inductive hevent :=
| HvUpdateCancel | HvUpdateConnection (t : nat)
| HvCloseTransport (t : nat)             (* closeQuietly of a transport *)
| HvCloseConn                            (* closeQuietly of the serverConn *)
| HvCloseSSH                             (* closeQuietly of the gossh.ServerConn *)
| HvConnectionFailed                     (* ConnectionFailedCallback *)
| HvDispatched (w : list event)
| HvHandshake
| HvReserve (ok : bool) | HvRelease
| HvReleaseStartup | HvClearHandshakeDeadline
| HvServe
| HvDisconnect                           (* DisconnectCallback *)
| HvCloseResources | HvCloseWorkers
| HvCancel | HvUntrack.

(** The server's configuration and the answers of its environment. *)
Record handleEnv := mkHandleEnv {
  errorHandler : option ErrorHandler;
  RequireClientAuth : bool;
  ConnectionFailedCallback : option (error -> option error);
  DisconnectCallback : option (option error);
  dispatchCancelled : option (nat * option error); (* see dispatchError *)
  updateCancelOk : bool;                           (* scope.updateCancel *)
  updateProxyOk : bool;                            (* scope.updateConnection(proxyConn) *)
  updateCallbackOk : bool;                         (* scope.updateConnection(cbConn) *)
  causeOfClose : option error;                     (* scope.connectionCause *)
  ProxyProtocol : option (nat + error);            (* wrapProxyProtocolConn, where configured *)
  ConnCallback : option (option nat * option error);
  configError : option error;                      (* configForConnection *)
  hasClientAuth : bool;                            (* serverConfigHasClientAuth *)
  handshakeError : option error;                   (* gossh.NewServerConn *)
  callbackFailure : option error;                  (* callbackFailure.result() *)
  connectionLimit : bool }.                        (* connectionLimiter.reserve() *)

Section HandleConn.
Variable env : handleEnv.
Variable reportFailure : bool.

Definition connectionDefaultAction : defaultErrorAction :=
  if reportFailure then defaultClosingConnectionAndLogErrorAction else defaultClosingConnectionErrorAction.

(** The context before and after the handshake, which sets its close function. *)
Definition handshakeContext := mkDispatchContext false false true.
Definition connectionContext := mkDispatchContext true true true.

(** The function [fail]. *)
Definition fail_connection (err : error) : option error * list hevent :=
  let '(err, w) :=
    if reportFailure then
      match ConnectionFailedCallback env with
      | Some v => (errors_Join [Some err; v err], [HvConnectionFailed])
      | None => (Some err, [])
      end
    else (Some err, []) in
  let d := dispatchError handshakeContext (errorHandler env) ErrorScopeConnection ErrorOperationHandshake err None
             (Some connectionDefaultAction) (dispatchCancelled env) [] in
  (snd (d_result d), w ++ [HvDispatched (d_world d)]).

(** The deferred calls, last registered first; [conn], [reserved] and
    [disconnect] tell which of them have been registered. *)
Definition deferred (conn : bool) (reserved : option bool) (disconnect : bool) (tracked : bool)
    (result : option error) (w : list hevent) : option error * list hevent :=
  let '(result, tracked, w1) :=
    if disconnect then
      match DisconnectCallback env with
      | Some callbackErr =>
          let '(result, w) :=
            match callbackErr with
            | Some _ =>
                let d := dispatchError connectionContext (errorHandler env) ErrorScopeConnection
                           ErrorOperationHandle callbackErr None (Some connectionDefaultAction)
                           (dispatchCancelled env) [] in
                (errors_Join [result; snd (d_result d)], [HvDispatched (d_world d)])
            | None => (result, [])
            end in
          (result, false,
           [HvCancel; HvCloseSSH; HvDisconnect] ++ w ++ (if tracked : bool then [HvUntrack] else []))
      | None => (result, tracked, [])
      end
    else (result, tracked, []) in
  (result,
   w ++ w1 ++ match reserved with Some true => [HvRelease] | _ => [] end
     ++ (if conn : bool then [HvCloseConn] else []) ++ [HvCancel]
     ++ (if tracked : bool then [HvUntrack] else [])).

(** From the creation of the serverConn on. *)
Definition handle_ssh (w : list hevent) : option error * list hevent :=
  let failed (err : error) (w : list hevent) :=
    let '(result, w1) := fail_connection err in
    deferred true None false true result (w ++ [HvCloseConn] ++ w1) in
  match configError env with
  | Some err => failed err w
  | None =>
      if RequireClientAuth env && negb (hasClientAuth env)
      then failed ErrServerClientAuthRequired w
      else
        let w := w ++ [HvHandshake] in
        match handshakeError env with
        | Some err => failed (default err (callbackFailure env)) w
        | None =>
            let w := w ++ [HvReserve (connectionLimit env)] in
            if negb (connectionLimit env) then deferred true (Some false) true true None w
            else
              deferred true (Some true) true false None
                (w ++ [HvReleaseStartup; HvClearHandshakeDeadline; HvServe; HvCancel; HvCloseSSH;
                       HvCloseResources; HvUntrack; HvCloseWorkers])
        end
  end.

(** From the ConnCallback on, with the current transport. *)
Definition handle_callback (newConn : nat) (w : list hevent) : option error * list hevent :=
  match ConnCallback env with
  | None => handle_ssh w
  | Some (cbConn, Some err) =>
      let w := w ++ [HvCloseTransport (default newConn cbConn)] in
      let '(result, w1) := fail_connection err in deferred false None false true result (w ++ w1)
  | Some (None, None) => deferred false None false true None (w ++ [HvCloseTransport newConn])
  | Some (Some cbConn, None) =>
      let w := w ++ [HvUpdateConnection cbConn] in
      if updateCallbackOk env then handle_ssh w
      else deferred false None false true (causeOfClose env) (w ++ [HvCloseTransport cbConn])
  end.

Definition handleConn (newConn : nat) : option error * list hevent :=
  let w := [HvUpdateCancel] in
  if negb (updateCancelOk env)
  then deferred false None false true (causeOfClose env) (w ++ [HvCloseTransport newConn])
  else
    match ProxyProtocol env with
    | None => handle_callback newConn w
    | Some (inr err) =>
        let w := w ++ [HvCloseTransport newConn] in
        let '(result, w1) := fail_connection err in deferred false None false true result (w ++ w1)
    | Some (inl proxyConn) =>
        let w := w ++ [HvUpdateConnection proxyConn] in
        if updateProxyOk env then handle_callback proxyConn w
        else deferred false None false true (causeOfClose env) (w ++ [HvCloseTransport proxyConn])
    end.
End HandleConn.

(** ** Properties of the accept loop *)

(** A failed [Accept] is retried only if the error was dispatched to "can
    continue", was not caused by a closed listener and the context is alive;
    without an [ErrorHandler] exactly the temporary network errors that are not
    closing ones are; every other outcome ends the loop in a forced or graceful
    shutdown. *)
Theorem accept_error_policy ctx handler err db c da :
  let d := dispatchError ctx handler ErrorScopeServer ErrorOperationAccept (Some err) None
             (Some acceptErrorAction) c [] in
  (acceptFailed ctx handler err db c da = ARetry <->
     db = false /\ da = false /\ d_result d = (true, None) /\ isClosedError (Some err) = false) /\
  (handler = None -> db = false -> da = false ->
     acceptFailed ctx handler err db c da =
       match as_net_error (Some err) with
       | Some true => if isClosedError (Some err) then AForce err else ARetry
       | _ => AForceJoined err
       end).
Proof.
  intros d. unfold acceptFailed. fold d. split.
  - destruct db, da, (d_result d) as [[] [e|]], (isClosedError (Some err)); simpl; naive_solver.
  - intros -> -> ->. unfold d, dispatchError. destruct (resolveErrorLocation _ _ _) as [sc op].
    unfold acceptErrorAction. by destruct (as_net_error (Some err)) as [[]|], (isClosedError (Some err)).
Qed.

Lemma waitForRetry_bounds retry d : 0 <= d <= Second -> 0 < snd (waitForRetry retry d) <= Second.
Proof.
  unfold waitForRetry, Second, Millisecond. intros H. simpl.
  destruct (Z.eqb_spec d 0); repeat case_match; simpl; lia.
Qed.

Definition is_accepted (r : acceptResult) : bool := match r with Accepted => true | _ => false end.

(** The accept loop waits between 5 ms and 1 s before each retry, hands over
    every accepted connection while it runs, and ends only in a shutdown or a
    forced close. *)
Theorem serve_loop_sound ctx handler tempDelay l :
  0 <= tempDelay <= Second -> tempDelay = 0 \/ 5 * Millisecond <= tempDelay ->
  let '(e, delays, n) := serve_loop ctx handler tempDelay l in
  Forall (fun d => 5 * Millisecond <= d <= Second) delays /\
  e <> Some ARetry /\
  (e = None -> n = length (List.filter is_accepted l)) /\ (n <= length (List.filter is_accepted l))%nat.
Proof.
  revert tempDelay. induction l as [|[|err db c da retry] l IH]; intros t Ht Ht'; simpl.
  - split; [constructor|]. done.
  - specialize (IH 0 ltac:(unfold Second, Millisecond; lia) ltac:(by left)).
    destruct (serve_loop ctx handler 0 l) as [[e ds] n]. destruct IH as (H1 & H2 & H3 & H4).
    split; [done|]. split; [done|]. split; [intros H; by rewrite H3|lia].
  - destruct (acceptFailed ctx handler err db c da) eqn:E;
      try (split; [constructor|]; split; [congruence|]; split; [congruence|lia]).
    set (t' := if _ <? _ then _ else _).
    assert (Hb : 5 * Millisecond <= t' <= Second).
    { unfold t', Second, Millisecond in *. destruct (Z.eqb_spec t 0); repeat case_match; lia. }
    destruct retry.
    + specialize (IH t' ltac:(unfold Millisecond in *; lia) ltac:(right; apply Hb)).
      destruct (serve_loop ctx handler t' l) as [[e ds] n]. destruct IH as (H1 & H2 & H3 & H4).
      split; [by constructor|]. done.
    + split; [by constructor; [|constructor]|]. split; [done|]. split; [done|lia].
Qed.

Lemma serve_loop_sound_witness :
  let '(e, delays, n) := serve_loop (mkDispatchContext false false true) None 0
     [Accepted; AcceptFailed (ErrNetOp "accept" true None) false None false true;
      AcceptFailed (ErrNetOp "accept" true None) false None false true; Accepted;
      AcceptFailed io_EOF false None false true] in
  delays = [5 * Millisecond; 10 * Millisecond] /\ n = 2%nat /\ e <> Some ARetry.
Proof.
  pose proof (serve_loop_sound (mkDispatchContext false false true) None 0
     [Accepted; AcceptFailed (ErrNetOp "accept" true None) false None false true;
      AcceptFailed (ErrNetOp "accept" true None) false None false true; Accepted;
      AcceptFailed io_EOF false None false true] ltac:(by_decide) ltac:(by left)) as H.
  destruct (serve_loop _ _ _ _) as [[e ds] n] eqn:E. destruct H as (_ & H & _).
  vm_compute in E. simplify_eq. split; [reflexivity|]. split; [reflexivity|exact H].
Defined.

(** ** Properties of a connection *)

Definition count_events (f : hevent -> bool) (w : list hevent) : nat := length (List.filter f w).
Definition is_untrack (e : hevent) := match e with HvUntrack => true | _ => false end.
Definition is_reserved (e : hevent) := match e with HvReserve true => true | _ => false end.
Definition is_release (e : hevent) := match e with HvRelease => true | _ => false end.

(** The transport the scope knows last. *)
Definition current_transport (newConn : nat) (w : list hevent) : nat :=
  foldl (fun t e => match e with HvUpdateConnection t' => t' | _ => t end) newConn w.

Lemma count_events_app f w w' : count_events f (w ++ w') = (count_events f w + count_events f w')%nat.
Proof. unfold count_events. by rewrite List.filter_app, length_app. Qed.

(** [fail] reports and dispatches, and does nothing else. *)
Lemma fail_connection_events env rf err :
  exists w, snd (fail_connection env rf err) = w ++ [HvDispatched (d_world (dispatchError handshakeContext
      (errorHandler env) ErrorScopeConnection ErrorOperationHandshake
      (if rf then match ConnectionFailedCallback env with
                  | Some v => errors_Join [Some err; v err] | None => Some err end else Some err)
      None (Some (connectionDefaultAction rf)) (dispatchCancelled env) []))] /\
    (w = [] \/ w = [HvConnectionFailed]).
Proof. unfold fail_connection. destruct rf; [destruct (ConnectionFailedCallback env)|]; eexists; eauto. Qed.

(** What [fail] contributes to the traces: [HvConnectionFailed] and [HvDispatched]. *)
Definition is_failure (e : hevent) : bool :=
  match e with HvConnectionFailed | HvDispatched _ => true | _ => false end.

(** The paths of [handle_ssh]: the events before the deferred calls, and which
    of those are registered. *)
Inductive ssh_path (env : handleEnv) : list hevent -> option bool -> bool -> bool -> Prop :=
| path_failed w : forallb is_failure w = true -> ssh_path env (HvCloseConn :: w) None false true
| path_handshake_failed w :
    forallb is_failure w = true -> (RequireClientAuth env = true -> hasClientAuth env = true) ->
    ssh_path env (HvHandshake :: HvCloseConn :: w) None false true
| path_limited :
    (RequireClientAuth env = true -> hasClientAuth env = true) -> connectionLimit env = false ->
    ssh_path env [HvHandshake; HvReserve false] (Some false) true true
| path_served :
    (RequireClientAuth env = true -> hasClientAuth env = true) -> connectionLimit env = true ->
    handshakeError env = None ->
    ssh_path env [HvHandshake; HvReserve true; HvReleaseStartup; HvClearHandshakeDeadline; HvServe;
              HvCancel; HvCloseSSH; HvCloseResources; HvUntrack; HvCloseWorkers] (Some true) true false.

Lemma fail_failure env rf err : forallb is_failure (snd (fail_connection env rf err)) = true.
Proof. destruct (fail_connection_events env rf err) as (w & -> & [-> | ->]); done. Qed.

Lemma handle_ssh_path env rf w :
  exists w1 reserved disconnect tracked result,
    ssh_path env w1 reserved disconnect tracked /\
    handle_ssh env rf w = deferred env rf true reserved disconnect tracked result (w ++ w1).
Proof.
  unfold handle_ssh. destruct (configError env) as [err|].
  { pose proof (fail_failure env rf err). destruct (fail_connection env rf err) as [r w1].
    eexists _, _, _, _, _. split; [by apply path_failed|]. done. }
  destruct (RequireClientAuth env && negb (hasClientAuth env)) eqn:Hreq.
  { pose proof (fail_failure env rf ErrServerClientAuthRequired). destruct (fail_connection _ _ _) as [r w1].
    eexists _, _, _, _, _. split; [by apply path_failed|]. done. }
  assert (Ha : RequireClientAuth env = true -> hasClientAuth env = true).
  { intros E. rewrite E in Hreq. by destruct (hasClientAuth env). }
  destruct (handshakeError env) as [err|] eqn:Hh.
  { pose proof (fail_failure env rf (default err (callbackFailure env))).
    destruct (fail_connection _ _ _) as [r w1]. eexists _, _, _, _, _.
    split; [by apply path_handshake_failed|]. by rewrite <- !app_assoc. }
  destruct (connectionLimit env) eqn:Hl; simpl; eexists _, _, _, _, _;
    (split; [by constructor|]); by rewrite <- !app_assoc.
Qed.

(** The paths before the serverConn exists; [t] is the transport that is current. *)
Inductive early_path (env : handleEnv) : nat -> list hevent -> Prop :=
| path_closed t w : forallb is_failure w = true -> early_path env t (HvCloseTransport t :: w)
| path_callback t cb err w :
    forallb is_failure w = true -> ConnCallback env = Some (cb, Some err) ->
    early_path env t (HvCloseTransport (default t cb) :: w).

Definition updates (l : list nat) : list hevent := HvUpdateCancel :: map HvUpdateConnection l.

Lemma current_updates t l : current_transport t (updates l) = List.last l t.
Proof.
  unfold current_transport, updates. simpl. revert t. induction l as [|x l IH]; intros t; [done|].
  simpl. rewrite IH. destruct l as [|y l]; [done|].
  generalize (y :: l), (ltac:(done) : y :: l <> []). clear. intros m Hm.
  induction m as [|z m IH]; [done|]. destruct m; [done|]. simpl in *. by apply IH.
Qed.

(** Every path through [handleConn]: updates of the scope, then either an early
    return or the SSH part, with its deferred calls. *)
Definition path_of (env : handleEnv) (rf : bool) (t : nat) (res : option error * list hevent) : Prop :=
  exists l, (exists w result, early_path env (List.last l t) w /\
      res = deferred env rf false None false true result (updates l ++ w)) \/
    res = handle_ssh env rf (updates l).

Lemma path_early env rf t l result w :
  early_path env (List.last l t) w ->
  path_of env rf t (deferred env rf false None false true result (updates l ++ w)).
Proof. exists l. left. eauto. Qed.

Lemma updates_snoc l x : updates l ++ [HvUpdateConnection x] = updates (l ++ [x]).
Proof. unfold updates. by rewrite map_app. Qed.

Lemma handle_callback_paths env rf t l :
  path_of env rf t (handle_callback env rf (List.last l t) (updates l)).
Proof.
  unfold handle_callback. destruct (ConnCallback env) as [[[cb|] [err|]]|] eqn:Hcb.
  - pose proof (fail_failure env rf err). destruct (fail_connection env rf err) as [r w1].
    rewrite <- app_assoc. apply path_early. by eapply (path_callback _ _ (Some cb)).
  - rewrite updates_snoc. destruct (updateCallbackOk env); [exists (l ++ [cb]); by right|].
    apply path_early. rewrite List.last_last. by apply path_closed.
  - pose proof (fail_failure env rf err). destruct (fail_connection env rf err) as [r w1].
    rewrite <- app_assoc. apply path_early. by eapply (path_callback _ _ None).
  - apply path_early. by apply path_closed.
  - exists l. by right.
Qed.

Lemma handleConn_paths env rf t : path_of env rf t (handleConn env rf t).
Proof.
  unfold handleConn. change [HvUpdateCancel] with (updates []).
  destruct (updateCancelOk env); simpl negb; cbv iota; [|by apply path_early, path_closed].
  destruct (ProxyProtocol env) as [[x|err]|].
  - rewrite updates_snoc. destruct (updateProxyOk env); [exact (handle_callback_paths env rf t [x])|].
    by apply path_early, path_closed.
  - pose proof (fail_failure env rf err). destruct (fail_connection env rf err) as [r w1].
    rewrite <- app_assoc. by apply path_early, path_closed.
  - exact (handle_callback_paths env rf t []).
Qed.

Definition no_update (e : hevent) : bool := match e with HvUpdateConnection _ => false | _ => true end.

Lemma current_transport_app t w w' :
  forallb no_update w' = true -> current_transport t (w ++ w') = current_transport t w.
Proof.
  intros H. unfold current_transport. rewrite foldl_app. generalize (foldl (fun t e => match e with
    HvUpdateConnection t' => t' | _ => t end) t w). revert H.
  induction w' as [|e w' IH]; intros H u; [done|]. simpl in *. apply andb_true_iff in H as [He H].
  rewrite IH by done. by destruct e.
Qed.

(** The events of a path with its deferred calls. *)
Lemma deferred_world env rf conn reserved disconnect tracked result w :
  exists w1, snd (deferred env rf conn reserved disconnect tracked result w) = w ++ w1 /\
    count_events is_untrack w1 = (if tracked then 1 else 0)%nat /\
    count_events is_release w1 = match reserved with Some true => 1%nat | _ => 0%nat end /\
    count_events is_reserved w1 = 0%nat /\ HvCancel ∈ w1 /\ (HvServe ∉ w1) /\ (HvHandshake ∉ w1) /\
    (conn = true -> HvCloseConn ∈ w1) /\ forallb no_update w1 = true.
Proof.
  unfold deferred.
  destruct disconnect; [destruct (DisconnectCallback env) as [[e|]|]|];
    (eexists; split; [reflexivity|]);
    destruct reserved as [[]|], conn, tracked; simpl;
    (split; [done|]; split; [done|]; split; [done|];
     split; [set_solver|]; split; [set_solver|]; split; [set_solver|]; split; [set_solver|done]).
Qed.

Lemma count_failures f w :
  forallb is_failure w = true -> (forall e, is_failure e = true -> f e = false) -> count_events f w = 0%nat.
Proof.
  intros Hw Hf. unfold count_events. induction w as [|e w IH]; [done|]. simpl in *.
  apply andb_true_iff in Hw as [He Hw]. rewrite (Hf _ He). auto.
Qed.

Lemma failure_not_in e w : forallb is_failure w = true -> is_failure e = false -> e ∉ w.
Proof.
  intros Hw He Hin%list_elem_of_In. rewrite forallb_forall in Hw. specialize (Hw _ Hin). congruence.
Qed.

Lemma count_updates f l : (forall x, f (HvUpdateConnection x) = false) -> f HvUpdateCancel = false ->
  count_events f (updates l) = 0%nat.
Proof.
  intros Hf Hc. unfold count_events, updates. simpl. rewrite Hc.
  induction l as [|x l IH]; [done|]. simpl. by rewrite Hf.
Qed.

Lemma failure_no_update w : forallb is_failure w = true -> forallb no_update w = true.
Proof. rewrite !forallb_forall. intros H e He. specialize (H e He). by destruct e. Qed.

(** What the events before the deferred calls contain. *)
Lemma early_path_events env t w :
  early_path env t w ->
  count_events is_untrack w = 0%nat /\ count_events is_release w = 0%nat /\ count_events is_reserved w = 0%nat /\
  forallb no_update w = true /\ (HvServe ∉ w) /\ (HvHandshake ∉ w) /\
  exists t', HvCloseTransport t' ∈ w /\ (t' = t \/ exists err, ConnCallback env = Some (Some t', Some err)).
Proof.
  assert (Hgen : forall x w, forallb is_failure w = true ->
    count_events is_untrack (HvCloseTransport x :: w) = 0%nat /\
    count_events is_release (HvCloseTransport x :: w) = 0%nat /\
    count_events is_reserved (HvCloseTransport x :: w) = 0%nat /\
    forallb no_update (HvCloseTransport x :: w) = true /\
    (HvServe ∉ HvCloseTransport x :: w) /\ (HvHandshake ∉ HvCloseTransport x :: w)).
  { intros x v Hv. change (HvCloseTransport x :: v) with ([HvCloseTransport x] ++ v).
    rewrite !count_events_app, !(count_failures _ v Hv) by (by intros []).
    split; [done|]. split; [done|]. split; [done|]. split; [simpl; by apply failure_no_update|].
    split; rewrite elem_of_app; (intros [?|?]; [set_solver|]);
      (eapply failure_not_in; [exact Hv| |eassumption]); done. }
  intros [t0 v Hv|t0 cb err v Hv Hcb]; repeat (split; [by apply Hgen|]).
  - exists t0. split; [left|by left].
  - destruct cb as [cb|]; simpl; eexists; (split; [left|]); [right; eauto|by left].
Qed.

Lemma ssh_path_events env w reserved disconnect tracked :
  ssh_path env w reserved disconnect tracked ->
  (count_events is_untrack w + (if tracked then 1 else 0) = 1)%nat /\ count_events is_release w = 0%nat /\
  count_events is_reserved w = match reserved with Some true => 1%nat | _ => 0%nat end /\
  forallb no_update w = true /\
  (HvServe ∈ w -> connectionLimit env = true /\ handshakeError env = None) /\
  (HvServe ∈ w \/ HvHandshake ∈ w -> RequireClientAuth env = true -> hasClientAuth env = true).
Proof.
  assert (Hgen : forall x w, is_failure x = false -> forallb is_failure w = true ->
    is_untrack x = false -> is_release x = false -> is_reserved x = false ->
    count_events is_untrack (x :: w) = 0%nat /\ count_events is_release (x :: w) = 0%nat /\
    count_events is_reserved (x :: w) = 0%nat).
  { intros x v _ Hv H1 H2 H3. change (x :: v) with ([x] ++ v).
    rewrite !count_events_app, !(count_failures _ v Hv) by (by intros []).
    unfold count_events. simpl. by rewrite H1, H2, H3. }
  intros [v Hv|v Hv Ha|Ha Hl|Ha Hl Hh].
  - destruct (Hgen HvCloseConn v) as (E1 & E2 & E3); [done..|]. rewrite E1, E2, E3.
    repeat (split; [done || (simpl; by apply failure_no_update)|]).
    assert ((HvServe ∉ v) /\ (HvHandshake ∉ v)) by (split; by apply failure_not_in).
    split; [set_solver|set_solver].
  - destruct (Hgen HvCloseConn v) as (E1 & E2 & E3); [done..|].
    change (HvHandshake :: HvCloseConn :: v) with ([HvHandshake] ++ HvCloseConn :: v).
    rewrite !count_events_app, E1, E2, E3.
    repeat (split; [done || (simpl; by apply failure_no_update)|]).
    assert (HvServe ∉ v) by (by apply failure_not_in). split; [set_solver|done].
  - repeat (split; [done|]). split; [set_solver|done].
  - repeat (split; [done|]). done.
Qed.

(** Whatever callbacks, peer, configuration and handshake do, every path
    through [handleConn] untracks the connection exactly once, cancels its
    context, releases the slot of the connection limit exactly when it has got
    one, and closes the transport it holds last (or the one a failing
    ConnCallback has put in its place). *)
Theorem handle_conn_cleanup env rf t :
  let w := snd (handleConn env rf t) in
  count_events is_untrack w = 1%nat /\ HvCancel ∈ w /\
  count_events is_release w = count_events is_reserved w /\
  (HvCloseConn ∈ w \/ exists t', HvCloseTransport t' ∈ w /\
     (t' = current_transport t w \/ exists err, ConnCallback env = Some (Some t', Some err))).
Proof.
  intros w. unfold w. clear w. destruct (handleConn_paths env rf t) as [l [(w & result & Hp & ->)| ->]].
  - destruct (early_path_events _ _ _ Hp) as (E1 & E2 & E3 & E4 & _ & _ & Hc).
    destruct (deferred_world env rf false None false true result (updates l ++ w))
      as (w1 & -> & D1 & D2 & D3 & D4 & _ & _ & _ & D5).
    rewrite !count_events_app, !count_updates, E1, E2, E3, D1, D2, D3 by done.
    rewrite !current_transport_app, current_updates by done.
    split; [done|]. split; [set_solver|]. split; [done|]. right.
    destruct Hc as (t' & Hin & Ht). exists t'. split; [set_solver|done].
  - destruct (handle_ssh_path env rf (updates l)) as (w & re & di & tr & result & Hp & ->).
    destruct (ssh_path_events _ _ _ _ _ Hp) as (E1 & E2 & E3 & _).
    destruct (deferred_world env rf true re di tr result (updates l ++ w))
      as (w1 & -> & D1 & D2 & D3 & D4 & _ & _ & D5 & _).
    rewrite !count_events_app, !count_updates, E2, E3, D1, D2, D3 by done.
    split; [lia|]. split; [set_solver|]. split; [by destruct re as [[]|]|]. left. specialize (D5 eq_refl). set_solver.
Qed.

Lemma handle_gate env rf t :
  let w := snd (handleConn env rf t) in
  (HvServe ∈ w -> HvHandshake ∈ w /\ handshakeError env = None /\ connectionLimit env = true) /\
  (HvHandshake ∈ w -> RequireClientAuth env = true -> hasClientAuth env = true).
Proof.
  intros w. unfold w. clear w.
  assert (Hu : forall l, (HvServe ∉ updates l) /\ (HvHandshake ∉ updates l)).
  { intros l. unfold updates. split; rewrite elem_of_cons, list_elem_of_fmap; naive_solver. }
  destruct (handleConn_paths env rf t) as [l [(w & result & Hp & ->)| ->]]; destruct (Hu l) as [Hu1 Hu2].
  - destruct (early_path_events _ _ _ Hp) as (_ & _ & _ & _ & E5 & E6 & _).
    destruct (deferred_world env rf false None false true result (updates l ++ w))
      as (w1 & -> & _ & _ & _ & _ & D1 & D2 & _).
    rewrite !elem_of_app. split; tauto.
  - destruct (handle_ssh_path env rf (updates l)) as (w & re & di & tr & result & Hp & ->).
    destruct (ssh_path_events _ _ _ _ _ Hp) as (_ & _ & _ & _ & E1 & E2).
    destruct (deferred_world env rf true re di tr result (updates l ++ w))
      as (w1 & -> & _ & _ & _ & _ & D1 & D2 & _).
    rewrite !elem_of_app. split; [|tauto].
    intros Hs. assert (Hin : HvServe ∈ w) by tauto. split; [|split; apply E1; done].
    left. right. destruct Hp as [v Hv|v Hv|?|?]; [|by left|by left|by left].
    apply elem_of_cons in Hin as [Hin|Hin]; [done|]. by eapply failure_not_in in Hin.
Qed.


(** The SSH handshake, and with it any channel or request, is reached only
    with an effective client authentication method where the server requires
    one; channels and requests are served only after a successful handshake and
    within the connection limit. *)
Theorem handle_conn_gate env rf t :
  let w := snd (handleConn env rf t) in
  (HvServe ∈ w -> HvHandshake ∈ w /\ handshakeError env = None /\ connectionLimit env = true) /\
  (HvHandshake ∈ w -> RequireClientAuth env = true -> hasClientAuth env = true).
Proof. apply handle_gate. Qed.
