(* ===== verification/Request.v ===== *)
(** * Connection-level requests ([request.go] and [handleRequests] of [server.go])

    The [requestResponse] that a request handler completes, and the loop that
    handles one request after the other.  As for errors there are two views of
    the same critical sections: [handleRequests] runs handlers that work on
    their own goroutine, [rstep] interleaves any number of goroutines that call
    [Accept] and [Reject] with the loop. *)
From S2P Require Import Prelude GoErrors ErrorDispatch.

Definition ErrRequestResponseAlreadySent := ErrNew 50 "ssh: request response was already sent".
Definition ErrRequestResponseExpired := ErrNew 51 "ssh: request response is no longer valid".
Definition ErrRequestResponseIncomplete := ErrNew 52 "ssh: request response did not complete synchronously".
Definition ErrRequestResponseNotSent := ErrNew 53 "ssh: request handler returned without a response".

(** ** The response *)

Record requestResponse := mkRequestResponse {
  request : option bool;        (* WantReply of the raw request; None once released *)
  active : bool; rattempted : bool; rcomplete : bool; raccepted : bool;
  rerr : option error;
  done : bool;                  (* the channel is closed *)
  rpanicked : bool }.           (* it has been closed twice *)

Definition newRequestResponse (WantReply : bool) : requestResponse :=
  mkRequestResponse (Some WantReply) true false false false None false false.

(** [respond] up to the reply: its error, or whether a reply is to be sent. *)
Definition respond_begin (accepted requireActive : bool) (r : requestResponse)
    : requestResponse * (error + bool) :=
  if requireActive && negb (active r) then (r, inl ErrRequestResponseExpired)
  else if rattempted r || rcomplete r then (r, inl ErrRequestResponseAlreadySent)
  else (mkRequestResponse (request r) (active r) true (rcomplete r) accepted (rerr r) (done r) (rpanicked r),
        inr (match request r with Some want => want | None => false end)).

(** The section after the reply. *)
Definition respond_end (err : option error) (r : requestResponse) : requestResponse :=
  mkRequestResponse (request r) (active r) (rattempted r) true (raccepted r) err true (rpanicked r || done r).

Definition expire (r : requestResponse) : requestResponse :=
  mkRequestResponse (request r) false (rattempted r) (rcomplete r) (raccepted r) (rerr r) (done r) (rpanicked r).

Definition release (r : requestResponse) : requestResponse :=
  mkRequestResponse None false (rattempted r) (rcomplete r) (raccepted r) (rerr r) (done r) (rpanicked r).

Definition completeWithoutResponse (r : requestResponse) : requestResponse :=
  if negb (rattempted r) && negb (rcomplete r)
  then mkRequestResponse (request r) (active r) (rattempted r) true (raccepted r) (rerr r) true (rpanicked r || done r)
  else r.

Definition result (r : requestResponse) : bool * bool * bool * option error :=
  (rattempted r, rcomplete r, raccepted r, rerr r).

(** ** The loop

    The state a dispatch acts on: the response, the replies written to the
    peer and the events of the dispatch.  [reply] is what [gossh.Request.Reply]
    returns. *)
Inductive revent := RReply (accepted : bool) (payload : string) | RDispatch (e : event).

Record rworld := mkRWorld { response_of : requestResponse; revents : list revent }.

#[export] Instance rworld_world : World rworld.
Proof.
  refine {| emit l w := mkRWorld (response_of w) (revents w ++ map RDispatch l) |}.
  - intros [r l]. simpl. by rewrite app_nil_r.
  - intros l l' [r w]. simpl. by rewrite map_app, app_assoc.
Defined.

Section Loop.
Variable reply : bool -> string -> option error.
Variable ctx : dispatchContext.
Variable errorHandler : option ErrorHandler.

(** [requestResponse.respond]. *)
Definition request_respond (accepted : bool) (payload : string) (requireActive : bool) (w : rworld)
    : option error * rworld :=
  match respond_begin accepted requireActive (response_of w) with
  | (r, inl e) => (Some e, mkRWorld r (revents w))
  | (r, inr true) =>
      let err := match reply accepted payload with
                 | Some e => Some (locateError ErrorScopeRequest ErrorOperationReply e)
                 | None => None
                 end in
      (err, mkRWorld (respond_end err r) (revents w ++ [RReply accepted payload]))
  | (r, inr false) => (None, mkRWorld (respond_end None r) (revents w))
  end.

Definition Accept (payload : string) := request_respond true payload true.
Definition Reject (message : string) := request_respond false message true.

Definition rejectFromErrorHandler (message : string) (w : rworld) : option error * rworld :=
  let '(err, w) := request_respond false message false w in
  if errors_Is err (Some ErrRequestResponseAlreadySent) then (Some ErrErrorResponseUnsupported, w) else (err, w).

Definition on_response (f : requestResponse -> requestResponse) (w : rworld) : rworld :=
  mkRWorld (f (response_of w)) (revents w).

(** A request handler, as the calls it makes on its own goroutine. *)
Inductive requestProgram :=
| QReturn (err : option error)
| QAccept (payload : string) (k : option error -> requestProgram)
| QReject (message : string) (k : option error -> requestProgram).

Fixpoint run_request_handler (p : requestProgram) (w : rworld) : option error * rworld :=
  match p with
  | QReturn err => (err, w)
  | QAccept m k => let '(err, w) := Accept m w in run_request_handler (k err) w
  | QReject m k => let '(err, w) := Reject m w in run_request_handler (k err) w
  end.

(** The error response of a request, and the default action that uses it. *)
Definition requestErrorResponder (wantReply : bool) : ErrorResponder rworld :=
  fun message closeAfterResponse w =>
    let '(err, w) := if negb wantReply then (Some ErrErrorResponseUnsupported, w)
                     else rejectFromErrorHandler message w in
    (err, if closeAfterResponse : bool then emit (closeSSHConnection (Some ctx)) w else w).

(** What a default action of this package does after its response. *)
Definition respondedAction (ctx : option dispatchContext) (sc : ErrorScope) (op : ErrorOperation)
    (err : option error) (responseErr : option error) : actionProgram :=
  action_bind (defaultLogAndFailErrorAction ctx sc op err) (fun _ _ =>
    if bool_decide (responseErr <> None) &&
       negb (errors_Is responseErr (Some ErrErrorResponseUnsupported))
    then AReturn false responseErr else AReturn true None).

Definition requestDefaultAction : defaultErrorAction := fun ctx sc op err =>
  AResult (fun attempted responseErr =>
    if negb attempted then ASend "" false (respondedAction ctx sc op err)
    else respondedAction ctx sc op err responseErr).

Definition handleRequestReplyError (err : error) (w : rworld) : rworld :=
  let '(_, d) := dispatchErrorOrEscalate ctx errorHandler ErrorScopeRequest ErrorOperationReply (Some err)
                   None (Some defaultClosingConnectionAndLogErrorAction) None w in
  emit (closeSSHConnection (Some ctx)) (d_world d).

(** The end of an iteration, once the handler's error has been dispatched. *)
Definition finishRequest (handlerErr : option error) (canContinue wantReply : bool) (w : rworld) : bool * rworld :=
  let '(attempted, complete, _, responseErr) := result (response_of w) in
  let responseErr := if attempted && negb complete then Some ErrRequestResponseIncomplete else responseErr in
  match responseErr with
  | Some e =>
      let w := on_response release w in
      if bool_decide (handlerErr = None) || negb (errors_Is handlerErr responseErr)
      then (false, handleRequestReplyError e w)
      else (false, emit (closeSSHConnection (Some ctx)) w)
  | None =>
      let '(responseErr, w) :=
        if negb attempted then
          if wantReply then request_respond false "" false w
          else (None, on_response completeWithoutResponse w)
        else (None, w) in
      match responseErr with
      | Some e => (false, handleRequestReplyError e (on_response release w))
      | None =>
          let w := on_response release w in
          if negb canContinue then (false, emit (closeSSHConnection (Some ctx)) w) else (true, w)
      end
  end.

(** One iteration of [handleRequests]: whether the loop goes on. *)
Definition handleRequest (handler : option requestProgram) (wantReply : bool) (l : list revent)
    : bool * rworld :=
  let w := mkRWorld (newRequestResponse wantReply) l in
  match handler with
  | None =>
      let '(err, w) := request_respond false "" false w in
      let w := on_response release (on_response expire w) in
      match err with
      | Some e => (false, handleRequestReplyError e w)
      | None => (true, w)
      end
  | Some p =>
      let '(handlerErr, w) := run_request_handler p w in
      let w := on_response expire w in
      let attempted := rattempted (response_of w) in
      let handlerErr := if bool_decide (handlerErr = None) && negb attempted && wantReply
                        then Some (locateError ErrorScopeRequest ErrorOperationReply ErrRequestResponseNotSent)
                        else handlerErr in
      match handlerErr with
      | None => finishRequest None true wantReply w
      | Some e =>
          let d := dispatchError ctx errorHandler ErrorScopeRequest ErrorOperationHandle handlerErr
                     (Some (newErrorResponse (Some (requestErrorResponder wantReply))))
                     (Some requestDefaultAction) None w in
          match d_result d with
          | (_, Some dispatchErr) =>
              let '(sc, op) := resolveErrorLocation ErrorScopeRequest ErrorOperationHandle handlerErr in
              let w := emit (EvLogEscalate sc op dispatchErr e :: closeSSHConnection (Some ctx)) (d_world d) in
              (false, on_response release (on_response completeWithoutResponse w))
          | (canContinue, None) => finishRequest handlerErr canContinue wantReply (d_world d)
          end
      end
  end.

(** [handlers] gives the handler of a request type, or that of "default". *)
Fixpoint handleRequests (handlers : string -> option requestProgram) (reqs : list (string * bool))
    (l : list revent) : list revent :=
  match reqs with
  | [] => l
  | (t, wantReply) :: reqs =>
      let '(ok, w) := handleRequest (match handlers t with Some h => Some h | None => handlers "default" end)
                        wantReply l in
      if ok : bool then handleRequests handlers reqs (revents w) else revents w
  end.
End Loop.

(** ** One request, one reply *)

Definition is_reply (e : revent) : bool := match e with RReply _ _ => true | RDispatch _ => false end.
Definition replies (l : list revent) : nat := length (List.filter is_reply l).

Lemma replies_app l l' : replies (l ++ l') = (replies l + replies l')%nat.
Proof. unfold replies. by rewrite List.filter_app, length_app. Qed.

Lemma replies_dispatch l : replies (map RDispatch l) = 0%nat.
Proof. unfold replies. by induction l. Qed.

(** While a request is handled: its replies are those of its response, which
    has completed when it has been attempted. *)
Record rinv (want : bool) (n : nat) (w : rworld) : Prop := mkRInv {
  ri_request : request (response_of w) = Some want;
  ri_complete : rcomplete (response_of w) = rattempted (response_of w);
  ri_done : done (response_of w) = rcomplete (response_of w);
  ri_panicked : rpanicked (response_of w) = false;
  ri_err : rattempted (response_of w) = false -> rerr (response_of w) = None;
  ri_replies : replies (revents w) = (n + if want && rattempted (response_of w) then 1 else 0)%nat }.

Lemma rinv_emit want n l w : rinv want n w -> rinv want n (emit l w).
Proof. intros []; split; simpl; auto. by rewrite replies_app, replies_dispatch, Nat.add_0_r. Qed.

Lemma rinv_new want l : rinv want (replies l) (mkRWorld (newRequestResponse want) l).
Proof. split; simpl; auto. by rewrite andb_false_r, Nat.add_0_r. Qed.

Lemma rinv_expire want n w : rinv want n w -> rinv want n (on_response expire w).
Proof. by intros []; split. Qed.

Section RequestKeeps.
Variable reply : bool -> string -> option error.
Variable ctx : dispatchContext.
Variable want : bool.
Variable n : nat.

Lemma rinv_respond accepted payload ra w :
  rinv want n w -> rinv want n (snd (request_respond reply accepted payload ra w)).
Proof.
  intros [H1 H2 H3 H4 He H5]. unfold request_respond, respond_begin.
  destruct (ra && negb (active (response_of w))); [by split|].
  destruct (rattempted (response_of w)) eqn:Ha; simpl; [split; simpl; rewrite ?Ha; auto|].
  rewrite H2; simpl. rewrite H1. destruct want; split; simpl; rewrite ?H1, ?H3, ?H2, ?Ha, ?H4; try done; auto.
  rewrite replies_app, H5. simpl. unfold replies. simpl. lia.
Qed.

(** The loop's own answer always counts. *)
Lemma respond_attempts accepted payload w :
  rattempted (response_of w) = false -> rcomplete (response_of w) = false ->
  rattempted (response_of (snd (request_respond reply accepted payload false w))) = true.
Proof.
  intros Ha Hc. unfold request_respond, respond_begin. simpl. rewrite Ha, Hc. simpl.
  by destruct (match request (response_of w) with Some _ => _ | None => _ end).
Qed.

Lemma rinv_run_handler p w : rinv want n w -> rinv want n (snd (run_request_handler reply p w)).
Proof.
  revert w. induction p as [e|m k IH|m k IH]; intros w Hw; simpl; [done| |].
  - pose proof (rinv_respond true m true w Hw) as H. unfold Accept.
    destruct (request_respond reply true m true w) as [err w']. by apply IH.
  - pose proof (rinv_respond false m true w Hw) as H. unfold Reject.
    destruct (request_respond reply false m true w) as [err w']. by apply IH.
Qed.

Lemma rinv_responder : response_keeps (rinv want n)
  (newErrorResponse (Some (requestErrorResponder reply ctx want))).
Proof.
  intros f m c w Hf Hw. simpl in Hf. simplify_eq. unfold requestErrorResponder, rejectFromErrorHandler.
  pose proof (rinv_respond false m false w Hw) as H.
  destruct (request_respond reply false m false w) as [err w'].
  destruct want, (errors_Is err _), c; cbn -[emit]; auto using rinv_emit.
Qed.
End RequestKeeps.

(** What is left of a request that has been handled. *)
Record rfinal (want : bool) (n : nat) (w : rworld) : Prop := mkRFinal {
  rf_request : request (response_of w) = None;
  rf_done : done (response_of w) = true;
  rf_panicked : rpanicked (response_of w) = false;
  rf_replies : replies (revents w) = (n + if want && rattempted (response_of w) then 1 else 0)%nat }.

Lemma rfinal_emit want n l w : rfinal want n w -> rfinal want n (emit l w).
Proof. intros []; split; simpl; auto. by rewrite replies_app, replies_dispatch, Nat.add_0_r. Qed.

Lemma rfinal_release want n w :
  rinv want n w -> rattempted (response_of w) = true -> rfinal want n (on_response release w).
Proof. intros [] Ha. split; simpl; auto. congruence. Qed.

Lemma rfinal_complete want n w :
  rinv want n w -> rfinal want n (on_response release (on_response completeWithoutResponse w)).
Proof.
  intros [H1 H2 H3 H4 He H5]. unfold on_response, completeWithoutResponse. simpl.
  destruct (rattempted (response_of w)) eqn:Ha, (rcomplete (response_of w)) eqn:Hc; try done;
    split; simpl; rewrite ?Ha; try done. by rewrite H4, H3.
Qed.

Lemma rfinal_reply_error ctx eh e want n w : rfinal want n w -> rfinal want n (handleRequestReplyError ctx eh e w).
Proof.
  intros Hw. unfold handleRequestReplyError.
  pose proof (escalate_keeps (rfinal want n) (rfinal_emit want n) ctx eh ErrorScopeRequest ErrorOperationReply
    (Some e) None (Some defaultClosingConnectionAndLogErrorAction) None w ltac:(done) Hw) as H.
  destruct (dispatchErrorOrEscalate _ _ _ _ _ _ _ _ _) as [b d]. by apply rfinal_emit.
Qed.

(** The connection has been asked to close. *)
Definition closes (w : rworld) : Prop := RDispatch EvCloseConnection ∈ revents w.

Lemma closes_emit_close ctx w : hasCloseConnection ctx = true -> closes (emit (closeSSHConnection (Some ctx)) w).
Proof. intros H. unfold closes, closeSSHConnection. rewrite H. simpl. set_solver. Qed.

Lemma closes_reply_error ctx eh e w : hasCloseConnection ctx = true -> closes (handleRequestReplyError ctx eh e w).
Proof.
  intros H. unfold handleRequestReplyError. destruct (dispatchErrorOrEscalate _ _ _ _ _ _ _ _ _).
  by apply closes_emit_close.
Qed.

(** How an iteration may end: exactly one reply where one is wanted if the loop
    goes on, a closed connection if it does not. *)
Definition request_end (want : bool) (n : nat) (res : bool * rworld) : Prop :=
  rfinal want n (snd res) /\
  (fst res = true -> want = true -> replies (revents (snd res)) = S n) /\
  (fst res = false -> closes (snd res)).

Section RequestEnds.
Variable reply : bool -> string -> option error.
Variable ctx : dispatchContext.
Variable eh : option ErrorHandler.
Variable want : bool.
Variable n : nat.
Hypothesis has_close : hasCloseConnection ctx = true.

Lemma end_ok w : rfinal want n w -> (want = true -> rattempted (response_of w) = true) -> request_end want n (true, w).
Proof using Type.
  intros Hf Ha. split; [done|]. split; [|done]. intros _ E. simpl. rewrite (rf_replies _ _ _ Hf), Ha, E by done. simpl. lia.
Qed.

Lemma end_reply_error e w : rfinal want n w -> request_end want n (false, handleRequestReplyError ctx eh e w).
Proof using has_close. split; [by apply rfinal_reply_error|]. split; [done|]. intros _. by apply closes_reply_error. Qed.

Lemma end_close w : rfinal want n w -> request_end want n (false, emit (closeSSHConnection (Some ctx)) w).
Proof using has_close. split; [by apply rfinal_emit|]. split; [done|]. intros _. by apply closes_emit_close. Qed.

End RequestEnds.

Section Iteration.
Variable reply : bool -> string -> option error.
Variable ctx : dispatchContext.
Variable eh : option ErrorHandler.
Variable want : bool.
Variable n : nat.
Hypothesis has_close : hasCloseConnection ctx = true.

Lemma finishRequest_end handlerErr canContinue w :
  rinv want n w -> request_end want n (finishRequest reply ctx eh handlerErr canContinue want w).
Proof using has_close.
  intros Hw. assert (Hc := ri_complete _ _ _ Hw). unfold finishRequest, result.
  destruct (rattempted (response_of w)) eqn:Ha; rewrite Hc; cbn [andb negb].
  - destruct (rerr (response_of w)) as [e|] eqn:He.
    + destruct (_ || _); [apply end_reply_error|apply end_close]; try done; by apply rfinal_release.
    + destruct canContinue; [apply end_ok; [by apply rfinal_release|done]|apply end_close; [done|by apply rfinal_release]].
  - (* nothing has been sent yet *)
    rewrite (ri_err _ _ _ Hw Ha). destruct want.
    + pose proof (rinv_respond reply true n false "" false w Hw) as Hw'.
      pose proof (respond_attempts reply false "" w Ha Hc) as Ha'.
      destruct (request_respond reply false "" false w) as [[e|] w']; cbn [snd] in *;
        [apply end_reply_error|destruct canContinue; [apply end_ok|apply end_close]]; by try apply rfinal_release.
    + pose proof (rfinal_complete false n w Hw). destruct canContinue; [by apply end_ok|by apply end_close].
Qed.

End Iteration.

Lemma handleRequest_end reply ctx eh want handler l :
  hasCloseConnection ctx = true -> request_end want (replies l) (handleRequest reply ctx eh handler want l).
Proof.
  intros has_close. unfold handleRequest. pose proof (rinv_new want l) as H0. destruct handler as [p|].
  - pose proof (rinv_run_handler reply want (replies l) p _ H0) as H1.
    destruct (run_request_handler reply p _) as [herr w]. cbn [snd] in H1.
    apply rinv_expire in H1. set (w1 := on_response expire w) in *.
    destruct (if _ && _ && _ then _ else herr) as [e|]; [|by apply finishRequest_end].
    match goal with |- context [d_result ?d] =>
      assert (H2 : rinv want (replies l) (d_world d)); [|destruct (d_result d) as [c [de|]]; [|by apply finishRequest_end]] end.
    { apply dispatch_keeps; [apply rinv_emit| |done]. intros r Hr. simplify_eq. apply rinv_responder. }
    destruct (resolveErrorLocation _ _ _) as [sc op].
    apply (rinv_emit _ _ (EvLogEscalate sc op de e :: closeSSHConnection (Some ctx))) in H2.
    split; [by apply rfinal_complete|]. split; [done|]. intros _. unfold closes, on_response, closeSSHConnection.
    rewrite has_close. simpl. set_solver.
  - pose proof (rinv_respond reply want (replies l) false "" false _ H0) as H1.
    pose proof (respond_attempts reply false "" (mkRWorld (newRequestResponse want) l) eq_refl eq_refl) as Ha.
    destruct (request_respond reply false "" false _) as [[e|] w]; cbn [snd] in *; apply rinv_expire in H1;
      [apply end_reply_error|apply end_ok]; by try apply rfinal_release.
Qed.

(** C30. One iteration of [handleRequests], whatever the request handler and the
    [ErrorHandler] do: the peer gets exactly one reply if it wants one and none
    if it does not; only when the iteration ends the loop may the reply be
    missing, and then the connection is closed.  The response's channel has
    been closed exactly once and the request released. *)
Theorem request_replied_once reply ctx eh handler want l :
  hasCloseConnection ctx = true ->
  let '(ok, w) := handleRequest reply ctx eh handler want l in
  (if want then if ok then replies (revents w) = S (replies l)
                else replies l <= replies (revents w) <= S (replies l)
   else replies (revents w) = replies l)%nat /\
  (ok = false -> closes w) /\
  done (response_of w) = true /\ rpanicked (response_of w) = false /\ request (response_of w) = None.
Proof.
  intros Hc. destruct (handleRequest_end reply ctx eh want handler l Hc) as ([F1 F2 F3 F4] & H1 & H2).
  destruct (handleRequest reply ctx eh handler want l) as [ok w]. simpl in *.
  split; [|done]. destruct want; simpl in *; [|lia]. destruct ok; [by apply H1|]. case_match; lia.
Qed.

(** A handler that accepts and then fails; the error handler responds too late. *)
Definition sample_request_handler : requestProgram :=
  QAccept "payload" (fun _ => QReturn (Some io_EOF)).
Definition sample_request_errors : ErrorHandler := fun _ _ e => HRespond "denied" false (fun err => HReturn true None).

Lemma request_replied_once_witness :
  let '(ok, w) := handleRequest (fun _ _ => None) sample_context (Some sample_request_errors)
                    (Some sample_request_handler) true [] in
  ok = true /\ revents w = [RReply true "payload"] /\ replies (revents w) = 1%nat.
Proof.
  pose proof (request_replied_once (fun _ _ => None) sample_context (Some sample_request_errors)
                    (Some sample_request_handler) true [] eq_refl) as H.
  destruct (handleRequest _ _ _ _ _ _) as [ok w] eqn:E. destruct H as (H & _).
  vm_compute in E. simplify_eq. split; [reflexivity|]. split; [reflexivity|exact H].
Defined.

(** ** Concurrent completion

    Any number of goroutines call [Accept] and [Reject] ([requireActive]), the
    loop and the error handler answer without it; [qwriters] are the goroutines
    that went on to write the reply. *)
Inductive qcaller := QIdle (accepted requireActive : bool) | QActing | QDone (err : option error).

Record qsystem := mkQS {
  qresp : requestResponse; qcallers : list qcaller; qwriters : list nat }.

Definition qset (s : qsystem) (i : nat) (c : qcaller) (r : requestResponse) (ws : list nat) : qsystem :=
  mkQS r (<[i := c]> (qcallers s)) ws.

Inductive qstep : qsystem -> qsystem -> Prop :=
| q_refused s i acc ra r e :
    qcallers s !! i = Some (QIdle acc ra) -> respond_begin acc ra (qresp s) = (r, inl e) ->
    qstep s (qset s i (QDone (Some e)) r (qwriters s))
| q_begin s i acc ra r want :
    qcallers s !! i = Some (QIdle acc ra) -> respond_begin acc ra (qresp s) = (r, inr want) ->
    qstep s (qset s i QActing r (i :: qwriters s))
| q_end s i err :
    qcallers s !! i = Some QActing -> qstep s (qset s i (QDone err) (respond_end err (qresp s)) (qwriters s))
| q_expire s : qstep s (mkQS (expire (qresp s)) (qcallers s) (qwriters s))
| q_complete s : qstep s (mkQS (completeWithoutResponse (qresp s)) (qcallers s) (qwriters s))
| q_release s : qstep s (mkQS (release (qresp s)) (qcallers s) (qwriters s)).

Definition qstart (c : qcaller) : Prop := exists acc ra, c = QIdle acc ra.
Definition qinitial (want : bool) (cs : list qcaller) : qsystem := mkQS (newRequestResponse want) cs [].

Inductive qreachable (want : bool) (cs : list qcaller) : qsystem -> Prop :=
| qr_init : qreachable want cs (qinitial want cs)
| qr_step s s' : qreachable want cs s -> qstep s s' -> qreachable want cs s'.

Record qinv (s : qsystem) : Prop := mkQInv {
  qi_acting : forall i, qcallers s !! i = Some QActing ->
    qwriters s = [i] /\ rcomplete (qresp s) = false /\ rattempted (qresp s) = true;
  qi_writers : qwriters s = [] /\ rattempted (qresp s) = false \/
               (exists i, qwriters s = [i]) /\ rattempted (qresp s) = true;
  qi_settled : rattempted (qresp s) = true -> rcomplete (qresp s) = false ->
    exists i, qcallers s !! i = Some QActing;
  qi_done : done (qresp s) = rcomplete (qresp s);
  qi_panicked : rpanicked (qresp s) = false }.

Lemma respond_begin_ok acc ra r r' want :
  respond_begin acc ra r = (r', inr want) ->
  rattempted r = false /\ rcomplete r = false /\ (ra = true -> active r = true) /\
  r' = mkRequestResponse (request r) (active r) true (rcomplete r) acc (rerr r) (done r) (rpanicked r).
Proof.
  unfold respond_begin. destruct (ra && negb (active r)) eqn:E1; [done|].
  destruct (rattempted r) eqn:E2, (rcomplete r) eqn:E3; simpl; intros; simplify_eq.
  split; [done|]. split; [done|]. split; [|done]. intros ->. by destruct (active r).
Qed.

Lemma respond_begin_refused acc ra r r' e :
  respond_begin acc ra r = (r', inl e) -> r' = r /\ e ∈ [ErrRequestResponseExpired; ErrRequestResponseAlreadySent].
Proof. unfold respond_begin. repeat case_match; intros; simplify_eq; set_solver. Qed.

Lemma qinv_step s s' : qinv s -> qstep s s' -> qinv s'.
Proof.
  intros [Ha Hw Hs Hd Hp] Hst.
  destruct Hst as [s i acc ra r e Hi Hb|s i acc ra r want Hi Hb|s i err Hi|s|s|s]; simpl in *.
  - destruct (respond_begin_refused _ _ _ _ _ Hb) as [-> _]. split; simpl; auto.
    + intros j Hj. apply list_lookup_insert_Some in Hj as [(_ & ? & _)|[_ Hj]]; [done|auto].
    + intros H1 H2. destruct (Hs H1 H2) as [j Hj]. exists j. rewrite list_lookup_insert_ne; [done|]. congruence.
  - destruct (respond_begin_ok _ _ _ _ _ Hb) as (Hat & Hco & _ & ->).
    assert (Hnil : qwriters s = []) by (destruct Hw as [[? _]|[_ ?]]; [done|congruence]).
    split; simpl; rewrite ?Hnil; auto.
    + intros j Hj. apply list_lookup_insert_Some in Hj as [(<- & _ & _)|[_ Hj]]; [auto|].
      destruct (Ha _ Hj) as (Hn & _). congruence.
    + right. eauto.
    + intros _ _. exists i. apply list_lookup_insert_eq. by apply (lookup_lt_Some _ _ _ Hi).
  - destruct (Ha _ Hi) as (Hwi & Hco & Hat). split; simpl; auto.
    + intros j Hj. apply list_lookup_insert_Some in Hj as [(_ & ? & _)|[Hne Hj]]; [done|].
      destruct (Ha _ Hj). congruence.
    + congruence.
    + by rewrite Hp, Hd, Hco.
  - by split.
  - unfold completeWithoutResponse. destruct (rattempted (qresp s)) eqn:Hat; simpl; [by split; simpl; rewrite ?Hat|].
    destruct (rcomplete (qresp s)) eqn:Hco; simpl; [split; simpl; rewrite ?Hat, ?Hco; auto|].
    split; simpl; rewrite ?Hat; auto; [|by rewrite Hp, Hd].
    intros j Hj. destruct (Ha _ Hj) as (_ & _ & ?). congruence.
  - by split.
Qed.

Lemma qinv_reachable want cs s : Forall qstart cs -> qreachable want cs s -> qinv s.
Proof.
  intros Hcs. induction 1 as [|s s' _ IH Hst]; [|by eapply qinv_step].
  split; simpl; auto; [|done]. intros i Hi. destruct (Forall_lookup_1 _ _ _ _ Hcs Hi) as (? & ? & ?). done.
Qed.

(** However the goroutines that hold a response and the loop interleave, at
    most one of them writes a reply, the channel is never closed twice, every
    attempt ends up with the channel closed once nobody is writing, and after
    the handler has returned no [Accept] or [Reject] of its goroutines can
    begin any more. *)
Theorem request_response_once want cs s :
  Forall qstart cs -> qreachable want cs s ->
  (length (qwriters s) <= 1)%nat /\ rpanicked (qresp s) = false /\
  (rattempted (qresp s) = true -> ~ (exists i, qcallers s !! i = Some QActing) -> done (qresp s) = true) /\
  (active (qresp s) = false -> forall acc r want', respond_begin acc true (qresp s) <> (r, inr want')).
Proof.
  intros Hcs Hr. destruct (qinv_reachable _ _ _ Hcs Hr) as [Ha Hw Hs Hd Hp].
  split; [destruct Hw as [[-> _]|[[i ->] _]]; simpl; lia|]. split; [done|]. split.
  - intros Hat Hno. rewrite Hd. destruct (rcomplete (qresp s)); [done|]. destruct Hno. auto.
  - intros Hact acc r want' Hb. apply respond_begin_ok in Hb as (_ & _ & H & _). rewrite Hact in H. by specialize (H eq_refl).
Qed.

Lemma request_response_once_witness :
  let s := mkQS (mkRequestResponse (Some true) false true true true None true false)
             [QDone None; QDone (Some ErrRequestResponseAlreadySent)] [0%nat] in
  qreachable true [QIdle true true; QIdle false true] s /\ (length (qwriters s) <= 1)%nat.
Proof.
  intros s. assert (H : qreachable true [QIdle true true; QIdle false true] s).
  { pose proof (qr_init true [QIdle true true; QIdle false true]) as H.
    eapply qr_step in H; [|by eapply (q_begin _ 0%nat)].
    eapply qr_step in H; [|by eapply (q_refused _ 1%nat)].
    eapply qr_step in H; [|by eapply (q_end _ 0%nat None)].
    eapply qr_step in H; [|by eapply q_expire].
    exact H. }
  split; [exact H|].
  apply (request_response_once true [QIdle true true; QIdle false true]); [|exact H].
  repeat (apply Forall_cons_2; [by eexists _, _|]). constructor.
Defined.
