(* ===== verification/Channel.v ===== *)
(** * Channels ([server.go])

    The answer to a channel open request ([trackedNewChannel]), the goroutine
    that runs the handler of one channel and deals with its error, and the loop
    that hands channels to handlers under the limits on channels and sessions. *)
From S2P Require Import Prelude GoErrors Settings Limiter ErrorDispatch Request.
Local Open Scope Z_scope.

Definition ErrChannelResponseAlreadySent := ErrNew 70 "ssh: channel response was already sent".
Definition ErrChannelResponseNotSent :=
  ErrNew 71 "ssh: channel handler returned without accepting or rejecting the channel".

(** ** [trackedNewChannel] *)

(** [accepted]: the channel that has been accepted and is to be closed. *)
Record trackedNewChannel := mkTracked {
  answerAttempted : bool; answerComplete : bool; answerErr : option error; accepted : bool }.
Definition newTracked : trackedNewChannel := mkTracked false false None false.

Definition beginAnswer (c : trackedNewChannel) : bool * trackedNewChannel :=
  if answerAttempted c then (false, c)
  else (true, mkTracked true (answerComplete c) (answerErr c) (accepted c)).

Definition completeAnswer (err : option error) (c : trackedNewChannel) : trackedNewChannel :=
  mkTracked (answerAttempted c) true err (accepted c).

Definition completeAccept (err : option error) (c : trackedNewChannel) : trackedNewChannel :=
  mkTracked (answerAttempted c) true err (if bool_decide (err = None) then true else accepted c).

(** The critical section of [closeAccepted]: whether there is a channel to close. *)
Definition takeAccepted (c : trackedNewChannel) : bool * trackedNewChannel :=
  (accepted c, mkTracked (answerAttempted c) (answerComplete c) (answerErr c) false).

Definition answerResult (c : trackedNewChannel) : bool * option error :=
  if answerAttempted c && negb (answerComplete c) then (true, Some errErrorResponseIncomplete)
  else (answerAttempted c, answerErr c).

(** ** One channel *)

Inductive rejectionReason := Prohibited | ConnectionFailed | UnknownChannelType | ResourceShortage | OtherReason (n : Z).

Inductive chevent :=
| ChAccept                                              (* NewChannel.Accept *)
| ChReject (reason : rejectionReason) (message : string)  (* NewChannel.Reject *)
| ChCloseAccepted                                       (* the accepted channel is closed *)
| ChCloseConn                                           (* closeQuietly(sshConn) *)
| ChDispatch (e : event).

Record chworld := mkChWorld { tracked : trackedNewChannel; chevents : list chevent }.

#[export] Instance chworld_world : World chworld.
Proof.
  refine {| emit l w := mkChWorld (tracked w) (chevents w ++ map ChDispatch l) |}.
  - intros [t l]. simpl. by rewrite app_nil_r.
  - intros l l' [t w]. simpl. by rewrite map_app, app_assoc.
Defined.

(** A channel handler, as the calls it makes on its own goroutine. *)
Inductive channelProgram :=
| CReturn (err : option error)
| CAccept (k : option error -> channelProgram)
| CReject (reason : rejectionReason) (message : string) (k : option error -> channelProgram).

Definition closeConn (w : chworld) : chworld := mkChWorld (tracked w) (chevents w ++ [ChCloseConn]).

Section Channel.
Variable acceptErr rejectErr : option error.      (* what NewChannel.Accept and Reject return *)
Variable ctx : dispatchContext.
Variable errorHandler : option ErrorHandler.

Definition locate_answer (operation : ErrorOperation) (err : option error) : option error :=
  match err with Some e => Some (locateError ErrorScopeChannel operation e) | None => None end.

Definition channel_Accept (w : chworld) : option error * chworld :=
  let '(ok, c) := beginAnswer (tracked w) in
  if negb ok then (Some ErrChannelResponseAlreadySent, mkChWorld c (chevents w))
  else
    let err := locate_answer ErrorOperationAccept acceptErr in
    (err, mkChWorld (completeAccept err c) (chevents w ++ [ChAccept])).

Definition channel_Reject (reason : rejectionReason) (message : string) (w : chworld) : option error * chworld :=
  let '(ok, c) := beginAnswer (tracked w) in
  if negb ok then (Some ErrChannelResponseAlreadySent, mkChWorld c (chevents w))
  else
    let err := locate_answer ErrorOperationReply rejectErr in
    (err, mkChWorld (completeAnswer err c) (chevents w ++ [ChReject reason message])).

(** [trackedNewChannel.respondToError], and [rejectUnhandledError] without its result. *)
Definition channel_respondToError (message : string) (w : chworld) : option error * chworld :=
  let '(ok, c) := beginAnswer (tracked w) in
  if negb ok then (Some ErrErrorResponseUnsupported, mkChWorld c (chevents w))
  else (rejectErr, mkChWorld (completeAnswer rejectErr c) (chevents w ++ [ChReject ConnectionFailed message])).

Definition rejectUnhandledError (w : chworld) : chworld := snd (channel_respondToError "connection failed" w).

Definition closeAccepted (w : chworld) : chworld :=
  let '(is_accepted, c) := takeAccepted (tracked w) in
  mkChWorld c (if is_accepted then chevents w ++ [ChCloseAccepted] else chevents w).

Fixpoint run_channel_handler (p : channelProgram) (w : chworld) : option error * chworld :=
  match p with
  | CReturn err => (err, w)
  | CAccept k => let '(err, w) := channel_Accept w in run_channel_handler (k err) w
  | CReject reason message k => let '(err, w) := channel_Reject reason message w in run_channel_handler (k err) w
  end.

Definition channelErrorResponder : ErrorResponder chworld := fun message closeAfterResponse w =>
  let '(err, w) := channel_respondToError message w in
  (err, if closeAfterResponse : bool then closeConn w else w).

Definition channelDefaultAction : defaultErrorAction := fun ctx sc op err =>
  AResult (fun attempted responseErr =>
    if negb attempted then ASend "connection failed" false (respondedAction ctx sc op err)
    else respondedAction ctx sc op err responseErr).

(** The report of an answer that failed on the wire. *)
Definition reportAnswer (err : error) (w : chworld) : chworld :=
  d_world (snd (dispatchErrorOrEscalate ctx errorHandler ErrorScopeChannel ErrorOperationReply (Some err)
    None (Some defaultLogAndFailErrorAction) None w)).

(** The end of the worker, when the handler has returned an error. *)
Definition channelError (handlerErr : error) (w : chworld) : chworld :=
  let d := dispatchError ctx errorHandler ErrorScopeChannel ErrorOperationHandle (Some handlerErr)
             (Some (newErrorResponse (Some channelErrorResponder))) (Some channelDefaultAction) None w in
  let '(canContinue, dispatchErr) := d_result d in
  let '(attempted, responseErr) := response_result (d_response d) in
  let w := d_world d in
  let w := if negb attempted then rejectUnhandledError w else w in
  match snd (answerResult (tracked w)), dispatchErr with
  | Some e, _ =>
      let w :=
        if bool_decide (dispatchErr <> None) && errors_Is dispatchErr (Some e) then
          let '(sc, op) := resolveErrorLocation ErrorScopeChannel ErrorOperationReply (Some e) in
          match dispatchErr with
          | Some de => emit [EvLogEscalate sc op de handlerErr] w
          | None => w
          end
        else if negb (errors_Is (Some handlerErr) (Some e)) then reportAnswer e w else w in
      closeConn w
  | None, Some de => closeConn (emit [EvLogEscalate ErrorScopeChannel ErrorOperationHandle de handlerErr] w)
  | None, None =>
      match responseErr with
      | Some re =>
          if negb (errors_Is responseErr (Some ErrErrorResponseUnsupported))
          then closeConn (emit [EvLogEscalate ErrorScopeChannel ErrorOperationReply re handlerErr] w)
          else if negb canContinue then closeConn w else w
      | None => if negb canContinue then closeConn w else w
      end
  end.

(** The goroutine of one channel, up to the release of its slots. *)
Definition handleChannel (handler : channelProgram) : chworld :=
  let '(handlerErr, w) := run_channel_handler handler (mkChWorld newTracked []) in
  let '(attempted, answerErr) := answerResult (tracked w) in
  let handlerErr := if bool_decide (handlerErr = None) && negb attempted
                    then Some (locateError ErrorScopeChannel ErrorOperationReply ErrChannelResponseNotSent)
                    else handlerErr in
  closeAccepted
    match handlerErr, answerErr with
    | None, Some e => closeConn (reportAnswer e w)
    | None, None => w
    | Some e, _ => channelError e w
    end.
End Channel.

(** ** One channel, one answer *)

Definition is_answer (e : chevent) : bool := match e with ChAccept | ChReject _ _ => true | _ => false end.
Definition is_accept (e : chevent) : bool := match e with ChAccept => true | _ => false end.
Definition is_close (e : chevent) : bool := match e with ChCloseAccepted => true | _ => false end.
Definition answers (l : list chevent) : nat := length (List.filter is_answer l).
Definition accepts (l : list chevent) : nat := length (List.filter is_accept l).
Definition closes (l : list chevent) : nat := length (List.filter is_close l).

Lemma count_app (f : chevent -> bool) l l' :
  length (List.filter f (l ++ l')) = (length (List.filter f l) + length (List.filter f l'))%nat.
Proof. by rewrite List.filter_app, length_app. Qed.

Lemma count_dispatch (f : chevent -> bool) l :
  (forall e, f (ChDispatch e) = false) -> length (List.filter f (map ChDispatch l)) = 0%nat.
Proof. intros Hf. induction l as [|e l IH]; simpl; [done|]. by rewrite Hf. Qed.

Section Answers.
Variable acceptErr rejectErr : option error.
Variable ctx : dispatchContext.
Variable eh : option ErrorHandler.

(** The channel has been accepted, and [Accept] returned no error. *)
Definition open_channel (l : list chevent) : bool := bool_decide (acceptErr = None) && (0 <? accepts l)%nat.

Record chinv (w : chworld) : Prop := mkChInv {
  ci_complete : answerComplete (tracked w) = answerAttempted (tracked w);
  ci_answers : answers (chevents w) = if answerAttempted (tracked w) then 1%nat else 0%nat;
  ci_accepted : accepted (tracked w) = open_channel (chevents w);
  ci_closes : closes (chevents w) = 0%nat;
  ci_err : answerAttempted (tracked w) = false -> answerErr (tracked w) = None }.

Lemma chinv_new : chinv (mkChWorld newTracked []).
Proof. split; try done. unfold open_channel. by rewrite andb_false_r. Qed.

Lemma chinv_events t l l' :
  chinv (mkChWorld t l) -> answers l' = 0%nat -> accepts l' = 0%nat -> closes l' = 0%nat -> chinv (mkChWorld t (l ++ l')).
Proof.
  intros [H1 H2 H3 H4 H5] Ha Hc Hx. cbn [tracked chevents] in *. split; cbn [tracked chevents]; try done.
  - unfold answers in *. rewrite count_app. lia.
  - rewrite H3. unfold open_channel, accepts in *. by rewrite count_app, Hc, Nat.add_0_r.
  - unfold closes in *. rewrite count_app. lia.
Qed.

Lemma chinv_emit l w : chinv w -> chinv (emit l w).
Proof. destruct w as [t w]. intros H. simpl. apply chinv_events; try done; by apply count_dispatch. Qed.

Lemma chinv_closeConn w : chinv w -> chinv (closeConn w).
Proof. destruct w as [t w]. intros H. by apply chinv_events. Qed.

(** An answer, if none has begun. *)
Lemma chinv_answer t l err e :
  chinv (mkChWorld t l) -> answerAttempted t = false -> is_answer e = true -> is_close e = false ->
  (is_accept e = true -> bool_decide (err = None) = bool_decide (acceptErr = None)) ->
  chinv (mkChWorld (mkTracked true true err (if is_accept e && bool_decide (err = None) then true else accepted t)) (l ++ [e])).
Proof.
  intros [H1 H2 H3 H4 H5] Ha He Hc Herr. simpl in *. rewrite Ha in H2. split; simpl; try done.
  - unfold answers in *. rewrite count_app, H2. simpl. by rewrite He.
  - assert (Hz : accepts l = 0%nat).
    { assert (accepts l <= answers l)%nat; [|lia]. clear. unfold accepts, answers. induction l as [|x l IH]; [done|].
      simpl. destruct x; simpl; lia. }
    rewrite H3. unfold open_channel. unfold accepts in *. rewrite count_app, Hz. simpl.
    destruct (is_accept e); simpl; [rewrite Herr by done|]; by destruct (bool_decide (acceptErr = None)).
  - unfold closes in *. rewrite count_app, H4. simpl. by rewrite Hc.
Qed.

Lemma locate_none op err : bool_decide (locate_answer op err = None) = bool_decide (err = None).
Proof. by destruct err. Qed.

Lemma chinv_accept w : chinv w -> chinv (snd (channel_Accept acceptErr w)).
Proof.
  destruct w as [t l]. intros H. unfold channel_Accept, beginAnswer. simpl.
  destruct (answerAttempted t) eqn:Ha; [done|]. simpl. unfold completeAccept. simpl.
  apply (chinv_answer t l (locate_answer ErrorOperationAccept acceptErr) ChAccept); try done.
  intros _. apply locate_none.
Qed.

Lemma chinv_reject reason message w : chinv w -> chinv (snd (channel_Reject rejectErr reason message w)).
Proof.
  destruct w as [t l]. intros H. unfold channel_Reject, beginAnswer. simpl.
  destruct (answerAttempted t) eqn:Ha; [done|]. simpl.
  by apply (chinv_answer t l (locate_answer ErrorOperationReply rejectErr) (ChReject reason message)).
Qed.

Lemma chinv_respond message w : chinv w -> chinv (snd (channel_respondToError rejectErr message w)).
Proof.
  destruct w as [t l]. intros H. unfold channel_respondToError, beginAnswer. simpl.
  destruct (answerAttempted t) eqn:Ha; [done|]. simpl.
  by apply (chinv_answer t l rejectErr (ChReject ConnectionFailed message)).
Qed.

Lemma answer_attempts message w : answerAttempted (tracked (snd (channel_respondToError rejectErr message w))) = true.
Proof. unfold channel_respondToError, beginAnswer. by destruct (answerAttempted (tracked w)) eqn:Ha. Qed.

Lemma chinv_run p w : chinv w -> chinv (snd (run_channel_handler acceptErr rejectErr p w)).
Proof.
  revert w. induction p as [e|k IH|reason m k IH]; intros w Hw; simpl; [done| |].
  - pose proof (chinv_accept w Hw) as H. destruct (channel_Accept acceptErr w). by apply IH.
  - pose proof (chinv_reject reason m w Hw) as H. destruct (channel_Reject rejectErr reason m w). by apply IH.
Qed.

Lemma chinv_responder : response_keeps chinv (newErrorResponse (Some (channelErrorResponder rejectErr))).
Proof.
  intros f m c w Hf Hw. simpl in Hf. simplify_eq. unfold channelErrorResponder.
  pose proof (chinv_respond m w Hw) as H. destruct (channel_respondToError rejectErr m w) as [err w'].
  destruct c; [by apply chinv_closeConn|done].
Qed.

Lemma chinv_report e w : chinv w -> chinv (reportAnswer ctx eh e w).
Proof. intros H. apply (escalate_keeps chinv); [apply chinv_emit|done|done]. Qed.

Definition attempted_answer (w : chworld) : Prop := answerAttempted (tracked w) = true.

Lemma report_attempted e w : attempted_answer w -> attempted_answer (reportAnswer ctx eh e w).
Proof. intros H. by apply (escalate_keeps attempted_answer). Qed.

(** The worker after its error: answered, and an answer that failed has closed
    the connection. *)
Record chend (w : chworld) : Prop := mkChEnd {
  ce_inv : chinv w;
  ce_attempted : attempted_answer w;
  ce_failed : answerErr (tracked w) <> None -> ChCloseConn ∈ chevents w }.

Lemma chend_closeConn w : chinv w -> attempted_answer w -> chend (closeConn w).
Proof. intros Hi Ha. split; [by apply chinv_closeConn|done|]. intros _. simpl. set_solver. Qed.

Lemma channelError_end handlerErr w : chinv w -> chend (channelError rejectErr ctx eh handlerErr w).
Proof.
  intros Hw. unfold channelError. set (d := dispatchError _ _ _ _ _ _ _ _ _).
  assert (Hd : chinv (d_world d)).
  { apply dispatch_keeps; [apply chinv_emit| |done]. intros r Hr. simplify_eq. apply chinv_responder. }
  assert (Ha : attempted (d_response d) = true -> attempted_answer (d_world d)).
  { apply (dispatch_attempted attempted_answer); [done|]. intros m c v. unfold channelErrorResponder.
    pose proof (answer_attempts m v) as H. destruct (channel_respondToError rejectErr m v). by destruct c. }
  clearbody d. destruct (d_result d) as [cc de].
  assert (Hr : fst (response_result (d_response d)) = attempted (d_response d))
    by (unfold response_result; by destruct (attempted (d_response d)), (resp_complete (d_response d))).
  destruct (response_result (d_response d)) as [att re]. simpl in Hr. subst att.
  set (w1 := if negb (attempted (d_response d)) then rejectUnhandledError rejectErr (d_world d) else d_world d).
  assert (chinv w1 /\ attempted_answer w1) as [Hi1 Ha1].
  { subst w1. destruct (attempted (d_response d)); [by auto|]. split; [by apply chinv_respond|apply answer_attempts]. }
  clearbody w1. unfold answerResult. rewrite (ci_complete _ Hi1). rewrite Ha1. simpl.
  destruct (answerErr (tracked w1)) as [ae|] eqn:He.
  - apply chend_closeConn.
    + repeat case_match; auto using chinv_report; exact (chinv_emit [_] w1 Hi1).
    + repeat case_match; auto using report_attempted.
  - destruct de as [de|]; [apply chend_closeConn; [exact (chinv_emit [_] w1 Hi1)|done]|].
    assert (Hdone : chend w1) by (split; [done|done|by rewrite He]).
    destruct re as [re|]; [destruct (negb (errors_Is _ _))|]; [apply chend_closeConn; [exact (chinv_emit [_] w1 Hi1)|done]|..];
      (destruct cc; simpl; [done|by apply chend_closeConn]).
Qed.
End Answers.

(** C17. The goroutine of a channel answers the peer exactly once, whatever its
    handler and the [ErrorHandler] do; a channel that was opened is closed
    exactly once, by the last thing the goroutine does, and no other is; and if
    the answer failed on the wire the connection is closed. *)
Theorem channel_answered_once acceptErr rejectErr ctx eh handler :
  let w := handleChannel acceptErr rejectErr ctx eh handler in
  answers (chevents w) = 1%nat /\
  (if open_channel acceptErr (chevents w)
   then exists l, chevents w = l ++ [ChCloseAccepted] /\ closes l = 0%nat
   else closes (chevents w) = 0%nat) /\
  (answerErr (tracked w) <> None -> ChCloseConn ∈ chevents w).
Proof.
  unfold handleChannel.
  pose proof (chinv_run acceptErr rejectErr handler _ (chinv_new acceptErr)) as H0.
  destruct (run_channel_handler acceptErr rejectErr handler _) as [herr w]. cbn [snd] in H0.
  destruct (answerResult (tracked w)) as [att aerr] eqn:Hres.
  assert (att = answerAttempted (tracked w) /\ aerr = answerErr (tracked w)) as [-> ->].
  { unfold answerResult in Hres. rewrite (ci_complete _ _ H0) in Hres.
    destruct (answerAttempted (tracked w)); simpl in Hres; by simplify_eq. }
  match goal with |- context [closeAccepted ?x] => set (w2 := x) end.
  assert (Hend : chend acceptErr w2).
  { subst w2. destruct (if _ && _ then _ else herr) as [e|] eqn:Hh; [by apply channelError_end|].
    assert (Ha : answerAttempted (tracked w) = true)
      by (destruct (answerAttempted (tracked w)); [done|]; by destruct herr).
    destruct (answerErr (tracked w)) as [e|] eqn:He; [|by split; [| |rewrite He]].
    apply chend_closeConn; [by apply chinv_report|by apply report_attempted]. }
  destruct Hend as [[H1 H2 H3 H4 H5] Ha Hf]. clearbody w2. unfold closeAccepted, takeAccepted. simpl.
  rewrite Ha in H2. rewrite H3. destruct (open_channel acceptErr (chevents w2)) eqn:Ho; simpl.
  - unfold answers, open_channel, accepts in *. rewrite !count_app. simpl. rewrite !Nat.add_0_r, Ho, H2.
    split_and!; [done|by eexists|]. intros Hn. rewrite elem_of_app. auto.
  - rewrite Ho. by split_and!.
Qed.

Lemma channel_answered_once_example :
  chevents (handleChannel None None sample_context None (CReturn (Some io_EOF))) =
    [ChReject ConnectionFailed "connection failed"; ChDispatch (EvLogFailed ErrorScopeChannel ErrorOperationHandle io_EOF)].
Proof. reflexivity. Qed.

(** ** The channels of a connection

    The loop of [handleConn] over new channels, its workers as they finish, the
    channels that the server opens itself (which take slots of the same
    limiter), and other connections, which share the global counters. *)
Section Channels.
Variable limiter : connectionChannelLimiter.
Variable maxSessions : Z.

Record chanState := mkChanState {
  ch_store : gmap counter Z;
  activeSessions : Z;
  ch_workers : list bool;        (* for each channel that is handled: is it a session *)
  ch_others : nat }.             (* slots of channels that the server opened *)

Definition dispatchChannel (known isSession : bool) (s : chanState) : option (rejectionReason * string) * chanState :=
  if negb known then (Some (UnknownChannelType, "unsupported channel type"%string), s)
  else
    let '(ok, st) := arun (connectionChannelLimiter_reserve (Some limiter)) (ch_store s) in
    if negb ok
    then (Some (ResourceShortage, "too many open channels"%string), mkChanState st (activeSessions s) (ch_workers s) (ch_others s))
    else
      let counted := isSession && negb (maxSessions <=? 0) in
      let active := if counted then activeSessions s + 1 else activeSessions s in
      let sessionReserved := negb counted || (active <=? maxSessions) in
      if negb sessionReserved
      then (Some (ResourceShortage, "too many open sessions"%string),
            mkChanState (snd (arun (connectionChannelLimiter_release (Some limiter)) st)) (active - 1) (ch_workers s) (ch_others s))
      else (None, mkChanState st active (ch_workers s ++ [isSession]) (ch_others s)).

(** What the deferred function of a worker gives back. *)
Definition channelDone (i : nat) (isSession : bool) (s : chanState) : chanState :=
  mkChanState (snd (arun (connectionChannelLimiter_release (Some limiter)) (ch_store s)))
    (if isSession && (0 <? maxSessions) then activeSessions s - 1 else activeSessions s)
    (delete i (ch_workers s)) (ch_others s).

Inductive chstep : chanState -> chanState -> Prop :=
| ch_dispatch known isSession s : chstep s (snd (dispatchChannel known isSession s))
| ch_done i isSession s : ch_workers s !! i = Some isSession -> chstep s (channelDone i isSession s)
| ch_open s ok st :
    arun (connectionChannelLimiter_reserve (Some limiter)) (ch_store s) = (ok, st) ->
    chstep s (mkChanState st (activeSessions s) (ch_workers s) (if ok then S (ch_others s) else ch_others s))
| ch_close s n :
    ch_others s = S n ->
    chstep s (mkChanState (snd (arun (connectionChannelLimiter_release (Some limiter)) (ch_store s)))
                (activeSessions s) (ch_workers s) n)
| ch_elsewhere s c v :
    c <> ccl_active limiter -> chstep s (mkChanState (<[c := v]> (ch_store s)) (activeSessions s) (ch_workers s) (ch_others s)).

Inductive chreachable : chanState -> Prop :=
| chr_start st : load st (ccl_active limiter) = 0 -> chreachable (mkChanState st 0 [] 0)
| chr_step s s' : chreachable s -> chstep s s' -> chreachable s'.

Definition sessions (s : chanState) : Z := sumZ (fun b : bool => if b then 1 else 0) (ch_workers s).
Definition slots (s : chanState) : Z := Z.of_nat (length (ch_workers s)) + Z.of_nat (ch_others s).

Hypothesis Hcounters : NoDup (counters (channel_chain limiter)).

Record chan_ok (s : chanState) : Prop := mkChanOk {
  co_slots : 0 < ccl_limit limiter -> load (ch_store s) (ccl_active limiter) = slots s /\ slots s <= ccl_limit limiter;
  co_sessions : 0 < maxSessions -> activeSessions s = sessions s /\ sessions s <= maxSessions }.

(** The counter of the connection takes part exactly if it has a limit. *)
Lemma taken_active : 0 < ccl_limit limiter -> taken (channel_chain limiter) (ccl_active limiter) = 1.
Proof.
  intros Hl. unfold taken, counters, channel_chain in *. cbn [levels] in *. destruct (Z.ltb_spec 0 (ccl_limit limiter)); [|lia].
  cbn [fmap list_fmap fst] in *. apply NoDup_cons in Hcounters as [Hn _]. rewrite cnt_cons, decide_True by done.
  unfold cnt. rewrite (proj1 (count_occ_not_In Nat.eq_dec _ _)); [done|]. by rewrite <- list_elem_of_In.
Qed.

Lemma reserve_active st :
  let '(ok, st') := arun (connectionChannelLimiter_reserve (Some limiter)) st in
  ok = has_room (channel_chain limiter) st /\
  (0 < ccl_limit limiter -> load st' (ccl_active limiter) = load st (ccl_active limiter) + (if ok then 1 else 0) /\
     (ok = true -> load st (ccl_active limiter) < ccl_limit limiter)).
Proof.
  rewrite channel_reserve_chain. destruct (reserve_run (channel_chain limiter) st Hcounters) as [Hok Hld].
  destruct (arun _ st) as [ok st']. cbn [fst snd] in *. split; [done|]. intros Hl. rewrite Hld, taken_active by done.
  rewrite Hok. split; [by destruct (has_room _ st)|].
  unfold has_room, channel_chain. cbn [levels]. destruct (Z.ltb_spec 0 (ccl_limit limiter)); [|lia].
  simpl. intros H'%andb_true_iff. lia.
Qed.

Lemma release_active st :
  0 < ccl_limit limiter ->
  load (snd (arun (connectionChannelLimiter_release (Some limiter)) st)) (ccl_active limiter) = load st (ccl_active limiter) - 1.
Proof. intros Hl. by rewrite channel_release_chain, release_run, taken_active. Qed.

Lemma sessions_delete i (b : bool) s : ch_workers s !! i = Some b ->
  sumZ (fun b : bool => if b then 1 else 0) (delete i (ch_workers s)) = sessions s - (if b then 1 else 0).
Proof.
  unfold sessions. generalize (ch_workers s). clear. intros l. revert i.
  induction l as [|x l IH]; intros [|i] Hi; simplify_eq/=; [lia|]. rewrite (IH _ Hi). lia.
Qed.

Lemma chan_ok_step s s' : chan_ok s -> chstep s s' -> chan_ok s'.
Proof.
  intros [Hsl Hse] Hst. destruct Hst as [known isSession s|i isSession s Hi|s ok st He|s n Hn|s c v Hc].
  - pose proof (reserve_active (ch_store s)) as Hr. unfold dispatchChannel. destruct known; [|by split]. cbn [negb].
    destruct (arun _ (ch_store s)) as [ok st]. destruct Hr as [_ Hr].
    destruct ok; cbn [negb]; [|split; [|done]; cbn [ch_store]; intros Hl; destruct (Hr Hl), (Hsl Hl); unfold slots in *; simpl; lia].
    set (active := if isSession && _ then _ else _).
    destruct (negb (isSession && negb (maxSessions <=? 0)) || (active <=? maxSessions)) eqn:Hres; cbn [negb snd].
    + split; cbn [ch_store activeSessions]; [intros Hl|intros Hm].
      * destruct (Hr Hl) as [Hld Hlt], (Hsl Hl) as [Hs1 Hs2]. specialize (Hlt eq_refl). unfold slots in *.
        cbn [ch_workers ch_others]. rewrite length_app. simpl. lia.
      * destruct (Hse Hm) as [Ha1 Ha2]. unfold sessions in *. cbn [ch_workers]. rewrite sumZ_app. simpl. subst active.
        destruct (Z.leb_spec maxSessions 0); [lia|]. rewrite andb_true_r in *.
        destruct isSession; simpl in *; [|lia]. apply Z.leb_le in Hres. lia.
    + split; cbn [ch_store activeSessions]; [intros Hl|intros Hm].
      * destruct (Hr Hl) as [Hld _], (Hsl Hl). rewrite release_active by done. unfold slots in *. simpl. lia.
      * destruct (Hse Hm). unfold sessions in *. cbn [ch_workers]. subst active.
        destruct (isSession && negb (maxSessions <=? 0)); [|done]. lia.
  - split; cbn [ch_store activeSessions channelDone]; [intros Hl|intros Hm].
    + destruct (Hsl Hl). rewrite release_active by done. unfold slots in *. cbn [channelDone ch_workers ch_others].
      pose proof (lookup_lt_Some _ _ _ Hi). rewrite length_delete by by eexists. lia.
    + destruct (Hse Hm). unfold sessions at 1 2. cbn [channelDone ch_workers]. rewrite (sessions_delete _ _ _ Hi).
      destruct (Z.ltb_spec 0 maxSessions); [|lia]. rewrite andb_true_r. destruct isSession; lia.
  - pose proof (reserve_active (ch_store s)) as Hr. rewrite He in Hr. destruct Hr as [_ Hr]. split; [|done].
    cbn [ch_store]. intros Hl. destruct (Hr Hl) as [Hld Hlt], (Hsl Hl). unfold slots in *. simpl.
    destruct ok; [specialize (Hlt eq_refl)|]; lia.
  - split; [|done]. cbn [ch_store]. intros Hl. destruct (Hsl Hl). rewrite release_active by done. unfold slots in *. simpl. lia.
  - split; [|done]. cbn [ch_store]. intros Hl. unfold load, slots in *. rewrite lookup_insert_ne by done. by apply Hsl.
Qed.

Lemma chan_invariant s : chreachable s -> chan_ok s.
Proof.
  induction 1 as [st Hst|s s' _ IH Hs]; [|by eapply chan_ok_step].
  split; [intros Hl; unfold slots|intros Hm; unfold sessions]; simpl; lia.
Qed.

(** The request is answered with a refusal exactly where there is no room. *)
Lemma dispatchChannel_accepts known isSession s :
  chan_ok s ->
  fst (dispatchChannel known isSession s) = None <->
  known = true /\ has_room (channel_chain limiter) (ch_store s) = true /\
  (isSession = true -> 0 < maxSessions -> sessions s < maxSessions).
Proof.
  intros [_ Hse]. pose proof (reserve_active (ch_store s)) as Hr. unfold dispatchChannel.
  destruct known; [|by split; [|intros (? & _)]]. cbn [negb].
  destruct (arun _ (ch_store s)) as [ok st]. destruct Hr as [<- _].
  destruct ok; cbn [negb]; [|by split; [|intros (_ & ? & _)]].
  destruct isSession; cbn [andb]; [|by split]. destruct (Z.leb_spec maxSessions 0); cbn [negb orb].
  - split; [|done]. intros _. split_and!; try done. lia.
  - destruct (Hse ltac:(lia)) as [-> _]. destruct (Z.leb_spec (sessions s + 1) maxSessions); cbn [negb].
    + split; [|done]. intros _. split_and!; try done. lia.
    + split; [done|]. intros (_ & _ & Hlt). specialize (Hlt eq_refl ltac:(lia)). lia.
Qed.
End Channels.

(** In every reachable state the channels that are handled, with those the
    server opened, are what the connection's counter says and at most as many
    as its limit, and the sessions are at most [MaxSessionsPerConnection]; a
    channel that has a handler is refused exactly if a level of the limiter or
    the sessions are full, and a refusal takes no slot. *)
Theorem channel_slots_exact limiter maxSessions s :
  NoDup (counters (channel_chain limiter)) -> chreachable limiter maxSessions s ->
  (0 < ccl_limit limiter -> load (ch_store s) (ccl_active limiter) = slots s /\ slots s <= ccl_limit limiter) /\
  (0 < maxSessions -> sessions s <= maxSessions) /\
  (forall known isSession,
     let '(refusal, s') := dispatchChannel limiter maxSessions known isSession s in
     (refusal = None <-> known = true /\ has_room (channel_chain limiter) (ch_store s) = true /\
        (isSession = true -> 0 < maxSessions -> sessions s < maxSessions)) /\
     (refusal <> None -> ch_workers s' = ch_workers s /\ activeSessions s' = activeSessions s /\
        forall c, load (ch_store s') c = load (ch_store s) c)).
Proof.
  intros Hnd Hr. pose proof (chan_invariant _ _ Hnd _ Hr) as Hok.
  split; [apply Hok|]. split; [intros Hm; by apply Hok|]. intros known isSession.
  pose proof (dispatchChannel_accepts _ maxSessions Hnd known isSession s Hok) as Ha.
  destruct (dispatchChannel limiter maxSessions known isSession s) as [refusal s'] eqn:Hd. cbn [fst] in Ha. split; [done|].
  intros Hn. unfold dispatchChannel in Hd. destruct known; cbn [negb] in Hd; [|by simplify_eq].
  rewrite channel_reserve_chain, channel_release_chain in Hd.
  destruct (reserve_run (channel_chain limiter) (ch_store s) Hnd) as [Hb Hl].
  destruct (arun _ (ch_store s)) as [ok st]. cbn [fst snd] in *. subst ok.
  destruct (has_room (channel_chain limiter) (ch_store s)); cbn [negb] in Hd.
  - destruct (isSession && negb (maxSessions <=? 0)); cbn [negb orb] in Hd; [|by simplify_eq].
    destruct (_ <=? maxSessions); cbn [negb] in Hd; simplify_eq. cbn [ch_workers activeSessions ch_store].
    split_and!; [done|lia|]. intros c. rewrite release_run, Hl. unfold taken. lia.
  - simplify_eq. split_and!; [done|done|]. intros c. cbn [ch_store]. rewrite Hl. lia.
Qed.

(** A connection with one session, which is all it may have. *)
Definition sample_limiter := mkConnectionChannelLimiter 2 1%nat (Some (mkResourceLimiter 5 (Some 0%nat) None)).
Definition sample_channels : chanState := snd (dispatchChannel sample_limiter 1 true true (mkChanState ∅ 0 [] 0)).

Lemma channel_slots_exact_witness :
  slots sample_channels = 1 /\ slots sample_channels <= 2 /\
  fst (dispatchChannel sample_limiter 1 true true sample_channels) = Some (ResourceShortage, "too many open sessions"%string).
Proof.
  assert (Hnd : NoDup (counters (channel_chain sample_limiter))) by by_decide.
  assert (Hr : chreachable sample_limiter 1 sample_channels).
  { eapply chr_step; [apply (chr_start _ _ ∅); reflexivity|apply ch_dispatch]. }
  destruct (channel_slots_exact sample_limiter 1 sample_channels Hnd Hr) as (Hs & _).
  split_and!; [vm_compute; reflexivity|by apply Hs|vm_compute; reflexivity].
Defined.
