(* ===== verification/Names.v ===== *)
(** * Named algorithms and error locations ([cipher.go], [key-exchange.go],
    [message-authentication.go] and the name tables of [error-handling.go])

    Five [uint8] types share one design: a table of names, a text codec, and,
    for the algorithms, comma-separated lists.  [NamedEnum] is that design; each
    type is an instance, whose laws say what its table has to satisfy. *)
From Stdlib Require Import Strings.Ascii.
From S2P Require Import Prelude GoErrors.

(** ** Splitting and joining at commas ([bytes.Split], [bytes.Join]) *)

Definition comma : ascii := ","%char.

Fixpoint split_commas (s : string) : list string :=
  match s with
  | EmptyString => [""]
  | String c s =>
      if decide (c = comma) then "" :: split_commas s
      else match split_commas s with
           | x :: l => String c x :: l
           | [] => [String c ""]
           end
  end.

Fixpoint join_commas (l : list string) : string :=
  match l with
  | [] => ""
  | [x] => x
  | x :: l => x +:+ String comma (join_commas l)
  end.

Fixpoint no_comma (s : string) : bool :=
  match s with
  | EmptyString => true
  | String c s => negb (bool_decide (c = comma)) && no_comma s
  end.

Lemma split_not_nil s : split_commas s <> [].
Proof. destruct s as [|c s]; simpl; [done|]. case_decide; [done|]. by destruct (split_commas s). Qed.

Lemma split_no_comma s : no_comma s = true -> split_commas s = [s].
Proof.
  induction s as [|c s IH]; simpl; [done|]. intros [Hc Hs]%andb_true_iff.
  rewrite decide_False by (by intros ->). by rewrite IH.
Qed.

Lemma split_app s t : no_comma s = true -> split_commas (s +:+ String comma t) = s :: split_commas t.
Proof.
  induction s as [|c s IH]; intros Hs.
  - change ("" +:+ String comma t) with (String comma t). cbn [split_commas]. by rewrite decide_True.
  - simpl in Hs. apply andb_true_iff in Hs as [Hc Hs].
    change (String c s +:+ String comma t) with (String c (s +:+ String comma t)). cbn [split_commas].
    rewrite decide_False by (by intros ->). by rewrite IH.
Qed.

Lemma split_join l :
  l <> [] -> Forall (fun s => no_comma s = true) l -> split_commas (join_commas l) = l.
Proof.
  induction l as [|x [|y l] IH]; intros Hne Hf; [done|..]; apply Forall_cons in Hf as [Hx Hf].
  - by apply split_no_comma.
  - change (join_commas (x :: y :: l)) with (x +:+ String comma (join_commas (y :: l))).
    by rewrite split_app, IH.
Qed.

Lemma join_split s : join_commas (split_commas s) = s.
Proof.
  induction s as [|c s IH]; [done|]. cbn [split_commas]. pose proof (split_not_nil s) as Hn.
  destruct (decide (c = comma)) as [->|Hc].
  - destruct (split_commas s) as [|x l]; [done|]. by rewrite <- IH.
  - destruct (split_commas s) as [|x [|y l]]; [done|by rewrite <- IH|].
    rewrite <- IH. done.
Qed.

(** ** One named type *)

(** What a codec reports; the text of the message is left out. *)
Inductive enumError (E : Type) := IllegalValue (e : E) | IllegalName (text : string) | AtIndex (i : nat) (err : enumError E).
Arguments IllegalValue {E}.
Arguments IllegalName {E}.
Arguments AtIndex {E}.

(** [any] values as [IsEqualTo] tells them apart. *)
Inductive anyValue (E : Type) := AnyNil | AnyValue (v : E) | AnyPointer (v : option E) | AnyOther.
Arguments AnyNil {E}.
Arguments AnyValue {E}.
Arguments AnyPointer {E}.
Arguments AnyOther {E}.

Class NamedEnum (E : Type) `{EqDecision E} := {
  names : list (E * string);             (* the table from values to names *)
  code : E -> Z;
  dashedNoun : string;                   (* "illegal-ssh-<noun>-%d" *)
  names_keys : NoDup (map fst names);
  names_values : NoDup (map snd names);
  names_clean : Forall (fun p => no_comma p.2 = true /\ p.2 <> "") names }.

Section Enum.
Context {E : Type} `{NamedEnum E}.

Fixpoint lookup_name (l : list (E * string)) (e : E) : option string :=
  match l with
  | [] => None
  | (k, v) :: l => if decide (k = e) then Some v else lookup_name l e
  end.

(** The inverse table, built from the entries in the order of the map's
    iteration. *)
Definition invert (order : list (E * string)) : gmap string E :=
  fold_left (fun result p => <[p.2 := p.1]> result) order ∅.

Definition name2 : gmap string E := invert names.

Definition MarshalText (e : E) : string + enumError E :=
  match lookup_name names e with Some v => inl v | None => inr (IllegalValue e) end.

Definition Validate (e : E) : option (enumError E) :=
  match MarshalText e with inl _ => None | inr err => Some err end.

Definition to_String (e : E) : string :=
  match MarshalText e with
  | inl v => v
  | inr _ => "illegal-ssh-" +:+ dashedNoun +:+ "-" +:+ pretty (code e)
  end.

Definition UnmarshalText (text : string) : E + enumError E :=
  match name2 !! text with Some v => inl v | None => inr (IllegalName text) end.

Definition isEqualTo (c : E) (other : option E) : bool :=
  match other with Some o => bool_decide (c = o) | None => false end.

Definition IsEqualTo (c : E) (other : anyValue E) : bool :=
  match other with
  | AnyNil => false
  | AnyValue v => isEqualTo c (Some v)
  | AnyPointer v => isEqualTo c v
  | AnyOther => false
  end.

(** ** Lists *)

Fixpoint MarshalTexts_from (i : nat) (c : list E) : list string + enumError E :=
  match c with
  | [] => inl []
  | v :: c =>
      match MarshalText v with
      | inr err => inr (AtIndex i err)
      | inl t => match MarshalTexts_from (S i) c with inl l => inl (t :: l) | inr err => inr err end
      end
  end.

Definition MarshalTexts (c : list E) : list string + enumError E := MarshalTexts_from 0 c.

Definition list_MarshalText (c : list E) : string + enumError E :=
  match MarshalTexts c with inl texts => inl (join_commas texts) | inr err => inr err end.

Definition list_Validate (c : list E) : option (enumError E) :=
  match list_MarshalText c with inl _ => None | inr err => Some err end.

Fixpoint UnmarshalTexts (c : list E) (texts : list string) : list E * option (enumError E) :=
  match texts with
  | [] => (c, None)
  | v :: texts =>
      match UnmarshalText v with
      | inr err => (c, Some err)
      | inl buf => UnmarshalTexts (c ++ [buf]) texts
      end
  end.

(** The receiver afterwards (also after an error), and the error. *)
Definition list_UnmarshalText (c : list E) (text : string) : list E * option (enumError E) :=
  UnmarshalTexts c (split_commas text).

Fixpoint list_isEqualTo (c : list E) (other : list E) : bool :=
  match c, other with
  | [], [] => true
  | tv :: c, ov :: other => if negb (isEqualTo tv (Some ov)) then false else list_isEqualTo c other
  | _, _ => false      (* the lengths differ *)
  end.

(** The receiver may be compared with a list, a pointer to one, nil or neither. *)
Definition list_IsEqualTo (c : list E) (other : anyValue (list E)) : bool :=
  match other with
  | AnyNil => false
  | AnyValue v => list_isEqualTo c v
  | AnyPointer v => match v with Some v => list_isEqualTo c v | None => false end
  | AnyOther => false
  end.

Definition list_IsEmpty (c : list E) : bool := (length c =? 0)%nat.
Definition list_IsCumulative (c : list E) : bool := true.
Definition list_IsZero (c : list E) : bool := false.
Definition list_Set (c : list E) (text : string) : list E * option (enumError E) := list_UnmarshalText c text.

Definition Contains (c : list E) (v : E) : bool := bool_decide (v ∈ c).

(** The message of an error; [quote] is the [%q] of [fmt]. *)
Definition spaced (s : string) : string :=
  String.string_of_list_ascii (map (fun c => if decide (c = "-"%char) then " "%char else c) (String.list_ascii_of_string s)).

Fixpoint enum_error_text (quote : string -> string) (err : enumError E) : string :=
  match err with
  | IllegalValue e => "illegal ssh " +:+ spaced dashedNoun +:+ ": " +:+ pretty (code e)
  | IllegalName text => "illegal ssh " +:+ spaced dashedNoun +:+ ": " +:+ quote text
  | AtIndex i err => "[" +:+ pretty i +:+ "] " +:+ enum_error_text quote err
  end.

Definition list_String (quote : string -> string) (c : list E) : string :=
  match list_MarshalText c with
  | inl v => v
  | inr err => "illegal-ssh-" +:+ dashedNoun +:+ "s: " +:+ enum_error_text quote err
  end.

(** ** Round trips *)

Lemma lookup_name_spec l e t :
  NoDup (map fst l) -> lookup_name l e = Some t <-> (e, t) ∈ l.
Proof using Type.
  induction l as [|[k v] l IH]; simpl; intros Hnd; [split; [done|by intros ?%not_elem_of_nil]|].
  apply NoDup_cons in Hnd as [Hk Hnd]. rewrite elem_of_cons. case_decide as Hd; [subst k|].
  - split; [intros; simplify_eq; by left|]. intros [|Hin]; [by simplify_eq|].
    destruct Hk. apply list_elem_of_fmap. by exists (e, t).
  - rewrite IH by done. naive_solver.
Qed.

(** The order in which the inverse table is built does not matter. *)
Lemma invert_acc (order : list (E * string)) (m : gmap string E) t e :
  NoDup (map snd order) ->
  fold_left (fun result p => <[p.2 := p.1]> result) order m !! t = Some e <->
  (e, t) ∈ order \/ (t ∉ map snd order) /\ m !! t = Some e.
Proof using Type.
  revert m. induction order as [|[k v] l IH]; intros m Hnd; cbn [fold_left map fst snd].
  - rewrite elem_of_nil. split; [right; split; [apply not_elem_of_nil|done]|tauto].
  - apply NoDup_cons in Hnd as [Hv Hnd]. rewrite IH, !elem_of_cons by done.
    assert (Hin : forall k', (k', v) ∈ l -> False).
    { intros k' Hin. apply Hv, list_elem_of_fmap. by exists (k', v). }
    destruct (decide (v = t)) as [->|Hne].
    + rewrite lookup_insert_eq. split.
      * intros [|[_ ?]]; [tauto|simplify_eq; tauto].
      * intros [[?|?]|[Hn _]]; [simplify_eq; auto|by exfalso; eapply Hin|by destruct Hn; left].
    + rewrite lookup_insert_ne by done. split.
      * intros [|[? ?]]; [tauto|]. right. split; [|done]. intros [|]; [congruence|done].
      * intros [[?|?]|[? ?]]; [simplify_eq|tauto|tauto].
Qed.

Lemma invert_spec order t e :
  NoDup (map snd order) -> invert order !! t = Some e <-> (e, t) ∈ order.
Proof using Type.
  intros Hnd. unfold invert. rewrite invert_acc, lookup_empty by done. naive_solver.
Qed.

(** The two codecs of a named type are inverse to each other: a value is
    written as a text exactly when that text is read as the value, in whatever
    order the inverse table has been built. *)
Theorem names_roundtrip e text :
  (MarshalText e = inl text <-> UnmarshalText text = inl e) /\
  (forall order, order ≡ₚ names -> invert order !! text = name2 !! text).
Proof using Type.
  assert (Hinv : forall order, order ≡ₚ names -> forall e, invert order !! text = Some e <-> (e, text) ∈ names).
  { intros order Ho e'. rewrite invert_spec; [by rewrite Ho|].
    apply (NoDup_Permutation_proper _ _ (fmap_Permutation snd _ _ Ho)), names_values. }
  split.
  - unfold MarshalText, UnmarshalText, name2.
    pose proof (lookup_name_spec names e text names_keys) as H1. pose proof (Hinv names (reflexivity _) e) as H2.
    destruct (lookup_name names e) as [v|], (invert names !! text) as [e'|]; naive_solver.
  - intros order Ho. apply option_eq. intros e'. unfold name2. by rewrite (Hinv order), (Hinv names).
Qed.

(** A name never contains a comma, so lists are split where they were joined. *)
Lemma marshal_clean e t : MarshalText e = inl t -> no_comma t = true /\ t <> "".
Proof using Type.
  unfold MarshalText. destruct (lookup_name names e) as [v|] eqn:Hl; intros; simplify_eq.
  apply (lookup_name_spec names e t names_keys) in Hl.
  apply (proj1 (Forall_forall _ _) names_clean) in Hl. done.
Qed.

Lemma marshal_texts_from i c l :
  MarshalTexts_from i c = inl l <-> Forall2 (fun v t => MarshalText v = inl t) c l.
Proof using Type.
  revert i l. induction c as [|v c IH]; intros i l; simpl.
  - split; [intros; by simplify_eq|]. by inversion 1.
  - destruct (MarshalText v) as [t|err] eqn:Hv.
    + specialize (IH (S i)). destruct (MarshalTexts_from (S i) c) as [l'|err'].
      * split; [intros; simplify_eq; constructor; [done|by apply IH]|].
        inversion 1; simplify_eq. f_equal. f_equal; [congruence|].
        assert (inl l' = inl l'0) by (by apply IH). congruence.
      * split; [done|]. inversion 1; simplify_eq. assert (inr err' = inl l') by (by apply IH). done.
    + split; [done|]. inversion 1; simplify_eq. congruence.
Qed.

Lemma marshal_texts_clean c l :
  Forall2 (fun v t => MarshalText v = inl t) c l -> Forall (fun s => no_comma s = true) l.
Proof using Type. induction 1 as [|v t c l Hv _ IH]; constructor; [by eapply marshal_clean|done]. Qed.

Lemma unmarshal_texts c0 c l :
  UnmarshalTexts c0 l = (c0 ++ c, None) <-> Forall2 (fun v t => UnmarshalText t = inl v) c l.
Proof using Type.
  revert c0 c. induction l as [|t l IH]; intros c0 c; simpl.
  - split; [|by inversion 1; rewrite app_nil_r].
    intros E0. assert (Hc : c0 = c0 ++ c) by congruence. destruct c as [|v c]; [constructor|].
    apply (f_equal length) in Hc. rewrite length_app in Hc. simpl in Hc. lia.
  - destruct (UnmarshalText t) as [v|err] eqn:Hv.
    + split.
      * intros Hu. assert (Hp : exists c', c = v :: c').
        { clear IH. assert (Hx : forall l a b, UnmarshalTexts a l = (b, None) -> exists r, b = a ++ r).
          { clear. induction l as [|t l IH]; simpl; intros a b Hl; [simplify_eq; exists []; by rewrite app_nil_r|].
            destruct (UnmarshalText t); [|done]. destruct (IH _ _ Hl) as [r ->]. eexists. by rewrite <- app_assoc. }
          destruct (Hx _ _ _ Hu) as [r Hr]. rewrite <- app_assoc in Hr. apply app_inv_head in Hr. eauto. }
        destruct Hp as [c' ->]. constructor; [done|]. apply (IH (c0 ++ [v])). by rewrite <- app_assoc.
      * inversion 1 as [|v' t' c' l' Hv' Hf]; simplify_eq. assert (v' = v) as -> by congruence.
        rewrite (proj2 (IH (c0 ++ [v]) c') Hf). by rewrite <- app_assoc.
    + split; [done|]. inversion 1; simplify_eq. congruence.
Qed.

(** Reading a text appends exactly the non-empty list that is written as
    that text to the receiver; the empty list is written as the empty text,
    which no receiver reads. *)
Theorem names_list_roundtrip c0 c text :
  (c <> [] /\ list_MarshalText c = inl text <-> list_UnmarshalText c0 text = (c0 ++ c, None)) /\
  list_MarshalText [] = inl "" /\ list_UnmarshalText c0 "" = (c0, Some (IllegalName "")).
Proof using Type.
  unfold list_MarshalText, list_UnmarshalText, MarshalTexts. split; [|split; [done|]].
  - rewrite unmarshal_texts. split.
    + intros [Hne Hm]. destruct (MarshalTexts_from 0 c) as [l|err] eqn:Hl; simplify_eq.
      apply marshal_texts_from in Hl. rewrite split_join; [|by destruct Hl|by eapply marshal_texts_clean].
      eapply Forall2_impl; [exact Hl|]. intros v t. apply names_roundtrip.
    + intros Hu. assert (Hl : Forall2 (fun v t => MarshalText v = inl t) c (split_commas text)).
      { eapply Forall2_impl; [exact Hu|]. intros v t. apply names_roundtrip. }
      split; [intros ->; pose proof (split_not_nil text); by inversion Hl|].
      apply (marshal_texts_from 0) in Hl. by rewrite Hl, join_split.
  - simpl. unfold UnmarshalText. destruct (name2 !! "") as [v|] eqn:Hv; [|done]. exfalso.
    assert (Hu : UnmarshalText "" = inl v) by (unfold UnmarshalText; by rewrite Hv).
    apply names_roundtrip in Hu. apply marshal_clean in Hu. tauto.
Qed.

(** Comparison is equality, for values and for lists. *)
Lemma isEqualTo_spec c o : isEqualTo c (Some o) = true <-> c = o.
Proof using Type. apply bool_decide_eq_true. Qed.

Lemma list_isEqualTo_spec c o : list_isEqualTo c o = true <-> c = o.
Proof using Type.
  revert o. induction c as [|v c IH]; intros [|w o]; cbn [list_isEqualTo]; try (split; done).
  destruct (isEqualTo v (Some w)) eqn:E0; simpl.
  - apply isEqualTo_spec in E0 as ->. rewrite IH. naive_solver.
  - split; [done|]. intros Heq. simplify_eq. by rewrite (proj2 (isEqualTo_spec w w)) in E0.
Qed.

Lemma list_IsEqualTo_spec c o :
  list_IsEqualTo c o = true <-> o = AnyValue c \/ o = AnyPointer (Some c).
Proof using Type.
  destruct o as [|v|[v|]|]; cbn [list_IsEqualTo]; rewrite ?list_isEqualTo_spec; naive_solver.
Qed.

(** A list is shown as the text it is read from, and one that has no text by its
    first value without a name. *)
Lemma list_String_shows quote c :
  (forall text, list_MarshalText c = inl text -> c <> [] -> list_UnmarshalText [] (list_String quote c) = (c, None)) /\
  (forall err, list_MarshalText c = inr err -> exists i e, err = AtIndex i (IllegalValue e) /\ c !! i = Some e /\
     lookup_name names e = None /\
     list_String quote c = "illegal-ssh-" +:+ dashedNoun +:+ "s: [" +:+ pretty i +:+ "] illegal ssh " +:+ spaced dashedNoun +:+ ": " +:+ pretty (code e)).
Proof using Type.
  unfold list_String. split.
  - intros text Hm Hc. rewrite Hm. apply (proj1 (proj1 (names_list_roundtrip [] c text))). by split.
  - assert (Hix : forall c k err, MarshalTexts_from k c = inr err ->
              exists i e, err = AtIndex (k + i) (IllegalValue e) /\ c !! i = Some e /\ lookup_name names e = None).
    { clear. induction c as [|v c IH]; cbn; intros k err; [done|]. unfold MarshalText at 1.
      destruct (lookup_name names v) as [t|] eqn:Ev.
      - destruct (MarshalTexts_from (S k) c) as [l|err'] eqn:Er; [done|]. intros [= <-].
        apply IH in Er as (i & e & -> & He & Hn). exists (S i), e. split; [f_equal; lia|done].
      - intros [= <-]. exists 0%nat, v. split; [f_equal; lia|done]. }
    intros err Hm. rewrite Hm. unfold list_MarshalText, MarshalTexts in Hm.
    destruct (MarshalTexts_from 0 c) as [l|err'] eqn:Er; [done|]. injection Hm as <-.
    apply Hix in Er as (i & e & -> & He & Hn). exists i, e. done.
Qed.

(** A flag that is given twice holds what both texts name, as [IsCumulative]
    promises, and is never empty. *)
Lemma list_Set_cumulative c1 c2 text1 text2 :
  list_Set [] text1 = (c1, None) -> list_Set [] text2 = (c2, None) ->
  list_Set (fst (list_Set [] text1)) text2 = (c1 ++ c2, None) /\ list_IsEmpty (c1 ++ c2) = false.
Proof using Type.
  unfold list_Set, list_UnmarshalText. intros H1 H2. rewrite H1. cbn [fst].
  apply (unmarshal_texts [] c2), (unmarshal_texts c1 c2) in H2. split; [done|].
  apply (unmarshal_texts [] c1) in H1. pose proof (split_not_nil text1). by destruct H1.
Qed.
End Enum.

(** ** The types *)

Record Cipher := MkCipher { cipher_value : Z }.
#[export] Instance Cipher_eq_dec : EqDecision Cipher.
Proof. solve_decision. Defined.

Definition CipherAes128Cbc := MkCipher 0.
Definition Cipher3desCbc := MkCipher 1.
Definition CipherArcfour := MkCipher 2.
Definition CipherArcfour128 := MkCipher 3.
Definition CipherArcfour256 := MkCipher 4.
Definition CipherChacha20Poly1305 := MkCipher 5.
Definition CipherAes128Ctr := MkCipher 6.
Definition CipherAes192Ctr := MkCipher 7.
Definition CipherAes256Ctr := MkCipher 8.
Definition CipherAes128Gcm := MkCipher 9.
Definition CipherAes256Gcm := MkCipher 10.

Definition cipher2Name : list (Cipher * string) := [
  (CipherAes128Cbc, "aes128-cbc"); (Cipher3desCbc, "3des-cbc"); (CipherArcfour, "arcfour");
  (CipherArcfour128, "arcfour128"); (CipherArcfour256, "arcfour256");
  (CipherChacha20Poly1305, "chacha20-poly1305@openssh.com"); (CipherAes128Ctr, "aes128-ctr");
  (CipherAes192Ctr, "aes192-ctr"); (CipherAes256Ctr, "aes256-ctr");
  (CipherAes128Gcm, "aes128-gcm@openssh.com"); (CipherAes256Gcm, "aes256-gcm@openssh.com")].

Definition DefaultCiphers : list Cipher := [CipherAes256Gcm; CipherAes256Ctr; CipherAes192Ctr].

#[export] Instance Cipher_named : NamedEnum Cipher.
Proof.
  refine {| names := cipher2Name; code := cipher_value; dashedNoun := "cipher" |}; by_decide.
Defined.

Record KeyExchange := MkKeyExchange { keyExchange_value : Z }.
#[export] Instance KeyExchange_eq_dec : EqDecision KeyExchange.
Proof. solve_decision. Defined.

Definition KeyExchangeDh1Sha1 := MkKeyExchange 0.
Definition KeyExchangeDh14Sha1 := MkKeyExchange 1.
Definition KeyExchangeDh14Sha256 := MkKeyExchange 2.
Definition KeyExchangeDh16Sha512 := MkKeyExchange 3.
Definition KeyExchangeEcdh256 := MkKeyExchange 4.
Definition KeyExchangeEcdh384 := MkKeyExchange 5.
Definition KeyExchangeEcdh521 := MkKeyExchange 6.
Definition KeyExchangeCurve25519Sha256LibSsh := MkKeyExchange 7.
Definition KeyExchangeCurve25519Sha256 := MkKeyExchange 8.
Definition KeyExchangeDhgexSha1 := MkKeyExchange 9.
Definition KeyExchangeDhgexSha256 := MkKeyExchange 10.
Definition KeyExchangeMlkem768x25519xSha256 := MkKeyExchange 11.

Definition keyExchange2Name : list (KeyExchange * string) := [
  (KeyExchangeDh1Sha1, "diffie-hellman-group1-sha1"); (KeyExchangeDh14Sha1, "diffie-hellman-group14-sha1");
  (KeyExchangeDh14Sha256, "diffie-hellman-group14-sha256"); (KeyExchangeDh16Sha512, "diffie-hellman-group16-sha512");
  (KeyExchangeEcdh256, "ecdh-sha2-nistp256"); (KeyExchangeEcdh384, "ecdh-sha2-nistp384");
  (KeyExchangeEcdh521, "ecdh-sha2-nistp521"); (KeyExchangeCurve25519Sha256LibSsh, "curve25519-sha256@libssh.org");
  (KeyExchangeCurve25519Sha256, "curve25519-sha256"); (KeyExchangeDhgexSha1, "diffie-hellman-group-exchange-sha1");
  (KeyExchangeDhgexSha256, "diffie-hellman-group-exchange-sha256");
  (KeyExchangeMlkem768x25519xSha256, "mlkem768x25519-sha256")].

Definition DefaultKeyExchanges : list KeyExchange := [
  KeyExchangeCurve25519Sha256LibSsh; KeyExchangeCurve25519Sha256; KeyExchangeDh16Sha512;
  KeyExchangeMlkem768x25519xSha256].

#[export] Instance KeyExchange_named : NamedEnum KeyExchange.
Proof.
  refine {| names := keyExchange2Name; code := keyExchange_value; dashedNoun := "key-exchange" |}; by_decide.
Defined.

Record MessageAuthentication := MkMessageAuthentication { messageAuthentication_value : Z }.
#[export] Instance MessageAuthentication_eq_dec : EqDecision MessageAuthentication.
Proof. solve_decision. Defined.

Definition MessageAuthenticationHmacSha1 := MkMessageAuthentication 0.
Definition MessageAuthenticationHmacSha1B96 := MkMessageAuthentication 1.
Definition MessageAuthenticationHmacSha2B256 := MkMessageAuthentication 2.
Definition MessageAuthenticationHmacSha2B512 := MkMessageAuthentication 3.
Definition MessageAuthenticationHmacSha2B256Etm := MkMessageAuthentication 4.
Definition MessageAuthenticationHmacSha2B512Etm := MkMessageAuthentication 5.

Definition messageAuthentication2Name : list (MessageAuthentication * string) := [
  (MessageAuthenticationHmacSha1, "hmac-sha1"); (MessageAuthenticationHmacSha1B96, "hmac-sha1-96");
  (MessageAuthenticationHmacSha2B256, "hmac-sha2-256"); (MessageAuthenticationHmacSha2B512, "hmac-sha2-512");
  (MessageAuthenticationHmacSha2B256Etm, "hmac-sha2-256-etm@openssh.com");
  (MessageAuthenticationHmacSha2B512Etm, "hmac-sha2-512-etm@openssh.com")].

Definition DefaultMessageAuthentications : list MessageAuthentication := [
  MessageAuthenticationHmacSha2B512Etm; MessageAuthenticationHmacSha2B256Etm].

#[export] Instance MessageAuthentication_named : NamedEnum MessageAuthentication.
Proof.
  refine {| names := messageAuthentication2Name; code := messageAuthentication_value;
            dashedNoun := "message-authentication" |}; by_decide.
Defined.

(** Scopes and operations are plain numbers in the error trees, so their
    instances are named, not resolved. *)
Definition errorScopeNames : list (ErrorScope * string) := [
  (ErrorScopeServer, "server"); (ErrorScopeConnection, "connection"); (ErrorScopeRequest, "request");
  (ErrorScopeChannel, "channel"); (ErrorScopeSession, "session"); (ErrorScopeForwarding, "forwarding")].

Definition ErrorScope_named : NamedEnum ErrorScope.
Proof.
  refine {| names := errorScopeNames; code := id; dashedNoun := "error-scope" |}; by_decide.
Defined.

Definition errorOperationNames : list (ErrorOperation * string) := [
  (ErrorOperationAccept, "accept"); (ErrorOperationParse, "parse"); (ErrorOperationHandle, "handle");
  (ErrorOperationReply, "reply"); (ErrorOperationHandshake, "handshake"); (ErrorOperationDial, "dial");
  (ErrorOperationListen, "listen"); (ErrorOperationOpenChannel, "open-channel");
  (ErrorOperationForward, "forward")].

Definition ErrorOperation_named : NamedEnum ErrorOperation.
Proof.
  refine {| names := errorOperationNames; code := id; dashedNoun := "error-operation" |}; by_decide.
Defined.

(** The default algorithms have names, so the default configuration is valid. *)
Example default_names :
  list_MarshalText DefaultCiphers = inl "aes256-gcm@openssh.com,aes256-ctr,aes192-ctr" /\
  list_Validate DefaultKeyExchanges = None /\ list_Validate DefaultMessageAuthentications = None /\
  to_String (MkCipher 11) = "illegal-ssh-cipher-11" /\
  list_String id [CipherAes256Gcm; MkCipher 11] = "illegal-ssh-ciphers: [1] illegal ssh cipher: 11" /\
  list_String id [MkKeyExchange 12] = "illegal-ssh-key-exchanges: [0] illegal ssh key exchange: 12" /\
  @UnmarshalText _ _ ErrorScope_named "session" = inl ErrorScopeSession /\
  @UnmarshalText _ _ ErrorOperation_named "session" = inr (IllegalName "session").
Proof. vm_compute. done. Qed.
