(* ===== verification/Terminal.v ===== *)
(** * Output to terminals and their windows ([session.go])

    [session.Write] turns bare line feeds into CR LF when a PTY has been
    accepted, and window changes are merged and kept in a channel of capacity
    one. *)
From S2P Require Import Prelude GoErrors Wire.
Local Open Scope Z_scope.

Definition CR : byte := "013"%byte.
Definition LF : byte := "010"%byte.

(** ** [bytes.ReplaceAll] with a non-empty [old] *)

Fixpoint has_prefix (old s : list byte) : bool :=
  match old, s with
  | [], _ => true
  | a :: old, b :: s => Byte.eqb a b && has_prefix old s
  | _ :: _, [] => false
  end.

(** One byte at least is consumed for each unit of fuel. *)
Fixpoint replace_fuel (fuel : nat) (old new s : list byte) : list byte :=
  match fuel, s with
  | S fuel, b :: s' =>
      if has_prefix old s then new ++ replace_fuel fuel old new (drop (length old) s)
      else b :: replace_fuel fuel old new s'
  | _, _ => s
  end.

Definition ReplaceAll (s old new : list byte) : list byte := replace_fuel (length s) old new s.

(** The two replacements of [session.Write]. *)
Definition normalize (p : list byte) : list byte :=
  let p := ReplaceAll p [LF] [CR; LF] in
  ReplaceAll p [CR; CR; LF] [CR; LF].

(** [session.Write]; [write] is the channel's [Write]. *)
Definition session_Write (pty : bool) (write : list byte -> Z * option error) (p : list byte)
    : Z * option error :=
  if pty then
    let m := zlen p in
    let '(n, err) := write (normalize p) in
    (if m <? n then m else n, err)
  else write p.

(** What a terminal expects: one pass that puts a CR before each LF that has
    none. *)
Fixpoint onlcr (after_cr : bool) (s : list byte) : list byte :=
  match s with
  | [] => []
  | b :: s =>
      if Byte.eqb b LF then (if after_cr then [LF] else [CR; LF]) ++ onlcr false s
      else b :: onlcr (Byte.eqb b CR) s
  end.

Lemma byte_eqb_spec a b : reflect (a = b) (Byte.eqb a b).
Proof.
  destruct (Byte.eqb a b) eqn:E; constructor.
  - by apply byte_dec_bl.
  - intros ->. by rewrite (byte_dec_lb eq_refl) in E.
Qed.

Lemma replace_fuel_enough n m old new s :
  old <> [] -> (length s <= n)%nat -> (length s <= m)%nat -> replace_fuel n old new s = replace_fuel m old new s.
Proof.
  intros Hold. revert m s. induction n as [|n IH]; intros [|m] s Hn Hm; destruct s as [|b s]; simpl in *; try done; try lia.
  destruct (has_prefix old (b :: s)).
  - f_equal. destruct old as [|a old]; [done|]. simpl. apply IH; rewrite length_drop; lia.
  - f_equal. apply IH; lia.
Qed.

Lemma ReplaceAll_cons old new b s :
  old <> [] ->
  ReplaceAll (b :: s) old new =
    if has_prefix old (b :: s) then new ++ ReplaceAll (drop (length old) (b :: s)) old new
    else b :: ReplaceAll s old new.
Proof.
  intros Hold. unfold ReplaceAll. cbn [replace_fuel length]. destruct (has_prefix old (b :: s)); [|done].
  f_equal. apply replace_fuel_enough; [done| |lia]. destruct old; [done|]. simpl. rewrite length_drop. lia.
Qed.

#[local] Arguments ReplaceAll : simpl never.

(** The first replacement, byte by byte. *)
Lemma replace_lf s :
  ReplaceAll s [LF] [CR; LF] = flat_map (fun b => if Byte.eqb b LF then [CR; LF] else [b]) s.
Proof.
  induction s as [|b s IH]; [done|]. rewrite ReplaceAll_cons by done. cbn [has_prefix flat_map length drop].
  rewrite andb_true_r. destruct (byte_eqb_spec LF b) as [<-|Hne].
  - rewrite drop_0. cbn [Byte.eqb app]. by rewrite IH.
  - destruct (byte_eqb_spec b LF); [congruence|]. simpl. by rewrite IH.
Qed.

Lemma onlcr_not_lf b s : b <> LF -> onlcr true (b :: s) = onlcr false (b :: s).
Proof. intros Hb. simpl. by destruct (byte_eqb_spec b LF). Qed.

Lemma normalize_onlcr p : normalize p = onlcr false p.
Proof.
  unfold normalize. rewrite replace_lf. set (f := fun b => _).
  assert (Hf : forall b, b <> LF -> f b = [b]) by (intros b Hb; unfold f; by destruct (byte_eqb_spec b LF)).
  assert (Hlf : f LF = [CR; LF]) by done. clearbody f.
  induction p as [|b s IH]; [done|]. cbn [flat_map onlcr]. destruct (byte_eqb_spec b LF) as [->|Hb].
  - rewrite Hlf. cbn [app]. rewrite !ReplaceAll_cons by done. simpl. by rewrite IH.
  - rewrite Hf by done. cbn [app]. rewrite ReplaceAll_cons by done. destruct (byte_eqb_spec b CR) as [->|Hc].
    + destruct s as [|c s]; [done|]. cbn [flat_map] in *. destruct (byte_eqb_spec c LF) as [->|Hl].
      * rewrite Hlf in *. cbn [app] in *. simpl. simpl in IH. rewrite !ReplaceAll_cons in IH by done. simpl in IH.
        rewrite drop_0. exact IH.
      * rewrite (Hf c Hl) in *. cbn [app] in *.
        assert (has_prefix [CR; CR; LF] (CR :: c :: flat_map f s) = false) as ->.
        { cbn [has_prefix]. destruct s as [|d s]; simpl; [by rewrite !andb_false_r|].
          destruct (byte_eqb_spec d LF) as [->|Hd]; [rewrite Hlf|rewrite Hf by done]; simpl; [by rewrite !andb_false_r|].
          destruct (byte_eqb_spec LF d); [congruence|]. by rewrite !andb_false_r. }
        rewrite onlcr_not_lf by done. by rewrite IH.
    + assert (has_prefix [CR; CR; LF] (b :: flat_map f s) = false) as ->.
      { cbn [has_prefix]. by destruct (byte_eqb_spec CR b). }
      by rewrite IH.
Qed.

Lemma onlcr_idempotent c s : onlcr c (onlcr c s) = onlcr c s.
Proof.
  revert c. induction s as [|b s IH]; intros c; [done|]. cbn [onlcr].
  destruct (byte_eqb_spec b LF) as [->|Hb].
  - destruct c; simpl; by rewrite IH.
  - cbn [onlcr]. destruct (byte_eqb_spec b LF); [done|]. by rewrite IH.
Qed.

Lemma onlcr_length c s : (length s <= length (onlcr c s))%nat.
Proof.
  revert c. induction s as [|b s IH]; intros c; [done|]. simpl.
  destruct (Byte.eqb b LF); [destruct c|]; simpl; [specialize (IH false)|specialize (IH false)|specialize (IH (Byte.eqb b CR))]; lia.
Qed.

(** C39. With a PTY, what [Write] sends is its argument with a CR before exactly
    those line feeds that have none (computed by two replacements of the whole
    buffer), so writing normalised output changes nothing; a write that the
    channel takes completely reports exactly the length of the argument; without
    a PTY the bytes are passed on as they are. *)
Theorem pty_write_normalizes write p :
  normalize p = onlcr false p /\ normalize (normalize p) = normalize p /\
  (forall err, write (normalize p) = (zlen (normalize p), err) -> session_Write true write p = (zlen p, err)) /\
  session_Write false write p = write p.
Proof.
  rewrite !normalize_onlcr, onlcr_idempotent. split; [done|]. split; [done|]. split; [|done].
  intros err Hw. unfold session_Write. rewrite normalize_onlcr, Hw.
  pose proof (onlcr_length false p). unfold zlen in *. destruct (Z.ltb_spec (Z.of_nat (length p)) (Z.of_nat (length (onlcr false p)))); f_equal; lia.
Qed.

(** ** Window changes *)

Definition mergeWindow (current update : Window) : Window :=
  mkWindow (if Width update =? 0 then Width current else Width update)
           (if Height update =? 0 then Height current else Height update)
           (if WidthPixels update =? 0 then WidthPixels current else WidthPixels update)
           (if HeightPixels update =? 0 then HeightPixels current else HeightPixels update).

(** The non-blocking sends of the "window-change" case on the channel of
    capacity one, whose content is [ch].  [taken]: the application receives
    between the failed first send and the receive that makes room. *)
Definition winch_send (ch : option Window) (win : Window) (taken : bool) : option Window * list Window :=
  match ch with
  | None => (Some win, [])
  | Some old => (Some win, if taken then [old] else [])
  end.

(** The window of a PTY, its channel and what the application has received. *)
Record terminal := mkTerminal { tWindow : Window; tWinch : option Window; tReceived : list Window }.

Definition newTerminal (w : Window) : terminal := mkTerminal w (Some w) [].

Definition window_change (update : Window) (taken : bool) (t : terminal) : terminal :=
  let win := mergeWindow (tWindow t) update in
  let '(ch, got) := winch_send (tWinch t) win taken in
  mkTerminal win ch (tReceived t ++ got).

Inductive wevent := WChange (update : Window) (taken : bool) | WReceive.

Definition wstep (t : terminal) (e : wevent) : terminal :=
  match e with
  | WChange update taken => window_change update taken t
  | WReceive => match tWinch t with
                | Some w => mkTerminal (tWindow t) None (tReceived t ++ [w])
                | None => t
                end
  end.

Definition changes (l : list wevent) : list Window :=
  flat_map (fun e => match e with WChange u _ => [u] | WReceive => [] end) l.

(** The last non-zero value a dimension has been given. *)
Definition last_nonzero (d : Z) (l : list Z) : Z := fold_left (fun d u => if u =? 0 then d else u) l d.

(** The window of a PTY has in each dimension the last non-zero value the
    client sent; the channel holds nothing but the newest window, so that an
    application that receives until it is empty ends with the current one, and
    it never misses a change. *)
Theorem winch_latest w l :
  let t := fold_left wstep l (newTerminal w) in
  Width (tWindow t) = last_nonzero (Width w) (map Width (changes l)) /\
  Height (tWindow t) = last_nonzero (Height w) (map Height (changes l)) /\
  WidthPixels (tWindow t) = last_nonzero (WidthPixels w) (map WidthPixels (changes l)) /\
  HeightPixels (tWindow t) = last_nonzero (HeightPixels w) (map HeightPixels (changes l)) /\
  match tWinch t with
  | Some win => win = tWindow t
  | None => List.last (tReceived t) w = tWindow t
  end.
Proof.
  assert (H : forall l t,
    match tWinch t with Some win => win = tWindow t | None => List.last (tReceived t) w = tWindow t end ->
    let t' := fold_left wstep l t in
    Width (tWindow t') = last_nonzero (Width (tWindow t)) (map Width (changes l)) /\
    Height (tWindow t') = last_nonzero (Height (tWindow t)) (map Height (changes l)) /\
    WidthPixels (tWindow t') = last_nonzero (WidthPixels (tWindow t)) (map WidthPixels (changes l)) /\
    HeightPixels (tWindow t') = last_nonzero (HeightPixels (tWindow t)) (map HeightPixels (changes l)) /\
    match tWinch t' with Some win => win = tWindow t' | None => List.last (tReceived t') w = tWindow t' end).
  { clear l. induction l as [|[u taken|] l IH]; intros t Ht; simpl; [done| |].
    - destruct (IH (window_change u taken t)) as (H1 & H2 & H3 & H4 & H5).
      { unfold window_change, winch_send. by destruct (tWinch t). }
      assert (Hw : tWindow (window_change u taken t) = mergeWindow (tWindow t) u)
        by (unfold window_change; by destruct (winch_send _ _ _)).
      rewrite Hw in H1, H2, H3, H4. by split_and!.
    - destruct (tWinch t) as [x|] eqn:Hx; [|apply (IH t); by rewrite Hx].
      apply (IH (mkTerminal (tWindow t) None (tReceived t ++ [x]))). simpl. rewrite ?Hx in Ht. by rewrite List.last_last. }
  exact (H l (newTerminal w) eq_refl).
Qed.
