(* ===== verification/Context.v ===== *)
(** * Connection and session contexts ([context.go], [agent.go])

    The values an [sshContext] keeps on top of its parent's, the metadata of the
    connection, the agent flag that every session has for itself, and the
    workers that a connection waits for. *)
From Stdlib Require Import Strings.Ascii.
From stdpp Require Import relations.
From S2P Require Import Prelude.
Local Open Scope Z_scope.

(** ** Keys and values *)

Inductive contextKey :=
| contextKeyChannelLimiter | contextKeyForwardLimiter | contextKeyServeContext
| contextKeyConnectionWorkers | contextKeyConnectionResources | contextKeyAuthConflicts
| contextKeyCloseConnection | contextKeyAgentRequest
| ContextKeyUser | ContextKeySessionID | ContextKeyPermissions | ContextKeyClientVersion
| ContextKeyServerVersion | ContextKeyLocalAddr | ContextKeyRemoteAddr | ContextKeyServer
| ContextKeyConn | ContextKeyPublicKey
| OtherKey (n : nat).              (* a key of the application *)

(** The password, public key and keyboard-interactive handlers are set. *)
Record authCallbackConflicts := mkConflicts { password : bool; publicKey : bool; keyboardInteractive : bool }.

(** An [any]: [VNil] is the nil interface.  Pointers are addresses, and public
    keys are opaque. *)
Inductive ctxValue :=
| VNil
| VString (s : string)
| VAddr (addr : nat)
| VPermissions (perm : nat)
| VPublicKey (key : nat)
| VBool (b : bool)
| VConflicts (c : authCallbackConflicts)
| VOther (n : nat).

#[export] Instance ctxValue_eq_dec : EqDecision ctxValue.
Proof. assert (EqDecision authCallbackConflicts) by solve_decision. solve_decision. Defined.
#[export] Instance contextKey_eq_dec : EqDecision contextKey.
Proof. solve_decision. Defined.

Definition key_code (k : contextKey) : nat :=
  match k with
  | contextKeyChannelLimiter => 0 | contextKeyForwardLimiter => 1 | contextKeyServeContext => 2
  | contextKeyConnectionWorkers => 3 | contextKeyConnectionResources => 4 | contextKeyAuthConflicts => 5
  | contextKeyCloseConnection => 6 | contextKeyAgentRequest => 7
  | ContextKeyUser => 8 | ContextKeySessionID => 9 | ContextKeyPermissions => 10 | ContextKeyClientVersion => 11
  | ContextKeyServerVersion => 12 | ContextKeyLocalAddr => 13 | ContextKeyRemoteAddr => 14 | ContextKeyServer => 15
  | ContextKeyConn => 16 | ContextKeyPublicKey => 17
  | OtherKey n => 18 + n
  end.
Definition key_decode (n : nat) : contextKey :=
  match n with
  | 0 => contextKeyChannelLimiter | 1 => contextKeyForwardLimiter | 2 => contextKeyServeContext
  | 3 => contextKeyConnectionWorkers | 4 => contextKeyConnectionResources | 5 => contextKeyAuthConflicts
  | 6 => contextKeyCloseConnection | 7 => contextKeyAgentRequest
  | 8 => ContextKeyUser | 9 => ContextKeySessionID | 10 => ContextKeyPermissions | 11 => ContextKeyClientVersion
  | 12 => ContextKeyServerVersion | 13 => ContextKeyLocalAddr | 14 => ContextKeyRemoteAddr | 15 => ContextKeyServer
  | 16 => ContextKeyConn | 17 => ContextKeyPublicKey
  | S (S (S (S (S (S (S (S (S (S (S (S (S (S (S (S (S (S n))))))))))))))))) => OtherKey n
  end%nat.
#[export] Program Instance contextKey_countable : Countable contextKey := inj_countable' key_code key_decode _.
Next Obligation. by intros []. Qed.

(** ** Contexts

    What the package asks of a context: values can be read and written, and a
    write is seen by reads of the same key alone.  [writable] says which keys
    keep whatever they are given. *)
Class GoContext (C : Type) := {
  Value : C -> contextKey -> ctxValue;
  SetValue : contextKey -> ctxValue -> C -> C;
  writable : contextKey -> bool;
  value_set c k v : writable k = true -> Value (SetValue k v c) k = v;
  value_other c k k' v : k <> k' -> Value (SetValue k v c) k' = Value c k' }.

Record sshContext := mkContext {
  parent : contextKey -> ctxValue;      (* context.Context *)
  values : gmap contextKey ctxValue }.

Definition context_Value (c : sshContext) (k : contextKey) : ctxValue := default (parent c k) (values c !! k).
Definition context_SetValue (k : contextKey) (v : ctxValue) (c : sshContext) : sshContext :=
  mkContext (parent c) (<[k := v]> (values c)).

#[export] Program Instance sshContext_context : GoContext sshContext :=
  {| Value := context_Value; SetValue := context_SetValue; writable _ := true |}.
Next Obligation. intros c k v _. unfold context_Value. simpl. by rewrite lookup_insert_eq. Qed.
Next Obligation. intros c k k' v Hk. unfold context_Value. simpl. by rewrite lookup_insert_ne. Qed.

(** [newContextWithParent]; [perms] is the address of its new permissions. *)
Definition newContextWithParent (parent : contextKey -> ctxValue) (srv perms : nat) : sshContext :=
  SetValue ContextKeyPermissions (VPermissions perms)
    (SetValue ContextKeyServer (VOther srv) (mkContext parent ∅)).

(** ** Metadata *)

Record connMetadata := mkConnMetadata {
  meta_user : string; meta_sessionID : list byte; meta_clientVersion : string; meta_serverVersion : string;
  meta_localAddr : nat; meta_remoteAddr : nat }.

Definition hex_digit (n : N) : ascii := ascii_of_N (if (n <? 10)%N then 48 + n else 87 + n).
Fixpoint hex_EncodeToString (l : list byte) : string :=
  match l with
  | [] => ""
  | b :: l => let n := Byte.to_N b in
              String (hex_digit (n / 16)) (String (hex_digit (n mod 16)) (hex_EncodeToString l))
  end%N.

Section Metadata.
Context {C : Type} `{GoContext C}.

Definition applyConnMetadata (conn : connMetadata) (ctx : C) : C :=
  let ctx := SetValue ContextKeyUser (VString (meta_user conn)) ctx in
  match Value ctx ContextKeySessionID with
  | VNil =>
      let ctx := SetValue ContextKeySessionID (VString (hex_EncodeToString (meta_sessionID conn))) ctx in
      let ctx := SetValue ContextKeyClientVersion (VString (meta_clientVersion conn)) ctx in
      let ctx := SetValue ContextKeyServerVersion (VString (meta_serverVersion conn)) ctx in
      let ctx := SetValue ContextKeyLocalAddr (VAddr (meta_localAddr conn)) ctx in
      SetValue ContextKeyRemoteAddr (VAddr (meta_remoteAddr conn)) ctx
  | _ => ctx
  end.

(** The accessors: a failed type assertion gives the zero value. *)
Definition asString (v : ctxValue) : string := match v with VString s => s | _ => "" end.
Definition asAddr (v : ctxValue) : option nat := match v with VAddr a => Some a | _ => None end.
Definition User (ctx : C) : string := asString (Value ctx ContextKeyUser).
Definition SessionID (ctx : C) : string := asString (Value ctx ContextKeySessionID).
Definition ClientVersion (ctx : C) : string := asString (Value ctx ContextKeyClientVersion).
Definition ServerVersion (ctx : C) : string := asString (Value ctx ContextKeyServerVersion).
Definition RemoteAddr (ctx : C) : option nat := asAddr (Value ctx ContextKeyRemoteAddr).
Definition LocalAddr (ctx : C) : option nat := asAddr (Value ctx ContextKeyLocalAddr).
Definition Permissions (ctx : C) : option nat :=
  match Value ctx ContextKeyPermissions with VPermissions p => Some p | _ => None end.
End Metadata.

(** Reads the value under a key after a write of another, or the same, key. *)
Ltac context_simpl :=
  repeat first [ rewrite value_set by reflexivity | rewrite value_other by discriminate ].

(** The keys that hold metadata of the transport and the SSH session. *)
Definition session_keys : list contextKey :=
  [ContextKeySessionID; ContextKeyClientVersion; ContextKeyServerVersion; ContextKeyLocalAddr; ContextKeyRemoteAddr].

Definition session_metadata (conn : connMetadata) (k : contextKey) : ctxValue :=
  match k with
  | ContextKeySessionID => VString (hex_EncodeToString (meta_sessionID conn))
  | ContextKeyClientVersion => VString (meta_clientVersion conn)
  | ContextKeyServerVersion => VString (meta_serverVersion conn)
  | ContextKeyLocalAddr => VAddr (meta_localAddr conn)
  | ContextKeyRemoteAddr => VAddr (meta_remoteAddr conn)
  | _ => VNil
  end.

Section MetadataLaws.
Context {C : Type} `{GoContext C}.
Hypothesis all_writable : forall k, writable k = true.

Lemma apply_user conn (ctx : C) : Value (applyConnMetadata conn ctx) ContextKeyUser = VString (meta_user conn).
Proof.
  unfold applyConnMetadata.
  destruct (Value (SetValue ContextKeyUser _ ctx) ContextKeySessionID);
    repeat first [rewrite value_set by apply all_writable | rewrite value_other by discriminate]; done.
Qed.

Lemma apply_first conn (ctx : C) k :
  Value ctx ContextKeySessionID = VNil -> k ∈ session_keys ->
  Value (applyConnMetadata conn ctx) k = session_metadata conn k.
Proof.
  intros Hnil Hk. unfold applyConnMetadata. rewrite value_other, Hnil by discriminate.
  unfold session_keys in Hk. rewrite !elem_of_cons, elem_of_nil in Hk.
  destruct Hk as [->|[->|[->|[->|[->|[]]]]]];
    repeat first [rewrite value_set by apply all_writable | rewrite value_other by discriminate]; done.
Qed.

(** Nothing else is touched, and nothing but the user once there is a session. *)
Lemma apply_other conn (ctx : C) k :
  k <> ContextKeyUser -> (k ∈ session_keys -> Value ctx ContextKeySessionID <> VNil) ->
  Value (applyConnMetadata conn ctx) k = Value ctx k.
Proof.
  intros Hu Hk. unfold applyConnMetadata. rewrite (value_other _ ContextKeyUser ContextKeySessionID) by discriminate.
  destruct (Value ctx ContextKeySessionID); try by rewrite value_other.
  rewrite !value_other; try done; intros <-; apply Hk; by (repeat (left || right)).
Qed.
End MetadataLaws.

(** Later metadata changes the user alone. *)
Lemma apply_all_later conns (ctx : sshContext) k :
  Value ctx ContextKeySessionID <> VNil -> k <> ContextKeyUser ->
  Value (foldl (fun c m => applyConnMetadata m c) ctx conns) k = Value ctx k.
Proof.
  revert ctx. induction conns as [|conn conns IH]; intros ctx Hs Hk; [done|]. cbn [foldl].
  rewrite IH; [by apply apply_other| |done]. by rewrite apply_other.
Qed.

Lemma apply_all_user conns conn (ctx : sshContext) :
  Value (foldl (fun c m => applyConnMetadata m c) ctx (conn :: conns)) ContextKeyUser =
    VString (meta_user (List.last (conn :: conns) conn)).
Proof.
  assert (H : forall conns conn d (ctx : sshContext),
    Value (foldl (fun c m => applyConnMetadata m c) ctx (conn :: conns)) ContextKeyUser =
      VString (meta_user (List.last (conn :: conns) d))); [|apply H].
  clear. induction conns as [|c conns IH]; intros conn d ctx; [by apply apply_user|].
  cbn [foldl] in *. rewrite (IH c d). done.
Qed.

(** The metadata of a connection is bound to the SSH session that is seen
    first and never changes afterwards, while the user follows the latest
    authentication attempt; but a context whose parent has a session already
    (a connection served with the [Context] of another session) never gets the
    metadata of its own. *)
Theorem metadata_bound parent srv perms conn conns :
  let ctx := foldl (fun c m => applyConnMetadata m c) (newContextWithParent parent srv perms) (conn :: conns) in
  User ctx = meta_user (List.last (conn :: conns) conn) /\
  Forall (fun k => Value ctx k = if decide (parent ContextKeySessionID = VNil) then session_metadata conn k
                                 else parent k) session_keys.
Proof.
  cbv zeta. unfold User. rewrite apply_all_user. split; [done|]. apply Forall_forall. intros k Hk.
  assert (Hu : k <> ContextKeyUser) by (intros ->; unfold session_keys in Hk; set_solver).
  set (new := newContextWithParent parent srv perms).
  assert (Hnew : forall k, k ∈ session_keys -> Value new k = parent k).
  { intros k' Hk'. unfold new, newContextWithParent. rewrite !value_other; [done|..];
      intros <-; unfold session_keys in Hk'; set_solver. }
  assert (Hid : ContextKeySessionID ∈ session_keys) by by left.
  cbn [foldl]. destruct (decide _) as [Hp|Hp].
  - rewrite <- (Hnew _ Hid) in Hp. rewrite apply_all_later, apply_first; try done. by rewrite apply_first.
  - rewrite <- (Hnew _ Hid) in Hp. rewrite apply_all_later, apply_other; [by apply Hnew|done..|by rewrite apply_other|done].
Qed.

(** ** Agent forwarding, session by session

    Every session has a [sessionAgentContext] around the same connection
    context; [flags] are the [requested] flags of the sessions. *)
Record sessionContexts := mkSessionContexts { connection : sshContext; flags : nat -> bool }.

Definition agent_Value (i : nat) (s : sessionContexts) (k : contextKey) : ctxValue :=
  if decide (k = contextKeyAgentRequest) then VBool (flags s i) else Value (connection s) k.

Definition agent_SetValue (i : nat) (k : contextKey) (v : ctxValue) (s : sessionContexts) : sessionContexts :=
  if decide (k = contextKeyAgentRequest)
  then mkSessionContexts (connection s) (fun j => if decide (j = i) then bool_decide (v = VBool true) else flags s j)
  else mkSessionContexts (SetValue k v (connection s)) (flags s).

Definition SetAgentRequested (i : nat) (s : sessionContexts) : sessionContexts :=
  agent_SetValue i contextKeyAgentRequest (VBool true) s.
Definition AgentRequested (i : nat) (s : sessionContexts) : bool :=
  bool_decide (agent_Value i s contextKeyAgentRequest = VBool true).

(** A session's view is a context of its own, except that it keeps only
    whether agent forwarding was requested. *)
Program Definition session_view (i : nat) : GoContext sessionContexts :=
  {| Value := agent_Value i; SetValue := agent_SetValue i;
     writable k := bool_decide (k <> contextKeyAgentRequest) |}.
Next Obligation.
  intros i c k v Hk%bool_decide_eq_true. unfold agent_Value, agent_SetValue.
  rewrite !decide_False by done. by apply (value_set (connection c)).
Qed.
Next Obligation.
  intros i c k k' v Hk. unfold agent_Value, agent_SetValue. repeat case_decide; subst; simpl; try done.
  exact (value_other (connection c) k k' v Hk).
Qed.

(** Agent forwarding is granted to one session at a time: a grant, and
    whatever else a session stores under that key, changes neither the flag of
    another session nor the connection's context, while every other value is
    shared by all sessions. *)
Theorem agent_flag_local i j k v s :
  AgentRequested i (SetAgentRequested i s) = true /\
  (j <> i -> AgentRequested j (agent_SetValue i k v s) = AgentRequested j s) /\
  (k = contextKeyAgentRequest -> connection (agent_SetValue i k v s) = connection s) /\
  (k <> contextKeyAgentRequest -> agent_Value j (agent_SetValue i k v s) k = v).
Proof.
  unfold AgentRequested, SetAgentRequested, agent_Value, agent_SetValue. split_and!.
  - rewrite !decide_True by done. simpl. by rewrite decide_True.
  - intros Hj. rewrite !decide_True by done. case_decide; simpl; [by rewrite decide_False|done].
  - intros Hk. by rewrite decide_True.
  - intros Hk. rewrite !decide_False by done. by apply (value_set (connection s)).
Qed.

(** ** Workers *)

Record connectionWorkers := mkWorkers { workers_closed : bool; wg : nat }.

(** The critical section of [goRun]: whether [fn] gets a goroutine. *)
Definition goRun (w : connectionWorkers) : bool * connectionWorkers :=
  if workers_closed w then (false, w) else (true, mkWorkers false (S (wg w))).

(** [closeAndWait] up to [wg.Wait], which then returns when the count is zero. *)
Definition closeAndWait (w : connectionWorkers) : connectionWorkers := mkWorkers true (wg w).

(** The workers with the number of [closeAndWait] calls that wait and whether
    one has returned, under any interleaving. *)
Inductive wkstep : connectionWorkers * nat * bool -> connectionWorkers * nat * bool -> Prop :=
| wk_goRun w n r : wkstep (w, n, r) (snd (goRun w), n, r)
| wk_done c m n r : wkstep (mkWorkers c (S m), n, r) (mkWorkers c m, n, r)
| wk_close w n r : wkstep (w, n, r) (closeAndWait w, S n, r)
| wk_wait c n r : wkstep (mkWorkers c 0, S n, r) (mkWorkers c 0, n, true).

(** Once [closeAndWait] has returned no worker of the connection is running
    and none can be started, however the calls interleave. *)
Theorem workers_stopped w n :
  rtc wkstep (mkWorkers false 0, O, false) (w, n, true) -> wg w = O /\ goRun w = (false, w).
Proof.
  intros Hr.
  assert (Hinv : forall s s', rtc wkstep s s' ->
    (snd (fst s) <> O -> workers_closed (fst (fst s)) = true) ->
    (snd s = true -> workers_closed (fst (fst s)) = true /\ wg (fst (fst s)) = O) ->
    snd s' = true -> workers_closed (fst (fst s')) = true /\ wg (fst (fst s')) = O).
  { clear. induction 1 as [s|s s' s'' Hst _ IH]; [done|]. intros Hn Hc. apply IH; clear IH.
    - destruct Hst as [[[] m] k r|c m k r|v k r|c k r]; simpl in *; auto.
    - destruct Hst as [[[] m] k r|c m k r|v k r|c k r]; simpl in *; try done.
      + intros Hr. by destruct (Hc Hr).
      + intros Hr. by destruct (Hc Hr).
      + intros Hr. by destruct (Hc Hr).
      + intros _. by rewrite Hn. }
  destruct (Hinv _ _ Hr) as [Hc Hw]; try done. split; [done|]. unfold goRun. simpl in Hc. by rewrite Hc.
Qed.

Lemma workers_stopped_witness :
  let w := mkWorkers true 0 in
  rtc wkstep (mkWorkers false 0, O, false) (w, O, true) /\ goRun w = (false, w).
Proof.
  assert (H : rtc wkstep (mkWorkers false 0, O, false) (mkWorkers true 0, O, true)).
  { eapply rtc_l; [apply wk_goRun|]. eapply rtc_l; [apply wk_close|]. eapply rtc_l; [apply wk_done|].
    eapply rtc_l; [apply wk_wait|]. constructor. }
  split; [exact H|]. exact (proj2 (workers_stopped _ _ H)).
Defined.
