(* ===== verification/Auth.v ===== *)
(** * Authentication ([server.go])

    [configForConnection] builds the configuration of one SSH handshake from the
    server's handlers and from what [ServerConfigCallback] put there.  Callbacks
    of the application work on the heap of permissions; what the handshake gets
    are callbacks on the whole state of the authentication, and the types keep
    the two apart, so that every callback has to be wrapped.  How the handshake
    calls them is up to [x/crypto/ssh]: [acall] is any single call of its. *)
From S2P Require Import Prelude GoErrors Names Context.
Local Open Scope Z_scope.

Definition ErrServerPermissionDenied := ErrNew 60 "permission denied".
Definition ErrServerAuthCallbackConflict := ErrNew 61 "ssh: conflicting authentication callbacks".

(** ** Results and callbacks

    A callback works on a state [S] and returns permissions (an address, or
    nil) and a result.  [Partially] is an error that contains a
    [*PartialSuccessError] with the callbacks of the next step; [direct]: it is
    one itself, and not only wraps one. *)
Inductive authResult (S : Type) :=
| Granted
| Refused (err : error)
| Partially (direct : bool) (next : authCallbacks S)
with authCallbacks (S : Type) :=
| mkCallbacks
    (password : option (connMetadata -> string -> S -> option nat * authResult S * S))
    (publicKey : option (connMetadata -> nat -> S -> option nat * authResult S * S))
    (keyboardInteractive : option (connMetadata -> nat -> S -> option nat * authResult S * S))
    (gssapiWithMIC : option (option (connMetadata -> string -> S -> option nat * authResult S * S))).
Arguments Granted {S}.
Arguments Refused {S} err.
Arguments Partially {S} direct next.
Arguments mkCallbacks {S} password publicKey keyboardInteractive gssapiWithMIC.

Abbreviation callback A S := (connMetadata -> A -> S -> option nat * authResult S * S).

Definition PasswordCallback {S} (c : authCallbacks S) : option (callback string S) :=
  let 'mkCallbacks pw _ _ _ := c in pw.
Definition PublicKeyCallback {S} (c : authCallbacks S) : option (callback nat S) :=
  let 'mkCallbacks _ pk _ _ := c in pk.
Definition KeyboardInteractiveCallback {S} (c : authCallbacks S) : option (callback nat S) :=
  let 'mkCallbacks _ _ ki _ := c in ki.
(** A [*GSSAPIWithMICConfig] with its [AllowLogin]. *)
Definition GSSAPIWithMICConfig {S} (c : authCallbacks S) : option (option (callback string S)) :=
  let 'mkCallbacks _ _ _ gss := c in gss.

(** What an error tells [errors.AsType]. *)
Inductive authOutcome := Succeeded | Failed | PartialSuccess.
Definition outcome_of {S} (r : authResult S) : authOutcome :=
  match r with Granted => Succeeded | Refused _ => Failed | Partially _ _ => PartialSuccess end.

(** ** State *)

Record permissionsData := mkPermissions {
  CriticalOptions : gmap string string; Extensions : gmap string string; ExtraData : gmap string nat }.
Definition noPermissions : permissionsData := mkPermissions ∅ ∅ ∅.
(** Permissions are addressed by their position. *)
Definition heap := list permissionsData.

Record publicKeyAuthState := mkPublicKeyState { candidate : option nat; pending : option nat }.
Record handshakeCallbackFailure := mkFailure { failure_err : option error; transport_closes : nat }.

Record authState := mkAuthState {
  auth_ctx : sshContext;
  auth_heap : heap;
  auth_failure : handshakeCallbackFailure;
  auth_key : publicKeyAuthState }.

Definition set_ctx (c : sshContext) (st : authState) : authState :=
  mkAuthState c (auth_heap st) (auth_failure st) (auth_key st).
Definition set_heap (h : heap) (st : authState) : authState :=
  mkAuthState (auth_ctx st) h (auth_failure st) (auth_key st).
Definition set_failure (f : handshakeCallbackFailure) (st : authState) : authState :=
  mkAuthState (auth_ctx st) (auth_heap st) f (auth_key st).
Definition set_key (k : publicKeyAuthState) (st : authState) : authState :=
  mkAuthState (auth_ctx st) (auth_heap st) (auth_failure st) k.

Definition apply_metadata (conn : connMetadata) (st : authState) : authState :=
  set_ctx (applyConnMetadata conn (auth_ctx st)) st.

(** [handshakeCallbackFailure.record] of an error. *)
Definition record_failure (err : error) (st : authState) : authState :=
  let f := auth_failure st in
  set_failure (mkFailure (match failure_err f with None => Some err | Some e => Some e end) (S (transport_closes f))) st.

Definition publishAuthPermissions (permissions : option nat) (st : authState) : authState :=
  match permissions with
  | Some p => set_ctx (SetValue ContextKeyPermissions (VPermissions p) (auth_ctx st)) st
  | None =>
      let p := length (auth_heap st) in
      set_ctx (SetValue ContextKeyPermissions (VPermissions p) (auth_ctx st))
        (set_heap (auth_heap st ++ [noPermissions]) st)
  end.

Definition beginAuthAttempt (st : authState) : nat * authState :=
  let p := length (auth_heap st) in
  (p, publishAuthPermissions (Some p) (set_heap (auth_heap st ++ [noPermissions]) st)).

(** ** The key of a public key authentication *)

Definition recordVerified {S} (key : nat) (err : authResult S) (st : authState) : authState :=
  set_key (mkPublicKeyState (match outcome_of err with Failed => None | _ => Some key end) (pending (auth_key st))) st.

Definition key_value (key : option nat) : ctxValue := match key with Some k => VPublicKey k | None => VNil end.

Definition finishAttempt (method : string) (err : authOutcome) (st : authState) : authState :=
  let k := auth_key st in
  let publish key st := set_ctx (SetValue ContextKeyPublicKey (key_value key) (auth_ctx st)) st in
  if negb (bool_decide (method = "publickey")) then
    match err, pending k with
    | Succeeded, Some key => publish (Some key) st
    | _, _ => st
    end
  else
    let cand := candidate k in
    let st := set_key (mkPublicKeyState None (pending k)) st in
    match err with
    | Succeeded =>
        match cand with
        | Some key => publish (Some key) (set_key (mkPublicKeyState None (Some key)) st)
        | None => st
        end
    | PartialSuccess => publish cand (set_key (mkPublicKeyState None cand) st)
    | Failed => match pending k with None => publish None st | Some _ => st end
    end.

(** ** Callbacks of the application, wrapped

    Between the wrapping of its arguments and of its result, a callback of the
    application sees and changes the heap of permissions alone. *)
Definition auth_conflicts (ctx : sshContext) : authCallbackConflicts :=
  match Value ctx contextKeyAuthConflicts with VConflicts c => c | _ => mkConflicts false false false end.

Definition conflictCallback {A S} : callback A S := fun _ _ st => (None, Refused ErrServerAuthCallbackConflict, st).

(** The common shape of [wrapPasswordCallback], [wrapPublicKeyCallback],
    [wrapKeyboardInteractiveCallback] and [wrapGSSAPIWithMICConfig]; a key is
    [publish]ed only once it is verified.  [wrapErr] is [wrapAuthError]. *)
Definition wrapCallback {A} (publish : bool)
    (wrapErr : authCallbackConflicts -> authResult heap -> authResult authState)
    (cb : callback A heap) : callback A authState := fun conn arg st =>
  let st := snd (beginAuthAttempt (apply_metadata conn st)) in
  let '(permissions, r, h) := cb conn arg (auth_heap st) in
  let st := set_heap h st in
  let st := match r with Granted => if publish then publishAuthPermissions permissions st else st | _ => st end in
  (permissions, wrapErr (auth_conflicts (auth_ctx st)) r, st).

Fixpoint wrapAuthError (conflicts : authCallbackConflicts) (r : authResult heap) : authResult authState :=
  match r with
  | Granted => Granted
  | Refused err => Refused err
  | Partially _ next => Partially true (wrapAuthCallbacks conflicts next)
  end
with wrapAuthCallbacks (conflicts : authCallbackConflicts) (c : authCallbacks heap) : authCallbacks authState :=
  match c with
  | mkCallbacks pw pk ki gss =>
      mkCallbacks
        match pw with
        | None => None
        | Some cb => Some (if password conflicts then conflictCallback else wrapCallback true wrapAuthError cb)
        end
        match pk with
        | None => None
        | Some cb => Some (if publicKey conflicts then conflictCallback else wrapCallback false wrapAuthError cb)
        end
        match ki with
        | None => None
        | Some cb => Some (if keyboardInteractive conflicts then conflictCallback else wrapCallback true wrapAuthError cb)
        end
        match gss with
        | Some (Some cb) => Some (Some (wrapCallback true wrapAuthError cb))
        | Some None => Some None
        | None => None
        end
  end.

(** A callback of the application that is left as it is. *)
Definition lift_callback {A} (lift : authResult heap -> authResult authState) (cb : callback A heap) : callback A authState :=
  fun conn arg st => let '(permissions, r, h) := cb conn arg (auth_heap st) in (permissions, lift r, set_heap h st).

Fixpoint lift_result (r : authResult heap) : authResult authState :=
  match r with
  | Granted => Granted
  | Refused err => Refused err
  | Partially direct next => Partially direct (lift_callbacks next)
  end
with lift_callbacks (c : authCallbacks heap) : authCallbacks authState :=
  match c with
  | mkCallbacks pw pk ki gss =>
      mkCallbacks
        match pw with Some cb => Some (lift_callback lift_result cb) | None => None end
        match pk with Some cb => Some (lift_callback lift_result cb) | None => None end
        match ki with Some cb => Some (lift_callback lift_result cb) | None => None end
        match gss with
        | Some (Some cb) => Some (Some (lift_callback lift_result cb))
        | Some None => Some None
        | None => None
        end
  end.

(** ** The configuration of a handshake *)

(** [gossh.ServerConfig], as far as it is used; [S] as for callbacks. *)
Record serverConfig (S : Type) := mkServerConfig {
  NoClientAuth : bool;
  NoClientAuthCallback : option (connMetadata -> S -> option nat * authResult S * S);
  methods : authCallbacks S;
  VerifiedPublicKeyCallback : option (connMetadata -> nat -> option nat -> string -> S -> option nat * authResult S * S);
  PreAuthConnCallback : option (connMetadata -> S -> S);
  AuthLogCallback : option (connMetadata -> string -> authOutcome -> S -> S);
  BannerCallback : option (connMetadata -> S -> string * S);
  config_Ciphers : list string;
  config_KeyExchanges : list string;
  config_MACs : list string;
  hostKeys : list nat;              (* the arguments of AddHostKey, in order *)
  ServerVersion : string }.
Arguments mkServerConfig {S}.
Arguments NoClientAuth {S} s.
Arguments NoClientAuthCallback {S} s.
Arguments methods {S} s.
Arguments VerifiedPublicKeyCallback {S} s.
Arguments PreAuthConnCallback {S} s.
Arguments AuthLogCallback {S} s.
Arguments BannerCallback {S} s.
Arguments config_Ciphers {S} s.
Arguments config_KeyExchanges {S} s.
Arguments config_MACs {S} s.
Arguments hostKeys {S} s.
Arguments ServerVersion {S} s.

(** A handler reads the context, and the permissions it may grant through it. *)
Abbreviation handler A := (sshContext -> connMetadata -> A -> heap -> bool * option error * heap).

Record authServer := mkAuthServer {
  PasswordHandler : option (handler string);
  PublicKeyHandler : option (handler nat);
  KeyboardInteractiveHandler : option (handler nat);
  BannerHandler : option (sshContext -> connMetadata -> heap -> string * option error * heap);
  RequireClientAuth : bool;
  Version : string;
  Ciphers : list Cipher;
  KeyExchanges : list KeyExchange;
  MessageAuthentications : list MessageAuthentication;
  hostSigners : list nat;
  ServerConfigCallback : option (error + serverConfig heap) }.   (* what it does to the empty config *)

Definition emptyServerConfig : serverConfig heap :=
  mkServerConfig false None (mkCallbacks None None None None) None None None None [] [] [] [] "".

(** The callback for a handler of the server. *)
Definition handlerCallback {A} (h : handler A) : callback A authState := fun conn arg st =>
  let '(permissions, st) := beginAuthAttempt (apply_metadata conn st) in
  let '(ok, err, hp) := h (auth_ctx st) conn arg (auth_heap st) in
  let st := set_heap hp st in
  match err with
  | Some e => (Some permissions, Refused e, record_failure e st)
  | None => (Some permissions, if ok : bool then Granted else Refused ErrServerPermissionDenied, st)
  end.

(** One authentication method: the server's handler, the application's callback
    if there is none, and never both. *)
Definition method_callback {A} (publish : bool) (h : option (handler A)) (custom : option (callback A heap))
    : option (callback A authState) :=
  match h with
  | Some h => Some (match custom with Some _ => conflictCallback | None => handlerCallback h end)
  | None => match custom with
            | Some cb => Some (wrapCallback publish wrapAuthError cb)
            | None => None
            end
  end.

Definition noClientAuthCallback (custom : option (connMetadata -> heap -> option nat * authResult heap * heap))
    (conn : connMetadata) (st : authState) : option nat * authResult authState * authState :=
  let '(permissions, st) := beginAuthAttempt (apply_metadata conn st) in
  match custom with
  | None => (Some permissions, Granted, publishAuthPermissions (Some permissions) st)
  | Some cb =>
      let '(permissions, r, h) := cb conn (auth_heap st) in
      let st := set_heap h st in
      match r with
      | Granted => (permissions, Granted, publishAuthPermissions permissions st)
      | _ => (permissions, wrapAuthError (auth_conflicts (auth_ctx st)) r, st)
      end
  end.

(** Without [NoClientAuth] the application's callback stays. *)
Definition keptNoClientAuthCallback (custom : option (connMetadata -> heap -> option nat * authResult heap * heap))
    : option (connMetadata -> authState -> option nat * authResult authState * authState) :=
  match custom with
  | Some cb => Some (fun conn st => lift_callback lift_result (fun conn (_ : unit) => cb conn) conn tt st)
  | None => None
  end.

Definition verifiedPublicKeyCallback
    (custom : option (connMetadata -> nat -> option nat -> string -> heap -> option nat * authResult heap * heap))
    (conn : connMetadata) (key : nat) (permissions : option nat) (signatureAlgorithm : string) (st : authState)
    : option nat * authResult authState * authState :=
  let st := apply_metadata conn st in
  let '(permissions, r, st) :=
    match custom with
    | None => (permissions, Granted, st)
    | Some cb => let '(p, r, h) := cb conn key permissions signatureAlgorithm (auth_heap st) in (p, r, set_heap h st)
    end in
  match r with
  | Granted => (permissions, Granted, publishAuthPermissions permissions (recordVerified key r st))
  | _ => (permissions, wrapAuthError (auth_conflicts (auth_ctx st)) r, recordVerified key r st)
  end.

(** The banner of the handler; its error ends the handshake. *)
Definition bannerCallback (v : sshContext -> connMetadata -> heap -> string * option error * heap)
    (conn : connMetadata) (st : authState) : string * authState :=
  let st := apply_metadata conn st in
  let '(banner, err, h) := v (auth_ctx st) conn (auth_heap st) in
  let st := set_heap h st in
  match err with Some e => ("", record_failure e st) | None => (banner, st) end.

(** A list of algorithms: the server's, the application's, the default. *)
Definition algorithms {E} `{NamedEnum E} (own default : list E) (custom : list string) : list string :=
  if negb (bool_decide (own = [])) || bool_decide (custom = [])
  then map to_String (if bool_decide (own = []) then default else own)
  else custom.

Definition is_set {A} (o : option A) : bool := match o with Some _ => true | None => false end.

(** What [configForConnection] makes of the application's configuration. *)
Definition completeConfig (srv : authServer) (config : serverConfig heap) : serverConfig authState :=
  let custom := methods config in
  let noClientAuth := NoClientAuth config ||
    negb (RequireClientAuth srv) && negb (is_set (PasswordHandler srv)) && negb (is_set (PublicKeyHandler srv)) &&
    negb (is_set (KeyboardInteractiveHandler srv)) && negb (is_set (PasswordCallback custom)) &&
    negb (is_set (PublicKeyCallback custom)) && negb (is_set (KeyboardInteractiveCallback custom)) &&
    negb (is_set (GSSAPIWithMICConfig custom)) in
  mkServerConfig noClientAuth
    (if noClientAuth then Some (noClientAuthCallback (NoClientAuthCallback config))
     else keptNoClientAuthCallback (NoClientAuthCallback config))
    (mkCallbacks (method_callback true (PasswordHandler srv) (PasswordCallback custom))
       (method_callback false (PublicKeyHandler srv) (PublicKeyCallback custom))
       (method_callback true (KeyboardInteractiveHandler srv) (KeyboardInteractiveCallback custom))
       (match GSSAPIWithMICConfig custom with
        | Some (Some cb) => Some (Some (wrapCallback true wrapAuthError cb))
        | Some None => Some None
        | None => None
        end))
    (Some (verifiedPublicKeyCallback (VerifiedPublicKeyCallback config)))
    (match PreAuthConnCallback config with
     | Some cb => Some (fun conn st => let st := apply_metadata conn st in set_heap (cb conn (auth_heap st)) st)
     | None => None
     end)
    (Some (fun conn method err st =>
       let st := finishAttempt method err (apply_metadata conn st) in
       match AuthLogCallback config with
       | Some log => set_heap (log conn method err (auth_heap st)) st
       | None => st
       end))
    (match BannerHandler srv, BannerCallback config with
     | Some v, _ => Some (bannerCallback v)
     | None, Some cb => Some (fun conn st =>
         let st := apply_metadata conn st in
         let '(banner, h) := cb conn (auth_heap st) in (banner, set_heap h st))
     | None, None => None
     end)
    (algorithms (Ciphers srv) DefaultCiphers (config_Ciphers config))
    (algorithms (KeyExchanges srv) DefaultKeyExchanges (config_KeyExchanges config))
    (algorithms (MessageAuthentications srv) DefaultMessageAuthentications (config_MACs config))
    (hostKeys config ++ hostSigners srv)
    (if bool_decide (Version srv = "") then ServerVersion config else ("SSH-2.0-" +:+ Version srv)%string).

Definition server_conflicts (srv : authServer) : authCallbackConflicts :=
  mkConflicts (is_set (PasswordHandler srv)) (is_set (PublicKeyHandler srv)) (is_set (KeyboardInteractiveHandler srv)).

(** [Server.configForConnection]; the conflicts are left in the context. *)
Definition configForConnection (srv : authServer) (st : authState) : (error + serverConfig authState) * authState :=
  match match ServerConfigCallback srv with None => inr emptyServerConfig | Some c => c end with
  | inl err => (inl err, st)
  | inr config =>
      (inr (completeConfig srv config),
       set_ctx (SetValue contextKeyAuthConflicts (VConflicts (server_conflicts srv)) (auth_ctx st)) st)
  end.

(** ** Calls of the handshake *)

(** What is recorded of a call: the verification of a key, which the callbacks
    refused or not, and the end of an attempt. *)
Inductive authEvent := Verified (key : nat) (refused : bool) | Attempted (method : string) (outcome : authOutcome).

Definition next_of {S} (r : authResult S) : list (authCallbacks S) :=
  match r with Partially _ next => [next] | _ => [] end.

Definition is_refused {S} (r : authResult S) : bool := match r with Refused _ => true | _ => false end.

(** Any sequence of calls that a handshake may make with a configuration: of
    the callbacks it was given, in [c] or by partial successes, with whatever
    the client sends, in any order.  [NoClientAuthCallback] is called only
    where [NoClientAuth] is set, as its documentation says. *)
Section Calls.
Variable c : serverConfig authState.
Variable st0 : authState.

Inductive auth_run : list authEvent -> list (authCallbacks authState) -> authState -> Prop :=
| ar_start : auth_run [] [] st0
| ar_none cb conn p r ev later st st' :
    auth_run ev later st -> NoClientAuth c = true -> NoClientAuthCallback c = Some cb -> cb conn st = (p, r, st') ->
    auth_run ev (next_of r ++ later) st'
| ar_password m cb conn pw p r ev later st st' :
    auth_run ev later st -> m ∈ methods c :: later -> PasswordCallback m = Some cb -> cb conn pw st = (p, r, st') ->
    auth_run ev (next_of r ++ later) st'
| ar_publicKey m cb conn key p r ev later st st' :
    auth_run ev later st -> m ∈ methods c :: later -> PublicKeyCallback m = Some cb -> cb conn key st = (p, r, st') ->
    auth_run ev (next_of r ++ later) st'
| ar_interactive m cb conn ch p r ev later st st' :
    auth_run ev later st -> m ∈ methods c :: later -> KeyboardInteractiveCallback m = Some cb ->
    cb conn ch st = (p, r, st') -> auth_run ev (next_of r ++ later) st'
| ar_gssapi m cb conn src p r ev later st st' :
    auth_run ev later st -> m ∈ methods c :: later -> GSSAPIWithMICConfig m = Some (Some cb) ->
    cb conn src st = (p, r, st') -> auth_run ev (next_of r ++ later) st'
| ar_verified cb conn key perms alg p r ev later st st' :
    auth_run ev later st -> VerifiedPublicKeyCallback c = Some cb -> cb conn key perms alg st = (p, r, st') ->
    auth_run (ev ++ [Verified key (is_refused r)]) (next_of r ++ later) st'
| ar_log cb conn method outcome ev later st :
    auth_run ev later st -> AuthLogCallback c = Some cb ->
    auth_run (ev ++ [Attempted method outcome]) later (cb conn method outcome st)
| ar_banner cb conn banner ev later st st' :
    auth_run ev later st -> BannerCallback c = Some cb -> cb conn st = (banner, st') -> auth_run ev later st'
| ar_preAuth cb conn ev later st :
    auth_run ev later st -> PreAuthConnCallback c = Some cb -> auth_run ev later (cb conn st).
End Calls.

(** ** What callbacks leave alone *)

(** The context keeps the conflicts and the key, and the state of public keys
    does not change. *)
Definition untouched (st st' : authState) : Prop :=
  Value (auth_ctx st') contextKeyAuthConflicts = Value (auth_ctx st) contextKeyAuthConflicts /\
  Value (auth_ctx st') ContextKeyPublicKey = Value (auth_ctx st) ContextKeyPublicKey /\
  auth_key st' = auth_key st.

Lemma untouched_refl st : untouched st st.
Proof. done. Qed.
Lemma untouched_trans a b c : untouched a b -> untouched b c -> untouched a c.
Proof. unfold untouched. intros (? & ? & ?) (? & ? & ?). split_and!; congruence. Qed.

Lemma untouched_heap st st' h : untouched st st' -> untouched st (set_heap h st').
Proof. done. Qed.
Lemma untouched_failure st st' f : untouched st st' -> untouched st (set_failure f st').
Proof. done. Qed.

Lemma untouched_metadata conn st st' : untouched st st' -> untouched st (apply_metadata conn st').
Proof.
  intros (H1 & H2 & H3). unfold untouched, apply_metadata. cbn [auth_ctx auth_key set_ctx].
  rewrite !apply_other; try done; unfold session_keys; set_solver.
Qed.

Lemma untouched_publish p st st' : untouched st st' -> untouched st (publishAuthPermissions p st').
Proof.
  intros (H1 & H2 & H3). unfold untouched, publishAuthPermissions.
  destruct p; cbn [auth_ctx auth_key set_ctx set_heap]; by rewrite !value_other.
Qed.

Lemma untouched_begin st st' : untouched st st' -> untouched st (snd (beginAuthAttempt st')).
Proof. intros H. unfold beginAuthAttempt. cbn [snd]. apply untouched_publish. done. Qed.

#[local] Hint Resolve untouched_refl untouched_heap untouched_failure untouched_metadata untouched_publish
  untouched_begin : ssh.

Section Tame.
Variable conflicts : authCallbackConflicts.

Definition in_force (st : authState) : Prop := Value (auth_ctx st) contextKeyAuthConflicts = VConflicts conflicts.

(** The callbacks of a partial success are the wrapped ones. *)
Definition wrapped_next (r : authResult authState) : Prop :=
  Forall (fun next => exists raw, next = wrapAuthCallbacks conflicts raw) (next_of r).

Lemma in_force_conflicts st : in_force st -> auth_conflicts (auth_ctx st) = conflicts.
Proof. unfold in_force, auth_conflicts. by intros ->. Qed.

Lemma in_force_untouched st st' : in_force st -> untouched st st' -> in_force st'.
Proof. unfold in_force. intros H (H' & _). by rewrite H'. Qed.

Lemma wrapped_error st r : in_force st -> wrapped_next (wrapAuthError (auth_conflicts (auth_ctx st)) r).
Proof.
  intros H. rewrite (in_force_conflicts _ H). destruct r; try by constructor. apply Forall_cons_2; [by eexists|constructor].
Qed.

Definition tame (res : option nat * authResult authState * authState) (st : authState) : Prop :=
  in_force st -> untouched st (snd res) /\ wrapped_next (snd (fst res)).

Lemma tame_conflict {A} conn (a : A) st : tame (conflictCallback conn a st) st.
Proof. intros _. split; [done|constructor]. Qed.

Lemma tame_wrap {A} publish (cb : callback A heap) conn a st : tame (wrapCallback publish wrapAuthError cb conn a st) st.
Proof.
  intros Hf. unfold wrapCallback. set (st1 := snd (beginAuthAttempt (apply_metadata conn st))).
  assert (H1 : untouched st st1) by (subst st1; auto with ssh).
  destruct (cb conn a (auth_heap st1)) as [[p r] h].
  assert (H2 : untouched st (match r with
    | Granted => if publish then publishAuthPermissions p (set_heap h st1) else set_heap h st1
    | _ => set_heap h st1 end)) by (destruct r; [destruct publish| |]; auto with ssh).
  split; [done|]. cbn [fst snd]. apply wrapped_error. by eapply in_force_untouched.
Qed.

Lemma tame_handler {A} (h : handler A) conn a st : tame (handlerCallback h conn a st) st.
Proof.
  intros _. unfold handlerCallback. pose proof (untouched_begin st (apply_metadata conn st)) as H.
  destruct (beginAuthAttempt (apply_metadata conn st)) as [p st1]. cbn [snd] in H.
  destruct (h (auth_ctx st1) conn a (auth_heap st1)) as [[ok err] hp].
  assert (H1 : untouched st st1) by auto with ssh.
  destruct err; [|destruct ok]; (split; [|constructor]); cbn [snd]; auto with ssh.
Qed.

Lemma tame_method {A} publish (h : option (handler A)) custom cb conn a st :
  method_callback publish h custom = Some cb -> tame (cb conn a st) st.
Proof.
  unfold method_callback. destruct h as [h|].
  - destruct custom; intros [= <-]; [apply tame_conflict|apply tame_handler].
  - destruct custom; intros [= <-]. apply tame_wrap.
Qed.

Lemma tame_none custom conn st : tame (noClientAuthCallback custom conn st) st.
Proof.
  intros Hf. unfold noClientAuthCallback. pose proof (untouched_begin st (apply_metadata conn st)) as H.
  destruct (beginAuthAttempt (apply_metadata conn st)) as [p st1]. cbn [snd] in H.
  assert (H1 : untouched st st1) by auto with ssh.
  destruct custom as [cb|]; [|split; [|constructor]; cbn [snd]; auto with ssh].
  destruct (cb conn (auth_heap st1)) as [[p' r] h].
  assert (Hw : wrapped_next (wrapAuthError (auth_conflicts (auth_ctx (set_heap h st1))) r))
    by (apply wrapped_error; eapply in_force_untouched; eauto with ssh).
  destruct r; (split; [cbn [snd]; auto with ssh|exact Hw || constructor]).
Qed.

Lemma tame_next {A} (b : bool) publish (cb : callback A heap) conn a st :
  tame ((if b then conflictCallback else wrapCallback publish wrapAuthError cb) conn a st) st.
Proof. destruct b; [apply tame_conflict|apply tame_wrap]. Qed.
End Tame.

(** ** The key a run publishes *)

(** The specification, read off the events: the key that was verified and not
    refused since the last attempt, and what the context holds, [None] as long
    as nothing was stored. *)
Definition key_event (s : option nat * option (option nat)) (ev : authEvent) : option nat * option (option nat) :=
  let '(cand, pub) := s in
  match ev with
  | Verified key refused => (if refused then None else Some key, pub)
  | Attempted method outcome =>
      if decide (method = "publickey") then
        (None, match outcome with
               | Succeeded => match cand with Some key => Some (Some key) | None => pub end
               | PartialSuccess => Some cand
               | Failed => match pub with Some (Some key) => pub | _ => Some None end
               end)
      else (cand, pub)
  end.
Definition key_events (ev : list authEvent) : option nat * option (option nat) := foldl key_event (None, None) ev.

Definition pending_of (pub : option (option nat)) : option nat := match pub with Some key => key | None => None end.

(** The state of public keys agrees with the specification; [v0] is what the
    context held before. *)
Definition keys_agree (v0 : ctxValue) (s : option nat * option (option nat)) (st : authState) : Prop :=
  auth_key st = mkPublicKeyState (fst s) (pending_of (snd s)) /\
  Value (auth_ctx st) ContextKeyPublicKey = match snd s with Some key => key_value key | None => v0 end.

Lemma keys_untouched v0 s st st' : keys_agree v0 s st -> untouched st st' -> keys_agree v0 s st'.
Proof. intros [H1 H2] (_ & H3 & H4). split; congruence. Qed.

Lemma keys_verified v0 s st key (r : authResult heap) :
  keys_agree v0 s st -> keys_agree v0 (key_event s (Verified key (is_refused r))) (recordVerified key r st).
Proof. destruct s as [cand pub]. intros [H1 H2]. split; simpl in *; [|done]. rewrite H1. by destruct r. Qed.

Lemma keys_attempted v0 s st method outcome :
  keys_agree v0 s st -> keys_agree v0 (key_event s (Attempted method outcome)) (finishAttempt method outcome st).
Proof.
  destruct s as [cand pub]. intros [H1 H2]. cbn [fst snd] in *. unfold finishAttempt, key_event.
  rewrite H1. cbn [candidate pending]. destruct (decide (method = "publickey")) as [->|Hm].
  - rewrite bool_decide_true by done. cbn [negb].
    destruct outcome; [destruct cand|destruct pub as [[key|]|]|]; (split; [done|]);
      cbn [auth_ctx set_ctx set_key snd fst pending_of]; rewrite ?value_set by done; done.
  - rewrite bool_decide_false by done. cbn [negb].
    destruct outcome; [destruct pub as [[key|]|]|..]; (split; [done|]);
      cbn [auth_ctx set_ctx set_key snd fst pending_of]; rewrite ?value_set by done; done.
Qed.

Lemma finish_in_force conflicts method outcome st : in_force conflicts st -> in_force conflicts (finishAttempt method outcome st).
Proof.
  unfold in_force, finishAttempt. intros H.
  repeat case_match; cbn [auth_ctx set_ctx set_key]; rewrite ?value_other by done; done.
Qed.

Lemma verified_keys conflicts v0 s custom conn key perms alg st :
  in_force conflicts st -> keys_agree v0 s st ->
  let '(p, r, st') := verifiedPublicKeyCallback custom conn key perms alg st in
  in_force conflicts st' /\ wrapped_next conflicts r /\ keys_agree v0 (key_event s (Verified key (is_refused r))) st'.
Proof.
  intros Hf Hk. unfold verifiedPublicKeyCallback.
  assert (H1 : untouched st (apply_metadata conn st)) by auto with ssh.
  set (st1 := apply_metadata conn st) in *. clearbody st1.
  set (res := match custom with Some _ => _ | None => _ end).
  assert (H2 : untouched st (snd res)).
  { subst res. destruct custom as [cb|]; [|done]. by destruct (cb conn key perms alg (auth_heap st1)) as [[p r] h]. }
  destruct res as [[p r] st2]. cbn [snd] in H2.
  assert (Hf2 : in_force conflicts (recordVerified key r st2)) by exact (in_force_untouched _ _ _ Hf H2).
  pose proof (keys_verified v0 s st2 key r (keys_untouched _ _ _ _ Hk H2)) as Hk2.
  assert (Hw : wrapped_next conflicts (wrapAuthError (auth_conflicts (auth_ctx (recordVerified key r st2))) r))
    by (by apply wrapped_error).
  destruct r as [|err|direct next].
  - assert (H3 : untouched (recordVerified key (@Granted heap) st2)
      (publishAuthPermissions p (recordVerified key (@Granted heap) st2))) by auto with ssh.
    split_and!; [by eapply in_force_untouched|constructor|by eapply keys_untouched].
  - split_and!; [done|constructor|done].
  - split_and!; [done|exact Hw|done].
Qed.

Section Runs.
Variable srv : authServer.
Variable config : serverConfig heap.
Variable st0 : authState.
Variable v0 : ctxValue.

Record run_inv (ev : list authEvent) (later : list (authCallbacks authState)) (s : authState) : Prop := mkRunInv {
  inv_force : in_force (server_conflicts srv) s;
  inv_later : Forall (fun m => exists raw, m = wrapAuthCallbacks (server_conflicts srv) raw) later;
  inv_keys : keys_agree v0 (key_events ev) s }.

Hypothesis Hstart : run_inv [] [] st0.

(** A tame call keeps the invariant. *)
Lemma run_inv_tame ev later s p r s' :
  run_inv ev later s -> tame (server_conflicts srv) (p, r, s') s -> run_inv ev (next_of r ++ later) s'.
Proof.
  intros [Hf Hl Hk] Ht. destruct (Ht Hf) as [Hu Hw]. split.
  - by eapply in_force_untouched.
  - by apply Forall_app.
  - by eapply keys_untouched.
Qed.

(** An untouched state keeps it, too. *)
Lemma run_inv_untouched ev later s s' : run_inv ev later s -> untouched s s' -> run_inv ev later s'.
Proof. intros [Hf Hl Hk] Hu. split; [by eapply in_force_untouched|done|by eapply keys_untouched]. Qed.

Let c := completeConfig srv config.

(** Every callback that is offered is tame. *)
Lemma offered_tame {A} (get : forall S, authCallbacks S -> option (callback A S)) ev later s m cb conn a :
  (forall raw, get authState (wrapAuthCallbacks (server_conflicts srv) raw) = Some cb ->
     tame (server_conflicts srv) (cb conn a s) s) ->
  (get authState (methods c) = Some cb -> tame (server_conflicts srv) (cb conn a s) s) ->
  run_inv ev later s -> m ∈ methods c :: later -> get authState m = Some cb ->
  tame (server_conflicts srv) (cb conn a s) s.
Proof.
  intros Hwrap Hfirst [_ Hl _] [->|Hm]%elem_of_cons Hcb; [by apply Hfirst|].
  rewrite Forall_forall in Hl. destruct (Hl _ Hm) as [raw ->]. by eapply Hwrap.
Qed.

Lemma wrapped_password raw cb conn a s conflicts :
  PasswordCallback (wrapAuthCallbacks conflicts raw) = Some cb -> tame conflicts (cb conn a s) s.
Proof. destruct raw as [[pw|] pk ki gss]; intros [= <-]. apply tame_next. Qed.
Lemma wrapped_publicKey raw cb conn a s conflicts :
  PublicKeyCallback (wrapAuthCallbacks conflicts raw) = Some cb -> tame conflicts (cb conn a s) s.
Proof. destruct raw as [pw [pk|] ki gss]; intros [= <-]. apply tame_next. Qed.
Lemma wrapped_interactive raw cb conn a s conflicts :
  KeyboardInteractiveCallback (wrapAuthCallbacks conflicts raw) = Some cb -> tame conflicts (cb conn a s) s.
Proof. destruct raw as [pw pk [ki|] gss]; intros [= <-]. apply tame_next. Qed.

(** [AllowLogin] of a configuration that has one. *)
Definition AllowLogin {S} (m : authCallbacks S) : option (callback string S) :=
  match GSSAPIWithMICConfig m with Some login => login | None => None end.

Lemma wrapped_gssapi raw cb conn a s conflicts :
  AllowLogin (wrapAuthCallbacks conflicts raw) = Some cb -> tame conflicts (cb conn a s) s.
Proof. destruct raw as [pw pk ki [[gss|]|]]; intros [= <-]. apply tame_wrap. Qed.

Lemma auth_run_invariant ev later s : auth_run c st0 ev later s -> run_inv ev later s.
Proof.
  induction 1 as [|cb conn p r ev later s s' _ IH Hno Hcb He|m cb conn a p r ev later s s' _ IH Hm Hcb He
    |m cb conn a p r ev later s s' _ IH Hm Hcb He|m cb conn a p r ev later s s' _ IH Hm Hcb He
    |m cb conn a p r ev later s s' _ IH Hm Hcb He|cb conn key perms alg p r ev later s s' _ IH Hcb He
    |cb conn method outcome ev later s _ IH Hcb|cb conn banner ev later s s' _ IH Hcb He|cb conn ev later s _ IH Hcb].
  - exact Hstart.
  - eapply run_inv_tame; [exact IH|]. rewrite <- He. simpl in Hno, Hcb. rewrite Hno in Hcb. simplify_eq. apply tame_none.
  - eapply run_inv_tame; [exact IH|]. rewrite <- He.
    apply (offered_tame (@PasswordCallback) ev later s m); try done; [intros; by eapply wrapped_password|].
    exact (tame_method _ true (PasswordHandler srv) (PasswordCallback (methods config)) cb conn a s).
  - eapply run_inv_tame; [exact IH|]. rewrite <- He.
    apply (offered_tame (@PublicKeyCallback) ev later s m); try done; [intros; by eapply wrapped_publicKey|].
    exact (tame_method _ false (PublicKeyHandler srv) (PublicKeyCallback (methods config)) cb conn a s).
  - eapply run_inv_tame; [exact IH|]. rewrite <- He.
    apply (offered_tame (@KeyboardInteractiveCallback) ev later s m); try done; [intros; by eapply wrapped_interactive|].
    exact (tame_method _ true (KeyboardInteractiveHandler srv) (KeyboardInteractiveCallback (methods config)) cb conn a s).
  - eapply run_inv_tame; [exact IH|]. rewrite <- He.
    apply (offered_tame (@AllowLogin) ev later s m); try done; [intros; by eapply wrapped_gssapi| |].
    + unfold AllowLogin. simpl. destruct (GSSAPIWithMICConfig (methods config)) as [[g|]|]; intros [= <-]. apply tame_wrap.
    + unfold AllowLogin. by rewrite Hcb.
  - simpl in Hcb. injection Hcb as <-. destruct IH as [Hf Hl Hk].
    pose proof (verified_keys _ _ _ (VerifiedPublicKeyCallback config) conn key perms alg s Hf Hk) as Hv. rewrite He in Hv.
    destruct Hv as (H1 & H2 & H3). split; [done|by apply Forall_app|]. unfold key_events. by rewrite foldl_app.
  - simpl in Hcb. injection Hcb as <-. destruct IH as [Hf Hl Hk].
    assert (Hu : untouched s (apply_metadata conn s)) by auto with ssh.
    pose proof (finish_in_force _ method outcome _ (in_force_untouched _ _ _ Hf Hu)) as Hf'.
    pose proof (keys_attempted _ _ _ method outcome (keys_untouched _ _ _ _ Hk Hu)) as Hk'.
    split; [by destruct (AuthLogCallback config)|done|]. unfold key_events. rewrite foldl_app.
    by destruct (AuthLogCallback config).
  - eapply run_inv_untouched; [exact IH|]. simpl in Hcb. assert (Hu : untouched s (apply_metadata conn s)) by auto with ssh.
    destruct (BannerHandler srv) as [v|]; [|destruct (BannerCallback config) as [v|]]; simplify_eq.
    + unfold bannerCallback in He. destruct (v _ _ _) as [[b [err|]] h]; simplify_eq; done.
    + destruct (v _ _) as [b h]. by simplify_eq.
  - eapply run_inv_untouched; [exact IH|]. simpl in Hcb. assert (Hu : untouched s (apply_metadata conn s)) by auto with ssh.
    destruct (PreAuthConnCallback config) as [v|]; by simplify_eq.
Qed.
End Runs.

Lemma config_start srv st c st0 :
  configForConnection srv st = (inr c, st0) -> auth_key st = mkPublicKeyState None None ->
  exists config, (ServerConfigCallback srv = None /\ config = emptyServerConfig \/ ServerConfigCallback srv = Some (inr config)) /\
    c = completeConfig srv config /\ run_inv srv (Value (auth_ctx st) ContextKeyPublicKey) [] [] st0.
Proof.
  unfold configForConnection. intros Hc Hk.
  assert (exists config, (ServerConfigCallback srv = None /\ config = emptyServerConfig \/ ServerConfigCallback srv = Some (inr config)) /\
    c = completeConfig srv config /\
    st0 = set_ctx (SetValue contextKeyAuthConflicts (VConflicts (server_conflicts srv)) (auth_ctx st)) st) as (config & H1 & H2 & ->).
  { destruct (ServerConfigCallback srv) as [[|config]|]; simplify_eq; [exists config|exists emptyServerConfig]; eauto. }
  exists config. split_and!; [done|done|]. split; [|done|].
  - exact (value_set (auth_ctx st) contextKeyAuthConflicts (VConflicts (server_conflicts srv)) eq_refl).
  - split; [exact Hk|].
    exact (value_other (auth_ctx st) contextKeyAuthConflicts ContextKeyPublicKey (VConflicts (server_conflicts srv)) ltac:(done)).
Qed.

Lemma key_events_verified ev key :
  (fst (key_events ev) = Some key -> Verified key false ∈ ev) /\
  (snd (key_events ev) = Some (Some key) -> Verified key false ∈ ev).
Proof.
  unfold key_events. induction ev as [|e ev [IHc IHp]] using rev_ind; [done|].
  rewrite foldl_app. cbn [foldl]. destruct (foldl key_event (None, None) ev) as [cand pub]. cbn [fst snd] in *.
  destruct e as [k refused|method outcome]; cbn [key_event].
  - cbn [fst snd]. split; intros H; rewrite elem_of_app; [|by left; auto].
    destruct refused; simplify_eq. right. by left.
  - rewrite !elem_of_app. case_decide; cbn [fst snd]; [|split; intros; left; auto].
    split; [done|]. intros Hp. left.
    destruct outcome; [destruct cand|destruct pub as [[]|]|]; simplify_eq; auto.
Qed.

(** C6. Whatever callbacks the server and the application have, and in whatever
    order the handshake calls them: the public key in the context is the one
    of the last public key attempt that succeeded, also in part, among those
    that were verified and not refused; a key that was only offered, or whose
    attempt failed, is never there, nor does any other callback change it. *)
Theorem auth_key_published srv st c st0 ev later s :
  configForConnection srv st = (inr c, st0) -> auth_key st = mkPublicKeyState None None -> auth_run c st0 ev later s ->
  Value (auth_ctx s) ContextKeyPublicKey =
    match snd (key_events ev) with Some key => key_value key | None => Value (auth_ctx st) ContextKeyPublicKey end /\
  (forall key, snd (key_events ev) = Some (Some key) -> Verified key false ∈ ev).
Proof.
  intros Hc Hk Hr. destruct (config_start _ _ _ _ Hc Hk) as (config & _ & -> & Hstart).
  destruct (auth_run_invariant _ _ _ _ Hstart _ _ _ Hr) as [_ _ [_ Hv]]. split; [done|].
  intros key. apply key_events_verified.
Qed.

(** C8. A method with a handler of the server is never left to a callback of the
    application: both in the first configuration make it refuse every attempt,
    and so does a callback that a partial success, at any depth, brings for the
    method; and a client gets in without authentication only if the
    application asked for it, or authentication is not required and no method
    at all is configured. *)
Theorem auth_methods_guarded srv st c st0 ev later s :
  configForConnection srv st = (inr c, st0) -> auth_key st = mkPublicKeyState None None -> auth_run c st0 ev later s ->
  exists config, (ServerConfigCallback srv = None /\ config = emptyServerConfig \/ ServerConfigCallback srv = Some (inr config)) /\
  (forall m, m ∈ later \/ m = methods c /\ is_set (PasswordCallback (methods config)) = true ->
     is_set (PasswordHandler srv) = true -> forall cb, PasswordCallback m = Some cb -> cb = conflictCallback) /\
  (forall m, m ∈ later \/ m = methods c /\ is_set (PublicKeyCallback (methods config)) = true ->
     is_set (PublicKeyHandler srv) = true -> forall cb, PublicKeyCallback m = Some cb -> cb = conflictCallback) /\
  (forall m, m ∈ later \/ m = methods c /\ is_set (KeyboardInteractiveCallback (methods config)) = true ->
     is_set (KeyboardInteractiveHandler srv) = true -> forall cb, KeyboardInteractiveCallback m = Some cb -> cb = conflictCallback) /\
  (NoClientAuth c = true -> NoClientAuth config = true \/
     RequireClientAuth srv = false /\ methods c = mkCallbacks None None None None).
Proof.
  intros Hc Hk Hr. destruct (config_start _ _ _ _ Hc Hk) as (config & Hconf & -> & Hstart).
  destruct (auth_run_invariant _ _ _ _ Hstart _ _ _ Hr) as [_ Hl _]. rewrite Forall_forall in Hl.
  exists config. split; [done|]. split_and!.
  - intros m [Hm|[-> Hcustom]] Hh cb.
    + destruct (Hl _ Hm) as [[[pw|] pk ki gss] ->]; intros [= <-]. by rewrite Hh.
    + simpl. unfold method_callback. destruct (PasswordHandler srv); [|done].
      destruct (PasswordCallback (methods config)); [|done]. by intros [= <-].
  - intros m [Hm|[-> Hcustom]] Hh cb.
    + destruct (Hl _ Hm) as [[pw [pk|] ki gss] ->]; intros [= <-]. by rewrite Hh.
    + simpl. unfold method_callback. destruct (PublicKeyHandler srv); [|done].
      destruct (PublicKeyCallback (methods config)); [|done]. by intros [= <-].
  - intros m [Hm|[-> Hcustom]] Hh cb.
    + destruct (Hl _ Hm) as [[pw pk [ki|] gss] ->]; intros [= <-]. by rewrite Hh.
    + simpl. unfold method_callback. destruct (KeyboardInteractiveHandler srv); [|done].
      destruct (KeyboardInteractiveCallback (methods config)); [|done]. by intros [= <-].
  - simpl. destruct (NoClientAuth config); [by left|]. simpl. intros H. right.
    destruct (RequireClientAuth srv), (PasswordHandler srv), (PublicKeyHandler srv), (KeyboardInteractiveHandler srv); try done.
    simpl in *. destruct (PasswordCallback _), (PublicKeyCallback _), (KeyboardInteractiveCallback _); try done.
    by destruct (GSSAPIWithMICConfig _).
Qed.

(** Every attempt of a handler of the server starts from permissions that
    nobody else holds and that grant nothing, as the user the client names now;
    the client is let in exactly if the handler says so without an error, with
    those permissions, which are also the ones of the context; an error is kept,
    the first one for good, and closes the transport. *)
Theorem auth_attempt_fresh {A} (h : handler A) conn arg st :
  let '(permissions, r, st') := handlerCallback h conn arg st in
  let fresh := length (auth_heap st) in
  exists ctx, User ctx = meta_user conn /\ Permissions ctx = Some fresh /\
    let '(ok, err, hp) := h ctx conn arg (auth_heap st ++ [noPermissions]) in
    permissions = Some fresh /\ Permissions (auth_ctx st') = Some fresh /\ auth_heap st' = hp /\
    (r = Granted <-> ok = true /\ err = None) /\ next_of r = [] /\
    failure_err (auth_failure st') = match failure_err (auth_failure st) with Some e => Some e | None => err end /\
    transport_closes (auth_failure st') = (transport_closes (auth_failure st) + match err with Some _ => 1 | None => 0 end)%nat.
Proof.
  unfold handlerCallback, beginAuthAttempt, publishAuthPermissions.
  set (ctx := SetValue ContextKeyPermissions _ _).
  cbn [auth_ctx set_ctx auth_heap set_heap apply_metadata].
  destruct (h ctx conn arg (auth_heap st ++ [noPermissions])) as [[ok err] hp] eqn:Hh.
  assert (H1 : User ctx = meta_user conn).
  { unfold User, ctx. rewrite value_other by discriminate. cbn [auth_ctx set_ctx set_heap apply_metadata].
    by rewrite apply_user. }
  assert (H2 : Permissions ctx = Some (length (auth_heap st))).
  { unfold Permissions, ctx. by rewrite value_set. }
  destruct err as [e|]; [|destruct ok]; exists ctx; rewrite Hh; split_and!; try done;
    try (by split; [done|intros [? ?]]); simpl; try lia; by destruct (failure_err (auth_failure st)).
Qed.

(** A server with a handler for public keys, whose client proves key 7. *)
Definition sample_conn : connMetadata := mkConnMetadata "alice" [x01; xab] "c" "s" 1 2.
Definition sample_server : authServer :=
  mkAuthServer None (Some (fun _ _ _ h => (true, None, h))) None None true "" [] [] [] [] None.
Definition sample_state : authState :=
  mkAuthState (newContextWithParent (fun _ => VNil) 0 0) [noPermissions] (mkFailure None 0) (mkPublicKeyState None None).
Definition sample_start : authState := snd (configForConnection sample_server sample_state).
Definition sample_auth : serverConfig authState := completeConfig sample_server emptyServerConfig.
Definition sample_offered : authState := snd (handlerCallback (fun _ _ _ h => (true, None, h)) sample_conn 7%nat sample_start).
Definition sample_verified : authState :=
  snd (verifiedPublicKeyCallback None sample_conn 7 (Some 1%nat) "ssh-ed25519" sample_offered).
Definition sample_authenticated : authState :=
  finishAttempt "publickey" Succeeded (apply_metadata sample_conn sample_verified).
Definition sample_events : list authEvent := [Verified 7 false; Attempted "publickey" Succeeded].

Lemma sample_auth_run : auth_run sample_auth sample_start sample_events [] sample_authenticated.
Proof.
  apply (ar_log sample_auth sample_start
    (fun conn method err st => finishAttempt method err (apply_metadata conn st))
    sample_conn "publickey" Succeeded [Verified 7 false] [] sample_verified); [|reflexivity].
  apply (ar_verified sample_auth sample_start (verifiedPublicKeyCallback None) sample_conn 7 (Some 1%nat) "ssh-ed25519"
    (Some 1%nat) Granted [] [] sample_offered sample_verified); [|reflexivity..].
  apply (ar_publicKey sample_auth sample_start (methods sample_auth) (handlerCallback (fun _ _ _ h => (true, None, h)))
    sample_conn 7%nat (Some 1%nat) Granted [] [] sample_start sample_offered); [constructor|by left|reflexivity..].
Qed.

Lemma auth_key_published_witness :
  auth_run sample_auth sample_start sample_events [] sample_authenticated /\
  Value (auth_ctx sample_authenticated) ContextKeyPublicKey = VPublicKey 7.
Proof.
  split; [exact sample_auth_run|].
  exact (proj1 (auth_key_published sample_server sample_state sample_auth sample_start _ _ _ eq_refl eq_refl sample_auth_run)).
Defined.

(** A server with a handler for passwords, and an application with one, too. *)
Definition conflicting_server : authServer :=
  mkAuthServer (Some (fun _ _ _ h => (true, None, h))) None None None true "" [] [] [] []
    (Some (inr (mkServerConfig false None (mkCallbacks (Some (fun _ _ h => (None, Granted, h))) None None None)
                  None None None None [] [] [] [] ""))).
Definition conflicting_start : authState := snd (configForConnection conflicting_server sample_state).
Definition conflicting_config : serverConfig authState :=
  completeConfig conflicting_server (mkServerConfig false None (mkCallbacks (Some (fun _ _ h => (None, Granted, h))) None None None)
                  None None None None [] [] [] [] "").

Lemma auth_methods_guarded_witness :
  auth_run conflicting_config conflicting_start [] [] conflicting_start /\
  forall cb, PasswordCallback (methods conflicting_config) = Some cb -> cb = conflictCallback.
Proof.
  assert (H : auth_run conflicting_config conflicting_start [] [] conflicting_start) by constructor.
  split; [exact H|].
  destruct (auth_methods_guarded conflicting_server sample_state conflicting_config conflicting_start _ _ _
    eq_refl eq_refl H) as (config & [[Hn _]|Hc] & Hm & _); [discriminate Hn|].
  injection Hc as <-. apply Hm; [by right|reflexivity].
Defined.
