(* ===== verification/Session.v ===== *)
(** * Session channels ([session.go])

    The loop that handles the requests of one session channel, as a step
    function on the session's state: the limits on what a client may store, the
    single transition from a configurable to a handled session, the callbacks
    and their errors, and the exit status of the handler.  What callbacks, the
    peer and the clock answer is part of the environment of a step. *)
From S2P Require Import Prelude GoErrors ErrorDispatch Request Wire Terminal.
Local Open Scope Z_scope.

Definition maxSessionErrorResponseBytes : nat := 4096.
Definition maxSessionSignalBytes : Z := 64.
Definition maxSigBufSize : Z := 128.
Definition maxSessionEnvVariables : Z := 128.
Definition maxSessionEnvBytes : Z := 64 * 1024.

Definition ErrSubsystemResponseAlreadySent := ErrNew 40 "ssh: subsystem response already sent".
Definition ErrSubsystemResponsePending := ErrNew 41 "ssh: subsystem response pending or rejected".

(** [fmt.Errorf("<text>: %w", err)]. *)
Definition wrap_error (text : string) (err : error) : error := ErrWrap (text +:+ ": " +:+ error_text err)%string err.

(** ** Effects *)

Inductive handlerKind := ShellHandler | SubsystemHandler (name : list byte) | DeferredHandler (name : list byte).

Inductive sevent :=
| SReply (accepted : bool)          (* req.Reply *)
| SStart (h : handlerKind)          (* startHandler *)
| SStderr (message : string)        (* Stderr().Write *)
| SExitStatus (code : Z)            (* SendRequest "exit-status" *)
| SCloseSession                     (* closeQuietly(sess), sess.Close *)
| SCloseConn                        (* closeQuietly(sess.conn) *)
| SCancelDecision                   (* the context of a deferred subsystem is cancelled *)
| SDispatch (e : event).

#[export] Instance session_world : World (list sevent) := {|
  emit l w := w ++ map SDispatch l;
  emit_nil := @app_nil_r sevent;
  emit_app l l' w := eq_trans (f_equal (app w) (map_app SDispatch l l')) (app_assoc w (map SDispatch l) (map SDispatch l')) |}.

(** ** Error responses *)

(** How the select of [respondToErrorWithin] ends. *)
Inductive respondOutcome :=
| Written (n : Z) (err : option error)     (* Stderr().Write returned *)
| SessionDone (cause : option error)       (* the context ended first *)
| TimedOut.

Definition sessionResponseTimeoutError : error :=
  wrap_error "write session error response" context_DeadlineExceeded.

Definition truncate (message : string) : string :=
  if (maxSessionErrorResponseBytes <? String.length message)%nat
  then String.substring 0 maxSessionErrorResponseBytes message else message.

Definition respondToError (ctx : dispatchContext) (outcome : respondOutcome)
    (message : string) (closeAfterResponse : bool) (w : list sevent) : option error * list sevent :=
  let message := truncate message in
  let w := w ++ [SStderr message] in
  let '(err, w) :=
    match outcome with
    | Written n err =>
        (match err with
         | None => if negb (n =? Z.of_nat (String.length message)) then Some io_ErrShortWrite else None
         | Some e => Some e
         end, w)
    | SessionDone cause => (cause, emit (closeSSHConnection (Some ctx)) w)
    | TimedOut => (Some sessionResponseTimeoutError, emit (closeSSHConnection (Some ctx)) w)
    end in
  (err, if closeAfterResponse then w ++ [SCloseConn] else w).

(** A response error that is not just "unsupported". *)
Definition response_failed (responseErr : option error) : bool :=
  bool_decide (responseErr <> None) && negb (errors_Is responseErr (Some ErrErrorResponseUnsupported)).

Section Callback.
Variable ctx : dispatchContext.
Variable errorHandler : option ErrorHandler.

Definition logEscalate (op : ErrorOperation) (e : option error) (original : error) (w : list sevent) : list sevent :=
  match e with
  | Some e => w ++ [SDispatch (EvLogEscalate ErrorScopeSession op e original)]
  | None => w
  end.

(** [sess.reply]. *)
Definition session_reply (reply_err : option error) (accepted : bool) (w : list sevent) : bool * list sevent :=
  let w := w ++ [SReply accepted] in
  match reply_err with
  | Some err =>
      let '(_, d) := dispatchErrorOrEscalate ctx errorHandler ErrorScopeSession ErrorOperationReply (Some err)
                       None (Some defaultLogAndFailErrorAction) None w in
      (false, emit (closeSSHConnection (Some ctx)) (d_world d))
  | None => (true, w)
  end.

(** The close that ends [handleCallbackError]: the connection or the session. *)
Definition close_either (connection : bool) (w : list sevent) : list sevent :=
  if connection then emit (closeSSHConnection (Some ctx)) w else w ++ [SCloseSession].

(** [sess.handleCallbackError]; [outcome] is that of an error response. *)
Definition handleCallbackError (reply_err : option error) (outcome : respondOutcome) (callbackErr : error)
    (w : list sevent) : bool * list sevent :=
  let d := dispatchError ctx errorHandler ErrorScopeSession ErrorOperationHandle (Some callbackErr)
             (Some (newErrorResponse (Some (fun message _ => respondToError ctx outcome message false))))
             (Some defaultLogAndFailErrorAction) None w in
  let '(canContinue, filteredErr) := d_result d in
  let '(_, responseErr) := response_result (d_response d) in
  let closeReq := closeRequested (d_response d) in
  let only := match filteredErr with
              | Some f => response_failed responseErr && isOnlyErrorOpt (Some f) responseErr
              | None => false
              end in
  let w := d_world d ++ [SReply false] in
  match reply_err with
  | Some err =>
      let '(_, d2) := dispatchErrorOrEscalate ctx errorHandler ErrorScopeSession ErrorOperationReply
                        (errors_Join [Some callbackErr; Some err]) None (Some defaultLogAndFailErrorAction) None w in
      let w := d_world d2 in
      let w := match filteredErr with
               | Some _ => if only then logEscalate ErrorOperationReply responseErr callbackErr w
                           else logEscalate ErrorOperationHandle filteredErr callbackErr w
               | None => w
               end in
      let w := if response_failed responseErr && negb only
               then logEscalate ErrorOperationReply responseErr callbackErr w else w in
      (false, close_either (closeReq || (bool_decide (filteredErr <> None) && negb only)) w)
  | None =>
      match filteredErr with
      | Some _ =>
          if only then (false, close_either closeReq (logEscalate ErrorOperationReply responseErr callbackErr w))
          else (false, emit (closeSSHConnection (Some ctx)) (logEscalate ErrorOperationHandle filteredErr callbackErr w))
      | None =>
          if response_failed responseErr
          then (false, close_either closeReq (logEscalate ErrorOperationReply responseErr callbackErr w))
          else if closeReq then (false, emit (closeSSHConnection (Some ctx)) w)
          else if negb canContinue then (false, w ++ [SCloseSession])
          else (true, w)
      end
  end.
End Callback.

(** ** The session *)

Record session := mkSession {
  handled : bool;
  exited : bool;
  exiting : bool;
  pty : option Pty;
  winch : option Window;            (* the content of the channel, once there is a PTY *)
  env : list (list byte);
  envBytes : Z;
  rawCmd : list byte;
  subsystem : list byte;
  requestResolved : bool;
  agentRequested : bool;
  sigCh : bool;                     (* a signal channel is installed *)
  sigBuf : list (list byte);
  breakCh : bool;
  deferredState : Z }.              (* 0: normal/accepted, 1: pending, 2: rejected *)

Definition newSession : session :=
  mkSession false false false None None [] 0 [] [] false false false [] false 0.

Definition set_request (s : session) (raw sub : list byte) : session :=
  mkSession (handled s) (exited s) (exiting s) (pty s) (winch s) (env s) (envBytes s) raw sub
    (requestResolved s) (agentRequested s) (sigCh s) (sigBuf s) (breakCh s) (deferredState s).
Definition set_handled (s : session) : session :=      (* handled and requestResolved *)
  mkSession true (exited s) (exiting s) (pty s) (winch s) (env s) (envBytes s) (rawCmd s) (subsystem s)
    true (agentRequested s) (sigCh s) (sigBuf s) (breakCh s) (deferredState s).
Definition set_env (s : session) (e : list (list byte)) (n : Z) : session :=
  mkSession (handled s) (exited s) (exiting s) (pty s) (winch s) e n (rawCmd s) (subsystem s)
    (requestResolved s) (agentRequested s) (sigCh s) (sigBuf s) (breakCh s) (deferredState s).
Definition set_pty (s : session) (p : option Pty) (w : option Window) : session :=
  mkSession (handled s) (exited s) (exiting s) p w (env s) (envBytes s) (rawCmd s) (subsystem s)
    (requestResolved s) (agentRequested s) (sigCh s) (sigBuf s) (breakCh s) (deferredState s).
Definition set_agent (s : session) : session :=
  mkSession (handled s) (exited s) (exiting s) (pty s) (winch s) (env s) (envBytes s) (rawCmd s) (subsystem s)
    (requestResolved s) true (sigCh s) (sigBuf s) (breakCh s) (deferredState s).
Definition set_signals (s : session) (ch : bool) (buf : list (list byte)) : session :=
  mkSession (handled s) (exited s) (exiting s) (pty s) (winch s) (env s) (envBytes s) (rawCmd s) (subsystem s)
    (requestResolved s) (agentRequested s) ch buf (breakCh s) (deferredState s).
Definition set_break (s : session) (ch : bool) : session :=
  mkSession (handled s) (exited s) (exiting s) (pty s) (winch s) (env s) (envBytes s) (rawCmd s) (subsystem s)
    (requestResolved s) (agentRequested s) (sigCh s) (sigBuf s) ch (deferredState s).
Definition set_exiting (s : session) : session :=      (* and no more delivery *)
  mkSession (handled s) (exited s) true (pty s) (winch s) (env s) (envBytes s) (rawCmd s) (subsystem s)
    (requestResolved s) (agentRequested s) false (sigBuf s) false (deferredState s).
Definition set_exited (s : session) : session :=
  mkSession (handled s) true (exiting s) (pty s) (winch s) (env s) (envBytes s) (rawCmd s) (subsystem s)
    (requestResolved s) (agentRequested s) (sigCh s) (sigBuf s) (breakCh s) (deferredState s).
Definition set_deferred (s : session) (d : Z) : session :=
  mkSession (handled s) (exited s) (exiting s) (pty s) (winch s) (env s) (envBytes s) (rawCmd s) (subsystem s)
    (requestResolved s) (agentRequested s) (sigCh s) (sigBuf s) (breakCh s) d.

(** What the server has configured.  [gossh.Unmarshal] of a payload with one
    string, or two, is a parameter. *)
Record sessionConfig := mkSessionConfig {
  hasHandler : bool;
  subsystemHandlers : list byte -> bool;
  deferredSubsystemHandlers : list byte -> bool;
  ptyCb : option (session -> Pty -> bool * option error);
  sessReqCb : option (session -> string -> bool * option error);
  agentForwardingCb : option (session -> bool * option error);
  sessionErrorHandler : option ErrorHandler;
  sessionContext : dispatchContext;
  unmarshal1 : list byte -> option (list byte);
  unmarshal2 : list byte -> option (list byte * list byte) }.

(** How a send to a channel of the application ends. *)
Inductive sendOutcome := Delivered | Cancelled | ContextDone | ChannelClosed.

Record sessionRequest := mkSessionRequest { Type_ : string; Payload : list byte }.

(** What happens while [waitDeferredSubsystem] waits: the handler calls its
    [reply], the context ends, or the loop selects a case. *)
Inductive waitStep :=
| HandlerReplies (accepted : bool)
| ContextEnds
| SelAnswered                         (* <-response.done *)
| SelReturned (err : option error)    (* <-returned *)
| SelTimer                            (* <-timer.C *)
| SelContextDone                      (* <-sess.ctx.Done() *)
| SelLater (later : sessionRequest)   (* <-reqs *)
| SelReqsClosed.

(** The environment of one request. *)
Record requestEnv := mkRequestEnv {
  reply_err : option error;         (* what req.Reply returns *)
  replyBlocked : bool;              (* the reply of a deferred subsystem takes over a second *)
  outcome : respondOutcome;
  resolvedByTimer : bool;           (* the request timer resolves the session first *)
  taken : bool;                     (* see winch_send *)
  sent : sendOutcome;
  waitSteps : list waitStep }.      (* up to the timer of a deferred subsystem *)

Definition agentRequestType := "auth-agent-req@openssh.com".
Definition default_name : list byte := String.list_byte_of_string "default".
Definition equals_sign : byte := "="%byte.

(** Whether the loop goes on, and with a request already at hand. *)
Inductive control := Continue | Pending (r : sessionRequest) | Stop.

(** ** Deferred subsystems *)

Record deferredSubsystemResponse := mkDeferred { answered : bool; accepted : bool; deferredErr : option error }.

Record waiting := mkWaiting {
  wait_session : session;
  wait_response : deferredSubsystemResponse;
  wait_ctxDone : bool;
  wait_next : option sessionRequest;
  wait_returned : option error;     (* an error the handler returned before an answer *)
  wait_world : list sevent }.

Section Requests.
Variable int_bits : Z.
Variable cfg : sessionConfig.

Definition session_result := (session * list sevent * control)%type.

Definition rejectRequest (s : session) (w : list sevent) : session_result := (s, w ++ [SReply false], Continue).

Definition control_of (b : bool) : control := if b then Continue else Stop.

Definition callbackFailed (e : requestEnv) (s : session) (callbackErr : error) (w : list sevent) : session_result :=
  let '(ok, w) := handleCallbackError (sessionContext cfg) (sessionErrorHandler cfg) (reply_err e) (outcome e) callbackErr w in
  (s, w, control_of ok).

Definition acceptRequest (e : requestEnv) (s : session) (w : list sevent) : bool * list sevent :=
  session_reply (sessionContext cfg) (sessionErrorHandler cfg) (reply_err e) true w.

(** The policy callback of shell, exec and subsystem requests: an answer, or
    [None] for permission. *)
Definition authorize (e : requestEnv) (s denied : session) (kind : string) (text : string) (w : list sevent)
    : option session_result :=
  match sessReqCb cfg with
  | None => None
  | Some cb =>
      match cb s kind with
      | (_, Some err) => Some (callbackFailed e denied (wrap_error text err) w)
      | (allowed, None) => if negb allowed then Some (rejectRequest denied w) else None
      end
  end.

(** [sess.requestResolved.CompareAndSwap(false, true)]. *)
Definition resolve (e : requestEnv) (s : session) : bool := negb (requestResolved s) && negb (resolvedByTimer e).

Definition handleShell (e : requestEnv) (s : session) (r : sessionRequest) (w : list sevent) : session_result :=
  if handled s || negb (hasHandler cfg) then rejectRequest s w
  else
    let payload := if decide (Type_ r = "exec") then unmarshal1 cfg (Payload r) else Some [] in
    match payload with
    | None => rejectRequest s w
    | Some value =>
        let s := set_request s value [] in
        match authorize e s (set_request s [] (subsystem s)) (Type_ r) ("authorize " +:+ Type_ r +:+ " session request")%string w with
        | Some res => res
        | None =>
            if negb (resolve e s) then (s, w, Stop)
            else
              let s := set_handled s in
              let '(ok, w) := acceptRequest e s w in
              if negb ok then (s, w, Stop) else (s, w ++ [SStart ShellHandler], Continue)
        end
    end.

(** [deferredSubsystemResponse.reply]. *)
Definition deferred_reply (e : requestEnv) (accept : bool) (st : waiting) : option error * waiting :=
  let '(mkWaiting s r ctxDone next returned w) := st in
  if answered r then (Some ErrSubsystemResponseAlreadySent, st)
  else if ctxDone
  then (Some ErrSubsystemResponseAlreadySent,
        mkWaiting (set_deferred s 2) (mkDeferred true (accepted r) (deferredErr r)) ctxDone next returned w)
  else
    let s := if negb accept then set_deferred s 2 else s in
    let w := w ++ [SReply accept] in
    let w := if replyBlocked e then emit (closeSSHConnection (Some (sessionContext cfg))) w else w in
    let '(s, w) :=
      match reply_err e with
      | Some _ => (set_deferred s 2, emit (closeSSHConnection (Some (sessionContext cfg))) w)
      | None => (if accept then set_deferred s 0 else s, w)
      end in
    (reply_err e, mkWaiting s (mkDeferred true accept (reply_err e)) ctxDone next returned w).

Definition deferred_abandon (st : waiting) : waiting :=
  let '(mkWaiting s r ctxDone next returned w) := st in
  if answered r then st
  else mkWaiting (set_deferred s 2) (mkDeferred true (accepted r) (deferredErr r)) ctxDone next returned w.

Definition wait_step (e : requestEnv) (x : waitStep) (st : waiting) : waiting :=
  let '(mkWaiting s r ctxDone next returned w) := st in
  match x with
  | HandlerReplies b => snd (deferred_reply e b st)
  | ContextEnds => mkWaiting s r true next returned w
  | SelAnswered => st
  | SelReturned err => snd (deferred_reply e false (mkWaiting s r ctxDone next err w))
  | SelTimer => snd (deferred_reply e false st)
  | SelContextDone => deferred_abandon st
  | SelLater later => mkWaiting s r ctxDone (Some later) returned w
  | SelReqsClosed => deferred_abandon st
  end.

(** A case of the select, after which the loop looks for the answer. *)
Definition selects (x : waitStep) : bool :=
  match x with HandlerReplies _ | ContextEnds => false | _ => true end.

(** The end of the loop, once there is an answer. *)
Definition wait_end (value : list byte) (st : waiting) : session_result :=
  let '(mkWaiting s r _ next returned w) := st in
  if negb (accepted r) || bool_decide (is_Some (deferredErr r)) then
    let w := w ++ [SCancelDecision; SCloseSession] in
    match returned with
    | Some err =>
        if negb (accepted r) then
          let '(_, d) := dispatchErrorOrEscalate (sessionContext cfg) (sessionErrorHandler cfg) ErrorScopeSession
                           ErrorOperationHandle (Some err) None (Some defaultLogAndFailErrorAction) None w in
          (s, d_world d, Stop)
        else (s, w, Stop)
    | None => (s, w, Stop)
    end
  else (s, w ++ [SStart (DeferredHandler value)], match next with Some r => Pending r | None => Continue end).

(** The loop; the timer fires after the steps that were given. *)
Fixpoint wait_loop (e : requestEnv) (value : list byte) (steps : list waitStep) (st : waiting) : session_result :=
  match steps with
  | [] => wait_end value (wait_step e SelTimer st)
  | x :: steps =>
      let st := wait_step e x st in
      if selects x && answered (wait_response st) then wait_end value st else wait_loop e value steps st
  end.

Definition waitDeferredSubsystem (e : requestEnv) (value : list byte) (s : session) (w : list sevent) : session_result :=
  wait_loop e value (waitSteps e)
    (mkWaiting (set_deferred s 1) (mkDeferred false false None) false None None w).

Definition handleSubsystem (e : requestEnv) (s : session) (r : sessionRequest) (w : list sevent) : session_result :=
  if handled s then rejectRequest s w
  else
    match unmarshal1 cfg (Payload r) with
    | None => rejectRequest s w
    | Some value =>
        let s := set_request s [] value in
        match authorize e s (set_request s (rawCmd s) []) (Type_ r) "authorize subsystem session request" w with
        | Some res => res
        | None =>
            let handler := subsystemHandlers cfg value in
            let deferred := deferredSubsystemHandlers cfg value in
            let '(handler, deferred) :=
              if negb handler && negb deferred
              then (subsystemHandlers cfg default_name, deferredSubsystemHandlers cfg default_name)
              else (handler, deferred) in
            if negb handler && negb deferred then rejectRequest (set_request s (rawCmd s) []) w
            else if negb (resolve e s) then (s, w, Stop)
            else
              let s := set_handled s in
              if deferred then waitDeferredSubsystem e value s w
              else
                let '(ok, w) := acceptRequest e s w in
                if negb ok then (s, w, Stop) else (s, w ++ [SStart (SubsystemHandler value)], Continue)
        end
    end.

Definition handleEnvRequest (s : session) (r : sessionRequest) (w : list sevent) : session_result :=
  if handled s then rejectRequest s w
  else
    match unmarshal2 cfg (Payload r) with
    | None => rejectRequest s w
    | Some (key, value) =>
        let n := zlen key + 1 + zlen value in
        if (maxSessionEnvVariables <=? Z.of_nat (length (env s))) || (maxSessionEnvBytes <? envBytes s + n)
        then rejectRequest s w
        else (set_env s (env s ++ [key ++ equals_sign :: value]) (envBytes s + n), w ++ [SReply true], Continue)
    end.

Definition handleSignalRequest (e : requestEnv) (s : session) (r : sessionRequest) (w : list sevent) : session_result :=
  match unmarshal1 cfg (Payload r) with
  | None => rejectRequest s w
  | Some sig =>
      if maxSessionSignalBytes <? zlen sig then rejectRequest s w
      else if exiting s then (s, w ++ [SReply false], Stop)
      else if negb (sigCh s) then
        let s := if Z.of_nat (length (sigBuf s)) <? maxSigBufSize
                 then set_signals s (sigCh s) (sigBuf s ++ [sig]) else s in
        (s, w ++ [SReply true], Continue)
      else
        let s := match sent e with ChannelClosed => set_signals s false (sigBuf s) | _ => s end in
        (s, w ++ [SReply match sent e with Delivered => true | _ => false end],
         match sent e with ContextDone => Stop | _ => Continue end)
  end.

Definition handlePty (e : requestEnv) (s : session) (r : sessionRequest) (w : list sevent) : session_result :=
  if handled s || bool_decide (is_Some (pty s)) then rejectRequest s w
  else
    match parsePtyRequest int_bits (Payload r) with
    | Ok ptyReq =>
        let accept := (set_pty s (Some ptyReq) (Some (PtyWindow ptyReq)), w ++ [SReply true], Continue) in
        match ptyCb cfg with
        | None => accept
        | Some cb =>
            match cb s ptyReq with
            | (_, Some err) => callbackFailed e s (wrap_error "authorize PTY request" err) w
            | (allowed, None) => if negb allowed then rejectRequest s w else accept
            end
        end
    | _ => rejectRequest s w
    end.

Definition handleWindowChange (e : requestEnv) (s : session) (r : sessionRequest) (w : list sevent) : session_result :=
  match pty s with
  | None => rejectRequest s w
  | Some p =>
      match parseWinchRequest int_bits (Payload r) with
      | Ok update =>
          let win := mergeWindow (PtyWindow p) update in
          (set_pty s (Some (mkPty (Term p) win (TerminalModes p))) (fst (winch_send (winch s) win (taken e))),
           w ++ [SReply true], Continue)
      | _ => rejectRequest s w
      end
  end.

Definition handleAgent (e : requestEnv) (s : session) (w : list sevent) : session_result :=
  match agentForwardingCb cfg with
  | None => rejectRequest s w
  | Some cb =>
      match cb s with
      | (_, Some err) => callbackFailed e s (wrap_error "authorize agent forwarding" err) w
      | (allowed, None) =>
          if negb allowed then rejectRequest s w
          else
            let s := set_agent s in
            let '(ok, w) := acceptRequest e s w in (s, w, control_of ok)
      end
  end.

Definition handleBreak (e : requestEnv) (s : session) (w : list sevent) : session_result :=
  if breakCh s then
    (match sent e with ChannelClosed => set_break s false | _ => s end,
     w ++ [SReply match sent e with Delivered => true | _ => false end], Continue)
  else (s, w ++ [SReply false], Continue).

(** One turn of the loop of [sess.handleRequests]. *)
Definition handleSessionRequest (e : requestEnv) (s : session) (r : sessionRequest) (w : list sevent) : session_result :=
  if decide (Type_ r = "shell") then handleShell e s r w
  else if decide (Type_ r = "exec") then handleShell e s r w
  else if decide (Type_ r = "subsystem") then handleSubsystem e s r w
  else if decide (Type_ r = "env") then handleEnvRequest s r w
  else if decide (Type_ r = "signal") then handleSignalRequest e s r w
  else if decide (Type_ r = "pty-req") then handlePty e s r w
  else if decide (Type_ r = "window-change") then handleWindowChange e s r w
  else if decide (Type_ r = agentRequestType) then handleAgent e s w
  else if decide (Type_ r = "break") then handleBreak e s w
  else rejectRequest s w.

(** [sess.requeueSignals] of undelivered signals. *)
Definition requeueSignals (signals buf : list (list byte)) : list (list byte) :=
  firstn (Z.to_nat maxSigBufSize) (signals ++ buf).

(** ** The end of a session *)

(** What the calls at the end of a session return. *)
Record exitEnv := mkExitEnv {
  exit_outcome : respondOutcome;
  exit_requestErr : option error;   (* SendRequest "exit-status" *)
  exit_closeErr : option error }.   (* Channel.Close *)

Definition maxUint32 : Z := 2 ^ 32 - 1.

Definition session_Close (x : exitEnv) (s : session) (w : list sevent) : option error * list sevent :=
  if deferredState s =? 1 then (Some ErrSubsystemResponsePending, w) else (exit_closeErr x, w ++ [SCloseSession]).

Definition Exit (x : exitEnv) (code : Z) (s : session) (w : list sevent) : option error * session * list sevent :=
  if negb (deferredState s =? 0) then (Some ErrSubsystemResponsePending, s, w)
  else if (code <? 0) || (maxUint32 <? code)
  then (Some (ErrNew 42 ("ssh: invalid session exit status " +:+ pretty code)%string), s, w)
  else
    let s := set_exiting s in
    if exited s then (Some (ErrNew 43 "Session.Exit called multiple times"), s, w)
    else
      let s := set_exited s in
      let w := w ++ [SExitStatus code] in
      let '(closeErr, w) := session_Close x s w in
      (errors_Join [exit_requestErr x; closeErr], s, w).

Definition applyExitError (x : exitEnv) (exitErr : SessionExitError) (s : session) (w : list sevent)
    : option error * session * list sevent :=
  let '(responseErr, w) :=
    if bool_decide (Message exitErr = "") then (None, w)
    else respondToError (sessionContext cfg) (exit_outcome x) (Message exitErr) false w in
  let '(err, s, w) := Exit x (Code exitErr) s w in
  (errors_Join [responseErr; err], s, w).

(** The report of an error of the exit itself. *)
Definition reportExit (exitErr : option error) (w : list sevent) : list sevent :=
  match exitErr with
  | None => w
  | Some err =>
      d_world (snd (dispatchErrorOrEscalate (sessionContext cfg) (sessionErrorHandler cfg) ErrorScopeSession
        ErrorOperationReply (Some err) None (Some defaultLogAndFailErrorAction) None w))
  end.

(** How [startHandler] deals with an error of the handler: whether the session
    goes on, whether its response asked for the close, and the effects. *)
Definition handlerError (x : exitEnv) (err : error) (w : list sevent) : bool * bool * list sevent :=
  let ctx := sessionContext cfg in
  let d := dispatchError ctx (sessionErrorHandler cfg) ErrorScopeSession ErrorOperationHandle (Some err)
             (Some (newErrorResponse (Some (respondToError ctx (exit_outcome x)))))
             (Some defaultLogAndFailErrorAction) None w in
  let '(canContinue, filteredErr) := d_result d in
  let '(_, responseErr) := response_result (d_response d) in
  let w := d_world d in
  let only := match filteredErr with
              | Some f => response_failed responseErr && isOnlyErrorOpt (Some f) responseErr
              | None => false
              end in
  let '(canContinue, w) :=
    match filteredErr with
    | Some _ =>
        (false, if only then logEscalate ErrorOperationReply responseErr err w ++ [SCloseSession]
                else logEscalate ErrorOperationHandle filteredErr err w ++ [SCloseConn])
    | None => (canContinue, w)
    end in
  let '(canContinue, w) :=
    if response_failed responseErr && negb only
    then (false, logEscalate ErrorOperationReply responseErr err w ++ [SCloseSession])
    else (canContinue, w) in
  (canContinue, closeRequested (d_response d), w).

(** The goroutine of [sess.startHandler], once the handler has returned. *)
Definition finishHandler (x : exitEnv) (err : option error) (s : session) (w : list sevent) : session * list sevent :=
  match exclusiveSessionExitErrorOpt err with
  | Some requestedExit =>
      if exited s then (s, w)
      else let '(exitErr, s, w) := applyExitError x requestedExit s w in (s, reportExit exitErr w)
  | None =>
      let '(canContinue, closeReq, w) :=
        match err with Some e => handlerError x e w | None => (true, false, w) end in
      if closeReq then (s, w ++ [SCloseSession])
      else if exited s then (s, w)
      else
        let status := if bool_decide (is_Some err) && negb canContinue then 1 else 0 in
        let '(exitErr, s, w) := Exit x status s w in (s, reportExit exitErr w)
  end.

(** ** Runs *)

(** What other goroutines change between two requests: the application takes
    from the window channel and installs signal and break channels; [drainSignals]
    takes buffered signals away and puts back those it could not deliver (any
    signals that had been accepted before); a call of [Exit] that has not come to
    the exit status has already said so. *)
Inductive interference : session -> session -> Prop :=
| i_winch s : interference s (set_pty s (pty s) None)
| i_signals s ch buf : (exists taken, sigBuf s = taken ++ buf) -> interference s (set_signals s ch buf)
| i_requeue s ch l :
    Forall (fun sig => zlen sig <= maxSessionSignalBytes) l ->
    interference s (set_signals s ch (requeueSignals l (sigBuf s)))
| i_break s ch : interference s (set_break s ch)
| i_exiting s : interference s (set_exiting s).

(** Runs of a session: the turns of the loop, calls of [Exit] by the
    application, the end of a handler that was started, and the interference
    of other goroutines.  The effects and whether the loop still runs are kept. *)
Inductive session_run : session -> list sevent -> control -> Prop :=
| run_start : session_run newSession [] Continue
| run_interference s s' w c : session_run s w c -> interference s s' -> session_run s' w c
| run_exit x code err s w s' w' c :
    session_run s w c -> Exit x code s w = (err, s', w') -> session_run s' w' c
| run_finish h x err s w s' w' c :
    session_run s w c -> SStart h ∈ w -> finishHandler x err s w = (s', w') -> session_run s' w' c
| run_request e s r w c s' w' c' :
    session_run s w c -> c = Continue \/ c = Pending r ->
    handleSessionRequest e s r w = (s', w', c') -> session_run s' w' c'.
End Requests.
