(* ===== verification/SessionLaws.v ===== *)
(** * The laws of session channels

    Every request is answered, a session starts at most one handler and sends
    at most one exit status, what a client can store is bounded, and callbacks
    that fail close the session. *)
From S2P Require Import Prelude GoErrors ErrorDispatch Request Wire Terminal Session.
Local Open Scope Z_scope.

(** ** The replies and handler starts of a run *)

Definition essential (e : sevent) : bool :=
  match e with SReply _ | SStart _ | SExitStatus _ => true | _ => false end.
Definition essence (w : list sevent) : list sevent := List.filter essential w.

Lemma essence_app w w' : essence (w ++ w') = essence w ++ essence w'.
Proof. apply List.filter_app. Qed.

Lemma essence_emit l (w : list sevent) : essence (emit l w) = essence w.
Proof. simpl. rewrite essence_app. rewrite <- (app_nil_r (essence w)) at 2. f_equal. by induction l. Qed.

Lemma essence_noise w e : essential e = false -> essence (w ++ [e]) = essence w.
Proof. intros He. rewrite essence_app. unfold essence at 2. simpl. by rewrite He, app_nil_r. Qed.

Create Rewrite HintDb essence.
#[local] Hint Rewrite essence_emit : essence.
#[local] Hint Rewrite essence_noise using reflexivity : essence.

Lemma respondToError_essence ctx o m c w : essence (snd (respondToError ctx o m c w)) = essence w.
Proof.
  unfold respondToError. destruct o as [n [err|]|cause|]; destruct c; cbn -[emit essence];
    by autorewrite with essence.
Qed.

Lemma logEscalate_essence op e o w : essence (logEscalate op e o w) = essence w.
Proof. unfold logEscalate. destruct e; by autorewrite with essence. Qed.

Lemma close_either_essence ctx b w : essence (close_either ctx b w) = essence w.
Proof. unfold close_either. destruct b; by autorewrite with essence. Qed.
#[local] Hint Rewrite respondToError_essence logEscalate_essence close_either_essence : essence.

Lemma escalate_essence ctx eh sc op err w :
  essence (d_world (snd (dispatchErrorOrEscalate ctx eh sc op err None (Some defaultLogAndFailErrorAction) None w)))
  = essence w.
Proof.
  apply (escalate_keeps (fun v => essence v = essence w)); [|done|done].
  intros l v Hv. by rewrite essence_emit.
Qed.

Lemma session_reply_essence ctx eh reply_err accepted w :
  essence (snd (session_reply ctx eh reply_err accepted w)) = essence w ++ [SReply accepted].
Proof.
  unfold session_reply. destruct reply_err as [err|]; [|apply essence_app].
  pose proof (escalate_essence ctx eh ErrorScopeSession ErrorOperationReply (Some err) (w ++ [SReply accepted])) as H.
  destruct (dispatchErrorOrEscalate _ _ _ _ _ _ _ _ _) as [b d]. cbn [snd] in *.
  rewrite essence_emit, H. by rewrite essence_app.
Qed.

(** A failed callback answers the request with a failure, exactly once. *)
Lemma handleCallbackError_essence ctx eh reply_err o err w :
  essence (snd (handleCallbackError ctx eh reply_err o err w)) = essence w ++ [SReply false].
Proof.
  unfold handleCallbackError. set (d := dispatchError _ _ _ _ _ _ _ _ _).
  assert (Hd : essence (d_world d) = essence w).
  { apply (dispatch_keeps (fun v => essence v = essence w)); [by intros l v Hv; rewrite essence_emit| |done].
    intros r Hr f m c v Hf Hv. simplify_eq/=. by rewrite respondToError_essence. }
  destruct (d_result d) as [cc f]. destruct (response_result (d_response d)) as [att re].
  assert (Hw : essence (d_world d ++ [SReply false]) = essence w ++ [SReply false]) by (by rewrite essence_app, Hd).
  destruct reply_err as [e|].
  - pose proof (escalate_essence ctx eh ErrorScopeSession ErrorOperationReply (errors_Join [Some err; Some e])
      (d_world d ++ [SReply false])) as H.
    destruct (dispatchErrorOrEscalate _ _ _ _ _ _ _ _ _) as [b d2]. cbn [snd] in *. rewrite Hw in H.
    autorewrite with essence. destruct f; repeat case_match; by autorewrite with essence.
  - destruct f; repeat case_match; cbn [snd]; by autorewrite with essence.
Qed.

(** ** Deferred subsystems *)

(** The verdict on a deferred subsystem, read off the steps alone: the first
    step that decides, where [None] is an abandoned request. *)
Fixpoint verdict (ctxDone : bool) (steps : list waitStep) : option bool :=
  match steps with
  | [] => if ctxDone then None else Some false
  | HandlerReplies b :: _ => if ctxDone then None else Some b
  | SelReturned _ :: _ | SelTimer :: _ => if ctxDone then None else Some false
  | SelContextDone :: _ | SelReqsClosed :: _ => None
  | ContextEnds :: steps => verdict true steps
  | SelAnswered :: steps | SelLater _ :: steps => verdict ctxDone steps
  end.

Definition verdict_replies (v : option bool) : list sevent :=
  match v with Some b => [SReply b] | None => [] end.
(** The handler is started: it was accepted, and the client knows. *)
Definition verdict_starts (reply_err : option error) (v : option bool) : bool :=
  match v with Some b => b && bool_decide (reply_err = None) | None => false end.

Section Deferred.
Variable cfg : sessionConfig.
Variable e : requestEnv.
Variable base : list sevent.
Variable s0 : session.

(** A waiting subsystem and its verdict [v], given the steps to come. *)
Inductive wait_rel (steps : list waitStep) (v : option bool) : waiting -> Prop :=
| wait_open ctx next returned w :
    v = verdict ctx steps -> essence w = base ->
    wait_rel steps v (mkWaiting (set_deferred s0 1) (mkDeferred false false None) ctx next returned w)
| wait_abandoned ctx next returned w :
    v = None -> essence w = base ->
    wait_rel steps v (mkWaiting (set_deferred s0 2) (mkDeferred true false None) ctx next returned w)
| wait_answered b ctx next returned w :
    v = Some b -> essence w = base ++ [SReply b] ->
    wait_rel steps v (mkWaiting (set_deferred s0 (if b && bool_decide (reply_err e = None) then 0 else 2))
      (mkDeferred true b (reply_err e)) ctx next returned w).

(** An answer given now; [steps] does not matter any more. *)
Lemma deferred_reply_rel b before steps v st :
  wait_rel before v st -> (answered (wait_response st) = false -> v = if wait_ctxDone st then None else Some b) ->
  wait_rel steps v (snd (deferred_reply cfg e b st)).
Proof.
  intros H Hv. destruct H as [ctx next returned w _ H|ctx next returned w -> H|b' ctx next returned w -> H];
    cbn -[emit essence]; [|by apply wait_abandoned|by apply wait_answered].
  specialize (Hv eq_refl). simpl in Hv. subst v.
  destruct ctx; cbn -[emit essence]; [by apply wait_abandoned|].
  destruct (reply_err e) as [err|] eqn:Hr.
  - replace (Some err) with (reply_err e) at 2.
    replace (set_deferred _ 2) with (set_deferred s0 (if b && bool_decide (reply_err e = None) then 0 else 2)).
    + apply wait_answered; [done|].
      rewrite essence_emit. destruct (replyBlocked e); rewrite ?essence_emit, essence_app, H; done.
    + rewrite Hr. by destruct b.
  - replace (@None error) with (reply_err e) at 2.
    replace (if b then _ else _) with (set_deferred s0 (if b && bool_decide (reply_err e = None) then 0 else 2)).
    + apply wait_answered; [done|]. destruct (replyBlocked e); rewrite ?essence_emit, essence_app, H; done.
    + rewrite Hr. by destruct b.
Qed.

Lemma deferred_abandon_rel before steps v st :
  wait_rel before v st -> (answered (wait_response st) = false -> v = None) ->
  wait_rel steps v (deferred_abandon st).
Proof. intros [] Hv; simpl; [apply wait_abandoned; auto|by apply wait_abandoned|by apply wait_answered]. Qed.

Lemma wait_reframe before steps v st ctx next returned :
  wait_rel before v st -> (answered (wait_response st) = false -> v = verdict ctx steps) ->
  wait_rel steps v (mkWaiting (wait_session st) (wait_response st) ctx next returned (wait_world st)).
Proof. intros [] Hv; simpl; constructor; auto. Qed.

Lemma wait_step_rel x steps v st : wait_rel (x :: steps) v st -> wait_rel steps v (wait_step cfg e x st).
Proof.
  intros H. assert (Hv : answered (wait_response st) = false -> v = verdict (wait_ctxDone st) (x :: steps)) by by destruct H.
  destruct st as [s r ctx next returned w]. destruct x as [b| | |err| | |later|]; cbn -[deferred_reply deferred_abandon].
  - by eapply deferred_reply_rel.
  - by apply (wait_reframe _ steps v _ true next returned) in H.
  - by apply (wait_reframe _ steps v _ ctx next returned) in H.
  - pose proof (wait_reframe _ (SelReturned err :: steps) v _ ctx next err H Hv) as H'. by eapply deferred_reply_rel.
  - by eapply deferred_reply_rel.
  - by eapply deferred_abandon_rel.
  - by apply (wait_reframe _ steps v _ ctx (Some later) returned) in H.
  - by eapply deferred_abandon_rel.
Qed.

Lemma wait_timer_answers before v st : wait_rel before v st -> answered (wait_response (wait_step cfg e SelTimer st)) = true.
Proof. intros []; simpl; [|done..]. destruct ctx; simpl; [done|]. by destruct (reply_err e). Qed.

(** The result of a deferred subsystem. *)
Inductive deferred_result (value : list byte) (v : option bool) : session_result -> Prop :=
| result_failed w :
    verdict_starts (reply_err e) v = false -> essence w = base ++ verdict_replies v ->
    deferred_result value v (set_deferred s0 2, w, Stop)
| result_accepted c w :
    verdict_starts (reply_err e) v = true -> c <> Stop ->
    essence w = base ++ verdict_replies v ++ [SStart (DeferredHandler value)] ->
    deferred_result value v (set_deferred s0 0, w, c).

(** What follows a failed deferred subsystem does not reply. *)
Lemma wait_fail_essence value s r ctx next returned w :
  negb (accepted r) || bool_decide (is_Some (deferredErr r)) = true ->
  exists w', wait_end cfg value (mkWaiting s r ctx next returned w) = (s, w', Stop) /\ essence w' = essence w.
Proof.
  intros H. unfold wait_end. rewrite H.
  assert (Hw : essence (w ++ [SCancelDecision; SCloseSession]) = essence w) by (by rewrite essence_app, app_nil_r).
  destruct returned as [err|]; [|by eexists]. destruct (negb (accepted r)); [|by eexists].
  pose proof (escalate_essence (sessionContext cfg) (sessionErrorHandler cfg) ErrorScopeSession ErrorOperationHandle
    (Some err) (w ++ [SCancelDecision; SCloseSession])) as Hd.
  destruct (dispatchErrorOrEscalate _ _ _ _ _ _ _ _ _) as [b d]. eexists. split; [done|]. by rewrite <- Hw.
Qed.

Lemma wait_end_result value steps v st :
  wait_rel steps v st -> answered (wait_response st) = true -> deferred_result value v (wait_end cfg value st).
Proof.
  intros H Ha. destruct H as [ctx next returned w _ H|ctx next returned w -> H|b ctx next returned w -> H]; [done| |].
  - destruct (wait_fail_essence value (set_deferred s0 2) (mkDeferred true false None) ctx next returned w) as (w' & -> & Hw);
      [done|]. apply result_failed; [done|]. by rewrite Hw, app_nil_r.
  - destruct (b && bool_decide (reply_err e = None)) eqn:Hb.
    + pose proof Hb as Hb'. apply andb_true_iff in Hb' as [-> Hr%bool_decide_eq_true].
      unfold wait_end. rewrite Hr. simpl. apply result_accepted; [done|by destruct next|].
      by rewrite essence_app, H, <- app_assoc.
    + destruct (wait_fail_essence value (set_deferred s0 2) (mkDeferred true b (reply_err e)) ctx next returned w)
        as (w' & -> & Hw); [by destruct b, (reply_err e)|].
      apply result_failed; [done|]. by rewrite Hw.
Qed.

Lemma wait_loop_result value steps v st : wait_rel steps v st -> deferred_result value v (wait_loop cfg e value steps st).
Proof.
  revert st. induction steps as [|x steps IH]; intros st H; cbn [wait_loop].
  - apply (wait_end_result _ [] v); [|by eapply wait_timer_answers]. apply wait_step_rel.
    by destruct H; constructor.
  - apply wait_step_rel in H. destruct (selects x); simpl; [|by apply IH].
    destruct (answered _) eqn:Ha; [|by apply IH]. by eapply wait_end_result.
Qed.
End Deferred.

Lemma waitDeferredSubsystem_result cfg e value s w :
  deferred_result e (essence w) s value (verdict false (waitSteps e)) (waitDeferredSubsystem cfg e value s w).
Proof. apply wait_loop_result. by apply wait_open. Qed.

Section Shape.
Variable int_bits : Z.
Variable cfg : sessionConfig.

(** The policy callback has allowed a request of this type on this session. *)
Definition authorized (s : session) (kind : string) : Prop :=
  match sessReqCb cfg with None => True | Some cb => cb s kind = (true, None) end.

(** What only answered requests of the loop change. *)
Definition kept (s s' : session) : Prop :=
  handled s' = handled s /\ exited s' = exited s /\ requestResolved s' = requestResolved s /\
  deferredState s' = deferredState s.

(** What one request adds to the replies and starts, and does to the session.
    A handler starts only on a session that had none, with the policy's
    permission for what was asked. *)
Inductive shape (s : session) (kind : string) : session -> list sevent -> control -> Prop :=
| shape_reply s' b c :
    kept s s' ->
    shape s kind s' [SReply b] c
| shape_expired s' :
    kept s s' ->
    shape s kind s' [] Stop
| shape_failed s1 d l :
    handled s = false -> authorized s1 kind -> kept s s1 ->
    d = deferredState s \/ d = 2 -> l = [] \/ (exists b, l = [SReply b]) ->
    shape s kind (set_deferred (set_handled s1) d) l Stop
| shape_start s1 d h c :
    handled s = false -> authorized s1 kind -> kept s s1 -> requestResolved s = false -> c <> Stop ->
    d = deferredState s \/ d = 0 ->
    shape s kind (set_deferred (set_handled s1) d) [SReply true; SStart h] c.

Definition has_shape (s : session) (kind : string) (w : list sevent) (res : session_result) : Prop :=
  exists l, essence (snd (fst res)) = essence w ++ l /\ shape s kind (fst (fst res)) l (snd res).

Lemma shape_one s kind s' w b c :
  kept s s' ->
  has_shape s kind w (s', w ++ [SReply b], c).
Proof. intros H. exists [SReply b]. split; [apply essence_app|by constructor]. Qed.

Lemma shape_reject s kind s' w :
  kept s s' ->
  has_shape s kind w (rejectRequest s' w).
Proof. apply shape_one. Qed.

Lemma shape_callback s kind e s' err w :
  kept s s' ->
  has_shape s kind w (callbackFailed cfg e s' err w).
Proof.
  intros H. unfold callbackFailed.
  pose proof (handleCallbackError_essence (sessionContext cfg) (sessionErrorHandler cfg) (reply_err e) (outcome e) err w) as He.
  destruct (handleCallbackError _ _ _ _ _ _) as [ok w']. exists [SReply false]. split; [done|by constructor].
Qed.

Lemma authorize_none e s1 denied kind text w :
  authorize cfg e s1 denied kind text w = None -> authorized s1 kind.
Proof.
  unfold authorize, authorized. destruct (sessReqCb cfg) as [cb|]; [|done].
  by destruct (cb s1 kind) as [[] [err|]].
Qed.

Lemma authorize_some e s s1 denied kind text w res :
  kept s denied ->
  authorize cfg e s1 denied kind text w = Some res -> has_shape s kind w res.
Proof.
  intros H. unfold authorize. destruct (sessReqCb cfg) as [cb|]; [|done].
  destruct (cb s1 kind) as [allowed [err|]]; intros; simplify_eq; [by apply shape_callback|].
  destruct allowed; simplify_eq/=. by apply shape_reject.
Qed.

Lemma set_deferred_same s : set_deferred s (deferredState s) = s.
Proof. by destruct s. Qed.

(** Accepting a request and starting its handler. *)
Lemma shape_accept e s s1 kind h w :
  handled s = false -> authorized s1 kind -> requestResolved s = false -> kept s s1 ->
  has_shape s kind w (let '(ok, w) := acceptRequest cfg e (set_handled s1) w in
    if negb ok then (set_handled s1, w, Stop) else (set_handled s1, w ++ [SStart h], Continue)).
Proof.
  intros Hs Ha Hr H1. unfold acceptRequest.
  pose proof (session_reply_essence (sessionContext cfg) (sessionErrorHandler cfg) (reply_err e) true w) as He.
  destruct (session_reply _ _ _ _ _) as [ok w']. cbn [snd] in He. rewrite <- (set_deferred_same (set_handled s1)).
  assert (Hd : deferredState s1 = deferredState s) by apply H1.
  destruct ok; cbn [negb].
  - exists [SReply true; SStart h]. cbn [fst snd]. rewrite essence_app, He, <- app_assoc.
    split; [done|]. constructor; try done. by left.
  - exists [SReply true]. split; [done|]. apply shape_failed; eauto.
Qed.

Lemma shape_deferred e s s1 kind value w :
  handled s = false -> authorized s1 kind -> requestResolved s = false -> kept s s1 ->
  has_shape s kind w (waitDeferredSubsystem cfg e value (set_handled s1) w).
Proof.
  intros Hs Ha Hr H1. destruct (waitDeferredSubsystem_result cfg e value (set_handled s1) w) as [w' _ Hw|c w' Hv Hc Hw].
  - eexists. split; [done|]. apply shape_failed; eauto. destruct (verdict _ _); eauto.
  - exists [SReply true; SStart (DeferredHandler value)]. split; [|apply shape_start; eauto].
    by destruct (verdict _ _) as [[]|].
Qed.

Lemma resolve_true e s : resolve e s = true -> requestResolved s = false.
Proof. unfold resolve. by destruct (requestResolved s). Qed.

Lemma handleShell_shape e s r w : has_shape s (Type_ r) w (handleShell cfg e s r w).
Proof.
  unfold handleShell. destruct (handled s) eqn:Hs; [by apply shape_reject|].
  destruct (hasHandler cfg); [|by apply shape_reject]. simpl.
  destruct (if decide _ then _ else _) as [value|]; [|by apply shape_reject].
  set (s1 := set_request s value []).
  destruct (authorize cfg e s1 _ _ _ w) as [res|] eqn:Ha; [by eapply authorize_some in Ha|].
  apply authorize_none in Ha. destruct (resolve e s1) eqn:Hr; cbn [negb].
  - apply resolve_true in Hr. by apply shape_accept.
  - exists []. by rewrite app_nil_r; split; [|apply shape_expired].
Qed.

Lemma handleSubsystem_shape e s r w : has_shape s (Type_ r) w (handleSubsystem cfg e s r w).
Proof.
  unfold handleSubsystem. destruct (handled s) eqn:Hs; [by apply shape_reject|].
  destruct (unmarshal1 cfg (Payload r)) as [value|]; [|by apply shape_reject].
  set (s1 := set_request s [] value).
  destruct (authorize cfg e s1 _ _ _ w) as [res|] eqn:Ha; [by eapply authorize_some in Ha|].
  apply authorize_none in Ha.
  destruct (if _ && _ then _ else _) as [h d]. destruct (negb h && negb d); [by apply shape_reject|].
  destruct (resolve e s1) eqn:Hr; cbn [negb]; [|exists []; by rewrite app_nil_r; split; [|apply shape_expired]].
  apply resolve_true in Hr. destruct d; [by apply shape_deferred|by apply shape_accept].
Qed.

Lemma session_step_shape e s r w : has_shape s (Type_ r) w (handleSessionRequest int_bits cfg e s r w).
Proof.
  unfold handleSessionRequest. repeat case_decide; try apply handleShell_shape; try apply handleSubsystem_shape.
  - unfold handleEnvRequest. repeat case_match; subst; (by apply shape_reject) || by apply shape_one.
  - unfold handleSignalRequest. repeat case_match; subst; (by apply shape_reject) || by apply shape_one.
  - unfold handlePty. repeat case_match; subst;
      (by apply shape_reject) || (by apply shape_callback) || by apply shape_one.
  - unfold handleWindowChange. repeat case_match; subst; (by apply shape_reject) || by apply shape_one.
  - unfold handleAgent. destruct (agentForwardingCb cfg) as [cb|]; [|by apply shape_reject].
    destruct (cb s) as [allowed [err|]]; [by apply shape_callback|]. destruct allowed; simpl; [|by apply shape_reject].
    unfold acceptRequest.
    pose proof (session_reply_essence (sessionContext cfg) (sessionErrorHandler cfg) (reply_err e) true w) as He.
    destruct (session_reply _ _ _ _ _) as [ok w']. exists [SReply true]. split; [done|by constructor].
  - unfold handleBreak. destruct (breakCh s), (sent e); by apply shape_one.
  - by apply shape_reject.
Qed.
End Shape.

(** ** The end of a session *)

(** What [Exit] may do to the session. *)
Inductive exit_shape (s : session) (code : Z) : session -> list sevent -> Prop :=
| exit_refused s' :
    s' = s \/ s' = set_exiting s -> exit_shape s code s' []
| exit_sent :
    exited s = false -> deferredState s = 0 -> 0 <= code <= maxUint32 ->
    exit_shape s code (set_exited (set_exiting s)) [SExitStatus code].

Lemma Exit_shape x code s w err s' w' :
  Exit x code s w = (err, s', w') -> exists l, essence w' = essence w ++ l /\ exit_shape s code s' l.
Proof.
  unfold Exit, session_Close. destruct (Z.eqb_spec (deferredState s) 0) as [Hd|Hd]; cbn [negb].
  - destruct (Z.ltb_spec code 0), (Z.ltb_spec maxUint32 code); cbn [orb]; intros He;
      try (simplify_eq; exists []; rewrite app_nil_r; split; [done|]; apply exit_refused; tauto).
    destruct (exited s) eqn:Hx; simpl in He; rewrite Hx in He.
    + simplify_eq. exists []. rewrite app_nil_r. split; [done|]. apply exit_refused. tauto.
    + rewrite Hd in He. simpl in He. simplify_eq. exists [SExitStatus code]. split; [|by apply exit_sent].
      by rewrite essence_noise, essence_app.
  - intros He. simplify_eq. exists []. rewrite app_nil_r. split; [done|]. apply exit_refused. tauto.
Qed.

Section Finish.
Variable cfg : sessionConfig.

Lemma reportExit_essence err w : essence (reportExit cfg err w) = essence w.
Proof. unfold reportExit. destruct err; [apply escalate_essence|done]. Qed.

Lemma handlerError_essence x err w : essence (snd (handlerError cfg x err w)) = essence w.
Proof.
  unfold handlerError. set (d := dispatchError _ _ _ _ _ _ _ _ _).
  assert (Hd : essence (d_world d) = essence w).
  { apply (dispatch_keeps (fun v => essence v = essence w)); [by intros l v Hv; rewrite essence_emit| |done].
    intros r Hr f m c v Hf Hv. simplify_eq/=. by rewrite respondToError_essence. }
  destruct (d_result d) as [cc f]. destruct (response_result (d_response d)) as [att re]. rewrite <- Hd.
  destruct f; repeat case_match; simplify_eq; cbn [snd]; by autorewrite with essence.
Qed.

Lemma applyExitError_exit x exitErr s w :
  exists w1 err, essence w1 = essence w /\
    snd (fst (applyExitError cfg x exitErr s w)) = snd (fst (Exit x (Code exitErr) s w1)) /\
    snd (applyExitError cfg x exitErr s w) = snd (Exit x (Code exitErr) s w1) /\
    fst (fst (applyExitError cfg x exitErr s w)) = errors_Join [err; fst (fst (Exit x (Code exitErr) s w1))].
Proof.
  unfold applyExitError. case_bool_decide.
  - exists w, None. by destruct (Exit x _ s w) as [[]].
  - pose proof (respondToError_essence (sessionContext cfg) (exit_outcome x) (Message exitErr) false w) as Hw.
    destruct (respondToError _ _ _ _ _) as [err w1]. exists w1, err. by destruct (Exit x _ s w1) as [[]].
Qed.

(** The exit code that a handler's error asks for, once the error handler has
    answered: [Some], unless the session ends without an exit status. *)
Definition exit_code (x : exitEnv) (err : option error) (w : list sevent) : option Z :=
  match exclusiveSessionExitErrorOpt err, err with
  | Some requested, _ => Some (Code requested)
  | None, None => Some 0
  | None, Some e =>
      let '(canContinue, closeReq, _) := handlerError cfg x e w in
      if closeReq then None else if canContinue then Some 0 else Some 1
  end.

Lemma finishHandler_exit x err s w :
  match exit_code x err w with
  | None => fst (finishHandler cfg x err s w) = s /\ essence (snd (finishHandler cfg x err s w)) = essence w
  | Some code =>
      if exited s
      then fst (finishHandler cfg x err s w) = s /\ essence (snd (finishHandler cfg x err s w)) = essence w
      else exists w1, essence w1 = essence w /\
        fst (finishHandler cfg x err s w) = snd (fst (Exit x code s w1)) /\
        essence (snd (finishHandler cfg x err s w)) = essence (snd (Exit x code s w1))
  end.
Proof.
  unfold exit_code, finishHandler. destruct (exclusiveSessionExitErrorOpt err) as [requested|].
  - destruct (exited s); [done|].
    destruct (applyExitError_exit x requested s w) as (w1 & e & Hw & Hs & Hw' & _).
    destruct (applyExitError cfg x requested s w) as [[err' s'] w']. simpl in *. subst.
    exists w1. by rewrite reportExit_essence.
  - destruct err as [err|].
    + pose proof (handlerError_essence x err w) as Hw.
      destruct (handlerError cfg x err w) as [[cc closeReq] w1]. simpl in Hw.
      destruct closeReq; simpl; [by rewrite essence_noise|].
      destruct cc; simpl; destruct (exited s); try done; exists w1;
        destruct (Exit x _ s w1) as [[err' s'] w']; simpl; by rewrite reportExit_essence.
    + simpl. destruct (exited s); [done|]. exists w.
      destruct (Exit x 0 s w) as [[err' s'] w']. simpl. by rewrite reportExit_essence.
Qed.

Lemma finishHandler_shape x err s w :
  exists code l, essence (snd (finishHandler cfg x err s w)) = essence w ++ l /\
    exit_shape s code (fst (finishHandler cfg x err s w)) l.
Proof.
  pose proof (finishHandler_exit x err s w) as H.
  destruct (exit_code x err w) as [code|]; [destruct (exited s); [|destruct H as (w1 & Hw & Hs & Hw')]|].
  - destruct H as [-> ->]. exists 0, []. rewrite app_nil_r. split; [done|]. apply exit_refused. by left.
  - destruct (Exit x code s w1) as [[err' s'] w'] eqn:He. simpl in *.
    apply Exit_shape in He as (l & Hl & Hsh). exists code, l. by rewrite Hw', Hs, Hl, Hw.
  - destruct H as [-> ->]. exists 0, []. rewrite app_nil_r. split; [done|]. apply exit_refused. by left.
Qed.
End Finish.

(** ** Runs *)

Definition is_reply (e : sevent) : bool := match e with SReply _ => true | _ => false end.
Definition is_start (e : sevent) : bool := match e with SStart _ => true | _ => false end.
Definition is_exit (e : sevent) : bool := match e with SExitStatus _ => true | _ => false end.
Definition replies (w : list sevent) : list sevent := List.filter is_reply w.
Definition starts (w : list sevent) : list sevent := List.filter is_start w.
Definition exits (w : list sevent) : list sevent := List.filter is_exit w.

(** A part of the essence can be read off the essence. *)
Lemma filter_essence (f : sevent -> bool) (w w' l : list sevent) :
  (forall e, f e = true -> essential e = true) ->
  essence w' = essence w ++ l -> List.filter f w' = List.filter f w ++ List.filter f l.
Proof.
  intros Hf Hw.
  assert (He : forall v, List.filter f (essence v) = List.filter f v).
  { induction v as [|e v IH]; [done|]. unfold essence in *. simpl.
    destruct (essential e) eqn:Hes; simpl; rewrite IH; [done|].
    destruct (f e) eqn:Hfe; [|done]. apply Hf in Hfe. congruence. }
  by rewrite <- (He w'), Hw, List.filter_app, He.
Qed.

Lemma replies_of w w' l : essence w' = essence w ++ l -> replies w' = replies w ++ replies l.
Proof. apply filter_essence. by intros []. Qed.
Lemma starts_of w w' l : essence w' = essence w ++ l -> starts w' = starts w ++ starts l.
Proof. apply filter_essence. by intros []. Qed.
Lemma exits_of w w' l : essence w' = essence w ++ l -> exits w' = exits w ++ exits l.
Proof. apply filter_essence. by intros []. Qed.

Lemma starts_elem h w : SStart h ∈ w -> starts w <> [].
Proof.
  intros Hin Hn. assert (SStart h ∈ starts w) as Hf; [|rewrite Hn in Hf; by apply not_elem_of_nil in Hf].
  apply list_elem_of_In. apply List.filter_In. split; [by apply list_elem_of_In|done].
Qed.

(** What holds of a session and its effects between two steps. *)
Record run_ok (s : session) (w : list sevent) : Prop := mkRunOk {
  run_resolved : handled s = true -> requestResolved s = true;
  run_deferred : deferredState s = 0 \/ deferredState s = 2 /\ handled s = true /\ starts w = [];
  run_starts : if handled s then (length (starts w) <= 1)%nat else starts w = [];
  run_exits : length (exits w) = (if exited s then 1 else 0)%nat;
  run_codes : forall code, SExitStatus code ∈ exits w -> 0 <= code <= maxUint32 }.

Lemma exit_shape_ok s code s' w w' l :
  run_ok s w -> essence w' = essence w ++ l -> exit_shape s code s' l -> run_ok s' w'.
Proof.
  intros [Hr Hd Hs He Hc] Hw Hsh.
  pose proof (starts_of _ _ _ Hw) as Hst. pose proof (exits_of _ _ _ Hw) as Hex.
  destruct Hsh as [s' Hs'|Hx Hd0 Hrange].
  - simpl in Hst, Hex. rewrite app_nil_r in Hst, Hex. rewrite <- Hst, <- Hex in *. by destruct Hs'; subst; split.
  - simpl in Hst, Hex. rewrite app_nil_r in Hst. rewrite <- Hst in *. rewrite Hx in He. apply nil_length_inv in He.
    rewrite He in Hex. split; simpl; try done.
    + by rewrite Hex.
    + intros c. rewrite Hex. simpl. intros Hin. apply list_elem_of_singleton in Hin. by simplify_eq.
Qed.

Section Runs.
Variable int_bits : Z.
Variable cfg : sessionConfig.

Lemma request_ok e s r w s' w' c :
  run_ok s w -> handleSessionRequest int_bits cfg e s r w = (s', w', c) -> run_ok s' w'.
Proof.
  intros [Hr Hd Hs He Hc] Hst.
  destruct (session_step_shape int_bits cfg e s r w) as (l & Hw & Hsh). rewrite Hst in Hw, Hsh. cbn [fst snd] in *.
  pose proof (starts_of _ _ _ Hw) as Hst'. pose proof (exits_of _ _ _ Hw) as Hex.
  assert (exits l = []) as Hxl by (destruct Hsh as [| |? ? ? ? ? ? ? [->|[? ->]]|]; done).
  rewrite Hxl, app_nil_r in Hex. rewrite <- Hex in *.
  destruct Hsh as [s' b c (K1 & K2 & K3 & K4)|s' (K1 & K2 & K3 & K4)|s1 d l Hh _ (K1 & K2 & K3 & K4) Hd' Hl
                  |s1 d h c Hh _ (K1 & K2 & K3 & K4) Hr' _ Hd'].
  - simpl in Hst'. rewrite app_nil_r in Hst'. rewrite <- Hst' in *. split; rewrite ?K1, ?K2, ?K3, ?K4; done.
  - simpl in Hst'. rewrite app_nil_r in Hst'. rewrite <- Hst' in *. split; rewrite ?K1, ?K2, ?K3, ?K4; done.
  - assert (starts l = []) as Hl' by (destruct Hl as [->|[? ->]]; done). rewrite Hl', app_nil_r in Hst'.
    rewrite <- Hst' in *. rewrite Hh in Hs, Hd. split; simpl; rewrite ?K2; try done; [|by rewrite Hs; simpl; lia].
    destruct Hd as [Hd|(? & ? & _)]; [|done]. destruct Hd' as [->| ->]; [by left|by right].
  - simpl in Hst'. rewrite Hh in Hs, Hd. rewrite Hs in Hst'. split; simpl; rewrite ?K2; try done.
    + destruct Hd as [Hd|(? & ? & _)]; [|done]. left. by destruct Hd' as [->| ->].
    + by rewrite Hst'.
Qed.

Lemma run_invariant s w c : session_run int_bits cfg s w c -> run_ok s w.
Proof.
  induction 1 as [|s s' w c _ IH Hi|x code err s w s' w' c _ IH He|h x err s w s' w' c _ IH _ Hf
                 |e s r w c s' w' c' _ IH _ Hst].
  - split; try done; [by left|]. intros code H. by apply not_elem_of_nil in H.
  - by destruct IH, Hi; constructor.
  - apply Exit_shape in He as (l & Hl & Hsh). by eapply exit_shape_ok.
  - destruct (finishHandler_shape cfg x err s w) as (code & l & Hl & Hsh). rewrite Hf in Hl, Hsh.
    by eapply exit_shape_ok.
  - by eapply request_ok.
Qed.
End Runs.

(** C31. Whatever a client sends, whatever the application does and however
    they interleave, a session starts at most one handler and sends at most one
    exit status, a 32-bit number, and none unless [exited] says so; a handler
    runs only on a session that is [handled], and none runs after a deferred
    subsystem was rejected. *)
Theorem session_starts_once int_bits cfg s w c :
  session_run int_bits cfg s w c ->
  (length (starts w) <= 1)%nat /\ (starts w <> [] -> handled s = true /\ deferredState s = 0) /\
  length (exits w) = (if exited s then 1 else 0)%nat /\
  (forall code, SExitStatus code ∈ exits w -> 0 <= code < 2 ^ 32).
Proof.
  intros [Hr Hd Hs He Hc]%run_invariant. split_and!; try done.
  - destruct (handled s); [done|]. rewrite Hs. simpl. lia.
  - intros Hn. destruct Hd as [Hd|(_ & _ & ?)]; [|done]. destruct (handled s); [done|by destruct Hn].
  - intros code H. specialize (Hc _ H). unfold maxUint32 in Hc. lia.
Qed.

#[local] Instance byte_eq_decision : EqDecision byte := Byte.byte_eq_dec.

(** A server with a shell handler and one deferred subsystem. *)
Definition sample_config : sessionConfig := mkSessionConfig true (fun _ => false) (fun n => bool_decide (n = default_name))
  None None None None sample_context Some (fun p => match p with k :: v => Some ([k], v) | [] => None end).
Definition quiet : requestEnv := mkRequestEnv None false (Written 0 None) false false Delivered [].
Definition quiet_exit : exitEnv := mkExitEnv (Written 0 None) None None.

(** A run of a shell session until its handler has returned. *)
Definition sample_shell : session * list sevent * control :=
  handleSessionRequest 64 sample_config quiet newSession (mkSessionRequest "shell" []) [].
Definition sample_end : session * list sevent :=
  finishHandler sample_config quiet_exit (Some io_EOF) (fst (fst sample_shell)) (snd (fst sample_shell)).

Lemma sample_run : session_run 64 sample_config (fst sample_end) (snd sample_end) Continue.
Proof.
  apply (run_finish _ _ ShellHandler quiet_exit (Some io_EOF) (fst (fst sample_shell)) (snd (fst sample_shell))).
  - apply (run_request _ _ quiet newSession (mkSessionRequest "shell" []) [] Continue); [constructor|by left|by vm_compute].
  - by apply (list_elem_of_lookup_2 _ 1).
  - by vm_compute.
Qed.

Lemma session_starts_once_witness :
  session_run 64 sample_config (fst sample_end) (snd sample_end) Continue /\
  exits (snd sample_end) = [SExitStatus 1] /\ (length (starts (snd sample_end)) <= 1)%nat.
Proof.
  split_and!; [exact sample_run|by vm_compute|].
  exact (proj1 (session_starts_once 64 sample_config _ _ _ sample_run)).
Defined.

(** ** Limits on what a client may store *)

Record session_ok (s : session) : Prop := mkSessionOk {
  ok_env : Z.of_nat (length (env s)) <= maxSessionEnvVariables;
  ok_bytes : envBytes s = sumZ zlen (env s) /\ envBytes s <= maxSessionEnvBytes;
  ok_signals : Z.of_nat (length (sigBuf s)) <= maxSigBufSize;
  ok_signal : Forall (fun sig => zlen sig <= maxSessionSignalBytes) (sigBuf s);
  ok_winch : match winch s with Some win => exists p, pty s = Some p /\ win = PtyWindow p | None => True end }.

(** The setters that do not touch what is limited. *)
Lemma ok_set_request s raw sub : session_ok s -> session_ok (set_request s raw sub).
Proof. by intros []. Qed.
Lemma ok_set_handled s : session_ok s -> session_ok (set_handled s).
Proof. by intros []. Qed.
Lemma ok_set_deferred s d : session_ok s -> session_ok (set_deferred s d).
Proof. by intros []. Qed.
Lemma ok_set_agent s : session_ok s -> session_ok (set_agent s).
Proof. by intros []. Qed.
Lemma ok_set_break s b : session_ok s -> session_ok (set_break s b).
Proof. by intros []. Qed.
Lemma ok_set_pty s p win :
  session_ok s -> match win with Some x => x = PtyWindow p | None => True end -> session_ok (set_pty s (Some p) win).
Proof. intros [] Hw. split; simpl; auto. destruct win; eauto. Qed.
Lemma ok_exit s code s' l : session_ok s -> exit_shape s code s' l -> session_ok s'.
Proof. by intros [] [? [->| ->]|]. Qed.
#[local] Hint Resolve ok_set_request ok_set_handled ok_set_deferred ok_set_agent ok_set_break ok_set_pty : ssh.

Section Limits.
Variable int_bits : Z.
Variable cfg : sessionConfig.

Lemma callbackFailed_session e s err w : fst (fst (callbackFailed cfg e s err w)) = s.
Proof. unfold callbackFailed. by destruct (handleCallbackError _ _ _ _ _ _). Qed.

Lemma authorize_ok e s denied kind text w res :
  session_ok denied -> authorize cfg e s denied kind text w = Some res -> session_ok (fst (fst res)).
Proof.
  intros Hd. unfold authorize. destruct (sessReqCb cfg) as [cb|]; [|done].
  destruct (cb s kind) as [allowed [err|]]; intros; simplify_eq; [by rewrite callbackFailed_session|].
  by destruct allowed; simplify_eq/=.
Qed.

Lemma handleShell_ok e s r w : session_ok s -> session_ok (fst (fst (handleShell cfg e s r w))).
Proof.
  intros Hs. unfold handleShell. destruct (handled s || _); [done|].
  destruct (if decide _ then _ else _) as [value|]; [|done]. set (s1 := set_request s value []).
  assert (H1 : session_ok s1) by (subst s1; auto with ssh).
  destruct (authorize cfg e s1 _ _ _ w) as [res|] eqn:Ha; [eapply authorize_ok in Ha; auto with ssh|].
  destruct (negb (resolve e s1)); [done|].
  destruct (acceptRequest cfg e _ w) as [[] w']; simpl; auto with ssh.
Qed.

Lemma handleSubsystem_ok e s r w : session_ok s -> session_ok (fst (fst (handleSubsystem cfg e s r w))).
Proof.
  intros Hs. unfold handleSubsystem. destruct (handled s); [done|].
  destruct (unmarshal1 cfg (Payload r)) as [value|]; [|done]. set (s1 := set_request s [] value).
  assert (H1 : session_ok s1) by (subst s1; auto with ssh).
  destruct (authorize cfg e s1 _ _ _ w) as [res|] eqn:Ha; [eapply authorize_ok in Ha; auto with ssh|].
  destruct (if _ && _ then _ else _) as [h d]. destruct (negb h && negb d); [simpl; auto with ssh|].
  destruct (negb (resolve e s1)); [done|].
  destruct d; [|destruct (acceptRequest cfg e _ w) as [[] w']; simpl; auto with ssh].
  destruct (waitDeferredSubsystem_result cfg e value (set_handled s1) w); simpl; auto with ssh.
Qed.

Lemma handleEnvRequest_ok s r w : session_ok s -> session_ok (fst (fst (handleEnvRequest cfg s r w))).
Proof.
  intros Hs. unfold handleEnvRequest. destruct (handled s); [done|].
  destruct (unmarshal2 cfg (Payload r)) as [[key value]|]; [|done].
  destruct (Z.leb_spec maxSessionEnvVariables (Z.of_nat (length (env s)))); [done|].
  destruct (Z.ltb_spec maxSessionEnvBytes (envBytes s + (zlen key + 1 + zlen value))); [done|].
  destruct Hs. split; simpl; auto.
  - rewrite length_app. simpl. lia.
  - rewrite sumZ_app. simpl. unfold zlen in *. rewrite length_app. simpl. lia.
Qed.

Lemma handleSignal_ok e s r w : session_ok s -> session_ok (fst (fst (handleSignalRequest cfg e s r w))).
Proof.
  intros Hs. unfold handleSignalRequest. destruct (unmarshal1 cfg (Payload r)) as [sig|]; [|done].
  destruct (Z.ltb_spec maxSessionSignalBytes (zlen sig)); [done|]. destruct (exiting s); [done|].
  destruct (sigCh s); simpl; [by destruct (sent e), Hs|].
  destruct (Z.ltb_spec (Z.of_nat (length (sigBuf s))) maxSigBufSize); simpl; [|done].
  destruct Hs. split; simpl; auto; [rewrite length_app; simpl; lia|].
  apply Forall_app. split; [done|]. by constructor.
Qed.

Lemma handlePty_ok e s r w : session_ok s -> session_ok (fst (fst (handlePty int_bits cfg e s r w))).
Proof.
  intros Hs. unfold handlePty. destruct (handled s || _); [done|].
  destruct (parsePtyRequest int_bits (Payload r)) as [p| | |]; try done.
  destruct (ptyCb cfg) as [cb|]; [|simpl; auto with ssh].
  destruct (cb s p) as [[] [err|]]; simpl; rewrite ?callbackFailed_session; auto with ssh.
Qed.

Lemma handleWindowChange_ok e s r w : session_ok s -> session_ok (fst (fst (handleWindowChange int_bits e s r w))).
Proof.
  intros Hs. unfold handleWindowChange. destruct (pty s) as [p|] eqn:Hp; [|done].
  destruct (parseWinchRequest int_bits (Payload r)) as [u| | |]; try done. simpl.
  apply ok_set_pty; [done|]. unfold winch_send. by destruct (winch s).
Qed.

Lemma handleSessionRequest_ok e s r w :
  session_ok s -> session_ok (fst (fst (handleSessionRequest int_bits cfg e s r w))).
Proof.
  intros Hs. unfold handleSessionRequest.
  repeat case_decide; auto using handleShell_ok, handleSubsystem_ok, handleEnvRequest_ok, handleSignal_ok, handlePty_ok, handleWindowChange_ok.
  - unfold handleAgent. destruct (agentForwardingCb cfg) as [cb|]; [|done].
    destruct (cb s) as [[] [err|]]; simpl; rewrite ?callbackFailed_session; auto.
    destruct (acceptRequest cfg e _ w). simpl. auto with ssh.
  - unfold handleBreak. destruct (breakCh s), (sent e); simpl; auto with ssh.
Qed.

Lemma interference_ok s s' : session_ok s -> interference s s' -> session_ok s'.
Proof.
  intros Hs Hi. destruct Hs, Hi as [s|s ch buf [l Hl]|s ch l Hl|s ch|s]; split; simpl; auto.
  - rewrite Hl, length_app in ok_signals0. lia.
  - rewrite Hl in ok_signal0. by apply Forall_app in ok_signal0 as [_ ?].
  - unfold requeueSignals. rewrite length_firstn. unfold maxSigBufSize. lia.
  - unfold requeueSignals. apply Forall_take, Forall_app. done.
Qed.
End Limits.

(** C36. Whatever requests a client sends and however the application takes
    signals and windows meanwhile: at most 128 variables of 64 KiB together
    (counted exactly), at most 128 buffered signals of at most 64 bytes are
    kept, and the window channel holds nothing but the PTY's current window. *)
Theorem session_limits int_bits cfg s w c :
  session_run int_bits cfg s w c ->
  Z.of_nat (length (env s)) <= 128 /\ sumZ zlen (env s) = envBytes s /\ envBytes s <= 65536 /\
  Z.of_nat (length (sigBuf s)) <= 128 /\ Forall (fun sig => zlen sig <= 64) (sigBuf s) /\
  match winch s with Some win => exists p, pty s = Some p /\ win = PtyWindow p | None => True end.
Proof.
  intros Hr. assert (Hok : session_ok s).
  { induction Hr as [|s s' w c Hr IH Hi|x code err s w s' w' c Hr IH He|h x err s w s' w' c Hr IH _ Hf
                    |e s r w c s' w' c' Hr IH _ Hst].
    - split; simpl; try done; lia.
    - by eapply interference_ok.
    - apply Exit_shape in He as (l & _ & Hsh). by eapply ok_exit.
    - destruct (finishHandler_shape cfg x err s w) as (code & l & _ & Hsh). rewrite Hf in Hsh. by eapply ok_exit.
    - pose proof (handleSessionRequest_ok int_bits cfg e s r w IH) as H. by rewrite Hst in H. }
  destruct Hok. unfold maxSessionEnvBytes in *. destruct ok_bytes0. split_and!; try done; lia.
Qed.

Lemma session_limits_witness :
  session_run 64 sample_config (fst sample_end) (snd sample_end) Continue /\ envBytes (fst sample_end) <= 65536.
Proof.
  split; [exact sample_run|]. by destruct (session_limits 64 sample_config _ _ _ sample_run) as (_ & _ & ? & _).
Defined.

(** ** What one request may do *)

(** What of a session is fixed once a handler may run: the command, the subsystem,
    the environment, the terminal's type and modes; its window and the flag for
    agent forwarding may change. *)
Definition frozen (s s' : session) : Prop :=
  rawCmd s' = rawCmd s /\ subsystem s' = subsystem s /\ env s' = env s /\
  (Term <$> pty s') = (Term <$> pty s) /\ (TerminalModes <$> pty s') = (TerminalModes <$> pty s).

Lemma callbackFailed_frozen cfg e s err w : frozen s (fst (fst (callbackFailed cfg e s err w))).
Proof. by rewrite callbackFailed_session. Qed.

Lemma handled_frozen int_bits cfg e s r w :
  handled s = true -> frozen s (fst (fst (handleSessionRequest int_bits cfg e s r w))).
Proof.
  intros Hs. unfold handleSessionRequest, handleShell, handleSubsystem, handleEnvRequest, handlePty. rewrite Hs. simpl.
  repeat case_decide; try done.
  - unfold handleSignalRequest. by repeat case_match.
  - unfold handleWindowChange. destruct (pty s) as [p|] eqn:Hp; [|done].
    destruct (parseWinchRequest int_bits (Payload r)); try done. unfold frozen. simpl. by rewrite Hp.
  - unfold handleAgent. destruct (agentForwardingCb cfg) as [cb|]; [|done].
    destruct (cb s) as [[] [err|]]; simpl; try done; [by apply callbackFailed_frozen| |by apply callbackFailed_frozen].
    by destruct (acceptRequest cfg e (set_agent s) w).
  - unfold handleBreak. by destruct (breakCh s), (sent e).
Qed.


(** C35. A deferred subsystem is answered by the first of: its handler's reply,
    the handler's return, the timer (the end of the connection or of the
    channel abandons it).  The request gets that one reply and no other; the
    handler goes on only if it was accepted and the client was told so, which
    is also the only case that lets [Exit] send anything; and every other case
    ends the session. *)
Theorem deferred_verdict cfg e value s w :
  let '(s', w', c) := waitDeferredSubsystem cfg e value s w in
  let v := verdict false (waitSteps e) in
  let started := verdict_starts (reply_err e) v in
  replies w' = replies w ++ verdict_replies v /\
  starts w' = starts w ++ (if started then [SStart (DeferredHandler value)] else []) /\
  exits w' = exits w /\ s' = set_deferred s (if started then 0 else 2) /\
  (c = Stop <-> started = false).
Proof.
  pose proof (waitDeferredSubsystem_result cfg e value s w) as H.
  destruct (waitDeferredSubsystem cfg e value s w) as [[s' w'] c]. cbv zeta.
  inversion H as [w1 Hv Hw|c1 w1 Hv Hc Hw]; subst; rewrite Hv;
    rewrite (replies_of _ _ _ Hw), (starts_of _ _ _ Hw), (exits_of _ _ _ Hw);
    (destruct (verdict false (waitSteps e)) as [[]|]; [| |]); simpl; rewrite ?app_nil_r; try done; split_and!; done.
Qed.

(** Requests that arrive while a deferred subsystem waits are taken off the
    channel, but only the last of them is kept: of two, the first is neither
    answered nor handled later. *)
Theorem deferred_loses_request cfg outcome resolvedByTimer taken sent value first second s w :
  let e := mkRequestEnv None false outcome resolvedByTimer taken sent
             [SelLater first; SelLater second; HandlerReplies true; SelAnswered] in
  waitDeferredSubsystem cfg e value s w =
    (set_deferred s 0, w ++ [SReply true; SStart (DeferredHandler value)], Pending second).
Proof. unfold waitDeferredSubsystem. simpl. by rewrite <- app_assoc. Qed.

(** ** Callbacks that fail *)

(** The effects end with a close of the session, or of the connection. *)
Definition closes_session (w : list sevent) : Prop := exists v, w = v ++ [SCloseSession].
Definition closes_connection (ctx : dispatchContext) (w : list sevent) : Prop :=
  exists v x, closeSSHConnection (Some ctx) = [x] /\ w = v ++ [SDispatch x].

Lemma emit_closes ctx w :
  closeSSHConnection (Some ctx) <> [] -> closes_connection ctx (emit (closeSSHConnection (Some ctx)) w).
Proof.
  unfold closes_connection. simpl. destruct (hasCloseConnection ctx), (hasServerConn ctx); intros H; try done;
    by eexists w, _.
Qed.

Lemma close_either_closes ctx (b : bool) w :
  closeSSHConnection (Some ctx) <> [] ->
  if b then closes_connection ctx (close_either ctx b w) else closes_session (close_either ctx b w).
Proof. intros H. unfold close_either. destruct b; [by apply emit_closes|by eexists]. Qed.

(** C34. A callback that fails denies the request, and the session survives only
    if the error handler said so, without an error of its own, its response
    was delivered and did not ask for the close, and the denial itself was
    sent.  Otherwise the loop ends and the session is closed; and the whole
    connection, where the response asked for it or the error handler failed
    with more than the failed response. *)
Theorem callback_fails_closed ctx errorHandler reply_err outcome err w :
  closeSSHConnection (Some ctx) <> [] ->
  let d := dispatchError ctx errorHandler ErrorScopeSession ErrorOperationHandle (Some err)
             (Some (newErrorResponse (Some (fun message _ => respondToError ctx outcome message false))))
             (Some defaultLogAndFailErrorAction) None w in
  let filteredErr := snd (d_result d) in
  let responseErr := snd (response_result (d_response d)) in
  let '(ok, w') := handleCallbackError ctx errorHandler reply_err outcome err w in
  replies w' = replies w ++ [SReply false] /\ starts w' = starts w /\ exits w' = exits w /\
  (ok = true <-> reply_err = None /\ d_result d = (true, None) /\ response_failed responseErr = false /\
                 closeRequested (d_response d) = false) /\
  (ok = false ->
   if closeRequested (d_response d) || bool_decide (is_Some filteredErr) &&
      negb (response_failed responseErr && isOnlyErrorOpt filteredErr responseErr)
   then closes_connection ctx w' else closes_session w').
Proof.
  intros Hctx. pose proof (handleCallbackError_essence ctx errorHandler reply_err outcome err w) as He.
  unfold handleCallbackError in *. set (d := dispatchError _ _ _ _ _ _ _ _ _) in *. clearbody d. cbv zeta.
  destruct (d_result d) as [cc f]. destruct (response_result (d_response d)) as [att re]. cbn [snd fst].
  destruct reply_err as [re'|].
  - destruct (dispatchErrorOrEscalate _ _ _ _ _ _ _ _ _) as [b d2]. cbn [snd fst] in *.
    rewrite (replies_of _ _ _ He), (starts_of _ _ _ He), (exits_of _ _ _ He), !app_nil_r. split_and!; try done.
    + split; [done|by intros (? & _)].
    + intros _. destruct f as [f|]; rewrite ?bool_decide_true by (done || by eexists); simpl;
        by apply close_either_closes.
  - destruct f as [f|].
    + destruct (response_failed re && isOnlyErrorOpt (Some f) re); cbn [snd fst] in *;
        rewrite (replies_of _ _ _ He), (starts_of _ _ _ He), (exits_of _ _ _ He), !app_nil_r;
        split_and!; try done; try (by split; [done|intros (_ & ? & _)]); intros _.
      * rewrite bool_decide_true, andb_false_r, orb_false_r by by eexists. by apply close_either_closes.
      * rewrite bool_decide_true, orb_true_r by by eexists. by apply emit_closes.
    + destruct (response_failed re), (closeRequested (d_response d)), cc; cbn [snd fst negb] in *;
        rewrite (replies_of _ _ _ He), (starts_of _ _ _ He), (exits_of _ _ _ He), !app_nil_r;
        split_and!; try done; try (by split; [done|intros (_ & ? & ? & ?)]); intros _;
        try (by apply emit_closes); by eexists.
Qed.

Lemma callback_fails_closed_witness :
  closeSSHConnection (Some sample_context) <> [] /\
  fst (handleCallbackError sample_context None None (Written 0 None) io_EOF []) = false /\
  closes_session (snd (handleCallbackError sample_context None None (Written 0 None) io_EOF [])).
Proof.
  assert (H : closeSSHConnection (Some sample_context) <> []) by by vm_compute.
  split_and!; [exact H|by vm_compute|].
  pose proof (callback_fails_closed sample_context None None (Written 0 None) io_EOF [] H) as Hc.
  destruct Hc as (_ & _ & _ & _ & Hc). exact (Hc eq_refl).
Defined.

(** ** Exit statuses *)

(** The exit status that the end of a handler calls for: the one its error
    asks for, or success, or failure unless the error handler let it pass and
    its response was delivered; none where the response closes the session. *)
Definition called_for (cfg : sessionConfig) (x : exitEnv) (err : option error) (w : list sevent) : option Z :=
  match exclusiveSessionExitErrorOpt err, err with
  | Some requested, _ => Some (Code requested)
  | None, None => Some 0
  | None, Some e =>
      let ctx := sessionContext cfg in
      let d := dispatchError ctx (sessionErrorHandler cfg) ErrorScopeSession ErrorOperationHandle (Some e)
                 (Some (newErrorResponse (Some (respondToError ctx (exit_outcome x)))))
                 (Some defaultLogAndFailErrorAction) None w in
      if closeRequested (d_response d) then None
      else match d_result d with
           | (true, None) => if response_failed (snd (response_result (d_response d))) then Some 1 else Some 0
           | _ => Some 1
           end
  end.

Lemma exit_code_called_for cfg x err w : exit_code cfg x err w = called_for cfg x err w.
Proof.
  unfold exit_code, called_for, handlerError. destruct (exclusiveSessionExitErrorOpt err); [done|].
  destruct err as [err|]; [|done]. set (d := dispatchError _ _ _ _ _ _ _ _ _). clearbody d. cbv zeta.
  destruct (d_result d) as [cc f], (response_result (d_response d)) as [att re]. cbn [snd].
  destruct (closeRequested (d_response d)).
  - destruct f as [f|]; [destruct (response_failed re && isOnlyErrorOpt (Some f) re)|]; simpl;
      by destruct (response_failed re), cc.
  - destruct f as [f|]; [destruct (response_failed re && isOnlyErrorOpt (Some f) re)|]; simpl;
      by destruct (response_failed re), cc.
Qed.

(** [Exit] sends its status. *)
Definition exit_allowed (s : session) (code : Z) : bool :=
  negb (exited s) && (deferredState s =? 0) && (0 <=? code) && (code <=? maxUint32).

Lemma Exit_exact x code s w :
  essence (snd (Exit x code s w)) = essence w ++ (if exit_allowed s code then [SExitStatus code] else []) /\
  exited (snd (fst (Exit x code s w))) = exited s || exit_allowed s code.
Proof.
  unfold Exit, session_Close, exit_allowed. destruct (Z.eqb_spec (deferredState s) 0) as [Hd|Hd]; simpl;
    [|by rewrite andb_false_r, app_nil_r, orb_false_r].
  destruct (Z.ltb_spec code 0), (Z.leb_spec 0 code); try lia; simpl;
    [by rewrite andb_false_r, app_nil_r, orb_false_r|].
  destruct (Z.ltb_spec maxUint32 code), (Z.leb_spec code maxUint32); try lia; simpl;
    [by rewrite andb_false_r, app_nil_r, orb_false_r|].
  destruct (exited s) eqn:Hx; simpl; [by rewrite app_nil_r|]. rewrite Hd. simpl. split; [|done].
  by rewrite essence_noise, essence_app.
Qed.

(** When a handler returns, exactly the exit status its result calls for is
    sent, unless the session has exited, the status is not a 32-bit number or
    a deferred subsystem was not accepted; nothing else is, and the session
    remembers it. *)
Theorem handler_exit_status cfg x err s w :
  let '(s', w') := finishHandler cfg x err s w in
  let sent := match called_for cfg x err w with
              | Some code => if exit_allowed s code then [SExitStatus code] else []
              | None => []
              end in
  exits w' = exits w ++ sent /\ replies w' = replies w /\ starts w' = starts w /\
  exited s' = exited s || bool_decide (sent <> []).
Proof.
  rewrite <- exit_code_called_for. pose proof (finishHandler_exit cfg x err s w) as H.
  destruct (finishHandler cfg x err s w) as [s' w']. cbn [fst snd] in H. cbv zeta.
  set (sent := match exit_code cfg x err w with Some _ => _ | None => _ end).
  assert (essence w' = essence w ++ sent /\ exited s' = exited s || bool_decide (sent <> [])) as [Hw Hx].
  { subst sent. destruct (exit_code cfg x err w) as [code|]; [|destruct H as [-> ->]; by rewrite app_nil_r, orb_false_r].
    destruct (exited s) eqn:Hx.
    - unfold exit_allowed. rewrite Hx. destruct H as [-> ->]. by rewrite app_nil_r, Hx.
    - destruct H as (w1 & <- & -> & ->). destruct (Exit_exact x code s w1) as [-> ->]. rewrite Hx.
      by destruct (exit_allowed s code). }
  rewrite (replies_of _ _ _ Hw), (starts_of _ _ _ Hw), (exits_of _ _ _ Hw).
  assert (exits sent = sent /\ replies sent = [] /\ starts sent = []) as (-> & -> & ->).
  { subst sent. destruct (exit_code cfg x err w) as [code|]; [|done]. by destruct (exit_allowed s code). }
  by rewrite !app_nil_r.
Qed.
