(* ===== verification/Copy.v ===== *)
(** Copy: [FullDuplexCopy] of [copy.go], the copy of bytes in both directions
    between two streams.

    Five parties run concurrently: the caller's loop, the two copying goroutines,
    the goroutine of the observer and whoever runs the body of [closeStreams]
    (a [sync.OnceFunc]: the first caller runs it, the others wait for it).
    One atomic action of one of them is a [copyChoice]; [copy_exec] executes it
    and is [None] where the action is not possible or would block, so that runs
    are lists of choices.  What [io.Copy] and [CloseWrite] return is part of the
    choice.  The time that [OnEnd] is told is left out. *)
From S2P Require Import Prelude GoErrors.

(** ** Data *)

Inductive side := Left | Right.

(** The directions: [true] is left to right. *)
Definition destination (isL2r : bool) : side := if isL2r then Right else Left.

(** Which callbacks are set.  Nil options have none. *)
Record FullDuplexCopyOpts := mkCopyOpts {
  OnStart : bool; OnEnd : bool; OnStreamStart : bool; OnStreamEnd : bool }.

(** The calls of callbacks that are queued for the observer, with their arguments. *)
Inductive callback :=
| CallStart
| CallEnd (l2r r2l : Z) (err : option error) (wasInL2r : option bool)
| CallStreamStart (isL2r : bool)
| CallStreamEnd (isL2r : bool) (err : option error).

Record copyDone := mkCopyDone { wasL2r : bool; written : Z; done_error : option error }.

(** The calls on the streams other than those of [io.Copy]. *)
Inductive streamCall := SCloseWrite (s : side) | SClose (s : side).

(** [closeStreams]: what is left to close. *)
Inductive onceState := OnceNever | OnceRunning (rest : list side) | OnceDone.

(** Where a copying goroutine is. *)
Inductive copier :=
| KNone                                  (* not started *)
| KStart                                 (* before OnStreamStart *)
| KCopying                               (* in io.Copy *)
| KHalfClose (n : Z)                     (* io.Copy has succeeded *)
| KClosing (n : Z)                       (* in closeStreams *)
| KEnd (n : Z) (err : option error)      (* before OnStreamEnd *)
| KSend (n : Z) (err : option error)     (* before the send to dones *)
| KDone.

(** Where the caller is. *)
Inductive copyPhase :=
| MStart                                 (* before OnStart *)
| MLoop (completed : nat)                (* in the select *)
| MClosing (completed : nat)             (* in closeStreams *)
| MOnEnd | MCloseObserver                (* the deferred functions *)
| MReturned.

Record copyResult := mkCopyResult {
  rErr : option error; errWasInL2r : option bool; l2r : Z; r2l : Z }.

(** The channel of the observer: queued calls, calls that have been made. *)
Record copyObserver := mkObserver { queued : list callback; observed : list callback; observer_closed : bool }.

Record copyState := mkCopyState {
  caller : copyPhase;
  copiers : bool -> copier;
  dones : list copyDone;
  watching : bool;                       (* ctxDone is not nil *)
  cancelled : bool;                      (* ctx is done *)
  result_so_far : copyResult;
  closing_streams : onceState;
  stream_calls : list streamCall;
  observer : copyObserver;
  copy_panicked : bool }.                (* a send on the closed channel *)

Definition set_caller (m : copyPhase) (s : copyState) : copyState :=
  mkCopyState m (copiers s) (dones s) (watching s) (cancelled s) (result_so_far s)
    (closing_streams s) (stream_calls s) (observer s) (copy_panicked s).
Definition set_copier (d : bool) (k : copier) (s : copyState) : copyState :=
  mkCopyState (caller s) (fun d' => if Bool.eqb d d' then k else copiers s d') (dones s) (watching s) (cancelled s)
    (result_so_far s) (closing_streams s) (stream_calls s) (observer s) (copy_panicked s).
Definition set_dones (l : list copyDone) (s : copyState) : copyState :=
  mkCopyState (caller s) (copiers s) l (watching s) (cancelled s) (result_so_far s)
    (closing_streams s) (stream_calls s) (observer s) (copy_panicked s).
Definition set_result (r : copyResult) (s : copyState) : copyState :=
  mkCopyState (caller s) (copiers s) (dones s) (watching s) (cancelled s) r
    (closing_streams s) (stream_calls s) (observer s) (copy_panicked s).
Definition set_ctx (w c : bool) (s : copyState) : copyState :=
  mkCopyState (caller s) (copiers s) (dones s) w c (result_so_far s)
    (closing_streams s) (stream_calls s) (observer s) (copy_panicked s).
Definition set_streams (o : onceState) (calls : list streamCall) (s : copyState) : copyState :=
  mkCopyState (caller s) (copiers s) (dones s) (watching s) (cancelled s) (result_so_far s)
    o calls (observer s) (copy_panicked s).
Definition set_observer (ob : copyObserver) (panicked : bool) (s : copyState) : copyState :=
  mkCopyState (caller s) (copiers s) (dones s) (watching s) (cancelled s) (result_so_far s)
    (closing_streams s) (stream_calls s) ob panicked.

(** ** Operations *)

(** [observe]: a send to a channel with six places; nothing when the callback
    is not set. *)
Definition observe (set : bool) (call : callback) (s : copyState) : option copyState :=
  if negb set then Some s
  else
    let ob := observer s in
    if observer_closed ob then Some (set_observer ob true s)
    else if (length (queued ob) <? 6)%nat
    then Some (set_observer (mkObserver (queued ob ++ [call]) (observed ob) false) (copy_panicked s) s)
    else None.

(** The start of a call of [closeStreams]. *)
Definition closeStreams (s : copyState) : copyState :=
  match closing_streams s with
  | OnceNever => set_streams (OnceRunning [Left; Right]) (stream_calls s) s
  | _ => s
  end.

(** An error as it is kept. *)
Definition relevant (err : option error) : option error := if isRelevantIoError err then err else None.

(** The case of a finished copy; the flag tells that its error is the first one. *)
Definition receiveDone (v : copyDone) (r : copyResult) : copyResult * bool :=
  let l := if wasL2r v then written v else l2r r in
  let r' := if wasL2r v then r2l r else written v in
  match done_error v, rErr r with
  | Some e, None => (mkCopyResult (Some e) (Some (wasL2r v)) l r', true)
  | _, _ => (mkCopyResult (rErr r) (errWasInL2r r) l r', false)
  end.

(** The condition of the loop. *)
Definition loopOrReturn (completed : nat) : copyPhase := if (completed <? 2)%nat then MLoop completed else MOnEnd.

Inductive copyChoice :=
| CallerStart | CallerCtx | CallerRecv | CallerLeave | CallerOnEnd | CallerCloseObserver
| CopyStart (isL2r : bool)
| CopyReturn (isL2r : bool) (n : Z) (err : option error)
| CopyCloseWrite (isL2r : bool) (err : option error)
| CopyCloseBoth (isL2r : bool)
| CopyLeave (isL2r : bool)
| CopyEnd (isL2r : bool)
| CopySend (isL2r : bool)
| CloseNext                              (* the body of closeStreams *)
| CtxDone                                (* ctx is cancelled *)
| ObserverRun.

Section FullDuplexCopy.
Variable closeWriter : side -> bool.     (* whether the stream has CloseWrite *)
Variable opts : FullDuplexCopyOpts.

Definition caller_exec (c : copyChoice) (s : copyState) : option copyState :=
  match c, caller s with
  | CallerStart, MStart =>
      s ← observe (OnStart opts) CallStart s;
      Some (set_caller (MLoop 0) (set_copier true KStart (set_copier false KStart s)))
  | CallerCtx, MLoop n =>
      if watching s && cancelled s
      then Some (set_caller (MClosing n) (closeStreams (set_ctx false true s)))
      else None
  | CallerRecv, MLoop n =>
      match dones s with
      | v :: rest =>
          let '(r, first) := receiveDone v (result_so_far s) in
          let s := set_result r (set_dones rest s) in
          Some (if first : bool then set_caller (MClosing (S n)) (closeStreams s)
                else set_caller (loopOrReturn (S n)) s)
      | [] => None
      end
  | CallerLeave, MClosing n =>
      match closing_streams s with OnceDone => Some (set_caller (loopOrReturn n) s) | _ => None end
  | CallerOnEnd, MOnEnd =>
      let r := result_so_far s in
      s ← observe (OnEnd opts) (CallEnd (l2r r) (r2l r) (rErr r) (errWasInL2r r)) s;
      Some (set_caller MCloseObserver s)
  | CallerCloseObserver, MCloseObserver =>
      let ob := observer s in
      Some (set_caller MReturned (set_observer (mkObserver (queued ob) (observed ob) true) (copy_panicked s) s))
  | _, _ => None
  end.

(** [copyFull]. *)
Definition copier_exec (d : bool) (c : copyChoice) (s : copyState) : option copyState :=
  match c, copiers s d with
  | CopyStart _, KStart =>
      s ← observe (OnStreamStart opts) (CallStreamStart d) s;
      Some (set_copier d KCopying s)
  | CopyReturn _ n err, KCopying =>
      Some (set_copier d (match relevant err with None => KHalfClose n | Some e => KEnd n (Some e) end) s)
  | CopyCloseWrite _ err, KHalfClose n =>
      if closeWriter (destination d)
      then Some (set_copier d (KEnd n (relevant err))
                   (set_streams (closing_streams s) (stream_calls s ++ [SCloseWrite (destination d)]) s))
      else None
  | CopyCloseBoth _, KHalfClose n =>
      if closeWriter (destination d) then None else Some (set_copier d (KClosing n) (closeStreams s))
  | CopyLeave _, KClosing n =>
      match closing_streams s with OnceDone => Some (set_copier d (KEnd n None) s) | _ => None end
  | CopyEnd _, KEnd n err =>
      s ← observe (OnStreamEnd opts) (CallStreamEnd d err) s;
      Some (set_copier d (KSend n err) s)
  | CopySend _, KSend n err =>
      if (length (dones s) <? 2)%nat
      then Some (set_copier d KDone (set_dones (dones s ++ [mkCopyDone d n err]) s))
      else None
  | _, _ => None
  end.

Definition copy_exec (c : copyChoice) (s : copyState) : option copyState :=
  match c with
  | CopyStart d | CopyReturn d _ _ | CopyCloseWrite d _ | CopyCloseBoth d | CopyLeave d | CopyEnd d | CopySend d =>
      copier_exec d c s
  | CloseNext =>
      match closing_streams s with
      | OnceRunning (x :: rest) => Some (set_streams (OnceRunning rest) (stream_calls s ++ [SClose x]) s)
      | OnceRunning [] => Some (set_streams OnceDone (stream_calls s) s)
      | _ => None
      end
  | CtxDone => if watching s && negb (cancelled s) then Some (set_ctx true true s) else None
  | ObserverRun =>
      match queued (observer s) with
      | f :: rest =>
          Some (set_observer (mkObserver rest (observed (observer s) ++ [f]) (observer_closed (observer s)))
                  (copy_panicked s) s)
      | [] => None
      end
  | _ => caller_exec c s
  end.

Fixpoint copy_run (cs : list copyChoice) (s : copyState) : option copyState :=
  match cs with
  | [] => Some s
  | c :: cs => s ← copy_exec c s; copy_run cs s
  end.
End FullDuplexCopy.

(** The call itself: it fails for a nil stream, and the background context,
    which stands for a nil one, has a nil [Done] channel. *)
Definition errCopyNil := ErrNew 80 "ssh: FullDuplexCopy requires two non-nil streams".
Definition FullDuplexCopy (leftNil rightNil ctxNil : bool) : error + copyState :=
  if leftNil || rightNil then inl errCopyNil
  else inr (mkCopyState MStart (fun _ => KNone) [] (negb ctxNil) false (mkCopyResult None None 0 0)
              OnceNever [] (mkObserver [] [] false) false).

(** ** Termination *)

(** What a party has left to do, and what it leaves for others to do. *)
Definition copier_work (k : copier) : nat :=
  match k with
  | KNone => 0 | KStart => 16 | KCopying => 13 | KHalfClose _ => 11 | KClosing _ => 9
  | KEnd _ _ => 8 | KSend _ _ => 5 | KDone => 0
  end.
Definition caller_work (m : copyPhase) : nat :=
  match m with
  | MStart => 39 | MLoop _ => 5 | MClosing _ => 6 | MOnEnd => 4 | MCloseObserver => 1 | MReturned => 0
  end.
Definition once_work (o : onceState) : nat :=
  match o with OnceNever => 4 | OnceRunning rest => S (length rest) | OnceDone => 0 end.
Definition copy_work (s : copyState) : nat :=
  caller_work (caller s) + copier_work (copiers s true) + copier_work (copiers s false) +
  3 * length (dones s) + (if watching s then 2 else 0) + (if cancelled s then 0 else 1) +
  once_work (closing_streams s) + length (queued (observer s)).

(** All the ways in which an action of the system at [s] can end in [s']. *)
Ltac copy_steps c s H :=
  let ob := fresh "ob" in let r := fresh "r" in
  destruct s as [m k ds w cd r o calls ob p], ob as [qs os oc], r as [re rd rl rr];
  destruct c as [| | | | | |d|d n e|d e|d|d|d|d| | |]; try destruct d;
  cbn [copy_exec caller_exec copier_exec caller copiers dones watching cancelled result_so_far
       closing_streams stream_calls observer copy_panicked queued observed observer_closed] in H;
  unfold observe, closeStreams, receiveDone, set_caller, set_copier, set_dones, set_result, set_ctx,
    set_streams, set_observer in H;
  cbn in H;
  repeat (case_match; cbn in H; try discriminate H); simplify_eq H; clear H;
  repeat match goal with
  | E : _ && _ = true |- _ => apply andb_true_iff in E; destruct E
  | E : negb _ = true |- _ => apply negb_true_iff in E
  | E : negb _ = false |- _ => apply negb_false_iff in E
  end; intros; simplify_eq/=.

Lemma copy_step_work cw opts c s s' :
  copy_exec cw opts c s = Some s' -> (copy_work s' < copy_work s)%nat.
Proof.
  intros H. copy_steps c s H; unfold copy_work, loopOrReturn; cbn -[Nat.mul];
    rewrite ?length_app; cbn -[Nat.mul];
    repeat match goal with E : @eq copier _ _ |- _ => rewrite E; clear E end; cbn -[Nat.mul];
    repeat case_match; cbn -[Nat.mul]; lia.
Qed.

(** ** The state of a call *)

Definition unsent (k : copier) : nat := match k with KDone => 0 | _ => 1 end.
Definition completed (m : copyPhase) : nat :=
  match m with MStart => 0 | MLoop n | MClosing n => n | _ => 2 end.
Definition caller_closing (m : copyPhase) : bool := match m with MClosing _ => true | _ => false end.
Definition copier_closing (k : copier) : bool := match k with KClosing _ => true | _ => false end.
Definition started (k : copier) : bool := match k with KNone => false | _ => true end.
Definition returned (m : copyPhase) : bool := match m with MReturned => true | _ => false end.
Definition close_called (o : onceState) : bool := match o with OnceNever => false | _ => true end.

(** The closes of streams, in their order. *)
Definition closes_of (calls : list streamCall) : list side :=
  omap (fun c => match c with SClose x => Some x | _ => None end) calls.

Lemma closes_of_app l l' : closes_of (l ++ l') = closes_of l ++ closes_of l'.
Proof. apply omap_app. Qed.
Lemma closes_of_write x : closes_of [SCloseWrite x] = [].
Proof. done. Qed.
Lemma closes_of_close x : closes_of [SClose x] = [x].
Proof. done. Qed.

(** Somebody is in [closeStreams] while it runs, and nobody before. *)
Definition once_ok (o : onceState) (inside : bool) (closes : list side) : Prop :=
  match o with
  | OnceNever => inside = false /\ closes = []
  | OnceRunning rest => inside = true /\ closes ++ rest = [Left; Right]
  | OnceDone => closes = [Left; Right]
  end.

Record copy_inv (s : copyState) : Prop := mkCopyInv {
  ki_started : forall d, started (copiers s d) = match caller s with MStart => false | _ => true end;
  ki_balance : (unsent (copiers s true) + unsent (copiers s false) + length (dones s) + completed (caller s) = 2)%nat;
  ki_loop : match caller s with MLoop n => (n < 2)%nat | _ => True end;
  ki_once : once_ok (closing_streams s)
              (caller_closing (caller s) || copier_closing (copiers s true) || copier_closing (copiers s false))
              (closes_of (stream_calls s));
  ki_ctx : cancelled s = true -> watching s = true \/ close_called (closing_streams s) = true;
  ki_err : rErr (result_so_far s) <> None -> close_called (closing_streams s) = true;
  ki_observer : observer_closed (observer s) = returned (caller s);
  ki_panic : copy_panicked s = false }.

Lemma copy_inv_start ln rn cn s : FullDuplexCopy ln rn cn = inr s -> copy_inv s.
Proof. unfold FullDuplexCopy. destruct (ln || rn); intros H; simplify_eq. by split. Qed.

Lemma started_false k : started k = false -> k = KNone.
Proof. by destruct k. Qed.

Lemma copy_inv_step cw opts c s s' : copy_exec cw opts c s = Some s' -> copy_inv s -> copy_inv s'.
Proof.
  intros H. copy_steps c s H.
  all: match goal with Hi : copy_inv _ |- _ => destruct Hi as [I1 I2 I3 I4 I5 I6 I7 I8] end.
  all: pose proof (I1 true) as I1t; pose proof (I1 false) as I1f; cbn -[closes_of] in *.
  all: try (apply started_false in I1t, I1f; rewrite I1t, I1f in *).
  all: repeat match goal with E : @eq copier _ _ |- _ => rewrite E in *; clear E end; cbn -[closes_of] in *.
  all: try discriminate; try lia.
  all: try (match goal with E : true = returned ?x |- _ => destruct x end; cbn in *; discriminate || lia).
  all: split; cbn -[closes_of]; unfold loopOrReturn in *; [intros []|..].
  all: rewrite ?length_app, ?closes_of_app, ?closes_of_write, ?closes_of_close, <- ?app_assoc; cbn -[closes_of];
    rewrite ?orb_true_r, ?orb_false_r, ?app_nil_r in *.
  all: repeat match goal with
       | |- context [(?a <? ?b)%nat] => destruct (Nat.ltb_spec a b)
       | |- context [(?a <=? ?b)%nat] => destruct (Nat.leb_spec a b)
       | H : _ = false /\ closes_of _ = [] |- _ => let Hc := fresh in destruct H as [? Hc]; rewrite ?Hc
       end; cbn -[closes_of].
  all: try done; try lia; try tauto; try congruence.
Qed.

(** ** Runs *)

Lemma copy_run_app cw opts cs cs' s :
  copy_run cw opts (cs ++ cs') s = (s ← copy_run cw opts cs s; copy_run cw opts cs' s).
Proof. revert s. induction cs as [|c cs IH]; intros s; [done|]. simpl. destruct (copy_exec cw opts c s); [apply IH|done]. Qed.

(** Induction over the actions of a run, the last one first. *)
Lemma copy_run_ind cw opts s0 (P : list copyChoice -> copyState -> Prop) :
  P [] s0 ->
  (forall cs c s s', P cs s -> copy_exec cw opts c s = Some s' -> P (cs ++ [c]) s') ->
  forall cs s, copy_run cw opts cs s0 = Some s -> P cs s.
Proof.
  intros H0 Hs cs. induction cs as [|c cs IH] using rev_ind; intros s H; [by simplify_eq/=|].
  rewrite copy_run_app in H. destruct (copy_run cw opts cs s0) as [s1|] eqn:E; [|done]. simpl in H.
  destruct (copy_exec cw opts c s1) as [s2|] eqn:E2; [|done]. simplify_eq/=. by apply (Hs cs c s1); [apply IH|].
Qed.

Lemma copy_run_inv cw opts ln rn cn s0 cs s :
  FullDuplexCopy ln rn cn = inr s0 -> copy_run cw opts cs s0 = Some s -> copy_inv s.
Proof.
  intros H0. apply (copy_run_ind cw opts s0 (fun _ s => copy_inv s)); [by eapply copy_inv_start|].
  intros _ c s1 s2 Hi Hx. by eapply copy_inv_step.
Qed.

Lemma copy_run_work cw opts s0 cs s :
  copy_run cw opts cs s0 = Some s -> (length cs + copy_work s <= copy_work s0)%nat.
Proof.
  apply (copy_run_ind cw opts s0 (fun cs s => (length cs + copy_work s <= copy_work s0)%nat)); [done|].
  clear. intros cs c s s' IH H%copy_step_work. rewrite length_app. simpl. lia.
Qed.

(** Actions of the function itself: not those of the streams, of the owner of
    the context, or of the observer. *)
Definition internal (c : copyChoice) : bool :=
  match c with CopyReturn _ _ _ | CopyCloseWrite _ _ | CtxDone | ObserverRun => false | _ => true end.

(** A copying goroutine is in a call of a stream: [io.Copy] or [CloseWrite]. *)
Definition in_stream (cw : side -> bool) (s : copyState) : Prop :=
  exists d, match copiers s d with KCopying => True | KHalfClose _ => cw (destination d) = true | _ => False end.

(** The queue of the observer has room for everything that is to be sent. *)
Definition copier_sends (k : copier) : nat :=
  match k with KNone | KStart => 2 | KSend _ _ | KDone => 0 | _ => 1 end.
Definition caller_sends (m : copyPhase) : nat :=
  match m with MStart => 2 | MCloseObserver | MReturned => 0 | _ => 1 end.
Definition room (s : copyState) : Prop :=
  (length (queued (observer s)) + caller_sends (caller s) + copier_sends (copiers s true) +
   copier_sends (copiers s false) <= 6)%nat.

Lemma room_step cw opts c s s' : copy_exec cw opts c s = Some s' -> copy_inv s -> room s -> room s'.
Proof.
  intros H Hi. pose proof (ki_started _ Hi true) as Ht. pose proof (ki_started _ Hi false) as Hf. clear Hi.
  copy_steps c s H; unfold room, loopOrReturn in *; cbn in *;
    rewrite ?length_app; cbn;
    repeat match goal with E : @eq copier _ _ |- _ => rewrite E in *; clear E end; cbn in *;
    try (apply started_false in Ht, Hf; rewrite Ht, Hf in * ); cbn in *;
    repeat case_match; cbn; lia.
Qed.

Lemma room_run cw opts ln rn cn s0 cs s :
  FullDuplexCopy ln rn cn = inr s0 -> copy_run cw opts cs s0 = Some s -> room s.
Proof.
  intros H0. intros Hr.
  enough (copy_inv s /\ room s) by tauto. revert cs s Hr.
  apply (copy_run_ind cw opts s0 (fun _ s => copy_inv s /\ room s)).
  - split; [by eapply copy_inv_start|]. unfold FullDuplexCopy in H0. destruct (ln || rn); simplify_eq. unfold room. simpl. lia.
  - intros _ c s1 s2 [Hi Hm] Hx. split; [by eapply copy_inv_step|by eapply room_step].
Qed.

(** A send to the observer goes through. *)
Lemma observe_room b call s :
  observer_closed (observer s) = false -> (length (queued (observer s)) < 6)%nat -> is_Some (observe b call s).
Proof.
  intros Hc Hl. unfold observe. destruct b; simpl; [|by eexists]. rewrite Hc.
  case_match eqn:E; [by eexists|]. apply Nat.leb_gt in E. lia.
Qed.

(** Where nothing internal is possible: a copying goroutine has ended or
    waits for a stream. *)
Section Stuck.
Variable cw : side -> bool.
Variable opts : FullDuplexCopyOpts.
Variable s : copyState.
Hypothesis Hi : copy_inv s.
Hypothesis Hroom : room s.
Hypothesis Hstuck : forall c, internal c = true -> copy_exec cw opts c s = None.

Lemma stuck_once : closing_streams s = OnceNever \/ closing_streams s = OnceDone.
Proof.
  pose proof (Hstuck CloseNext eq_refl) as H. simpl in H. destruct (closing_streams s) as [|[|x l]|]; auto; done.
Qed.

Lemma stuck_closing :
  closing_streams s <> OnceDone ->
  caller_closing (caller s) = false /\ forall d, copier_closing (copiers s d) = false.
Proof.
  intros Hn. destruct stuck_once as [Ho|]; [|done]. pose proof (ki_once _ Hi) as H. rewrite Ho in H.
  destruct H as [H _]. apply orb_false_iff in H as [[? ?]%orb_false_iff ?]. split; [done|by intros []].
Qed.

Lemma stuck_observe b call : caller s <> MReturned -> (length (queued (observer s)) < 6)%nat -> observe b call s <> None.
Proof.
  intros Hr Hl. pose proof (ki_observer _ Hi) as Ho.
  destruct (observe_room b call s) as [s' ->]; [|done..]. rewrite Ho. by destruct (caller s).
Qed.

Lemma stuck_copier n d : caller s = MLoop n -> copiers s d <> KDone -> dones s = [] -> in_stream cw s.
Proof.
  intros Hm Hk Hd. exists d. pose proof (ki_started _ Hi d) as Hst. rewrite Hm in Hst.
  assert (Hq : (length (queued (observer s)) + copier_sends (copiers s d) <= 5)%nat)
    by (unfold room in Hroom; rewrite Hm in Hroom; destruct d; simpl in *; lia).
  assert (Hob : forall b call, copier_sends (copiers s d) <> 0%nat -> observe b call s <> None)
    by (intros; apply stuck_observe; [by rewrite Hm|lia]).
  pose proof (stuck_closing) as Hcl.
  destruct (copiers s d) as [| | |k|k|k e|k e|] eqn:E; try done.
  - pose proof (Hstuck (CopyStart d) eq_refl) as H. simpl in H. rewrite E in H.
    destruct (observe _ _ _) eqn:Eo in H; [done|]. by apply Hob in Eo.
  - pose proof (Hstuck (CopyCloseBoth d) eq_refl) as H. simpl in H. rewrite E in H. by destruct (cw (destination d)).
  - pose proof (Hstuck (CopyLeave d) eq_refl) as H. simpl in H. rewrite E in H.
    destruct (closing_streams s); try done; destruct Hcl as [_ Hcl]; try done; specialize (Hcl d); by rewrite E in Hcl.
  - pose proof (Hstuck (CopyEnd d) eq_refl) as H. simpl in H. rewrite E in H.
    destruct (observe _ _ _) eqn:Eo in H; [done|]. by apply Hob in Eo.
  - pose proof (Hstuck (CopySend d) eq_refl) as H. simpl in H. by rewrite E, Hd in H.
Qed.

Lemma copy_stuck :
  caller s = MReturned \/
  (in_stream cw s /\ (cancelled s = true \/ rErr (result_so_far s) <> None -> closes_of (stream_calls s) = [Left; Right])).
Proof.
  assert (Hob : forall b call, caller_sends (caller s) <> 0%nat -> observe b call s <> None).
  { intros b call Hc. apply stuck_observe; [by intros Hr; rewrite Hr in Hc|]. unfold room in Hroom. lia. }
  pose proof stuck_closing as Hcl. destruct (caller s) as [|n|n| | |] eqn:Em; try by left.
  - pose proof (Hstuck CallerStart eq_refl) as H. simpl in H. unfold caller_exec in H. rewrite Em in H.
    destruct (observe _ _ _) eqn:Eo in H; [done|]. by apply Hob in Eo.
  - right. pose proof (Hstuck CallerRecv eq_refl) as H. simpl in H. unfold caller_exec in H. rewrite Em in H.
    destruct (dones s) as [|v l] eqn:Ed; [|destruct (receiveDone v _) as [? []]; done]. split.
    + pose proof (ki_balance _ Hi) as Hb. pose proof (ki_loop _ Hi) as Hl. rewrite Em, Ed in *. simpl in Hb.
      destruct (copiers s true) eqn:Et; try (eapply (stuck_copier n true); [done|by rewrite Et|done]).
      destruct (copiers s false) eqn:Ef; try (eapply (stuck_copier n false); [done|by rewrite Ef|done]).
      simpl in Hb. lia.
    + intros Hc. pose proof (ki_once _ Hi) as Ho.
      assert (Hcc : close_called (closing_streams s) = true).
      { destruct Hc as [Hc|Hc]; [|by apply (ki_err _ Hi)]. destruct (ki_ctx _ Hi Hc) as [Hw|]; [|done].
        pose proof (Hstuck CallerCtx eq_refl) as Hx. simpl in Hx. unfold caller_exec in Hx. by rewrite Em, Hw, Hc in Hx. }
      destruct stuck_once as [Ho'|Ho']; rewrite Ho' in *; done.
  - pose proof (Hstuck CallerLeave eq_refl) as H. simpl in H. unfold caller_exec in H. rewrite Em in H.
    destruct (closing_streams s) eqn:Eo; try done; by destruct Hcl as [Hcl _].
  - pose proof (Hstuck CallerOnEnd eq_refl) as H. simpl in H. unfold caller_exec in H. rewrite Em in H.
    destruct (observe _ _ _) eqn:Eo in H; [done|]. by apply Hob in Eo.
  - pose proof (Hstuck CallerCloseObserver eq_refl) as H. simpl in H. unfold caller_exec in H. by rewrite Em in H.
Qed.
End Stuck.

(** C25. [FullDuplexCopy] terminates: no execution of a call has more than
    forty-six actions, however its parties interleave; and where it has nothing
    more to do by itself it has returned or waits for a call of a stream, both
    streams having been closed if the context is done or a copy has failed.  The
    observer is not needed for that: its queue never blocks a sender. *)
Theorem copy_terminates cw opts ln rn cn s0 cs s :
  FullDuplexCopy ln rn cn = inr s0 -> copy_run cw opts cs s0 = Some s ->
  (length cs <= 46)%nat /\
  ((forall c, internal c = true -> copy_exec cw opts c s = None) ->
   caller s = MReturned \/
   (in_stream cw s /\
    (cancelled s = true \/ rErr (result_so_far s) <> None -> closes_of (stream_calls s) = [Left; Right]))).
Proof.
  intros H0 Hr. split.
  - apply copy_run_work in Hr. unfold FullDuplexCopy in H0. destruct (ln || rn); simplify_eq.
    unfold copy_work in Hr. destruct cn; simpl in Hr; lia.
  - apply copy_stuck; [by eapply copy_run_inv|by eapply room_run].
Qed.

(** ** What a call returns and reports *)

Definition direction_of (cb : callback) : option bool :=
  match cb with CallStreamStart d | CallStreamEnd d _ => Some d | _ => None end.
Definition of_direction (d : bool) (cb : callback) : bool :=
  match direction_of cb with Some d' => Bool.eqb d d' | None => false end.
Definition from_direction (d : bool) (v : copyDone) : bool := Bool.eqb d (wasL2r v).
Definition side_eqb (x y : side) : bool := match x, y with Left, Left | Right, Right => true | _, _ => false end.

(** The half closes of the destination of [d]. *)
Definition half_closes (d : bool) (calls : list streamCall) : nat :=
  length (List.filter (fun c => match c with SCloseWrite x => side_eqb x (destination d) | _ => false end) calls).

(** What the goroutine of direction [d] has found out, by what its calls on the
    streams returned: the bytes copied and the error. *)
Definition reported (cw : side -> bool) (cs : list copyChoice) (d : bool) (n : Z) (err : option error) (half : nat) (cc : bool) : Prop :=
  exists e, CopyReturn d n e ∈ cs /\
    match relevant e with
    | Some e' => err = Some e' /\ half = 0%nat
    | None =>
        if cw (destination d) then half = 1%nat /\ exists e', CopyCloseWrite d e' ∈ cs /\ err = relevant e'
        else half = 0%nat /\ err = None /\ cc = true
    end.

Section Reports.
Variable cw : side -> bool.
Variable opts : FullDuplexCopyOpts.

Definition starts (d : bool) : list callback := if OnStreamStart opts then [CallStreamStart d] else [].
Definition ends (d : bool) (err : option error) : list callback := if OnStreamEnd opts then [CallStreamEnd d err] else [].

(** Direction [d]: its goroutine, its values in [dones] and at the caller, its
    callbacks, its half closes. *)
Definition direction_ok (cs : list copyChoice) (d : bool) (k : copier)
    (vs : list copyDone) (cbs : list callback) (half : nat) (cc : bool) : Prop :=
  match k with
  | KNone | KStart => vs = [] /\ cbs = [] /\ half = 0%nat
  | KCopying => vs = [] /\ cbs = starts d /\ half = 0%nat
  | KHalfClose n =>
      vs = [] /\ cbs = starts d /\ half = 0%nat /\ exists e, CopyReturn d n e ∈ cs /\ relevant e = None
  | KClosing n => vs = [] /\ cbs = starts d /\ reported cw cs d n None half cc
  | KEnd n err => vs = [] /\ cbs = starts d /\ reported cw cs d n err half cc
  | KSend n err => vs = [] /\ cbs = starts d ++ ends d err /\ reported cw cs d n err half cc
  | KDone => exists n err, vs = [mkCopyDone d n err] /\ cbs = starts d ++ ends d err /\ reported cw cs d n err half cc
  end.

Lemma reported_mono cs cs' d n err half (cc cc' : bool) :
  cs ⊆ cs' -> (cc = true -> cc' = true) -> reported cw cs d n err half cc -> reported cw cs' d n err half cc'.
Proof.
  intros Hs Hc (e & He & H). exists e. split; [by apply Hs|]. destruct (relevant e); [done|].
  destruct (cw (destination d)).
  - destruct H as (? & e' & He' & ?). split; [done|]. exists e'. auto.
  - destruct H as (? & ? & ?). auto.
Qed.

Lemma direction_mono cs cs' d k vs cbs half (cc cc' : bool) :
  cs ⊆ cs' -> (cc = true -> cc' = true) -> direction_ok cs d k vs cbs half cc -> direction_ok cs' d k vs cbs half cc'.
Proof.
  intros Hs Hc. destruct k; simpl; try done.
  - intros (? & ? & ? & e & He & ?). split_and!; try done. exists e. auto.
  - intros (? & ? & ?). split_and!; eauto using reported_mono.
  - intros (? & ? & ?). split_and!; eauto using reported_mono.
  - intros (? & ? & ?). split_and!; eauto using reported_mono.
  - intros (n & err & ? & ? & ?). exists n, err. split_and!; eauto using reported_mono.
Qed.

(** The calls of [OnStart] and [OnEnd] that have been queued. *)
Definition first_calls (m : copyPhase) : list callback :=
  match m with MStart => [] | _ => if OnStart opts then [CallStart] else [] end.
Definition last_calls (m : copyPhase) (r : copyResult) : list callback :=
  match m with
  | MCloseObserver | MReturned => if OnEnd opts then [CallEnd (l2r r) (r2l r) (rErr r) (errWasInL2r r)] else []
  | _ => []
  end.

(** [hist]: the values the caller has received; [mid]: the callbacks of the
    copying goroutines, in order. *)
Record reports (cs : list copyChoice) (s : copyState) (hist : list copyDone) (mid : list callback) : Prop := mkReports {
  rp_completed : length hist = completed (caller s);
  rp_result : result_so_far s = foldl (fun r v => fst (receiveDone v r)) (mkCopyResult None None 0 0) hist;
  rp_calls : observed (observer s) ++ queued (observer s) =
               first_calls (caller s) ++ mid ++ last_calls (caller s) (result_so_far s);
  rp_mid : Forall (fun cb => direction_of cb <> None) mid;
  rp_direction : forall d, direction_ok cs d (copiers s d) (List.filter (from_direction d) (hist ++ dones s))
                             (List.filter (of_direction d) mid) (half_closes d (stream_calls s))
                             (close_called (closing_streams s)) }.

(** What an action adds to the two histories. *)
Definition new_mid (c : copyChoice) (s : copyState) : list callback :=
  match c with
  | CopyStart d => starts d
  | CopyEnd d => match copiers s d with KEnd _ err => ends d err | _ => [] end
  | _ => []
  end.
Definition new_hist (c : copyChoice) (s : copyState) : list copyDone :=
  match c with CallerRecv => take 1 (dones s) | _ => [] end.

Lemma mid_empty mid :
  Forall (fun cb => direction_of cb <> None) mid ->
  List.filter (of_direction true) mid = [] -> List.filter (of_direction false) mid = [] -> mid = [].
Proof.
  intros [|cb l Hcb _]; [done|]. simpl.
  destruct (of_direction true cb) eqn:E1; [done|]. destruct (of_direction false cb) eqn:E2; [done|].
  unfold of_direction in *. by destruct (direction_of cb) as [[]|].
Qed.

Lemma reports_completed c s s' hist :
  copy_exec cw opts c s = Some s' -> copy_inv s -> length hist = completed (caller s) ->
  length (hist ++ new_hist c s) = completed (caller s').
Proof.
  intros H Hi Hl. rewrite length_app, Hl. clear Hl. unfold new_hist.
  pose proof (ki_balance _ Hi) as Hb. pose proof (ki_loop _ Hi) as Hl. clear Hi. revert Hb Hl.
  copy_steps c s H; unfold loopOrReturn; cbn in *;
    repeat match goal with
    | |- context [(?a <? ?b)%nat] => destruct (Nat.ltb_spec a b)
    | |- context [(?a <=? ?b)%nat] => destruct (Nat.leb_spec a b)
    end; cbn; try lia; by destruct l.
Qed.

Lemma reports_result c s s' hist :
  copy_exec cw opts c s = Some s' ->
  result_so_far s = foldl (fun r v => fst (receiveDone v r)) (mkCopyResult None None 0 0) hist ->
  result_so_far s' = foldl (fun r v => fst (receiveDone v r)) (mkCopyResult None None 0 0) (hist ++ new_hist c s).
Proof.
  intros H Hl. rewrite foldl_app, <- Hl. clear Hl. unfold new_hist.
  copy_steps c s H; cbn; unfold receiveDone;
    repeat match goal with E : done_error _ = _ |- _ => rewrite E; clear E | E : wasL2r _ = _ |- _ => rewrite E; clear E end;
    try done; by destruct l.
Qed.

Lemma reports_mid c s mid :
  Forall (fun cb => direction_of cb <> None) mid -> Forall (fun cb => direction_of cb <> None) (mid ++ new_mid c s).
Proof.
  intros H. apply Forall_app. split; [done|]. unfold new_mid, starts, ends.
  repeat case_match; repeat constructor; done.
Qed.

(** Nothing is reported after the end of the loop. *)
Lemma not_ended s d :
  copy_inv s -> copiers s d <> KDone ->
  last_calls (caller s) (result_so_far s) = [] /\ observer_closed (observer s) = false.
Proof.
  intros Hi Hd. pose proof (ki_balance _ Hi) as Hb. rewrite (ki_observer _ Hi).
  assert (Hu : (1 <= unsent (copiers s true) + unsent (copiers s false))%nat)
    by (destruct d, (copiers s true), (copiers s false); simpl; try done; lia).
  destruct (caller s); try done; simpl in *; lia.
Qed.

Lemma reports_calls cs c s s' hist mid :
  copy_exec cw opts c s = Some s' -> copy_inv s -> reports cs s hist mid ->
  observed (observer s') ++ queued (observer s') =
    first_calls (caller s') ++ (mid ++ new_mid c s) ++ last_calls (caller s') (result_so_far s').
Proof.
  intros H Hi [_ _ Hc Hm Hd].
  assert (H0 : caller s = MStart -> mid = []).
  { intros E. pose proof (ki_started _ Hi true) as Ht. pose proof (ki_started _ Hi false) as Hf. rewrite E in Ht, Hf.
    apply started_false in Ht, Hf. pose proof (Hd true) as Hdt. pose proof (Hd false) as Hdf. rewrite Ht in Hdt. rewrite Hf in Hdf.
    apply mid_empty; [done|apply Hdt|apply Hdf]. }
  pose proof (not_ended s true Hi) as Ht. pose proof (not_ended s false Hi) as Hf.
  pose proof (ki_observer _ Hi) as Ho. clear Hi Hd Hm. revert H0 Hc Ht Hf Ho.
  copy_steps c s H; unfold loopOrReturn, new_mid, starts, ends; cbn in *.
  all: repeat match goal with E : @eq copier _ _ |- _ => rewrite E in *; clear E end.
  all: repeat match goal with E : ?f opts = ?b |- _ => rewrite E in *; clear E end.
  all: try match goal with H : MStart = MStart -> _ |- _ => specialize (H eq_refl); subst end.
  all: repeat match goal with
       | |- context [(?a <? ?b)%nat] => destruct (Nat.ltb_spec a b)
       | |- context [(?a <=? ?b)%nat] => destruct (Nat.leb_spec a b)
       | H : ?k <> KDone -> _ |- _ => first [destruct H as [Hl H]; [done|]; try discriminate H; rewrite ?Hl in *; clear Hl H | clear H]
       end; cbn in *; try discriminate.
  all: rewrite ?app_nil_r in *; try done; try (by rewrite <- app_assoc); by rewrite app_assoc, Hc, <- ?app_assoc.
Qed.

Lemma half_closes_app d l l' : half_closes d (l ++ l') = (half_closes d l + half_closes d l')%nat.
Proof. unfold half_closes. by rewrite List.filter_app, length_app. Qed.

Lemma filter_starts d d' : List.filter (of_direction d) (starts d') = if Bool.eqb d d' then starts d' else [].
Proof. unfold starts. destruct (OnStreamStart opts), d, d'; done. Qed.
Lemma filter_ends d d' err : List.filter (of_direction d) (ends d' err) = if Bool.eqb d d' then ends d' err else [].
Proof. unfold ends. destruct (OnStreamEnd opts), d, d'; done. Qed.

(** One direction, whatever acts. *)
Lemma reports_direction cs c s s' hist mid dir :
  copy_exec cw opts c s = Some s' -> copy_inv s -> reports cs s hist mid ->
  direction_ok (cs ++ [c]) dir (copiers s' dir)
    (List.filter (from_direction dir) ((hist ++ new_hist c s) ++ dones s'))
    (List.filter (of_direction dir) (mid ++ new_mid c s)) (half_closes dir (stream_calls s'))
    (close_called (closing_streams s')).
Proof.
  intros H Hi [_ _ _ _ Hd]. specialize (Hd dir).
  apply (direction_mono cs (cs ++ [c]) _ _ _ _ _ _ (close_called (closing_streams s'))) in Hd; [|set_solver|].
  2:{ clear Hd. copy_steps c s H; try done. }
  assert (Hst : caller s = MStart -> copiers s dir = KNone).
  { intros E. apply started_false. by rewrite (ki_started _ Hi), E. }
  clear Hi. revert Hd Hst.
  copy_steps c s H; cbn [new_hist new_mid] in *; rewrite ?app_nil_r; destruct dir; try exact Hd;
    try (rewrite <- app_assoc; exact Hd); try (rewrite (Hst eq_refl) in Hd; exact Hd); clear Hst.
  all: repeat match goal with E : @eq copier _ _ |- _ => rewrite E in *; clear E end.
  all: rewrite ?List.filter_app, ?half_closes_app in *; cbn in Hd |- *;
    rewrite ?filter_starts, ?filter_ends; cbn [Bool.eqb]; rewrite ?Nat.add_0_r, ?app_nil_r; try exact Hd.
  all: repeat match goal with
       | H : exists _, _ |- _ => destruct H
       | H : _ /\ _ |- _ => destruct H
       | E : List.filter _ _ ++ List.filter _ _ = [] |- _ => rewrite ?(app_assoc (List.filter _ _)), ?E; clear E
       | E : List.filter (of_direction _) _ = _ |- _ => rewrite E; clear E
       | E : half_closes _ _ = 0%nat |- _ => rewrite E; clear E
       end.
  all: try (do 2 eexists; split_and!; [done..|eassumption]).
  all: split_and!; try done; try (eexists; split; [first [eassumption|rewrite elem_of_app; right; left]|]; try done).
  all: repeat match goal with E : relevant _ = _ |- _ => rewrite E; clear E | E : cw _ = _ |- _ => cbn [destination]; rewrite E; clear E end.
  all: try by split_and!.
  all: split; [done|]; eexists; split; [rewrite elem_of_app; right; left|done].
Qed.

Lemma reports_run ln rn cn s0 cs s :
  FullDuplexCopy ln rn cn = inr s0 -> copy_run cw opts cs s0 = Some s ->
  copy_inv s /\ exists hist mid, reports cs s hist mid.
Proof.
  intros H0. apply (copy_run_ind cw opts s0 (fun cs s => copy_inv s /\ exists hist mid, reports cs s hist mid)).
  - split; [by eapply copy_inv_start|]. exists [], []. unfold FullDuplexCopy in H0.
    destruct (ln || rn); simplify_eq. by split.
  - clear cs s. intros cs c s s' [Hi (hist & mid & Hr)] H. split; [by eapply copy_inv_step|].
    exists (hist ++ new_hist c s), (mid ++ new_mid c s). split.
    + eapply reports_completed; [done|done|apply Hr].
    + eapply reports_result; [done|apply Hr].
    + by eapply reports_calls.
    + apply reports_mid, Hr.
    + intros d. by eapply reports_direction.
Qed.

(** At the return both directions have been received, in some order. *)
Lemma received cs s hist mid :
  copy_inv s -> reports cs s hist mid -> caller s = MReturned ->
  dones s = [] /\ exists first n err,
    hist = [mkCopyDone first (n first) (err first); mkCopyDone (negb first) (n (negb first)) (err (negb first))] /\
    forall d, List.filter (of_direction d) mid = starts d ++ ends d (err d) /\
      reported cw cs d (n d) (err d) (half_closes d (stream_calls s)) (close_called (closing_streams s)).
Proof.
  intros Hi Hr Hm. pose proof (ki_balance _ Hi) as Hb. rewrite Hm in Hb. simpl in Hb.
  assert (Hk : forall d, copiers s d = KDone) by (intros []; destruct (copiers s true), (copiers s false); simpl in Hb; done || lia).
  destruct (dones s) eqn:Hds; [|simpl in Hb; lia]. split; [done|].
  pose proof (rp_direction _ _ _ _ Hr true) as Ht. pose proof (rp_direction _ _ _ _ Hr false) as Hf.
  rewrite Hk, Hds, app_nil_r in Ht, Hf. destruct Ht as (n1 & e1 & Ht & Hmt & Hrt), Hf as (n2 & e2 & Hf & Hmf & Hrf).
  pose proof (rp_completed _ _ _ _ Hr) as Hl. rewrite Hm in Hl.
  destruct hist as [|[d1 x1 y1] [|[d2 x2 y2] [|]]]; try done.
  exists d1, (fun d : bool => if d then n1 else n2), (fun d : bool => if d then e1 else e2).
  split; [|by intros []]. destruct d1, d2; simpl in Ht, Hf; by simplify_eq.
Qed.
End Reports.


(** The callbacks: at the return the observer has been given exactly
    [OnStart], then per direction [OnStreamStart] and [OnStreamEnd] with that
    direction's error, and last [OnEnd] with what the function returns (each if
    it is set), in this order, on a queue that never panics; and they are made
    in the order in which they were queued. *)
Theorem copy_observed cw opts ln rn cn s0 cs s :
  FullDuplexCopy ln rn cn = inr s0 -> copy_run cw opts cs s0 = Some s -> caller s = MReturned ->
  let r := result_so_far s in
  copy_panicked s = false /\
  exists mid,
    observed (observer s) ++ queued (observer s) =
      (if OnStart opts then [CallStart] else []) ++ mid ++
      (if OnEnd opts then [CallEnd (l2r r) (r2l r) (rErr r) (errWasInL2r r)] else []) /\
    Forall (fun cb => direction_of cb <> None) mid /\
    forall d, exists n err,
      List.filter (of_direction d) mid = starts opts d ++ ends opts d err /\
      reported cw cs d n err (half_closes d (stream_calls s)) (close_called (closing_streams s)).
Proof.
  intros H0 Hrun Hm r. destruct (reports_run cw opts ln rn cn s0 cs s H0 Hrun) as [Hi (hist & mid & Hr)].
  destruct (received cw opts cs s hist mid Hi Hr Hm) as (_ & first & n & err & Hh & Hd).
  split; [apply Hi|]. exists mid. split_and!.
  - rewrite (rp_calls _ _ _ _ _ _ Hr), Hm. done.
  - apply Hr.
  - intros d. exists (n d), (err d). apply Hd.
Qed.

(** A copy that ends with an error from right to left, after the other
    direction was finished; the left stream cannot be half-closed. *)
Definition sample_copy_opts := mkCopyOpts true true true true.
Definition sample_closeWriter (x : side) : bool := match x with Left => false | Right => true end.
Definition sample_error := ErrNew 900 "connection reset".
Definition sample_choices : list copyChoice :=
  [CallerStart; CopyStart true; CopyReturn true 7 None; CopyStart false; CopyCloseWrite true (Some io_EOF);
   CopyEnd true; CopySend true; CallerRecv; CopyReturn false 3 (Some sample_error); CopyEnd false; CopySend false;
   CtxDone; CallerRecv; CloseNext; CloseNext; ObserverRun; CloseNext; CallerLeave; CallerOnEnd; CallerCloseObserver].
Definition sample_copy_start : copyState :=
  mkCopyState MStart (fun _ => KNone) [] true false (mkCopyResult None None 0 0) OnceNever []
    (mkObserver [] [] false) false.

Lemma copy_result_example :
  match copy_run sample_closeWriter sample_copy_opts sample_choices sample_copy_start with
  | Some s => caller s = MReturned /\ result_so_far s = mkCopyResult (Some sample_error) (Some false) 7 3 /\
              stream_calls s = [SCloseWrite Right; SClose Left; SClose Right] /\ observed (observer s) = [CallStart]
  | None => False
  end.
Proof. by vm_compute. Qed.

Definition sample_copy_end : copyState :=
  Eval vm_compute in
    default sample_copy_start (copy_run sample_closeWriter sample_copy_opts sample_choices sample_copy_start).

Lemma sample_copy_run :
  copy_run sample_closeWriter sample_copy_opts sample_choices sample_copy_start = Some sample_copy_end.
Proof. by vm_compute. Qed.

Lemma copy_terminates_witness :
  FullDuplexCopy false false false = inr sample_copy_start /\ (length sample_choices <= 46)%nat.
Proof.
  split; [done|].
  exact (proj1 (copy_terminates _ _ false false false sample_copy_start _ sample_copy_end eq_refl sample_copy_run)).
Defined.


Lemma copy_observed_witness : caller sample_copy_end = MReturned /\ copy_panicked sample_copy_end = false.
Proof.
  split; [done|].
  exact (proj1 (copy_observed _ _ false false false sample_copy_start sample_choices sample_copy_end
              eq_refl sample_copy_run eq_refl)).
Defined.
