(* ===== verification/Net.v ===== *)
(** Net: the functions of Go's [net] and [strconv] on addresses that the
    forwarding handlers use ([tcpip.go]), and the keys they make of addresses. *)
From Stdlib Require Import Strings.Ascii.
From S2P Require Import Prelude.
Local Open Scope string_scope.
Local Open Scope Z_scope.

(** ** Searching bytes *)

Fixpoint has_byte (c : ascii) (s : string) : bool :=
  match s with "" => false | String a s => Ascii.eqb a c || has_byte c s end.

(** The parts before and after the first, and the last, occurrence. *)
Fixpoint split_first (c : ascii) (s : string) : option (string * string) :=
  match s with
  | "" => None
  | String a s =>
      if Ascii.eqb a c then Some ("", s)
      else match split_first c s with Some (x, y) => Some (String a x, y) | None => None end
  end.
Fixpoint split_last (c : ascii) (s : string) : option (string * string) :=
  match s with
  | "" => None
  | String a s =>
      match split_last c s with
      | Some (x, y) => Some (String a x, y)
      | None => if Ascii.eqb a c then Some ("", s) else None
      end
  end.

Definition colon : ascii := ":"%char.
Definition lbracket : ascii := "["%char.
Definition rbracket : ascii := "]"%char.

(** ** [net.JoinHostPort] and [net.SplitHostPort] *)

Definition JoinHostPort (host port : string) : string :=
  if has_byte colon host then String lbracket (host +:+ String rbracket (String colon port))
  else host +:+ String colon port.

Definition missingPort := "missing port in address".
Definition tooManyColons := "too many colons in address".

Definition SplitHostPort (hostport : string) : string + (string * string) :=
  match split_last colon hostport with
  | None => inl missingPort
  | Some (before, port) =>
      match hostport with
      | String a rest =>
          if Ascii.eqb a lbracket then
            match split_first rbracket rest with
            | None => inl "missing ']' in address"
            | Some (host, after) =>
                match after with
                | "" => inl missingPort
                | String b tail =>
                    if Ascii.eqb b colon then
                      if has_byte colon tail then inl tooManyColons
                      else if has_byte lbracket rest then inl "unexpected '[' in address"
                      else if has_byte rbracket after then inl "unexpected ']' in address"
                      else inr (host, port)
                    else inl missingPort
                end
            end
          else if has_byte colon before then inl tooManyColons
          else if has_byte lbracket hostport then inl "unexpected '[' in address"
          else if has_byte rbracket hostport then inl "unexpected ']' in address"
          else inr (before, port)
      | "" => inl missingPort
      end
  end.

(** ** [strconv] *)

(** [FormatUint(n, 10)], and [Itoa] of a number that is not negative. *)
Definition digit (n : N) : ascii := ascii_of_N (48 + n).
Fixpoint format_digits (fuel : nat) (n : N) (acc : string) : string :=
  match fuel with
  | O => acc
  | S fuel =>
      let acc := String (digit (n mod 10)) acc in
      if (n <? 10)%N then acc else format_digits fuel (n / 10) acc
  end.
(** A number below [10^20] has at most twenty digits. *)
Definition FormatUint (n : Z) : string := format_digits 20 (Z.to_N n) "".

Definition is_digit (a : ascii) : bool := ((48 <=? N_of_ascii a) && (N_of_ascii a <=? 57))%N.
Fixpoint parse_digits (acc : Z) (s : string) : option Z :=
  match s with
  | "" => Some acc
  | String a s => if is_digit a then parse_digits (acc * 10 + (Z.of_N (N_of_ascii a) - 48)) s else None
  end.
(** [ParseUint(s, 10, 16)], without the kind of its error. *)
Definition ParseUint16 (s : string) : option Z :=
  match s with
  | "" => None
  | _ => match parse_digits 0 s with
         | Some n => if n <=? 65535 then Some n else None
         | None => None
         end
  end.

Lemma JoinHostPort_examples :
  JoinHostPort "localhost" "80" = "localhost:80" /\ JoinHostPort "::1" "80" = "[::1]:80" /\
  SplitHostPort "[::1]:80" = inr ("::1", "80") /\ SplitHostPort "127.0.0.1:0" = inr ("127.0.0.1", "0") /\
  SplitHostPort "/run/sock" = inl missingPort /\ SplitHostPort "::1" = inl tooManyColons /\
  FormatUint 0 = "0" /\ FormatUint 65535 = "65535" /\ ParseUint16 "65536" = None /\ ParseUint16 "08" = Some 8.
Proof. by vm_compute. Qed.

(** ** Laws *)

Lemma append_cons a s t : String a s +:+ t = String a (s +:+ t).
Proof. done. Qed.

Lemma has_byte_app c s t : has_byte c (s +:+ t) = has_byte c s || has_byte c t.
Proof. induction s as [|a s IH]; [done|]. rewrite append_cons. cbn. by rewrite IH, orb_assoc. Qed.

Lemma split_last_none c s : has_byte c s = false -> split_last c s = None.
Proof.
  induction s as [|a s IH]; [done|]. cbn. intros [Ha Hs]%orb_false_iff. by rewrite (IH Hs), Ha.
Qed.

Lemma split_last_app c s t : has_byte c t = false -> split_last c (s +:+ String c t) = Some (s, t).
Proof.
  intros Ht. induction s as [|a s IH].
  - change ("" +:+ String c t) with (String c t). cbn. by rewrite split_last_none, Ascii.eqb_refl.
  - rewrite append_cons. cbn. by rewrite IH.
Qed.

Lemma split_first_app c s t : has_byte c s = false -> split_first c (s +:+ String c t) = Some (s, t).
Proof.
  induction s as [|a s IH]; intros Hs.
  - change ("" +:+ String c t) with (String c t). cbn. by rewrite Ascii.eqb_refl.
  - rewrite append_cons. cbn in *. apply orb_false_iff in Hs as [Ha Hs]. by rewrite Ha, IH.
Qed.

(** What surrounds the last colon of a joined address. *)
Definition joined_host (host : string) : string :=
  if has_byte colon host then String lbracket (host +:+ String rbracket "") else host.

Lemma string_app_assoc (s t u : string) : (s +:+ t) +:+ u = s +:+ (t +:+ u).
Proof. induction s as [|a s IH]; [done|]. rewrite !append_cons. f_equal. exact IH. Qed.

Lemma JoinHostPort_joined host port : JoinHostPort host port = joined_host host +:+ String colon port.
Proof.
  unfold JoinHostPort, joined_host. destruct (has_byte colon host); [|done].
  rewrite append_cons. f_equal. by rewrite string_app_assoc.
Qed.

Lemma string_app_inj_r (s s' t : string) : s +:+ t = s' +:+ t -> s = s'.
Proof.
  assert (Hl : forall a b : string, String.length (a +:+ b) = (String.length a + String.length b)%nat).
  { intros a b. induction a as [|x a IH]; [done|]. rewrite append_cons. cbn. f_equal. exact IH. }
  revert s'. induction s as [|a s IH]; intros [|a' s'] H; [done|..].
  - apply (f_equal String.length) in H. rewrite !Hl in H. simpl in H. lia.
  - apply (f_equal String.length) in H. rewrite !Hl in H. simpl in H. lia.
  - rewrite !append_cons in H. injection H as -> H. f_equal. by apply IH.
Qed.

Lemma joined_host_inj h h' : joined_host h = joined_host h' -> h = h'.
Proof.
  unfold joined_host. destruct (has_byte colon h) eqn:E, (has_byte colon h') eqn:E'; intros H; try done.
  - injection H as H. by apply string_app_inj_r in H.
  - subst h'. cbn in E'. by rewrite has_byte_app, E in E'.
  - subst h. cbn in E. by rewrite has_byte_app, E' in E.
Qed.

(** ** Decimal numbers *)

Lemma digit_spec n : (n < 10)%N -> is_digit (digit n) = true /\ Z.of_N (N_of_ascii (digit n)) - 48 = Z.of_N n.
Proof.
  intros Hn. assert (E : N_of_ascii (digit n) = (48 + n)%N) by (apply N_ascii_embedding; lia).
  unfold is_digit. rewrite E. split; [|lia]. apply andb_true_iff. split; apply N.leb_le; lia.
Qed.

Fixpoint all_digits (s : string) : bool := match s with "" => true | String a s => is_digit a && all_digits s end.

Lemma digits_no_byte c s : all_digits s = true -> is_digit c = false -> has_byte c s = false.
Proof.
  intros Hs Hc. induction s as [|a s IH]; [done|]. cbn in *. apply andb_true_iff in Hs as [Ha Hs].
  rewrite (IH Hs), orb_false_r. apply Ascii.eqb_neq. intros ->. congruence.
Qed.

Lemma format_all_digits fuel n acc : all_digits acc = true -> all_digits (format_digits fuel n acc) = true.
Proof.
  revert n acc. induction fuel as [|fuel IH]; intros n acc Ha; [done|]. cbn.
  destruct (digit_spec (n mod 10)) as [Hd _]; [by apply N.mod_lt|].
  destruct (n <? 10)%N; [|apply IH]; cbn; by rewrite Hd.
Qed.

(** Parsing a number that was formatted, in front of other digits. *)
Lemma parse_format fuel n acc z :
  (n < 10 ^ N.of_nat fuel)%N -> (0 < fuel)%nat ->
  exists k : Z, parse_digits z (format_digits fuel n acc) = parse_digits (z * 10 ^ k + Z.of_N n) acc /\ 0 < k.
Proof.
  revert n acc. induction fuel as [|fuel IH]; intros n acc Hn Hf; [lia|]. cbn.
  destruct (digit_spec (n mod 10)) as [Hd Hv]; [by apply N.mod_lt|].
  pose proof (N.div_mod' n 10) as Hdm. destruct (N.ltb_spec n 10) as [Hlt|Hge].
  - exists 1. cbn. rewrite Hd, Hv. split; [|lia]. rewrite (N.mod_small n 10) by done. by rewrite Z.pow_1_r.
  - destruct (IH (n / 10)%N (String (digit (n mod 10)) acc)) as (k & Hk & Hk0).
    + apply N.Div0.div_lt_upper_bound. replace (N.of_nat (S fuel)) with (N.succ (N.of_nat fuel)) in Hn by lia.
      by rewrite N.pow_succ_r' in Hn.
    + destruct fuel; [|lia]. cbn in Hn. lia.
    + exists (k + 1). split; [|lia]. rewrite Hk. cbn. rewrite Hd, Hv. f_equal. rewrite Z.pow_add_r, Z.pow_1_r by lia. lia.
Qed.

Lemma format_nonempty fuel n acc : acc <> "" -> format_digits fuel n acc <> "".
Proof.
  revert n acc. induction fuel as [|fuel IH]; intros n acc Ha; [done|]. cbn. destruct (n <? 10)%N; [done|by apply IH].
Qed.

Lemma FormatUint_nonempty n : FormatUint n <> "".
Proof.
  assert (H : forall fuel m, format_digits (S fuel) m "" <> ""); [|apply H].
  intros fuel m. cbn. destruct (m <? 10)%N; [done|by apply format_nonempty].
Qed.

Lemma parse_digits_FormatUint n : 0 <= n < 10 ^ 20 -> parse_digits 0 (FormatUint n) = Some n.
Proof.
  intros Hn. destruct (parse_format 20 (Z.to_N n) "" 0) as (k & Hk & _); [|lia|].
  - change (10 ^ N.of_nat 20)%N with (Z.to_N (10 ^ 20)). lia.
  - unfold FormatUint. rewrite Hk. cbn -[Z.mul Z.add]. f_equal. lia.
Qed.

Lemma FormatUint_inj n m : 0 <= n < 10 ^ 20 -> 0 <= m < 10 ^ 20 -> FormatUint n = FormatUint m -> n = m.
Proof. intros Hn Hm E. pose proof (parse_digits_FormatUint n Hn). rewrite E, parse_digits_FormatUint in * by done. congruence. Qed.

Lemma FormatUint_digits n : all_digits (FormatUint n) = true.
Proof. by apply format_all_digits. Qed.

Lemma parse_FormatUint n : 0 <= n <= 65535 -> ParseUint16 (FormatUint n) = Some n.
Proof.
  intros Hn. unfold ParseUint16. rewrite parse_digits_FormatUint by lia.
  pose proof (FormatUint_nonempty n). destruct (FormatUint n); [done|]. by rewrite (proj2 (Z.leb_le _ _)) by lia.
Qed.

Lemma parse_digits_nonneg s z n : 0 <= z -> parse_digits z s = Some n -> 0 <= n.
Proof.
  revert z. induction s as [|a s IH]; intros z Hz H; cbn in H; [by simplify_eq|].
  destruct (is_digit a) eqn:Ha; [|done]. apply IH in H; [done|]. unfold is_digit in Ha.
  apply andb_true_iff in Ha as [Ha _]. apply N.leb_le in Ha. lia.
Qed.

Lemma ParseUint16_bounds s n : ParseUint16 s = Some n -> 0 <= n <= 65535.
Proof.
  unfold ParseUint16. destruct s as [|a s]; [done|]. destruct (parse_digits 0 _) as [m|] eqn:E; [|done].
  destruct (Z.leb_spec m 65535); [|done]. intros [= <-]. split; [|done]. by apply parse_digits_nonneg in E.
Qed.

(** ** Addresses *)

(** Splitting a joined address gives back its host and port, for every
    host without brackets, IPv6 addresses included, and every port number; so
    the port that a listener reports is the one that is parsed. *)
Theorem SplitHostPort_JoinHostPort host port :
  has_byte lbracket host = false -> has_byte rbracket host = false -> 0 <= port <= 65535 ->
  SplitHostPort (JoinHostPort host (FormatUint port)) = inr (host, FormatUint port) /\
  ParseUint16 (FormatUint port) = Some port.
Proof.
  intros Hl Hr Hp. split; [|by apply parse_FormatUint]. pose proof (FormatUint_digits port) as Hd.
  assert (Hno : forall c, is_digit c = false -> has_byte c (FormatUint port) = false) by (intros; by apply digits_no_byte).
  unfold SplitHostPort. rewrite JoinHostPort_joined, split_last_app by (by apply Hno). unfold joined_host.
  destruct (has_byte colon host) eqn:Hc.
  - rewrite append_cons. rewrite Ascii.eqb_refl, string_app_assoc. rewrite append_cons.
    change ("" +:+ ?x) with x. rewrite split_first_app by done. rewrite Ascii.eqb_refl.
    rewrite Hno, has_byte_app by done. cbn. rewrite Hl, !Hno by done. done.
  - assert (Hfirst : exists a rest, host +:+ String colon (FormatUint port) = String a rest /\ Ascii.eqb a lbracket = false).
    { destruct host as [|a host]; [by exists colon, (FormatUint port)|].
      exists a, (host +:+ String colon (FormatUint port)). split; [done|]. cbn in Hl. by apply orb_false_iff in Hl as [? _]. }
    destruct Hfirst as (a & rest & E & Ha). rewrite E, Ha, <- E.
    rewrite !has_byte_app, Hl, Hr, Hc. cbn. by rewrite !Hno by done.
Qed.

(** The keys under which a handler keeps the forwards of a connection
    distinguish them: different bind addresses or ports never give the same
    key, so a cancellation cannot reach the forward of another address. *)
Theorem forward_key_injective host host' port port' :
  0 <= port < 2 ^ 32 -> 0 <= port' < 2 ^ 32 ->
  JoinHostPort host (FormatUint port) = JoinHostPort host' (FormatUint port') -> host = host' /\ port = port'.
Proof.
  intros Hp Hp' E. rewrite !JoinHostPort_joined in E. apply (f_equal (split_last colon)) in E.
  rewrite !split_last_app in E by (apply digits_no_byte; [apply FormatUint_digits|done]).
  injection E as Eh Ep. split; [by apply joined_host_inj|]. apply FormatUint_inj in Ep; lia.
Qed.

Lemma SplitHostPort_JoinHostPort_witness :
  has_byte colon "fe80::1" = true /\ SplitHostPort (JoinHostPort "fe80::1" (FormatUint 8080)) = inr ("fe80::1", FormatUint 8080).
Proof. split; [done|]. exact (proj1 (SplitHostPort_JoinHostPort "fe80::1" 8080 eq_refl eq_refl ltac:(lia))). Defined.

Lemma forward_key_injective_witness : JoinHostPort "::1" (FormatUint 80) = "[::1]:80" /\ "::1" = "::1" /\ 80 = 80.
Proof. split; [by vm_compute|]. exact (forward_key_injective "::1" "::1" 80 80 ltac:(lia) ltac:(lia) eq_refl). Defined.
