(* ===== verification/OpenChannel.v ===== *)
(** OpenChannel: [openForwardedChannel] of [tcpip.go], which opens a channel to
    the client for a forwarded connection and tries again while the client does
    not know the forward yet.

    Time is a number of nanoseconds since the call.  A channel or timer that the
    code selects on becomes ready at a time (or never), and [select] waits for
    the earliest and picks any case that is ready by then; timers and goroutines
    are taken to be punctual.  Attempts are numbered, and the channel of an
    attempt has its number. *)
From S2P Require Import Prelude GoErrors Settings.
Local Open Scope Z_scope.

(** [forwardedChannelRegistrationTimeout]. *)
Definition forwardedChannelRegistrationTimeout : Z := Second.

(** What a call of [conn.OpenChannel] returns (nil for a channel) and when;
    [None] if it never returns. *)
Record openCall := mkOpenCall { open_takes : option Z; open_err : option error }.

Record openEnv := mkOpenEnv {
  ctx_done_at : option Z;
  ctx_cause : error;                     (* context.Cause *)
  forward_done_at : option Z;            (* None also for a nil channel *)
  open_calls : nat -> openCall;
  open_pick : nat -> nat -> nat }.       (* attempt and select *)

(** How an attempt ended for the loop: its result was received, or the loop
    went away before that. *)
Inductive fate := Received | Abandoned.

Inductive openOutcome := Opened (attempt : nat) | OpenFailed (err : error).

Record openReturn := mkOpenReturn {
  or_outcome : openOutcome;
  or_time : Z;
  or_attempts : list (Z * fate) }.       (* when each began *)

(** ** [select] *)
Section Select.
Context {X : Type}.

Definition earliest (cases : list (option Z * X)) : option Z :=
  foldr (fun c m => match fst c, m with
                    | Some t, Some u => Some (Z.min t u)
                    | Some t, None => Some t
                    | None, m => m
                    end) None cases.

Definition ready_by (t : Z) (cases : list (option Z * X)) : list X :=
  omap (fun c => match fst c with Some u => if u <=? t then Some (snd c) else None | None => None end) cases.

(** A blocking select, at time [now]: when it goes on, and with which case. *)
Definition select (now : Z) (pick : nat) (cases : list (option Z * X)) : option (Z * X) :=
  match earliest cases with
  | None => None
  | Some e =>
      let t := Z.max now e in
      let ready := ready_by t cases in
      match ready !! (pick mod length ready)%nat with Some x => Some (t, x) | None => None end
  end.

(** A select with a default case. *)
Definition poll (now : Z) (pick : nat) (cases : list (option Z * X)) : option X :=
  let ready := ready_by now cases in ready !! (pick mod length ready)%nat.
End Select.

(** ** The loop *)

Inductive openCase := OnOpened | OnCtx | OnForward | OnTimeout | OnRetry.

Section Open.
Variable prohibited : Z.                 (* gossh.Prohibited *)
Variable env : openEnv.

Definition as_open_error (e : error) : option (Z * string) :=
  match e with ErrForeign f => f_open_channel f | _ => None end.

Definition isForwardRegistrationRace (err : option error) : bool :=
  match err with
  | Some e =>
      match errors_find as_open_error e with
      | Some (reason, message) => (reason =? prohibited) && bool_decide (message = "no forward for address"%string)
      | None => false
      end
  | None => false
  end.

Definition errOpenDeadline : error := ErrWrap "open channel" context_DeadlineExceeded.

Definition timeout_at : option Z := Some forwardedChannelRegistrationTimeout.

(** What the loop does with the result of attempt [i]. *)
Definition open_result (i : nat) : openOutcome :=
  match open_err (open_calls env i) with None => Opened i | Some e => OpenFailed e end.

Definition next_delay (delay : Z) : Z := if delay <? 50 * Millisecond then 2 * delay else delay.

(** Attempt [i], from [now]: received at a time, or the return of the function. *)
Definition attempt (i : nat) (now : Z) : option (Z * option openOutcome * fate) :=
  let opened_at := match open_takes (open_calls env i) with Some d => Some (now + d) | None => None end in
  match select now (open_pick env i 1)
          [(opened_at, OnOpened); (ctx_done_at env, OnCtx); (forward_done_at env, OnForward); (timeout_at, OnTimeout)] with
  | Some (t, OnOpened) => Some (t, None, Received)
  | Some (t, OnCtx) => Some (t, Some (OpenFailed (ctx_cause env)), Abandoned)
  | Some (t, OnForward) =>
      match select t (open_pick env i 2)
              [(opened_at, OnOpened); (ctx_done_at env, OnCtx); (timeout_at, OnTimeout)] with
      | Some (t, OnOpened) =>
          Some (t, Some (match open_err (open_calls env i) with
                         | None => Opened i
                         | Some _ => OpenFailed net_ErrClosed
                         end), Received)
      | Some (t, OnCtx) => Some (t, Some (OpenFailed (ctx_cause env)), Abandoned)
      | Some (t, _) => Some (t, Some (OpenFailed net_ErrClosed), Abandoned)
      | None => None
      end
  | Some (t, _) => Some (t, Some (OpenFailed errOpenDeadline), Abandoned)
  | None => None
  end.

(** [fuel] is the number of attempts that are allowed. *)
Fixpoint open_loop (fuel : nat) (i : nat) (now delay : Z) (log : list (Z * fate)) : option openReturn :=
  match poll now (open_pick env i 0) [(ctx_done_at env, OnCtx); (forward_done_at env, OnForward)] with
  | Some OnCtx => Some (mkOpenReturn (OpenFailed (ctx_cause env)) now log)
  | Some _ => Some (mkOpenReturn (OpenFailed net_ErrClosed) now log)
  | None =>
      match fuel with
      | O => None
      | S fuel =>
          match attempt i now with
          | None => None
          | Some (t, Some r, f) => Some (mkOpenReturn r t (log ++ [(now, f)]))
          | Some (t, None, f) =>
              let log := log ++ [(now, f)] in
              let err := open_err (open_calls env i) in
              if negb (isForwardRegistrationRace err) then Some (mkOpenReturn (open_result i) t log)
              else
                match select t (open_pick env i 3)
                        [(ctx_done_at env, OnCtx); (forward_done_at env, OnForward); (timeout_at, OnTimeout);
                         (Some (t + delay), OnRetry)] with
                | Some (t, OnCtx) => Some (mkOpenReturn (OpenFailed (ctx_cause env)) t log)
                | Some (t, OnForward) => Some (mkOpenReturn (OpenFailed net_ErrClosed) t log)
                | Some (t, OnTimeout) => Some (mkOpenReturn (open_result i) t log)
                | Some (t, _) => open_loop fuel (S i) t (next_delay delay) log
                | None => None
                end
          end
      end
  end.

(** Twenty-one attempts: see [open_terminates]. *)
Definition openForwardedChannel : option openReturn := open_loop 21 0 0 Millisecond [].

(** The channels that the goroutines of abandoned attempts close, once
    [OpenChannel] has returned them. *)
Definition closes_abandoned (r : openReturn) (i : nat) : bool :=
  match or_attempts r !! i with
  | Some (_, Abandoned) => bool_decide (open_err (open_calls env i) = None)
  | _ => false
  end.
End Open.

(** ** Properties of [select] *)
Section SelectLaws.
Context {X : Type}.
Implicit Types cases : list (option Z * X).

Lemma earliest_least cases e :
  earliest cases = Some e ->
  (exists x, (Some e, x) ∈ cases) /\ forall u x, (Some u, x) ∈ cases -> e <= u.
Proof.
  revert e. induction cases as [|[[t|] x] cases IH]; intros e H; simpl in H; [done|..].
  - destruct (earliest cases) as [u|] eqn:E; simplify_eq.
    + destruct (IH u eq_refl) as [[y Hy] Hl]. split.
      * destruct (Z.min_spec t u) as [[? ->]|[? ->]]; [exists x; left|exists y; by right].
      * intros v z [?|Hv]%elem_of_cons; simplify_eq; [lia|]. apply Hl in Hv. lia.
    + split; [exists x; left|]. intros v z [?|Hv]%elem_of_cons; simplify_eq; [lia|].
      exfalso. clear IH. induction cases as [|[[w|] y] cases IH]; simpl in E; [set_solver|by destruct (earliest cases)|].
      apply elem_of_cons in Hv as [?|Hv]; [done|auto].
  - destruct (IH e H) as [[y Hy] Hl]. split; [exists y; by right|]. intros v z [?|Hv]%elem_of_cons; [done|eauto].
Qed.

Lemma earliest_some cases u x : (Some u, x) ∈ cases -> is_Some (earliest cases).
Proof.
  induction cases as [|[[t|] y] cases IH]; intros H; simpl; [set_solver|destruct (earliest cases); by eexists|].
  apply elem_of_cons in H as [?|H]; [done|auto].
Qed.

Lemma ready_elem t cases x : x ∈ ready_by t cases <-> exists u, (Some u, x) ∈ cases /\ u <= t.
Proof.
  unfold ready_by. rewrite list_elem_of_omap. split.
  - intros ([[u|] y] & Hc & H); simpl in H; [|done]. destruct (Z.leb_spec u t); simplify_eq. eauto.
  - intros (u & Hc & Hu). exists (Some u, x). split; [done|]. simpl. by rewrite (proj2 (Z.leb_le u t) Hu).
Qed.

Lemma pick_ready (l : list X) (pick : nat) : l <> [] -> is_Some (l !! (pick mod length l)%nat).
Proof. intros H. apply lookup_lt_is_Some_2, Nat.mod_upper_bound. by destruct l. Qed.

(** A select goes on at the first moment at which a case is ready, with a ready case. *)
Lemma select_spec now pick cases t x :
  select now pick cases = Some (t, x) ->
  now <= t /\ (exists u, (Some u, x) ∈ cases /\ u <= t) /\ forall u y, (Some u, y) ∈ cases -> t <= Z.max now u.
Proof.
  unfold select. intros H. destruct (earliest cases) as [e|] eqn:E; [|done].
  destruct (ready_by _ cases !! _) as [y|] eqn:Hr; simplify_eq.
  apply list_elem_of_lookup_2, ready_elem in Hr. apply earliest_least in E as [_ Hl].
  split_and!; [lia|done|]. intros u y Hu%Hl. lia.
Qed.

Lemma select_some now pick cases u x : (Some u, x) ∈ cases -> is_Some (select now pick cases).
Proof.
  intros H. unfold select. destruct (earliest_some _ _ _ H) as [e He]. rewrite He.
  apply earliest_least in He as [[y Hy] _].
  destruct (pick_ready (ready_by (Z.max now e) cases) pick) as [z Hz]; [|rewrite Hz; by eexists].
  intros Hn. assert (Hin : y ∈ ready_by (Z.max now e) cases) by (apply ready_elem; exists e; split; [done|lia]).
  rewrite Hn in Hin. set_solver.
Qed.

Lemma poll_none now pick cases : poll now pick cases = None -> forall u x, (Some u, x) ∈ cases -> now < u.
Proof.
  unfold poll. intros H u x Hu. destruct (Z.lt_ge_cases now u) as [|Hle]; [done|].
  assert (Hin : x ∈ ready_by now cases) by (apply ready_elem; eauto).
  destruct (pick_ready (ready_by now cases) pick) as [z Hz]; [|congruence]. intros Hn. rewrite Hn in Hin. set_solver.
Qed.

Lemma poll_some now pick cases x : poll now pick cases = Some x -> exists u, (Some u, x) ∈ cases /\ u <= now.
Proof. unfold poll. by intros H%list_elem_of_lookup_2%ready_elem. Qed.
End SelectLaws.

(** ** The schedule of the attempts *)

Definition delay_at (i : nat) : Z := Nat.iter i next_delay Millisecond.
Fixpoint start_at (i : nat) : Z := match i with O => 0 | S j => start_at j + delay_at j end.

Lemma delay_at_succ i : delay_at (S i) = next_delay (delay_at i).
Proof. done. Qed.

(** A twenty-second attempt would begin after the timeout. *)
Lemma start_at_21 : forwardedChannelRegistrationTimeout < start_at 21.
Proof. by vm_compute. Qed.

Section OpenLaws.
Variable prohibited : Z.
Variable env : openEnv.

Definition done_by (at_ : option Z) (t : Z) : Prop := exists u, at_ = Some u /\ u <= t.

(** An attempt is begun only while neither the context nor the forward is done. *)
Definition began_live (b : Z) : Prop :=
  0 <= b /\ ~ done_by (ctx_done_at env) b /\ ~ done_by (forward_done_at env) b.

(** The attempts of a loop that goes on: all received, all refused for want of
    the registration. *)
Record log_ok (i : nat) (log : list (Z * fate)) : Prop := mkLogOk {
  lo_length : length log = i;
  lo_entry : forall j b f, log !! j = Some (b, f) ->
    f = Received /\ began_live b /\ isForwardRegistrationRace prohibited (open_err (open_calls env j)) = true }.

(** Why the function fails with [e] at time [t]; [last] is its last attempt. *)
Definition failure_ok (e : error) (t : Z) (last : nat) : Prop :=
  (e = ctx_cause env /\ done_by (ctx_done_at env) t) \/
  (e = net_ErrClosed /\ done_by (forward_done_at env) t) \/
  (e = errOpenDeadline /\ t = forwardedChannelRegistrationTimeout) \/
  (open_err (open_calls env last) = Some e /\
   (isForwardRegistrationRace prohibited (Some e) = true -> t = forwardedChannelRegistrationTimeout)).

Record return_ok (r : openReturn) : Prop := mkReturnOk {
  ro_time : 0 <= or_time r <= forwardedChannelRegistrationTimeout;
  ro_attempts : (length (or_attempts r) <= 21)%nat;
  ro_began : forall j b f, or_attempts r !! j = Some (b, f) -> began_live b;
  (* a channel that was opened is the one that is returned, or its attempt was abandoned *)
  ro_opened : forall j b f, or_attempts r !! j = Some (b, f) -> open_err (open_calls env j) = None ->
    (f = Received /\ or_outcome r = Opened j) \/ (f = Abandoned /\ or_outcome r <> Opened j);
  ro_returned : forall j, or_outcome r = Opened j ->
    S j = length (or_attempts r) /\ open_err (open_calls env j) = None /\ exists b, or_attempts r !! j = Some (b, Received);
  ro_failed : forall e, or_outcome r = OpenFailed e -> failure_ok e (or_time r) (pred (length (or_attempts r))) }.

Lemma log_ok_snoc i log now :
  log_ok i log -> began_live now -> isForwardRegistrationRace prohibited (open_err (open_calls env i)) = true ->
  log_ok (S i) (log ++ [(now, Received)]).
Proof.
  intros [Hl He] Hb Hr. split; [rewrite length_app; simpl; lia|].
  intros j b f [H|[Hj H]]%lookup_app_Some; [by eapply He|].
  apply list_lookup_singleton_Some in H as [? ?]. simplify_eq.
  replace j with (length log) by lia. done.
Qed.

Lemma race_error err : isForwardRegistrationRace prohibited err = true -> err <> None.
Proof. by destruct err. Qed.

(** The returns that leave no attempt open. *)
Lemma return_failed i log t e :
  log_ok i log -> (i <= 21)%nat -> 0 <= t <= forwardedChannelRegistrationTimeout -> failure_ok e t (pred i) ->
  return_ok (mkOpenReturn (OpenFailed e) t log).
Proof.
  intros [Hl He] Hi Ht Hf. split; simpl; try done; try lia.
  - intros j b f H. by apply (He j b f H).
  - intros j b f (_ & _ & Hr)%He Hn. by apply race_error in Hr.
  - intros e' [=]. subst. done.
Qed.

(** A return with attempt [i] as the last one. *)
Lemma return_last i log now t f o :
  log_ok i log -> (i < 21)%nat -> began_live now -> 0 <= t <= forwardedChannelRegistrationTimeout ->
  (f = Received -> open_err (open_calls env i) = None -> o = Opened i) ->
  (forall j, o = Opened j -> f = Received /\ j = i /\ open_err (open_calls env i) = None) ->
  (forall e, o = OpenFailed e -> failure_ok e t i) ->
  return_ok (mkOpenReturn o t (log ++ [(now, f)])).
Proof.
  intros [Hl He] Hi Hb Ht Ho Hj Hf.
  assert (Hlen : length (log ++ [(now, f)]) = S i) by (rewrite length_app; simpl; lia).
  assert (Hlk : forall j b g, (log ++ [(now, f)]) !! j = Some (b, g) -> log !! j = Some (b, g) \/ (j = i /\ b = now /\ g = f)).
  { intros j b g [H|[Hge H]]%lookup_app_Some; [by left|].
    apply list_lookup_singleton_Some in H as [? ?]. simplify_eq. right. split; [lia|done]. }
  split; cbn [or_time or_attempts or_outcome]; rewrite ?Hlen; try done; try lia.
  - intros j b g [H|(_ & -> & _)]%Hlk; [by eapply He|done].
  - intros j b g [(_ & _ & Hr)%He|(-> & _ & ->)]%Hlk Hn; [by apply race_error in Hr|].
    destruct f; [left; split; [done|by apply Ho]|right; split; [done|]]. intros E. by destruct (Hj i E).
  - intros j E. destruct (Hj j E) as (-> & -> & Hn). split_and!; [lia|done|]. exists now.
    rewrite lookup_app_r by lia. by rewrite Hl, Nat.sub_diag.
Qed.

(** The times and cases of a select that has the timeout among its cases. *)
Lemma select_timeout now pick cases :
  now <= forwardedChannelRegistrationTimeout -> (timeout_at, OnTimeout) ∈ cases ->
  exists t x, select now pick cases = Some (t, x) /\ now <= t <= forwardedChannelRegistrationTimeout /\
              exists u, (Some u, x) ∈ cases /\ u <= t.
Proof.
  intros Hn Hin. destruct (select_some now pick cases _ _ Hin) as [[t x] Hs]. exists t, x.
  apply select_spec in Hs as Hspec. destruct Hspec as (Ht & Hx & Hl). specialize (Hl _ _ Hin).
  split_and!; [done|lia|lia|done].
Qed.

Lemma attempt_ok i now :
  now <= forwardedChannelRegistrationTimeout ->
  exists t o f, attempt env i now = Some (t, o, f) /\ now <= t <= forwardedChannelRegistrationTimeout /\
    match o with
    | None => f = Received
    | Some o =>
        (f = Received -> open_err (open_calls env i) = None -> o = Opened i) /\
        (forall j, o = Opened j -> f = Received /\ j = i /\ open_err (open_calls env i) = None) /\
        (forall e, o = OpenFailed e -> failure_ok e t i)
    end.
Proof.
  intros Hn. unfold attempt. set (opened_at := match open_takes _ with Some _ => _ | None => _ end).
  set (cases := [(opened_at, OnOpened); _; _; _]).
  destruct (select_timeout now (open_pick env i 1) cases Hn) as (t & x & -> & Ht & u & Hx & Hu);
    [unfold cases; set_solver|].
  unfold cases in Hx. rewrite !elem_of_cons, elem_of_nil in Hx. destruct Hx as [E|[E|[E|[E|[]]]]]; injection E as Hat ->.
  - by exists t, None, Received.
  - do 3 eexists. split; [done|]. split; [done|]. split_and!; try done. intros e [=]. subst e. left. split; [done|]. by exists u.
  - set (cases2 := [(opened_at, OnOpened); _; _]).
    destruct (select_timeout t (open_pick env i 2) cases2) as (t' & x & -> & Ht' & v & Hx & Hv);
      [lia|unfold cases2; set_solver|].
    assert (Hdone : done_by (forward_done_at env) t') by (exists u; split; [done|lia]).
    unfold cases2 in Hx. rewrite !elem_of_cons, elem_of_nil in Hx. destruct Hx as [E|[E|[E|[]]]]; injection E as Hat' ->.
    + do 3 eexists. split; [done|]. split; [lia|]. destruct (open_err _) eqn:Ee; split_and!; try done.
      * intros e' [=]. subst e'. right. by left.
      * intros j [=]. by subst j.
    + do 3 eexists. split; [done|]. split; [lia|]. split_and!; try done. intros e [=]. subst e. left. split; [done|]. by exists v.
    + do 3 eexists. split; [done|]. split; [lia|]. split_and!; try done. intros e [=]. subst e. right. by left.
  - do 3 eexists. split; [done|]. split; [done|]. split_and!; try done. intros e [=]. subst e. right. right. left.
    split; [done|]. assert (u = forwardedChannelRegistrationTimeout) as -> by (unfold timeout_at in *; congruence). lia.
Qed.

Lemma open_loop_ok fuel i now log :
  (i + fuel = 21)%nat -> start_at i <= now <= forwardedChannelRegistrationTimeout -> 0 <= now -> log_ok i log ->
  exists r, open_loop prohibited env fuel i now (delay_at i) log = Some r /\ return_ok r.
Proof.
  revert i now log. induction fuel as [|fuel IH]; intros i now log Hf Hnow H0 Hlog.
  { replace i with 21%nat in Hnow by lia. pose proof start_at_21. lia. }
  cbn [open_loop]. destruct (poll _ _ _) as [x|] eqn:Hp.
  - apply poll_some in Hp as (u & Hx & Hu).
    assert (Hr : forall e, failure_ok e now (pred i) -> return_ok (mkOpenReturn (OpenFailed e) now log))
      by (intros e; apply return_failed; [done|lia|lia]).
    rewrite !elem_of_cons, elem_of_nil in Hx. destruct Hx as [E|[E|[]]]; injection E as Hat ->;
      (eexists; split; [done|]); apply Hr; [left|right; left]; (split; [done|by exists u]).
  - assert (Hlive : began_live now).
    { split; [done|]. split; intros (u & Hu & Hle); pose proof (poll_none _ _ _ Hp u) as Hn; rewrite Hu in Hn;
        [specialize (Hn OnCtx)|specialize (Hn OnForward)]; ospecialize (Hn _); [set_solver|lia|set_solver|lia]. }
    destruct (attempt_ok i now) as (t & o & f & -> & Ht & Ho); [lia|]. destruct o as [o|].
    { eexists. split; [done|]. destruct Ho as (? & ? & ?). apply (return_last i); try done; lia. }
    subst f. destruct (isForwardRegistrationRace _ _) eqn:Hrace; cbn [negb].
    2:{ eexists. split; [done|]. unfold open_result. apply (return_last i); try done; try lia.
        - intros _ ->. done.
        - intros j. destruct (open_err _) eqn:Ee; [done|]. by intros [= <-].
        - intros e. destruct (open_err _) eqn:Ee; [|done]. intros [= <-]. right. right. right. split; [done|]. by rewrite Hrace. }
    set (cases := [(ctx_done_at env, OnCtx); _; _; _]).
    destruct (select_timeout t (open_pick env i 3) cases) as (t' & x & -> & Ht' & u & Hx & Hu);
      [lia|unfold cases; set_solver|].
    pose proof (log_ok_snoc i log now Hlog Hlive Hrace) as Hlog'.
    assert (Hr : forall e, failure_ok e t' i -> return_ok (mkOpenReturn (OpenFailed e) t' (log ++ [(now, Received)])))
      by (intros e He; apply (return_failed (S i)); [done|lia|lia|done]).
    unfold cases in Hx. rewrite !elem_of_cons, elem_of_nil in Hx. destruct Hx as [E|[E|[E|[E|[]]]]]; injection E as Hat ->.
    + eexists. split; [done|]. apply Hr. left. split; [done|by exists u].
    + eexists. split; [done|]. apply Hr. right. left. split; [done|by exists u].
    + eexists. split; [done|]. unfold open_result. apply race_error in Hrace as Hne.
      destruct (open_err _) as [e|] eqn:Ee; [|done]. apply Hr. right. right. right. split; [done|]. intros _.
      assert (u = forwardedChannelRegistrationTimeout) as -> by (unfold timeout_at in *; congruence). lia.
    + assert (u = t + delay_at i) as -> by congruence. rewrite <- delay_at_succ. apply IH; [lia| |lia|done]. simpl. lia.
Qed.

Lemma open_ok : exists r, openForwardedChannel prohibited env = Some r /\ return_ok r.
Proof.
  unfold openForwardedChannel. replace Millisecond with (delay_at 0) by done.
  apply open_loop_ok; [done|by vm_compute|done|by split].
Qed.
End OpenLaws.

(** [openForwardedChannel] terminates, whatever the client, the context and
    the forward do: it returns within a second, after at most twenty-one
    requests to open a channel, and a failure is the cancellation, the end of
    the forward, the deadline, or the client's last answer, which is a missing
    registration only when the time is up. *)
Theorem open_terminates prohibited env :
  exists r, openForwardedChannel prohibited env = Some r /\
    0 <= or_time r <= forwardedChannelRegistrationTimeout /\ (length (or_attempts r) <= 21)%nat /\
    forall e, or_outcome r = OpenFailed e ->
      failure_ok prohibited env e (or_time r) (pred (length (or_attempts r))).
Proof.
  destruct (open_ok prohibited env) as (r & Hr & [Ht Ha _ _ _ Hf]). by exists r.
Qed.

(** No channel is lost and none is opened too late: a request is sent only
    while neither the connection nor the forward is done, and a channel that the
    client opens is the one that is returned, or the goroutine of its
    abandoned attempt closes it; never both. *)
Theorem open_accounted prohibited env r :
  openForwardedChannel prohibited env = Some r ->
  forall j b f, or_attempts r !! j = Some (b, f) ->
    began_live env b /\
    (open_err (open_calls env j) = None ->
     if closes_abandoned env r j then or_outcome r <> Opened j else or_outcome r = Opened j) /\
    (open_err (open_calls env j) <> None -> closes_abandoned env r j = false /\ or_outcome r <> Opened j).
Proof.
  intros H j b f Hj.
  destruct (open_ok prohibited env) as (r' & Hr & [_ _ Hb Ho Hret _]).
  rewrite H in Hr. injection Hr as <-.
  split; [by eapply Hb|]. unfold closes_abandoned. rewrite Hj. split.
  - intros Hn. destruct (Ho _ _ _ Hj Hn) as [[-> Hx]|[-> Hx]]; [done|]. by rewrite Hn.
  - intros Hn. split; [destruct f; [done|]; by apply bool_decide_eq_false|]. intros Hx. by destruct (Hret _ Hx) as (_ & ? & _).
Qed.

(** A client that knows the forward at the third request, and one that never does. *)
Definition sample_race := ErrForeign (mkForeign 1 "" None None false (Some (1, "no forward for address"%string))).
Definition sample_open (known_at : nat) (done_at : option Z) : openEnv :=
  mkOpenEnv None context_Canceled done_at
    (fun i => mkOpenCall (Some 1000) (if (i <? known_at)%nat then Some sample_race else None)) (fun _ _ => 0%nat).

Lemma open_example :
  openForwardedChannel 1 (sample_open 2 None) =
    Some (mkOpenReturn (Opened 2) 3003000 [(0, Received); (1001000, Received); (3002000, Received)]) /\
  match openForwardedChannel 1 (sample_open 99 None) with
  | Some r => or_time r = Second /\ or_outcome r = OpenFailed sample_race /\ length (or_attempts r) = 21%nat
  | None => False
  end /\
  openForwardedChannel 1 (sample_open 1 (Some 500)) =
    Some (mkOpenReturn (OpenFailed net_ErrClosed) 1000 [(0, Received)]).
Proof. by vm_compute. Qed.

Lemma open_accounted_witness : or_outcome (mkOpenReturn (Opened 2) 3003000 [(0, Received); (1001000, Received); (3002000, Received)]) = Opened 2.
Proof.
  pose proof (open_accounted 1 (sample_open 2 None) _ ltac:(vm_compute; reflexivity) 2 3002000 Received eq_refl) as (_ & H & _).
  exact (H eq_refl).
Defined.
