(* ===== verification/Forward.v ===== *)
(** Forward: the life of a reverse forward, shared by [ForwardedTCPHandler]
    ([tcpip.go]) and [ForwardedUnixHandler] ([streamlocal.go]).

    A [forward] has a listener and a slot of the limit on forwards; the handler
    keeps the forwards in a map.  The goroutines that register a forward, serve
    it, open channels for it, cancel it and close it run their critical sections
    in any order: [forward_exec] executes one action, and is [None] where it is
    not possible or would block. *)
From S2P Require Import Prelude.
Local Open Scope Z_scope.

(** ** [forward] *)

Record forwardKey := mkForwardKey { key_conn : nat; key_addr : string }.
#[export] Instance forwardKey_eq_dec : EqDecision forwardKey.
Proof. solve_decision. Defined.
#[export] Program Instance forwardKey_countable : Countable forwardKey :=
  inj_countable' (fun k => (key_conn k, key_addr k)) (fun p => mkForwardKey p.1 p.2) _.
Next Obligation. by intros []. Qed.

(** How far [f.close], a [sync.OnceFunc], has come. *)
Inductive closeStage := NotClosed | Marking | ClosingDone | ClosingListener | Releasing | AllClosed.

Record forward := mkForward {
  fw_key : forwardKey;
  fw_closing : bool;
  fw_pending : Z;                  (* the WaitGroup *)
  fw_stage : closeStage;
  fw_done_closes : nat;            (* calls of close(f.done), f.listener.Close and onClose *)
  fw_listener_closes : nat;
  fw_releases : nat }.

Definition newForward (key : forwardKey) : forward := mkForward key false 0 NotClosed 0 0 0.

Definition beginOpen (f : forward) : bool * forward :=
  if fw_closing f then (false, f)
  else (true, mkForward (fw_key f) (fw_closing f) (fw_pending f + 1) (fw_stage f)
                (fw_done_closes f) (fw_listener_closes f) (fw_releases f)).

(** [None]: the panic of a negative counter. *)
Definition endOpen (f : forward) : option forward :=
  if fw_pending f - 1 <? 0 then None
  else Some (mkForward (fw_key f) (fw_closing f) (fw_pending f - 1) (fw_stage f)
               (fw_done_closes f) (fw_listener_closes f) (fw_releases f)).

(** The call of [f.close]: the first one runs the body. *)
Definition enterClose (f : forward) : forward :=
  match fw_stage f with
  | NotClosed => mkForward (fw_key f) (fw_closing f) (fw_pending f) Marking
                   (fw_done_closes f) (fw_listener_closes f) (fw_releases f)
  | _ => f
  end.

(** The next part of the body. *)
Definition closeNext (f : forward) : option forward :=
  let '(mkForward key closing pending stage dones listeners releases) := f in
  match stage with
  | Marking => Some (mkForward key true pending ClosingDone dones listeners releases)
  | ClosingDone => Some (mkForward key closing pending ClosingListener (S dones) listeners releases)
  | ClosingListener => Some (mkForward key closing pending Releasing dones (S listeners) releases)
  | Releasing => Some (mkForward key closing pending AllClosed dones listeners (S releases))
  | NotClosed | AllClosed => None
  end.

(** ** The goroutines *)

(** [f] is the address of a forward.  A goroutine that calls [f.close] is in
    the state of that call until the call returns. *)
Inductive fthread :=
(* HandleSSHRequest, from the insertion into the map *)
| TInsert (f : nat) | TDuplicate (f : nat) | TStartWorker (f : nat) | TUndoRemove (f : nat) | TUndoClose (f : nat)
| TRejected (f : nat) | TAccepted (f : nat)
(* the worker of a forward: the loop and its deferred function *)
| TServing (f : nat) | TServeClose (f : nat) | TServeWait (f : nat) | TServeRemove (f : nat) | TServed (f : nat)
(* the worker of a connection, while it opens its channel *)
| TOpening (f : nat) | TOpened (f : nat)
(* the cancellation of a key; only that of TCP waits for pending opens *)
| TCancel (k : forwardKey) (waits : bool) | TCancelClose (f : nat) (waits : bool) | TCancelWait (f : nat) | TCancelRemove (f : nat)
| TCancelled (f : nat) (waited : bool) | TNotFound
(* whoever else closes the forward: the end of the context or of the connection, a failure *)
| TClosing (f : nat) | TClosed (f : nat).

Record fsystem := mkFSystem {
  forwards : gmap forwardKey nat;
  objects : list forward;
  threads : list fthread }.

Definition forward_init : fsystem := mkFSystem ∅ [] [].

Definition set_object (f : nat) (o : forward) (s : fsystem) : fsystem :=
  mkFSystem (forwards s) (<[f := o]> (objects s)) (threads s).
Definition set_thread (i : nat) (t : fthread) (s : fsystem) : fsystem :=
  mkFSystem (forwards s) (objects s) (<[i := t]> (threads s)).
Definition add_thread (t : fthread) (s : fsystem) : fsystem :=
  mkFSystem (forwards s) (objects s) (threads s ++ [t]).
Definition set_forwards (m : gmap forwardKey nat) (s : fsystem) : fsystem :=
  mkFSystem m (objects s) (threads s).

(** [removeForward]: the entry goes if it is still this forward. *)
Definition removeForward (f : nat) (o : forward) (s : fsystem) : fsystem :=
  if decide (forwards s !! fw_key o = Some f) then set_forwards (delete (fw_key o) (forwards s)) s else s.

(** The forward a goroutine is about. *)
Definition thread_forward (t : fthread) : option nat :=
  match t with
  | TInsert f | TDuplicate f | TStartWorker f | TUndoRemove f | TUndoClose f | TRejected f | TAccepted f
  | TServing f | TServeClose f | TServeWait f | TServeRemove f | TServed f | TOpening f | TOpened f
  | TCancelClose f _ | TCancelWait f | TCancelRemove f | TCancelled f _ | TClosing f | TClosed f => Some f
  | TCancel _ _ | TNotFound => None
  end.

(** A goroutine [i] in a call of [f.close], after which it is in state [next]. *)
Definition in_close (i f : nat) (o : forward) (next : fthread) (s : fsystem) : option fsystem :=
  match fw_stage o with
  | NotClosed => Some (set_object f (enterClose o) s)
  | AllClosed => Some (set_thread i next s)
  | _ => None
  end.

(** One action of goroutine [i], which is in state [t]; [choice] says whether
    a worker gets a goroutine, and whether the loop goes on with a connection. *)
Definition thread_exec (i : nat) (t : fthread) (choice : bool) (s : fsystem) : option fsystem :=
  match t with
  | TCancel k waits =>
      match forwards s !! k with
      | Some f => Some (set_thread i (TCancelClose f waits) s)
      | None => Some (set_thread i TNotFound s)
      end
  | _ =>
      f ← thread_forward t;
      o ← objects s !! f;
      match t with
      | TInsert _ =>
          match forwards s !! fw_key o with
          | Some _ => Some (set_thread i (TDuplicate f) s)
          | None => Some (set_thread i (TStartWorker f) (set_forwards (<[fw_key o := f]> (forwards s)) s))
          end
      | TDuplicate _ => in_close i f o (TRejected f) s
      | TStartWorker _ =>
          Some (if choice then add_thread (TServing f) (set_thread i (TAccepted f) s)
                else set_thread i (TUndoRemove f) s)
      | TUndoRemove _ => Some (set_thread i (TUndoClose f) (removeForward f o s))
      | TUndoClose _ => in_close i f o (TRejected f) s
      | TServing _ =>
          if choice then
            let '(ok, o) := beginOpen o in
            Some (if ok : bool then add_thread (TOpening f) (set_object f o s) else set_thread i (TServeClose f) s)
          else Some (set_thread i (TServeClose f) s)
      | TServeClose _ => in_close i f o (TServeWait f) s
      | TServeWait _ => if fw_pending o =? 0 then Some (set_thread i (TServeRemove f) s) else None
      | TServeRemove _ => Some (set_thread i (TServed f) (removeForward f o s))
      | TOpening _ => o ← endOpen o; Some (set_thread i (TOpened f) (set_object f o s))
      | TCancelClose _ waits => in_close i f o (if waits then TCancelWait f else TCancelled f false) s
      | TCancelWait _ => if fw_pending o =? 0 then Some (set_thread i (TCancelRemove f) s) else None
      | TCancelRemove _ => Some (set_thread i (TCancelled f true) (removeForward f o s))
      | TClosing _ => in_close i f o (TClosed f) s
      | _ => None
      end
  end.

Inductive faction :=
| Register (k : forwardKey)            (* a request whose listener exists: newForward *)
| Cancel (k : forwardKey) (waits : bool)
| CloseForward (f : nat)
| RunClose (f : nat)                   (* the body of f.close *)
| Run (i : nat) (choice : bool).

Definition forward_exec (a : faction) (s : fsystem) : option fsystem :=
  match a with
  | Register k =>
      Some (mkFSystem (forwards s) (objects s ++ [newForward k]) (threads s ++ [TInsert (length (objects s))]))
  | Cancel k waits => Some (add_thread (TCancel k waits) s)
  | CloseForward f => _ ← objects s !! f; Some (add_thread (TClosing f) s)
  | RunClose f => o ← objects s !! f; o ← closeNext o; Some (set_object f o s)
  | Run i choice => t ← threads s !! i; thread_exec i t choice s
  end.

Fixpoint forward_run (l : list faction) (s : fsystem) : option fsystem :=
  match l with
  | [] => Some s
  | a :: l => s ← forward_exec a s; forward_run l s
  end.

(** ** Forwards over time *)

(** What the body of [f.close] has done by each stage. *)
Definition stage_ok (o : forward) : Prop :=
  match fw_stage o with
  | NotClosed | Marking => fw_closing o = false /\ fw_done_closes o = 0%nat /\ fw_listener_closes o = 0%nat /\ fw_releases o = 0%nat
  | ClosingDone => fw_closing o = true /\ fw_done_closes o = 0%nat /\ fw_listener_closes o = 0%nat /\ fw_releases o = 0%nat
  | ClosingListener => fw_closing o = true /\ fw_done_closes o = 1%nat /\ fw_listener_closes o = 0%nat /\ fw_releases o = 0%nat
  | Releasing => fw_closing o = true /\ fw_done_closes o = 1%nat /\ fw_listener_closes o = 1%nat /\ fw_releases o = 0%nat
  | AllClosed => fw_closing o = true /\ fw_done_closes o = 1%nat /\ fw_listener_closes o = 1%nat /\ fw_releases o = 1%nat
  end.

(** No goroutine can open a channel for it any more. *)
Definition quiet (o : forward) : Prop := fw_closing o = true /\ fw_pending o = 0.

(** What never changes back. *)
Definition evolves (o o' : forward) : Prop :=
  fw_key o' = fw_key o /\ (fw_stage o = AllClosed -> fw_stage o' = AllClosed) /\ (quiet o -> quiet o').

Lemma evolves_refl o : evolves o o.
Proof. by split_and!. Qed.

Lemma evolves_beginOpen o : stage_ok o -> stage_ok (snd (beginOpen o)) /\ evolves o (snd (beginOpen o)).
Proof.
  destruct o as [k [] p st d l r]; unfold stage_ok, evolves, quiet, beginOpen; simpl; [done|].
  intros H. split_and!; try done. by intros [].
Qed.

Lemma evolves_endOpen o o' : endOpen o = Some o' -> stage_ok o -> stage_ok o' /\ evolves o o'.
Proof.
  destruct o as [k c p st d l r]. unfold stage_ok, evolves, quiet, endOpen; simpl.
  destruct (Z.ltb_spec (p - 1) 0); intros [=]; subst; simpl. intros H'. split_and!; try done. intros [? ?]. lia.
Qed.

Lemma evolves_enter o : stage_ok o -> stage_ok (enterClose o) /\ evolves o (enterClose o).
Proof. destruct o as [k c p [] d l r]; unfold stage_ok, evolves, quiet, enterClose; simpl; intros; split_and!; (done || tauto). Qed.

Lemma evolves_next o o' : closeNext o = Some o' -> stage_ok o -> stage_ok o' /\ evolves o o' /\ fw_pending o' = fw_pending o /\ (fw_closing o = true -> fw_closing o' = true).
Proof.
  destruct o as [k c p [] d l r]; unfold stage_ok, evolves, quiet, closeNext; simpl; intros [=] (Hc & Hd & Hl & Hr); subst; simpl;
    split_and!; (done || tauto).
Qed.

(** ** Counting goroutines *)

Inductive fkind := KRegistering | KStarting | KAccepted | KServing | KOpening.
Definition fkind_eqb (k k' : fkind) : bool :=
  match k, k' with
  | KRegistering, KRegistering | KStarting, KStarting | KAccepted, KAccepted | KServing, KServing | KOpening, KOpening => true
  | _, _ => false
  end.

Definition kind_of (t : fthread) : option (nat * fkind) :=
  match t with
  | TInsert f | TDuplicate f | TUndoRemove f | TUndoClose f | TRejected f => Some (f, KRegistering)
  | TStartWorker f => Some (f, KStarting)
  | TAccepted f => Some (f, KAccepted)
  | TServing f => Some (f, KServing)
  | TOpening f => Some (f, KOpening)
  | _ => None
  end.
Definition ind (k : fkind) (f : nat) (t : fthread) : Z :=
  match kind_of t with
  | Some (f', k') => if fkind_eqb k k' then if decide (f' = f) then 1 else 0 else 0
  | None => 0
  end.
Definition number (k : fkind) (f : nat) (s : fsystem) : Z := sumZ (ind k f) (threads s).

Lemma number_set k f i t t' s :
  threads s !! i = Some t -> number k f (set_thread i t' s) = number k f s - ind k f t + ind k f t'.
Proof. apply sumZ_insert. Qed.
Lemma number_add k f t s : number k f (add_thread t s) = number k f s + ind k f t.
Proof. unfold number, add_thread. simpl. rewrite sumZ_app. simpl. lia. Qed.
Lemma ind_range k f t : 0 <= ind k f t <= 1.
Proof. unfold ind. destruct (kind_of t) as [[f' k']|]; [destruct (fkind_eqb k k'); [case_decide|]|]; lia. Qed.
Lemma ind_one k f t : kind_of t = Some (f, k) -> ind k f t = 1.
Proof. unfold ind. intros ->. rewrite decide_True by done. by destruct k. Qed.
Lemma ind_other k f t : thread_forward t <> Some f -> ind k f t = 0.
Proof.
  unfold ind. intros H. destruct t; cbn in *; try done; destruct k; cbn; try done; rewrite decide_False; congruence.
Qed.
Lemma number_object k f g o s : number k f (set_object g o s) = number k f s.
Proof. done. Qed.
Lemma number_forwards k f m s : number k f (set_forwards m s) = number k f s.
Proof. done. Qed.
Lemma number_pos k f i t s : threads s !! i = Some t -> kind_of t = Some (f, k) -> 1 <= number k f s.
Proof.
  intros Hi Hk. assert (H : 0 <= sumZ (ind k f) (<[i := TNotFound]> (threads s))).
  { clear. generalize (<[i := TNotFound]> (threads s)). intros l. induction l as [|t l IH]; simpl; [done|].
    pose proof (ind_range k f t). lia. }
  rewrite (sumZ_insert _ _ _ _ _ Hi), (ind_one _ _ _ Hk) in H. unfold number. cbn in H. lia.
Qed.

(** ** Invariant *)

Definition registered (f : nat) (o : forward) (s : fsystem) : Prop := forwards s !! fw_key o = Some f.

Record object_ok (s : fsystem) (f : nat) (o : forward) : Prop := mkObjectOk {
  oo_stage : stage_ok o;
  oo_pending : fw_pending o = number KOpening f s;
  oo_once : number KRegistering f s + number KStarting f s + number KAccepted f s <= 1;
  oo_serving : number KServing f s <= number KAccepted f s;
  oo_opening : number KAccepted f s = 0 -> fw_pending o = 0;
  oo_registered : 0 < number KStarting f s + number KServing f s \/ 0 < fw_pending o -> registered f o s \/ quiet o }.

(** What a goroutine knows about its forward. *)
Definition thread_ok (objs : list forward) (t : fthread) : Prop :=
  match thread_forward t with
  | None => True
  | Some f =>
      exists o, objs !! f = Some o /\
        match t with
        | TServeWait _ | TCancelWait _ | TCancelled _ false | TClosed _ | TRejected _ => fw_stage o = AllClosed
        | TServeRemove _ | TServed _ | TCancelRemove _ | TCancelled _ true => fw_stage o = AllClosed /\ quiet o
        | _ => True
        end
  end.

Record finv (s : fsystem) : Prop := mkFinv {
  fi_map : forall k f, forwards s !! k = Some f -> exists o, objects s !! f = Some o /\ fw_key o = k;
  fi_thread : forall i t, threads s !! i = Some t -> thread_ok (objects s) t;
  fi_object : forall f o, objects s !! f = Some o -> object_ok s f o }.

Lemma thread_ok_evolves objs objs' t :
  (forall f o, objs !! f = Some o -> exists o', objs' !! f = Some o' /\ evolves o o') ->
  thread_ok objs t -> thread_ok objs' t.
Proof.
  unfold thread_ok. intros He H. destruct (thread_forward t) as [f|]; [|done].
  destruct H as (o & Ho & H). destruct (He f o Ho) as (o' & Ho' & _ & Ha & Hq). exists o'. split; [done|].
  destruct t as [| | | | | | | | | | | | | | |? []| | |? []| | |]; naive_solver.
Qed.

(** All the ways in which an action can end. *)
Ltac forward_steps a H :=
  let t := fresh "t" in let Ht := fresh "Ht" in
  destruct a as [k|k w|f|f|i choice]; cbn [forward_exec] in H;
  try match type of H with
  | mbind _ (threads _ !! ?j) = _ =>
      destruct (threads _ !! j) as [t|] eqn:Ht; [|discriminate H];
      destruct t as [f|f|f|f|f|f|f|f|f|f|f|f|f|f|k w|f w|f|f|f w| |f|f]
  end;
  unfold thread_exec, in_close, removeForward in H; cbn in H;
  repeat (first [case_match | case_decide | match type of H with mbind _ ?m = _ => destruct m eqn:?; cbn in H end];
          cbn in H; try discriminate H);
  simplify_eq/=.

Lemma lookup_evolves (objs : list forward) g og og' :
  objs !! g = Some og -> stage_ok og' /\ evolves og og' ->
  (forall f o, objs !! f = Some o -> stage_ok o) ->
  forall f o, objs !! f = Some o -> exists o', <[g := og']> objs !! f = Some o' /\ stage_ok o' /\ evolves o o'.
Proof.
  intros Hg He Hok f o Ho. destruct (decide (f = g)) as [->|Hne].
  - exists og'. rewrite Hg in Ho. simplify_eq. split; [|done]. apply list_lookup_insert_eq, lookup_lt_is_Some. eauto.
  - exists o. rewrite list_lookup_insert_ne by done. split_and!; eauto using evolves_refl.
Qed.

Lemma exec_evolves a s s' :
  forward_exec a s = Some s' -> (forall f o, objects s !! f = Some o -> stage_ok o) ->
  forall f o, objects s !! f = Some o -> exists o', objects s' !! f = Some o' /\ stage_ok o' /\ evolves o o'.
Proof.
  intros H Hok. assert (Hsame : forall f o, objects s !! f = Some o -> exists o', objects s !! f = Some o' /\ stage_ok o' /\ evolves o o')
    by (intros; eexists; eauto using evolves_refl).
  forward_steps a H; try exact Hsame; try (eapply lookup_evolves; [eassumption| |exact Hok]).
  all: match goal with
       | E : closeNext ?o = Some _ |- _ => destruct (evolves_next _ _ E); eauto; tauto
       | E : endOpen ?o = Some _ |- _ => eapply evolves_endOpen; eauto
       | E : beginOpen ?o = (_, ?o') |- _ => replace o' with (snd (beginOpen o)) by (by rewrite E); apply evolves_beginOpen; eauto
       | |- context [enterClose _] => apply evolves_enter; eauto
       | _ => idtac
       end.
  intros f o Ho. exists o. split_and!; eauto using evolves_refl. by apply lookup_app_l_Some.
Qed.

Lemma finv_init : finv forward_init.
Proof. split; [intros k f H; cbn [forward_init forwards] in H; by rewrite lookup_empty in H|done|done]. Qed.

Lemma all_insert {A} (P : A -> Prop) (l : list A) (i j : nat) t' u :
  P t' -> (l !! j = Some u -> P u) -> <[i := t']> l !! j = Some u -> P u.
Proof. intros Ht Hl [(_ & <- & _)|[_ H]]%list_lookup_insert_Some; auto. Qed.
Lemma all_snoc {A} (P : A -> Prop) (l : list A) (j : nat) t' u :
  P t' -> (l !! j = Some u -> P u) -> (l ++ [t']) !! j = Some u -> P u.
Proof. intros Ht Hl [H|[_ [_ ->]%list_lookup_singleton_Some]]%lookup_app_Some; auto. Qed.

(** A goroutine that has nothing to know but that its forward exists. *)
Lemma thread_ok_plain objs t f o :
  thread_forward t = Some f -> objs !! f = Some o ->
  match t with
  | TServeWait _ | TCancelWait _ | TCancelled _ _ | TClosed _ | TRejected _ | TServeRemove _ | TServed _ | TCancelRemove _ => False
  | _ => True
  end -> thread_ok objs t.
Proof. unfold thread_ok. intros -> Ho Hp. exists o. split; [done|]. by destruct t. Qed.

Lemma closed_quiet o : stage_ok o -> fw_stage o = AllClosed -> fw_pending o = 0 -> quiet o.
Proof. unfold stage_ok. intros H E Hp. rewrite E in H. by split; [apply H|]. Qed.

Lemma number_nonneg q g s : 0 <= number q g s.
Proof. apply (Z.le_trans _ (sumZ (fun _ => 0) (threads s))); [by rewrite sumZ_zero|]. apply sumZ_le. intros t _. apply ind_range. Qed.

(** The goals about the numbers of goroutines, one action at a time. *)
Ltac count_threads :=
  repeat first [rewrite number_add | rewrite number_object | rewrite number_forwards | erewrite number_set by eassumption];
  unfold ind; cbn [kind_of fkind_eqb].

(** The body of [f.close] moves on. *)
Lemma object_replaced s f o o' g og :
  (forall f o, objects s !! f = Some o -> object_ok s f o) -> objects s !! f = Some o ->
  stage_ok o' /\ evolves o o' -> fw_pending o' = fw_pending o ->
  <[f := o']> (objects s) !! g = Some og -> object_ok (set_object f o' s) g og.
Proof.
  intros Hold Ho (Hs & Hk & _ & Hq) Hp [(<- & <- & _)|[Hne Hg]]%list_lookup_insert_Some.
  - destruct (Hold _ _ Ho) as [O1 O2 O3 O4 O5 O6].
    split; rewrite ?number_object, ?Hp; try done. intros Hc. destruct (O6 Hc) as [Hr|]; [left|by right; apply Hq].
    unfold registered in *. by rewrite Hk.
  - destruct (Hold _ _ Hg) as [O1 O2 O3 O4 O5 O6]. by split.
Qed.

Lemma object_ok_ext s1 s2 g og :
  forwards s1 = forwards s2 -> threads s1 = threads s2 -> object_ok s1 g og -> object_ok s2 g og.
Proof. destruct s1, s2. cbn. intros -> ->. by intros [O1 O2 O3 O4 O5 O6]. Qed.

(** An entry that is removed is of no other forward. *)
Lemma still_registered (f g : nat) (o og : forward) (m : gmap forwardKey nat) :
  m !! fw_key o = Some f -> m !! fw_key og = Some g -> f <> g -> delete (fw_key o) m !! fw_key og = Some g.
Proof. intros Hf Hg Hne. rewrite lookup_delete_ne; [done|]. intros E. rewrite E in Hf. congruence. Qed.

Lemma enterClose_pending o : fw_pending (enterClose o) = fw_pending o.
Proof. unfold enterClose. by destruct (fw_stage o). Qed.

(** A channel begins to be opened, and one has been opened. *)
Lemma object_opened s i f o o' g og :
  (forall f o, objects s !! f = Some o -> object_ok s f o) -> objects s !! f = Some o ->
  threads s !! i = Some (TServing f) -> beginOpen o = (true, o') ->
  <[f := o']> (objects s) !! g = Some og -> object_ok (add_thread (TOpening f) (set_object f o' s)) g og.
Proof.
  intros Hold Ho Ht Hb Hg. pose proof (Hold _ _ Ho) as Hf.
  assert (1 <= number KServing f s) by (eapply number_pos; [eassumption|done]).
  pose proof (number_nonneg KStarting f s). pose proof (evolves_beginOpen o (oo_stage _ _ _ Hf)) as [Hs1 _].
  rewrite Hb in Hs1. cbn in Hs1. unfold beginOpen in Hb. destruct (fw_closing o) eqn:Hc; simplify_eq.
  apply list_lookup_insert_Some in Hg as [(<- & <- & _)|[Hne Hg]].
  - destruct Hf as [O1 O2 O3 O4 O5 O6]. split; count_threads; rewrite ?decide_True by done; cbn [fw_pending]; try done; try lia.
    intros _. left. unfold registered. cbn. destruct O6 as [Hr|[Hq _]]; [lia|exact Hr|congruence].
  - destruct (Hold _ _ Hg) as [O1 O2 O3 O4 O5 O6].
    split; unfold registered in *; count_threads; rewrite ?decide_False by done; rewrite ?Z.add_0_r; done.
Qed.

Lemma object_ended s i f o o' g og :
  (forall f o, objects s !! f = Some o -> object_ok s f o) -> objects s !! f = Some o ->
  threads s !! i = Some (TOpening f) -> endOpen o = Some o' ->
  <[f := o']> (objects s) !! g = Some og -> object_ok (set_thread i (TOpened f) (set_object f o' s)) g og.
Proof.
  intros Hold Ho Ht He Hg. pose proof (Hold _ _ Ho) as Hf.
  assert (1 <= number KOpening f s) by (eapply number_pos; [eassumption|done]).
  destruct (evolves_endOpen _ _ He (oo_stage _ _ _ Hf)) as [Hs1 (Hk1 & _ & Hq1)].
  assert (Hp1 : fw_pending o' = fw_pending o - 1) by (unfold endOpen in He; case_match; by simplify_eq/=).
  apply list_lookup_insert_Some in Hg as [(<- & <- & _)|[Hne Hg]].
  - destruct Hf as [O1 O2 O3 O4 O5 O6].
    split; unfold registered in *; count_threads; rewrite ?decide_True by done; rewrite ?Hp1; try done; try lia.
    cbn. rewrite Hk1. intros Hc. destruct O6 as [Hr|]; [lia|by left|right; by apply Hq1].
  - destruct (Hold _ _ Hg) as [O1 O2 O3 O4 O5 O6].
    split; unfold registered in *; count_threads; rewrite ?decide_False by done; rewrite ?Z.add_0_r, ?Z.sub_0_r; done.
Qed.

(** A new forward. *)
Lemma object_registered s k g og :
  (forall f o, objects s !! f = Some o -> object_ok s f o) -> (forall q, number q (length (objects s)) s = 0) ->
  (objects s ++ [newForward k]) !! g = Some og -> object_ok (add_thread (TInsert (length (objects s))) s) g og.
Proof.
  intros Hold Hz [Hg|[Hlen [Hz' <-]%list_lookup_singleton_Some]]%lookup_app_Some.
  - destruct (Hold _ _ Hg) as [O1 O2 O3 O4 O5 O6]. apply lookup_lt_Some in Hg.
    split; unfold registered in *; count_threads; rewrite ?decide_False by lia; rewrite ?Z.add_0_r; done.
  - assert (g = length (objects s)) as -> by lia.
    split; cbn [newForward fw_pending]; count_threads; rewrite ?Hz, ?decide_True by done; try done; lia.
Qed.

Section Step.
Context (a : faction) (s s' : fsystem) (Hi : finv s) (Hx : forward_exec a s = Some s').

Lemma step_evolves f o : objects s !! f = Some o -> exists o', objects s' !! f = Some o' /\ stage_ok o' /\ evolves o o'.
Proof. apply (exec_evolves a s s' Hx). intros g og Hg. exact (oo_stage _ _ _ (fi_object _ Hi g og Hg)). Qed.

Lemma step_map q g : forwards s' !! q = Some g -> exists o, objects s' !! g = Some o /\ fw_key o = q.
Proof.
  assert (Hold : forwards s !! q = Some g -> exists o, objects s' !! g = Some o /\ fw_key o = q).
  { intros Hk. destruct (fi_map _ Hi q g Hk) as (o & Ho & <-). destruct (step_evolves g o Ho) as (o' & Ho' & _ & He & _). eauto. }
  pose proof step_evolves as He. revert Hold He. clear Hi.
  forward_steps a Hx; intros Hold He; try exact Hold.
  - rewrite lookup_insert_Some. intros [[<- <-]|[_ Hk]]; [|auto].
    edestruct He as (o' & Ho' & _ & Hk' & _); [eassumption|]. eauto.
  - rewrite lookup_delete_Some. intros [_ Hk]. auto.
  - rewrite lookup_delete_Some. intros [_ Hk]. auto.
  - rewrite lookup_delete_Some. intros [_ Hk]. auto.
Qed.

Lemma step_thread j u : threads s' !! j = Some u -> thread_ok (objects s') u.
Proof.
  assert (Hold : threads s !! j = Some u -> thread_ok (objects s') u).
  { intros Hj. eapply thread_ok_evolves; [|by eapply (fi_thread _ Hi)].
    intros f o Ho. destruct (step_evolves f o Ho) as (o' & ? & _ & ?). eauto. }
  pose proof step_evolves as He. pose proof (fi_thread _ Hi) as Hth. pose proof (fi_map _ Hi) as Hm.
  assert (Hst : forall f o, objects s !! f = Some o -> stage_ok o) by (intros f o Ho; exact (oo_stage _ _ _ (fi_object _ Hi f o Ho))).
  revert Hold He Hth Hm Hst. clear Hi.
  forward_steps a Hx; intros Hold He Hth Hm Hst; try apply Hold.
  all: repeat first [apply all_snoc | apply all_insert]; try exact Hold; clear Hold.
  all: try done.
  all: try (eapply thread_ok_plain; [reflexivity|eassumption|exact I]).
  all: try match goal with
       | Hj : threads s !! _ = Some _ |- _ => specialize (Hth _ _ Hj); unfold thread_ok in Hth; cbn in Hth; destruct Hth as (o & Ho & Hth)
       end; simplify_eq.
  all: try match goal with E : (fw_pending _ =? 0) = true |- _ => apply Z.eqb_eq in E end.
  all: try (eexists; split; [eassumption|]; cbn; (assumption || (split; [assumption|]; eauto using closed_quiet))).
  all: try match goal with
       | E : objects s !! _ = Some _ |- _ => destruct (He _ _ E) as (o' & Ho' & _); eapply thread_ok_plain; [reflexivity|eassumption|exact I]
       end.
  - eapply thread_ok_plain; [reflexivity|by apply list_lookup_middle|exact I].
  - match goal with E : forwards s !! _ = Some _ |- _ => destruct (Hm _ _ E) as (o & Ho & _) end.
    by eapply thread_ok_plain.
Qed.

(** No goroutine is about a forward that does not exist yet. *)
Lemma number_fresh q g : objects s !! g = None -> number q g s = 0.
Proof.
  intros Hg. apply sumZ_zero. intros t Ht. apply ind_other. intros Hf.
  apply list_elem_of_lookup_1 in Ht as [j Ht]. apply (fi_thread _ Hi) in Ht. unfold thread_ok in Ht. rewrite Hf in Ht.
  destruct Ht as (o & Ho & _). congruence.
Qed.

Lemma step_object g og : objects s' !! g = Some og -> object_ok s' g og.
Proof.
  assert (Hold : forall f o, objects s !! f = Some o -> object_ok s f o) by apply (fi_object _ Hi).
  pose proof (fi_thread _ Hi) as Hth. pose proof number_fresh as Hfresh. pose proof (fun q g => number_nonneg q g s) as Hnn.
  pose proof (fun q f i t => number_pos q f i t s) as Hpos. revert Hold Hth Hfresh Hnn Hpos. clear Hi.
  forward_steps a Hx; intros Hold Hth Hfresh Hnn Hpos.
  all: intros Hg.
  all: try match type of Hg with objects _ !! _ = _ => destruct (Hold _ _ Hg) as [O1 O2 O3 O4 O5 O6] end.
  all: try (match type of Hg with objects _ !! _ = _ => idtac end; split; unfold registered in *; cbn [forwards add_thread set_thread set_forwards set_object] in *; count_threads;
    try match goal with |- context [decide (?x = ?y)] => destruct (decide (x = y)) as [->|Hne] end;
    first [assumption | lia | intros Hc; first [apply O5; lia | apply O6; lia | idtac] | idtac]).
  all: try (eapply object_replaced; [exact Hold|eassumption|apply evolves_enter; by eapply Hold|apply enterClose_pending|exact Hg]).
  - apply (object_ok_ext (add_thread (TInsert (length (objects s))) s)); [done..|].
    eapply object_registered; [exact Hold|intros q; by apply Hfresh, lookup_ge_None|exact Hg].
  - (* the body of close *)
    match goal with E : closeNext ?o = Some _ |- _ =>
      destruct (evolves_next _ _ E) as (? & ? & ? & _); [by eapply Hold|by eapply (object_replaced s _ o)] end.
  - (* insertion *)
    left. by rewrite Hg in Heqo; simplify_eq; rewrite lookup_insert_eq.
  - destruct O6 as [Hr|]; [lia| |by right]. left. rewrite lookup_insert_ne; [done|]. intros E. rewrite E in *. congruence.
  - pose proof (Hnn KAccepted g). lia.
  - (* removal after a failed start *)
    destruct (decide (f = g)) as [->|Hne].
    + assert (1 <= number KRegistering g s) by (eapply Hpos; [eassumption|done]).
      pose proof (Hnn KStarting g). pose proof (Hnn KAccepted g). rewrite O5 in Hc by lia. lia.
    + destruct O6 as [Hr|]; [lia| |by right]. left. by eapply still_registered.
  - by eapply object_opened.
  - (* removal by the worker *)
    destruct (decide (f = g)) as [->|Hne].
    + right. match goal with Hj : threads s !! _ = Some _ |- _ => destruct (Hth _ _ Hj) as (o & Ho & _ & Hq) end. congruence.
    + destruct O6 as [Hr|]; [lia| |by right]. left. by eapply still_registered.
  - by eapply object_ended.
  - (* removal by a cancellation *)
    destruct (decide (f = g)) as [->|Hne].
    + right. match goal with Hj : threads s !! _ = Some _ |- _ => destruct (Hth _ _ Hj) as (o & Ho & _ & Hq) end. congruence.
    + destruct O6 as [Hr|]; [lia| |by right]. left. by eapply still_registered.
Qed.

Lemma finv_step : finv s'.
Proof. split; [exact step_map|exact step_thread|exact step_object]. Qed.
End Step.

Lemma forward_run_finv l s s' : finv s -> forward_run l s = Some s' -> finv s'.
Proof.
  revert s. induction l as [|a l IH]; intros s Hi H; [by simplify_eq/=|]. simpl in H.
  destruct (forward_exec a s) as [s1|] eqn:E; [|done]. apply (IH s1); [by eapply finv_step|done].
Qed.

Lemma number_exists k f s : 0 < number k f s -> exists i t, threads s !! i = Some t /\ kind_of t = Some (f, k).
Proof.
  intros (i & t & Hi & Ht)%sumZ_pos. exists i, t. split; [done|]. unfold ind in Ht.
  destruct (kind_of t) as [[f' k']|]; [|lia]. destruct (fkind_eqb k k') eqn:Ek; [|lia]. case_decide; [subst f'|lia].
  by destruct k, k'.
Qed.

(** A goroutine that has returned. *)
Definition ended (t : fthread) : bool :=
  match t with TRejected _ | TAccepted _ | TServed _ | TOpened _ | TCancelled _ _ | TNotFound | TClosed _ => true | _ => false end.

(** The returns by which a forward has been closed. *)
Definition closed_by (t : fthread) (f : nat) : Prop :=
  t = TRejected f \/ t = TServed f \/ t = TClosed f \/ exists w, t = TCancelled f w.

(** C14. Channels are opened only for the forward that the handler's map has
    under its key, so that no two forwards of a key ever open channels at the
    same time; and once the worker of a forward has ended, or a cancellation
    that waits (that of TCP) has been accepted, no channel is opened for the
    forward, however all goroutines interleave. *)
Theorem forward_exclusive l s i f o :
  forward_run l forward_init = Some s -> threads s !! i = Some (TOpening f) -> objects s !! f = Some o ->
  forwards s !! fw_key o = Some f /\
  (forall j g p, threads s !! j = Some (TOpening g) -> objects s !! g = Some p -> fw_key p = fw_key o -> g = f) /\
  forall j, threads s !! j <> Some (TServed f) /\ threads s !! j <> Some (TCancelled f true).
Proof.
  intros Hr Ht Ho. pose proof (forward_run_finv _ _ _ finv_init Hr) as Hi.
  assert (Hreg : forall j g p, threads s !! j = Some (TOpening g) -> objects s !! g = Some p ->
    fw_pending p >= 1 /\ forwards s !! fw_key p = Some g).
  { intros j g p Hj Hp. destruct (fi_object _ Hi _ _ Hp) as [_ O2 _ _ _ O6].
    assert (1 <= number KOpening g s) by (eapply number_pos; [exact Hj|done]).
    split; [lia|]. destruct O6 as [?|[_ Hq]]; [lia|done|lia]. }
  destruct (Hreg i f o Ht Ho) as [Hp Hm]. split_and!; [done| |].
  - intros j g p Hj Hg Hk. destruct (Hreg j g p Hj Hg) as [_ Hm']. congruence.
  - intros j. split; intros Hj; destruct (fi_thread _ Hi _ _ Hj) as (o' & Ho' & _ & _ & Hq); simplify_eq; lia.
Qed.

(** Closing a forward happens at most once, and completely before any call
    of [f.close] returns: its listener is closed, its slot given back and its
    [done] channel closed no more than once, and exactly once when a rejected
    registration, its worker, a cancellation or another call of close has
    returned; its [WaitGroup] is the number of opens in progress. *)
Theorem forward_closed_once l s f o :
  forward_run l forward_init = Some s -> objects s !! f = Some o ->
  (fw_done_closes o <= 1)%nat /\ (fw_listener_closes o <= 1)%nat /\ (fw_releases o <= 1)%nat /\
  fw_pending o = number KOpening f s /\
  forall i t, threads s !! i = Some t -> closed_by t f ->
    fw_closing o = true /\ fw_done_closes o = 1%nat /\ fw_listener_closes o = 1%nat /\ fw_releases o = 1%nat.
Proof.
  intros Hr Ho. pose proof (forward_run_finv _ _ _ finv_init Hr) as Hi.
  destruct (fi_object _ Hi _ _ Ho) as [O1 O2 _ _ _ _]. unfold stage_ok in O1.
  split_and!; try done; try (destruct (fw_stage o); lia).
  intros i t Ht Hc. apply (fi_thread _ Hi) in Ht.
  assert (Hst : fw_stage o = AllClosed).
  { destruct Hc as [->|[->|[->|[[] ->]]]]; destruct Ht as (o' & Ho' & Hs); simplify_eq; done || apply Hs. }
  by rewrite Hst in O1.
Qed.

(** Nobody waits for ever: a goroutine of the handler that cannot go on
    has returned, or it waits for [f.close], whose next part can run, or for an
    open in progress, which can end (and ends within a second, see
    [OpenChannel]). *)
Theorem forward_waits l s i t :
  forward_run l forward_init = Some s -> threads s !! i = Some t ->
  (forall choice, forward_exec (Run i choice) s = None) ->
  ended t = true \/
  exists f, thread_forward t = Some f /\
    (is_Some (forward_exec (RunClose f) s) \/
     exists j, threads s !! j = Some (TOpening f) /\ forall choice, is_Some (forward_exec (Run j choice) s)).
Proof.
  intros Hr Ht Hn. pose proof (forward_run_finv _ _ _ finv_init Hr) as Hi.
  destruct (ended t) eqn:He; [by left|right].
  assert (Hno : thread_exec i t false s = None) by (specialize (Hn false); simpl in Hn; by rewrite Ht in Hn).
  assert (Hto := fi_thread _ Hi _ _ Ht). unfold thread_ok in Hto.
  destruct (thread_forward t) as [f|] eqn:Hf; [|destruct t; try done; simpl in Hno; by case_match].
  exists f. split; [done|]. destruct Hto as (o & Ho & _). destruct (fi_object _ Hi _ _ Ho) as [O1 O2 _ _ _ _].
  assert (Hclose : forall next, in_close i f o next s = None -> is_Some (forward_exec (RunClose f) s)).
  { intros next. unfold in_close. simpl. rewrite Ho. simpl. destruct o as [k c p [] d x r]; simpl; try done; by eexists. }
  assert (Hrun : forall j, threads s !! j = Some (TOpening f) -> forall choice, is_Some (forward_exec (Run j choice) s)).
  { intros j Hj choice. simpl. rewrite Hj. simpl. rewrite Ho. simpl. unfold endOpen.
    assert (1 <= number KOpening f s) by (eapply number_pos; [exact Hj|done]).
    destruct (Z.ltb_spec (fw_pending o - 1) 0); [lia|]. by eexists. }
  assert (Hwait : (if fw_pending o =? 0 then true else false) = false ->
    exists j, threads s !! j = Some (TOpening f) /\ forall choice, is_Some (forward_exec (Run j choice) s)).
  { destruct (Z.eqb_spec (fw_pending o) 0) as [|Hp]; [done|]. intros _.
    destruct (number_exists KOpening f s) as (j & u & Hj & Hk).
    - destruct (decide (0 < number KOpening f s)) as [|Hz]; [done|]. exfalso. apply Hp. rewrite O2.
      assert (0 <= number KOpening f s); [|lia].
      apply (Z.le_trans _ (sumZ (fun _ => 0) (threads s))); [by rewrite sumZ_zero|]. apply sumZ_le. intros v _. apply ind_range.
    - exists j. assert (u = TOpening f) as -> by (destruct u; simpl in Hk; congruence). auto. }
  destruct t; try discriminate; simpl in Hf; simplify_eq; unfold thread_exec in Hno; cbn in Hno; rewrite Ho in Hno; cbn in Hno;
    try (left; eapply Hclose; exact Hno); try (right; apply Hwait; by destruct (fw_pending o =? 0));
    try (repeat case_match; discriminate).
  right. exists i. auto.
Qed.

(** A forward that is cancelled while a channel is being opened for it. *)
Definition sample_forward_key : forwardKey := mkForwardKey 0 "localhost:8080".
Definition sample_opening : list faction := [Register sample_forward_key; Run 0 true; Run 0 true; Run 1 true].
Definition sample_cancelling : list faction :=
  sample_opening ++ [Cancel sample_forward_key true; Run 3 true; Run 3 true; RunClose 0; RunClose 0; RunClose 0; RunClose 0; Run 3 true].
Definition sample_cancelled : list faction := sample_cancelling ++ [Run 2 true; Run 3 true; Run 3 true].
Definition sample_fstate (l : list faction) : fsystem := default forward_init (forward_run l forward_init).

Lemma forward_example :
  threads (sample_fstate sample_cancelled) = [TAccepted 0; TServing 0; TOpened 0; TCancelled 0 true] /\
  forwards (sample_fstate sample_cancelled) = ∅ /\
  forward_exec (Run 1 true) (sample_fstate sample_cancelled) =
    Some (set_thread 1 (TServeClose 0) (sample_fstate sample_cancelled)).
Proof. by vm_compute. Qed.

Lemma forward_exclusive_witness :
  threads (sample_fstate sample_opening) !! 2%nat = Some (TOpening 0) /\
  forwards (sample_fstate sample_opening) !! sample_forward_key = Some 0%nat.
Proof.
  split; [done|].
  exact (proj1 (forward_exclusive sample_opening (sample_fstate sample_opening) 2 0
                  (mkForward sample_forward_key false 1 NotClosed 0 0 0) eq_refl eq_refl eq_refl)).
Defined.

Lemma forward_closed_once_witness : fw_releases (mkForward sample_forward_key true 0 AllClosed 1 1 1) = 1%nat.
Proof.
  destruct (forward_closed_once sample_cancelled (sample_fstate sample_cancelled) 0
              (mkForward sample_forward_key true 0 AllClosed 1 1 1) eq_refl eq_refl) as (_ & _ & _ & _ & H).
  apply (H 3%nat (TCancelled 0 true)); [done|]. do 3 right. by exists true.
Defined.

Lemma forward_waits_witness :
  ended (TCancelWait 0) = true \/
  exists f, thread_forward (TCancelWait 0) = Some f /\
    (is_Some (forward_exec (RunClose f) (sample_fstate sample_cancelling)) \/
     exists j, threads (sample_fstate sample_cancelling) !! j = Some (TOpening f) /\
       forall choice, is_Some (forward_exec (Run j choice) (sample_fstate sample_cancelling))).
Proof. exact (forward_waits sample_cancelling _ 3 (TCancelWait 0) eq_refl eq_refl ltac:(intros []; reflexivity)). Defined.
