(* ===== verification/ForwardHandlers.v ===== *)
(** ForwardHandlers: the requests of [ForwardedTCPHandler] ([tcpip.go]) and
    [ForwardedUnixHandler] ([streamlocal.go]), branch by branch.

    A handler runs on the state of a connection: the map and the forwards of
    [Forward], the counters of [Limiter], the registry of [Resources] and the
    workers of [Context].  Other goroutines are not interleaved here (see
    [Forward]), except that the connection may be closed while the handler
    waits for a listener. *)
From S2P Require Import Prelude GoErrors Limiter Resources Context Forward Net.
Local Open Scope string_scope.
Local Open Scope Z_scope.
Local Open Scope list_scope.

(** ** State *)

(** Without a registry or workers in its context a handler goes on without
    them.  [listener_closes]: closes of listeners by the handler itself. *)
Record handlerState := mkHandlerState {
  h_forwards : gmap forwardKey nat;
  h_objects : list forward;
  h_counters : gmap nat Z;
  h_resources : option connectionResources;
  h_workers : option connectionWorkers;
  h_serving : list nat;                  (* forwards whose worker has been started *)
  h_listener_closes : nat;
  h_panicked : bool }.

Definition set_h_forwards m (s : handlerState) :=
  mkHandlerState m (h_objects s) (h_counters s) (h_resources s) (h_workers s) (h_serving s) (h_listener_closes s) (h_panicked s).
Definition set_h_objects l (s : handlerState) :=
  mkHandlerState (h_forwards s) l (h_counters s) (h_resources s) (h_workers s) (h_serving s) (h_listener_closes s) (h_panicked s).
Definition set_h_counters c (s : handlerState) :=
  mkHandlerState (h_forwards s) (h_objects s) c (h_resources s) (h_workers s) (h_serving s) (h_listener_closes s) (h_panicked s).
Definition set_h_resources r (s : handlerState) :=
  mkHandlerState (h_forwards s) (h_objects s) (h_counters s) r (h_workers s) (h_serving s) (h_listener_closes s) (h_panicked s).
Definition set_h_workers w l (s : handlerState) :=
  mkHandlerState (h_forwards s) (h_objects s) (h_counters s) (h_resources s) w l (h_listener_closes s) (h_panicked s).
Definition closeListener (s : handlerState) :=
  mkHandlerState (h_forwards s) (h_objects s) (h_counters s) (h_resources s) (h_workers s) (h_serving s)
    (S (h_listener_closes s)) (h_panicked s).
Definition set_h_panicked (s : handlerState) :=
  mkHandlerState (h_forwards s) (h_objects s) (h_counters s) (h_resources s) (h_workers s) (h_serving s) (h_listener_closes s) true.

Inductive fwReply :=
| FwAccept (bindPort : option Z)         (* the payload of remoteForwardSuccess *)
| FwReject (message : string)
| FwError (err : error).

(** A listener, as the handler sees it: the text of its address, if it has one. *)
Record listener := mkListener { listener_addr : option string }.

Section Handlers.
Variable conn : nat.                     (* the ServerConn *)
Variable forwardLimiter : option resourceLimiter.
Variable resource : nat.                 (* the address of a new connectionResource *)
Variable connection_closes : bool.       (* while the handler waits for its listener *)

(** ** Steps the handlers share *)

Definition reserve_slot (s : handlerState) : bool * handlerState :=
  let '(ok, c) := arun (resourceLimiter_reserve_ptr forwardLimiter) (h_counters s) in (ok, set_h_counters c s).
Definition release_slot (s : handlerState) : handlerState :=
  set_h_counters (snd (arun (resourceLimiter_release_ptr forwardLimiter) (h_counters s))) s.

(** The whole body of [f.close]; [onClose] is the release of the slot. *)
Definition close_body (o : forward) : forward :=
  Nat.iter 4 (fun o => default o (closeNext o)) (enterClose o).
Definition closeForward (f : nat) (s : handlerState) : handlerState :=
  match h_objects s !! f with
  | Some o =>
      match fw_stage o with
      | NotClosed => release_slot (set_h_objects (<[f := close_body o]> (h_objects s)) s)
      | _ => s
      end
  | None => s
  end.

Definition begin_acquisition (s : handlerState) : option handlerState :=
  match h_resources s with
  | None => Some s
  | Some r => match beginAcquisition r with Some r => Some (set_h_resources (Some r) s) | None => None end
  end.

(** [finishAcquisition(f.close)], or [finishAcquisition(nil)]. *)
Definition finish_acquisition (close : option nat) (s : handlerState) : handlerState :=
  match h_resources s with
  | None => s
  | Some r =>
      let '(r, registered, call) := finish_insert resource (if close is Some _ then true else false) r in
      let s := set_h_resources (Some r) s in
      let s := match close with Some f => if call : bool then closeForward f s else s | None => s end in
      match finish_done r with
      | Some r => set_h_resources (Some r) s
      | None => set_h_panicked s
      end
  end.

Definition unregister_resource (s : handlerState) : handlerState :=
  match h_resources s with None => s | Some r => set_h_resources (Some (unregister resource r)) s end.

Definition start_worker (f : nat) (s : handlerState) : bool * handlerState :=
  match h_workers s with
  | None => (true, set_h_workers None (h_serving s ++ [f]) s)
  | Some w =>
      let '(ok, w) := goRun w in
      (ok, set_h_workers (Some w) (if ok then h_serving s ++ [f] else h_serving s) s)
  end.

Definition remove_forward (key : forwardKey) (f : nat) (s : handlerState) : handlerState :=
  if decide (h_forwards s !! key = Some f) then set_h_forwards (delete key (h_forwards s)) s else s.

(** What may happen during a call of the application or the system. *)
Definition meanwhile (s : handlerState) : handlerState :=
  if connection_closes
  then set_h_workers (match h_workers s with Some w => Some (closeAndWait w) | None => None end) (h_serving s)
         (set_h_resources (match h_resources s with Some r => Some (fst (closeAll_begin r)) | None => None end) s)
  else s.

(** The clean-up of a request that fails after it has got its slot. *)
Definition abandon (close_listener : bool) (s : handlerState) : handlerState :=
  release_slot (finish_acquisition None (if close_listener then closeListener s else s)).

(** From [newForward] to the reply. *)
Definition register_forward (key : forwardKey) (s : handlerState) : bool * handlerState :=
  let f := length (h_objects s) in
  let s := set_h_objects (h_objects s ++ [newForward key]) s in
  let s := finish_acquisition (Some f) s in
  match h_forwards s !! key with
  | Some _ => (false, closeForward f (unregister_resource s))
  | None =>
      let s := set_h_forwards (<[key := f]> (h_forwards s)) s in
      let '(started, s) := start_worker f s in
      if started : bool then (true, s)
      else (false, closeForward f (remove_forward key f (unregister_resource s)))
  end.

(** ** [ForwardedTCPHandler] *)

Definition errListener (text : string) (err : error) : fwReply :=
  FwError (locateError ErrorScopeForwarding ErrorOperationListen (ErrWrap text err)).

(** The port a listener is bound to. *)
Definition listener_port (l : listener) : error + Z :=
  match listener_addr l with
  | None => inl (ErrNew 81 "listener returned no address")
  | Some addr =>
      match SplitHostPort addr with
      | inl e => inl (ErrNew 82 e)
      | inr (_, port) =>
          match ParseUint16 port with
          | None => inl (ErrNew 83 "strconv.ParseUint")
          | Some p => if p =? 0 then inl (ErrNew 84 "listener has no bound port") else inr p
          end
      end
  end.

Section TCP.
Variable reversePortForwardingCallback : option (string -> Z -> bool * option error).
Variable listenCallback : option (string -> Z -> option listener * option error).
Variable net_Listen : string -> option listener * option error.   (* net.ListenConfig.Listen *)

Definition tcp_key (bindAddr : string) (port : Z) : forwardKey :=
  mkForwardKey conn (JoinHostPort bindAddr (FormatUint port)).

(** [tcpip-forward], with the payload as [gossh.Unmarshal] parses it. *)
Definition tcpip_forward (payload : error + (string * Z)) (s : handlerState) : fwReply * handlerState :=
  match payload with
  | inl e => (FwError (locateError ErrorScopeRequest ErrorOperationParse (ErrWrap "parse tcpip-forward request" e)), s)
  | inr (bindAddr, bindPort) =>
      match reversePortForwardingCallback with
      | None => (FwReject "port forwarding is disabled", s)
      | Some callback =>
          match callback bindAddr bindPort with
          | (_, Some e) =>
              (FwError (locateError ErrorScopeForwarding ErrorOperationHandle (ErrWrap "authorize tcpip-forward" e)), s)
          | (false, None) => (FwReject "port forwarding is disabled", s)
          | (true, None) =>
              let '(ok, s) := reserve_slot s in
              if negb ok then (FwReject "too many reverse port forwards", s)
              else
                let addr := JoinHostPort bindAddr (FormatUint bindPort) in
                match begin_acquisition s with
                | None => (FwReject "", release_slot s)
                | Some s =>
                    let '(ln, err) := match listenCallback with Some f => f bindAddr bindPort | None => net_Listen addr end in
                    let s := meanwhile s in
                    match err, ln with
                    | Some e, _ => (errListener addr e, abandon (if ln is Some _ then true else false) s)
                    | None, None => (errListener addr (ErrNew 85 "callback returned no listener"), abandon false s)
                    | None, Some l =>
                        match listener_port l with
                        | inl e => (errListener addr e, abandon true s)
                        | inr destPort =>
                            if negb (bindPort =? 0) && negb (bindPort =? destPort)
                            then (errListener addr (ErrNew 86 "listener bound unexpected port"), abandon true s)
                            else
                              let '(started, s) := register_forward (tcp_key bindAddr destPort) s in
                              (if started then FwAccept (Some destPort) else FwReject "", s)
                        end
                    end
                end
          end
      end
  end.

(** [cancel-tcpip-forward]; the wait for pending opens is in [Forward]. *)
Definition cancel_tcpip_forward (payload : error + (string * Z)) (s : handlerState) : fwReply * handlerState :=
  match payload with
  | inl e => (FwError (locateError ErrorScopeRequest ErrorOperationParse (ErrWrap "parse cancel-tcpip-forward request" e)), s)
  | inr (bindAddr, bindPort) =>
      let key := tcp_key bindAddr bindPort in
      match h_forwards s !! key with
      | Some f => (FwAccept None, remove_forward key f (closeForward f s))
      | None => (FwReject "", s)
      end
  end.
End TCP.

(** ** [ForwardedUnixHandler] *)
Section Unix.
Variable denied : error.                 (* ErrServerPermissionDenied *)
Variable reverseUnixForwardingCallback : option (string -> option listener * option error).

Definition streamlocal_forward (payload : error + string) (s : handlerState) : fwReply * handlerState :=
  match payload with
  | inl e => (FwError (locateError ErrorScopeRequest ErrorOperationParse (ErrWrap "parse streamlocal-forward request" e)), s)
  | inr socketPath =>
      match reverseUnixForwardingCallback with
      | None => (FwReject "", s)
      | Some callback =>
          let key := mkForwardKey conn socketPath in
          match h_forwards s !! key with
          | Some _ => (FwReject "", s)
          | None =>
              let '(ok, s) := reserve_slot s in
              if negb ok then (FwReject "", s)
              else
                match begin_acquisition s with
                | None => (FwReject "", release_slot s)
                | Some s =>
                    let '(ln, err) := callback socketPath in
                    let s := meanwhile s in
                    match err, ln with
                    | Some e, _ =>
                        (if errors_Is (Some e) (Some denied) then FwReject "" else errListener socketPath e, abandon false s)
                    | None, None => (errListener socketPath (ErrNew 85 "callback returned no listener"), abandon false s)
                    | None, Some _ =>
                        let '(started, s) := register_forward key s in
                        (if started then FwAccept None else FwReject "", s)
                    end
                end
          end
      end
  end.

(** [cancel-streamlocal-forward]: the entry stays until the worker ends. *)
Definition cancel_streamlocal_forward (payload : error + string) (s : handlerState) : fwReply * handlerState :=
  match payload with
  | inl e => (FwError (locateError ErrorScopeRequest ErrorOperationParse (ErrWrap "parse cancel-streamlocal-forward request" e)), s)
  | inr socketPath =>
      match h_forwards s !! mkForwardKey conn socketPath with
      | Some f => (FwAccept None, closeForward f s)
      | None => (FwReject "", s)
      end
  end.
End Unix.
End Handlers.

(** [HandleSSHRequest]: what both handlers check first, and the types of requests. *)
Definition handle_request (nil_argument no_context : bool) (conn : option nat) (error : fwReply)
    (handle : nat -> handlerState -> fwReply * handlerState) (s : handlerState) : fwReply * handlerState :=
  if nil_argument then (error, s)
  else if no_context then (FwReject "missing server connection context", s)
  else match conn with None => (FwReject "missing server connection context", s) | Some conn => handle conn s end.

Definition tcp_HandleSSHRequest nil_argument no_context conn forwardLimiter resource connection_closes callback listenCallback net_Listen
    (type : string) (payload : error + (string * Z)) : handlerState -> fwReply * handlerState :=
  handle_request nil_argument no_context conn (FwError (ErrNew 87 "ssh: missing TCP forwarding request handler state"))
    (fun conn s =>
       if bool_decide (type = "tcpip-forward")
       then tcpip_forward conn forwardLimiter resource connection_closes callback listenCallback net_Listen payload s
       else if bool_decide (type = "cancel-tcpip-forward") then cancel_tcpip_forward conn forwardLimiter payload s
       else (FwReject "", s)).

Definition unix_HandleSSHRequest nil_argument no_context conn forwardLimiter resource connection_closes denied callback
    (type : string) (payload : error + string) : handlerState -> fwReply * handlerState :=
  handle_request nil_argument no_context conn (FwError (ErrNew 88 "ssh: missing streamlocal forwarding request handler state"))
    (fun conn s =>
       if bool_decide (type = "streamlocal-forward@openssh.com")
       then streamlocal_forward conn forwardLimiter resource connection_closes denied callback payload s
       else if bool_decide (type = "cancel-streamlocal-forward@openssh.com")
       then cancel_streamlocal_forward conn forwardLimiter payload s
       else (FwReject "", s)).

(** ** What a request may leave behind *)

Definition limiter_counters (l : option resourceLimiter) : list nat := match l with Some l => counters l | None => [] end.
Definition limiter_ok (l : option resourceLimiter) : Prop := NoDup (limiter_counters l).
Definition slot_room (l : option resourceLimiter) (st : gmap nat Z) : bool :=
  match l with Some l => has_room l st | None => true end.

Definition pending_acquisitions (s : handlerState) : Z :=
  match h_resources s with Some r => pendingAcquisitions r | None => 0 end.
Definition held_resources (s : handlerState) : gset nat :=
  match h_resources s with Some r => resources r | None => ∅ end.
(** The closes of listeners, by the handler and by [f.close]. *)
Definition listeners_closed (s : handlerState) : Z :=
  Z.of_nat (h_listener_closes s) + sumZ (fun o => Z.of_nat (fw_listener_closes o)) (h_objects s).

(** A connection that may take a request: nothing is closed half-way. *)
Record handler_ok (resource : nat) (s : handlerState) : Prop := mkHandlerOk {
  ho_panicked : h_panicked s = false;
  ho_resources : match h_resources s with
                 | None => True
                 | Some r => 0 <= pendingAcquisitions r /\ (resource ∉ resources r) /\
                             (closed r = false -> acquisitionsDrained r = false /\ drainedClosed r = false)
                 end }.

(** The registry of a connection that was open has been closed, or it is as it
    was but for [added]. *)
Definition registry_kept (added : gset nat) (s s' : handlerState) : Prop :=
  match h_resources s, h_resources s' with
  | None, None => True
  | Some r, Some r' => closed r' = true \/
      (closed r = false /\ closed r' = false /\ resources r' = added ∪ resources r /\
       acquisitionsDrained r' = acquisitionsDrained r /\ drainedClosed r' = drainedClosed r)
  | _, _ => False
  end.

(** A forward that has been closed. *)
Definition closed_forward (o : forward) : Prop := fw_stage o = AllClosed /\ fw_listener_closes o = 1%nat.

(** A request that is not granted leaves nothing behind, and [obtained]
    listeners have been closed; a forward that was made in between is closed. *)
Record undone (obtained : Z) (s s' : handlerState) : Prop := mkUndone {
  un_forwards : h_forwards s' = h_forwards s;
  un_counters : forall c, load (h_counters s') c = load (h_counters s) c;
  un_serving : h_serving s' = h_serving s;
  un_pending : pending_acquisitions s' = pending_acquisitions s;
  un_resources : held_resources s' ⊆ held_resources s;
  un_registry : registry_kept ∅ s s';
  un_objects : exists l, h_objects s' = h_objects s ++ l /\ Forall closed_forward l;
  un_listeners : listeners_closed s' = listeners_closed s + obtained;
  un_panicked : h_panicked s' = false }.

(** A request that is granted: its forward is new, in the map under its key and
    served; it holds a slot and is registered, unless it has been closed already. *)
Record granted (l : option resourceLimiter) (resource : nat) (key : forwardKey) (s s' : handlerState) : Prop := mkGranted {
  gr_free : h_forwards s !! key = None;
  gr_forwards : h_forwards s' = <[key := length (h_objects s)]> (h_forwards s);
  gr_serving : h_serving s' = h_serving s ++ [length (h_objects s)];
  gr_pending : pending_acquisitions s' = pending_acquisitions s;
  gr_object : exists o, h_objects s' = h_objects s ++ [o] /\ fw_key o = key /\
    ((fw_stage o = NotClosed /\ fw_listener_closes o = 0%nat /\ (forall c, load (h_counters s') c = load (h_counters s) c + cnt c (limiter_counters l)) /\
      listeners_closed s' = listeners_closed s /\
      (h_resources s <> None -> held_resources s' = {[resource]} ∪ held_resources s) /\ registry_kept {[resource]} s s' /\
      (forall r, h_resources s' = Some r -> closed r = false)) \/
     (closed_forward o /\ (forall c, load (h_counters s') c = load (h_counters s) c) /\
      listeners_closed s' = listeners_closed s + 1 /\ (exists r, h_resources s' = Some r /\ closed r = true /\ resources r = ∅)));
  gr_panicked : h_panicked s' = false }.

(** ** Laws of the steps *)
Section HandlerLaws.
Variable conn : nat.
Variable forwardLimiter : option resourceLimiter.
Variable resource : nat.
Variable connection_closes : bool.
Hypothesis Hlimiter : limiter_ok forwardLimiter.

Lemma reserve_slot_spec s :
  exists c, reserve_slot forwardLimiter s = (slot_room forwardLimiter (h_counters s), set_h_counters c s) /\
    forall x, load c x = load (h_counters s) x + (if slot_room forwardLimiter (h_counters s) then cnt x (limiter_counters forwardLimiter) else 0).
Proof.
  unfold reserve_slot, slot_room, limiter_ok, limiter_counters in *. destruct forwardLimiter as [l|]; simpl.
  - destruct (reserve_run l (h_counters s) Hlimiter) as [Hb Hl]. destruct (arun _ _) as [ok c]. simpl in *. subst ok. by exists c.
  - exists (h_counters s). split; [done|]. intros x. unfold cnt. simpl. lia.
Qed.

Lemma release_slot_spec s :
  exists c, release_slot forwardLimiter s = set_h_counters c s /\
    forall x, load c x = load (h_counters s) x - cnt x (limiter_counters forwardLimiter).
Proof.
  unfold release_slot, limiter_counters. eexists. split; [done|]. intros x. destruct forwardLimiter as [l|]; simpl.
  - apply release_run.
  - unfold cnt. simpl. lia.
Qed.

(** The registry while an acquisition is in progress. *)
Definition acquired (s s1 : handlerState) : Prop :=
  match h_resources s, h_resources s1 with
  | None, None => True
  | Some r, Some r1 =>
      0 <= pendingAcquisitions r /\ pendingAcquisitions r1 = pendingAcquisitions r + 1 /\
      (resource ∉ resources r1) /\
      ((closed r = false /\ closed r1 = false /\ resources r1 = resources r /\
        acquisitionsDrained r1 = acquisitionsDrained r /\ drainedClosed r1 = drainedClosed r) \/
       (closed r1 = true /\ acquisitionsDrained r1 = true /\ drainedClosed r1 = false /\ resources r1 = ∅))
  | _, _ => False
  end.

(** The state while the handler holds a slot and an acquisition. *)
Record holding (s s1 : handlerState) : Prop := mkHolding {
  hd_counters : forall c, load (h_counters s1) c = load (h_counters s) c + cnt c (limiter_counters forwardLimiter);
  hd_forwards : h_forwards s1 = h_forwards s;
  hd_objects : h_objects s1 = h_objects s;
  hd_serving : h_serving s1 = h_serving s;
  hd_closes : h_listener_closes s1 = h_listener_closes s;
  hd_panicked : h_panicked s1 = false;
  hd_resources : acquired s s1 }.

Lemma holding_begin s c :
  handler_ok resource s ->
  (forall x, load c x = load (h_counters s) x + cnt x (limiter_counters forwardLimiter)) ->
  match begin_acquisition (set_h_counters c s) with
  | Some s1 => holding s (meanwhile connection_closes s1)
  | None => match h_resources s with Some r => closed r = true | None => False end
  end.
Proof.
  intros [Hp Hr] Hc. unfold begin_acquisition, beginAcquisition, meanwhile. cbn.
  destruct (h_resources s) as [r|] eqn:Er; cbn.
  - destruct Hr as (Hpos & Hfresh & Hdr). destruct (closed r) eqn:Ecl; [done|]. destruct (Hdr eq_refl) as [Ha Hd].
    destruct connection_closes; split; cbn; try done; unfold acquired; cbn; rewrite ?Er; unfold closeAll_begin; cbn; rewrite ?Ecl; cbn.
    + split_and!; [done|done|set_solver|]. right. rewrite (proj2 (Z.ltb_lt _ _)) by lia. done.
    + split_and!; try done. left. by split_and!.
  - destruct connection_closes; split; cbn; try done; unfold acquired; cbn; by rewrite Er.
Qed.

(** [finishAcquisition(nil)]. *)
Lemma finish_nil s s1 :
  acquired s s1 ->
  exists r, finish_acquisition forwardLimiter resource None s1 = set_h_resources r s1 /\
    pending_acquisitions (set_h_resources r s1) = pending_acquisitions s /\
    held_resources (set_h_resources r s1) ⊆ held_resources s /\ registry_kept ∅ s (set_h_resources r s1).
Proof.
  unfold acquired, finish_acquisition, finish_insert, finish_done, pending_acquisitions, held_resources, registry_kept.
  destruct (h_resources s) as [r|], (h_resources s1) as [r1|] eqn:E1; try done; cbn.
  - intros (Hpos & Hpend & _ & [(Hc0 & Hc & Hs & Ha & Hd)|(Hc & Ha & Hd & Hs)]); rewrite Hc; cbn; rewrite Hc; cbn.
    + eexists. split; [done|]. cbn. rewrite Hs. split_and!; [lia|set_solver|]. right. split_and!; [done..|set_solver|done|done].
    + rewrite Ha, Hd. destruct (pendingAcquisitions r1 - 1 =? 0); cbn; (eexists; split; [done|]; cbn; rewrite Hs; split_and!; [lia|set_solver|by left]).
  - intros _. exists None. split; [destruct s1; cbn in E1; by subst|done].
Qed.

Lemma abandon_undone s s1 (close_listener : bool) :
  holding s s1 -> undone (if close_listener then 1 else 0) s (abandon forwardLimiter resource close_listener s1).
Proof.
  intros [Hc Hf Ho Hs Hl Hp Hr]. unfold abandon. set (s2 := if close_listener then closeListener s1 else s1).
  destruct (finish_nil s s2) as (r & -> & Hpend & Hheld & Hreg); [subst s2; by destruct close_listener|].
  destruct (release_slot_spec (set_h_resources r s2)) as (c & -> & Hrel).
  split; try done; subst s2; try (by destruct close_listener).
  - intros x. cbn in *. rewrite Hrel. destruct close_listener; cbn; rewrite Hc; lia.
  - exists []. rewrite app_nil_r. by destruct close_listener.
  - unfold listeners_closed. destruct close_listener; cbn -[sumZ Z.of_nat]; rewrite Ho, Hl; lia.
Qed.

(** [f.close] of a forward that is open. *)
Lemma closeForward_open f o s :
  h_objects s !! f = Some o -> fw_stage o = NotClosed ->
  exists c, closeForward forwardLimiter f s = set_h_counters c (set_h_objects (<[f := close_body o]> (h_objects s)) s) /\
    forall x, load c x = load (h_counters s) x - cnt x (limiter_counters forwardLimiter).
Proof.
  intros Ho Hs. unfold closeForward. rewrite Ho, Hs.
  destruct (release_slot_spec (set_h_objects (<[f := close_body o]> (h_objects s)) s)) as (c & E & Hc). exists c. split; [exact E|exact Hc].
Qed.

Lemma close_new key : close_body (newForward key) = mkForward key true 0 AllClosed 1 1 1.
Proof. done. Qed.

(** The new forward, which is open or has been closed by the end of the
    connection. *)
Definition entered (key : forwardKey) (s s1 : handlerState) : Prop :=
  exists o, h_objects s1 = h_objects s ++ [o] /\ fw_key o = key /\
    h_forwards s1 = h_forwards s /\ h_serving s1 = h_serving s /\ h_listener_closes s1 = h_listener_closes s /\
    h_panicked s1 = false /\ pending_acquisitions s1 = pending_acquisitions s /\
    ((o = newForward key /\ (forall c, load (h_counters s1) c = load (h_counters s) c + cnt c (limiter_counters forwardLimiter)) /\
      held_resources s1 = (if h_resources s is Some _ then {[resource]} ∪ held_resources s else held_resources s) /\
      registry_kept {[resource]} s s1 /\ (forall r, h_resources s1 = Some r -> closed r = false) /\ (resource ∉ held_resources s)) \/
     (o = mkForward key true 0 AllClosed 1 1 1 /\ (forall c, load (h_counters s1) c = load (h_counters s) c) /\ held_resources s1 = ∅ /\
      h_resources s <> None /\ (exists r, h_resources s1 = Some r /\ closed r = true /\ resources r = ∅))).

Lemma finish_entered key s s1 :
  holding s s1 ->
  entered key s (finish_acquisition forwardLimiter resource (Some (length (h_objects s1)))
                   (set_h_objects (h_objects s1 ++ [newForward key]) s1)).
Proof.
  intros [Hc Hf Ho Hs Hl Hp Hr]. unfold entered, finish_acquisition, pending_acquisitions, held_resources, acquired, registry_kept in *. cbn.
  destruct (h_resources s) as [r|], (h_resources s1) as [r1|] eqn:E1; try done; cbn.
  - destruct Hr as (Hpos & Hpend & Hfresh & [(Hcl0 & Hcl & Hse & Ha & Hd)|(Hcl & Ha & Hd & Hse)]); unfold finish_insert; rewrite Hcl; cbn.
    + exists (newForward key). unfold finish_done. cbn. rewrite ?Hcl. cbn. rewrite Ho, Hf, Hs, Hl, Hse. split_and!; try done; [lia|]. left. split_and!; try done; [|by intros r2 [= <-]|by rewrite <- Hse].
      right. by split_and!.
    + set (s2 := set_h_resources _ _).
      destruct (closeForward_open (length (h_objects s1)) (newForward key) s2) as (c & -> & Hrel);
        [by apply list_lookup_middle|done|].
      exists (mkForward key true 0 AllClosed 1 1 1). unfold finish_done. cbn. rewrite Hcl, Ha, Hd.
      destruct (pendingAcquisitions r1 - 1 =? 0); cbn; rewrite insert_app_r_alt, Nat.sub_diag by lia; cbn;
        rewrite Ho, Hf, Hs, Hl, Hse; (split_and!; try done; [lia|]); right; (split_and!; [done| |done|done|by eexists]); intros x; rewrite Hrel; cbn; rewrite Hc; lia.
  - exists (newForward key). rewrite Ho, E1. split_and!; try done. left. split_and!; try done; set_solver.
Qed.

Lemma listeners_closed_snoc s s1 o :
  h_objects s1 = h_objects s ++ [o] -> h_listener_closes s1 = h_listener_closes s ->
  listeners_closed s1 = listeners_closed s + Z.of_nat (fw_listener_closes o).
Proof. unfold listeners_closed. intros -> ->. rewrite sumZ_app. simpl. lia. Qed.

(** A forward that is given up right after it was made. *)
Lemma close_entered key s s1 :
  entered key s s1 ->
  undone 1 s (closeForward forwardLimiter (length (h_objects s)) (unregister_resource resource s1)).
Proof.
  intros (o & Ho & Hk & Hf & Hs & Hl & Hp & Hpend & Hcase).
  assert (Hun : exists r, unregister_resource resource s1 = set_h_resources r s1 /\
    pending_acquisitions (set_h_resources r s1) = pending_acquisitions s1 /\
    held_resources (set_h_resources r s1) = held_resources s1 ∖ {[resource]} /\
    forall y, h_resources y = r -> registry_kept ∅ s y).
  { unfold unregister_resource, pending_acquisitions, held_resources, registry_kept in *. destruct (h_resources s1) as [r|] eqn:E.
    - eexists. split_and!; [done..|]. intros y ->. cbn.
      destruct Hcase as [(_ & _ & _ & Hreg & Hop & Hfr)|(_ & _ & _ & Hn & r2 & [= <-] & Hcl & _)].
      + destruct (h_resources s) as [r0|]; [|done]. destruct Hreg as [Hreg|(H1 & H2 & H3 & H4 & H5)]; [by left|right].
        split_and!; [done..| |done|done]. rewrite H3. set_solver.
      + destruct (h_resources s); [by left|done].
    - exists None. split_and!; [destruct s1; cbn in E; by subst|done|cbn; set_solver|]. intros y ->.
      destruct Hcase as [(_ & _ & _ & Hreg & _)|(_ & _ & _ & _ & r2 & H2 & _)]; by destruct (h_resources s). }
  destruct Hun as (r & -> & Hpr & Hhr & Hkept).
  assert (Hin : h_objects (set_h_resources r s1) !! length (h_objects s) = Some o) by (cbn; rewrite Ho; by apply list_lookup_middle).
  assert (Hheld : held_resources s1 ∖ {[resource]} ⊆ held_resources s).
  { destruct Hcase as [(_ & _ & Hh & _)|(_ & _ & Hh & _)]; rewrite Hh; [destruct (h_resources s)|]; set_solver. }
  destruct Hcase as [(-> & Hc & _)|(-> & Hc & _)].
  - destruct (closeForward_open _ _ _ Hin eq_refl) as (c & -> & Hrel). rewrite close_new.
    split; cbn -[sumZ Z.of_nat]; try done.
    + intros x. rewrite Hrel. cbn. rewrite Hc. lia.
    + by rewrite <- Hpend, <- Hpr.
    + by rewrite <- Hhr in Hheld.
    + by apply Hkept.
    + exists [close_body (newForward key)]. split; [|by constructor]. rewrite Ho, insert_app_r_alt, Nat.sub_diag by lia. done.
    + rewrite (listeners_closed_snoc s _ (close_body (newForward key))); [done| |done].
      cbn -[close_body]. rewrite Ho, insert_app_r_alt, Nat.sub_diag by lia. done.
  - unfold closeForward. rewrite Hin. cbn [fw_stage]. split; try done.
    + by rewrite <- Hpend, <- Hpr.
    + by rewrite <- Hhr in Hheld.
    + by apply Hkept.
    + eexists. split; [exact Ho|by constructor].
    + by erewrite (listeners_closed_snoc s); [|exact Ho|exact Hl].
Qed.

(** A forward whose worker has been started. *)
Lemma entered_granted key s s3 w :
  entered key s s3 -> h_forwards s3 !! key = None ->
  granted forwardLimiter resource key s
    (set_h_workers w (h_serving s3 ++ [length (h_objects s)])
       (set_h_forwards (<[key := length (h_objects s)]> (h_forwards s3)) s3)).
Proof.
  intros (o & Ho & Hko & Hf & Hs & Hl & Hp & Hpend & Hcase) Hk. split; cbn; try (by rewrite ?Hf, ?Hs); try done.
  { by rewrite <- Hf. }
  exists o. split_and!; [done..|]. destruct Hcase as [(-> & Hc & Hr & Hreg & Hop & _)|(-> & Hc & _ & _ & Hcl)]; [left|right]; split_and!; try done.
  - erewrite listeners_closed_snoc; [|exact Ho|exact Hl]. cbn. lia.
  - intros Hn. change (held_resources s3 = {[resource]} ∪ held_resources s). rewrite Hr. by destruct (h_resources s).
  - erewrite listeners_closed_snoc; [|exact Ho|exact Hl]. done.
Qed.

Lemma register_forward_spec key s s1 :
  holding s s1 ->
  let '(ok, s2) := register_forward forwardLimiter resource key s1 in
  if ok then granted forwardLimiter resource key s s2 else undone 1 s s2.
Proof.
  intros Hh. pose proof (finish_entered key s s1 Hh) as He. unfold register_forward.
  rewrite (hd_objects _ _ Hh) in *. set (s3 := finish_acquisition _ _ _ _) in *. clearbody s3.
  assert (Hf3 : h_forwards s3 = h_forwards s) by (by destruct He as (o & _ & _ & ? & _)).
  destruct (h_forwards s3 !! key) eqn:Hk; [by eapply close_entered|].
  unfold start_worker. cbn. destruct (h_workers s3) as [w|] eqn:Ew; cbn; [unfold goRun; destruct (workers_closed w)|].
  - (* no worker *)
    set (s4 := set_h_workers (Some w) (h_serving s3) s3).
    assert (He4 : entered key s s4) by (destruct He as (o & He); exists o; exact He).
    replace (remove_forward _ _ _) with (unregister_resource resource s4); [by eapply close_entered|].
    unfold remove_forward, unregister_resource. cbn. destruct (h_resources s3); cbn;
      rewrite decide_True by apply lookup_insert_eq; unfold set_h_forwards; cbn; by rewrite delete_insert_id.
  - by apply (entered_granted key s s3 (Some _)).
  - by apply (entered_granted key s s3 None).
Qed.

Lemma registry_kept_refl s s' : h_resources s' = h_resources s -> registry_kept ∅ s s'.
Proof using Type.
  unfold registry_kept. intros ->. destruct (h_resources s) as [r|]; [|done]. destruct (closed r); [by left|right].
  split_and!; try done. by rewrite (left_id_L ∅ (∪)).
Qed.

Lemma undone_refl s : h_panicked s = false -> undone 0 s s.
Proof. intros Hp. split; try done; [by apply registry_kept_refl|by exists []; rewrite app_nil_r|lia]. Qed.

(** A slot that was taken and given back. *)
Lemma undone_slot s c :
  h_panicked s = false -> slot_room forwardLimiter (h_counters s) = true ->
  (forall x, load c x = load (h_counters s) x + cnt x (limiter_counters forwardLimiter)) ->
  undone 0 s (release_slot forwardLimiter (set_h_counters c s)).
Proof.
  intros Hp _ Hc. destruct (release_slot_spec (set_h_counters c s)) as (c' & -> & Hr). split; try done.
  - intros x. cbn. rewrite Hr. cbn. rewrite Hc. lia.
  - by apply registry_kept_refl.
  - exists []. by rewrite app_nil_r.
  - unfold listeners_closed. cbn -[sumZ Z.of_nat]. lia.
Qed.

(** ** The slot and the acquisition of a request

    What a handler does before and after it asks for its listener. *)
Lemma request_cases s :
  handler_ok resource s ->
  exists ok c, reserve_slot forwardLimiter s = (ok, set_h_counters c s) /\
    ok = slot_room forwardLimiter (h_counters s) /\
    if ok : bool then
      match begin_acquisition (set_h_counters c s) with
      | None => undone 0 s (release_slot forwardLimiter (set_h_counters c s)) /\
                match h_resources s with Some r => closed r = true | None => False end
      | Some s1 => holding s (meanwhile connection_closes s1) /\
                   match h_resources s with Some r => closed r = false | None => True end
      end
    else undone 0 s (set_h_counters c s).
Proof.
  intros Hok. destruct (reserve_slot_spec s) as (c & Hres & Hc). exists (slot_room forwardLimiter (h_counters s)), c.
  split_and!; [done..|]. destruct (slot_room _ _) eqn:Hroom.
  - pose proof (holding_begin s c Hok Hc) as Hb. unfold begin_acquisition, beginAcquisition in *. cbn in *.
    destruct (h_resources s) as [r|] eqn:Er; [destruct (closed r) eqn:Ecl|]; cbn in *; try done.
    split; [|done]. apply undone_slot; [by destruct Hok|done|done].
  - destruct Hok. split; try done.
    + intros x. cbn. rewrite Hc. lia.
    + by apply registry_kept_refl.
    + exists []. by rewrite app_nil_r.
    + unfold listeners_closed. cbn -[sumZ Z.of_nat]. lia.
Qed.
End HandlerLaws.

Lemma listener_port_bounds l p : listener_port l = inr p -> 0 < p <= 65535.
Proof.
  unfold listener_port. destruct (listener_addr l) as [addr|]; [|done]. destruct (SplitHostPort addr) as [|[h port]]; [done|].
  destruct (ParseUint16 port) as [n|] eqn:E; [|done]. apply ParseUint16_bounds in E.
  destruct (Z.eqb_spec n 0); [done|]. intros [= <-]. lia.
Qed.

(** The connection can still take on something that has to be closed. *)
Definition can_acquire (s : handlerState) : bool := match h_resources s with Some r => negb (closed r) | None => true end.

Section TCPLaws.
Variable conn : nat.
Variable forwardLimiter : option resourceLimiter.
Variable resource : nat.
Variable connection_closes : bool.
Variable callback : option (string -> Z -> bool * option error).
Variable listenCallback : option (string -> Z -> option listener * option error).
Variable net_Listen : string -> option listener * option error.

(** What a request makes the handler ask the system or the application for. *)
Definition tcp_listen (payload : error + (string * Z)) (s : handlerState) : option (option listener * option error) :=
  match payload, callback with
  | inr (addr, port), Some cb =>
      if bool_decide (cb addr port = (true, None)) && slot_room forwardLimiter (h_counters s) && can_acquire s
      then Some (match listenCallback with Some f => f addr port | None => net_Listen (JoinHostPort addr (FormatUint port)) end)
      else None
  | _, _ => None
  end.

Definition obtained_listener (r : option (option listener * option error)) : Z :=
  match r with Some (Some _, _) => 1 | _ => 0 end.

(** A [tcpip-forward] request: a listener is asked for only after the
    callback has allowed it, with a slot and while the connection is open; it is
    accepted only with the port the listener is bound to, which is the
    requested one unless that is zero, and then its forward is new, registered
    and served; otherwise nothing is left behind, the listener and slot
    included, even if the connection is closed meanwhile. *)
Theorem tcpip_forward_contract payload s :
  limiter_ok forwardLimiter -> handler_ok resource s ->
  let '(reply, s') := tcpip_forward conn forwardLimiter resource connection_closes callback listenCallback net_Listen payload s in
  let asked := tcp_listen payload s in
  match reply with
  | FwAccept p => exists addr port l destPort,
      payload = inr (addr, port) /\ asked = Some (Some l, None) /\ listener_port l = inr destPort /\ p = Some destPort /\
      0 < destPort <= 65535 /\ (port = 0 \/ destPort = port) /\
      granted forwardLimiter resource (tcp_key conn addr destPort) s s'
  | _ => undone (obtained_listener asked) s s'
  end.
Proof.
  intros Hlim Hok. destruct payload as [e|[addr port]]; [apply undone_refl, Hok|]. unfold tcpip_forward, tcp_listen.
  destruct callback as [cb|]; [|apply undone_refl, Hok].
  destruct (cb addr port) as [allowed [e|]] eqn:Hcb; [destruct allowed; apply undone_refl, Hok|].
  destruct allowed; [|apply undone_refl, Hok].
  rewrite bool_decide_true by done. destruct (request_cases forwardLimiter resource connection_closes Hlim s Hok) as (ok & c & -> & -> & Hcase).
  destruct (slot_room _ _); [|exact Hcase]. cbn [negb andb]. unfold can_acquire.
  destruct (begin_acquisition _) as [s1|]; destruct Hcase as [Hh Hcl].
  2:{ destruct (h_resources s) as [r|]; [|done]. by rewrite Hcl. }
  replace (match h_resources s with Some r => negb (closed r) | None => true end) with true
    by (destruct (h_resources s); [by rewrite Hcl|done]).
  pose proof (fun b => abandon_undone forwardLimiter resource Hlim s _ b Hh) as Hab. set (s2 := meanwhile connection_closes s1) in *. clearbody s2.
  destruct (match listenCallback with Some f => _ | None => _ end) as [[l|] [e|]]; try apply (Hab true); try apply (Hab false).
  destruct (listener_port l) as [e|destPort] eqn:Hport; [apply (Hab true)|].
  destruct (negb (port =? 0) && negb (port =? destPort)) eqn:Hbad; [apply (Hab true)|].
  pose proof (register_forward_spec forwardLimiter resource Hlim (tcp_key conn addr destPort) s s2 Hh) as Hreg.
  destruct (register_forward _ _ _ _) as [[] s3]; [|exact Hreg].
  exists addr, port, l, destPort. split_and!; try done.
  - by apply (listener_port_bounds l).
  - by apply (listener_port_bounds l).
  - apply andb_false_iff in Hbad as [H%negb_false_iff%Z.eqb_eq|H%negb_false_iff%Z.eqb_eq]; auto.
Qed.

(** A [cancel-tcpip-forward] request is accepted exactly if the connection
    has a forward of that address and port; that forward is closed and
    removed, and no forward of another connection, address or port is touched. *)
Theorem cancel_tcpip_forward_exact addr port s :
  0 <= port < 2 ^ 32 ->
  (forall k f, h_forwards s !! k = Some f -> exists o, h_objects s !! f = Some o /\ fw_key o = k) ->
  let '(reply, s') := cancel_tcpip_forward conn forwardLimiter (inr (addr, port)) s in
  match h_forwards s !! tcp_key conn addr port with
  | Some f => reply = FwAccept None /\ h_forwards s' = delete (tcp_key conn addr port) (h_forwards s) /\
              exists o, h_objects s !! f = Some o /\ fw_key o = tcp_key conn addr port /\
                        (fw_stage o = NotClosed -> h_objects s' = <[f := close_body o]> (h_objects s))
  | None => reply = FwReject "" /\ s' = s
  end /\
  forall conn' addr' port', 0 <= port' < 2 ^ 32 -> (conn', addr', port') <> (conn, addr, port) ->
    h_forwards s' !! tcp_key conn' addr' port' = h_forwards s !! tcp_key conn' addr' port' /\
    forall f, h_forwards s !! tcp_key conn' addr' port' = Some f -> h_objects s' !! f = h_objects s !! f.
Proof.
  intros Hp Hmap. unfold cancel_tcpip_forward.
  assert (Hkey : forall conn' addr' port', 0 <= port' < 2 ^ 32 -> (conn', addr', port') <> (conn, addr, port) ->
    tcp_key conn addr port <> tcp_key conn' addr' port').
  { intros conn' addr' port' Hp' Hne E. unfold tcp_key in E. injection E as -> E. apply Hne.
    apply forward_key_injective in E as [-> ->]; done. }
  destruct (h_forwards s !! tcp_key conn addr port) as [f|] eqn:Hf; [|done].
  destruct (Hmap _ _ Hf) as (o & Ho & Hko). unfold closeForward. rewrite Ho.
  set (s1 := match fw_stage o with NotClosed => _ | _ => s end).
  assert (Hs1 : h_forwards s1 = h_forwards s /\ (fw_stage o = NotClosed -> h_objects s1 = <[f := close_body o]> (h_objects s)) /\
                forall g, g <> f -> h_objects s1 !! g = h_objects s !! g).
  { subst s1. destruct (fw_stage o); try done. split_and!; [done..|]. intros g Hg. cbn. by apply list_lookup_insert_ne. }
  destruct Hs1 as (Hf1 & Ho1 & Hg1). unfold remove_forward. rewrite Hf1, decide_True by done.
  split_and!; try done; [by exists o|].
  intros conn' addr' port' Hp' Hne. apply Hkey in Hne; [|done]. cbn. rewrite lookup_delete_ne by done. split; [done|].
  intros g Hg. apply Hg1. intros ->. destruct (Hmap _ _ Hg) as (o' & Ho' & Hk'). congruence.
Qed.
End TCPLaws.

Section UnixLaws.
Variable conn : nat.
Variable forwardLimiter : option resourceLimiter.
Variable resource : nat.
Variable connection_closes : bool.
Variable denied : error.
Variable callback : option (string -> option listener * option error).

Definition unix_listen (payload : error + string) (s : handlerState) : option (option listener * option error) :=
  match payload, callback with
  | inr path, Some cb =>
      if bool_decide (h_forwards s !! mkForwardKey conn path = None) && slot_room forwardLimiter (h_counters s) && can_acquire s
      then Some (cb path) else None
  | _, _ => None
  end.

(** A listener the callback has handed over: it returned no error. *)
Definition owned_listener (r : option (option listener * option error)) : Z :=
  match r with Some (Some _, None) => 1 | _ => 0 end.

(** A [streamlocal-forward] request: the callback is asked for a listener
    only for a path the connection does not forward yet, with a slot and while
    the connection is open; the request is accepted only with a listener, whose
    forward is new, registered and served; otherwise nothing is left behind
    and a listener that was handed over is closed, and a refusal by
    [ErrServerPermissionDenied] is never reported as an error. *)
Theorem streamlocal_forward_contract payload s :
  limiter_ok forwardLimiter -> handler_ok resource s ->
  let '(reply, s') := streamlocal_forward conn forwardLimiter resource connection_closes denied callback payload s in
  let asked := unix_listen payload s in
  match reply with
  | FwAccept p => exists path l,
      payload = inr path /\ asked = Some (Some l, None) /\ p = None /\
      granted forwardLimiter resource (mkForwardKey conn path) s s'
  | _ => undone (owned_listener asked) s s' /\
         (forall l e, asked = Some (l, Some e) -> errors_Is (Some e) (Some denied) = true -> reply = FwReject "")
  end.
Proof.
  intros Hlim Hok. pose proof (undone_refl s (ho_panicked _ _ Hok)) as Hrefl. unfold streamlocal_forward, unix_listen.
  destruct payload as [e|path]; [done|]. destruct callback as [cb|]; [|done].
  destruct (h_forwards s !! mkForwardKey conn path) eqn:Hdup; [by rewrite bool_decide_false|]. rewrite bool_decide_true by done.
  destruct (request_cases forwardLimiter resource connection_closes Hlim s Hok) as (ok & c & -> & -> & Hcase).
  destruct (slot_room _ _); [|by split]. cbn [negb andb]. unfold can_acquire.
  destruct (begin_acquisition _) as [s1|]; destruct Hcase as [Hh Hcl].
  2:{ destruct (h_resources s) as [r|]; [|done]. rewrite Hcl. by split. }
  replace (match h_resources s with Some r => negb (closed r) | None => true end) with true
    by (destruct (h_resources s); [by rewrite Hcl|done]).
  pose proof (abandon_undone forwardLimiter resource Hlim s _ false Hh) as Hab. set (s2 := meanwhile connection_closes s1) in *. clearbody s2.
  destruct (cb path) as [[l|] [e|]].
  - destruct (errors_Is (Some e) (Some denied)) eqn:He; split; try done. intros l' e' [= _ <-]. by rewrite He.
  - pose proof (register_forward_spec forwardLimiter resource Hlim (mkForwardKey conn path) s s2 Hh) as Hreg.
    destruct (register_forward _ _ _ _) as [[] s3]; [by exists path, l|by split].
  - destruct (errors_Is (Some e) (Some denied)) eqn:He; split; try done. intros l' e' [= _ <-]. by rewrite He.
  - by split.
Qed.
End UnixLaws.

(** ** A connection with room for one forward *)
Definition sample_forward_limiter : option resourceLimiter := Some (mkResourceLimiter 1 (Some 0%nat) None).
Definition sample_handler_state : handlerState :=
  mkHandlerState ∅ [] ∅ (Some emptyResources) (Some (mkWorkers false 0)) [] 0 false.
Definition sample_tcp_callback : option (string -> Z -> bool * option error) := Some (fun _ _ => (true, None)).
Definition sample_net_Listen (addr : string) : option listener * option error := (Some (mkListener (Some "127.0.0.1:4022")), None).
Definition sample_tcpip_forward (closes : bool) (port : Z) :=
  tcpip_forward 0 sample_forward_limiter 7 closes sample_tcp_callback None sample_net_Listen (inr ("localhost", port)) sample_handler_state.

Lemma sample_limiter_ok : limiter_ok sample_forward_limiter.
Proof. by_decide. Qed.
Lemma sample_handler_ok : handler_ok 7 sample_handler_state.
Proof. split; [done|]. cbn. split_and!; [lia|set_solver|done]. Qed.

Lemma tcpip_forward_example :
  fst (sample_tcpip_forward false 0) = FwAccept (Some 4022) /\
  h_forwards (snd (sample_tcpip_forward false 0)) !! mkForwardKey 0 "localhost:4022" = Some 0%nat /\
  (* the port is not the one that was asked for *)
  fst (sample_tcpip_forward false 80) =
    errListener "localhost:80" (ErrNew 86 "listener bound unexpected port") /\
  listeners_closed (snd (sample_tcpip_forward false 80)) = 1 /\
  (* the connection is closed while the system listens *)
  fst (sample_tcpip_forward true 0) = FwReject "" /\ listeners_closed (snd (sample_tcpip_forward true 0)) = 1.
Proof. by vm_compute. Qed.

Lemma tcpip_forward_contract_witness :
  fst (sample_tcpip_forward false 80) = errListener "localhost:80" (ErrNew 86 "listener bound unexpected port") /\
  undone 1 sample_handler_state (snd (sample_tcpip_forward false 80)).
Proof.
  split; [by vm_compute|].
  exact (tcpip_forward_contract 0 sample_forward_limiter 7 false sample_tcp_callback None sample_net_Listen
           (inr ("localhost", 80)) sample_handler_state sample_limiter_ok sample_handler_ok).
Defined.

Definition sample_forwarded : handlerState := snd (sample_tcpip_forward false 0).

Lemma cancel_tcpip_forward_exact_witness :
  fst (cancel_tcpip_forward 0 sample_forward_limiter (inr ("localhost", 4022)) sample_forwarded) = FwAccept None /\
  fst (cancel_tcpip_forward 0 sample_forward_limiter (inr ("localhost", 4023)) sample_forwarded) = FwReject "".
Proof.
  assert (Hmap : forall k f, h_forwards sample_forwarded !! k = Some f ->
    exists o, h_objects sample_forwarded !! f = Some o /\ fw_key o = k).
  { intros k f H. change (h_forwards sample_forwarded) with (<[mkForwardKey 0 "localhost:4022" := 0%nat]> (∅ : gmap forwardKey nat)) in H.
    apply lookup_insert_Some in H as [[<- <-]|[_ H]]; [|by rewrite lookup_empty in H]. by eexists. }
  split.
  - exact (proj1 (proj1 (cancel_tcpip_forward_exact 0 sample_forward_limiter "localhost" 4022 sample_forwarded ltac:(lia) Hmap))).
  - exact (proj1 (proj1 (cancel_tcpip_forward_exact 0 sample_forward_limiter "localhost" 4023 sample_forwarded ltac:(lia) Hmap))).
Defined.

Lemma streamlocal_forward_contract_witness :
  let denied := ErrNew 900 "permission denied" in
  let callback := Some (fun _ : string => (None, Some denied) : option listener * option error) in
  fst (streamlocal_forward 0 sample_forward_limiter 7 false denied callback (inr "/run/sock") sample_handler_state) = FwReject "" /\
  undone 0 sample_handler_state
    (snd (streamlocal_forward 0 sample_forward_limiter 7 false denied callback (inr "/run/sock") sample_handler_state)).
Proof.
  intros denied callback. split; [by vm_compute|].
  exact (proj1 (streamlocal_forward_contract 0 sample_forward_limiter 7 false denied callback
           (inr "/run/sock") sample_handler_state sample_limiter_ok sample_handler_ok)).
Defined.
