(* ===== verification/ForwardConnections.v ===== *)
(** ForwardConnections: the connections that are forwarded.  The accept loops of
    [ForwardedTCPHandler] and [ForwardedUnixHandler] with the workers they
    start ([tcpip.go], [streamlocal.go]), [ForwardAgentConnections]
    ([agent.go]), and the channel handlers [DirectTCPIPHandler] and
    [DirectStreamLocalHandler].

    What the calls of a turn, a worker or a handler answer is an environment,
    and the calls that have an effect outside are a trace.  The guarded sections
    they run are modelled where they belong: acquisitions in [Resources], slots in
    [Limiter], opens in [Forward] and [OpenChannel], copies in [Copy]. *)
From S2P Require Import Prelude GoErrors Settings ErrorDispatch Channel Net.
Local Open Scope string_scope.
Local Open Scope Z_scope.
Local Open Scope list_scope.

Inductive fwevent :=
| FBegin | FFinish                     (* beginConnectionResourceAcquisition and finishAcquisition *)
| FRegistered | FUnregister            (* the registration by finishAcquisition and its end *)
| FReserve | FRelease                  (* a slot of the limit on channels *)
| FBeginOpen | FEndOpen                (* the pending opens of the forward *)
| FObtainConn | FCloseConn             (* the connection to forward *)
| FOpenChannel | FCloseChannel         (* the channel of the client *)
| FContext | FCancel                   (* contextForChannelRequests and its cancel *)
| FDiscard                             (* go gossh.DiscardRequests *)
| FCopy                                (* FullDuplexCopy *)
| FDispatch (op : ErrorOperation) (err : error)
| FLog
| FCloseForward.

Inductive acceptor := TCPForward | UnixForward | AgentForward.

(** ** A turn of an accept loop *)

Record acceptEnv := mkAcceptEnv {
  a_acquires : bool;                     (* the connection is not closing *)
  a_accept_err : option error;
  a_accept_conn : bool;                  (* a connection is returned, with or without an error *)
  a_ctx_live : bool;                     (* ctx.Err() == nil *)
  a_dispatch : bool;                     (* what dispatchErrorOrEscalate returns *)
  a_timer : bool;                        (* the retry timer fires before ctx is done *)
  a_registers : bool;                    (* the registry is still open when the connection is there *)
  a_reserves : bool;
  a_begins_open : bool;
  a_starts : bool }.

Inductive loopNext := LContinue (delay : Z) | LStop.

(** [finishAcquisition(close)]: registered, or closed at once; the end of the
    registration does nothing in the second case. *)
Definition finish_conn (registers : bool) : list fwevent := if registers then [FFinish; FRegistered] else [FFinish; FCloseConn].
Definition unregister_conn (registers : bool) : list fwevent := if registers then [FUnregister] else [].

Section AcceptTurn.
Variable kind : acceptor.

(** The turn; the flag tells that a worker was started for the connection. *)
Definition forward_turn (delay : Z) (env : acceptEnv) : loopNext * bool * list fwevent :=
  if negb (a_acquires env) then (LStop, false, [])
  else
    match a_accept_err env with
    | Some err =>
        let l := [FBegin; FFinish] ++ (if kind is UnixForward then if a_accept_conn env then [FCloseConn] else [] else []) in
        if a_ctx_live env && negb (isClosedError (Some err)) then
          let l := l ++ [FDispatch ErrorOperationAccept err] in
          if a_dispatch env then
            let '(fired, delay) := waitForRetry (a_timer env) delay in
            (if fired then LContinue delay else LStop, false, l)
          else (LStop, false, l)
        else (LStop, false, l)
    | None =>
        let l := [FBegin; FObtainConn] ++ finish_conn (a_registers env) in
        if negb (a_reserves env) then
          (LContinue 0, false, l ++ unregister_conn (a_registers env) ++ [FCloseConn; FLog])
        else if negb (a_begins_open env) then
          (LStop, false, l ++ [FReserve] ++ unregister_conn (a_registers env) ++ [FRelease; FCloseConn])
        else if negb (a_starts env) then
          (if kind is TCPForward then LContinue 0 else LStop, false,
           l ++ [FReserve; FBeginOpen] ++ unregister_conn (a_registers env) ++ [FEndOpen; FRelease; FCloseConn])
        else (LContinue 0, true, l ++ [FReserve; FBeginOpen])
    end.

(** The same of [ForwardAgentConnections], which has no forward. *)
Definition agent_turn (env : acceptEnv) : loopNext * bool * list fwevent :=
  match a_accept_err env with
  | Some err => (LStop, false, if isClosedError (Some err) then [] else [FLog])
  | None =>
      if negb (a_reserves env) then (LContinue 0, false, [FObtainConn; FCloseConn; FLog])
      else if negb (a_starts env) then (LStop, false, [FObtainConn; FReserve; FRelease; FCloseConn])
      else (LContinue 0, true, [FObtainConn; FReserve])
  end.

(** ** The worker of a connection *)

Record workerEnv := mkWorkerEnv {
  w_open_err : option error;             (* of openForwardedChannel *)
  w_forward_done : bool;                 (* f.done is closed *)
  w_dispatch : bool;
  w_copy_err : option error }.           (* of FullDuplexCopy *)

(** The report of an error; the forward ends unless it may go on. *)
Definition report (op : ErrorOperation) (err : error) (env : workerEnv) : list fwevent :=
  match kind with
  | AgentForward => [FLog]
  | _ => FDispatch op err :: (if w_dispatch env then [] else [FCloseForward])
  end.

Definition worker_body (env : workerEnv) : list fwevent :=
  match w_open_err env with
  | Some err =>
      (if kind is AgentForward then [] else [FEndOpen]) ++
      (if (if kind is AgentForward then false else w_forward_done env) then [] else report ErrorOperationOpenChannel err env)
  | None =>
      FOpenChannel :: (if kind is AgentForward then [] else [FEndOpen]) ++
      [if kind is TCPForward then FContext else FDiscard; FCopy] ++
      match w_copy_err env with Some err => report ErrorOperationForward err env | None => [] end ++
      (if kind is TCPForward then [FCancel] else []) ++ [FCloseChannel]
  end.

(** The deferred calls, the last one first. *)
Definition worker_deferred (registers : bool) : list fwevent :=
  match kind with
  | TCPForward => [FRelease; FCloseConn] ++ unregister_conn registers
  | UnixForward => [FCloseConn; FRelease] ++ unregister_conn registers
  | AgentForward => [FRelease; FCloseConn]
  end.

Definition worker (registers : bool) (env : workerEnv) : list fwevent := worker_body env ++ worker_deferred registers.

Definition turn (delay : Z) (env : acceptEnv) : loopNext * bool * list fwevent :=
  match kind with AgentForward => agent_turn env | _ => forward_turn delay env end.

(** The loop over what each turn meets, with the worker of each connection.
    Workers run beside the loop; here each is put after its turn. *)
Fixpoint accept_loop (delay : Z) (envs : list (acceptEnv * workerEnv)) : list fwevent * bool :=
  match envs with
  | [] => ([], false)
  | (env, wenv) :: envs =>
      let '(next, started, l) := turn delay env in
      let l := l ++ (if started then worker (a_registers env) wenv else []) in
      match next with
      | LStop => (l, true)
      | LContinue delay => let '(l', stopped) := accept_loop delay envs in (l ++ l', stopped)
      end
  end.
End AcceptTurn.

(** [missing]: no listener, session, context or connection. *)
Definition ForwardAgentConnections (missing : bool) (envs : list (acceptEnv * workerEnv)) : list fwevent * bool :=
  if missing then ([FLog], true) else accept_loop AgentForward 0 envs.

(** ** Accounts of a trace *)

Definition count (f : fwevent -> bool) (l : list fwevent) : Z := sumZ (fun e => if f e then 1 else 0) l.
Lemma count_app' f l l' : count f (l ++ l') = count f l + count f l'.
Proof. apply sumZ_app. Qed.

(** What is begun is ended: [closes] may repeat, as a close of a closed
    connection does nothing. *)
Record balanced (l : list fwevent) : Prop := mkBalanced {
  ba_acquisitions : count (fun e => if e is FBegin then true else false) l = count (fun e => if e is FFinish then true else false) l;
  ba_registrations : count (fun e => if e is FRegistered then true else false) l = count (fun e => if e is FUnregister then true else false) l;
  ba_slots : count (fun e => if e is FReserve then true else false) l = count (fun e => if e is FRelease then true else false) l;
  ba_opens : count (fun e => if e is FBeginOpen then true else false) l = count (fun e => if e is FEndOpen then true else false) l;
  ba_conns : count (fun e => if e is FObtainConn then true else false) l <= count (fun e => if e is FCloseConn then true else false) l;
  ba_channels : count (fun e => if e is FOpenChannel then true else false) l = count (fun e => if e is FCloseChannel then true else false) l;
  ba_copies : count (fun e => if e is FOpenChannel then true else false) l = count (fun e => if e is FCopy then true else false) l;
  ba_contexts : count (fun e => if e is FContext then true else false) l = count (fun e => if e is FCancel then true else false) l }.

Lemma balanced_app l l' : balanced l -> balanced l' -> balanced (l ++ l').
Proof. intros [] []. split; rewrite !count_app'; lia. Qed.

Lemma turn_balanced kind delay env wenv :
  let '(_, started, l) := turn kind delay env in
  balanced (l ++ (if started then worker kind (a_registers env) wenv else [])).
Proof.
  unfold turn, forward_turn, agent_turn, worker, worker_body, worker_deferred, report, finish_conn, unregister_conn, waitForRetry.
  repeat case_match; simplify_eq/=; split; cbn; lia.
Qed.

(** C16. An accept loop of a forward (TCP, Unix or agent) and its workers leave
    nothing behind, whatever the application, the network and the client do:
    every acquisition is finished, every registration, channel slot and pending
    open is given back, every channel that is opened is copied once, and every
    connection, channel and channel context is closed. *)
Theorem forward_connections_balanced kind delay envs : balanced (fst (accept_loop kind delay envs)).
Proof.
  revert delay. induction envs as [|[env wenv] envs IH]; intros delay; [by split|]. cbn.
  pose proof (turn_balanced kind delay env wenv) as H. destruct (turn kind delay env) as [[[d|] started] l]; [|done].
  specialize (IH d). destruct (accept_loop kind d envs) as [l' stopped]. by apply balanced_app.
Qed.

(** ** Channels that the client opens *)

Inductive devent :=
| DBegin | DFinish | DRegistered | DUnregister
| DDial (dest : string)                (* the system or the application is asked for a connection *)
| DConn                                (* and returns one *)
| DCloseConn | DCloseChannel
| DContext | DCancel                   (* contextForChannelRequests and its cancel *)
| DDiscard                             (* go gossh.DiscardRequests *)
| DCopy.

(** A channel handler with its effects. *)
Inductive dprogram :=
| DReturn (err : option error)
| DDo (l : list devent) (k : dprogram)
| DAccept (k : option error -> dprogram)
| DReject (reason : rejectionReason) (message : string) (k : dprogram).   (* the result is ignored *)

(** The handler as [handleChannel] runs it, and its effects, given what [Accept] returns. *)
Fixpoint to_channel (p : dprogram) : channelProgram :=
  match p with
  | DReturn err => CReturn err
  | DDo _ k => to_channel k
  | DAccept k => CAccept (fun err => to_channel (k err))
  | DReject reason message k => CReject reason message (fun _ => to_channel k)
  end.
Fixpoint effects (acceptErr : option error) (p : dprogram) : list devent :=
  match p with
  | DReturn _ => []
  | DDo l k => l ++ effects acceptErr k
  | DAccept k => effects acceptErr (k acceptErr)
  | DReject _ _ k => effects acceptErr k
  end.

(** [d_missing] is about the other arguments: the channel is the one that is
    handled, so it is there. *)
Record directEnv := mkDirectEnv {
  d_missing : bool;                      (* no server, connection or context *)
  d_acquires : bool;
  d_registers : bool;
  d_copy_err : option error }.

(** After the connection is there; [discard]: the requests of the channel are
    only discarded, and do not end the copy. *)
Definition direct_forward (discard : bool) (text : string) (env : directEnv) : dprogram :=
  let finish := if d_registers env then [DFinish; DRegistered] else [DFinish; DCloseConn] in
  let unregister := if d_registers env then [DUnregister] else [] in
  DDo (DConn :: finish)
    (DAccept (fun err =>
       match err with
       | Some e =>
           DDo (DCloseConn :: unregister)
             (DReturn (Some (locateError ErrorScopeChannel ErrorOperationAccept (ErrWrap text e))))
       | None =>
           DDo ((if discard then [DDiscard] else [DContext]) ++ [DCopy; DCloseConn; DCloseChannel] ++
                (if discard then [] else [DCancel]) ++ unregister)
             (DReturn (match d_copy_err env with
                       | Some e => Some (locateError ErrorScopeForwarding ErrorOperationForward (ErrWrap text e))
                       | None => None
                       end))
       end)).

(** [payload]: the destination, or the error of [gossh.Unmarshal]. *)
Definition DirectTCPIPHandler (callback : option (string -> Z -> bool * option error)) (dial : string -> option error)
    (payload : error + (string * Z)) (env : directEnv) : dprogram :=
  if d_missing env then DReject ConnectionFailed "missing server connection context" (DReturn None)
  else
    match payload with
    | inl e => DReturn (Some (locateError ErrorScopeChannel ErrorOperationParse (ErrWrap "parse direct-tcpip channel data" e)))
    | inr (destAddr, destPort) =>
        match callback with
        | None => DReject Prohibited "port forwarding is disabled" (DReturn None)
        | Some callback =>
            match callback destAddr destPort with
            | (_, Some e) =>
                DReturn (Some (locateError ErrorScopeForwarding ErrorOperationHandle (ErrWrap "authorize direct-tcpip destination" e)))
            | (false, None) => DReject Prohibited "port forwarding is disabled" (DReturn None)
            | (true, None) =>
                let dest := JoinHostPort destAddr (FormatUint destPort) in
                if negb (d_acquires env) then DReject ConnectionFailed "connection is closing" (DReturn None)
                else
                  DDo [DBegin; DDial dest]
                    match dial dest with
                    | Some e =>
                        DDo [DFinish]
                          (DReturn (Some (locateError ErrorScopeForwarding ErrorOperationDial (ErrWrap "dial direct-tcpip destination" e))))
                    | None => direct_forward false "direct-tcpip" env
                    end
            end
        end
    end.

(** The callback of Unix sockets decides and dials; [denied] is
    [ErrServerPermissionDenied]. *)
Definition DirectStreamLocalHandler (denied : error) (callback : option (string -> bool * option error))
    (payload : error + string) (env : directEnv) : dprogram :=
  if d_missing env then DReject ConnectionFailed "missing server connection context" (DReturn None)
  else
    match payload with
    | inl e => DReturn (Some (locateError ErrorScopeChannel ErrorOperationParse (ErrWrap "parse direct-streamlocal channel data" e)))
    | inr path =>
        match callback with
        | None => DReject Prohibited "unix forwarding is disabled" (DReturn None)
        | Some callback =>
            if negb (d_acquires env) then DReject ConnectionFailed "connection is closing" (DReturn None)
            else
              DDo [DBegin; DDial path]
                match callback path with
                | (_, Some e) =>
                    DDo [DFinish]
                      (if errors_Is (Some e) (Some denied) then DReject Prohibited "unix forwarding is denied" (DReturn None)
                       else DReturn (Some (locateError ErrorScopeForwarding ErrorOperationDial (ErrWrap "dial direct-streamlocal destination" e))))
                | (false, None) =>           (* no connection *)
                    DDo [DFinish]
                      (DReturn (Some (locateError ErrorScopeForwarding ErrorOperationDial
                                        (ErrNew 89 "callback returned no connection"))))
                | (true, None) => direct_forward true "direct-streamlocal" env
                end
        end
    end.

(** ** A handler that does not accept its channel *)
Section NoAccept.
Variable acceptErr rejectErr : option error.
Variable ctx : dispatchContext.
Variable eh : option ErrorHandler.

Definition not_accepted (w : chworld) : Prop := accepts (chevents w) = 0%nat.

Lemma not_accepted_app t l l' : accepts l = 0%nat -> accepts l' = 0%nat -> not_accepted (mkChWorld t (l ++ l')).
Proof. unfold not_accepted, accepts. cbn. rewrite count_app. lia. Qed.
Lemma not_accepted_emit l w : not_accepted w -> not_accepted (emit l w).
Proof. destruct w as [t w]. intros H. apply not_accepted_app; [done|]. by apply count_dispatch. Qed.
Lemma not_accepted_close w : not_accepted w -> not_accepted (closeConn w).
Proof. destruct w as [t w]. intros H. by apply not_accepted_app. Qed.
Lemma not_accepted_respond m w : not_accepted w -> not_accepted (snd (channel_respondToError rejectErr m w)).
Proof.
  destruct w as [t w]. intros H. unfold channel_respondToError, beginAnswer. cbn.
  destruct (answerAttempted t); [done|]. by apply not_accepted_app.
Qed.
Lemma not_accepted_report e w : not_accepted w -> not_accepted (reportAnswer ctx eh e w).
Proof. intros H. by apply (escalate_keeps not_accepted not_accepted_emit). Qed.

Lemma not_accepted_error handlerErr w : not_accepted w -> not_accepted (channelError rejectErr ctx eh handlerErr w).
Proof.
  intros Hw. unfold channelError. set (d := dispatchError _ _ _ _ _ _ _ _ _).
  assert (Hd : not_accepted (d_world d)).
  { apply (dispatch_keeps not_accepted not_accepted_emit); [|done]. intros r [= <-] f m c v [= <-] Hv.
    unfold channelErrorResponder. pose proof (not_accepted_respond m v Hv) as H.
    destruct (channel_respondToError rejectErr m v). destruct c; [by apply not_accepted_close|done]. }
  clearbody d. destruct (d_result d) as [cc de]. destruct (response_result (d_response d)) as [att re].
  set (w1 := if negb att then rejectUnhandledError rejectErr (d_world d) else d_world d).
  assert (H1 : not_accepted w1) by (subst w1; destruct att; [done|by apply not_accepted_respond]). clearbody w1.
  repeat case_match; auto using not_accepted_close, not_accepted_report; apply not_accepted_close;
    exact (not_accepted_emit [_] w1 H1).
Qed.

Lemma not_accepted_handle handler :
  not_accepted (snd (run_channel_handler acceptErr rejectErr handler (mkChWorld newTracked []))) ->
  not_accepted (handleChannel acceptErr rejectErr ctx eh handler).
Proof.
  unfold handleChannel. intros H. destruct (run_channel_handler _ _ _ _) as [herr w]. cbn in H.
  destruct (answerResult (tracked w)) as [att aerr]. unfold closeAccepted.
  match goal with |- context [takeAccepted (tracked ?x)] => assert (Hx : not_accepted x) end.
  { destruct (if _ && _ then _ else herr); [by apply not_accepted_error|].
    destruct aerr; [by apply not_accepted_close, not_accepted_report|done]. }
  unfold takeAccepted. match goal with |- context [mkChWorld _ (if ?b then _ else _)] => destruct b end; [|done].
  by apply not_accepted_app.
Qed.

(** Handlers that reject, and that return. *)
Lemma reject_not_accepted reason m : not_accepted (handleChannel acceptErr rejectErr ctx eh (CReject reason m (fun _ => CReturn None))).
Proof. by apply not_accepted_handle. Qed.
Lemma return_not_accepted err : not_accepted (handleChannel acceptErr rejectErr ctx eh (CReturn err)).
Proof. by apply not_accepted_handle. Qed.

Lemma reject_answers reason m :
  ChReject reason m ∈ chevents (handleChannel acceptErr rejectErr ctx eh (CReject reason m (fun _ => CReturn None))).
Proof.
  unfold handleChannel. cbn. set (w := mkChWorld _ [ChReject reason m]).
  set (P := fun v => ChReject reason m ∈ chevents v).
  assert (Hp : forall l v, P v -> P (emit l v)) by (intros l [t v] H; unfold P in *; cbn in *; set_solver).
  assert (Hw : P w) by (unfold P; cbn; set_solver). unfold answerResult. cbn.
  destruct (locate_answer ErrorOperationReply rejectErr) as [e|]; cbn; [|exact Hw].
  assert (Hr : P (reportAnswer ctx eh e w)) by (by apply (escalate_keeps P Hp)).
  destruct (reportAnswer ctx eh e w) as [t l]. unfold P, closeAccepted, takeAccepted in *. cbn in *.
  destruct (accepted t); cbn; set_solver.
Qed.
End NoAccept.

(** ** Direct channels *)

Definition dcount (f : devent -> bool) (l : list devent) : Z := sumZ (fun e => if f e then 1 else 0) l.

(** What a direct channel takes is given back. *)
Record direct_balanced (acceptErr : option error) (l : list devent) : Prop := mkDirectBalanced {
  db_acquisitions : dcount (fun e => if e is DBegin then true else false) l = dcount (fun e => if e is DFinish then true else false) l;
  db_registrations : dcount (fun e => if e is DRegistered then true else false) l = dcount (fun e => if e is DUnregister then true else false) l;
  db_contexts : dcount (fun e => if e is DContext then true else false) l = dcount (fun e => if e is DCancel then true else false) l;
  db_conns : dcount (fun e => if e is DConn then true else false) l <= dcount (fun e => if e is DCloseConn then true else false) l;
  db_copied : dcount (fun e => if e is DCopy then true else false) l = dcount (fun e => if e is DCloseChannel then true else false) l;
  db_accepted : acceptErr <> None -> dcount (fun e => if e is DCopy then true else false) l = 0 }.

Lemma direct_forward_balanced discard text env acceptErr :
  direct_balanced acceptErr (DBegin :: effects acceptErr (direct_forward discard text env)).
Proof.
  unfold direct_forward. destruct env as [mi aq reg ce], acceptErr as [e|], reg, discard; split; cbn; (done || lia).
Qed.

Lemma direct_balanced_dial acceptErr dest l : direct_balanced acceptErr (DBegin :: l) -> direct_balanced acceptErr (DBegin :: DDial dest :: l).
Proof. intros []. by split. Qed.

(** The only dial is the first one. *)
Lemma direct_dials discard text env acceptErr path q :
  DDial q ∈ [DBegin; DDial path] ++ effects acceptErr (direct_forward discard text env) -> q = path.
Proof.
  unfold direct_forward. destruct env as [mi aq reg ce], acceptErr, reg, discard; cbn; rewrite !elem_of_cons, elem_of_nil; intros H;
    by repeat destruct H as [H|H]; simplify_eq.
Qed.

(** A direct-tcpip channel: the server dials only a destination that the
    callback has allowed, on a connection that is not closing, and the channel is
    accepted only after the dial has succeeded; a denied destination is
    answered as prohibited; and whatever fails, the acquisition, the
    registration and the connection are given up and a channel that was accepted
    is closed. *)
Theorem direct_tcpip_gated callback dial payload env acceptErr rejectErr ctx eh :
  let p := DirectTCPIPHandler callback dial payload env in
  let w := handleChannel acceptErr rejectErr ctx eh (to_channel p) in
  let allowed dest := exists cb addr port,
    callback = Some cb /\ payload = inr (addr, port) /\ cb addr port = (true, None) /\
    d_acquires env = true /\ dest = JoinHostPort addr (FormatUint port) in
  (forall dest, DDial dest ∈ effects acceptErr p -> allowed dest) /\
  ((0 < accepts (chevents w))%nat -> exists dest, allowed dest /\ dial dest = None) /\
  (forall addr port, d_missing env = false -> payload = inr (addr, port) ->
     (callback = None \/ exists cb, callback = Some cb /\ cb addr port = (false, None)) ->
     ChReject Prohibited "port forwarding is disabled" ∈ chevents w) /\
  direct_balanced acceptErr (effects acceptErr p).
Proof.
  intros p w allowed. subst p w. unfold DirectTCPIPHandler.
  pose proof (reject_not_accepted acceptErr rejectErr ctx eh) as Hrej.
  pose proof (return_not_accepted acceptErr rejectErr ctx eh) as Hret. unfold not_accepted in *.
  destruct (d_missing env) eqn:Hmi; cbn [effects to_channel].
  { split_and!; [set_solver|rewrite Hrej; lia|done|by split]. }
  destruct payload as [e|[addr port]]; cbn [effects to_channel].
  { split_and!; [set_solver|rewrite Hret; lia|done|by split]. }
  destruct callback as [cb|]; cbn [effects to_channel].
  2:{ split_and!; [set_solver|rewrite Hrej; lia| |by split]. intros; apply reject_answers. }
  destruct (cb addr port) as [ok [e|]] eqn:Hcb; cbn [effects to_channel].
  { destruct ok; (split_and!; [set_solver|cbn [to_channel]; rewrite Hret; lia| |by split]);
      intros a q _ [= <- <-] [|(cb' & [= <-] & H)]; congruence. }
  destruct ok; cbn [effects to_channel].
  2:{ split_and!; [set_solver|rewrite Hrej; lia| |by split]. intros; apply reject_answers. }
  assert (Hno : forall a q, false = false -> inr (addr, port) = inr (a, q) :> error + string * Z ->
    Some cb = None \/ (exists cb', Some cb = Some cb' /\ cb' a q = (false, None)) -> False)
    by (intros a q _ [= <- <-] [|(cb' & [= <-] & H)]; congruence).
  destruct (d_acquires env) eqn:Haq; cbn [effects to_channel negb].
  2:{ split_and!; [set_solver|rewrite Hrej; lia|naive_solver|by split]. }
  assert (Hall : allowed (JoinHostPort addr (FormatUint port))) by (exists cb, addr, port; by split_and!).
  destruct (dial _) as [e|] eqn:Hdial.
  - cbn [effects to_channel]. split_and!; [|rewrite Hret; lia|naive_solver|by split].
    intros dest Hd. assert (dest = JoinHostPort addr (FormatUint port)) as -> by set_solver. done.
  - split_and!; [|by eauto|naive_solver|].
    + intros dest Hd%direct_dials. by subst dest.
    + cbn [effects]. cbn [app]. apply direct_balanced_dial, direct_forward_balanced.
Qed.

(** A direct-streamlocal channel: the application is asked for a connection
    only while the SSH connection is not closing, the channel is accepted only
    with one, a refusal by [ErrServerPermissionDenied] is answered as
    prohibited, and whatever fails nothing is left open. *)
Theorem direct_streamlocal_gated denied callback payload env acceptErr rejectErr ctx eh :
  let p := DirectStreamLocalHandler denied callback payload env in
  let w := handleChannel acceptErr rejectErr ctx eh (to_channel p) in
  let asked path := exists cb, callback = Some cb /\ payload = inr path /\ d_acquires env = true in
  (forall path, DDial path ∈ effects acceptErr p -> asked path) /\
  ((0 < accepts (chevents w))%nat -> exists cb path, callback = Some cb /\ asked path /\ cb path = (true, None)) /\
  (forall path, d_missing env = false -> payload = inr path ->
     (callback = None -> ChReject Prohibited "unix forwarding is disabled" ∈ chevents w) /\
     forall cb b e, callback = Some cb -> cb path = (b, Some e) -> d_acquires env = true ->
       errors_Is (Some e) (Some denied) = true -> ChReject Prohibited "unix forwarding is denied" ∈ chevents w) /\
  direct_balanced acceptErr (effects acceptErr p).
Proof.
  intros p w asked. subst p w. unfold DirectStreamLocalHandler.
  pose proof (reject_not_accepted acceptErr rejectErr ctx eh) as Hrej.
  pose proof (return_not_accepted acceptErr rejectErr ctx eh) as Hret. unfold not_accepted in *.
  destruct (d_missing env) eqn:Hmi; cbn [effects to_channel].
  { split_and!; [set_solver|rewrite Hrej; lia|done|by split]. }
  destruct payload as [e|path]; cbn [effects to_channel].
  { split_and!; [set_solver|rewrite Hret; lia|done|by split]. }
  destruct callback as [cb|]; cbn [effects to_channel].
  2:{ split_and!; [set_solver|rewrite Hrej; lia| |by split]. intros. split; [intros _; apply reject_answers|done]. }
  destruct (d_acquires env) eqn:Haq; cbn [effects to_channel negb].
  2:{ split_and!; [set_solver|rewrite Hrej; lia|done|by split]. }
  assert (Hask : asked path) by (by exists cb).
  assert (Hone : forall q, q = path -> asked q) by (by intros q ->).
  destruct (cb path) as [b [e|]] eqn:Hcb.
  - destruct (errors_Is (Some e) (Some denied)) eqn:He; destruct b; cbn [effects to_channel];
      (split_and!; [intros q Hq; apply Hone; clear -Hq; set_solver|rewrite ?Hrej, ?Hret; lia| |by split]);
      intros q _ [= <-]; (split; [done|]); intros cb' b' e' [= <-]; rewrite Hcb; intros [= <- <-] _ He'; try congruence; apply reject_answers.
  - destruct b.
    + split_and!; [|by eauto 10| |].
      * intros q Hd%direct_dials. auto.
      * intros q _ [= <-]. split; [done|]. intros cb' b' e' [= <-]. by rewrite Hcb.
      * cbn [effects app]. apply direct_balanced_dial, direct_forward_balanced.
    + cbn [effects to_channel]. split_and!; [intros q Hq; apply Hone; clear -Hq; set_solver|rewrite Hret; lia| |by split].
      intros q _ [= <-]. split; [done|]. intros cb' b' e' [= <-]. by rewrite Hcb.
Qed.
