(* ===== verification/Preparation.v ===== *)
(** Preparation: the configuration of a server before it serves.  Host keys and
    [AddHostKey], the functional options of [options.go], [Serve] and
    [ListenAndServe] of [ssh.go] and [server.go], [KeysEqual], and [prepare] with
    the goroutine that makes a host key, as steps of any number of concurrent
    calls ([server.go]).

    Of the [Server] the record has the fields that these operations read or
    assign.  Values of the application's function types are opaque, except for
    the two functions that the options make themselves. *)
From S2P Require Import Prelude GoErrors.
Local Open Scope string_scope.
Local Open Scope Z_scope.
Local Open Scope list_scope.

Definition ErrServerHostSignerRequired : error := ErrNew 10 "ssh: at least one persistent host signer is required".
Definition errProxyConfigurations : error := ErrNew 11 "ssh: enable proxy protocol accepts at most one configuration".

Section Preparation.
(** The function values of the application, contexts, the PROXY configuration
    with its zero value, and signers with the type of their public key. *)
Context {callable context session_args proxyConfig : Type} (zeroProxyConfig : proxyConfig).
Context {Signer : Type} (key_type : Signer -> string).

Record Server := mkServer {
  Addr : string;
  Handler : option callable;
  HostSigners : list Signer;
  RequireHostSigners : bool;
  PasswordHandler : option callable;
  PublicKeyHandler : option callable;
  KeyboardInteractiveHandler : option callable;
  PtyCallback : option (callable + (session_args -> bool * option error));
  ConnCallback : option callable;
  ErrorHandler : option callable;
  GracefulShutdownHandler : option (callable + (context -> Z * option error));
  ProxyProtocol : option proxyConfig }.

(** [&Server{Addr: addr, Handler: handler}] *)
Definition newServer (addr : string) (handler : option callable) : Server :=
  mkServer addr handler [] false None None None None None None None None.

Definition set_HostSigners l (s : Server) : Server :=
  mkServer (Addr s) (Handler s) l (RequireHostSigners s) (PasswordHandler s) (PublicKeyHandler s) (KeyboardInteractiveHandler s)
    (PtyCallback s) (ConnCallback s) (ErrorHandler s) (GracefulShutdownHandler s) (ProxyProtocol s).

(** The first signer with the type of [key] is overwritten, in place. *)
Fixpoint replaceHostKey (key : Signer) (l : list Signer) : option (list Signer) :=
  match l with
  | [] => None
  | k :: l => if bool_decide (key_type k = key_type key) then Some (key :: l) else cons k <$> replaceHostKey key l
  end.

Definition AddHostKey (key : Signer) (s : Server) : Server :=
  match replaceHostKey key (HostSigners s) with
  | Some l => set_HostSigners l s
  | None => set_HostSigners (HostSigners s ++ [key]) s
  end.

Definition Handle (fn : option callable) (s : Server) : Server :=
  mkServer (Addr s) fn (HostSigners s) (RequireHostSigners s) (PasswordHandler s) (PublicKeyHandler s) (KeyboardInteractiveHandler s)
    (PtyCallback s) (ConnCallback s) (ErrorHandler s) (GracefulShutdownHandler s) (ProxyProtocol s).

(** [srv.handler()]: the configured handler, or the default one of the package. *)
Definition handler (s : Server) (DefaultHandler : option callable) : option callable :=
  match Handler s with Some h => Some h | None => DefaultHandler end.

(** The default handler of the package: [getDefaultHandler] and the function
    [Handle], each one section of [defaultHandlerMu]. *)
Definition getDefaultHandler (DefaultHandler : option callable) : option callable * option callable :=
  (DefaultHandler, DefaultHandler).
Definition default_Handle (fn : option callable) (DefaultHandler : option callable) : option callable := fn.

(** ** Options *)

Definition Option := Server -> option error * Server.

Definition SetOption (s : Server) (option : Option) : Datatypes.option error * Server := option s.

Definition WithGracefulShutdownHandler (handler : option (callable + (context -> Z * option error))) : Option := fun s =>
  (None, mkServer (Addr s) (Handler s) (HostSigners s) (RequireHostSigners s) (PasswordHandler s) (PublicKeyHandler s)
           (KeyboardInteractiveHandler s) (PtyCallback s) (ConnCallback s) (ErrorHandler s) handler (ProxyProtocol s)).
Definition NewGracefulShutdownTimeoutHandler (timeout : Z) : context -> Z * option error := fun _ => (timeout, None).
Definition WithGracefulShutdownTimeout (timeout : Z) : Option :=
  WithGracefulShutdownHandler (Some (inr (NewGracefulShutdownTimeoutHandler timeout))).
Definition WithErrorHandler (handler : option callable) : Option := fun s =>
  (None, mkServer (Addr s) (Handler s) (HostSigners s) (RequireHostSigners s) (PasswordHandler s) (PublicKeyHandler s)
           (KeyboardInteractiveHandler s) (PtyCallback s) (ConnCallback s) handler (GracefulShutdownHandler s) (ProxyProtocol s)).
Definition PasswordAuth (fn : option callable) : Option := fun s =>
  (None, mkServer (Addr s) (Handler s) (HostSigners s) (RequireHostSigners s) fn (PublicKeyHandler s)
           (KeyboardInteractiveHandler s) (PtyCallback s) (ConnCallback s) (ErrorHandler s) (GracefulShutdownHandler s) (ProxyProtocol s)).
Definition PublicKeyAuth (fn : option callable) : Option := fun s =>
  (None, mkServer (Addr s) (Handler s) (HostSigners s) (RequireHostSigners s) (PasswordHandler s) fn
           (KeyboardInteractiveHandler s) (PtyCallback s) (ConnCallback s) (ErrorHandler s) (GracefulShutdownHandler s) (ProxyProtocol s)).
Definition KeyboardInteractiveAuth (fn : option callable) : Option := fun s =>
  (None, mkServer (Addr s) (Handler s) (HostSigners s) (RequireHostSigners s) (PasswordHandler s) (PublicKeyHandler s) fn
           (PtyCallback s) (ConnCallback s) (ErrorHandler s) (GracefulShutdownHandler s) (ProxyProtocol s)).
Definition NoPty : Option := fun s =>
  (None, mkServer (Addr s) (Handler s) (HostSigners s) (RequireHostSigners s) (PasswordHandler s) (PublicKeyHandler s)
           (KeyboardInteractiveHandler s) (Some (inr (fun _ => (false, None)))) (ConnCallback s) (ErrorHandler s)
           (GracefulShutdownHandler s) (ProxyProtocol s)).
Definition WrapConn (fn : option callable) : Option := fun s =>
  (None, mkServer (Addr s) (Handler s) (HostSigners s) (RequireHostSigners s) (PasswordHandler s) (PublicKeyHandler s)
           (KeyboardInteractiveHandler s) (PtyCallback s) fn (ErrorHandler s) (GracefulShutdownHandler s) (ProxyProtocol s)).
Definition EnableProxyProtocol (config : list proxyConfig) : Option := fun s =>
  match config with
  | _ :: _ :: _ => (Some errProxyConfigurations, s)
  | _ =>
      (None, mkServer (Addr s) (Handler s) (HostSigners s) (RequireHostSigners s) (PasswordHandler s) (PublicKeyHandler s)
               (KeyboardInteractiveHandler s) (PtyCallback s) (ConnCallback s) (ErrorHandler s) (GracefulShutdownHandler s)
               (Some (default zeroProxyConfig (head config))))
  end.

(** [gossh.ParsePrivateKey] and [os.ReadFile] are parameters. *)
Definition HostKeyPEM (ParsePrivateKey : list byte -> error + Signer) (bytes : list byte) : Option := fun s =>
  match ParsePrivateKey bytes with inl e => (Some e, s) | inr signer => (None, AddHostKey signer s) end.
Definition HostKeyFile (ReadFile : string -> error + list byte) (ParsePrivateKey : list byte -> error + Signer)
    (filepath : string) : Option := fun s =>
  match ReadFile filepath with inl e => (Some e, s) | inr pemBytes => HostKeyPEM ParsePrivateKey pemBytes s end.

(** ** Starting a server *)

(** The loop of [Serve] and [ListenAndServe] over their options. *)
Fixpoint applyOptions (options : list Option) (s : Server) : error + Server :=
  match options with
  | [] => inr s
  | option :: options =>
      match SetOption s option with
      | (Some e, _) => inl e
      | (None, s) => applyOptions options s
      end
  end.

(** [serve] and [listen] are the rest of the program: [Server.Serve] on a
    listener and [net.ListenConfig.Listen]. *)
Context {Listener : Type} (serve : Server -> Listener -> option error) (listen : string -> error + Listener).

Definition Serve (l : Listener) (handler : option callable) (options : list Option) : option error :=
  match applyOptions options (newServer "" handler) with
  | inl e => Some e
  | inr srv => serve srv l
  end.

Definition server_ListenAndServe (s : Server) : option error :=
  match listen (if bool_decide (Addr s = "") then ":22" else Addr s) with
  | inl e => Some e
  | inr ln => serve s ln
  end.

Definition ListenAndServe (addr : string) (handler : option callable) (options : list Option) : option error :=
  match applyOptions options (newServer addr handler) with
  | inl e => Some e
  | inr srv => server_ListenAndServe srv
  end.

(** ** Host keys after configuration *)

(** One key of every type. *)
Definition host_keys_ok (l : list Signer) : Prop := NoDup (map key_type l).

(** The key of a type. *)
Fixpoint host_key (t : string) (l : list Signer) : option Signer :=
  match l with [] => None | k :: l => if bool_decide (key_type k = t) then Some k else host_key t l end.

Lemma replaceHostKey_spec key l :
  match replaceHostKey key l with
  | Some l' => key_type key ∈ map key_type l /\ map key_type l' = map key_type l /\
               forall t, host_key t l' = if bool_decide (key_type key = t) then Some key else host_key t l
  | None => key_type key ∉ map key_type l
  end.
Proof.
  induction l as [|k l IH]; cbn; [apply not_elem_of_nil|].
  case_bool_decide as Hk; cbn.
  - split_and!; [rewrite Hk; left|by rewrite Hk|]. intros t. rewrite Hk. by case_bool_decide.
  - destruct (replaceHostKey key l) as [l'|]; cbn.
    + destruct IH as (Hin & Hmap & Hfind). split_and!; [by right|by rewrite Hmap|]. intros t.
      rewrite Hfind. repeat case_bool_decide; congruence.
    + rewrite not_elem_of_cons. split; [congruence|done].
Qed.

Lemma host_key_app t l l' : host_key t (l ++ l') = match host_key t l with Some k => Some k | None => host_key t l' end.
Proof. induction l as [|k l IH]; cbn; [done|]. by case_bool_decide. Qed.

Lemma host_key_None t l : t ∉ map key_type l -> host_key t l = None.
Proof.
  induction l as [|k l IH]; cbn; [done|]. rewrite not_elem_of_cons. intros [H1 H2]. case_bool_decide; [congruence|auto].
Qed.

Lemma AddHostKey_spec key s :
  (host_keys_ok (HostSigners s) -> host_keys_ok (HostSigners (AddHostKey key s))) /\
  (forall t, host_key t (HostSigners (AddHostKey key s)) = if bool_decide (key_type key = t) then Some key else host_key t (HostSigners s)) /\
  HostSigners (AddHostKey key s) <> [].
Proof.
  unfold AddHostKey, host_keys_ok. pose proof (replaceHostKey_spec key (HostSigners s)) as H.
  destruct (replaceHostKey key (HostSigners s)) as [l'|]; cbn.
  - destruct H as (Hin & -> & Hfind). split_and!; [done|done|]. intros ->.
    specialize (Hfind (key_type key)). by rewrite bool_decide_true in Hfind.
  - split_and!.
    + intros HN. rewrite List.map_app. apply NoDup_app. split_and!; [done| |apply NoDup_singleton].
      intros x Hx Hx'. apply list_elem_of_singleton in Hx'. congruence.
    + intros t. rewrite host_key_app. cbn. case_bool_decide as Ht.
      * rewrite host_key_None; [done|congruence].
      * by destruct (host_key t (HostSigners s)).
    + by destruct (HostSigners s).
Qed.

(** ** What the options of the package configure *)

Section Options.
Variable ReadFile : string -> error + list byte.
Variable ParsePrivateKey : list byte -> error + Signer.

Inductive packageOption :=
| OGracefulHandler (handler : option (callable + (context -> Z * option error)))
| OGracefulTimeout (timeout : Z)
| OErrorHandler (handler : option callable)
| OPassword (fn : option callable)
| OPublicKey (fn : option callable)
| OKeyboardInteractive (fn : option callable)
| ONoPty
| OWrapConn (fn : option callable)
| OProxyProtocol (config : list proxyConfig)
| OHostKeyPEM (bytes : list byte)
| OHostKeyFile (filepath : string).

Definition package_option (o : packageOption) : Option :=
  match o with
  | OGracefulHandler handler => WithGracefulShutdownHandler handler
  | OGracefulTimeout timeout => WithGracefulShutdownTimeout timeout
  | OErrorHandler handler => WithErrorHandler handler
  | OPassword fn => PasswordAuth fn
  | OPublicKey fn => PublicKeyAuth fn
  | OKeyboardInteractive fn => KeyboardInteractiveAuth fn
  | ONoPty => NoPty
  | OWrapConn fn => WrapConn fn
  | OProxyProtocol config => EnableProxyProtocol config
  | OHostKeyPEM bytes => HostKeyPEM ParsePrivateKey bytes
  | OHostKeyFile filepath => HostKeyFile ReadFile ParsePrivateKey filepath
  end.

(** What an option contributes: an error, a key, the value of a field. *)
Definition read_key (o : packageOption) : option (error + Signer) :=
  match o with
  | OHostKeyPEM bytes => Some (ParsePrivateKey bytes)
  | OHostKeyFile filepath => Some (match ReadFile filepath with inl e => inl e | inr bytes => ParsePrivateKey bytes end)
  | _ => None
  end.
Definition option_error (o : packageOption) : option error :=
  match o with
  | OProxyProtocol (_ :: _ :: _) => Some errProxyConfigurations
  | _ => match read_key o with Some (inl e) => Some e | _ => None end
  end.
Definition option_key (t : string) (o : packageOption) : option (option Signer) :=
  match read_key o with Some (inr k) => if bool_decide (key_type k = t) then Some (Some k) else None | _ => None end.

(** The value that the last option with one gives, or [d]. *)
Definition lastly {B} (f : packageOption -> option B) (d : B) (l : list packageOption) : B :=
  foldl (fun d o => default d (f o)) d l.

(** A server [s'] that has been configured from [s]. *)
Record configured (s : Server) (opts : list packageOption) (s' : Server) : Prop := mkConfigured {
  cf_Addr : Addr s' = Addr s;
  cf_Handler : Handler s' = Handler s;
  cf_RequireHostSigners : RequireHostSigners s' = RequireHostSigners s;
  cf_HostSigners : forall t, host_key t (HostSigners s') = lastly (option_key t) (host_key t (HostSigners s)) opts;
  cf_distinct : host_keys_ok (HostSigners s) -> host_keys_ok (HostSigners s');
  cf_PasswordHandler : PasswordHandler s' = lastly (fun o => if o is OPassword fn then Some fn else None) (PasswordHandler s) opts;
  cf_PublicKeyHandler : PublicKeyHandler s' = lastly (fun o => if o is OPublicKey fn then Some fn else None) (PublicKeyHandler s) opts;
  cf_KeyboardInteractiveHandler :
    KeyboardInteractiveHandler s' = lastly (fun o => if o is OKeyboardInteractive fn then Some fn else None) (KeyboardInteractiveHandler s) opts;
  cf_PtyCallback :
    PtyCallback s' = lastly (fun o => if o is ONoPty then Some (Some (inr (fun _ => (false, None)))) else None) (PtyCallback s) opts;
  cf_ConnCallback : ConnCallback s' = lastly (fun o => if o is OWrapConn fn then Some fn else None) (ConnCallback s) opts;
  cf_ErrorHandler : ErrorHandler s' = lastly (fun o => if o is OErrorHandler fn then Some fn else None) (ErrorHandler s) opts;
  cf_GracefulShutdownHandler :
    GracefulShutdownHandler s' =
    lastly (fun o => match o with
                     | OGracefulHandler h => Some h
                     | OGracefulTimeout t => Some (Some (inr (fun _ => (t, None))))
                     | _ => None
                     end) (GracefulShutdownHandler s) opts;
  cf_ProxyProtocol :
    ProxyProtocol s' = lastly (fun o => if o is OProxyProtocol l then Some (Some (default zeroProxyConfig (head l))) else None) (ProxyProtocol s) opts }.

Lemma AddHostKey_fields key s :
  exists l, AddHostKey key s = set_HostSigners l s.
Proof. unfold AddHostKey. destruct replaceHostKey; eauto. Qed.

Lemma AddHostKey_configured key s o :
  read_key o = Some (inr key) -> configured s [o] (AddHostKey key s).
Proof.
  intros Ho. destruct (AddHostKey_spec key s) as (Hok & Hkeys & _).
  destruct (AddHostKey_fields key s) as [l Hl]. rewrite Hl in *. cbn in *.
  assert (Ht : forall t, host_key t l = lastly (option_key t) (host_key t (HostSigners s)) [o]).
  { intros t. rewrite Hkeys. unfold lastly, option_key. cbn. rewrite Ho. by case_bool_decide. }
  destruct o; try done; by split.
Qed.

(** One option. *)
Lemma package_option_spec o s :
  match package_option o s with
  | (Some e, _) => option_error o = Some e
  | (None, s') => option_error o = None /\ configured s [o] s'
  end.
Proof.
  destruct o; try (split; [done|by split]); cbn.
  - destruct config as [|c [|c' config]]; cbn; [split; [done|by split]..|done].
  - unfold HostKeyPEM, option_error. cbn. destruct (ParsePrivateKey bytes) eqn:E; [done|]. split; [done|].
    apply AddHostKey_configured. by rewrite <- E.
  - unfold HostKeyFile, HostKeyPEM, option_error. cbn. destruct (ReadFile filepath) as [e|bytes] eqn:F; [done|].
    destruct (ParsePrivateKey bytes) eqn:E; [done|]. split; [done|].
    apply AddHostKey_configured. cbn. by rewrite F, E.
Qed.

Lemma configured_nil s : configured s [] s.
Proof. by split. Qed.

Lemma configured_cons s o s1 opts s2 : configured s [o] s1 -> configured s1 opts s2 -> configured s (o :: opts) s2.
Proof.
  intros [] []. split; unfold lastly in *; cbn in *; try congruence; auto.
  intros t. rewrite cf_HostSigners1. by rewrite cf_HostSigners0.
Qed.

Lemma applyOptions_spec opts s :
  match applyOptions (map package_option opts) s with
  | inl e => head (omap option_error opts) = Some e
  | inr s' => omap option_error opts = [] /\ configured s opts s'
  end.
Proof.
  revert s. induction opts as [|o opts IH]; intros s; cbn; [split; [done|apply configured_nil]|].
  unfold SetOption. pose proof (package_option_spec o s) as H. destruct (package_option o s) as [[e|] s1]; [by rewrite H|].
  destruct H as [-> H]. specialize (IH s1). destruct (applyOptions _ s1); [done|].
  destruct IH as [-> IH]. split; [done|]. by eapply configured_cons.
Qed.

(** C38. [Serve] with options of the package serves exactly when no option fails,
    and otherwise returns the error of the first one that does without touching
    the listener.  The server it serves has, of every option, the value of its
    last use, and of every type of host key the last one that was loaded; its
    host keys have pairwise different types, and nothing else is configured. *)
Theorem serve_configured l handler opts :
  (omap option_error opts <> [] /\ Serve l handler (map package_option opts) = head (omap option_error opts)) \/
  (omap option_error opts = [] /\
   exists s, Serve l handler (map package_option opts) = serve s l /\
     configured (newServer "" handler) opts s /\ host_keys_ok (HostSigners s)).
Proof.
  unfold Serve. pose proof (applyOptions_spec opts (newServer "" handler)) as H.
  destruct (applyOptions _ _) as [e|s].
  - left. split; [by intros E; rewrite E in H|done].
  - right. destruct H as [He H]. split; [done|]. exists s. split_and!; [done|done|]. apply H, NoDup_nil_2.
Qed.
End Options.
End Preparation.

(** ** Comparing keys *)

Definition byte_value (b : byte) : Z := Z.of_N (Byte.to_N b).

(** [subtle.ConstantTimeByteEq] on [uint8] and [subtle.ConstantTimeCompare]. *)
Definition ConstantTimeByteEq (x y : Z) : Z := Z.shiftr (uwrap 32 (Z.lxor x y - 1)) 31.
Definition ConstantTimeCompare (x y : list byte) : Z :=
  if negb (length x =? length y)%nat then 0
  else ConstantTimeByteEq (foldl (fun v '(a, b) => Z.lor v (Z.lxor (byte_value a) (byte_value b))) 0 (zip x y)) 0.

(** A key is [None] or what its [Marshal] returns. *)
Definition KeysEqual (ak bk : option (list byte)) : bool :=
  match ak, bk with
  | Some a, Some b => (length a =? length b)%nat && (ConstantTimeCompare a b =? 1)
  | _, _ => false
  end.

Lemma byte_value_range b : 0 <= byte_value b < 2 ^ 8.
Proof. unfold byte_value. pose proof (Byte.to_N_bounded b). lia. Qed.

Lemma byte_value_inj a b : byte_value a = byte_value b -> a = b.
Proof.
  unfold byte_value. intros H%N2Z.inj. apply (f_equal Byte.of_N) in H. rewrite !Byte.of_to_N in H. by simplify_eq.
Qed.

(** Bitwise operations stay within a width. *)
Lemma mask_range w x : 0 <= w -> Z.land x (Z.ones w) = x -> 0 <= x < 2 ^ w.
Proof. intros Hw E. rewrite Z.land_ones in E by done. rewrite <- E. apply Z.mod_pos_bound, Z.pow_pos_nonneg; lia. Qed.

Lemma range_mask w x : 0 <= w -> 0 <= x < 2 ^ w -> Z.land x (Z.ones w) = x.
Proof. intros. rewrite Z.land_ones by done. by apply Z.mod_small. Qed.

Lemma lor_range w x y : 0 <= w -> 0 <= x < 2 ^ w -> 0 <= y < 2 ^ w -> 0 <= Z.lor x y < 2 ^ w.
Proof. intros. apply mask_range; [done|]. by rewrite Z.land_lor_distr_l, !range_mask. Qed.

Lemma lxor_range w x y : 0 <= w -> 0 <= x < 2 ^ w -> 0 <= y < 2 ^ w -> 0 <= Z.lxor x y < 2 ^ w.
Proof.
  intros Hw Hx Hy. apply mask_range; [done|]. rewrite <- (range_mask w x), <- (range_mask w y) by done.
  apply Z.bits_inj'. intros i Hi. rewrite !Z.land_spec, !Z.lxor_spec, !Z.land_spec.
  by destruct (Z.testbit x i), (Z.testbit y i), (Z.testbit (Z.ones w) i).
Qed.

Lemma ConstantTimeByteEq_spec v : 0 <= v < 2 ^ 8 -> ConstantTimeByteEq v 0 = if v =? 0 then 1 else 0.
Proof.
  intros Hv. unfold ConstantTimeByteEq, uwrap. rewrite Z.lxor_0_r, Z.shiftr_div_pow2 by lia.
  destruct (Z.eqb_spec v 0) as [->|]; [reflexivity|]. rewrite Z.mod_small by lia. apply Z.div_small. lia.
Qed.

Lemma accumulate_spec l v :
  0 <= v < 2 ^ 8 ->
  let v' := foldl (fun v '(a, b) => Z.lor v (Z.lxor (byte_value a) (byte_value b))) v l in
  0 <= v' < 2 ^ 8 /\ (v' = 0 <-> v = 0 /\ Forall (fun '(a, b) => a = b) l).
Proof.
  revert v. induction l as [|[a b] l IH]; intros v Hv; cbn -[Z.pow]; [by split; [|split; [|intros []]]|].
  destruct (IH (Z.lor v (Z.lxor (byte_value a) (byte_value b)))) as [Hr Hz].
  { apply lor_range; [lia|done|]. apply lxor_range; [lia|apply byte_value_range..]. }
  split; [done|]. cbn in Hz. rewrite Hz, Z.lor_eq_0_iff, Z.lxor_eq_0_iff, Forall_cons. split.
  - intros [[-> ?%byte_value_inj] ?]. done.
  - by intros [-> [-> ?]].
Qed.

Lemma zip_eq {A} (x y : list A) : length x = length y -> Forall (fun '(a, b) => a = b) (zip x y) <-> x = y.
Proof.
  revert y. induction x as [|a x IH]; intros [|b y]; cbn; intros Hl; try done; simplify_eq.
  rewrite Forall_cons, IH by done. split; [intros [-> ->]; done|]. by intros [= -> ->].
Qed.

(** [KeysEqual] agrees with equality: it holds exactly when both keys are
    there and their encodings are the same bytes, although it compares them
    without a branch on their contents; nil keys do not panic and equal nothing. *)
Theorem KeysEqual_exact ak bk :
  KeysEqual ak bk = true <-> exists bytes, ak = Some bytes /\ bk = Some bytes.
Proof.
  destruct ak as [a|], bk as [b|]; cbn; [|naive_solver..].
  unfold ConstantTimeCompare. destruct (Nat.eqb_spec (length a) (length b)) as [Hl|Hl]; cbn -[foldl]; [|naive_solver].
  destruct (accumulate_spec (zip a b) 0) as [Hr Hz]; [lia|]. rewrite ConstantTimeByteEq_spec by done. rewrite zip_eq in Hz by done.
  destruct (Z.eqb_spec (foldl (fun v '(a, b) => Z.lor v (Z.lxor (byte_value a) (byte_value b))) 0 (zip a b)) 0) as [E|E]; cbn.
  - apply Hz in E as [_ ->]. naive_solver.
  - split; [done|]. intros (c & [= ->] & [= ->]). naive_solver.
Qed.

(** The key of a server that has none; crypto/rsa and x/crypto/ssh are arguments. *)
Definition generateSigner {Key Signer} (GenerateKey : Z -> error + Key) (NewSignerFromKey : Key -> error + Signer) : error + Signer :=
  match GenerateKey 2048 with
  | inl err => inl err
  | inr key => NewSignerFromKey key
  end.

(** ** [prepare]

    Any number of [Serve] and [HandleConn] calls prepare the server at the same
    time.  The first to get through [prepareOnce] starts the goroutine; the body
    of the [Once] only makes a channel and starts it, and is one step.  The
    configuration does not change any more. *)
Section Prepare.
Context {Signer : Type}.
Variable HostSigners : list Signer.
Variable RequireHostSigners : bool.
Variable generated : error + Signer.    (* what generateSigner returns *)

Inductive preparer :=
| PrepNone               (* prepareOnce has not run *)
| PrepChecking           (* the goroutine has been started *)
| PrepGenerating         (* in generateSigner *)
| PrepClosing            (* before the deferred close *)
| PrepEnded.

#[export] Instance preparer_eq_dec : EqDecision preparer.
Proof. solve_decision. Defined.

Inductive prepareCall :=
| CEntering
| CSelecting             (* in the select *)
| CReceived (err : option error)    (* returned srv.prepareErr *)
| CCancelled (cause : error).       (* returned the cause of its context *)

Record prepareState := mkPrepare {
  goroutine : preparer;
  doneClosed : nat;                  (* how often prepareDone has been closed *)
  prepareErr : option error;
  generatedHostSigners : list Signer;
  generations : nat;                 (* calls of generateSigner *)
  calls : list prepareCall }.

Inductive prepareAction :=
| AEnter (i : nat)                   (* prepareOnce.Do *)
| AReceive (i : nat)                 (* case <-srv.prepareDone *)
| ACancelled (i : nat) (cause : error)   (* case <-ctx.Done() *)
| APrepare.                          (* the goroutine goes on *)

Definition set_call (i : nat) (c : prepareCall) (s : prepareState) : prepareState :=
  mkPrepare (goroutine s) (doneClosed s) (prepareErr s) (generatedHostSigners s) (generations s) (<[i := c]> (calls s)).

Definition set_goroutine (g : preparer) (s : prepareState) : prepareState :=
  mkPrepare g (doneClosed s) (prepareErr s) (generatedHostSigners s) (generations s) (calls s).

(** A step of the goroutine. *)
Definition prepare_goroutine (s : prepareState) : option prepareState :=
  match goroutine s with
  | PrepChecking =>
      match HostSigners with
      | _ :: _ => Some (set_goroutine PrepClosing s)
      | [] =>
          if RequireHostSigners then
            Some (mkPrepare PrepClosing (doneClosed s) (Some ErrServerHostSignerRequired) (generatedHostSigners s) (generations s) (calls s))
          else Some (mkPrepare PrepGenerating (doneClosed s) (prepareErr s) (generatedHostSigners s) (S (generations s)) (calls s))
      end
  | PrepGenerating =>
      match generated with
      | inl err => Some (mkPrepare PrepClosing (doneClosed s) (Some err) (generatedHostSigners s) (generations s) (calls s))
      | inr signer => Some (mkPrepare PrepClosing (doneClosed s) (prepareErr s) [signer] (generations s) (calls s))
      end
  | PrepClosing => Some (mkPrepare PrepEnded (S (doneClosed s)) (prepareErr s) (generatedHostSigners s) (generations s) (calls s))
  | PrepNone | PrepEnded => None
  end.

Definition prepare_exec (a : prepareAction) (s : prepareState) : option prepareState :=
  match a with
  | AEnter i =>
      match calls s !! i with
      | Some CEntering =>
          Some (set_call i CSelecting (match goroutine s with PrepNone => set_goroutine PrepChecking s | _ => s end))
      | _ => None
      end
  | AReceive i =>
      match calls s !! i with
      | Some CSelecting => if (0 <? doneClosed s)%nat then Some (set_call i (CReceived (prepareErr s)) s) else None
      | _ => None
      end
  | ACancelled i cause =>
      match calls s !! i with
      | Some CSelecting => Some (set_call i (CCancelled cause) s)
      | _ => None
      end
  | APrepare => prepare_goroutine s
  end.

Fixpoint prepare_run (l : list prepareAction) (s : prepareState) : option prepareState :=
  match l with
  | [] => Some s
  | a :: l => match prepare_exec a s with Some s => prepare_run l s | None => None end
  end.

Definition prepare_init (n : nat) : prepareState := mkPrepare PrepNone 0 None [] 0 (replicate n CEntering).

(** [srv.hostSigners()] *)
Definition hostSigners (s : prepareState) : list Signer :=
  match HostSigners with _ :: _ => HostSigners | [] => generatedHostSigners s end.

(** *** What the preparation comes to *)

Definition prepared_error : option error :=
  match HostSigners, RequireHostSigners, generated with
  | _ :: _, _, _ => None
  | [], true, _ => Some ErrServerHostSignerRequired
  | [], false, inl err => Some err
  | [], false, inr _ => None
  end.
Definition prepared_signers : list Signer :=
  match HostSigners, RequireHostSigners, generated with
  | _ :: _, _, _ => HostSigners
  | [], false, inr signer => [signer]
  | [], _, _ => []
  end.

Definition progress (g : preparer) : nat :=
  match g with PrepNone => 4 | PrepChecking => 3 | PrepGenerating => 2 | PrepClosing => 1 | PrepEnded => 0 end.

Record prepare_inv (s : prepareState) : Prop := mkPrepareInv {
  pi_closed : doneClosed s = if goroutine s is PrepEnded then 1%nat else 0%nat;
  pi_generations : (generations s <= 1)%nat /\ (0 < generations s -> HostSigners = [] /\ RequireHostSigners = false)%nat;
  pi_before : (2 < progress (goroutine s))%nat -> generations s = 0%nat /\ prepareErr s = None /\ generatedHostSigners s = [];
  pi_generating : goroutine s = PrepGenerating ->
    HostSigners = [] /\ RequireHostSigners = false /\ prepareErr s = None /\ generatedHostSigners s = [];
  pi_after : (progress (goroutine s) < 2)%nat -> prepareErr s = prepared_error /\ hostSigners s = prepared_signers;
  pi_calls : forall i c, calls s !! i = Some c ->
    match c with
    | CEntering => True
    | CSelecting | CCancelled _ => goroutine s <> PrepNone
    | CReceived err => goroutine s = PrepEnded /\ err = prepared_error
    end }.

Lemma prepare_init_inv n : prepare_inv (prepare_init n).
Proof.
  split; cbn; try done; try lia. intros i c H. by apply lookup_replicate in H as [-> _].
Qed.

Lemma goroutine_inv s s' : prepare_inv s -> prepare_goroutine s = Some s' -> prepare_inv s'.
Proof.
  intros [Hcl [Hg1 Hg2] Hbef Hgen Haf Hcalls]. unfold prepare_goroutine, hostSigners, prepared_error, prepared_signers, set_goroutine in *.
  destruct s as [g d pe gs gn cl]; destruct g; cbn in *; try done.
  - destruct (Hbef ltac:(lia)) as (-> & -> & ->). repeat case_match; try done; intros [= <-]; split; cbn; try done; try lia;
      try (intros _; unfold hostSigners, prepared_error, prepared_signers; cbn; by repeat case_match; simplify_eq);
      intros i c Hi; specialize (Hcalls i c Hi); destruct c; naive_solver.
  - destruct (Hgen eq_refl) as (EH & ER & -> & ->). rewrite EH, ER in *. repeat case_match; intros [= <-]; split; cbn; try done; try lia;
      try (intros _; unfold hostSigners, prepared_error, prepared_signers; cbn; by repeat case_match; simplify_eq);
      intros i c Hi; specialize (Hcalls i c Hi); destruct c; naive_solver.
  - intros [= <-]; split; cbn; try done; try lia; [intros _; apply Haf; lia|].
    intros i c Hi; specialize (Hcalls i c Hi); destruct c; naive_solver.
Qed.

Lemma prepare_exec_inv a s s' : prepare_inv s -> prepare_exec a s = Some s' -> prepare_inv s'.
Proof.
  intros H. destruct a as [i|i|i cause|]; cbn; [| | |by apply goroutine_inv].
  all: destruct (calls s !! i) as [c|] eqn:Hi; [|done]; destruct c; try done.
  - intros [= <-]. destruct H as [Hcl [Hg1 Hg2] Hbef Hgen Haf Hcalls].
    destruct s as [g d pe gs gn cl]; destruct g; cbn in *; split; cbn in *; try done; try lia;
      try (intros _; apply Hbef; lia); intros j c' [[<- [<- _]]|[_ Hj]]%list_lookup_insert_Some;
      try done; specialize (Hcalls j c' Hj); destruct c'; naive_solver.
  - destruct (doneClosed s) eqn:Hd; [done|]. intros [= <-].
    destruct H as [Hcl [Hg1 Hg2] Hbef Hgen Haf Hcalls]. assert (goroutine s = PrepEnded) as He by (destruct (goroutine s); (done || lia)).
    split; cbn in *; try done; try congruence. intros j c' [[<- [<- _]]|[_ Hj]]%list_lookup_insert_Some; [|by apply (Hcalls j c')].
    split; [done|]. apply Haf. rewrite He. cbn. lia.
  - intros [= <-]. destruct H as [Hcl [Hg1 Hg2] Hbef Hgen Haf Hcalls]. split; cbn in *; try done.
    intros j c' [[<- [<- _]]|[_ Hj]]%list_lookup_insert_Some; [by apply (Hcalls i _ Hi)|by apply (Hcalls j c')].
Qed.

Lemma prepare_run_inv l s s' : prepare_inv s -> prepare_run l s = Some s' -> prepare_inv s'.
Proof.
  revert s. induction l as [|a l IH]; cbn; intros s H; [by intros [= <-]|].
  destruct (prepare_exec a s) eqn:E; [|done]. apply IH. by eapply prepare_exec_inv.
Qed.

(** A goroutine that exists ends after at most three steps. *)
Lemma preparer_goes_on s : goroutine s <> PrepNone -> goroutine s <> PrepEnded -> exists s', prepare_exec APrepare s = Some s'.
Proof. cbn. unfold prepare_goroutine. intros. destruct (goroutine s), HostSigners, RequireHostSigners, generated; done || eauto. Qed.

Definition call_work (c : prepareCall) : nat := match c with CEntering => 2 | CSelecting => 1 | _ => 0 end.
Definition prepare_work (s : prepareState) : Z := Z.of_nat (progress (goroutine s)) + sumZ (fun c => Z.of_nat (call_work c)) (calls s).

Lemma prepare_work_decreases a s s' : prepare_exec a s = Some s' -> 0 <= prepare_work s' < prepare_work s.
Proof.
  unfold prepare_work. intros H.
  split; [pose proof (sumZ_nonneg (fun c => Z.of_nat (call_work c)) (calls s') (fun _ => Nat2Z.is_nonneg _)); lia|]. destruct a as [i|i|i cause|]; cbn in H.
  4: unfold prepare_goroutine, set_goroutine in H; destruct s as [g]; destruct g; cbn in H; repeat case_match; simplify_eq; cbn [goroutine progress calls]; lia.
  all: destruct s as [g d pe gs gn cl]; cbn in H; destruct (cl !! i) as [c|] eqn:Hi; [|done]; destruct c; try done;
    destruct g; repeat case_match; simplify_eq; unfold set_call, set_goroutine; cbn [calls goroutine];
    rewrite (sumZ_insert _ _ _ _ _ Hi); cbn [call_work progress]; lia.
Qed.

Lemma prepare_run_length l s s' : prepare_run l s = Some s' -> Z.of_nat (length l) <= prepare_work s - prepare_work s'.
Proof.
  revert s. induction l as [|a l IH]; cbn -[Z.of_nat]; intros s H; [simplify_eq; lia|].
  destruct (prepare_exec a s) as [s1|] eqn:E; [|done]. apply IH in H. apply prepare_work_decreases in E. lia.
Qed.

Lemma prepare_init_work n : prepare_work (prepare_init n) = 4 + 2 * Z.of_nat n.
Proof. unfold prepare_work. cbn. induction n as [|n IH]; cbn -[Z.of_nat] in *; lia. Qed.

(** C29. However many calls prepare a server at the same time and however they
    interleave: at most one host key is generated, and none if one is configured
    or required; [prepareDone] is closed at most once; every call that does not
    end with its context gets the same answer, which is nil exactly when there
    is a host signer to serve with, and from then on the signers stay the same;
    every execution ends; and when it cannot go on but by the end of a context
    every call has returned. *)
Theorem prepare_once n l s :
  prepare_run l (prepare_init n) = Some s ->
  (generations s <= 1)%nat /\ ((0 < generations s)%nat -> HostSigners = [] /\ RequireHostSigners = false) /\ (doneClosed s <= 1)%nat /\
  (forall i err, calls s !! i = Some (CReceived err) ->
     err = prepared_error /\ hostSigners s = prepared_signers /\ (err = None <-> hostSigners s <> [])) /\
  (length l <= 4 + 2 * n)%nat /\
  ((forall a, (forall i cause, a <> ACancelled i cause) -> prepare_exec a s = None) ->
   forall c, c ∈ calls s -> (exists err, c = CReceived err) \/ exists cause, c = CCancelled cause).
Proof.
  intros Hrun. pose proof (prepare_run_inv _ _ _ (prepare_init_inv n) Hrun) as [Hcl [Hg1 Hg2] Hbef Hgen Haf Hcalls].
  pose proof (prepare_run_length _ _ _ Hrun) as Hlen. rewrite prepare_init_work in Hlen. split_and!; [done|done| | | |].
  - rewrite Hcl. case_match; lia.
  - intros i err Hi. destruct (Hcalls _ _ Hi) as [He ->]. rewrite He in Haf. destruct Haf as [_ ->]; [cbn; lia|].
    split_and!; [done|done|]. unfold prepared_error, prepared_signers. repeat case_match; split; intros; congruence.
  - assert (0 <= prepare_work s); [|lia]. unfold prepare_work.
    pose proof (sumZ_nonneg (fun c => Z.of_nat (call_work c)) (calls s) (fun _ => Nat2Z.is_nonneg _)). lia.
  - intros Hstuck c [i Hi]%list_elem_of_lookup_1. destruct c as [| |err|cause]; [| |eauto|eauto]; exfalso.
    + specialize (Hstuck (AEnter i) ltac:(done)). cbn in Hstuck. by rewrite Hi in Hstuck.
    + destruct (decide (goroutine s = PrepEnded)) as [He|He].
      * specialize (Hstuck (AReceive i) ltac:(done)). cbn in Hstuck. by rewrite Hi, Hcl, He in Hstuck.
      * destruct (preparer_goes_on s (Hcalls _ _ Hi) He) as [s' Hs']. by rewrite Hstuck in Hs'.
Qed.
End Prepare.

(** Two calls: the first waits for the host key, the context of the second ends. *)
Definition sample_preparation : list prepareAction :=
  [AEnter 0; AEnter 1; APrepare; ACancelled 1 context_Canceled; APrepare; APrepare; AReceive 0].
Definition sample_prepared : prepareState (Signer := string) :=
  mkPrepare PrepEnded 1 None ["rsa"] 1 [CReceived None; CCancelled context_Canceled].

Definition sample_signer : error + string := generateSigner (fun bits => inr bits) (fun key => inr "rsa").

Lemma prepare_once_witness :
  prepare_run [] false sample_signer sample_preparation (prepare_init 2) = Some sample_prepared /\
  hostSigners [] sample_prepared = ["rsa"] /\
  (generations sample_prepared <= 1)%nat.
Proof.
  assert (H : prepare_run [] false sample_signer sample_preparation (prepare_init 2) = Some sample_prepared) by reflexivity.
  destruct (prepare_once [] false sample_signer 2 sample_preparation sample_prepared H) as (Hg & _ & _ & Hr & _).
  split_and!; [done| |done]. by destruct (Hr 0%nat None eq_refl) as (_ & -> & _).
Defined.
