(* ===== verification/Serving.v ===== *)
(** Serving: the composition of the parts.  [newServeContext] with the
    preparation and the scope, the whole of [Serve] over the scope that
    [Lifecycle] models and the accept loop of [Server], and [HandleConn]
    ([server.go], [lifecycle.go]). *)
From S2P Require Import Prelude GoErrors Settings ErrorDispatch Lifecycle Server.
Local Open Scope Z_scope.

(** [newServeContext] with what [prepare] returns: a scope, or an error that
    includes what closing the listener has reported. *)
Definition prepareScope (listener_Close : option error) (prepared : option error) : option error + serveContext :=
  match prepared with
  | Some err => inl (errors_Join [Some err; closeListener listener_Close])
  | None => inr newServeContext
  end.

Section Serving.
Variable int_bits : Z.
Variable MaxStartups : option MaxStartupsConfig.
Variable listener_Close : option error.
Variable close_result : nat -> option error.
(** The dispatch of the errors of [Accept]. *)
Variable ctx : dispatchContext.
Variable errorHandler : option ErrorHandler.
(** [context.Cause(ctx)] after its end, and what [GracefulShutdownHandler] returns. *)
Variable ctxCause : option error.
Variable graceful : option (Z * option error).

Local Abbreviation lcstep := (lcstep int_bits MaxStartups listener_Close).
Local Abbreviation lcreachable := (lcreachable int_bits MaxStartups listener_Close).

(** ** [Serve]

    The goroutine of [Serve] with the scope, in which the goroutines of the
    connections and of the context go on at any time. *)
Record serving := mkServing {
  sv_scope : lcsystem;
  sv_delay : Z;                      (* tempDelay *)
  sv_started : list nat;             (* the connections handed to a goroutine that runs handleConn *)
  sv_end : option acceptDecision }.  (* how the loop has ended *)

(** What [Accept] returns in a turn; [rand] is drawn by [trackConnection]. *)
Inductive acceptOutcome :=
| AcceptedConn (conn : nat) (rand : Z)
| AcceptError (err : error) (doneBefore : bool) (cancelled : option (nat * option error)) (doneAfter retry : bool).

Definition set_scope (s : lcsystem) (v : serving) : serving := mkServing s (sv_delay v) (sv_started v) (sv_end v).

Definition serve_turn (r : acceptOutcome) (v : serving) : serving :=
  match r with
  | AcceptedConn conn rand =>
      let s := sv_scope v in
      let '(active, scope) := trackConnection int_bits MaxStartups conn rand (sc s) in
      mkServing (mkLC scope (pending s) (cleaned s) (gone s)) 0
        (match active with Some a => sv_started v ++ [a] | None => sv_started v end) (sv_end v)
  | AcceptError err doneBefore cancelled doneAfter retry =>
      match acceptFailed ctx errorHandler err doneBefore cancelled doneAfter with
      | ARetry =>
          let '(fired, delay) := waitForRetry retry (sv_delay v) in
          mkServing (sv_scope v) delay (sv_started v) (if fired : bool then sv_end v else Some AShutdown)
      | d => mkServing (sv_scope v) (sv_delay v) (sv_started v) (Some d)
      end
  end.

Definition valid_outcome (r : acceptOutcome) : Prop := match r with AcceptedConn _ rand => 0 <= rand < 100 | _ => True end.

(** The loop takes a turn while it has not ended; another goroutine runs a
    section of the scope, and none but the loop admits connections. *)
Inductive serve_step : serving -> serving -> Prop :=
| sv_turn v r : sv_end v = None -> valid_outcome r -> serve_step v (serve_turn r v)
| sv_other v s : lcstep (sv_scope v) s -> dom (heap (sc s)) = dom (heap (sc (sv_scope v))) -> serve_step v (set_scope s v).

Definition serve_init : serving := mkServing lcinitial 0 [] None.

Inductive serve_reachable : serving -> Prop :=
| sr_init : serve_reachable serve_init
| sr_step v v' : serve_reachable v -> serve_step v v' -> serve_reachable v'.

(** The return statement of the loop.  [waited] is the scope when the grace
    period is over. *)
Definition serve_return (d : acceptDecision) (waited : serveContext) (drained_first : bool) (order : list nat) (s : serveContext)
    : option error * serveContext * list cleanup_action :=
  match d with
  | AShutdown => shutdown listener_Close close_result ctxCause graceful waited drained_first order s
  | AForceJoined err =>
      let '(forceErr, s, acts) := force listener_Close close_result err order s in
      (errors_Join [Some err; forceErr], s, acts)
  | AForce err => force listener_Close close_result err order s
  | ARetry => (None, s, [])
  end.

(** ** [HandleConn] *)

(** What the select of [HandleConn] sees first. *)
Inductive handleSelect :=
| SelResult                          (* the result of handleConn *)
| SelDone (result : bool).           (* the end of ctx; [result]: the result is there as well *)

Inductive hcevent := HcCloseConn | HcHandleConn (active : nat) | HcFinish.

(** The scope is new, and has been stopped if [ctx] had ended ([stopped]);
    [ctxDone]: [ctx.Err() != nil] after the connection has been refused; [later]:
    the scope when the end of [ctx] is seen. *)
Definition HandleConn (prepared : option error) (conn : nat) (rand : Z) (stopped ctxDone : bool) (sel : handleSelect)
    (handled : option error) (later waited : serveContext) (drained_first : bool) (order : list nat)
    : option error * serveContext * list hcevent * list cleanup_action :=
  match prepareScope None prepared with
  | inl err => (err, newServeContext, [HcCloseConn], [])
  | inr scope =>
      let scope := if stopped then stopAccepting_locked scope else scope in
      match trackConnection int_bits MaxStartups conn rand scope with
      | (None, scope) =>
          if ctxDone then
            let '(err, scope, acts) := shutdown None close_result ctxCause graceful waited drained_first order scope in
            (err, scope, [HcCloseConn; HcFinish], acts)
          else (None, scope, [HcCloseConn; HcFinish], [])
      | (Some active, scope) =>
          match sel with
          | SelResult | SelDone true => (handled, later, [HcHandleConn active; HcFinish], [])
          | SelDone false =>
              let '(err, scope, acts) := shutdown None close_result ctxCause graceful waited drained_first order later in
              (err, scope, [HcHandleConn active; HcFinish], acts)
          end
      end
  end.

(** ** Laws *)

Lemma serve_reachable_scope v : serve_reachable v -> lcreachable (sv_scope v).
Proof.
  induction 1 as [|v v' _ IH Hst]; [apply lc_init|]. destruct Hst as [v r Hend Hr|v s Hs _].
  - destruct r as [conn rand|err db c da retry]; cbn.
    + pose proof (lc_step _ _ _ _ _ IH (l_track _ _ _ (sv_scope v) conn rand Hr)) as H.
      by destruct (trackConnection int_bits MaxStartups conn rand (sc (sv_scope v))).
    + destruct (acceptFailed ctx errorHandler err db c da); [done..|]. by destruct (waitForRetry retry (sv_delay v)).
  - by eapply lc_step.
Qed.

Lemma serve_end_decided v : serve_reachable v -> sv_end v <> Some ARetry.
Proof.
  induction 1 as [|v v' _ IH Hst]; [done|]. destruct Hst as [v r Hend _|]; [|done].
  destruct r as [conn rand|err db c da retry]; cbn -[waitForRetry].
  - by destruct (trackConnection int_bits MaxStartups conn rand (sc (sv_scope v))).
  - destruct (acceptFailed ctx errorHandler err db c da); [done..|]. destruct (waitForRetry retry (sv_delay v)) as [[] ?]; cbn; congruence.
Qed.

(** The connections that were admitted are those that have a goroutine. *)
Definition handed (v : serving) : Prop := NoDup (sv_started v) /\ dom (heap (sc (sv_scope v))) = list_to_set (sv_started v).

Lemma serve_reachable_handed v : serve_reachable v -> handed v.
Proof.
  induction 1 as [|v v' _ [IH1 IH2] Hst]; [by split; [apply NoDup_nil_2|]|]. destruct Hst as [v r _ _|v s _ Hd].
  - destruct r as [conn rand|err db c da retry]; cbn.
    + destruct (trackConnection int_bits MaxStartups conn rand (sc (sv_scope v))) as [act scope] eqn:E.
      unfold trackConnection in E. do 2 (case_match; [simplify_eq; by split|]). simplify_eq; unfold handed; cbn.
      pose proof (is_fresh (dom (heap (sc (sv_scope v))))) as Hf. rewrite IH2 in Hf. split.
      * apply NoDup_app. split_and!; [done| |apply NoDup_singleton]. intros x Hx ->%list_elem_of_singleton.
        rewrite IH2 in Hx. by apply Hf, elem_of_list_to_set.
      * rewrite dom_insert_L, IH2, list_to_set_app_L. cbn. clear. set_solver.
    + destruct (acceptFailed ctx errorHandler err db c da); [done..|]. by destruct (waitForRetry retry (sv_delay v)).
  - split; [done|]. cbn. congruence.
Qed.

(** A forced end cleans up after every connection that is still tracked. *)
Lemma force_cleans cause order s a c :
  (forced s = true -> connections s = ∅) -> (connections s ⊆ dom (heap s)) -> order ≡ₚ elements (connections s) ->
  a ∈ connections s -> heap s !! a = Some c ->
  let acts := snd (force listener_Close close_result cause order s) in
  ACloseResources a ∈ acts /\ (forall t, t ∈ transports c -> ACloseTransport t ∈ acts) /\
  (forall f, cancel c = Some f -> ACancel f cause ∈ acts).
Proof.
  intros Hf Hsub Hord Ha Hc. unfold force.
  assert (E : forall s', (exists e, stopAccepting listener_Close s = (e, s')) ->
    connections s' = connections s /\ heap s' = heap s /\ forced s' = forced s).
  { intros s' [e He]. unfold stopAccepting, scope_closeListener, stopAccepting_locked, maybeCloseDrainedLocked in He.
    repeat case_match; simplify_eq/=; done. }
  destruct (stopAccepting listener_Close s) as [e s'] eqn:Es. destruct (E s' (ex_intro _ e eq_refl)) as (Ecn & Eh & Ef).
  rewrite Ef. destruct (forced s) eqn:Hfo; [by rewrite Hf in Ha|]. unfold force_locked. rewrite Ef, Eh.
  destruct (force_loop cause order (heap s)) as [[h' n] l] eqn:Hl. cbn.
  destruct (force_loop_spec cause order (heap s) h' n l) as (Ho & _ & _ & _ & _ & Hcl); [| |done|].
  { rewrite Hord. apply NoDup_elements. }
  { intros b. rewrite Hord, elem_of_elements. apply Hsub. }
  assert (Hin : a ∈ map cl_owner l) by by rewrite Ho, Hord, elem_of_elements.
  apply list_elem_of_fmap in Hin as (cl & -> & Hin). destruct (Hcl cl Hin) as (c' & Hc' & Ecl & Et).
  rewrite Hc in Hc'. simplify_eq.
  assert (Hrun : forall x, x ∈ run_cleanup cause cl -> x ∈ flat_map (run_cleanup cause) l).
  { intros x Hx. apply list_elem_of_In, in_flat_map. exists cl. by split; apply list_elem_of_In. }
  unfold run_cleanup in Hrun. split_and!.
  - apply Hrun. rewrite !elem_of_app. right. right. by apply list_elem_of_singleton.
  - intros t Ht. apply Hrun. rewrite !elem_of_app. right. left. apply list_elem_of_fmap. exists t. split; [done|].
    by rewrite Et, list_elem_of_In, <- in_rev, <- list_elem_of_In.
  - intros f Hfc. apply Hrun. rewrite !elem_of_app. left. rewrite Ecl, Hfc. by apply list_elem_of_singleton.
Qed.

(** The scope at the end of a graceful wait is one that the system reaches, and
    the wait ends early only when the scope has drained. *)
Definition waited_ok (waited : serveContext) (drained_first : bool) : Prop :=
  (exists v, serve_reachable v /\ sc (sv_scope v) = waited) /\ (drained_first = true -> drained waited = true).

Context (Hbits : 0 < int_bits) (Hfull : full_limit MaxStartups < 2 ^ (int_bits - 1)).

Lemma serve_reachable_inv v : serve_reachable v -> lcinv MaxStartups (sv_scope v).
Proof. intros Hr%serve_reachable_scope. by apply (inv_reachable _ _ _ _ Hbits Hfull) in Hr as []. Qed.

Lemma serve_forced v : serve_reachable v -> forced (sc (sv_scope v)) = true -> connections (sc (sv_scope v)) = ∅.
Proof. intros [] % serve_reachable_inv E. rewrite E in lc_forced. tauto. Qed.

Lemma serve_tracked v : serve_reachable v -> connections (sc (sv_scope v)) ⊆ dom (heap (sc (sv_scope v))).
Proof. intros [] % serve_reachable_inv. rewrite lc_dom. clear. set_solver. Qed.

(** [force] returns nothing but errors of closes. *)
Lemma force_silent cause order s :
  fst (stopAccepting listener_Close s) = None -> (forall t, close_result t = None) ->
  fst (fst (force listener_Close close_result cause order s)) = None.
Proof.
  intros Hl Hc. unfold force. destruct (stopAccepting listener_Close s) as [e s1]. cbn [fst] in Hl. subst e.
  destruct (forced s1); [done|]. destruct (force_locked cause order s1) as [s2 cleanups]. cbn [fst].
  set (errs := flat_map _ _). assert (Hall : Forall (fun e => e = None) errs).
  { apply Forall_forall. intros e He%list_elem_of_In. subst errs. apply in_flat_map in He as (c & _ & He). apply in_map_iff in He as (t & <- & _). apply Hc. }
  clearbody errs. replace (fold_left _ errs None) with (@None error); [done|]. by induction Hall as [|e errs -> _ IH].
Qed.

(** C19. [Serve] as a whole: every connection that its scope admits is handed to
    exactly one goroutine; when it returns nothing is tracked any more.  Its
    error contains the context's cause if the context ended it, and the error
    that [ErrorHandler] or the default action gave to the failed [Accept] if there
    is one; if the handler stops without an error of its own only
    errors of closes are returned, none if they all succeed.  A loop that ends
    for an error cancels every connection that is still tracked and closes its
    transports and resources. *)
Theorem serve_complete v d waited drained_first order :
  serve_reachable v -> sv_end v = Some d -> waited_ok waited drained_first ->
  order ≡ₚ elements (connections (sc (sv_scope v))) ->
  let s := sc (sv_scope v) in
  let '(err, s', acts) := serve_return d waited drained_first order s in
  NoDup (sv_started v) /\ dom (heap s) = list_to_set (sv_started v) /\
  (d <> ARetry -> connections s' = ∅) /\
  match d with
  | AShutdown => errors_Is err (Some (default context_Canceled ctxCause)) = true
  | AForceJoined e | AForce e =>
      (d = AForceJoined e -> forall t, errors_Is (Some e) (Some t) = true -> errors_Is err (Some t) = true) /\
      (d = AForce e -> fst (stopAccepting listener_Close s) = None -> (forall t, close_result t = None) -> err = None) /\
      forall a c, a ∈ connections s -> heap s !! a = Some c ->
        ACloseResources a ∈ acts /\ (forall t, t ∈ transports c -> ACloseTransport t ∈ acts) /\
        (forall f, cancel c = Some f -> ACancel f e ∈ acts)
  | ARetry => False
  end.
Proof.
  intros Hr Hend [(v' & Hv' & <-) Hd] Hord s. destruct (serve_reachable_handed v Hr) as [Hnd Hdom].
  pose proof (serve_forced v Hr) as Hf. pose proof (serve_reachable_inv v' Hv') as [].
  assert (Hforce : forall e a c, a ∈ connections s -> heap s !! a = Some c -> _) by
    exact (fun e a c => force_cleans e order s a c Hf (serve_tracked v Hr) Hord).
  destruct d as [|e|e|]; cbn [serve_return]; [| | |by destruct (serve_end_decided v Hr)].
  - pose proof (shutdown_ends listener_Close close_result ctxCause graceful (sc (sv_scope v')) drained_first order s Hf) as H.
    destruct (shutdown _ _ _ _ _ _ _ _) as [[err s'] acts]. destruct H as (Hc & He & _); [by apply serve_forced| |by split_and!].
    intros E. by apply lc_drained, Hd.
  - pose proof (force_connections listener_Close close_result e order s Hf) as Hc. specialize (Hforce e).
    destruct (force _ _ _ _ _) as [[err s'] acts]. split_and!; [done|done|done| |done|done].
    intros _ t Ht. apply (errors_Is_Join _ e); [left|done].
  - pose proof (force_connections listener_Close close_result e order s Hf) as Hc. specialize (Hforce e).
    pose proof (force_silent e order s) as Hsil. destruct (force _ _ _ _ _) as [[err s'] acts]. by split_and!.
Qed.
End Serving.

(** ** [HandleConn] *)

Section HandleConnLaws.
Variable int_bits : Z.
Variable MaxStartups : option MaxStartupsConfig.
Context (Hbits : 0 < int_bits) (Hfull : full_limit MaxStartups < 2 ^ (int_bits - 1)).

Lemma lcreachable_forced s :
  lcreachable int_bits MaxStartups None s -> forced (sc s) = true -> connections (sc s) = ∅.
Proof. intros Hr E. destruct (inv_reachable _ _ _ _ Hbits Hfull Hr) as [[] _]. rewrite E in lc_forced. tauto. Qed.

(** [HandleConn]: a server that is not prepared closes the connection and
    returns why; otherwise the connection is either closed at once or handed to
    one [handleConn], never both, and not handed at all once the context has
    ended; the watch on the context is stopped; a call that the context ends
    returns its cause and leaves nothing tracked, and any other call that has
    handed the connection over returns what [handleConn] did. *)
Theorem HandleConn_complete close_result ctxCause graceful prepared conn rand stopped ctxDone sel handled later waited drained_first order :
  lcreachable int_bits MaxStartups None later -> lcreachable int_bits MaxStartups None waited ->
  (drained_first = true -> drained (sc waited) = true) ->
  let '(err, s', evs, _) := HandleConn int_bits MaxStartups close_result ctxCause graceful prepared conn rand stopped ctxDone sel
                              handled (sc later) (sc waited) drained_first order in
  let given := exists a, HcHandleConn a ∈ evs in
  (forall e, prepared = Some e -> evs = [HcCloseConn] /\ errors_Is err (Some e) = true) /\
  (prepared = None -> HcFinish ∈ evs) /\
  (HcCloseConn ∈ evs <-> ~ given) /\ (stopped = true -> ~ given) /\
  (prepared = None -> (~ given /\ ctxDone = true \/ given /\ sel = SelDone false) ->
     connections s' = ∅ /\ errors_Is err (Some (default context_Canceled ctxCause)) = true) /\
  (given -> sel <> SelDone false -> err = handled).
Proof.
  intros Hl Hw Hd. unfold HandleConn, prepareScope. destruct prepared as [e|].
  { assert (~ exists a, HcHandleConn a ∈ [HcCloseConn]) by set_solver.
    split_and!; try done; [|intros; set_solver]. intros e' [= ->]. split; [done|]. apply (errors_Is_Join _ e'); [left|apply errors_Is_refl]. }
  assert (Hno : ~ exists a, HcHandleConn a ∈ [HcCloseConn; HcFinish]) by set_solver.
  assert (Hgiven : forall a, exists b, HcHandleConn b ∈ [HcHandleConn a; HcFinish]) by (intros a; exists a; left).
  assert (Hwd : drained_first = true -> connections (sc waited) = ∅).
  { intros E. destruct (inv_reachable _ _ _ _ Hbits Hfull Hw) as [[] _]. by apply lc_drained, Hd. }
  assert (Hend : forall s, (forced s = true -> connections s = ∅) -> _) by
    exact (fun s Hs => shutdown_ends None close_result ctxCause graceful (sc waited) drained_first order s Hs (lcreachable_forced _ Hw) Hwd).
  set (s0 := if stopped then stopAccepting_locked newServeContext else newServeContext).
  assert (Hs0 : forced s0 = false /\ connections s0 = ∅ /\ stopping s0 = stopped) by (by destruct stopped).
  destruct Hs0 as (Hf0 & Hc0 & Hst0).
  destruct (trackConnection int_bits MaxStartups conn rand s0) as [[a|] s1] eqn:Et.
  - assert (stopped = false) as -> by (unfold trackConnection in Et; rewrite Hst0 in Et; by destruct stopped).
    destruct sel as [|[]].
    1-2: specialize (Hgiven a); split_and!; try done; try set_solver; naive_solver.
    pose proof (Hend (sc later) (lcreachable_forced _ Hl)) as H. destruct (shutdown _ _ _ _ _ _ _ _) as [[err s'] acts].
    destruct H as (Hc & He & _). specialize (Hgiven a). split_and!; try done; try set_solver; naive_solver.
  - assert (Hs1 : connections s1 = ∅ /\ forced s1 = false).
    { unfold trackConnection in Et. repeat case_match; by simplify_eq. }
    destruct ctxDone; [|split_and!; try done; try set_solver; naive_solver].
    pose proof (Hend s1 (fun _ => proj1 Hs1)) as H. destruct (shutdown _ _ _ _ _ _ _ _) as [[err s'] acts].
    destruct H as (Hc & He & _). split_and!; try done; try set_solver; naive_solver.
Qed.
End HandleConnLaws.

(** A connection is accepted, and then the context ends. *)
Definition sample_serving : serving :=
  serve_turn 64 sample_startups (mkDispatchContext true true true) None (AcceptError io_EOF true None false false)
    (serve_turn 64 sample_startups (mkDispatchContext true true true) None (AcceptedConn 7 50) serve_init).
Definition sample_serve_return :=
  serve_return None (fun _ => None) (Some io_EOF) None AShutdown (sc (sv_scope sample_serving)) false
    (elements (connections (sc (sv_scope sample_serving)))) (sc (sv_scope sample_serving)).

Lemma sample_serving_reachable :
  serve_reachable 64 sample_startups None (mkDispatchContext true true true) None sample_serving.
Proof. do 2 (eapply sr_step; [|apply sv_turn; [reflexivity|cbn; lia]]). apply sr_init. Qed.

Lemma serve_complete_witness :
  let '(err, s', acts) := sample_serve_return in
  connections s' = ∅ /\ errors_Is err (Some io_EOF) = true /\ length (sv_started sample_serving) = 1%nat.
Proof.
  pose proof (serve_complete 64 sample_startups None (fun _ => None) (mkDispatchContext true true true) None (Some io_EOF) None
    eq_refl eq_refl sample_serving AShutdown (sc (sv_scope sample_serving)) false (elements (connections (sc (sv_scope sample_serving))))
    sample_serving_reachable eq_refl (conj (ex_intro _ sample_serving (conj sample_serving_reachable eq_refl)) (fun E => False_ind _ (diff_false_true E)))
    (reflexivity _)) as H.
  cbv zeta in H. change (serve_return _ _ _ _ _ _ _ _ _) with sample_serve_return in H.
  destruct sample_serve_return as [[err s'] acts]. destruct H as (_ & _ & Hc & He). split_and!; [by apply Hc|done|by vm_compute].
Defined.

Definition sample_stop : lcsystem := mkLC (stopAccepting_locked newServeContext) ∅ [] ∅.

Lemma HandleConn_complete_witness :
  let '(err, s', evs, _) := HandleConn 64 sample_startups (fun _ => None) (Some io_EOF) None None 7 50 true true SelResult
                              None (sc sample_stop) (sc sample_stop) false [] in
  connections s' = ∅ /\ errors_Is err (Some io_EOF) = true /\ HcCloseConn ∈ evs.
Proof.
  assert (Hr : lcreachable 64 sample_startups None sample_stop) by (eapply lc_step; [apply lc_init|apply (l_stop _ _ _ lcinitial)]).
  pose proof (HandleConn_complete 64 sample_startups eq_refl eq_refl (fun _ => None) (Some io_EOF) None None 7 50 true true SelResult
    None sample_stop sample_stop false [] Hr Hr (fun E => False_ind _ (diff_false_true E))) as H.
  destruct (HandleConn _ _ _ _ _ _ _ _ _ _ _ _ _ _ _ _) as [[[err s'] evs] acts].
  destruct H as (_ & _ & Hclose & Hst & Hend & _). specialize (Hst eq_refl).
  destruct (Hend eq_refl (or_introl (conj Hst eq_refl))). split_and!; [done|done|by apply Hclose].
Defined.
