(* ===== verification/Signals.v ===== *)
(** Signals: the delivery of signals to the channel that a handler registers
    ([Session.Signals], [session.go]).  The goroutine that reads the requests
    of the session, the goroutines that drain the buffer and the callers of
    [Signals] and [Exit] share the fields [sigCh], [sigBuf], [sigDrainCancel],
    [sigDrainDone], [sigSendCancel] and [sigSendWg]; each critical section, each
    send and each wait is a step, in any order.

    Channels are addresses.  A pair of [sigDrainCancel] and [sigDrainDone] is
    known by the number of its goroutine, as the two are set and cleared
    together; the same holds of [sigCh] and [sigSendCancel]. *)
From S2P Require Import Prelude.
Local Open Scope string_scope.
Local Open Scope nat_scope.
Local Open Scope list_scope.

Definition maxSigBufSize : nat := 128.

(** What the select of [sendSignal] takes; a send on a channel that its receiver
    has closed panics, which is recovered. *)
Inductive sendResult := SendDelivered | SendCancelled | SendContextDone | SendChannelClosed.

(** [handleSignalRequest], which holds [sigReplyMu]. *)
Inductive requester :=
| RIdle
| RSending (sig : string) (target cancel : nat)       (* in sendSignal *)
| RSent (sig : string) (target : nat) (r : sendResult) (* before the second critical section *)
| RFinishing.                                          (* before sigSendWg.Done() *)

(** [drainSignals] *)
Inductive drainPhase :=
| DLocking                             (* before the critical section of the loop *)
| DSending (rest : list string)        (* in sendSignal with the first of [rest] *)
| DRequeueing (rest : list string)     (* before requeueSignals *)
| DDeferred                            (* before the critical section of the deferred function *)
| DClosing                             (* before close(done) *)
| DEnded.

#[export] Instance drainPhase_eq_dec : EqDecision drainPhase.
Proof. solve_decision. Defined.

Record drain := mkDrain { dr_target : nat; dr_phase : drainPhase; dr_cancelled : bool }.

(** [setSignalChannelLocked] with its argument, under [sigConfigMu]; [exit] if
    [stopSignalDeliveryForExit] has called it. *)
Inductive setter :=
| SIdle
| SDraining (c : option nat) (exit : bool) (d : nat)   (* <-done *)
| SWaiting (c : option nat) (exit : bool)              (* sigSendWg.Wait() *)
| SInstalling (c : option nat) (exit : bool).          (* before the last critical section *)

Record signals := mkSignals {
  sigCh : option (nat * nat);          (* the channel and its sigSendCancel *)
  sigBuf : list string;
  sigDrain : option nat;
  sendCancelled : gset nat;            (* the closed ones of sigSendCancel *)
  nextCancel : nat;
  sigSendWg : nat;
  exiting : bool;
  ctxDone : bool;
  request : requester;
  drains : list drain;
  setting : setter;
  (* what has happened *)
  registered : option nat;             (* the argument of the last call that has returned *)
  exit_stopped : bool;                 (* stopSignalDeliveryForExit has returned *)
  accepted : list string;              (* that passed the checks of handleSignalRequest *)
  received : list (nat * string);      (* by a channel *)
  rejected : nat;                      (* sends of handleSignalRequest that failed: answered false *)
  overflowed : nat;                    (* dropped as the buffer was full *)
  abandoned : nat;                     (* dropped as the context is done *)
  panicked : bool }.

Definition signals_init : signals :=
  mkSignals None [] None ∅ 0 0 false false RIdle [] SIdle None false [] [] 0 0 0 false.

Definition set_sender (ch : option (nat * nat)) (cancelled : gset nat) (next : nat) (s : signals) : signals :=
  mkSignals ch (sigBuf s) (sigDrain s) cancelled next (sigSendWg s) (exiting s) (ctxDone s) (request s) (drains s) (setting s)
    (registered s) (exit_stopped s) (accepted s) (received s) (rejected s) (overflowed s) (abandoned s) (panicked s).
Definition set_buffer (b : list string) (over : nat) (s : signals) : signals :=
  mkSignals (sigCh s) b (sigDrain s) (sendCancelled s) (nextCancel s) (sigSendWg s) (exiting s) (ctxDone s) (request s) (drains s)
    (setting s) (registered s) (exit_stopped s) (accepted s) (received s) (rejected s) over (abandoned s) (panicked s).
Definition set_drains (cur : option nat) (l : list drain) (s : signals) : signals :=
  mkSignals (sigCh s) (sigBuf s) cur (sendCancelled s) (nextCancel s) (sigSendWg s) (exiting s) (ctxDone s) (request s) l
    (setting s) (registered s) (exit_stopped s) (accepted s) (received s) (rejected s) (overflowed s) (abandoned s) (panicked s).
Definition set_requester (r : requester) (wg : nat) (s : signals) : signals :=
  mkSignals (sigCh s) (sigBuf s) (sigDrain s) (sendCancelled s) (nextCancel s) wg (exiting s) (ctxDone s) r (drains s)
    (setting s) (registered s) (exit_stopped s) (accepted s) (received s) (rejected s) (overflowed s) (abandoned s) (panicked s).
Definition set_setting (x : setter) (s : signals) : signals :=
  mkSignals (sigCh s) (sigBuf s) (sigDrain s) (sendCancelled s) (nextCancel s) (sigSendWg s) (exiting s) (ctxDone s) (request s)
    (drains s) x (registered s) (exit_stopped s) (accepted s) (received s) (rejected s) (overflowed s) (abandoned s) (panicked s).
Definition set_registered (c : option nat) (stopped : bool) (s : signals) : signals :=
  mkSignals (sigCh s) (sigBuf s) (sigDrain s) (sendCancelled s) (nextCancel s) (sigSendWg s) (exiting s) (ctxDone s) (request s)
    (drains s) SIdle c stopped (accepted s) (received s) (rejected s) (overflowed s) (abandoned s) (panicked s).
Definition accept_signal (sig : string) (s : signals) : signals :=
  mkSignals (sigCh s) (sigBuf s) (sigDrain s) (sendCancelled s) (nextCancel s) (sigSendWg s) (exiting s) (ctxDone s) (request s)
    (drains s) (setting s) (registered s) (exit_stopped s) (accepted s ++ [sig]) (received s) (rejected s) (overflowed s) (abandoned s)
    (panicked s).
Definition account (recv : list (nat * string)) (rej aban : nat) (s : signals) : signals :=
  mkSignals (sigCh s) (sigBuf s) (sigDrain s) (sendCancelled s) (nextCancel s) (sigSendWg s) (exiting s) (ctxDone s) (request s)
    (drains s) (setting s) (registered s) (exit_stopped s) (accepted s) (received s ++ recv) (rejected s + rej) (overflowed s)
    (abandoned s + aban) (panicked s).
Definition set_flags (ex ctx panic : bool) (s : signals) : signals :=
  mkSignals (sigCh s) (sigBuf s) (sigDrain s) (sendCancelled s) (nextCancel s) (sigSendWg s) ex ctx (request s)
    (drains s) (setting s) (registered s) (exit_stopped s) (accepted s) (received s) (rejected s) (overflowed s) (abandoned s) panic.

(** ** The steps *)

(** The case [r] of the select of [sendSignal] may be taken. *)
Definition can_take (r : sendResult) (cancelled ctx : bool) : bool :=
  match r with
  | SendDelivered | SendChannelClosed => true
  | SendCancelled => cancelled
  | SendContextDone => ctx
  end.

(** [close(sess.sigSendCancel); sess.sigSendCancel = nil; sess.sigCh = nil] *)
Definition clear_sender (s : signals) : signals :=
  match sigCh s with
  | Some (_, id) =>
      let s1 := if bool_decide (id ∈ sendCancelled s) then set_flags (exiting s) (ctxDone s) true s else s in
      set_sender None ({[id]} ∪ sendCancelled s) (nextCancel s) s1
  | None => s
  end.

(** [handleSignalRequest] with a payload that is well-formed and short enough,
    up to the send; the signal is refused when the session is exiting. *)
Definition handleSignal (sig : string) (s : signals) : option signals :=
  match request s with
  | RIdle =>
      if exiting s then Some s
      else
        match sigCh s with
        | None =>
            if (length (sigBuf s) <? maxSigBufSize)%nat
            then Some (set_buffer (sigBuf s ++ [sig]) (overflowed s) (accept_signal sig s))
            else Some (set_buffer (sigBuf s) (S (overflowed s)) (accept_signal sig s))
        | Some (target, id) => Some (set_requester (RSending sig target id) (S (sigSendWg s)) (accept_signal sig s))
        end
  | _ => None
  end.

(** The rest of it: the send, the critical section after it, [sigSendWg.Done()].
    A signal that has not been delivered is answered with [false]. *)
Definition request_exec (r : sendResult) (s : signals) : option signals :=
  match request s with
  | RIdle => None
  | RSending sig target id =>
      if can_take r (bool_decide (id ∈ sendCancelled s)) (ctxDone s) then
        let s := set_requester (RSent sig target r) (sigSendWg s) s in
        Some (match r with SendDelivered => account [(target, sig)] 0 0 s | _ => account [] 1 0 s end)
      else None
  | RSent sig target r =>
      let s := set_requester RFinishing (sigSendWg s) s in
      Some (match r, sigCh s with
            | SendChannelClosed, Some (c, _) =>
                if (c =? target)%nat then set_sender None (sendCancelled s) (nextCancel s) s else s
            | _, _ => s
            end)
  | RFinishing => Some (set_requester RIdle (sigSendWg s - 1) s)
  end.

(** A step of the draining goroutine [d]. *)
Definition drain_exec (d : nat) (r : sendResult) (s : signals) : option signals :=
  match drains s !! d with
  | None => None
  | Some o =>
      let go p := <[d := mkDrain (dr_target o) p (dr_cancelled o)]> (drains s) in
      match dr_phase o with
      | DLocking =>
          match sigBuf s with
          | [] => Some (set_sender (Some (dr_target o, nextCancel s)) (sendCancelled s) (S (nextCancel s)) (set_drains None (go DDeferred) s))
          | _ :: _ => Some (set_buffer [] (overflowed s) (set_drains (sigDrain s) (go (DSending (sigBuf s))) s))
          end
      | DSending [] => Some (set_drains (sigDrain s) (go DLocking) s)        (* the end of the range loop *)
      | DSending (sig :: rest) =>
          if can_take r (dr_cancelled o) (ctxDone s) then
            Some (match r with
                  | SendDelivered => account [(dr_target o, sig)] 0 0 (set_drains (sigDrain s) (go (DSending rest)) s)
                  | SendContextDone => account [] 0 (length (sig :: rest)) (set_drains (sigDrain s) (go DDeferred) s)
                  | _ => set_drains (sigDrain s) (go (DRequeueing (sig :: rest))) s
                  end)
          else None
      | DRequeueing rest =>
          let l := rest ++ sigBuf s in
          Some (set_buffer (take maxSigBufSize l) (overflowed s + (length l - maxSigBufSize)) (set_drains None (go DDeferred) s))
      | DDeferred => Some (set_drains (if bool_decide (sigDrain s = Some d) then None else sigDrain s) (go DClosing) s)
      | DClosing => Some (set_drains (sigDrain s) (go DEnded) s)
      | DEnded => None
      end
  end.

(** [Signals(c)], or the call for [Exit], once it has [sigConfigMu]. *)
Definition begin_setting (c : option nat) (exit : bool) (s : signals) : option signals :=
  match setting s with
  | SIdle =>
      if exiting s && negb exit then Some s
      else
        match sigDrain s with
        | Some d =>
            match drains s !! d with
            | Some o =>
                let s1 := if dr_cancelled o then set_flags (exiting s) (ctxDone s) true s else s in
                Some (set_setting (SDraining c exit d)
                        (set_drains (sigDrain s) (<[d := mkDrain (dr_target o) (dr_phase o) true]> (drains s)) s1))
            | None => None
            end
        | None => Some (set_setting (SWaiting c exit) (clear_sender s))
        end
  | _ => None
  end.

Definition setting_exec (s : signals) : option signals :=
  match setting s with
  | SIdle => None
  | SDraining c exit d =>
      match drains s !! d with
      | Some (mkDrain _ DEnded _) => Some (set_setting (SWaiting c exit) (clear_sender s))
      | _ => None
      end
  | SWaiting c exit => if (sigSendWg s =? 0)%nat then Some (set_setting (SInstalling c exit) s) else None
  | SInstalling None exit => Some (set_registered None (exit_stopped s || exit) s)
  | SInstalling (Some c) exit =>
      let s1 := set_registered (Some c) (exit_stopped s) s in
      Some (match sigBuf s with
            | [] => set_sender (Some (c, nextCancel s)) (sendCancelled s) (S (nextCancel s)) s1
            | _ :: _ => set_drains (Some (length (drains s))) (drains s ++ [mkDrain c DLocking false]) s1
            end)
  end.

Inductive signalAction :=
| ASignal (sig : string)               (* a signal request *)
| ARequest (r : sendResult)            (* handleSignalRequest goes on *)
| ADrain (d : nat) (r : sendResult)    (* a drain goes on *)
| ASignals (c : option nat)            (* Signals(c) *)
| AExiting                             (* Exit stores exiting *)
| AStop                                (* and calls stopSignalDeliveryForExit *)
| ASetting                             (* the call that holds sigConfigMu goes on *)
| AContextDone.

Definition signal_exec (a : signalAction) (s : signals) : option signals :=
  match a with
  | ASignal sig => handleSignal sig s
  | ARequest r => request_exec r s
  | ADrain d r => drain_exec d r s
  | ASignals c => begin_setting c false s
  | AExiting => Some (set_flags true (ctxDone s) (panicked s) s)
  | AStop => if exiting s then begin_setting None true s else None
  | ASetting => setting_exec s
  | AContextDone => Some (set_flags (exiting s) true (panicked s) s)
  end.

Fixpoint signal_run (l : list signalAction) (s : signals) : option signals :=
  match l with
  | [] => Some s
  | a :: l => match signal_exec a s with Some s => signal_run l s | None => None end
  end.

(** A buffered signal goes to the channel that is registered later, a second one
    arrives meanwhile, and the channel is exchanged while the third is sent. *)
Definition sample_signals : list signalAction :=
  [ASignal "HUP"; ASignals (Some 1); ASetting; ASetting; ADrain 0 SendDelivered; ASignal "INT"; ADrain 0 SendDelivered;
   ADrain 0 SendDelivered; ADrain 0 SendDelivered; ADrain 0 SendDelivered; ADrain 0 SendDelivered; ADrain 0 SendDelivered;
   ADrain 0 SendDelivered; ADrain 0 SendDelivered; ASignal "TERM"; ASignals (Some 2); ARequest SendCancelled; ARequest SendDelivered;
   ARequest SendDelivered; ASetting; ASetting].
Example sample_signals_run :
  (fun s => (received s, sigCh s, rejected s, length (accepted s))) <$> signal_run sample_signals signals_init =
  Some ([(1, "HUP"%string); (1, "INT"%string)], Some (2, 1), 1, 3).
Proof. reflexivity. Qed.

(** ** Invariant *)

Definition active (p : drainPhase) : bool := match p with DLocking | DSending _ | DRequeueing _ => true | _ => false end.
Definition drain_flight (p : drainPhase) : list string := match p with DSending l | DRequeueing l => l | _ => [] end.

Definition current_drain (s : signals) : option drain := sigDrain s ≫= (drains s !!.).

(** The signals that a goroutine has taken and not yet sent. *)
Definition flight (s : signals) : list string :=
  match request s with
  | RSending sig _ _ => [sig]
  | _ => match current_drain s with Some o => drain_flight (dr_phase o) | None => [] end
  end.

Record request_ok (s : signals) (target : nat) : Prop := mkRequestOk {
  rq_wg : sigSendWg s = 1;
  rq_drain : sigDrain s = None;
  rq_buf : sigBuf s = [];
  rq_registered : registered s = Some target;
  rq_ch : forall c i, sigCh s = Some (c, i) -> c = target }.

Definition setting_arg (x : setter) : option (option nat) :=
  match x with SIdle => None | SDraining c _ _ | SWaiting c _ | SInstalling c _ => Some c end.

Definition setting_exit (x : setter) : bool :=
  match x with SIdle => false | SDraining _ e _ | SWaiting _ e | SInstalling _ e => e end.

Record sinv (s : signals) : Prop := mkSinv {
  (* the drains: only the current one is active *)
  si_active : forall d o, drains s !! d = Some o -> active (dr_phase o) = true ->
    sigDrain s = Some d /\ registered s = Some (dr_target o);
  si_current : forall d, sigDrain s = Some d -> sigCh s = None /\
    exists o, drains s !! d = Some o /\ (active (dr_phase o) = true \/ dr_phase o = DDeferred) /\
      (dr_cancelled o = true -> exists c e, setting s = SDraining c e d);
  (* the registered channel *)
  si_ch : forall c i, sigCh s = Some (c, i) ->
    sigBuf s = [] /\ registered s = Some c /\ (i ∉ sendCancelled s) /\ i < nextCancel s;
  si_cancelled : forall i, i ∈ sendCancelled s -> i < nextCancel s;
  (* the request *)
  si_request : match request s with
    | RIdle => sigSendWg s = 0
    | RSending _ target i => request_ok s target /\ i < nextCancel s /\
        (forall c j, sigCh s = Some (c, j) -> i = j) /\ (sigCh s = None -> i ∈ sendCancelled s)
    | RSent _ target _ => request_ok s target
    | RFinishing => sigSendWg s = 1
    end;
  (* the call of setSignalChannelLocked *)
  si_setting : match setting s with
    | SIdle => True
    | SDraining _ _ d => (sigDrain s = None \/ sigDrain s = Some d) /\
        exists o, drains s !! d = Some o /\ dr_cancelled o = true
    | SWaiting _ _ => sigCh s = None /\ sigDrain s = None
    | SInstalling _ _ => sigCh s = None /\ sigDrain s = None /\ sigSendWg s = 0
    end;
  si_exit : exit_stopped s = true -> exiting s = true /\ registered s = None /\ (setting_arg (setting s) = None \/ setting_arg (setting s) = Some None);
  si_exiting : setting_exit (setting s) = true -> exiting s = true /\ setting_arg (setting s) = Some None;
  (* the account *)
  si_order : sublist (map snd (received s) ++ flight s ++ sigBuf s) (accepted s);
  si_count : length (accepted s) =
    length (received s) + length (flight s) + length (sigBuf s) + rejected s + overflowed s + abandoned s;
  si_abandoned : 0 < abandoned s -> ctxDone s = true;
  si_bound : length (sigBuf s) <= maxSigBufSize;
  si_panicked : panicked s = false }.

Lemma signals_init_inv : sinv signals_init.
Proof. split; cbn; try done; try lia; set_solver. Qed.

Lemma flight_no_drain s : sigDrain s = None -> (forall sig t i, request s <> RSending sig t i) -> flight s = [].
Proof. intros Hd Hr. unfold flight, current_drain. rewrite Hd. cbn. destruct (request s); naive_solver. Qed.

Lemma sublist_drop_middle {A} (a b c l : list A) : sublist (a ++ b ++ c) l -> sublist (a ++ c) l.
Proof. intros H. etrans; [|exact H]. apply sublist_app; [done|]. by apply sublist_inserts_l. Qed.

Lemma sublist_all {A} (k l : list A) : sublist k l -> length l <= length k -> k = l.
Proof.
  induction 1 as [|x k l Hs IH|x k l Hs IH]; cbn; intros Hlen; [done| |].
  - f_equal. apply IH. lia.
  - apply sublist_length in Hs. lia.
Qed.

(** ** A signal request *)

Lemma handleSignal_inv sig s s' : sinv s -> handleSignal sig s = Some s' -> sinv s'.
Proof.
  intros I. pose proof (si_request _ I) as Hreq. unfold handleSignal. destruct (request s) eqn:Er; try done.
  destruct (exiting s) eqn:Eex; [by intros [= <-]|]. destruct (sigCh s) as [[t i]|] eqn:Ech.
  - intros [= <-]. destruct (si_ch _ I t i Ech) as (Hbuf & Hreg & Hi & Hlt).
    assert (Hdr : sigDrain s = None).
    { destruct (sigDrain s) as [d|] eqn:Ed; [|done]. destruct (si_current _ I d Ed) as [H _]. congruence. }
    assert (Hf : flight s = []) by (apply flight_no_drain; [done|intros; congruence]).
    destruct I. rewrite Hf in *. split; cbn; try done; try congruence.
    + split; [split; cbn; try done; [lia|intros; congruence]|]. split; [done|]. split; intros; congruence.
    + destruct (setting s); try done; intuition congruence.
    + rewrite Hbuf in *. cbn in *. rewrite app_nil_r in si_order0. by apply sublist_app.
    + rewrite length_app, Hbuf in *. cbn in *. lia.
  - assert (Hfl : forall b n, flight (set_buffer b n (accept_signal sig s)) = flight s) by done.
    destruct (Nat.ltb_spec (length (sigBuf s)) maxSigBufSize); intros [= <-]; destruct I; split; rewrite ?Hfl; cbn; try done; try congruence;
      rewrite ?Er; try done.
    + rewrite !app_assoc in *. by apply sublist_app.
    + rewrite !length_app. cbn. lia.
    + rewrite length_app. cbn. lia.
    + by apply sublist_inserts_r.
    + rewrite length_app. cbn. lia.
Qed.

(** The channel has been found closed. *)
Lemma lost_channel_inv s :
  sinv s -> request s = RFinishing -> sigDrain s = None -> sinv (set_sender None (sendCancelled s) (nextCancel s) s).
Proof.
  intros I Hr Hd. assert (Hf : forall ch x n, flight (set_sender ch x n s) = flight s) by done.
  destruct I. rewrite Hr, Hd in *. split; rewrite ?Hf; cbn; rewrite ?Hd, ?Hr; try done. destruct (setting s); intuition.
Qed.

Lemma request_exec_inv r s s' : sinv s -> request_exec r s = Some s' -> sinv s'.
Proof.
  intros I. pose proof (si_request _ I) as Hreq. unfold request_exec. destruct (request s) as [|sig t i|sig t r0|] eqn:Er; try done.
  - destruct Hreq as ([Hwg Hdr Hbuf Hreg Hch] & Hi & Hid & Hcan).
    destruct (can_take r (bool_decide (i ∈ sendCancelled s)) (ctxDone s)); [|done]. intros [= <-].
    assert (Hf : flight s = [sig]) by (unfold flight; by rewrite Er).
    destruct I. rewrite Hf, Hbuf, Hdr in *. cbn in *.
    destruct r; split; cbn; unfold flight, current_drain; cbn; rewrite ?Hdr, ?Hbuf, ?Nat.add_0_r; cbn; try done;
      try (rewrite ?length_app; cbn; lia); rewrite ?map_app, ?app_nil_r; [by rewrite ?app_nil_r in *|..].
    all: etrans; [|exact si_order0]; by apply sublist_inserts_r.
  - destruct Hreq as [Hwg Hdr Hbuf Hreg Hch]. intros [= <-].
    assert (Hf : flight s = []) by (apply flight_no_drain; [done|intros; congruence]).
    assert (I1 : sinv (set_requester RFinishing (sigSendWg s) s)).
    { destruct I. rewrite Hf, Hdr in *. split; cbn; unfold flight, current_drain; cbn; rewrite ?Hdr; cbn; try done. }
    destruct r0; try exact I1. cbn. destruct (sigCh s) as [[c j]|]; [|exact I1]. destruct (c =? t); [|exact I1].
    by apply (lost_channel_inv _ I1).
  - intros [= <-]. assert (Hf : forall n, flight (set_requester RIdle n s) = flight s) by (intros; unfold flight; by rewrite Er).
    destruct I. split; rewrite ?Hf; cbn; try done; rewrite ?Hreq; try done. destruct (setting s); intuition lia.
Qed.

(** ** A draining goroutine *)

Lemma keep_cancelled (l : list drain) d d0 o o' :
  l !! d = Some o -> (dr_cancelled o = true -> dr_cancelled o' = true) ->
  (exists x, l !! d0 = Some x /\ dr_cancelled x = true) -> exists x, <[d := o']> l !! d0 = Some x /\ dr_cancelled x = true.
Proof.
  intros Hd Hc (x & Hx & Hxc). destruct (decide (d = d0)) as [<-|].
  - exists o'. rewrite list_lookup_insert_eq by (by eapply lookup_lt_Some). simplify_eq. auto.
  - exists x. by rewrite list_lookup_insert_ne.
Qed.

(** What the goroutine of an active drain may rely on. *)
Lemma active_current s d o :
  sinv s -> drains s !! d = Some o -> active (dr_phase o) = true ->
  sigDrain s = Some d /\ sigCh s = None /\ registered s = Some (dr_target o) /\ flight s = drain_flight (dr_phase o) /\
  (request s = RIdle \/ request s = RFinishing) /\
  (dr_cancelled o = true -> exists c e, setting s = SDraining c e d) /\
  (setting s = SIdle \/ exists c e, setting s = SDraining c e d).
Proof.
  intros I Hd Ha. destruct (si_active _ I d o Hd Ha) as [Hs Hr]. destruct (si_current _ I d Hs) as (Hch & o' & Ho' & _ & Hcan).
  assert (o' = o) as -> by congruence. pose proof (si_request _ I) as Hreq. pose proof (si_setting _ I) as Hset.
  assert (Hrq : request s = RIdle \/ request s = RFinishing).
  { destruct (request s); try tauto; [destruct Hreq as [[] _]|destruct Hreq]; congruence. }
  split_and!; try done.
  - unfold flight, current_drain. rewrite Hs. cbn. rewrite Hd. by destruct Hrq as [-> | ->].
  - destruct (setting s); [by left| |destruct Hset; congruence|destruct Hset as (_ & ? & _); congruence].
    destruct Hset as [[|] _]; [congruence|]. right. simplify_eq. eauto.
Qed.

Definition cur_flight (cur : option nat) (p : drainPhase) : list string := match cur with Some _ => drain_flight p | None => [] end.

(** The drain goes on to another phase, and remains the current one, unless it
    has cleared the fields. *)
Lemma drain_moves_inv s d o p cur buf recv over aban :
  sinv s -> drains s !! d = Some o -> active (dr_phase o) = true ->
  (cur = Some d /\ (active p = true \/ p = DDeferred) \/ cur = None /\ active p = false) ->
  (active p = false -> drain_flight p = []) ->
  sublist (map snd recv ++ (cur_flight cur p) ++ buf) (drain_flight (dr_phase o) ++ sigBuf s) ->
  length (drain_flight (dr_phase o)) + length (sigBuf s) + overflowed s =
    length recv + length (cur_flight cur p) + length buf + over + aban ->
  (0 < aban -> ctxDone s = true) -> length buf <= maxSigBufSize ->
  sinv (account recv 0 aban (set_buffer buf over (set_drains cur (<[d := mkDrain (dr_target o) p (dr_cancelled o)]> (drains s)) s))).
Proof.
  intros I Hd Ha Hcur Hp Hsub Hlen Hab Hbuf. destruct (active_current s d o I Hd Ha) as (Hs & Hch & Hr & Hf & Hrq & Hcan & Hset).
  assert (Hlt : d < length (drains s)) by by eapply lookup_lt_Some.
  set (s' := account recv 0 aban (set_buffer buf over (set_drains cur (<[d := mkDrain (dr_target o) p (dr_cancelled o)]> (drains s)) s))).
  assert (Hf' : flight s' = cur_flight cur p).
  { unfold flight, current_drain, s'. cbn. destruct Hcur as [[-> _]|[-> _]]; cbn.
    - rewrite list_lookup_insert_eq by done. by destruct Hrq as [-> | ->].
    - by destruct Hrq as [-> | ->]. }
  destruct I. split; rewrite ?Hf'; unfold s'; cbn; try done.
  - intros d' o' [[<- [<- _]]|[Hne Hd']]%list_lookup_insert_Some; cbn; intros Ha'.
    + destruct Hcur as [[-> _]|[_ Hn]]; [done|congruence].
    + destruct (si_active0 d' o' Hd' Ha'). congruence.
  - intros d' Hd'. split; [done|]. destruct Hcur as [[-> Hp']|[-> _]]; [|done]. simplify_eq.
    eexists. rewrite list_lookup_insert_eq by done. split; [done|]. cbn. auto.
  - intros c i Hc. cbn in *. congruence.
  - destruct Hrq as [E|E]; rewrite E in *; done.
  - destruct Hset as [E|(c & e & E)]; rewrite E in *; [done|]. destruct si_setting0 as [_ Hc].
    split; [destruct Hcur as [[-> _]|[-> _]]; auto|]. by eapply keep_cancelled.
  - rewrite map_app, <- !app_assoc. etrans; [apply sublist_app; [done|exact Hsub]|]. by rewrite <- Hf.
  - rewrite length_app. rewrite Hf in *. lia.
  - intros H. destruct (decide (0 < aban)); [auto|]. apply si_abandoned0. lia.
Qed.

Lemma account_nil s : account [] 0 0 s = s.
Proof. destruct s. unfold account. cbn. by rewrite app_nil_r, !Nat.add_0_r. Qed.

(** A drain that has left its loop goes on. *)
Lemma drain_leaves_inv s d o p cur :
  sinv s -> drains s !! d = Some o -> active (dr_phase o) = false -> drain_flight (dr_phase o) = [] -> active p = false -> p <> DDeferred ->
  (sigDrain s = Some d /\ cur = None \/ sigDrain s <> Some d /\ cur = sigDrain s) ->
  sinv (set_drains cur (<[d := mkDrain (dr_target o) p (dr_cancelled o)]> (drains s)) s).
Proof.
  intros I Hd Ha Hfl Hp Hp' Hcur. assert (Hlt : d < length (drains s)) by by eapply lookup_lt_Some.
  set (s' := set_drains cur (<[d := mkDrain (dr_target o) p (dr_cancelled o)]> (drains s)) s).
  assert (Hf : flight s' = flight s).
  { unfold flight, current_drain, s'. cbn. destruct Hcur as [[E ->]|[E ->]].
    - rewrite E. cbn. by rewrite Hd, Hfl.
    - destruct (sigDrain s) as [d0|] eqn:E0; cbn; [|done]. rewrite list_lookup_insert_ne by congruence. done. }
  assert (Hnone : sigDrain s = None -> cur = None) by (destruct Hcur as [[? ->]|[? ->]]; auto).
  destruct I. split; rewrite ?Hf; unfold s'; cbn; try done.
  - intros d' o' [[<- [<- _]]|[Hne Hd']]%list_lookup_insert_Some; cbn; intros Ha'; [congruence|].
    destruct (si_active0 d' o' Hd' Ha') as [Hs ?]. split; [|done]. destruct Hcur as [[E ->]|[E ->]]; congruence.
  - intros d' Hd'. destruct Hcur as [[E ->]|[E ->]]; [done|]. destruct (si_current0 d' Hd') as (? & o' & ? & ?).
    split; [done|]. exists o'. rewrite list_lookup_insert_ne by congruence. done.
  - destruct (request s); try done.
    + destruct si_request0 as [[] ?]. split; [|done]. split; cbn; auto.
    + destruct si_request0. split; cbn; auto.
  - destruct (setting s) as [|c e d0| |]; try done.
    + destruct si_setting0 as [Hs Hc]. split; [|by eapply keep_cancelled].
      destruct Hcur as [[E ->]|[E ->]]; [by left|done].
    + destruct si_setting0; auto.
    + destruct si_setting0 as (? & ? & ?); auto.
Qed.

(** The channel of a caller or of a drain is installed: the buffer is empty and
    nothing is being sent. *)
Lemma install_inv s t :
  sinv s -> sigDrain s = None -> sigBuf s = [] -> registered s = Some t -> (request s = RIdle \/ request s = RFinishing) ->
  (setting s = SIdle \/ exists c e d, setting s = SDraining c e d) ->
  sinv (set_sender (Some (t, nextCancel s)) (sendCancelled s) (S (nextCancel s)) s).
Proof.
  intros I Hd Hb Hr Hrq Hset. assert (Hf : forall ch x n, flight (set_sender ch x n s) = flight s) by done.
  destruct I. rewrite Hd in *. split; rewrite ?Hf; cbn; rewrite ?Hd; try done.
  - intros c i [= <- <-]. split_and!; try done; [|lia]. intros H%si_cancelled0. lia.
  - intros i H%si_cancelled0. lia.
  - destruct Hrq as [E|E]; rewrite E in *; done.
  - destruct Hset as [E|(c & e & d & E)]; rewrite E in *; done.
Qed.

Lemma drain_exec_inv d r s s' : sinv s -> drain_exec d r s = Some s' -> sinv s'.
Proof.
  intros I. unfold drain_exec. destruct (drains s !! d) as [o|] eqn:Hd; [|done].
  destruct (active (dr_phase o)) eqn:Ha.
  - destruct (active_current s d o I Hd Ha) as (Hs & Hch & Hr & Hf & Hrq & Hcan & Hset). rewrite Hs.
    pose proof (fun p cur buf recv over aban => drain_moves_inv s d o p cur buf recv over aban I Hd Ha) as H.
    pose proof (si_bound _ I) as Hbd.
    destruct (dr_phase o) as [|[|sig rest]|rest| | |] eqn:Ep; try done; cbn in H.
    + destruct (sigBuf s) as [|sig rest] eqn:Eb.
      * intros [= <-]. specialize (H DDeferred None [] [] (overflowed s) 0). rewrite account_nil in H.
        set (s1 := set_drains _ _ _). change (sinv (set_sender (Some (dr_target o, nextCancel s1)) (sendCancelled s1) (S (nextCancel s1)) s1)).
        assert (s1 = set_buffer [] (overflowed s) s1) as E1 by (unfold s1, set_drains, set_buffer; cbn; by rewrite Eb).
        apply install_inv; try done. { rewrite E1. apply H; (done || lia || auto). }
        destruct Hset as [|(c & e & E)]; eauto.
      * intros [= <-]. specialize (H (DSending (sig :: rest)) (Some d) [] [] (overflowed s) 0). rewrite account_nil in H.
        apply H; cbn; try done; try lia; [by left; auto|]. by rewrite app_nil_r.
    + intros [= <-]. specialize (H DLocking (Some d) (sigBuf s) [] (overflowed s) 0). rewrite account_nil in H.
      apply H; cbn; try done; try lia. by left; auto.
    + destruct (can_take r (dr_cancelled o) (ctxDone s)) eqn:Ec; [|done]. intros [= <-]. destruct r.
      * apply (H (DSending rest) (Some d) (sigBuf s) [(dr_target o, sig)] (overflowed s) 0); cbn; try done; try lia. by left; auto.
      * specialize (H (DRequeueing (sig :: rest)) (Some d) (sigBuf s) [] (overflowed s) 0). rewrite account_nil in H.
        apply H; cbn; try done; try lia. by left; auto.
      * apply (H DDeferred (Some d) (sigBuf s) [] (overflowed s) (length (sig :: rest))); cbn; try done; try lia; [by left; auto|].
        by apply (sublist_inserts_l (sig :: rest)).
      * specialize (H (DRequeueing (sig :: rest)) (Some d) (sigBuf s) [] (overflowed s) 0). rewrite account_nil in H.
        apply H; cbn; try done; try lia. by left; auto.
    + intros [= <-]. specialize (H DDeferred None (take maxSigBufSize (rest ++ sigBuf s)) [] (overflowed s + (length (rest ++ sigBuf s) - maxSigBufSize)) 0).
      rewrite account_nil in H. apply H; try done; try lia; [by right| | |].
      * apply sublist_take.
      * cbn [length cur_flight]. rewrite length_take, length_app. lia.
      * rewrite length_take. lia.
  - destruct (dr_phase o) eqn:Ep; try done; intros [= <-]; apply drain_leaves_inv; try done; rewrite ?Ep; try done.
    + case_bool_decide; auto.
    + right. split; [|done]. intros Hs. destruct (si_current _ I d Hs) as (_ & o' & Ho' & [|] & _); simplify_eq; congruence.
Qed.

(** ** Registration *)

(** The registered channel is not used any more: the waits can begin. *)
Lemma clear_sender_inv s c e :
  sinv s -> sigDrain s = None -> (setting s = SIdle /\ (exit_stopped s = true -> c = None) /\ (e = true -> exiting s = true /\ c = None) \/
   exists d, setting s = SDraining c e d) ->
  sinv (set_setting (SWaiting c e) (clear_sender s)).
Proof.
  intros I Hd Hset. unfold clear_sender.
  assert (Hex : exit_stopped s = true -> exiting s = true /\ registered s = None /\ c = None).
  { intros E. destruct (si_exit _ I E) as (? & ? & Harg). split_and!; try done. destruct Hset as [(_ & Hc & _)|[d Hs]]; [auto|].
    rewrite Hs in Harg. cbn in Harg. destruct Harg as [|[=]]; done. }
  assert (Hex' : e = true -> exiting s = true /\ Some c = Some None).
  { intros E. destruct Hset as [(_ & _ & Hc)|[d Hs]]; [destruct (Hc E) as [? ->]; done|].
    pose proof (si_exiting _ I) as H. rewrite Hs in H. by apply H. }
  destruct (sigCh s) as [[t i]|] eqn:Ech.
  - destruct (si_ch _ I t i Ech) as (Hb & Hr & Hi & Hlt). rewrite bool_decide_eq_false_2 by done.
    assert (Hf : forall x y, flight (set_setting x (set_sender None y (nextCancel s) s)) = flight s) by done.
    destruct I. rewrite Hd in *. split; rewrite ?Hf; cbn; rewrite ?Hd; try done.
    + intros j [->%elem_of_singleton|]%elem_of_union; auto.
    + destruct (request s) as [|sig t' j|sig t' r|]; try done.
      * destruct si_request0 as ([] & Hlt' & Hj & _). split_and!; [split; cbn; done|done|done|].
        intros _. apply elem_of_union_l, elem_of_singleton. by apply (Hj t).
      * destruct si_request0. by split; cbn.
    + intros (? & ? & ->)%Hex. auto.
  - assert (Hf : forall x, flight (set_setting x s) = flight s) by done.
    destruct I. rewrite Hd in *. split; rewrite ?Hf; cbn; rewrite ?Hd; try done.
    + destruct (request s); try done; [destruct si_request0 as ([] & ?); split; [|done]|destruct si_request0]; by split; cbn.
    + intros (? & ? & ->)%Hex. auto.
Qed.

Lemma begin_setting_inv c e s s' :
  sinv s -> (e = true -> exiting s = true /\ c = None) -> begin_setting c e s = Some s' -> sinv s'.
Proof.
  intros I Hc. unfold begin_setting. destruct (setting s) eqn:Eset; try done.
  destruct (exiting s && negb e) eqn:Ee; [by intros [= <-]|].
  assert (Hex : exit_stopped s = true -> c = None).
  { intros (E & _)%(si_exit _ I). rewrite E in Ee. destruct e; [by destruct Hc|done]. }
  destruct (sigDrain s) as [d|] eqn:Ed.
  - destruct (si_current _ I d Ed) as (Hch & o & Ho & Hph & Hcan). rewrite Ho.
    assert (dr_cancelled o = false) as ->.
    { destruct (dr_cancelled o); [|done]. destruct Hcan as (? & ? & ?); [done|congruence]. }
    intros [= <-]. assert (Hlt : d < length (drains s)) by by eapply lookup_lt_Some.
    set (s' := set_setting _ _). assert (Hf : flight s' = flight s).
    { unfold flight, current_drain, s'. cbn. rewrite Ed. cbn. by rewrite list_lookup_insert_eq, Ho. }
    destruct I. rewrite Eset, Ed in *. split; rewrite ?Hf; unfold s'; cbn; try done.
    + intros d' o' [[<- [<- _]]|[Hne Hd']]%list_lookup_insert_Some; [by apply (si_active0 d o)|by apply (si_active0 d' o')].
    + intros d' E. assert (d' = d) as -> by congruence. split; [done|]. rewrite list_lookup_insert_eq by done.
      eexists. split_and!; [done|done|]. cbn. eauto.
    + destruct (request s); try done; [destruct si_request0 as ([] & _)|destruct si_request0]; congruence.
    + split; [auto|]. rewrite list_lookup_insert_eq by done. by eexists.
    + intros E. destruct (si_exit0 E) as (? & ? & _). rewrite (Hex E). auto.
    + intros E. destruct (Hc E) as [? ->]. done.
  - intros [= <-]. apply clear_sender_inv; auto.
Qed.

Lemma setting_exec_inv s s' : sinv s -> setting_exec s = Some s' -> sinv s'.
Proof.
  intros I. pose proof (si_setting _ I) as Hset. unfold setting_exec. destruct (setting s) as [|c e d|c e|[c|] e] eqn:Es; try done.
  - destruct (drains s !! d) as [[t [] can]|] eqn:Ed; try done. intros [= <-]. apply clear_sender_inv; [done| |by right; exists d].
    destruct Hset as [[|E] _]; [done|]. destruct (si_current _ I d E) as (_ & o & Ho & [|] & _); rewrite Ed in Ho; by simplify_eq/=.
  - destruct (Nat.eqb_spec (sigSendWg s) 0); [|done]. intros [= <-].
    assert (Hf : forall x, flight (set_setting x s) = flight s) by done. destruct Hset as [Hch Hd].
    destruct I. rewrite Hd, Hch in *. split; rewrite ?Hf; cbn; rewrite ?Hd, ?Hch; try done.
    + destruct (request s); try done; [destruct si_request0 as ([] & ?); split; [|done]|destruct si_request0]; by split; cbn.
    + by rewrite Es in si_exit0.
    + by rewrite Es in si_exiting0.
  - destruct Hset as (Hch & Hd & Hwg).
    assert (Hrq : request s = RIdle \/ request s = RFinishing).
    { pose proof (si_request _ I) as H. destruct (request s); try tauto; [destruct H as ([] & _)|destruct H]; congruence. }
    assert (Hstop : exit_stopped s = false).
    { destruct (exit_stopped s) eqn:E; [|done]. destruct (si_exit _ I E) as (_ & _ & H). rewrite Es in H. by destruct H. }
    assert (Hno : forall d o, drains s !! d = Some o -> active (dr_phase o) = true -> False).
    { intros d o Ho Ha. destruct (si_active _ I d o Ho Ha). congruence. }
    set (s1 := set_registered (Some c) (exit_stopped s) s).
    assert (I1 : sinv s1).
    { assert (Hf : flight s1 = flight s) by done. destruct I. rewrite Hd, Hch in *. split; rewrite ?Hf; cbn; rewrite ?Hd, ?Hch; try done.
      - intros d o Ho Ha. by destruct (Hno d o).
      - by destruct Hrq as [E|E]; rewrite E in *.
      - congruence. }
    destruct (sigBuf s) as [|sig rest] eqn:Eb.
    + intros [= <-]. by apply (install_inv s1 c I1); auto.
    + intros [= <-]. set (s2 := set_drains _ _ _).
      assert (Hf : flight s2 = flight s1).
      { unfold flight, current_drain, s2, s1. cbn. rewrite Hd. cbn. rewrite list_lookup_middle by done. cbn. by destruct Hrq as [-> | ->]. }
      destruct I1. split; rewrite ?Hf; unfold s2; cbn; try done.
      * intros d o [Ho|[Hlen [Hz <-]%list_lookup_singleton_Some]]%lookup_app_Some Ha; [by destruct (Hno d o)|].
        split; [f_equal; lia|done].
      * intros d [= <-]. split; [done|]. rewrite list_lookup_middle by done. eexists. split_and!; [done|by left|done].
      * by destruct Hrq as [E|E]; unfold s1 in si_request0; cbn in si_request0; rewrite E in *.
  - intros [= <-]. destruct Hset as (Hch & Hd & Hwg). set (s1 := set_registered _ _ _). assert (Hf : flight s1 = flight s) by done.
    assert (Hrq : request s = RIdle \/ request s = RFinishing).
    { pose proof (si_request _ I) as H. destruct (request s); try tauto; [destruct H as ([] & _)|destruct H]; congruence. }
    destruct I. rewrite Hd, Hch in *. split; rewrite ?Hf; cbn; rewrite ?Hd, ?Hch; try done.
    + intros d o Ho Ha. by destruct (si_active0 d o Ho Ha).
    + by destruct Hrq as [E|E]; rewrite E in *.
    + rewrite Es in *. intros [E|E]%orb_true_iff; [by destruct (si_exit0 E) as (? & ? & _); auto|]. destruct (si_exiting0 E); auto.
Qed.

Lemma signal_exec_inv a s s' : sinv s -> signal_exec a s = Some s' -> sinv s'.
Proof.
  intros I. destruct a as [sig|r|d r|c| | | |]; cbn.
  - by apply handleSignal_inv.
  - by apply request_exec_inv.
  - by apply drain_exec_inv.
  - by apply begin_setting_inv.
  - intros [= <-]. assert (Hf : forall e c p, flight (set_flags e c p s) = flight s) by done.
    destruct I. split; rewrite ?Hf; cbn; try done.
    + destruct (request s); try done; [destruct si_request0 as ([] & ?); split; [|done]|destruct si_request0]; by split; cbn.
    + intros (? & ? & ?)%si_exit0. done.
    + intros (? & ?)%si_exiting0. done.
  - destruct (exiting s) eqn:E; [|done]. by apply begin_setting_inv.
  - by apply setting_exec_inv.
  - intros [= <-]. assert (Hf : forall e c p, flight (set_flags e c p s) = flight s) by done.
    destruct I. split; rewrite ?Hf; cbn; try done.
    destruct (request s); try done; [destruct si_request0 as ([] & ?); split; [|done]|destruct si_request0]; by split; cbn.
Qed.

Lemma signal_run_inv l s s' : sinv s -> signal_run l s = Some s' -> sinv s'.
Proof.
  revert s. induction l as [|a l IH]; cbn; intros s I; [by intros [= <-]|].
  destruct (signal_exec a s) eqn:E; [|done]. apply IH. by eapply signal_exec_inv.
Qed.

(** ** What a handler may rely on *)

(** A goroutine that is sending, or may begin to, on a channel. *)
Inductive may_send (s : signals) : nat -> Prop :=
| ms_request sig t i : request s = RSending sig t i -> may_send s t
| ms_next t i : sigCh s = Some (t, i) -> may_send s t
| ms_drain d o : drains s !! d = Some o -> active (dr_phase o) = true -> may_send s (dr_target o).

Lemma may_send_registered s t : sinv s -> may_send s t -> registered s = Some t.
Proof.
  intros I. destruct 1 as [sig t i E|t i E|d o Ho Ha].
  - pose proof (si_request _ I) as H. rewrite E in H. by destruct H as ([] & _).
  - by destruct (si_ch _ I t i E) as (_ & ? & _).
  - by destruct (si_active _ I d o Ho Ha).
Qed.

(** Signals go to the registered channel only: whatever the interleaving of
    requests, drains, [Signals] and [Exit], no goroutine sends or is going to
    send on a channel other than the one of the last [Signals] call that has
    returned, so that a receiver that has unregistered its channel may close it;
    nobody sends when a new channel is about to be installed, nor ever again
    when [Exit] has stopped the delivery; and no channel is closed twice. *)
Theorem signals_registered l s :
  signal_run l signals_init = Some s ->
  (forall t, may_send s t -> registered s = Some t) /\
  (forall c e t, setting s = SInstalling c e -> may_send s t -> False) /\
  (exit_stopped s = true -> forall t, may_send s t -> False) /\
  panicked s = false.
Proof.
  intros H. pose proof (signal_run_inv _ _ _ signals_init_inv H) as I.
  pose proof (fun t => may_send_registered s t I) as Hreg. split_and!; [done| | |apply I].
  - intros c e t Hs. pose proof (si_setting _ I) as Hset. rewrite Hs in Hset. destruct Hset as (Hch & Hd & Hwg).
    destruct 1 as [sig t i E|t i E|d o Ho Ha].
    + pose proof (si_request _ I) as Hr. rewrite E in Hr. destruct Hr as ([] & _). congruence.
    + congruence.
    + destruct (si_active _ I d o Ho Ha). congruence.
  - intros E t Ht. destruct (si_exit _ I E) as (_ & Hn & _). apply Hreg in Ht. congruence.
Qed.

(** C23. Signals arrive in order and are not lost: what the channels have
    received, what a goroutine has taken and what is buffered are, in this order,
    signals of the order of their requests, and every signal is accounted for;
    one is missing only if its request was answered [false], if the buffer of
    128 was full, or if the context was done, and with none of these nothing is
    missing at all. *)
Theorem signals_ordered l s :
  signal_run l signals_init = Some s ->
  sublist (map snd (received s) ++ flight s ++ sigBuf s) (accepted s) /\
  length (accepted s) = length (received s) + length (flight s) + length (sigBuf s) + rejected s + overflowed s + abandoned s /\
  (ctxDone s = false -> abandoned s = 0) /\ length (sigBuf s) <= maxSigBufSize /\
  (rejected s = 0 -> overflowed s = 0 -> ctxDone s = false -> map snd (received s) ++ flight s ++ sigBuf s = accepted s).
Proof.
  intros H. pose proof (signal_run_inv _ _ _ signals_init_inv H) as I.
  assert (Ha : ctxDone s = false -> abandoned s = 0).
  { intros E. destruct (decide (0 < abandoned s)) as [Hlt|]; [|lia]. apply (si_abandoned _ I) in Hlt. congruence. }
  split_and!; [apply I|apply I|done|apply I|]. intros Hr Ho Hc. specialize (Ha Hc). pose proof (si_count _ I) as Hn.
  apply sublist_all; [apply I|]. rewrite !length_app, length_map. lia.
Qed.

(** The goroutine of a drain that has been cancelled ends without its receiver. *)
Lemma drain_goes_on s d o :
  drains s !! d = Some o -> dr_phase o <> DEnded -> dr_cancelled o = true -> exists s', drain_exec d SendCancelled s = Some s'.
Proof.
  intros Hd Hne Hc. unfold drain_exec. rewrite Hd, Hc.
  destruct (dr_phase o) as [|[|sig rest]|rest| | |]; try done; cbn; eauto. destruct (sigBuf s); eauto.
Qed.

(** [Signals] and [Exit] do not hang on a receiver that does not receive: in
    every reachable state in which a call has begun, it can go on or a goroutine
    it waits for can, without a receiver and without the end of the context. *)
Theorem signals_progress l s :
  signal_run l signals_init = Some s -> setting s <> SIdle ->
  exists a s', signal_exec a s = Some s' /\ (a = ASetting \/ a = ARequest SendCancelled \/ exists d, a = ADrain d SendCancelled).
Proof.
  intros H Hne. pose proof (signal_run_inv _ _ _ signals_init_inv H) as I. pose proof (si_setting _ I) as Hset.
  destruct (setting s) as [|c e d|c e|c e] eqn:Es; [done| | |].
  - destruct Hset as [_ (o & Ho & Hc)]. destruct (decide (dr_phase o = DEnded)) as [He|He].
    + exists ASetting. cbn. unfold setting_exec. rewrite Es, Ho. destruct o as [t p can]. cbn in He. rewrite He. eauto.
    + destruct (drain_goes_on s d o Ho He Hc) as [s' Hs']. exists (ADrain d SendCancelled), s'. eauto.
  - pose proof (si_request _ I) as Hr. destruct Hset as [Hch _].
    destruct (request s) as [|sig t i|sig t r|] eqn:Er.
    + exists ASetting. cbn. unfold setting_exec. rewrite Es, Hr. eauto.
    + exists (ARequest SendCancelled). cbn. unfold request_exec. rewrite Er. destruct Hr as (_ & _ & _ & Hi).
      rewrite bool_decide_eq_true_2 by auto. cbn. eauto.
    + exists (ARequest SendCancelled). cbn. unfold request_exec. rewrite Er. eauto.
    + exists (ARequest SendCancelled). cbn. unfold request_exec. rewrite Er. eauto.
  - exists ASetting. cbn. unfold setting_exec. rewrite Es. destruct c; eauto.
Qed.

(** ** A sample run *)

Definition sample_signals_end : signals :=
  Eval vm_compute in default signals_init (signal_run sample_signals signals_init).
Lemma sample_signals_reach : signal_run sample_signals signals_init = Some sample_signals_end.
Proof. vm_compute. reflexivity. Qed.

Lemma signals_registered_witness :
  signal_run sample_signals signals_init = Some sample_signals_end /\ registered sample_signals_end = Some 2 /\
  sigCh sample_signals_end = Some (2, 1) /\ panicked sample_signals_end = false.
Proof.
  split; [apply sample_signals_reach|].
  destruct (signals_registered sample_signals sample_signals_end sample_signals_reach) as (Hr & _ & _ & Hp).
  split_and!; [by apply Hr, (ms_next _ 2 1)|done|done].
Defined.

Lemma signals_ordered_witness :
  map snd (received sample_signals_end) = ["HUP"; "INT"] /\ rejected sample_signals_end = 1 /\
  sublist (map snd (received sample_signals_end) ++ flight sample_signals_end ++ sigBuf sample_signals_end) ["HUP"; "INT"; "TERM"].
Proof.
  destruct (signals_ordered sample_signals sample_signals_end sample_signals_reach) as (Hs & _).
  split_and!; [done|done|exact Hs].
Defined.

(** The channel is exchanged while a signal is being sent to a receiver that does not take it. *)
Definition sample_blocked : list signalAction := [ASignals (Some 1); ASetting; ASetting; ASignal "HUP"; ASignals None].
Definition sample_blocked_end : signals :=
  Eval vm_compute in default signals_init (signal_run sample_blocked signals_init).
Lemma sample_blocked_reach : signal_run sample_blocked signals_init = Some sample_blocked_end.
Proof. vm_compute. reflexivity. Qed.

Lemma signals_progress_witness :
  setting sample_blocked_end = SWaiting None false /\ setting_exec sample_blocked_end = None /\
  exists a s', signal_exec a sample_blocked_end = Some s'.
Proof.
  split_and!; [done|done|].
  destruct (signals_progress sample_blocked sample_blocked_end sample_blocked_reach) as (a & s' & H & _); [done|eauto].
Defined.
