(* ===== verification/Breaks.v ===== *)
(** Breaks: the delivery of break requests to the channel that a handler
    registers ([Session.Break], [session.go]) and the end of the delivery by
    [Exit].  The goroutine that reads the requests of the session, the callers
    of [Break] and those of [Exit] share [breakCh], [breakSendCancel] and
    [breakSendWg] and the mutexes [breakConfigMu], [breakReplyMu] and
    [sigReplyMu]; each critical section, each send, each wait and each lock that
    can wait is a step, in any order.

    Channels are addresses, and [breakSendCancel] is known by a number, as it is
    set and cleared together with [breakCh].  Of [Exit] the part about signals
    is in [Signals]; here it is the lock of [sigReplyMu], which the calls of
    [Exit] hold until they return. *)
From S2P Require Import Prelude.
Local Open Scope nat_scope.
Local Open Scope list_scope.

(** What the select of [sendBreak] takes; a send on a channel that its receiver
    has closed panics, which is recovered. *)
Inductive breakResult := BrDelivered | BrCancelled | BrContextDone | BrChannelClosed.
Definition sendBreak (r : breakResult) : bool * bool :=
  match r with BrDelivered => (true, false) | BrChannelClosed => (false, true) | _ => (false, false) end.

(** [deliverBreakAndReply], which holds [breakReplyMu]. *)
Inductive breakRequest :=
| QIdle
| QLocked                              (* before the first critical section of deliverBreak *)
| QSending (target cancel : nat)       (* in sendBreak *)
| QSent (target : nat) (r : breakResult) (* before the second critical section *)
| QFinishing (delivered : bool)        (* before breakSendWg.Done() *)
| QReplying (delivered : bool).        (* before reply *)

(** [setBreakChannelLocked] under [breakConfigMu], for a call of [Break] or for
    the call of [Exit] with a number. *)
Inductive breakConfig :=
| KIdle
| KWaiting (c : option nat) (exit : option nat)      (* breakSendWg.Wait() *)
| KInstalling (c : option nat) (exit : option nat).  (* before the last critical section *)

(** A call of [Exit] with a valid status. *)
Inductive exitCall :=
| XCalled                              (* before exiting.Store(true) *)
| XExiting                             (* before sigReplyMu.Lock() *)
| XSigLocked                           (* before stopBreakDeliveryForExit has breakConfigMu *)
| XStopping                            (* in it *)
| XStopped                             (* before breakReplyMu.Lock() *)
| XReplyLocked                         (* before the last critical section *)
| XReturned (ok : bool).

Inductive breakEvent := BReceived (c : nat) | BReply (accepted : bool) | BExitStatus.

Record breaks := mkBreaks {
  breakCh : option (nat * nat);        (* the channel and its breakSendCancel *)
  breakCancelled : gset nat;           (* the closed ones of breakSendCancel *)
  nextCancel : nat;
  breakSendWg : nat;
  breakSends : nat;
  exiting : bool;
  exited : bool;
  ctxDone : bool;
  request : breakRequest;
  config : breakConfig;
  exits : list exitCall;
  (* what has happened *)
  registered : option nat;             (* the argument of the last call that has set the channel *)
  requests : nat;                      (* break requests *)
  events : list breakEvent;
  panicked : bool }.

Definition breaks_init : breaks := mkBreaks None ∅ 0 0 0 false false false QIdle KIdle [] None 0 [] false.

Definition set_sender (ch : option (nat * nat)) (cancelled : gset nat) (next : nat) (panic : bool) (s : breaks) : breaks :=
  mkBreaks ch cancelled next (breakSendWg s) (breakSends s) (exiting s) (exited s) (ctxDone s) (request s) (config s) (exits s)
    (registered s) (requests s) (events s) panic.
Definition set_request (r : breakRequest) (wg sends : nat) (s : breaks) : breaks :=
  mkBreaks (breakCh s) (breakCancelled s) (nextCancel s) wg sends (exiting s) (exited s) (ctxDone s) r (config s) (exits s)
    (registered s) (requests s) (events s) (panicked s).
Definition set_config (k : breakConfig) (reg : option nat) (s : breaks) : breaks :=
  mkBreaks (breakCh s) (breakCancelled s) (nextCancel s) (breakSendWg s) (breakSends s) (exiting s) (exited s) (ctxDone s) (request s)
    k (exits s) reg (requests s) (events s) (panicked s).
Definition set_exits (l : list exitCall) (ex ed : bool) (s : breaks) : breaks :=
  mkBreaks (breakCh s) (breakCancelled s) (nextCancel s) (breakSendWg s) (breakSends s) ex ed (ctxDone s) (request s)
    (config s) l (registered s) (requests s) (events s) (panicked s).
Definition set_context (s : breaks) : breaks :=
  mkBreaks (breakCh s) (breakCancelled s) (nextCancel s) (breakSendWg s) (breakSends s) (exiting s) (exited s) true (request s)
    (config s) (exits s) (registered s) (requests s) (events s) (panicked s).
Definition happen (req : nat) (l : list breakEvent) (s : breaks) : breaks :=
  mkBreaks (breakCh s) (breakCancelled s) (nextCancel s) (breakSendWg s) (breakSends s) (exiting s) (exited s) (ctxDone s) (request s)
    (config s) (exits s) (registered s) (requests s + req) (events s ++ l) (panicked s).

(** ** The steps *)

(** The case [r] of the select of [sendBreak] may be taken. *)
Definition can_take (r : breakResult) (cancelled ctx : bool) : bool :=
  match r with BrDelivered | BrChannelClosed => true | BrCancelled => cancelled | BrContextDone => ctx end.

(** [sigReplyMu] and [breakReplyMu] are held by a call of [Exit]. *)
Definition holds_sig (x : exitCall) : bool :=
  match x with XSigLocked | XStopping | XStopped | XReplyLocked => true | _ => false end.
Definition holds_reply (x : exitCall) : bool := match x with XReplyLocked => true | _ => false end.
Definition is_idle (r : breakRequest) : bool := match r with QIdle => true | _ => false end.

(** [deliverBreakAndReply] begins, and goes on. *)
Definition break_begin (s : breaks) : option breaks :=
  if is_idle (request s) && negb (existsb holds_reply (exits s))
  then Some (happen 1 [] (set_request QLocked (breakSendWg s) (breakSends s) s)) else None.
Definition request_exec (r : breakResult) (s : breaks) : option breaks :=
  match request s with
  | QIdle => None
  | QLocked =>
      match breakCh s with
      | Some (target, id) => Some (set_request (QSending target id) (S (breakSendWg s)) (S (breakSends s)) s)
      | None => Some (set_request (QReplying false) (breakSendWg s) (breakSends s) s)
      end
  | QSending target id =>
      if can_take r (bool_decide (id ∈ breakCancelled s)) (ctxDone s) then
        Some (happen 0 (if fst (sendBreak r) then [BReceived target] else [])
                (set_request (QSent target r) (breakSendWg s) (breakSends s) s))
      else None
  | QSent target r =>
      let '(delivered, channelClosed) := sendBreak r in
      let s := set_request (QFinishing delivered) (breakSendWg s) (breakSends s - 1) s in
      Some (match breakCh s with
            | Some (c, _) =>
                if channelClosed && (c =? target)%nat then set_sender None (breakCancelled s) (nextCancel s) (panicked s) s else s
            | None => s
            end)
  | QFinishing delivered => Some (set_request (QReplying delivered) (breakSendWg s - 1) (breakSends s) s)
  | QReplying delivered => Some (happen 0 [BReply delivered] (set_request QIdle (breakSendWg s) (breakSends s) s))
  end.

(** [close(sess.breakSendCancel); sess.breakSendCancel = nil; sess.breakCh = nil] *)
Definition clear_sender (s : breaks) : breaks :=
  match breakCh s with
  | Some (_, id) => set_sender None ({[id]} ∪ breakCancelled s) (nextCancel s) (panicked s || bool_decide (id ∈ breakCancelled s)) s
  | None => s
  end.

(** [Break(c)], once it has [breakConfigMu]; and [setBreakChannelLocked]. *)
Definition break_call (c : option nat) (s : breaks) : option breaks :=
  match config s with
  | KIdle => if exiting s then Some s else Some (set_config (KWaiting c None) (registered s) (clear_sender s))
  | _ => None
  end.
Definition config_exec (s : breaks) : option breaks :=
  match config s with
  | KIdle => None
  | KWaiting c exit => if (breakSendWg s =? 0)%nat then Some (set_config (KInstalling c exit) (registered s) s) else None
  | KInstalling c exit =>
      let s := set_config KIdle c s in
      let s := match c with
               | Some c => set_sender (Some (c, nextCancel s)) (breakCancelled s) (S (nextCancel s)) (panicked s) s
               | None => s
               end in
      Some (match exit with Some i => set_exits (<[i := XStopped]> (exits s)) (exiting s) (exited s) s | None => s end)
  end.

(** The call [i] of [Exit]. *)
Definition exit_exec (i : nat) (s : breaks) : option breaks :=
  let go x := set_exits (<[i := x]> (exits s)) in
  match exits s !! i with
  | Some XCalled => Some (go XExiting true (exited s) s)
  | Some XExiting => if existsb holds_sig (exits s) then None else Some (go XSigLocked (exiting s) (exited s) s)
  | Some XSigLocked =>
      match config s with
      | KIdle => Some (set_config (KWaiting None (Some i)) (registered s) (clear_sender (go XStopping true (exited s) s)))
      | _ => None
      end
  | Some XStopped =>
      if is_idle (request s) && negb (existsb holds_reply (exits s)) then Some (go XReplyLocked (exiting s) (exited s) s) else None
  | Some XReplyLocked =>
      if exited s then Some (go (XReturned false) (exiting s) true s)
      else Some (happen 0 [BExitStatus] (go (XReturned true) (exiting s) true s))
  | _ => None
  end.

Inductive breakAction :=
| ABreak                               (* a break request *)
| ARequest (r : breakResult)           (* deliverBreakAndReply goes on *)
| ABreakCall (c : option nat)          (* Break(c) *)
| AConfig                              (* the call that holds breakConfigMu goes on *)
| AExit                                (* a call of Exit *)
| AExitStep (i : nat)                  (* goes on *)
| AContextDone.

Definition break_exec (a : breakAction) (s : breaks) : option breaks :=
  match a with
  | ABreak => break_begin s
  | ARequest r => request_exec r s
  | ABreakCall c => break_call c s
  | AConfig => config_exec s
  | AExit => Some (set_exits (exits s ++ [XCalled]) (exiting s) (exited s) s)
  | AExitStep i => exit_exec i s
  | AContextDone => Some (set_context s)
  end.

Fixpoint break_run (l : list breakAction) (s : breaks) : option breaks :=
  match l with
  | [] => Some s
  | a :: l => match break_exec a s with Some s => break_run l s | None => None end
  end.

(** A break is delivered, the channel is exchanged, [Exit] comes in while a
    break is being sent to the new one, and a last break is refused. *)
Definition sample_breaks : list breakAction :=
  [ABreakCall (Some 1); AConfig; AConfig; ABreak; ARequest BrDelivered; ARequest BrDelivered; ARequest BrDelivered; ARequest BrDelivered;
   ARequest BrDelivered; ABreakCall (Some 2); AConfig; AConfig; ABreak; ARequest BrDelivered; AExit; AExitStep 0; AExitStep 0; AExitStep 0;
   ARequest BrCancelled; ARequest BrCancelled; ARequest BrCancelled; ARequest BrCancelled; AConfig; AConfig; AExitStep 0; AExitStep 0;
   ABreakCall (Some 3); ABreak; ARequest BrCancelled; ARequest BrCancelled].
Example sample_breaks_run :
  (fun s => (events s, breakCh s, exits s)) <$> break_run sample_breaks breaks_init =
  Some ([BReceived 1; BReply true; BReply false; BExitStatus; BReply false], None, [XReturned true]).
Proof. vm_compute. reflexivity. Qed.

(** ** What a session promises about breaks *)

(** Every request is answered once, with [true] exactly after a receiver has got
    the break; the exit status is sent once, with no request pending, and from
    then on nothing is delivered and requests are refused. *)
Inductive breakPromise := TQuiet | TPending | TExited.
Definition promise_step (t : breakPromise) (e : breakEvent) : option breakPromise :=
  match t, e with
  | TQuiet, BReceived _ => Some TPending
  | TPending, BReply true | TQuiet, BReply false => Some TQuiet
  | TQuiet, BExitStatus | TExited, BReply false => Some TExited
  | _, _ => None
  end.
Definition promise (l : list breakEvent) : option breakPromise :=
  foldl (fun t e => t ≫= fun t => promise_step t e) (Some TQuiet) l.

Definition is_reply (e : breakEvent) : bool := match e with BReply _ => true | _ => false end.
Definition replies (l : list breakEvent) : nat := length (List.filter is_reply l).

#[local] Arguments replies l : simpl never.
#[local] Arguments promise l : simpl never.

Lemma promise_snoc l e t : promise l = Some t -> promise (l ++ [e]) = promise_step t e.
Proof. intros H. unfold promise in *. by rewrite foldl_app, H. Qed.

Lemma replies_snoc l e : replies (l ++ [e]) = replies l + (if is_reply e then 1 else 0).
Proof. unfold replies. rewrite List.filter_app, length_app. cbn [List.filter]. by destruct (is_reply e). Qed.

(** ** Invariant *)

Definition pending (r : breakRequest) : bool :=
  match r with QSent _ BrDelivered | QFinishing true | QReplying true => true | _ => false end.
Definition promised (ed : bool) (r : breakRequest) : breakPromise := if ed then TExited else if pending r then TPending else TQuiet.

Definition past_stop (x : exitCall) : bool := match x with XStopped | XReplyLocked | XReturned _ => true | _ => false end.
Definition stopped (l : list exitCall) : Prop := exists i x, l !! i = Some x /\ past_stop x = true.

Definition config_arg (k : breakConfig) : option (option nat) :=
  match k with KIdle => None | KWaiting c _ | KInstalling c _ => Some c end.
Definition config_exit (k : breakConfig) : option nat := match k with KIdle => None | KWaiting _ e | KInstalling _ e => e end.

Record binv (s : breaks) : Prop := mkBinv {
  bi_panicked : panicked s = false;
  bi_cancelled : forall i, i ∈ breakCancelled s -> i < nextCancel s;
  bi_ch : forall c i, breakCh s = Some (c, i) -> registered s = Some c /\ (i ∉ breakCancelled s) /\ i < nextCancel s;
  bi_request : match request s with
    | QIdle | QLocked | QReplying _ => breakSendWg s = 0
    | QSending target i => breakSendWg s = 1 /\ registered s = Some target /\ i < nextCancel s /\
        (forall c j, breakCh s = Some (c, j) -> i = j) /\ (breakCh s = None -> i ∈ breakCancelled s)
    | QSent target _ => breakSendWg s = 1 /\ registered s = Some target
    | QFinishing _ => breakSendWg s = 1
    end;
  bi_sends : breakSends s = match request s with QSending _ _ | QSent _ _ => 1 | _ => 0 end;
  bi_config : match config s with
    | KIdle => True
    | KWaiting _ _ => breakCh s = None
    | KInstalling _ _ => breakCh s = None /\ breakSendWg s = 0
    end;
  bi_config_exit : forall i, config_exit (config s) = Some i -> config_arg (config s) = Some None /\ exits s !! i = Some XStopping;
  bi_stopping : forall i, exits s !! i = Some XStopping -> config_exit (config s) = Some i;
  bi_exiting : forall i x, exits s !! i = Some x -> x <> XCalled -> exiting s = true;
  bi_stopped : stopped (exits s) -> breakCh s = None /\ breakSendWg s = 0 /\ registered s = None /\
    (config_arg (config s) = None \/ config_arg (config s) = Some None);
  bi_reply : forall i, exits s !! i = Some XReplyLocked -> request s = QIdle;
  bi_exited : exited s = true -> stopped (exits s) /\ pending (request s) = false;
  bi_events : promise (events s) = Some (promised (exited s) (request s));
  bi_count : requests s = replies (events s) + if is_idle (request s) then 0 else 1 }.

Ltac split_binv I :=
  destruct I as [Hpan Hcan Hch Hreq Hsends Hconf Hce Hstopping Hexiting Hstop Hrep Hed Hev Hcount].

Lemma breaks_init_inv : binv breaks_init.
Proof. split; try done; cbn. intros (i & x & ? & ?). done. Qed.

Lemma existsb_none {A} (f : A -> bool) l i x : existsb f l = false -> l !! i = Some x -> f x = false.
Proof.
  intros H Hi. destruct (f x) eqn:E; [|done]. assert (existsb f l = true); [|congruence].
  apply existsb_exists. exists x. split; [|done]. apply list_elem_of_In. by eapply list_elem_of_lookup_2.
Qed.

Lemma existsb_some {A} (f : A -> bool) l : existsb f l = true -> exists i x, l !! i = Some x /\ f x = true.
Proof. intros (x & Hx%list_elem_of_In & Hf)%existsb_exists. apply list_elem_of_lookup in Hx as [i Hi]. eauto. Qed.

Lemma break_begin_inv s s' : binv s -> break_begin s = Some s' -> binv s'.
Proof.
  intros I. unfold break_begin. destruct (request s) eqn:Er; try done. cbn [is_idle andb].
  destruct (existsb holds_reply (exits s)) eqn:Ex; [done|]. intros [= <-]. split_binv I. rewrite Er in *.
  split; cbn; rewrite ?app_nil_r; try done.
  - intros i Hi. pose proof (existsb_none _ _ _ _ Ex Hi). done.
  - cbn in Hcount. lia.
Qed.

Lemma deliver_exec_inv r s s' : binv s -> request_exec r s = Some s' -> binv s'.
Proof.
  intros I. unfold request_exec. split_binv I.
  assert (Hnr : request s <> QIdle -> forall i, exits s !! i <> Some XReplyLocked) by (intros Hn i Hi; by apply Hn, (Hrep i)).
  destruct (request s) as [| |t i|t r'|d|d] eqn:Er; [done| | | | |]; specialize (Hnr ltac:(done)).
  - destruct (breakCh s) as [[c j]|] eqn:Ec; intros [= <-]; split; cbn; try done; try (intros ? ?%Hnr; done); rewrite ?Ec; try done.
    + rewrite Hreq. destruct (Hch c j eq_refl) as (? & ? & ?). split_and!; try done. by intros ? ? [= _ ->].
    + by rewrite Hsends.
    + destruct (config s); try done; destruct Hconf; congruence.
    + intros H. destruct (Hstop H) as [? _]. congruence.
  - destruct (can_take _ _ _); [|done]. intros [= <-]. destruct Hreq as (Hwg & Hreg & _).
    assert (Hns : ~ stopped (exits s)) by (intros H; destruct (Hstop H) as (_ & ? & _); lia).
    assert (Hned : exited s = false) by (destruct (exited s); [destruct (Hed eq_refl); done|done]).
    split; cbn; try done; try (intros ? ?%Hnr; done); rewrite ?Nat.add_0_r; try done; try (intros ? ?%Hnr; done).
    + by rewrite Hned.
    + rewrite Hned in *. destruct r; cbn; rewrite ?app_nil_r; try done. by rewrite (promise_snoc _ _ _ Hev).
    + destruct r; cbn; rewrite ?app_nil_r, ?replies_snoc; cbn in *; lia.
  - destruct (sendBreak r') as [dl cl] eqn:Es. intros [= <-]. destruct Hreq as (Hwg & Hreg).
    assert (Hns : ~ stopped (exits s)) by (intros H; destruct (Hstop H) as (_ & ? & _); lia).
    assert (Hned : exited s = false) by (destruct (exited s); [destruct (Hed eq_refl); done|done]).
    assert (Hp : promise (events s) = Some (promised (exited s) (QFinishing dl))).
    { rewrite Hev, Hned. destruct r'; cbn in Es; by simplify_eq. }
    assert (I : binv (set_request (QFinishing dl) (breakSendWg s) (breakSends s - 1) s)).
    { split; cbn; try done; try (intros ? ?%Hnr; done); [lia|]. by rewrite Hned. }
    cbn. destruct (breakCh s) as [[c j]|] eqn:Ec; [|done]. destruct (_ && _); [|done]. clear -I Ec. split_binv I. split; cbn in *; try done.
    + destruct (config s); try done. by destruct Hconf.
    + intros H. destruct (Hstop H) as (_ & ? & ? & ?). done.
  - intros [= <-]. assert (Hned : exited s = false \/ d = false) by (destruct (exited s), d; auto; by destruct (Hed eq_refl)).
    split; cbn; try done; try (intros ? ?%Hnr; done); try lia.
    + destruct (config s); try done. destruct Hconf. lia.
    + intros H. destruct (Hstop H) as (? & ? & ?). lia.
  - intros [= <-]. split; cbn; rewrite ?Nat.add_0_r, ?replies_snoc; cbn; try done; try (intros ? ?%Hnr; done); try (cbn in *; lia).
    + intros H. by destruct (Hed H).
    + rewrite (promise_snoc _ _ _ Hev). unfold promised. destruct (exited s); [destruct (Hed eq_refl) as [_ Hd]|]; by destruct d.
Qed.

Lemma clear_channel_inv s : binv s -> binv (clear_sender s) /\ breakCh (clear_sender s) = None.
Proof.
  intros I. unfold clear_sender. destruct (breakCh s) as [[c j]|] eqn:Ec; [|done]. split; [|done]. split_binv I.
  destruct (Hch c j Ec) as (Hr & Hj & Hlt). split; cbn in *; rewrite ?Ec in *; try done.
  - rewrite Hpan. by apply bool_decide_eq_false_2.
  - intros i [->%elem_of_singleton|Hi]%elem_of_union; auto.
  - destruct (request s); try done. destruct Hreq as (? & ? & ? & Hid & _). split_and!; try done. intros _. rewrite (Hid c j eq_refl). set_solver.
  - destruct (config s); try done. by destruct Hconf.
  - intros H. destruct (Hstop H) as (? & ? & ? & ?). done.
Qed.

Lemma break_call_inv c s s' : binv s -> break_call c s = Some s' -> binv s'.
Proof.
  intros I. unfold break_call. destruct (config s) eqn:Ek; try done. destruct (exiting s) eqn:Ee; intros [= <-]; [done|].
  destruct (clear_channel_inv s I) as [I' Hc].
  assert (Hx : exiting (clear_sender s) = exiting s /\ config (clear_sender s) = config s /\ registered (clear_sender s) = registered s)
    by by unfold clear_sender; destruct (breakCh s) as [[]|].
  destruct Hx as (Hx1 & Hx2 & Hx3). rewrite Ee in Hx1. rewrite Ek in Hx2. rewrite <- Hx3. revert I' Hc Hx1 Hx2. generalize (clear_sender s).
  clear. intros s I Hc He Hk. split_binv I. split; cbn in *; try done.
  - intros i Hi. apply Hstopping in Hi. by rewrite Hk in Hi.
  - intros (i & x & Hi & Hx). assert (exiting s = true); [|congruence]. apply (Hexiting i x Hi). by intros ->.
Qed.

(** A call of [Exit] goes on, on the same side of its stop of the delivery. *)
Lemma stopped_insert l i x y : l !! i = Some x -> past_stop x = past_stop y -> stopped (<[i := y]> l) <-> stopped l.
Proof.
  intros Hi Hp. split; intros (j & z & Hj & Hz).
  - apply list_lookup_insert_Some in Hj as [(<- & <- & _)|(_ & Hj)]; [exists i, x; split; [done|congruence]|by exists j, z].
  - destruct (decide (i = j)) as [<-|Hne].
    + exists i, y. rewrite list_lookup_insert_eq by by eapply lookup_lt_Some. split; [done|congruence].
    + exists j, z. by rewrite list_lookup_insert_ne.
Qed.

Lemma exit_moves i x y s :
  binv s -> exits s !! i = Some x -> x <> XStopping -> y <> XStopping -> y <> XCalled -> past_stop x = past_stop y ->
  (y = XReplyLocked -> request s = QIdle) -> binv (set_exits (<[i := y]> (exits s)) true (exited s) s).
Proof.
  intros I Hi Hx Hy Hc Hp Hr. pose proof (stopped_insert _ _ _ _ Hi Hp) as Hst. split_binv I. split; cbn; try done.
  - intros j Hj. destruct (Hce j Hj) as [? Hj']. split; [done|]. rewrite list_lookup_insert_ne; [done|]. intros <-. congruence.
  - intros j [(<- & ? & _)|(_ & Hj)]%list_lookup_insert_Some; [done|auto].
  - rewrite Hst. done.
  - intros j [(<- & ? & _)|(_ & Hj)]%list_lookup_insert_Some; [auto|by apply (Hrep j)].
  - rewrite Hst. done.
Qed.

Lemma stop_begins i s :
  binv s -> exits s !! i = Some XSigLocked -> config s = KIdle ->
  binv (set_config (KWaiting None (Some i)) (registered s) (clear_sender (set_exits (<[i := XStopping]> (exits s)) true (exited s) s))).
Proof.
  intros I Hi Hk. destruct (clear_channel_inv s I) as [I' Hc].
  assert (Hx : exits (clear_sender s) = exits s /\ exited (clear_sender s) = exited s /\ config (clear_sender s) = config s /\
    registered (clear_sender s) = registered s) by by unfold clear_sender; destruct (breakCh s) as [[]|].
  assert (clear_sender (set_exits (<[i := XStopping]> (exits s)) true (exited s) s) =
          set_exits (<[i := XStopping]> (exits s)) true (exited s) (clear_sender s)) as ->
    by by unfold clear_sender; cbn; destruct (breakCh s) as [[]|].
  destruct Hx as (Hx1 & Hx2 & Hx3 & Hx4). rewrite <- Hx1, <- Hx2, <- Hx4. rewrite <- Hx1 in Hi. rewrite <- Hx3 in Hk.
  revert I' Hc Hi Hk. generalize (clear_sender s). clear. intros s I Hc Hi Hk.
  pose proof (stopped_insert _ _ _ XStopping Hi eq_refl) as Hst. split_binv I. split; cbn; rewrite ?Hst; try done.
  - intros j [= <-]. by rewrite list_lookup_insert_eq by by eapply lookup_lt_Some.
  - intros j [(<- & _ & _)|(_ & Hj)]%list_lookup_insert_Some; [done|]. apply Hstopping in Hj. by rewrite Hk in Hj.
  - intros H. destruct (Hstop H) as (? & ? & ? & _). auto.
  - intros j [(_ & ? & _)|(_ & Hj)]%list_lookup_insert_Some; [done|by apply (Hrep j)].
Qed.

Lemma exit_exec_inv i s s' : binv s -> exit_exec i s = Some s' -> binv s'.
Proof.
  intros I. unfold exit_exec. destruct (exits s !! i) as [x|] eqn:Hi; [|done].
  pose proof (bi_exiting _ I i x Hi) as Hex. pose proof (fun y => exit_moves i x y s I Hi) as HM.
  destruct x as [| | | | | |ok]; try done.
  - intros [= <-]. by apply HM.
  - destruct (existsb _ _); [done|]. intros [= <-]. rewrite Hex by done. by apply HM.
  - destruct (config s) eqn:Ek; try done. intros [= <-]. by apply stop_begins.
  - destruct (is_idle (request s)) eqn:Er; [|done]. destruct (existsb _ _); [done|]. intros [= <-]. rewrite Hex by done.
    apply HM; try done. by destruct (request s).
  - pose proof (bi_reply _ I i Hi) as Hr. destruct (exited s) eqn:Ed; intros [= <-]; rewrite Hex by done.
    + by apply HM.
    + specialize (HM (XReturned true) ltac:(done) ltac:(done) ltac:(done) eq_refl ltac:(done)).
      assert (Hs : stopped (<[i:=XReturned true]> (exits s))).
      { exists i, (XReturned true). by rewrite list_lookup_insert_eq by by eapply lookup_lt_Some. }
      clear -HM Hs Hr. split_binv HM. split; cbn in *; rewrite ?Hr in *; rewrite ?Nat.add_0_r, ?replies_snoc; cbn; try done; try lia.
      by rewrite (promise_snoc _ _ _ Hev).
Qed.

Lemma config_exec_inv s s' : binv s -> config_exec s = Some s' -> binv s'.
Proof.
  intros I. unfold config_exec. destruct (config s) as [|c e|c e] eqn:Ek; [done| |].
  - destruct (Nat.eqb_spec (breakSendWg s) 0) as [Hw|]; [|done]. intros [= <-]. split_binv I. rewrite Ek in *. by split; cbn.
  - intros [= <-]. pose proof (bi_config_exit _ I) as Hce. rewrite Ek in Hce. cbn in Hce. destruct e as [i|].
    + destruct (Hce i eq_refl) as [[= ->] Hi]. clear Hce. split_binv I. rewrite Ek in *. destruct Hconf as [Hcn Hwg].
      pose proof (Hexiting i _ Hi ltac:(done)) as He. split; cbn; try done.
      * by rewrite Hcn.
      * destruct (request s); try done; destruct Hreq; lia.
      * intros j [(_ & ? & _)|(Hne & Hj)]%list_lookup_insert_Some; [done|]. apply Hstopping in Hj. cbn in Hj. congruence.
      * auto.
      * intros j [(_ & ? & _)|(_ & Hj)]%list_lookup_insert_Some; [done|by apply (Hrep j)].
      * intros H. split; [|by apply Hed]. exists i, XStopped. by rewrite list_lookup_insert_eq by by eapply lookup_lt_Some.
    + clear Hce. split_binv I. rewrite Ek in *. destruct Hconf as [Hcn Hwg]. cbn in *. destruct c as [c|]; split; cbn; try done.
      * intros i Hi%Hcan. lia.
      * intros ? ? [= <- <-]. split_and!; [done| |lia]. intros H. apply Hcan in H. lia.
      * destruct (request s); try done; destruct Hreq; lia.
      * intros H. destruct (Hstop H) as (_ & _ & _ & [|]); done.
      * by rewrite Hcn.
      * destruct (request s); try done; destruct Hreq; lia.
      * auto.
Qed.

Lemma break_exec_inv a s s' : binv s -> break_exec a s = Some s' -> binv s'.
Proof.
  intros I. destruct a as [|r|c| | |i|]; cbn [break_exec].
  - by apply break_begin_inv.
  - by apply deliver_exec_inv.
  - by apply break_call_inv.
  - by apply config_exec_inv.
  - intros [= <-]. split_binv I.
    assert (Hl : forall j x, (exits s ++ [XCalled]) !! j = Some x -> x <> XCalled -> exits s !! j = Some x).
    { intros j x [H|[_ [_ <-]%list_lookup_singleton_Some]]%lookup_app_Some; done. }
    assert (Hst : stopped (exits s ++ [XCalled]) <-> stopped (exits s)).
    { split; intros (j & x & Hj & Hx); exists j, x; split; try done; [apply Hl; [done|by intros ->]|by apply lookup_app_l_Some]. }
    split; cbn; rewrite ?Hst; try done; eauto.
    + intros j Hj. destruct (Hce j Hj). split; [done|by apply lookup_app_l_Some].
  - by apply exit_exec_inv.
  - intros [= <-]. split_binv I. by split.
Qed.

Lemma break_run_inv l s s' : binv s -> break_run l s = Some s' -> binv s'.
Proof.
  revert s. induction l as [|a l IH]; cbn; intros s I; [by intros [= <-]|].
  destruct (break_exec a s) as [s1|] eqn:E; [|done]. apply IH. by eapply break_exec_inv.
Qed.

(** ** Every break is answered, and none after the exit *)

(** Breaks and the end of a session: under every interleaving of requests,
    calls of [Break] and calls of [Exit] a break is sent only on the channel of
    the last call that has set one and no channel is closed twice; the peer gets
    exactly one reply for each request, [true] exactly after a receiver has got
    the break; the exit status is sent at most once and with no request pending;
    and once a call of [Exit] has stopped the delivery, before it sends the
    status, nothing is sent to a receiver any more. *)
Theorem breaks_promise l s :
  break_run l breaks_init = Some s ->
  promise (events s) = Some (promised (exited s) (request s)) /\
  requests s = replies (events s) + (if is_idle (request s) then 0 else 1) /\
  (forall c i, request s = QSending c i -> registered s = Some c) /\ panicked s = false /\
  (stopped (exits s) -> breakCh s = None /\ registered s = None /\ forall c i, request s <> QSending c i).
Proof.
  intros H. pose proof (break_run_inv _ _ _ breaks_init_inv H) as I. split_binv I. split_and!; try done.
  - intros c i E. rewrite E in Hreq. by destruct Hreq as (_ & ? & _).
  - intros Hs. destruct (Hstop Hs) as (? & Hwg & ? & _). split_and!; try done. intros c i E. rewrite E in Hreq. destruct Hreq. lia.
Qed.

(** ** Nobody waits for a receiver *)

#[local] Arguments sumZ {A} f l : simpl never.

Definition request_rank (r : breakRequest) : Z :=
  (match r with QIdle => 0 | QReplying _ => 1 | QFinishing _ => 2 | QSent _ _ => 3 | QSending _ _ => 4 | QLocked => 5 end)%Z.
Definition config_rank (k : breakConfig) : Z := (match k with KIdle => 0 | KInstalling _ _ => 1 | KWaiting _ _ => 2 end)%Z.
Definition exit_rank (x : exitCall) : Z :=
  (match x with
   | XReturned _ => 0 | XReplyLocked => 1 | XStopped => 2 | XStopping => 3 | XSigLocked => 6 | XExiting => 7 | XCalled => 8
   end)%Z.
Definition rank (s : breaks) : Z := (request_rank (request s) + config_rank (config s) + sumZ exit_rank (exits s))%Z.

(** The steps that need neither a receiver nor a new call. *)
Inductive unaided : breakAction -> Prop :=
| unaided_request : unaided (ARequest BrCancelled)
| unaided_config : unaided AConfig
| unaided_exit i : unaided (AExitStep i).

Definition can_go_on (s : breaks) : Prop := exists a s', unaided a /\ break_exec a s = Some s'.

Lemma config_goes_on s : binv s -> config s <> KIdle -> can_go_on s.
Proof.
  intros I Hk. split_binv I. unfold can_go_on. destruct (config s) as [|c e|c e] eqn:Ek; [done| |].
  - destruct (decide (breakSendWg s = 0)) as [Hw|Hw].
    + exists AConfig. eexists. split; [constructor|]. cbn. unfold config_exec. by rewrite Ek, Hw.
    + exists (ARequest BrCancelled). cbn. unfold request_exec. destruct (request s) as [| |t i|t r|d|d]; try done.
      * destruct Hreq as (_ & _ & _ & _ & Hi). rewrite bool_decide_eq_true_2 by auto. eexists. split; [constructor|done].
      * destruct (sendBreak r). eexists. split; [constructor|done].
      * eexists. split; [constructor|done].
  - exists AConfig. eexists. split; [constructor|]. cbn. unfold config_exec. by rewrite Ek.
Qed.

Lemma request_goes_on s : binv s -> stopped (exits s) -> is_idle (request s) = false -> can_go_on s.
Proof.
  intros I Hs Hr. split_binv I. destruct (Hstop Hs) as (Hc & Hw & _). exists (ARequest BrCancelled). cbn. unfold request_exec.
  destruct (request s) as [| |t i|t r|d|d]; try done; try lia; try (destruct Hreq; lia).
  - rewrite Hc. eexists. split; [constructor|done].
  - eexists. split; [constructor|done].
Qed.

Lemma reply_goes_on s i : exits s !! i = Some XReplyLocked -> can_go_on s.
Proof.
  intros Hi. exists (AExitStep i). cbn. unfold exit_exec. rewrite Hi. destruct (exited s); (eexists; split; [constructor|done]).
Qed.

(** A call of [Exit] that holds [sigReplyMu]. *)
Lemma locked_goes_on s i x : binv s -> exits s !! i = Some x -> holds_sig x = true -> can_go_on s.
Proof.
  intros I Hi Hx. destruct x; try done.
  - pose proof (config_goes_on s I) as Hk. destruct (config s) as [|c e|c e] eqn:Ek; [|by apply Hk..].
    exists (AExitStep i). cbn. unfold exit_exec. rewrite Hi, Ek. eexists. split; [constructor|done].
  - apply config_goes_on; [done|]. pose proof (bi_stopping _ I i Hi) as H. by destruct (config s).
  - destruct (is_idle (request s)) eqn:Er; [|apply request_goes_on; [done|by exists i, XStopped|done]].
    destruct (existsb holds_reply (exits s)) eqn:Ex.
    + apply existsb_some in Ex as (j & y & Hj & Hy). destruct y; try done. by eapply reply_goes_on.
    + exists (AExitStep i). cbn. unfold exit_exec. rewrite Hi, Er, Ex. eexists. split; [constructor|done].
  - by eapply reply_goes_on.
Qed.

Lemma clear_sender_rank s : rank (clear_sender s) = rank s /\ config (clear_sender s) = config s /\ request (clear_sender s) = request s /\
  exits (clear_sender s) = exits s.
Proof. unfold clear_sender. by destruct (breakCh s) as [[]|]. Qed.

Lemma exit_rank_insert l i x y :
  l !! i = Some x -> sumZ exit_rank (<[i := y]> l) = (sumZ exit_rank l - exit_rank x + exit_rank y)%Z.
Proof. intros H. rewrite (sumZ_insert _ _ _ _ _ H). lia. Qed.

Lemma unaided_rank a s s' : binv s -> unaided a -> break_exec a s = Some s' -> (0 <= rank s' < rank s)%Z.
Proof.
  intros I Ha. assert (Hnn : forall l, (0 <= sumZ exit_rank l)%Z) by (intros l; apply sumZ_nonneg; intros []; done).
  assert (H0 : (0 <= rank s')%Z).
  { unfold rank. pose proof (Hnn (exits s')). destruct (request s'), (config s'); cbn; lia. }
  destruct Ha as [| |i]; cbn; intros H; (split; [done|]); clear H0 Hnn.
  - unfold request_exec in H. unfold rank. destruct (request s) as [| |t j|t r|d|d]; try done; repeat case_match; simplify_eq; cbn; lia.
  - pose proof (bi_config_exit _ I) as Hce. unfold config_exec in H. unfold rank. destruct (config s) as [|c e|c e]; [done| |].
    + case_match; simplify_eq; cbn; lia.
    + destruct e as [i|]; simplify_eq; [destruct (Hce i eq_refl) as [_ Hi]|]; destruct c; cbn; rewrite ?(exit_rank_insert _ _ _ _ Hi); cbn; lia.
  - unfold exit_exec in H. destruct (exits s !! i) as [x|] eqn:Hi; [|done]. pose proof (exit_rank_insert _ _ _ (XReturned false) Hi) as Hr.
    pose proof (fun y => exit_rank_insert _ _ _ y Hi) as HR. unfold rank.
    destruct x; try done; repeat case_match; simplify_eq; cbn; rewrite ?HR; cbn; try lia.
    destruct (clear_sender_rank (set_exits (<[i:=XStopping]> (exits s)) true (exited s) s)) as (_ & _ & -> & ->).
    cbn. rewrite HR. cbn. lia.
Qed.

(** The end of a session does not wait for a receiver of breaks: as long as a
    call of [Break] has begun or a call of [Exit] has not returned, some
    goroutine can go on without a receiver, without the end of the context and
    without a new call, and every such step decreases a measure; so whatever
    the order of the steps all calls return. *)
Theorem breaks_end l s :
  break_run l breaks_init = Some s ->
  (forall a s', unaided a -> break_exec a s = Some s' -> (0 <= rank s' < rank s)%Z) /\
  (config s <> KIdle \/ (exists i x, exits s !! i = Some x /\ forall ok, x <> XReturned ok) -> can_go_on s).
Proof.
  intros H. pose proof (break_run_inv _ _ _ breaks_init_inv H) as I. split; [intros a s'; by apply unaided_rank|].
  intros [Hk|(i & x & Hi & Hx)]; [by apply config_goes_on|].
  destruct (holds_sig x) eqn:Hs; [by eapply locked_goes_on|]. destruct x; try done; [| |by destruct (Hx ok)].
  - exists (AExitStep i). cbn. unfold exit_exec. rewrite Hi. eexists. split; [constructor|done].
  - destruct (existsb holds_sig (exits s)) eqn:Ex.
    + apply existsb_some in Ex as (j & y & Hj & Hy). by eapply locked_goes_on.
    + exists (AExitStep i). cbn. unfold exit_exec. rewrite Hi, Ex. eexists. split; [constructor|done].
Qed.

(** The sample, and its state before the send to the second channel ends. *)
Definition sample_breaks_end : breaks := Eval vm_compute in default breaks_init (break_run sample_breaks breaks_init).
Lemma sample_breaks_reach : break_run sample_breaks breaks_init = Some sample_breaks_end.
Proof. vm_compute. reflexivity. Qed.
Definition sample_sending : breaks := Eval vm_compute in default breaks_init (break_run (take 18 sample_breaks) breaks_init).
Lemma sample_sending_reach : break_run (take 18 sample_breaks) breaks_init = Some sample_sending.
Proof. vm_compute. reflexivity. Qed.

Lemma breaks_promise_witness :
  promise (events sample_breaks_end) = Some TExited /\ requests sample_breaks_end = 3 /\ breakCh sample_breaks_end = None.
Proof.
  destruct (breaks_promise sample_breaks sample_breaks_end sample_breaks_reach) as (Hp & Hr & _ & _ & Hs).
  split; [exact Hp|]. split; [exact Hr|]. apply Hs. exists 0, (XReturned true). split; reflexivity.
Defined.

Lemma breaks_end_witness : request sample_sending = QSending 2 1 /\ config sample_sending <> KIdle /\ can_go_on sample_sending.
Proof.
  split; [reflexivity|]. split; [done|].
  apply (breaks_end (take 18 sample_breaks) sample_sending sample_sending_reach). left. done.
Defined.
