(* ===== verification/ChannelAnswers.v ===== *)
(** ChannelAnswers: a channel whose handler leaves goroutines behind that
    answer it ([trackedNewChannel] and the worker of a channel in [server.go]).
    Any number of goroutines call [Accept] and [Reject] at any time, before and
    after the handler has returned; the worker reads the answer, lets the error
    handler respond, rejects what is not answered and closes what was accepted.
    The critical sections are those of [Channel]; each of them, and each answer
    on the wire, is a step.

    Of the dispatch of the handler's error only what it does to the answer is
    kept: whether it responds, whether the response has ended when the dispatch
    has, and whether the worker may go on; what it is otherwise is in [Channel]. *)
From S2P Require Import Prelude GoErrors Channel.
Local Open Scope Z_scope.
Local Open Scope list_scope.

Inductive answerKind := KAccept | KReject | KRespond.

(** A call of [Accept], [Reject] or [respondToError]. *)
Inductive answerPhase :=
| ACalled                              (* before beginAnswer *)
| ABegun                               (* in NewChannel.Accept or NewChannel.Reject *)
| AWired (err : option error)          (* before the critical section of its completion *)
| AReturned.

Record answerer := mkAnswerer { an_kind : answerKind; an_phase : answerPhase }.

Inductive workerPhase :=
| WRunning                             (* in the handler *)
| WHandled (failed : bool)             (* before the first answerResult *)
| WDispatching (response : option nat) (* in dispatchError; the call that responds *)
| WRejecting                           (* before rejectUnhandledError *)
| WRejectBegun                         (* in its NewChannel.Reject *)
| WRejectWired (err : option error)
| WReading (incomplete : bool)         (* before the second answerResult; the response has not ended *)
| WClosing                             (* before the deferred closeAccepted *)
| WEnded.

Record answers := mkAnswers {
  channel : trackedNewChannel;
  wire : list (answerKind * option error);  (* what has been sent, and its result *)
  answerers : list answerer;
  aworker : workerPhase;
  closedChannel : nat;                 (* closes of the accepted channel *)
  closedConn : bool }.                 (* closeQuietly(sshConn) *)

Definition answers_init : answers := mkAnswers newTracked [] [] WRunning 0 false.

Definition set_channel (c : trackedNewChannel) (s : answers) : answers :=
  mkAnswers c (wire s) (answerers s) (aworker s) (closedChannel s) (closedConn s).
Definition send_wire (k : answerKind) (err : option error) (s : answers) : answers :=
  mkAnswers (channel s) (wire s ++ [(k, err)]) (answerers s) (aworker s) (closedChannel s) (closedConn s).
Definition set_answerer (i : nat) (k : answerKind) (p : answerPhase) (s : answers) : answers :=
  mkAnswers (channel s) (wire s) (<[i := mkAnswerer k p]> (answerers s)) (aworker s) (closedChannel s) (closedConn s).
Definition set_worker (w : workerPhase) (s : answers) : answers :=
  mkAnswers (channel s) (wire s) (answerers s) w (closedChannel s) (closedConn s).
Definition close_conn (b : bool) (s : answers) : answers :=
  mkAnswers (channel s) (wire s) (answerers s) (aworker s) (closedChannel s) (closedConn s || b).
Definition call_answer (k : answerKind) (s : answers) : answers :=
  mkAnswers (channel s) (wire s) (answerers s ++ [mkAnswerer k ACalled]) (aworker s) (closedChannel s) (closedConn s).

(** The error an answer ends with, and its completion. *)
Definition answer_error (k : answerKind) (err : option error) : option error :=
  match k with
  | KAccept => locate_answer ErrorOperationAccept err
  | KReject => locate_answer ErrorOperationReply err
  | KRespond => err
  end.
Definition complete (k : answerKind) (err : option error) (c : trackedNewChannel) : trackedNewChannel :=
  match k with KAccept => completeAccept (answer_error k err) c | _ => completeAnswer (answer_error k err) c end.

(** A step of call [i]; [err] is what the wire returns. *)
Definition answerer_exec (i : nat) (err : option error) (s : answers) : option answers :=
  match answerers s !! i with
  | Some (mkAnswerer k ACalled) =>
      let '(ok, c) := beginAnswer (channel s) in
      Some (set_channel c (set_answerer i k (if ok : bool then ABegun else AReturned) s))
  | Some (mkAnswerer k ABegun) => Some (send_wire k err (set_answerer i k (AWired err) s))
  | Some (mkAnswerer k (AWired err)) => Some (set_channel (complete k err (channel s)) (set_answerer i k AReturned s))
  | _ => None
  end.

(** The answer has failed, or it has not ended. *)
Definition answer_failed (c : trackedNewChannel) : bool := negb (bool_decide (snd (answerResult c) = None)).

Inductive workerChoice :=
| WcReturn (failed : bool)             (* the handler returns *)
| WcRespond                            (* the error handler or the default action responds *)
| WcDispatched                         (* dispatchError returns *)
| WcWire (err : option error)          (* NewChannel.Reject returns *)
| WcStep (close : bool).               (* go on; [close]: the dispatch has failed or says so *)

Definition worker_exec (c : workerChoice) (s : answers) : option answers :=
  match c, aworker s with
  | WcReturn failed, WRunning => Some (set_worker (WHandled failed) s)
  | WcStep _, WHandled failed =>
      if failed || negb (fst (answerResult (channel s))) then Some (set_worker (WDispatching None) s)
      else Some (set_worker WClosing (close_conn (answer_failed (channel s)) s))
  | WcRespond, WDispatching None =>
      Some (set_worker (WDispatching (Some (length (answerers s)))) (call_answer KRespond s))
  | WcDispatched, WDispatching None => Some (set_worker WRejecting s)
  | WcDispatched, WDispatching (Some i) =>
      match answerers s !! i with
      | Some (mkAnswerer _ AReturned) => Some (set_worker (WReading false) s)
      | _ => Some (set_worker (WReading true) s)
      end
  | WcStep _, WRejecting =>
      let '(ok, c) := beginAnswer (channel s) in
      Some (set_worker (if ok : bool then WRejectBegun else WReading false) (set_channel c s))
  | WcWire err, WRejectBegun => Some (set_worker (WRejectWired err) (send_wire KRespond err s))
  | WcStep _, WRejectWired err => Some (set_worker (WReading false) (set_channel (completeAnswer err (channel s)) s))
  | WcStep close, WReading incomplete =>
      Some (set_worker WClosing (close_conn (answer_failed (channel s) || incomplete || close) s))
  | WcStep _, WClosing =>
      let '(is_accepted, c) := takeAccepted (channel s) in
      Some (mkAnswers c (wire s) (answerers s) WEnded (closedChannel s + if is_accepted then 1 else 0)%nat (closedConn s))
  | _, _ => None
  end.

Inductive answerAction :=
| ACall (k : answerKind)               (* a goroutine calls Accept or Reject *)
| ARun (i : nat) (err : option error)
| AWorker (c : workerChoice).

Definition answer_exec (a : answerAction) (s : answers) : option answers :=
  match a with
  | ACall KRespond => None
  | ACall k => Some (call_answer k s)
  | ARun i err => answerer_exec i err s
  | AWorker c => worker_exec c s
  end.

Fixpoint answer_run (l : list answerAction) (s : answers) : option answers :=
  match l with
  | [] => Some s
  | a :: l => match answer_exec a s with Some s => answer_run l s | None => None end
  end.

(** ** Invariant *)

#[local] Arguments sumZ {A} f l : simpl never.

Definition in_progress (p : answerPhase) : Z := match p with ABegun | AWired _ => 1 | _ => 0 end.
Definition wired (p : answerPhase) : Z := match p with AWired _ => 1 | _ => 0 end.
Definition worker_progress (w : workerPhase) : Z := match w with WRejectBegun | WRejectWired _ => 1 | _ => 0 end.
Definition worker_wired (w : workerPhase) : Z := match w with WRejectWired _ => 1 | _ => 0 end.

Definition open_answers (s : answers) : Z := sumZ (fun a => in_progress (an_phase a)) (answerers s) + worker_progress (aworker s).
Definition wired_answers (s : answers) : Z := sumZ (fun a => wired (an_phase a)) (answerers s) + worker_wired (aworker s).

(** An answer that is complete and has not failed, with its answer on the wire. *)
Record ainv (s : answers) : Prop := mkAInv {
  ai_open : open_answers s = if answerAttempted (channel s) && negb (answerComplete (channel s)) then 1 else 0;
  ai_wire : Z.of_nat (length (wire s)) = wired_answers s + if answerComplete (channel s) then 1 else 0;
  ai_complete : answerComplete (channel s) = true -> answerAttempted (channel s) = true;
  ai_err : answerComplete (channel s) = false -> answerErr (channel s) = None /\ accepted (channel s) = false /\ closedChannel s = 0%nat;
  ai_wired : forall i k err, answerers s !! i = Some (mkAnswerer k (AWired err)) -> wire s = [(k, err)];
  ai_rejected : forall err, aworker s = WRejectWired err -> wire s = [(KRespond, err)];
  ai_channel : answerComplete (channel s) = true -> exists k err, wire s = [(k, err)] /\ answerErr (channel s) = answer_error k err /\
    (closedChannel s + (if accepted (channel s) then 1 else 0) = match k, err with KAccept, None => 1 | _, _ => 0 end)%nat;
  ai_response : forall i, aworker s = WDispatching (Some i) -> exists a, answerers s !! i = Some a /\
    (an_phase a = AReturned -> answerAttempted (channel s) = true);
  ai_worker : match aworker s with
    | WReading false => answerAttempted (channel s) = true
    | WClosing => closedConn s = true \/ (answerComplete (channel s) = true /\ answerErr (channel s) = None)
    | WEnded => closedConn s = true \/ (answerComplete (channel s) = true /\ answerErr (channel s) = None /\ accepted (channel s) = false)
    | _ => True
    end }.

Lemma wired_in_progress l : 0 <= sumZ (fun a => wired (an_phase a)) l <= sumZ (fun a => in_progress (an_phase a)) l.
Proof. split; [apply sumZ_nonneg; intros [k []]; cbn; lia|]. apply sumZ_le. intros [k []]; cbn; lia. Qed.

Lemma answers_init_inv : ainv answers_init.
Proof. by split. Qed.

Ltac split_inv I := destruct I as [Hopen Hwire Hcomp Herr Hwired Hrej Hchan Hresp Hwork].

(** What a call that is in progress may rely on. *)
Lemma progress_facts s i k p :
  ainv s -> answerers s !! i = Some (mkAnswerer k p) -> in_progress p = 1 ->
  answerAttempted (channel s) = true /\ answerComplete (channel s) = false /\ worker_progress (aworker s) = 0 /\
  (forall j k' p', answerers s !! j = Some (mkAnswerer k' p') -> in_progress p' = 1 -> j = i).
Proof.
  intros I Hi Hp. split_inv I. unfold open_answers in Hopen.
  assert (Hw : 0 <= worker_progress (aworker s) <= 1) by (destruct (aworker s); cbn; lia).
  set (f := fun a => in_progress (an_phase a)) in *.
  assert (Hnn : forall l, 0 <= sumZ f l) by (intros l; apply sumZ_nonneg; intros [? []]; cbn; lia).
  pose proof (sumZ_insert f (answerers s) i _ (mkAnswerer k AReturned) Hi) as E. unfold f in E at 3 4. cbn in E. rewrite Hp in E.
  pose proof (Hnn (<[i := mkAnswerer k AReturned]> (answerers s))) as Hge.
  destruct (answerAttempted (channel s)), (answerComplete (channel s)); cbn in Hopen; try lia. split_and!; try done; [lia|].
  intros j k' p' Hj Hp'. destruct (decide (j = i)) as [|Hne]; [done|]. exfalso.
  pose proof (sumZ_insert f (<[i := mkAnswerer k AReturned]> (answerers s)) j (mkAnswerer k' p') (mkAnswerer k' AReturned)) as E'.
  rewrite list_lookup_insert_ne in E' by done. specialize (E' Hj). unfold f in E' at 3 4. cbn in E'. rewrite Hp' in E'.
  pose proof (Hnn (<[j := mkAnswerer k' AReturned]> (<[i := mkAnswerer k AReturned]> (answerers s)))). lia.
Qed.

Lemma worker_facts s :
  ainv s -> worker_progress (aworker s) = 1 ->
  answerAttempted (channel s) = true /\ answerComplete (channel s) = false /\
  (forall j k' p', answerers s !! j = Some (mkAnswerer k' p') -> in_progress p' = 1 -> False).
Proof.
  intros I Hp. split_inv I. unfold open_answers in Hopen. set (f := fun a => in_progress (an_phase a)) in *.
  assert (Hnn : forall l, 0 <= sumZ f l) by (intros l; apply sumZ_nonneg; intros [? []]; cbn; lia).
  pose proof (Hnn (answerers s)) as Hge.
  destruct (answerAttempted (channel s)), (answerComplete (channel s)); cbn in Hopen; try lia. split_and!; try done.
  intros j k' p' Hj Hp'. pose proof (sumZ_insert f (answerers s) j _ (mkAnswerer k' AReturned) Hj) as E.
  unfold f in E at 3 4. cbn in E. rewrite Hp' in E. pose proof (Hnn (<[j := mkAnswerer k' AReturned]> (answerers s))). lia.
Qed.

(** The phase of call [i] changes: the sums. *)
Lemma set_answerer_sums s i k p p' :
  answerers s !! i = Some (mkAnswerer k p) ->
  open_answers (set_answerer i k p' s) = open_answers s - in_progress p + in_progress p' /\
  wired_answers (set_answerer i k p' s) = wired_answers s - wired p + wired p'.
Proof.
  intros Hi. unfold open_answers, wired_answers. cbn [answerers set_answerer aworker].
  rewrite !(sumZ_insert _ _ _ _ _ Hi). cbn. lia.
Qed.

(** A response that the dispatch waits for. *)
Lemma keep_response s i k p p' (c : trackedNewChannel) :
  answerers s !! i = Some (mkAnswerer k p) -> (answerAttempted (channel s) = true -> answerAttempted c = true) ->
  (p' = AReturned -> answerAttempted c = true) ->
  (forall j, aworker s = WDispatching (Some j) -> exists a, answerers s !! j = Some a /\
    (an_phase a = AReturned -> answerAttempted (channel s) = true)) ->
  forall j, aworker s = WDispatching (Some j) -> exists a, <[i := mkAnswerer k p']> (answerers s) !! j = Some a /\
    (an_phase a = AReturned -> answerAttempted c = true).
Proof.
  intros Hi Hc Hp Hresp j Hj. destruct (Hresp j Hj) as (a & Ha & Hr). destruct (decide (i = j)) as [<-|].
  - rewrite list_lookup_insert_eq by by eapply lookup_lt_Some. eexists. split; [done|]. cbn. auto.
  - rewrite list_lookup_insert_ne by done. exists a. auto.
Qed.

(** Before it is on the wire nothing is. *)
Lemma begun_wire s i k : ainv s -> answerers s !! i = Some (mkAnswerer k ABegun) -> wire s = [].
Proof.
  intros I Hi. destruct (progress_facts s i k ABegun I Hi eq_refl) as (Hat & Hco & Hw & _). split_inv I.
  destruct (set_answerer_sums s i k ABegun AReturned Hi) as [H1 H2]. rewrite Hat, Hco in *. cbn in Hopen, H1, H2.
  pose proof (wired_in_progress (answerers (set_answerer i k AReturned s))).
  assert (worker_wired (aworker s) = 0) by (destruct (aworker s); done).
  unfold open_answers in H1 at 1. unfold wired_answers in H2 at 1. cbn [aworker set_answerer] in *.
  destruct (wire s); [done|]. cbn in Hwire. lia.
Qed.

Lemma answerer_exec_inv i err s s' : ainv s -> answerer_exec i err s = Some s' -> ainv s'.
Proof.
  intros I. pose proof (progress_facts s) as HF. pose proof (begun_wire s i) as HB. unfold answerer_exec.
  destruct (answerers s !! i) as [[k p]|] eqn:Hi; [|done].
  specialize (HF i k p I Hi). pose proof (fun p' => set_answerer_sums s i k p p' Hi) as HS.
  pose proof I as I0. split_inv I. destruct p as [| |e|]; [| | |done].
  - unfold beginAnswer. destruct (answerAttempted (channel s)) eqn:Eat; intros [= <-].
    + destruct (HS AReturned) as [H1 H2]. cbn in H1, H2. split; cbn; rewrite ?Eat in *; try done.
      * etrans; [exact H1|]. lia.
      * etrans; [exact Hwire|]. f_equal. symmetry. etrans; [exact H2|]. lia.
      * intros j k' e [[<- [? _]]|[_ Hj]]%list_lookup_insert_Some; [done|by eapply Hwired].
      * exact (keep_response s i k ACalled AReturned (mkTracked true false None false) Hi (fun _ => eq_refl) (fun _ => eq_refl) (ai_response _ I0)).
    + assert (Eco : answerComplete (channel s) = false) by (destruct (answerComplete (channel s)) eqn:E; [specialize (Hcomp eq_refl); congruence|done]).
      destruct (HS ABegun) as [H1 H2]. cbn in H1, H2. rewrite Eco in *. split; cbn; rewrite ?Eco; try done.
      * etrans; [exact H1|]. cbn in Hopen. lia.
      * etrans; [exact Hwire|]. f_equal. symmetry. etrans; [exact H2|]. lia.
      * intros j k' e [[<- [? _]]|[_ Hj]]%list_lookup_insert_Some; [done|by eapply Hwired].
      * exact (keep_response s i k ACalled ABegun (mkTracked true false None false) Hi (fun _ => eq_refl) (fun _ => eq_refl) (ai_response _ I0)).
      * destruct (aworker s) as [| | | | | |[]| |]; done.
  - intros [= <-]. destruct HF as (Eat & Eco & Ewp & Huniq); [done|]. destruct (HS (AWired err)) as [H1 H2]. cbn in H1, H2.
    rewrite (HB k I0 eq_refl) in *. rewrite Eat, Eco in *. split; cbn; rewrite ?Eat, ?Eco; try done; rewrite ?(HB k I0 eq_refl); cbn.
    + etrans; [exact H1|]. cbn in Hopen. lia.
    + cbn in Hwire. symmetry. etrans; [apply Z.add_0_r|]. etrans; [exact H2|]. lia.
    + intros j k' e [[<- [[= -> ->] _]]|[Hne Hj]]%list_lookup_insert_Some; [done|]. by destruct (Huniq j k' _ Hj).
    + intros e E. rewrite E in Ewp. done.
    + exact (keep_response s i k ABegun (AWired err) (mkTracked true false None false) Hi (fun _ => eq_refl) (fun _ => eq_refl) (ai_response _ I0)).
  - intros [= <-]. destruct HF as (Eat & Eco & Ewp & Huniq); [done|]. destruct (HS AReturned) as [H1 H2]. cbn in H1, H2.
    pose proof (Hwired i k e Hi) as Hw. destruct (Herr Eco) as (Ee & Ea & Ecl). rewrite Eat, Eco, Hw in *. cbn in Hwire.
    assert (Ec : answerAttempted (complete k e (channel s)) = true /\ answerComplete (complete k e (channel s)) = true /\
                 answerErr (complete k e (channel s)) = answer_error k e) by by destruct k.
    destruct Ec as (Ec1 & Ec2 & Ec3). split; cbn -[complete]; rewrite ?Ec1, ?Ec2, ?Ec3; cbn; try done.
    + etrans; [exact H1|]. cbn in Hopen. lia.
    + rewrite Hw. cbn. enough (wired_answers (set_answerer i k AReturned s) = 0) as E; [|etrans; [exact H2|]; lia].
      symmetry. etrans; [|apply Z.add_0_l]. f_equal. exact E.
    + intros j k' e' [[<- [? _]]|[Hne Hj]]%list_lookup_insert_Some; [done|]. by destruct (Huniq j k' _ Hj).
    + intros e' E. by rewrite E in Ewp.
    + intros _. exists k, e. split_and!; [done|done|]. rewrite Ecl. destruct k; cbn; rewrite ?Ea; try done. by destruct e; cbn; rewrite ?Ea.
    + exact (keep_response s i k (AWired e) AReturned (mkTracked true false None false) Hi (fun _ => eq_refl) (fun _ => eq_refl) (ai_response _ I0)).
    + destruct (aworker s) as [| | | | | |[]| |]; try done; naive_solver.
Qed.

(** ** The worker *)

Lemma beginAnswer_spec c : fst (beginAnswer c) = negb (answerAttempted c) /\ answerAttempted (snd (beginAnswer c)) = true.
Proof. unfold beginAnswer. by destruct (answerAttempted c) eqn:E. Qed.

Lemma answer_failed_spec s :
  ainv s -> answer_failed (channel s) = false -> answerAttempted (channel s) = true ->
  answerComplete (channel s) = true /\ answerErr (channel s) = None.
Proof.
  intros I. unfold answer_failed, answerResult. destruct (answerAttempted (channel s)); [|done].
  destruct (answerComplete (channel s)); cbn; [|done]. case_bool_decide; [done|done].
Qed.

(** The worker goes on and neither answers nor closes. *)
Lemma worker_moves s w b :
  ainv s -> worker_progress (aworker s) = 0 -> worker_progress w = 0 -> (forall i, w <> WDispatching (Some i)) ->
  match w with
  | WReading false => answerAttempted (channel s) = true
  | WClosing => closedConn s || b = true \/ (answerComplete (channel s) = true /\ answerErr (channel s) = None)
  | WEnded => False
  | _ => True
  end -> ainv (set_worker w (close_conn b s)).
Proof.
  intros I Hp Hp' Hr Hw. split_inv I. unfold open_answers, wired_answers in *.
  assert (forall x, worker_progress x = 0 -> worker_wired x = 0) as Hz by by intros [].
  split; unfold open_answers, wired_answers; cbn; try done.
  - rewrite Hp'. by rewrite Hp in Hopen.
  - rewrite (Hz _ Hp'). by rewrite (Hz _ Hp) in Hwire.
  - intros e E. by rewrite E in Hp'.
  - intros i E. by destruct (Hr i).
  - by destruct w as [| | | | | |[]| |].
Qed.

Lemma close_conn_false s : close_conn false s = s.
Proof. destruct s. unfold close_conn. cbn. by rewrite orb_false_r. Qed.

Lemma call_answer_inv k s : ainv s -> ainv (call_answer k s).
Proof.
  intros I. split_inv I. unfold open_answers, wired_answers in *. split; unfold open_answers, wired_answers; cbn; try done.
  - rewrite sumZ_app. change (sumZ _ [_]) with 0. lia.
  - rewrite sumZ_app. change (sumZ _ [_]) with 0. lia.
  - intros i k' e [H|[_ [_ [=]]%list_lookup_singleton_Some]]%lookup_app_Some. by eapply Hwired.
  - intros i E. destruct (Hresp i E) as (x & Hx & ?). exists x. split; [by apply lookup_app_l_Some|done].
Qed.

Lemma worker_exec_inv c s s' : ainv s -> worker_exec c s = Some s' -> ainv s'.
Proof.
  intros I. pose proof I as I0. unfold worker_exec.
  destruct c as [failed| | |err|close], (aworker s) as [|failed'|[i|]| | |e|incomplete| |] eqn:Ew; try done.
  - intros [= <-]. rewrite <- (close_conn_false s). apply worker_moves; by rewrite ?Ew.
  - intros [= <-]. pose proof (call_answer_inv KRespond s I) as I1. split_inv I1.
    unfold open_answers, wired_answers in *. cbn in *. rewrite Ew in *. split; unfold open_answers, wired_answers; cbn; try done.
    intros i [= <-]. rewrite list_lookup_middle by done. eexists. split; [done|done].
  - assert (H : forall b, (b = false -> answerAttempted (channel s) = true) -> ainv (set_worker (WReading b) s)).
    { intros b Hb. rewrite <- (close_conn_false s). apply worker_moves; rewrite ?Ew; try done. destruct b; auto. }
    destruct (ai_response _ I i Ew) as ([k p] & Hi & Hr). rewrite Hi. cbn in Hr. destruct p; intros [= <-]; apply H; auto; done.
  - intros [= <-]. rewrite <- (close_conn_false s). apply worker_moves; by rewrite ?Ew.
  - intros [= <-]. destruct (worker_facts s I) as (Eat & Eco & Hno); [by rewrite Ew|]. split_inv I.
    unfold open_answers, wired_answers in *. rewrite Ew, Eat, Eco in *. cbn in *.
    assert (Hz : sumZ (fun a => wired (an_phase a)) (answerers s) = 0) by (pose proof (wired_in_progress (answerers s)); lia).
    assert (Hw : wire s = []) by (destruct (wire s); [done|cbn in Hwire; lia]). rewrite Hw in *.
    split; unfold open_answers, wired_answers; cbn; rewrite ?Eat, ?Eco, ?Hw; cbn; try done; try lia.
    + intros j k e Hj. by destruct (Hno j k _ Hj).
    + by intros e [= <-].
  - destruct (failed' || negb (fst (answerResult (channel s)))) eqn:Ef; intros [= <-].
    + rewrite <- (close_conn_false s). apply worker_moves; by rewrite ?Ew.
    + apply worker_moves; rewrite ?Ew; try done. destruct (answer_failed (channel s)) eqn:Eaf; [left; by destruct (closedConn s)|right].
      apply orb_false_iff in Ef as [_ Ef]. apply (answer_failed_spec s I Eaf).
      unfold answerResult in Ef. by destruct (answerAttempted (channel s)), (answerComplete (channel s)).
  - unfold beginAnswer. destruct (answerAttempted (channel s)) eqn:Eat; intros [= <-].
    + assert (set_channel (channel s) s = s) as -> by by destruct s. rewrite <- (close_conn_false s). apply worker_moves; by rewrite ?Ew.
    + assert (Eco : answerComplete (channel s) = false).
      { destruct (answerComplete (channel s)) eqn:E; [|done]. apply (ai_complete _ I) in E. congruence. }
      split_inv I. unfold open_answers, wired_answers in *. rewrite Ew, Eat, Eco in *. cbn in *.
      split; unfold open_answers, wired_answers; cbn; rewrite ?Eco; cbn; try done; lia.
  - intros [= <-]. destruct (worker_facts s I) as (Eat & Eco & Hno); [by rewrite Ew|]. split_inv I.
    destruct (Herr Eco) as (Ee & Ea & Ecl). pose proof (Hrej e Ew) as Hw.
    unfold open_answers, wired_answers in *. rewrite Ew, Eat, Eco, Hw in *. cbn in *.
    split; unfold open_answers, wired_answers; cbn; rewrite ?Eat, ?Hw; cbn; try done; try lia.
    + intros _. exists KRespond, e. rewrite Ea, Ecl. done.
  - intros [= <-]. apply worker_moves; rewrite ?Ew; try done.
    destruct (answer_failed (channel s)) eqn:Eaf; [left; by destruct (closedConn s)|]. destruct incomplete; [left; by destruct (closedConn s)|].
    right. apply (answer_failed_spec s I Eaf). pose proof (ai_worker _ I) as H. by rewrite Ew in H.
  - unfold takeAccepted. intros [= <-]. split_inv I. unfold open_answers, wired_answers in *. rewrite Ew in *. cbn in *.
    split; unfold open_answers, wired_answers; cbn; try done.
    + intros H. destruct (Herr H) as (? & Ea & ?). rewrite Ea. split_and!; [done|done|lia].
    + intros H. destruct (Hchan H) as (k & err & ? & ? & ?). exists k, err. split_and!; [done|done|]. lia.
    + destruct Hwork as [|[]]; auto.
Qed.

Lemma answer_run_inv l s s' : ainv s -> answer_run l s = Some s' -> ainv s'.
Proof.
  revert s. induction l as [|a l IH]; cbn; intros s I; [by intros [= <-]|].
  destruct (answer_exec a s) as [s1|] eqn:E; [|done]. apply IH. destruct a as [k|i err|c]; cbn in E.
  - destruct k; simplify_eq; by apply call_answer_inv.
  - by eapply answerer_exec_inv.
  - by eapply worker_exec_inv.
Qed.

Lemma answer_error_None k err : answer_error k err = None -> err = None.
Proof. by destruct k, err. Qed.

(** When the worker has ended the channel is answered, unless the connection is
    closed. *)
Lemma answers_ended s :
  ainv s -> aworker s = WEnded -> closedConn s = false ->
  exists k, wire s = [(k, None)] /\ closedChannel s = (if k is KAccept then 1 else 0)%nat /\
    (forall i a, answerers s !! i = Some a -> in_progress (an_phase a) = 0) /\ fst (beginAnswer (channel s)) = false.
Proof.
  intros I Hend Hconn. pose proof (ai_worker _ I) as Hw. rewrite Hend in Hw. destruct Hw as [|(Ec & Ee & Ea)]; [congruence|].
  destruct (ai_channel _ I Ec) as (k & err & Hwire & Herr & Hcl). rewrite Ee in Herr. symmetry in Herr.
  apply answer_error_None in Herr as ->. exists k. rewrite Ea in Hcl.
  split_and!; [done|destruct k; lia| |by rewrite (proj1 (beginAnswer_spec _)), (ai_complete _ I Ec)].
  intros i [k' p] Hi. destruct (decide (in_progress p = 1)) as [Hp|Hp]; [|by destruct p].
  destruct (progress_facts s i k' p I Hi Hp) as (_ & Hn & _). congruence.
Qed.

(** The worker waits for no answer: it can go on by itself until it has ended. *)
Definition worker_left (w : workerPhase) : nat :=
  match w with
  | WRunning => 9 | WHandled _ => 8 | WDispatching _ => 7 | WRejecting => 6 | WRejectBegun => 5 | WRejectWired _ => 4
  | WReading _ => 3 | WClosing => 2 | WEnded => 0
  end.

Lemma worker_ends s : exists l s', answer_run (map AWorker l) s = Some s' /\ aworker s' = WEnded.
Proof.
  remember (worker_left (aworker s)) as m eqn:E. revert s E. induction m as [m IH] using lt_wf_ind. intros s ->.
  destruct (decide (worker_left (aworker s) = 0%nat)) as [Hz|Hz]; [exists [], s; by destruct (aworker s)|].
  assert (exists c s1, worker_exec c s = Some s1 /\ (worker_left (aworker s1) < worker_left (aworker s))%nat) as (c & s1 & Hx & Hlt).
  { exists (match aworker s with WRunning => WcReturn false | WDispatching _ => WcDispatched | WRejectBegun => WcWire None | _ => WcStep false end).
    unfold worker_exec. destruct (aworker s) as [|failed|[i|]| | |err|incomplete| |]; try done; repeat case_match;
      (eexists; split; [reflexivity|cbn; lia]). }
  destruct (IH _ Hlt s1 eq_refl) as (l & s' & Hr & Hw). exists (c :: l), s'. cbn. by rewrite Hx.
Qed.

(** No channel is left open or unanswered, even if a handler leaves
    goroutines behind that answer it: under every interleaving at most one answer
    is sent and an accepted channel is closed at most once by the worker; and
    when the worker has ended, either it has closed the connection, or the one
    answer was sent without an error and has ended, an accepted channel has been
    closed, no call is in progress and none can answer any more. *)
Theorem channel_left_behind l s :
  answer_run l answers_init = Some s ->
  (length (wire s) <= 1)%nat /\ (closedChannel s <= 1)%nat /\
  (aworker s = WEnded -> closedConn s = false ->
   exists k, wire s = [(k, None)] /\ closedChannel s = (if k is KAccept then 1 else 0)%nat /\
     (forall i a, answerers s !! i = Some a -> in_progress (an_phase a) = 0) /\ fst (beginAnswer (channel s)) = false).
Proof.
  intros H. pose proof (answer_run_inv _ _ _ answers_init_inv H) as I. split_and!.
  - pose proof (ai_open _ I) as Ho. pose proof (ai_wire _ I) as Hw. unfold open_answers, wired_answers in *.
    pose proof (wired_in_progress (answerers s)). assert (worker_wired (aworker s) <= worker_progress (aworker s)) by by destruct (aworker s).
    destruct (answerAttempted (channel s)), (answerComplete (channel s)); cbn in *; lia.
  - destruct (answerComplete (channel s)) eqn:Ec.
    + destruct (ai_channel _ I Ec) as (k & err & _ & _ & E). destruct k, err; lia.
    + destruct (ai_err _ I Ec) as (_ & _ & ->). lia.
  - by apply answers_ended.
Qed.

(** A handler returns while a goroutine it has started accepts the channel: the
    accepted channel is closed with the connection; and the same in good order. *)
Definition sample_left_behind : list answerAction :=
  [ACall KAccept; ARun 0 None; AWorker (WcReturn false); AWorker (WcStep false); ARun 0 None; ARun 0 None; AWorker (WcStep false)].
Definition sample_in_order : list answerAction :=
  [ACall KAccept; ARun 0 None; ARun 0 None; ARun 0 None; ACall KReject; AWorker (WcReturn false); AWorker (WcStep false);
   AWorker (WcStep false); ARun 1 None].
Definition sample_in_order_end : answers := Eval vm_compute in default answers_init (answer_run sample_in_order answers_init).
Lemma sample_in_order_reach : answer_run sample_in_order answers_init = Some sample_in_order_end.
Proof. vm_compute. reflexivity. Qed.

Example left_behind_closes :
  (fun s => (closedConn s, closedChannel s, length (wire s))) <$> answer_run sample_left_behind answers_init = Some (true, 1%nat, 1%nat).
Proof. reflexivity. Qed.

Lemma channel_left_behind_witness :
  closedConn sample_in_order_end = false /\ wire sample_in_order_end = [(KAccept, None)] /\ closedChannel sample_in_order_end = 1%nat.
Proof.
  destruct (channel_left_behind sample_in_order sample_in_order_end sample_in_order_reach) as (_ & _ & H).
  destruct (H eq_refl eq_refl) as (k & Hw & Hc & _). split_and!; [done|done|exact Hc || done].
Defined.
