(* ===== verification/Wiring.v ===== *)
(** Wiring: how [handleConn] and [DefaultSessionHandler] put the parts
    together ([server.go], [session.go], [context.go]): the limiters of the
    connections of a scope over shared counters, the gate on client
    authentication over the configuration of [Auth], and the session handler as
    a handler of [Channel]. *)
From S2P Require Import Prelude GoErrors Settings Limiter ErrorDispatch Server Context Auth Channel.
Local Open Scope Z_scope.
Local Open Scope list_scope.

(** ** The limiters of a scope *)

(** The limit fields of [Server]. *)
Record limitFields := mkLimitFields {
  MaxConnections : option Z;
  MaxChannels : option Z;
  MaxReverseForwards : option Z;
  MaxChannelsPerConnection : option Z;
  MaxReverseForwardsPerConnection : option Z }.

Section Limits.
Variable srv : limitFields.

(** The counters of the scope, and those of its connection [i]. *)
Definition authenticatedConnections : counter := 0%nat.
Definition globalChannels : counter := 1%nat.
Definition globalReverseForwards : counter := 2%nat.
Definition activeChannels (i : nat) : counter := (3 + 2 * i)%nat.
Definition activeReverseForwards (i : nat) : counter := (4 + 2 * i)%nat.

Definition connectionLimiter : resourceLimiter :=
  mkResourceLimiter (configuredLimit (MaxConnections srv) DefaultMaxConnections) (Some authenticatedConnections) None.
Definition globalChannelLimiter : resourceLimiter :=
  mkResourceLimiter (configuredLimit (MaxChannels srv) DefaultMaxChannels) (Some globalChannels) None.
Definition channelLimiter (i : nat) : connectionChannelLimiter :=
  mkConnectionChannelLimiter (configuredLimit (MaxChannelsPerConnection srv) DefaultMaxChannelsPerConnection) (activeChannels i)
    (Some globalChannelLimiter).
Definition globalForwardLimiter : resourceLimiter :=
  mkResourceLimiter (configuredLimit (MaxReverseForwards srv) DefaultMaxReverseForwards) (Some globalReverseForwards) None.
Definition forwardLimiter (i : nat) : resourceLimiter :=
  mkResourceLimiter (configuredLimit (MaxReverseForwardsPerConnection srv) DefaultMaxReverseForwardsPerConnection)
    (Some (activeReverseForwards i)) (Some globalForwardLimiter).

(** Who reserves: a connection after its handshake, its channels, its forwards. *)
Inductive limitUser := UConnection | UChannel (i : nat) | UForward (i : nat).
Definition user_limiter (u : limitUser) : resourceLimiter :=
  match u with
  | UConnection => connectionLimiter
  | UChannel i => channel_chain (channelLimiter i)
  | UForward i => forwardLimiter i
  end.

(** The limit of a counter. *)
Definition limit_of (c : counter) : Z :=
  match c with
  | 0%nat => configuredLimit (MaxConnections srv) DefaultMaxConnections
  | 1%nat => configuredLimit (MaxChannels srv) DefaultMaxChannels
  | 2%nat => configuredLimit (MaxReverseForwards srv) DefaultMaxReverseForwards
  | S (S (S c)) =>
      if Nat.even c then configuredLimit (MaxChannelsPerConnection srv) DefaultMaxChannelsPerConnection
      else configuredLimit (MaxReverseForwardsPerConnection srv) DefaultMaxReverseForwardsPerConnection
  end.

Lemma limit_of_channel i : limit_of (activeChannels i) = configuredLimit (MaxChannelsPerConnection srv) DefaultMaxChannelsPerConnection.
Proof. unfold activeChannels. cbn -[Nat.even Nat.mul]. by rewrite Nat.even_mul. Qed.

Lemma limit_of_forward i :
  limit_of (activeReverseForwards i) = configuredLimit (MaxReverseForwardsPerConnection srv) DefaultMaxReverseForwardsPerConnection.
Proof. unfold activeReverseForwards. cbn -[Nat.even Nat.mul]. by rewrite Nat.even_succ, Nat.odd_mul. Qed.

Lemma users_respect us : Forall (respects limit_of) (map user_limiter us).
Proof.
  apply Forall_map, Forall_forall. intros u _ c n. pose proof limit_of_channel. pose proof limit_of_forward.
  destruct u as [|i|i]; cbn [user_limiter channel_chain levels connectionLimiter channelLimiter forwardLimiter globalChannelLimiter
    globalForwardLimiter ccl_limit ccl_active ccl_global];
    repeat case_match; rewrite ?elem_of_cons, ?elem_of_nil; intros Hin; repeat destruct Hin as [Hin|Hin]; try done; simplify_eq; auto.
Qed.

(** The goroutines that are users of one kind and hold their slot. *)
Definition users_holding (kind : limitUser -> bool) (us : list limitUser) (ts : list thread) : Z :=
  sumZ (fun p => if kind p.1 && (if p.2.2 is THolding then true else false) then 1 else 0) (zip us ts).

Definition is_connection (u : limitUser) : bool := if u is UConnection then true else false.
Definition is_channel (u : limitUser) : bool := if u is UChannel _ then true else false.
Definition is_channel_of (i : nat) (u : limitUser) : bool := if u is UChannel j then Nat.eqb i j else false.
Definition is_forward (u : limitUser) : bool := if u is UForward _ then true else false.
Definition is_forward_of (i : nat) (u : limitUser) : bool := if u is UForward j then Nat.eqb i j else false.

(** A goroutine keeps the limiter of its user. *)
Lemma users_kept ls s : reachable_limiter ls s -> s.2.*1 = ls.
Proof.
  induction 1 as [|s s' _ IH Hs]; [cbn; by rewrite <- list_fmap_compose, list_fmap_id|].
  destruct Hs as [st ts i l t st' t' Hi _]. cbn [snd] in *.
  unfold thread in *. rewrite list_fmap_insert, IH. apply list_insert_id. by rewrite <- IH, list_lookup_fmap, Hi.
Qed.

(** Users whose limiters share a counter are among its holders. *)
Lemma users_holding_holders kind c us ts :
  ts.*1 = map user_limiter us -> (forall u, kind u = true -> c ∈ counters (user_limiter u)) -> users_holding kind us ts <= holders c ts.
Proof.
  intros Hts Hk. unfold users_holding, holders. revert us Hts. induction ts as [|[l t] ts IH]; intros [|u us] [=]; [done|].
  subst l. specialize (IH us ltac:(done)). unfold sumZ in *. cbn [zip zip_with foldr fst snd List.filter holds].
  destruct (kind u) eqn:Eu, t; cbn [andb]; try lia; [rewrite bool_decide_true by by apply Hk|case_bool_decide]; cbn [length]; lia.
Qed.

Lemma kind_bounded kind c us s :
  reachable_limiter (map user_limiter us) s -> (0 < limit_of c -> forall u, kind u = true -> c ∈ counters (user_limiter u)) ->
  0 < limit_of c -> users_holding kind us s.2 <= limit_of c.
Proof.
  intros Hs Hk Hc. pose proof (users_holding_holders kind c us s.2 (users_kept _ _ Hs) (Hk Hc)).
  destruct (limiter_inv_reachable _ _ _ (users_respect us) Hs) as [(gs & Hts & Hinv) _].
  destruct (Hinv c) as [_ Hle]. pose proof (holders_granted limit_of c _ _ Hts). lia.
Qed.

(** The counters of each user, where their limits are in force. *)
Ltac counts Hc :=
  unfold counters; cbn -[configuredLimit] in Hc |- *; rewrite (proj2 (Z.ltb_lt _ _) Hc); repeat case_match; cbn; rewrite ?elem_of_cons; auto.

(** C18. The limits of a scope hold over all of its connections together: under
    every interleaving of any number of goroutines that reserve and release as
    [us] says - connections after their handshake, channels and forwards of
    connection [i] - the connections that hold a slot are no more than
    [MaxConnections] (256 by default), the channels that do no more than
    [MaxChannels] (64) over all connections and [MaxChannelsPerConnection] (64) on
    each, the forwards no more than [MaxReverseForwards] (256) over all and
    [MaxReverseForwardsPerConnection] (16) on each, where the limit is not
    disabled; and when nobody reserves, holds or releases a slot every counter
    is zero. *)
Theorem scope_limits us s :
  reachable_limiter (map user_limiter us) s ->
  let within kind n := 0 < n -> users_holding kind us s.2 <= n in
  within is_connection (configuredLimit (MaxConnections srv) 256) /\
  within is_channel (configuredLimit (MaxChannels srv) 64) /\
  (forall i, within (is_channel_of i) (configuredLimit (MaxChannelsPerConnection srv) 64)) /\
  within is_forward (configuredLimit (MaxReverseForwards srv) 256) /\
  (forall i, within (is_forward_of i) (configuredLimit (MaxReverseForwardsPerConnection srv) 16)) /\
  (Forall (fun t => t.2 = TIdle) s.2 -> forall c, load s.1 c = 0).
Proof.
  intros Hs within. subst within. cbv beta. split_and!.
  - apply (kind_bounded is_connection authenticatedConnections us s Hs). intros Hc [] [=]; counts Hc.
  - apply (kind_bounded is_channel globalChannels us s Hs). intros Hc [] [=]; counts Hc.
  - intros i. pose proof (kind_bounded (is_channel_of i) (activeChannels i) us s Hs) as H. rewrite limit_of_channel in H. apply H.
    intros Hc [|j|j]; [done| |done]. intros ->%Nat.eqb_eq. counts Hc.
  - apply (kind_bounded is_forward globalReverseForwards us s Hs). intros Hc [] [=]; counts Hc.
  - intros i. pose proof (kind_bounded (is_forward_of i) (activeReverseForwards i) us s Hs) as H. rewrite limit_of_forward in H. apply H.
    intros Hc [|j|j]; [done|done|]. intros ->%Nat.eqb_eq. counts Hc.
  - intros Hidle c. destruct (limiter_inv_reachable _ _ _ (users_respect us) Hs) as [(gs & Hts & Hinv) _].
    rewrite (proj1 (Hinv c)). apply sumZ_zero. intros g (j & Hj)%list_elem_of_lookup.
    destruct (Forall2_lookup_r _ _ _ _ _ Hts Hj) as ([l t] & Ht & [_ Hok]).
    rewrite Forall_lookup in Hidle. specialize (Hidle _ _ Ht). cbn in *. subst t. by subst g.
Qed.
End Limits.

(** Two connections limited to one channel each; the first holds its channel and
    a goroutine of the other is idle. *)
Definition sample_fields : limitFields := mkLimitFields (Some 1) (Some 1) None (Some 1) (Some 0).
Definition sample_users : list limitUser := [UChannel 0; UChannel 1].
Definition sample_held : lsystem :=
  ((arun (resourceLimiter_reserve (user_limiter sample_fields (UChannel 0))) ∅).2,
   [(user_limiter sample_fields (UChannel 0), THolding); (user_limiter sample_fields (UChannel 1), TIdle)]).

Lemma sample_held_reachable : reachable_limiter (map (user_limiter sample_fields) sample_users) sample_held.
Proof.
  pose proof (reach_init (map (user_limiter sample_fields) sample_users)) as H. unfold initial_system in H. cbn in H.
  pose proof (reach_thread _ _ _ 0%nat _ _ _ _ H eq_refl (step_reserve _ _)) as H1.
  pose proof (reach_thread _ _ _ 0%nat _ _ _ _ H1 eq_refl (step_reserve_add _ _ _ _ _)) as H2.
  pose proof (reach_thread _ _ _ 0%nat _ _ _ _ H2 eq_refl (step_reserve_add _ _ _ _ _)) as H3.
  exact (reach_thread _ _ _ 0%nat _ _ _ _ H3 eq_refl (step_reserved _ _)).
Qed.

Lemma scope_limits_witness :
  users_holding is_channel sample_users sample_held.2 = 1 /\ users_holding is_channel sample_users sample_held.2 <= 1 /\
  users_holding (is_channel_of 1) sample_users sample_held.2 <= 1.
Proof.
  destruct (scope_limits sample_fields sample_users sample_held sample_held_reachable) as (_ & H1 & H2 & _).
  split; [reflexivity|]. split; [exact (H1 eq_refl)|exact (H2 1%nat eq_refl)].
Defined.

(** ** The gate on client authentication *)

(** [gssapi_server]: the [Server] field of a GSSAPI configuration is set. *)
Definition serverConfigHasClientAuth (gssapi_server : bool) {S} (config : serverConfig S) : bool :=
  negb (NoClientAuth config) &&
  (is_set (PasswordCallback (methods config)) || is_set (PublicKeyCallback (methods config)) ||
   is_set (KeyboardInteractiveCallback (methods config)) ||
   match GSSAPIWithMICConfig (methods config) with Some (Some _) => gssapi_server | _ => false end).

(** C15. With [RequireClientAuth] nobody gets in unauthenticated: in a
    [handleConn] whose configuration comes from [completeConfig], channels and
    requests are served only after a successful handshake within the connection
    limit, and the handshake runs only with a configuration that does not allow
    the method none (without which a callback for it is not called) and has a
    callback for some other method. *)
Theorem client_auth_required env rf t srv config gssapi_server :
  let cfg := completeConfig srv config in
  let w := snd (handleConn env rf t) in
  Server.RequireClientAuth env = RequireClientAuth srv -> Server.hasClientAuth env = serverConfigHasClientAuth gssapi_server cfg ->
  (HvServe ∈ w -> HvHandshake ∈ w /\ handshakeError env = None /\ connectionLimit env = true) /\
  (HvHandshake ∈ w -> RequireClientAuth srv = true ->
   NoClientAuth cfg = false /\
   (PasswordCallback (methods cfg) <> None \/ PublicKeyCallback (methods cfg) <> None \/
    KeyboardInteractiveCallback (methods cfg) <> None \/ exists cb, GSSAPIWithMICConfig (methods cfg) = Some (Some cb))).
Proof.
  intros cfg w Hsrv Hcfg. destruct (handle_gate env rf t) as [Hs Hg]. split; [exact Hs|]. intros Hh Hreq. rewrite <- Hsrv in Hreq.
  specialize (Hg Hh Hreq). rewrite Hcfg in Hg. unfold serverConfigHasClientAuth in Hg. apply andb_true_iff in Hg as [Hno Hm].
  apply negb_true_iff in Hno. split; [done|].
  destruct (PasswordCallback (methods cfg)); [by left|]. destruct (PublicKeyCallback (methods cfg)); [by right; left|].
  destruct (KeyboardInteractiveCallback (methods cfg)); [by right; right; left|].
  cbn [is_set orb] in Hm. destruct (GSSAPIWithMICConfig (methods cfg)) as [[cb|]|]; [|done..]. right. right. right. by exists cb.
Qed.

(** The server of [Auth] with its handler for public keys. *)
Definition sample_env : handleEnv :=
  mkHandleEnv None true None None None true true true None None None None
    (serverConfigHasClientAuth false (completeConfig sample_server emptyServerConfig)) None None true.

Lemma client_auth_required_witness :
  HvServe ∈ snd (handleConn sample_env true 0%nat) /\
  NoClientAuth (completeConfig sample_server emptyServerConfig) = false /\
  HvHandshake ∈ snd (handleConn sample_env true 0%nat).
Proof.
  assert (Hs : HvServe ∈ snd (handleConn sample_env true 0%nat)) by (vm_compute; set_solver).
  destruct (client_auth_required sample_env true 0%nat sample_server emptyServerConfig false eq_refl eq_refl) as [H1 H2].
  destruct (H1 Hs) as [Hh _]. destruct (H2 Hh eq_refl) as [Hno _]. split; [exact Hs|]. split; [exact Hno|exact Hh].
Defined.

(** ** Looking things up in the context *)

(** [startConnectionWorker]: without workers in the context a plain goroutine
    runs; [errorHandlerFromContext] prefers the handler of the scope, with its
    limit on concurrent calls, to that of the server. *)
Definition startConnectionWorker (workers : option connectionWorkers) : bool * option connectionWorkers :=
  match workers with
  | None => (true, None)
  | Some w => let '(ok, w) := goRun w in (ok, Some w)
  end.
Definition errorHandlerFromContext {H : Type} (scope_handler : option (option H)) (server_handler : option (option H)) : option H :=
  match scope_handler with
  | Some h => h
  | None => match server_handler with Some h => h | None => None end
  end.

(** ** The session handler *)

(** [SubsystemReplyTimeout], which cannot be disabled. *)
Definition subsystemReplyTimeout (configured : option Z) : Z :=
  match configured with
  | Some d => if 0 <? d then d else DefaultSubsystemReplyTimeout
  | None => DefaultSubsystemReplyTimeout
  end.

(** When it returns after the request loop: it waits for the goroutine of the
    handler, or for that of a deferred handler that was rejected or the end of
    the context. *)
Definition session_may_return (handlerDone deferredDone : option bool) (ctxDone : bool) : bool :=
  match handlerDone with
  | Some done => done
  | None => match deferredDone with Some done => done || ctxDone | None => true end
  end.

Definition DefaultSessionHandler : channelProgram :=
  CAccept (fun err =>
    match err with
    | Some e => CReturn (Some (locateError ErrorScopeChannel ErrorOperationAccept e))
    | None => CReturn None
    end).

(** A channel whose answer has failed: the error of its handler closes the
    connection, and the answer stays as it is. *)
Section Failed.
Variable rejectErr : option error.
Variable ctx : dispatchContext.
Variable eh : option ErrorHandler.
Variable e : error.

Definition failed_answer (w : chworld) : Prop :=
  tracked w = mkTracked true true (Some e) false /\ closes (chevents w) = 0%nat.

Lemma failed_emit l w : failed_answer w -> failed_answer (emit l w).
Proof.
  intros [Ht Hc]. split; [done|]. unfold closes in *. cbn. by rewrite count_app, Hc, count_dispatch.
Qed.

Lemma failed_closeConn w : failed_answer w -> failed_answer (closeConn w).
Proof. intros [Ht Hc]. split; [done|]. unfold closes in *. cbn. by rewrite count_app, Hc. Qed.

Lemma failed_respond message w : failed_answer w -> failed_answer (snd (channel_respondToError rejectErr message w)).
Proof. destruct w as [t l]. intros [Ht Hc]. cbn in Ht. subst t. by split. Qed.

Lemma failed_closes handlerErr w :
  failed_answer w -> failed_answer (channelError rejectErr ctx eh handlerErr w) /\
                     ChCloseConn ∈ chevents (channelError rejectErr ctx eh handlerErr w).
Proof.
  intros Hw. unfold channelError. set (d := dispatchError _ _ _ _ _ _ _ _ _).
  assert (Hd : failed_answer (d_world d)).
  { apply (dispatch_keeps failed_answer); [apply failed_emit| |done]. intros r Hr f m c v Hf Hv. simplify_eq. cbn in Hf. simplify_eq.
    unfold channelErrorResponder. pose proof (failed_respond m v Hv) as H.
    destruct (channel_respondToError rejectErr m v). destruct c; [by apply failed_closeConn|done]. }
  clearbody d. destruct (d_result d) as [cc de]. destruct (response_result (d_response d)) as [att re].
  set (w1 := if negb att then _ else _).
  assert (Hw1 : failed_answer w1) by (subst w1; destruct att; [done|by apply failed_respond]).
  clearbody w1. assert (answerResult (tracked w1) = (true, Some e)) as -> by (destruct Hw1 as [-> _]; done).
  cbn [snd]. match goal with |- failed_answer (closeConn ?x) /\ _ => assert (failed_answer x) as Hx end.
  - assert (failed_answer (reportAnswer ctx eh e w1)) by by (apply (escalate_keeps failed_answer); [apply failed_emit|done|done]).
    repeat case_match; try done; by apply (failed_emit [_]).
  - split; [by apply failed_closeConn|]. cbn. apply elem_of_app. right. by left.
Qed.
End Failed.

(** A session channel is accepted once and closed once when its handler
    returns, without a reject and without closing the connection; a channel that
    cannot be accepted closes the connection; and the session's slot is kept
    until the goroutine of its handler has ended. *)
Theorem session_channel acceptErr rejectErr ctx eh :
  let w := handleChannel acceptErr rejectErr ctx eh DefaultSessionHandler in
  (acceptErr = None -> chevents w = [ChAccept; ChCloseAccepted]) /\
  (acceptErr <> None -> ChCloseConn ∈ chevents w /\ ChCloseAccepted ∉ chevents w) /\
  (forall deferred ctxDone, session_may_return (Some false) deferred ctxDone = false) /\
  (forall configured, 0 < subsystemReplyTimeout configured).
Proof.
  cbn zeta. split_and!; [by intros ->| | |].
  - destruct acceptErr as [e|]; [intros _|done].
    set (ae := locateError ErrorScopeChannel ErrorOperationAccept e).
    set (w := mkChWorld (mkTracked true true (Some ae) false) [ChAccept]). assert (Hw : failed_answer ae w) by done.
    change (handleChannel (Some e) rejectErr ctx eh DefaultSessionHandler) with
      (closeAccepted (channelError rejectErr ctx eh (locateError ErrorScopeChannel ErrorOperationAccept ae) w)).
    destruct (failed_closes rejectErr ctx eh ae (locateError ErrorScopeChannel ErrorOperationAccept ae) w Hw) as [[Ht Hc] Hin].
    unfold closeAccepted. rewrite Ht. cbn. split; [exact Hin|].
    intros H%list_elem_of_In. unfold closes in Hc. apply length_zero_iff_nil in Hc.
    assert (H' : In ChCloseAccepted []); [|done]. rewrite <- Hc. by apply List.filter_In.
  - done.
  - intros [d|]; cbn; [|done]. destruct (0 <? d) eqn:E; [lia|done].
Qed.
