(* ===== verification/Accessors.v ===== *)
(** Accessors: what a session and a server let others see ([session.go],
    [server.go], [request.go], [agent.go]).  The maps and slices that the
    accessors of a session return are fresh objects of a store, as their callers
    may write to them; the lookups of handlers with their defaults; the wait for
    the response of a request; the listener for an agent. *)
From S2P Require Import Prelude GoErrors Request Context.
Local Open Scope list_scope.

(** ** The objects behind maps and slices *)

Inductive goObject :=
| GStrings (m : gmap string string)
| GExtra (m : gmap nat nat)            (* map[any]any, by identity *)
| GModes (m : gmap Z Z)
| GSlice (l : list (list byte)).
Abbreviation goHeap := (gmap nat goObject) (only parsing).

(** [maps.Clone], where nil gives nil; and [append([]string(nil), s...)], where
    an empty slice does. *)
Definition maps_Clone (p : option nat) (h : goHeap) : option nat * goHeap :=
  match p ≫= (h !!.) with
  | Some o => let a := fresh (dom h) in (Some a, <[a := o]> h)
  | None => (None, h)
  end.
Definition append_nil (p : option nat) (h : goHeap) : option nat * goHeap :=
  match p ≫= (h !!.) with
  | Some (GSlice (x :: l)) => let a := fresh (dom h) in (Some a, <[a := GSlice (x :: l)]> h)
  | _ => (None, h)
  end.

(** What a reference shows. *)
Definition show (p : option nat) (h : goHeap) : option goObject := p ≫= (h !!.).

(** ** The accessors of a session *)

Record permissionsRef := mkPermissionsRef { CriticalOptions : option nat; Extensions : option nat; ExtraData : option nat }.
Record ptyRef := mkPtyRef { pty_Term : string; pty_Window : nat; pty_Modes : option nat }.

Record sessionRef := mkSessionRef {
  ref_permissions : permissionsRef;    (* behind ContextKeyPermissions *)
  ref_env : option nat;
  ref_pty : option ptyRef;
  ref_winch : option nat }.

Definition Permissions (sess : sessionRef) (h : goHeap) : permissionsRef * goHeap :=
  let source := ref_permissions sess in
  let '(c, h) := maps_Clone (CriticalOptions source) h in
  let '(e, h) := maps_Clone (Extensions source) h in
  let '(x, h) := maps_Clone (ExtraData source) h in
  (mkPermissionsRef c e x, h).

Definition Environ (sess : sessionRef) (h : goHeap) : option nat * goHeap := append_nil (ref_env sess) h.

Definition clonePty (p : ptyRef) (h : goHeap) : ptyRef * goHeap :=
  let '(m, h) := maps_Clone (pty_Modes p) h in (mkPtyRef (pty_Term p) (pty_Window p) m, h).

(** [Pty]; without one the zero value is returned. *)
Definition session_Pty (sess : sessionRef) (h : goHeap) : ptyRef * option nat * bool * goHeap :=
  match ref_pty sess with
  | Some p => let '(p, h) := clonePty p h in (p, ref_winch sess, true, h)
  | None => (mkPtyRef "" 0 None, ref_winch sess, false, h)
  end.

(** [Command]: the words of the raw command ([shlex.Split], whose error is
    ignored), in a slice of their own. *)
Definition Command (shlex_Split : string -> list (list byte) * option error) (rawCmd : string) (h : goHeap) : option nat * goHeap :=
  match fst (shlex_Split rawCmd) with
  | [] => (None, h)
  | l => let a := fresh (dom h) in (Some a, <[a := GSlice l]> h)
  end.

(** [PublicKey]; the type assertion panics on anything that is not a key. *)
Definition PublicKey {C} `{GoContext C} (ctx : C) : option (option nat) :=
  match Value ctx ContextKeyPublicKey with
  | VNil => Some None
  | VPublicKey k => Some (Some k)
  | _ => None
  end.

(** ** Writes of a caller *)

(** A caller calls accessors in any order and writes what it likes to whatever
    they have returned. *)
Inductive sessionUse :=
| UPermissions | UEnviron | UPty
| UWrite (a : nat) (o : goObject).

Definition refs (l : list (option nat)) : gset nat := list_to_set (omap id l).
Definition permissions_refs (p : permissionsRef) : gset nat := refs [CriticalOptions p; Extensions p; ExtraData p].

Definition use_exec (sess : sessionRef) (u : sessionUse) (s : gset nat * goHeap) : option (gset nat * goHeap) :=
  let '(known, h) := s in
  match u with
  | UPermissions => let '(p, h) := Permissions sess h in Some (permissions_refs p ∪ known, h)
  | UEnviron => let '(p, h) := Environ sess h in Some (refs [p] ∪ known, h)
  | UPty => let '(p, _, _, h) := session_Pty sess h in Some (refs [pty_Modes p] ∪ known, h)
  | UWrite a o => if decide (a ∈ known) then Some (known, <[a := o]> h) else None
  end.

Fixpoint use_run (sess : sessionRef) (l : list sessionUse) (s : gset nat * goHeap) : option (gset nat * goHeap) :=
  match l with
  | [] => Some s
  | u :: l => match use_exec sess u s with Some s => use_run sess l s | None => None end
  end.

(** What the session shows: its own objects. *)
Definition session_refs (sess : sessionRef) : gset nat :=
  permissions_refs (ref_permissions sess) ∪ refs [ref_env sess; ref_pty sess ≫= pty_Modes].

(** Everything of [h0] is as it was, and nothing of it is known. *)
Definition isolated (h0 : goHeap) (s : gset nat * goHeap) : Prop := s.1 ## dom h0 /\ h0 ⊆ s.2.

Lemma maps_Clone_spec p h :
  let '(q, h') := maps_Clone p h in
  h ⊆ h' /\ refs [q] ## dom h /\ forall h2, h' ⊆ h2 -> show q h2 = show p h.
Proof.
  unfold maps_Clone, show, refs. destruct (p ≫= _) as [o|] eqn:E; [|by split_and!; [|set_solver|]].
  pose proof (is_fresh (dom h)) as Hf. split_and!.
  - by apply insert_subseteq, not_elem_of_dom.
  - cbn. set_solver.
  - intros h2 Hs. cbn. eapply lookup_weaken; [|exact Hs]. by rewrite lookup_insert_eq.
Qed.

(** What a copy of a slice shows: a slice that is empty is copied to nil. *)
Definition copied_slice (o : option goObject) : option goObject :=
  match o with Some (GSlice (x :: l)) => Some (GSlice (x :: l)) | _ => None end.

Lemma append_nil_spec p h :
  let '(q, h') := append_nil p h in
  h ⊆ h' /\ refs [q] ## dom h /\ forall h2, h' ⊆ h2 -> show q h2 = copied_slice (show p h).
Proof.
  unfold append_nil, show, refs. pose proof (is_fresh (dom h)) as Hf.
  destruct (p ≫= _) as [[| | |[|x l]]|]; try (split_and!; [done|set_solver|done]).
  split_and!; [by apply insert_subseteq, not_elem_of_dom|cbn; set_solver|].
  intros h2 Hs. cbn. eapply lookup_weaken; [|exact Hs]. by rewrite lookup_insert_eq.
Qed.

Lemma disjoint_sub (X : gset nat) (h h' : goHeap) : h ⊆ h' -> X ## dom h' -> X ## dom h.
Proof. intros Hs%subseteq_dom. set_solver. Qed.

Lemma show_sub p h h' o : h ⊆ h' -> show p h = Some o -> show p h' = Some o.
Proof. intros Hs. destruct p as [a|]; cbn; [|done]. intros H. by apply (lookup_weaken h). Qed.

Lemma refs_cons p l : refs (p :: l) = refs [p] ∪ refs l.
Proof. unfold refs. destruct p; cbn; set_solver. Qed.

Lemma isolated_clone h0 known p h :
  isolated h0 (known, h) -> let '(q, h') := maps_Clone p h in isolated h0 (refs [q] ∪ known, h').
Proof.
  intros [Hk Hs]. pose proof (maps_Clone_spec p h) as H. destruct (maps_Clone p h) as [q h']. destruct H as (Hh & Hq & _).
  split; cbn in *; [|by etrans]. apply (disjoint_sub _ h0 h Hs) in Hq. set_solver.
Qed.

Lemma use_exec_isolated sess h0 u s s' : isolated h0 s -> use_exec sess u s = Some s' -> isolated h0 s'.
Proof.
  destruct s as [known h]. intros I. destruct u as [| | |a o]; cbn [use_exec].
  - unfold Permissions, permissions_refs. pose proof (isolated_clone h0 known (CriticalOptions (ref_permissions sess)) h I) as H1.
    destruct (maps_Clone _ h) as [c h1]. pose proof (isolated_clone _ _ (Extensions (ref_permissions sess)) h1 H1) as H2.
    destruct (maps_Clone _ h1) as [e h2]. pose proof (isolated_clone _ _ (ExtraData (ref_permissions sess)) h2 H2) as H3.
    destruct (maps_Clone _ h2) as [x h3]. intros [= <-]. cbn [CriticalOptions Extensions ExtraData].
    rewrite !(refs_cons _ (_ :: _)). destruct H3 as [H3 ?]. split; [cbn in *; set_solver|done].
  - unfold Environ. pose proof (append_nil_spec (ref_env sess) h) as H. destruct (append_nil _ h) as [q h'].
    destruct H as (Hh & Hq & _), I as [Hk Hs]. intros [= <-]. cbn in *. split; cbn; [|by etrans].
    apply (disjoint_sub _ h0 h Hs) in Hq. set_solver.
  - unfold session_Pty, clonePty. destruct (ref_pty sess) as [p|].
    + pose proof (isolated_clone h0 known (pty_Modes p) h I) as H1. destruct (maps_Clone _ h). by intros [= <-].
    + intros [= <-]. destruct I as [I ?]. split; [cbn in *; set_solver|done].
  - destruct (decide _) as [Ha|]; [|done]. intros [= <-]. destruct I as [Hk Hs]. split; [done|]. cbn in *.
    apply insert_subseteq_r; [|done]. apply not_elem_of_dom. set_solver.
Qed.

Lemma use_run_isolated sess h0 l s s' : isolated h0 s -> use_run sess l s = Some s' -> isolated h0 s'.
Proof.
  revert s. induction l as [|u l IH]; cbn; intros s I; [by intros [= <-]|].
  destruct (use_exec sess u s) as [s1|] eqn:E; [|done]. apply IH. by eapply use_exec_isolated.
Qed.

(** ** What a later call shows *)
Section Later.
Variable sess : sessionRef.
Variables h0 h : goHeap.
Hypothesis Hd : session_refs sess ⊆ dom h0.
Hypothesis Hs : h0 ⊆ h.

Lemma shown_later p h' : refs [p] ⊆ session_refs sess -> h ⊆ h' -> show p h' = show p h0.
Proof using Hd Hs.
  destruct p as [a|]; [|done]. unfold refs. cbn. intros Ha Hh'. assert (is_Some (h0 !! a)) as [o Ho] by (apply elem_of_dom; set_solver).
  rewrite Ho. apply (lookup_weaken h0); [done|]. by etrans.
Qed.

Lemma fresh_later X h' : h ⊆ h' -> X ## dom h' -> X ## session_refs sess.
Proof using Hd Hs. intros Hh HX. assert (dom h0 ⊆ dom h') by (apply subseteq_dom; by etrans). set_solver. Qed.

Lemma own_refs :
  refs [CriticalOptions (ref_permissions sess)] ⊆ session_refs sess /\ refs [Extensions (ref_permissions sess)] ⊆ session_refs sess /\
  refs [ExtraData (ref_permissions sess)] ⊆ session_refs sess /\ refs [ref_env sess] ⊆ session_refs sess /\
  (forall p, ref_pty sess = Some p -> refs [pty_Modes p] ⊆ session_refs sess).
Proof using Hd Hs.
  unfold session_refs, permissions_refs. rewrite !(refs_cons _ (_ :: _)). split_and!; try set_solver. intros p ->. cbn. set_solver.
Qed.

Lemma Permissions_later :
  let '(p, h') := Permissions sess h in
  show (CriticalOptions p) h' = show (CriticalOptions (ref_permissions sess)) h0 /\
  show (Extensions p) h' = show (Extensions (ref_permissions sess)) h0 /\
  show (ExtraData p) h' = show (ExtraData (ref_permissions sess)) h0 /\ permissions_refs p ## session_refs sess.
Proof using Hd Hs.
  destruct own_refs as (O1 & O2 & O3 & _). unfold Permissions.
  pose proof (maps_Clone_spec (CriticalOptions (ref_permissions sess)) h) as H1.
  destruct (maps_Clone _ h) as [c h1]. destruct H1 as (S1 & D1 & E1).
  pose proof (maps_Clone_spec (Extensions (ref_permissions sess)) h1) as H2.
  destruct (maps_Clone _ h1) as [e h2]. destruct H2 as (S2 & D2 & E2).
  pose proof (maps_Clone_spec (ExtraData (ref_permissions sess)) h2) as H3.
  destruct (maps_Clone _ h2) as [x h3]. destruct H3 as (S3 & D3 & E3). cbn [CriticalOptions Extensions ExtraData].
  assert (S12 : h ⊆ h2) by by etrans. assert (S23 : h1 ⊆ h3) by by etrans.
  rewrite (E1 h3), (E2 h3), (E3 h3) by done. rewrite !(shown_later _ h), (shown_later _ h1), (shown_later _ h2) by done.
  split_and!; [done..|]. unfold permissions_refs. rewrite !(refs_cons _ (_ :: _)). cbn [CriticalOptions Extensions ExtraData].
  apply fresh_later in D1, D2, D3; [|done..]. set_solver.
Qed.

Lemma Environ_later :
  let '(p, h') := Environ sess h in show p h' = copied_slice (show (ref_env sess) h0) /\ refs [p] ## session_refs sess.
Proof using Hd Hs.
  destruct own_refs as (_ & _ & _ & O & _). unfold Environ. pose proof (append_nil_spec (ref_env sess) h) as H.
  destruct (append_nil _ h) as [q h']. destruct H as (S1 & D1 & E1). rewrite (E1 h'), (shown_later _ h) by done.
  split; [done|]. by apply (fresh_later _ h).
Qed.

Lemma Pty_later :
  let '(p, winch, ok, h') := session_Pty sess h in
  winch = ref_winch sess /\
  match ref_pty sess with
  | Some own => ok = true /\ pty_Term p = pty_Term own /\ pty_Window p = pty_Window own /\
                show (pty_Modes p) h' = show (pty_Modes own) h0 /\ refs [pty_Modes p] ## session_refs sess
  | None => ok = false /\ p = mkPtyRef "" 0 None
  end.
Proof using Hd Hs.
  destruct own_refs as (_ & _ & _ & _ & O). unfold session_Pty, clonePty. destruct (ref_pty sess) as [own|] eqn:Ep; [|done].
  specialize (O own eq_refl). pose proof (maps_Clone_spec (pty_Modes own) h) as H.
  destruct (maps_Clone _ h) as [q h']. destruct H as (S1 & D1 & E1). cbn [pty_Term pty_Window pty_Modes].
  rewrite (E1 h'), (shown_later _ h) by done. split_and!; try done. by apply (fresh_later _ h).
Qed.
End Later.

(** C40. The accessors of a session give nothing of it away, and show what it has.
    Whatever a caller writes to the maps and slices that [Permissions], [Environ] and
    [Pty] have returned to it, every object of the session stays as it was; and
    a later call shows the permissions, the environment (nil for an empty one)
    and the terminal with its window, modes and window channel that the session had at
    the start, in fresh objects; without a terminal [Pty] returns the zero
    value and false. *)
Theorem accessors_isolated sess h0 l known h :
  session_refs sess ⊆ dom h0 -> use_run sess l (∅, h0) = Some (known, h) ->
  (forall a, a ∈ session_refs sess -> (a ∉ known) /\ h !! a = h0 !! a) /\
  (let '(p, h') := Permissions sess h in
   show (CriticalOptions p) h' = show (CriticalOptions (ref_permissions sess)) h0 /\
   show (Extensions p) h' = show (Extensions (ref_permissions sess)) h0 /\
   show (ExtraData p) h' = show (ExtraData (ref_permissions sess)) h0 /\ permissions_refs p ## session_refs sess) /\
  (let '(p, h') := Environ sess h in
   show p h' = copied_slice (show (ref_env sess) h0) /\ refs [p] ## session_refs sess) /\
  (let '(p, winch, ok, h') := session_Pty sess h in
   winch = ref_winch sess /\
   match ref_pty sess with
   | Some own => ok = true /\ pty_Term p = pty_Term own /\ pty_Window p = pty_Window own /\
                 show (pty_Modes p) h' = show (pty_Modes own) h0 /\ refs [pty_Modes p] ## session_refs sess
   | None => ok = false /\ p = mkPtyRef "" 0 None
   end).
Proof.
  intros Hd Hr. assert (I : isolated h0 (∅, h0)) by (split; [cbn; set_solver|done]).
  apply (use_run_isolated _ _ _ _ _ I) in Hr as [Hk Hs]. cbn in Hk, Hs.
  split; [|split; [by apply Permissions_later|split; [by apply Environ_later|by apply Pty_later]]].
  intros a Ha%Hd. split; [set_solver|]. apply elem_of_dom in Ha as [o Ho]. rewrite Ho. by apply (lookup_weaken h0).
Qed.

(** Options, no extra data, one variable and one mode: the caller overwrites all
    that it gets. *)
Definition sample_ref : sessionRef := mkSessionRef (mkPermissionsRef (Some 0) (Some 1) None) (Some 2) (Some (mkPtyRef "xterm" 7 (Some 3))) None.
Definition sample_heap : goHeap :=
  <[0 := GStrings {["force-command" := "ls"]}]> (<[1 := GStrings ∅]> (<[2 := GSlice [[x41]]]> {[3 := GModes {[1%Z := 2%Z]}]})).
Definition sample_uses : list sessionUse :=
  [UPermissions; UWrite 4 (GStrings ∅); UEnviron; UWrite 6 (GSlice []); UPty; UWrite 7 (GModes ∅); UPermissions].
Definition sample_used : gset nat * goHeap := default (∅, ∅) (use_run sample_ref sample_uses (∅, sample_heap)).
Lemma sample_used_reach : use_run sample_ref sample_uses (∅, sample_heap) = Some (fst sample_used, snd sample_used).
Proof. vm_compute. reflexivity. Qed.

Lemma accessors_isolated_witness :
  fst sample_used = {[4; 5; 6; 7; 8; 9]} /\ snd sample_used !! 0 = Some (GStrings {["force-command" := "ls"]}) /\
  (let '(p, h') := Permissions sample_ref (snd sample_used) in
   show (CriticalOptions p) h' = Some (GStrings {["force-command" := "ls"]})) /\
  (let '(p, h') := Environ sample_ref (snd sample_used) in show p h' = Some (GSlice [[x41]])) /\
  (let '(p, _, ok, h') := session_Pty sample_ref (snd sample_used) in
   ok = true /\ pty_Term p = "xterm" /\ show (pty_Modes p) h' = Some (GModes {[1%Z := 2%Z]})).
Proof.
  assert (Hd : session_refs sample_ref ⊆ dom sample_heap) by by_decide.
  destruct (accessors_isolated sample_ref sample_heap sample_uses _ _ Hd sample_used_reach) as (Ha & Hp & He & Hy).
  split; [by_decide|]. split; [apply Ha; by_decide|].
  split; [destruct (Permissions sample_ref (snd sample_used)); destruct Hp as [Hp _]; exact Hp|].
  split; [destruct (Environ sample_ref (snd sample_used)); destruct He as [He _]; exact He|].
  destruct (session_Pty sample_ref (snd sample_used)) as [[[p w] ok] h'].
  destruct Hy as (_ & Hok & Ht & _ & Hm & _). split; [exact Hok|]. split; [exact Ht|exact Hm].
Defined.

(** ** The context while a subsystem decision is pending *)

(** A [Context] with the methods of [context.Context]. *)
Record sessionContext (C : Type) := mkSessionContext {
  inner : C;
  ctx_Done : nat;                      (* the channel *)
  ctx_Err : option error;
  ctx_Deadline : option Z }.
Arguments mkSessionContext {C}.
Arguments inner {C} s.
Arguments ctx_Done {C} s.
Arguments ctx_Err {C} s.
Arguments ctx_Deadline {C} s.

(** [deferredSessionContext]: everything but the end comes from the context of
    the session. *)
Definition deferredSessionContext {C} (c decision : sessionContext C) : sessionContext C :=
  mkSessionContext (inner c) (ctx_Done decision) (ctx_Err decision) (ctx_Deadline decision).

#[export] Program Instance deferred_context {C} `{GoContext C} : GoContext (sessionContext C) :=
  {| Value c k := Value (inner c) k;
     SetValue k v c := mkSessionContext (SetValue k v (inner c)) (ctx_Done c) (ctx_Err c) (ctx_Deadline c);
     writable := writable |}.
Next Obligation. intros C H c k v Hk. by apply value_set. Qed.
Next Obligation. intros C H c k k' v Hk. by apply value_other. Qed.

(** ** Handlers and their defaults *)

Section Handlers.
Context {H : Type}.
Abbreviation handlers := (gmap string (option H)).

Definition DefaultChannelHandlers (DefaultSessionHandler : H) : handlers := {["session" := Some DefaultSessionHandler]}.
Definition DefaultRequestHandlers : handlers := ∅.
Definition DefaultSubsystemHandlers : handlers := ∅.

(** A field that is nil takes the defaults; an empty map does not. *)
Definition channelHandlers (DefaultSessionHandler : H) (ChannelHandlers : option handlers) : handlers :=
  match ChannelHandlers with Some m => m | None => DefaultChannelHandlers DefaultSessionHandler end.
Definition requestHandlers (RequestHandlers : option handlers) : handlers :=
  match RequestHandlers with Some m => m | None => DefaultRequestHandlers end.
Definition subsystemHandlers (SubsystemHandlers : option handlers) : handlers :=
  match SubsystemHandlers with Some m => m | None => DefaultSubsystemHandlers end.

(** The handler of a channel type or a request type; a nil entry is none. *)
Definition handler_of (m : handlers) (type : string) : option H :=
  match default None (m !! type) with
  | Some h => Some h
  | None => default None (m !! "default"%string)
  end.

(** Without a configuration sessions are served and nothing else; an empty map
    serves nothing; an entry for the type goes before the default one. *)
Lemma handlers_served d type m :
  handler_of (channelHandlers d None) "session" = Some d /\
  (type <> "session"%string -> handler_of (channelHandlers d None) type = None) /\
  handler_of (requestHandlers None) type = None /\ handler_of (channelHandlers d (Some ∅)) type = None /\
  (forall h, m !! type = Some (Some h) -> handler_of (channelHandlers d (Some m)) type = Some h).
Proof.
  unfold handler_of, channelHandlers, requestHandlers, DefaultChannelHandlers, DefaultRequestHandlers. split_and!.
  - by rewrite lookup_singleton_eq.
  - intros Ht. by rewrite !lookup_singleton_ne by done.
  - by rewrite !lookup_empty.
  - by rewrite !lookup_empty.
  - by intros h ->.
Qed.
End Handlers.

(** ** A connection-level request *)

Record connRequest (C S : Type) := mkConnRequest {
  rq_Type : string; rq_Payload : list byte; rq_WantReply : bool;
  rq_ctx : option C; rq_server : option S;
  rq_wantReply : bool;                 (* what the reply goes by, whatever a handler writes to WantReply *)
  rq_response : requestResponse }.
Arguments rq_ctx {C S}.
Arguments rq_server {C S}.

(** [Request.Context] and [Request.Server], of a nil request too. *)
Definition request_Context {C S} (r : option (connRequest C S)) : option C :=
  match r with None => None | Some r => rq_ctx r end.
Definition request_Server {C S} (r : option (connRequest C S)) : option S :=
  match r with None => None | Some r => rq_server r end.

(** ** The wait for a response *)

(** [requestResponse.wait], when [done] is closed or the context has ended with
    the cause [cause]; where both, either case of the select may be taken. *)
Definition response_wait (cause : option error) (ctxFirst : bool) (r : requestResponse) : option (bool * option error) :=
  let of_done :=
    let '(_, complete, accepted, err) := result r in
    if negb complete then (false, Some ErrRequestResponseIncomplete) else (accepted, err) in
  match Request.done r, cause with
  | true, Some e => Some (if ctxFirst then (false, Some e) else of_done)
  | true, None => Some of_done
  | false, Some e => Some (false, Some e)
  | false, None => None
  end.

(** Under every interleaving of the goroutines that hold the response the wait
    returns as soon as the response is complete, never with
    [ErrRequestResponseIncomplete], and with [true] only for a complete
    response that accepts. *)
Lemma wait_complete want cs s :
  Forall qstart cs -> qreachable want cs s ->
  (is_Some (response_wait None false (qresp s)) <-> rcomplete (qresp s) = true) /\
  (forall cause ctxFirst accepted err, response_wait cause ctxFirst (qresp s) = Some (accepted, err) ->
   (accepted = true -> rcomplete (qresp s) = true /\ raccepted (qresp s) = true /\ err = rerr (qresp s)) /\
   (err = cause \/ err = rerr (qresp s))).
Proof.
  intros Hcs Hr. destruct (qinv_reachable _ _ _ Hcs Hr) as [_ _ _ Hd _]. unfold response_wait, result. rewrite Hd. split.
  - destruct (rcomplete (qresp s)); cbn; split; intros H; try done; by destruct H.
  - intros cause first acc err. destruct (rcomplete (qresp s)); cbn; destruct cause, first; intros H; simplify_eq; split; try (by intros [=]); auto.
Qed.

(** ** The listener for an agent *)

Definition agentListenFile : string := "listener.sock".

Inductive agentEvent := AgMkdirTemp (dir : string) | AgListen (path : string) | AgRemoveAll (dir : string) | AgCloseListener.

(** [NewAgentListener]: the directory it is given, the error of the listen. *)
Definition NewAgentListener (mkdir : error + string) (listenErr : option error) : (error + string) * list agentEvent :=
  match mkdir with
  | inl err => (inl err, [])
  | inr dir =>
      match listenErr with
      | Some err => (inl err, [AgMkdirTemp dir; AgRemoveAll dir])
      | None => (inr dir, [AgMkdirTemp dir; AgListen (dir +:+ "/" +:+ agentListenFile)])
      end
  end.

(** [agentListener.Close] *)
Definition agentListener_Close (dir : string) (closeErr removeErr : option error) : option error * list agentEvent :=
  (errors_Join [closeErr; removeErr], [AgCloseListener; AgRemoveAll dir]).

Definition made (dir : string) (l : list agentEvent) : nat :=
  length (List.filter (fun e => match e with AgMkdirTemp d => bool_decide (d = dir) | _ => false end) l).
Definition removed (dir : string) (l : list agentEvent) : nat :=
  length (List.filter (fun e => match e with AgRemoveAll d => bool_decide (d = dir) | _ => false end) l).

(** A directory that has been made is removed, by a listen that fails or by the
    close, whether or not the listener closes without an error. *)
Lemma agent_listener_clean mkdir listenErr closeErr removeErr dir :
  let '(l, w) := NewAgentListener mkdir listenErr in
  match l with
  | inl _ => made dir w = removed dir w
  | inr d => mkdir = inr d /\ listenErr = None /\
      let '(err, w') := agentListener_Close d closeErr removeErr in
      made dir (w ++ w') = removed dir (w ++ w') /\ (err = None <-> closeErr = None /\ removeErr = None)
  end.
Proof.
  destruct mkdir as [e|d]; [done|]. destruct listenErr as [e|]; unfold made, removed; cbn.
  - by destruct (bool_decide (d = dir)).
  - split_and!; [done|done|by destruct (bool_decide (d = dir))|]. destruct closeErr, removeErr; cbn; naive_solver.
Qed.
