(* ===== verification/Logging.v ===== *)
(** Logging: which logger a part uses and the fields it attaches for a
    connection ([server.go], [session.go], [tcpip.go], [streamlocal.go] and
    [enrichLoggerForServerConnection] of [conn.go]).  The logger itself is a
    parameter with its [With]; a lazy field is a function of the state at the
    time of the log entry. *)
From S2P Require Import Prelude.
Local Open Scope list_scope.

(** ** [base64.URLEncoding] *)

Definition base64_alphabet : string := "ABCDEFGHIJKLMNOPQRSTUVWXYZabcdefghijklmnopqrstuvwxyz0123456789-_".

Definition base64_char (z : Z) : Ascii.ascii :=
  default Ascii.zero (String.get (Z.to_nat (z mod 64)) base64_alphabet).

(** Three bytes are four characters; what is missing of the last group is padded. *)
Fixpoint base64_EncodeToString (src : list byte) : string :=
  let b x := Z.of_N (Byte.to_N x) in
  match src with
  | [] => ""
  | [x] =>
      let v := Z.shiftl (b x) 16 in
      String (base64_char (Z.shiftr v 18)) (String (base64_char (Z.shiftr v 12)) "==")
  | [x; y] =>
      let v := Z.lor (Z.shiftl (b x) 16) (Z.shiftl (b y) 8) in
      String (base64_char (Z.shiftr v 18)) (String (base64_char (Z.shiftr v 12)) (String (base64_char (Z.shiftr v 6)) "="))
  | x :: y :: z :: src =>
      let v := Z.lor (Z.lor (Z.shiftl (b x) 16) (Z.shiftl (b y) 8)) (b z) in
      String (base64_char (Z.shiftr v 18)) (String (base64_char (Z.shiftr v 12))
        (String (base64_char (Z.shiftr v 6)) (String (base64_char v) (base64_EncodeToString src))))
  end.

Example base64_samples :
  base64_EncodeToString [] = "" /\ base64_EncodeToString ["f"%byte] = "Zg==" /\
  base64_EncodeToString ["f"%byte; "o"%byte] = "Zm8=" /\ base64_EncodeToString ["f"%byte; "o"%byte; "o"%byte] = "Zm9v" /\
  base64_EncodeToString [xfb; xff; xbf; xff] = "-_-__w==".
Proof. by vm_compute. Qed.

Section Logging.
(** [world]: the state at the time of a log entry. *)
Context {world logger addr : Type}.
Variable addr_String : addr -> string.
(** [With] with a lazy field, which is left out where it is [fields.Exclude];
    [GetLogger] with the name of a logger, and the name of this package. *)
Variable With : string -> (world -> option string) -> logger -> logger.
Variable GetLogger : string -> logger.
Variable packageLoggerName : string.

Record ServerConn := mkServerConn {
  RemoteAddr : world -> option addr;
  LocalAddr : world -> option addr;
  User : world -> string;
  SessionID : world -> list byte }.

(** ** The fields of a connection *)

Definition addr_field (a : option addr) : option string := addr_String <$> a.
Definition user_field (v : string) : option string := if bool_decide (v = "") then None else Some v.
Definition session_field (v : list byte) : option string :=
  if (0 <? Z.of_nat (length v))%Z then Some (base64_EncodeToString v) else None.

Definition enrichLoggerForServerConnection (l : logger) (conn : option ServerConn) : logger :=
  match conn with
  | None => l
  | Some conn =>
      With "ssh.sessionId" (fun w => session_field (SessionID conn w))
        (With "ssh.user" (fun w => user_field (User conn w))
          (With "ssh.local" (fun w => addr_field (LocalAddr conn w))
            (With "ssh.remote" (fun w => addr_field (RemoteAddr conn w)) l)))
  end.

(** ** The loggers of the parts *)

Definition defaultServerLoggerGetter : logger := GetLogger (packageLoggerName +:+ ".server").
Definition defaultSessionLoggerGetter : logger := GetLogger (packageLoggerName +:+ ".session").
Definition defaultForwardedTCPHandlerLoggerGetter : logger := GetLogger (packageLoggerName +:+ ".tcpForward").
Definition defaultForwardedUnixHandlerLoggerGetter : logger := GetLogger (packageLoggerName +:+ ".unixForward").

Definition server_logger (Logger : option logger) : logger :=
  match Logger with Some v => v | None => defaultServerLoggerGetter end.

Definition getLogger (Logger : option logger) (conn : option ServerConn) : logger :=
  let v := match Logger with Some v => v | None => defaultSessionLoggerGetter end in
  enrichLoggerForServerConnection v conn.

Definition tcp_logger (Logger : option logger) : logger :=
  match Logger with Some v => v | None => defaultForwardedTCPHandlerLoggerGetter end.
Definition tcp_loggerOfConnection (Logger : option logger) (conn : option ServerConn) : logger :=
  enrichLoggerForServerConnection (tcp_logger Logger) conn.

Definition unix_logger (Logger : option logger) : logger :=
  match Logger with Some v => v | None => defaultForwardedUnixHandlerLoggerGetter end.
Definition unix_loggerOfConnection (Logger : option logger) (conn : option ServerConn) : logger :=
  enrichLoggerForServerConnection (unix_logger Logger) conn.

(** ** What an entry shows *)

(** The field of an entry that a logger makes: what was attached last, if it is
    not excluded. *)
Variable field : logger -> world -> string -> option string.
Hypothesis With_other : forall key f l w k, key <> k -> field (With key f l) w k = field l w k.
Hypothesis With_shown : forall key f l w v, f w = Some v -> field (With key f l) w key = Some v.
Hypothesis With_excluded : forall key f l w, f w = None -> field l w key = None -> field (With key f l) w key = None.

Lemma With_same key f l w : field l w key = None -> field (With key f l) w key = f w.
Proof using With_excluded With_shown. intros Hl. destruct (f w) eqn:E; [by apply With_shown|by apply With_excluded]. Qed.

Definition connection_fields : list string := ["ssh.remote"; "ssh.local"; "ssh.user"; "ssh.sessionId"].

(** An entry of a logger that has none of these fields names the client and the
    session as they are when it is made: the user not before it is known, the
    session by a text that is not empty; every other field is the one of the
    logger. *)
Lemma enriched_fields l conn w :
  (forall k, k ∈ connection_fields -> field l w k = None) ->
  let e := enrichLoggerForServerConnection l (Some conn) in
  field e w "ssh.remote" = addr_field (RemoteAddr conn w) /\ field e w "ssh.local" = addr_field (LocalAddr conn w) /\
  (forall v, field e w "ssh.user" = Some v <-> User conn w = v /\ v <> "") /\
  (field e w "ssh.sessionId" = None <-> SessionID conn w = []) /\ (field e w "ssh.sessionId" <> Some "") /\
  (forall k, k ∉ connection_fields -> field e w k = field l w k) /\
  (forall k, field (enrichLoggerForServerConnection l None) w k = field l w k).
Proof using With_excluded With_other With_shown.
  clear GetLogger packageLoggerName. unfold connection_fields. intros Hl.
  assert (H : field l w "ssh.remote" = None /\ field l w "ssh.local" = None /\ field l w "ssh.user" = None /\ field l w "ssh.sessionId" = None)
    by (split_and!; apply Hl; set_solver).
  destruct H as (H1 & H2 & H3 & H4). cbn. split_and!.
  - by rewrite !With_other, With_same by done.
  - by rewrite !With_other, With_same by (rewrite ?With_other; done).
  - intros v. rewrite With_other, With_same by (rewrite ?With_other; done). unfold user_field. case_bool_decide; naive_solver.
  - rewrite With_same by (by rewrite !With_other). unfold session_field. by destruct (SessionID conn w).
  - rewrite With_same by (by rewrite !With_other). unfold session_field. by destruct (SessionID conn w) as [|x [|y [|z s]]].
  - intros k Hk. rewrite !not_elem_of_cons in Hk. rewrite !With_other by naive_solver. done.
  - done.
Qed.
End Logging.

(** A logger as the list of what has been attached: before the client has
    authenticated and afterwards. *)
Section Sample.
Let world := option string.            (* the user, once known *)
Let logger := list (string * (world -> option string)).
Let With (key : string) f (l : logger) : logger := (key, f) :: l.

Fixpoint sample_field (l : logger) (w : world) (k : string) : option string :=
  match l with
  | [] => None
  | (key, f) :: l =>
      if decide (key = k) then match f w with Some v => Some v | None => sample_field l w k end else sample_field l w k
  end.

Definition sample_conn : @ServerConn world string :=
  mkServerConn (fun _ => Some "192.0.2.1:4022") (fun _ => None) (default "") (fun w => match w with Some _ => ["f"%byte; "o"%byte] | None => [] end).

Example logged_fields :
  let l := getLogger id With (fun name => [("logger", fun _ => Some name)]) "ssh" None (Some sample_conn) in
  let l := enrichLoggerForServerConnection id With l (Some sample_conn) in
  let shown w := map (sample_field l w) ("logger" :: connection_fields) in
  shown None = [Some "ssh.session"; Some "192.0.2.1:4022"; None; None; None] /\
  shown (Some "alice") = [Some "ssh.session"; Some "192.0.2.1:4022"; None; Some "alice"; Some "Zm8="].
Proof. by vm_compute. Qed.
End Sample.
