(* ===== verification/Connection.v ===== *)
(** Connection: a connection from its handshake to the return of [handleConn]
    ([server.go]), made of the parts.  The goroutine of [handleConn] executes the
    events that [Server] gives its path; while it serves, the channels come in
    and get their slots and goroutines ([Channel], [Context]), every channel has
    its answers ([ChannelAnswers]), handlers start further workers and take slots
    for channels that the server opens, and resources are acquired and closed
    ([Resources]).  All of these go on in any order.

    What a handler does otherwise, and when the peer ends the connection, is
    left open.  A goroutine of the application that has outlived its handler may
    still use the limiter and the workers of the connection: it is a stray. *)
From S2P Require Import Prelude GoErrors Limiter Context Resources Channel ChannelAnswers Server.
Local Open Scope Z_scope.
Local Open Scope list_scope.

(** ** The goroutines of a connection *)

Inductive goroutineKind :=
| GRequests                            (* handleRequests *)
| GChannel (isSession : bool) (a : ChannelAnswers.answers)
| GOther (worker : bool) (slots : nat). (* with the channel slots it holds; a worker or a stray *)

Inductive goroutinePhase := GRunning | GEnding (* before wg.Done() *) | GEnded.

Record goroutine := mkGoroutine { g_kind : goroutineKind; g_phase : goroutinePhase }.

Record connection := mkConnection {
  channels : chanState;
  workers : connectionWorkers;
  resources : csystem;
  goroutines : list goroutine;
  todo : list hevent;                  (* what handleConn has still to do *)
  did : list hevent;
  serving : bool }.                    (* the loop over the channels has begun *)

Definition set_channels (c : chanState) (s : connection) : connection :=
  mkConnection c (workers s) (resources s) (goroutines s) (todo s) (did s) (serving s).
Definition set_workers (w : connectionWorkers) (s : connection) : connection :=
  mkConnection (channels s) w (resources s) (goroutines s) (todo s) (did s) (serving s).
Definition set_resources (r : csystem) (s : connection) : connection :=
  mkConnection (channels s) (workers s) r (goroutines s) (todo s) (did s) (serving s).
Definition set_goroutine (j : nat) (k : goroutineKind) (p : goroutinePhase) (s : connection) : connection :=
  mkConnection (channels s) (workers s) (resources s) (<[j := mkGoroutine k p]> (goroutines s)) (todo s) (did s) (serving s).
Definition add_goroutine (k : goroutineKind) (s : connection) : connection :=
  mkConnection (channels s) (workers s) (resources s) (goroutines s ++ [mkGoroutine k GRunning]) (todo s) (did s) (serving s).
Definition next_event (l : list hevent) (s : connection) : connection :=
  match todo s with
  | e :: _ => mkConnection (channels s) (workers s) (resources s) (goroutines s) l (did s ++ [e]) (serving s)
  | [] => s
  end.
Definition begin_serving (s : connection) : connection :=
  mkConnection (channels s) (workers s) (resources s) (goroutines s) (todo s) (did s) true.

(** [workers.goRun]: the goroutine of kind [k], if the workers are not closed. *)
Definition start_worker (k : goroutineKind) (s : connection) : bool * connection :=
  let '(ok, w) := goRun (workers s) in
  (ok, if ok : bool then add_goroutine k (set_workers w s) else s).

(** ** The steps *)

Section Connection.
Variable limiter : connectionChannelLimiter.
Variable maxSessions : Z.

(** A turn of the loop over the channels; what [goRun] returns is ignored. *)
Definition channel_turn (known isSession : bool) (s : connection) : connection :=
  let '(refusal, c) := dispatchChannel limiter maxSessions known isSession (channels s) in
  match refusal with
  | Some _ => set_channels c s
  | None => snd (start_worker (GChannel isSession answers_init) (set_channels c s))
  end.

(** A slot for a channel that the server opens. *)
Definition take_slot (s : connection) : bool * connection :=
  let c := channels s in
  let '(ok, st) := arun (connectionChannelLimiter_reserve (Some limiter)) (ch_store c) in
  (ok, set_channels (mkChanState st (activeSessions c) (ch_workers c) (if ok then S (ch_others c) else ch_others c)) s).
Definition give_slot (s : connection) : connection :=
  let c := channels s in
  set_channels (mkChanState (snd (arun (connectionChannelLimiter_release (Some limiter)) (ch_store c)))
    (activeSessions c) (ch_workers c) (pred (ch_others c))) s.

(** The events that [handleConn] executes at once. *)
Definition immediate (e : hevent) : bool :=
  match e with HvServe | HvCloseResources | HvCloseWorkers => false | _ => true end.

Definition is_worker_action (x : answerAction) : bool := match x with AWorker _ => true | _ => false end.

Inductive cnstep : connection -> connection -> Prop :=
(* handleConn *)
| cn_event s e l : todo s = e :: l -> immediate e = true -> cnstep s (next_event l s)
| cn_serve s l :
    todo s = HvServe :: l -> serving s = false ->
    cnstep s (snd (start_worker GRequests (begin_serving s)))
| cn_channel s l known isSession :
    todo s = HvServe :: l -> serving s = true -> cnstep s (channel_turn known isSession s)
| cn_served s l : todo s = HvServe :: l -> serving s = true -> cnstep s (next_event l s)
| cn_resources_closed s l :
    todo s = HvCloseResources :: l -> closers (resources s) !! 0%nat = Some CReturned -> cnstep s (next_event l s)
| cn_close_workers s l :
    todo s = HvCloseWorkers :: l -> cnstep s (set_workers (closeAndWait (workers s)) s)
| cn_workers_done s l :
    todo s = HvCloseWorkers :: l -> workers_closed (workers s) = true -> wg (workers s) = 0%nat -> cnstep s (next_event l s)
(* the goroutines of channels and of requests *)
| cn_answer s j b a a' p x :
    goroutines s !! j = Some (mkGoroutine (GChannel b a) p) -> (is_worker_action x = true -> p = GRunning) ->
    answer_exec x a = Some a' -> cnstep s (set_goroutine j (GChannel b a') p s)
| cn_channel_end s j b a i :
    goroutines s !! j = Some (mkGoroutine (GChannel b a) GRunning) -> aworker a = WEnded -> ch_workers (channels s) !! i = Some b ->
    cnstep s (set_channels (channelDone limiter maxSessions i b (channels s)) (set_goroutine j (GChannel b a) GEnding s))
| cn_requests_end s j :
    goroutines s !! j = Some (mkGoroutine GRequests GRunning) -> cnstep s (set_goroutine j GRequests GEnding s)
| cn_done s j k :
    goroutines s !! j = Some (mkGoroutine k GEnding) ->
    cnstep s (set_workers (mkWorkers (workers_closed (workers s)) (pred (wg (workers s)))) (set_goroutine j k GEnded s))
(* other workers, and strays *)
| cn_stray s : serving s = true -> cnstep s (add_goroutine (GOther false 0) s)
| cn_spawn s j k : goroutines s !! j = Some (mkGoroutine k GRunning) -> cnstep s (snd (start_worker (GOther true 0) s))
| cn_take s j w n :
    goroutines s !! j = Some (mkGoroutine (GOther w n) GRunning) ->
    cnstep s (let '(ok, s) := take_slot s in set_goroutine j (GOther w (if ok : bool then S n else n)) GRunning s)
| cn_give s j w n :
    goroutines s !! j = Some (mkGoroutine (GOther w (S n)) GRunning) -> cnstep s (set_goroutine j (GOther w n) GRunning (give_slot s))
| cn_hand s j w n :
    goroutines s !! j = Some (mkGoroutine (GOther w (S n)) GRunning) ->
    cnstep s (let '(ok, s) := start_worker (GOther true 1) s in if ok : bool then set_goroutine j (GOther w n) GRunning s else s)
| cn_other_end s j :
    goroutines s !! j = Some (mkGoroutine (GOther true 0) GRunning) -> cnstep s (set_goroutine j (GOther true 0) GEnding s)
(* resources, whose first call of closeAll is that of handleConn; other connections *)
| cn_resource s r :
    cstep (resources s) r -> closers r !! 0%nat = closers (resources s) !! 0%nat \/ head (todo s) = Some HvCloseResources ->
    cnstep s (set_resources r s)
| cn_elsewhere s c v :
    c <> ccl_active limiter ->
    cnstep s (set_channels (mkChanState (<[c := v]> (ch_store (channels s))) (activeSessions (channels s)) (ch_workers (channels s))
                              (ch_others (channels s))) s).

(** [trace]: the events of the path; [ts], [n]: the goroutines that use the
    registry of resources. *)
Definition cn_init (trace : list hevent) (ts : list task) (n : nat) (st : gmap counter Z) : connection :=
  mkConnection (mkChanState st 0 [] 0) (mkWorkers false 0) (cinitial ts n) [] trace [] false.

Inductive cn_reachable (trace : list hevent) (ts : list task) (n : nat) : connection -> Prop :=
| cn_start st : load st (ccl_active limiter) = 0 -> cn_reachable trace ts n (cn_init trace ts n st)
| cn_more s s' : cn_reachable trace ts n s -> cnstep s s' -> cn_reachable trace ts n s'.
End Connection.

(** ** The events of a path *)

Definition serve_events : list hevent := [HvServe; HvCancel; HvCloseSSH; HvCloseResources; HvUntrack; HvCloseWorkers].

(** Nothing is served, or once, and then the registry and the workers are closed. *)
Definition well_served (w : list hevent) : Prop :=
  Forall (fun e => immediate e = true) w \/
  exists pre post, w = pre ++ serve_events ++ post /\ Forall (fun e => immediate e = true) pre /\ Forall (fun e => immediate e = true) post.

Lemma failure_immediate w : forallb is_failure w = true -> Forall (fun e => immediate e = true) w.
Proof. intros H. apply Forall_forall. intros e He%list_elem_of_In. rewrite forallb_forall in H. specialize (H _ He). by destruct e. Qed.

Lemma deferred_immediate env rf conn reserved disconnect tracked result w :
  exists w1, snd (deferred env rf conn reserved disconnect tracked result w) = w ++ w1 /\ Forall (fun e => immediate e = true) w1.
Proof.
  unfold deferred. destruct disconnect; [destruct (DisconnectCallback env) as [[e|]|]|]; (eexists; split; [reflexivity|]);
    destruct reserved as [[]|], conn, tracked; cbn; repeat constructor.
Qed.

Lemma handle_conn_served env rf t : well_served (snd (handleConn env rf t)).
Proof.
  assert (Hu : forall l, Forall (fun e => immediate e = true) (updates l)).
  { intros l. unfold updates. constructor; [done|]. apply Forall_map, Forall_forall. done. }
  destruct (handleConn_paths env rf t) as [l [(w & result & Hp & ->)| ->]].
  - destruct (deferred_immediate env rf false None false true result (updates l ++ w)) as (w1 & -> & H1). left.
    rewrite !Forall_app. split_and!; try done. destruct Hp as [u w Hw|u cb err w Hw _]; constructor; try done; by apply failure_immediate.
  - destruct (handle_ssh_path env rf (updates l)) as (w & re & di & tr & result & Hp & ->).
    destruct (deferred_immediate env rf true re di tr result (updates l ++ w)) as (w1 & -> & H1).
    destruct Hp as [w Hw|w Hw _|_ _|_ _ _].
    + left. rewrite !Forall_app. split_and!; try done. constructor; [done|by apply failure_immediate].
    + left. rewrite !Forall_app. split_and!; try done. do 2 (constructor; [done|]). by apply failure_immediate.
    + left. rewrite !Forall_app. split_and!; try done. by repeat constructor.
    + right. exists (updates l ++ [HvHandshake; HvReserve true; HvReleaseStartup; HvClearHandshakeDeadline]), w1.
      split; [by rewrite <- !app_assoc|]. split; [|done]. apply Forall_app. split; [done|]. by repeat constructor.
Qed.

(** ** Invariant *)

#[local] Arguments sumZ {A} f l : simpl never.

(** The goroutines that [goRun] counts, the slots a goroutine holds, and the
    channel that one handles. *)
Definition counts (g : goroutine) : Z :=
  match g with mkGoroutine _ GEnded => 0 | mkGoroutine (GOther false _) _ => 0 | _ => 1 end.
Definition holds (g : goroutine) : Z := match g with mkGoroutine (GOther _ n) _ => Z.of_nat n | _ => 0 end.
Definition handles (g : goroutine) : option bool := match g with mkGoroutine (GChannel b _) GRunning => Some b | _ => None end.

Definition goroutine_ok (g : goroutine) : Prop :=
  match g with
  | mkGoroutine (GChannel _ a) p => ainv a /\ (p <> GRunning -> aworker a = WEnded)
  | mkGoroutine (GOther w n) p => p <> GRunning -> w = true /\ n = 0%nat
  | _ => True
  end.

Section Invariant.
Variable limiter : connectionChannelLimiter.
Variable maxSessions : Z.
Variable trace : list hevent.
Variable ts : list task.
Variable n : nat.
Hypothesis trace_served : well_served trace.

Record cn_inv (s : connection) : Prop := mkCnInv {
  cv_channels : chreachable limiter maxSessions (channels s);
  cv_resources : creachable ts n (resources s);
  cv_goroutines : Forall goroutine_ok (goroutines s);
  cv_wg : Z.of_nat (wg (workers s)) = sumZ counts (goroutines s);
  cv_handled : ch_workers (channels s) ≡ₚ omap handles (goroutines s);
  cv_slots : Z.of_nat (ch_others (channels s)) = sumZ holds (goroutines s);
  cv_trace : did s ++ todo s = trace;
  cv_closed : workers_closed (workers s) = true -> head (todo s) = Some HvCloseWorkers \/ HvCloseWorkers ∈ did s;
  cv_waited : HvCloseWorkers ∈ did s -> workers_closed (workers s) = true /\ wg (workers s) = 0%nat;
  cv_closers : HvCloseResources ∈ did s -> closers (resources s) !! 0%nat = Some CReturned;
  cv_serving : serving s = false -> goroutines s = [];
  cv_served : serving s = true -> HvServe ∈ did s \/ head (todo s) = Some HvServe;
  cv_served_did : HvServe ∈ did s -> serving s = true }.

Ltac split_cn I :=
  destruct I as [Hchan Hres Hgo Hwg Hhand Hslots Htr Hclosed Hwaited Hclosers Hserving Hserved Hsd].

Lemma cn_init_inv st : load st (ccl_active limiter) = 0 -> cn_inv (cn_init trace ts n st).
Proof.
  intros H. split; cbn; try done; try set_solver.
  - by constructor.
  - constructor.
Qed.

(** The loop over the channels is over before the workers are closed. *)
Lemma unique_split {A} (x : A) l1 l2 k1 k2 : l1 ++ x :: l2 = k1 ++ x :: k2 -> x ∉ k1 -> x ∉ k2 -> l1 = k1.
Proof.
  revert k1. induction l1 as [|y l1 IH]; intros [|z k1] H H1 H2; cbn in H; simplify_eq; [done|set_solver| |].
  - exfalso. apply H2. set_solver.
  - f_equal. apply IH; [done|set_solver|done].
Qed.

Lemma immediate_not_in l e : Forall (fun e => immediate e = true) l -> immediate e = false -> e ∉ l.
Proof. rewrite Forall_forall. intros H He Hin%H. congruence. Qed.

Lemma next_serve s l : cn_inv s -> todo s = HvServe :: l -> HvCloseWorkers ∉ did s.
Proof.
  intros I Ht. pose proof (cv_trace _ I) as H. rewrite Ht in H. destruct trace_served as [Hi|(pre & post & E & H1 & H2)].
  - rewrite <- H in Hi. apply Forall_app in Hi as [_ Hi]. by inversion Hi.
  - rewrite E in H. assert (did s = pre) as ->; [|by apply immediate_not_in].
    eapply (unique_split HvServe); [exact H|by apply immediate_not_in|]. cbn.
    pose proof (immediate_not_in _ HvServe H2 eq_refl). set_solver.
Qed.

Lemma next_close s l : cn_inv s -> todo s = HvCloseResources :: l -> HvCloseResources ∉ did s.
Proof.
  intros I Ht. pose proof (cv_trace _ I) as H. rewrite Ht in H. destruct trace_served as [Hi|(pre & post & E & H1 & H2)].
  - rewrite <- H in Hi. apply Forall_app in Hi as [_ Hi]. by inversion Hi.
  - pose proof (immediate_not_in _ HvCloseResources H1 eq_refl) as H1'. pose proof (immediate_not_in _ HvCloseResources H2 eq_refl) as H2'.
    assert (did s = pre ++ [HvServe; HvCancel; HvCloseSSH]) as ->; [|set_solver].
    eapply (unique_split HvCloseResources) with (k2 := [HvUntrack; HvCloseWorkers] ++ post); [|set_solver|set_solver].
    rewrite H, E. by rewrite <- !app_assoc.
Qed.

Lemma not_closed s l : cn_inv s -> todo s = HvServe :: l -> workers_closed (workers s) = false.
Proof.
  intros I Ht. destruct (workers_closed (workers s)) eqn:E; [|done]. destruct (cv_closed _ I E) as [H|H]; [by rewrite Ht in H|].
  by destruct (next_serve _ _ I Ht).
Qed.

(** The goroutines change. *)
Lemma handles_same (gs : list goroutine) j g g' : gs !! j = Some g -> handles g' = handles g -> omap handles (<[j := g']> gs) = omap handles gs.
Proof.
  revert j. induction gs as [|x gs IH]; intros [|j] Hj Hg; cbn in *; simplify_eq; [by rewrite Hg|]. destruct (handles x); by rewrite IH.
Qed.

Lemma handles_gone (gs : list goroutine) j g g' b :
  gs !! j = Some g -> handles g = Some b -> handles g' = None -> omap handles gs ≡ₚ b :: omap handles (<[j := g']> gs).
Proof.
  revert j. induction gs as [|x gs IH]; intros [|j] Hj Hg Hg'; cbn in *; simplify_eq; [by rewrite Hg, Hg'|].
  destruct (handles x); rewrite (IH j) by done; [apply perm_swap|done].
Qed.

Lemma ok_insert (gs : list goroutine) j g : Forall goroutine_ok gs -> goroutine_ok g -> Forall goroutine_ok (<[j := g]> gs).
Proof. intros. by apply Forall_insert. Qed.

Lemma counts_nonneg gs : 0 <= sumZ counts gs.
Proof. apply sumZ_nonneg. by intros [[| |[] ?] []]. Qed.

(** A goroutine that goes on without a change of its slots, its channel or its
    place among the workers. *)
Lemma goroutine_moves s j g k p :
  cn_inv s -> goroutines s !! j = Some g -> goroutine_ok (mkGoroutine k p) ->
  counts (mkGoroutine k p) = counts g -> holds (mkGoroutine k p) = holds g -> handles (mkGoroutine k p) = handles g ->
  cn_inv (set_goroutine j k p s).
Proof.
  intros I Hj Hok Hc Hh Hd. split_cn I. split; cbn; try done.
  - by apply ok_insert.
  - rewrite (sumZ_insert _ _ _ _ _ Hj). lia.
  - by rewrite (handles_same _ _ _ _ Hj).
  - rewrite (sumZ_insert _ _ _ _ _ Hj). lia.
  - intros E. rewrite (Hserving E) in Hj. done.
Qed.

(** A goroutine is added, which has no slots yet. *)
Lemma add_inv s k w :
  cn_inv s -> serving s = true -> goroutine_ok (mkGoroutine k GRunning) -> holds (mkGoroutine k GRunning) = 0 ->
  handles (mkGoroutine k GRunning) = None -> workers_closed w = workers_closed (workers s) ->
  Z.of_nat (wg w) = Z.of_nat (wg (workers s)) + counts (mkGoroutine k GRunning) ->
  (HvCloseWorkers ∈ did s -> wg w = 0%nat) -> cn_inv (add_goroutine k (set_workers w s)).
Proof.
  intros I Hs Hok Hh Hd Hw Hc Hz. split_cn I. split; cbn; rewrite ?Hw; try done.
  - apply Forall_app. split; [done|by constructor].
  - rewrite sumZ_app. change (sumZ counts [_]) with (counts (mkGoroutine k GRunning) + 0). lia.
  - rewrite omap_app. change (omap handles [_]) with (match handles (mkGoroutine k GRunning) with Some b => [b] | None => [] end).
    by rewrite Hd, app_nil_r.
  - rewrite sumZ_app. change (sumZ holds [_]) with (holds (mkGoroutine k GRunning) + 0). lia.
  - intros H. split; [by apply Hwaited|auto].
  - by rewrite Hs.
Qed.
(** An event is over. *)
Lemma next_inv s e l :
  cn_inv s -> todo s = e :: l -> (e = HvServe -> serving s = true) ->
  (e = HvCloseResources -> closers (resources s) !! 0%nat = Some CReturned) ->
  (e = HvCloseWorkers -> workers_closed (workers s) = true /\ wg (workers s) = 0%nat) -> cn_inv (next_event l s).
Proof.
  intros I Ht He1 He2 He3. split_cn I. unfold next_event. rewrite Ht in *. split; cbn; try done.
  - by rewrite <- Htr, <- app_assoc.
  - intros H. right. apply elem_of_app. destruct (Hclosed H) as [[= ->]|]; [right; by left|by left].
  - intros [H|H%list_elem_of_singleton]%elem_of_app; auto.
  - intros [H|H%list_elem_of_singleton]%elem_of_app; auto.
  - intros H. left. apply elem_of_app. destruct (Hserved H) as [|[= ->]]; [by left|right; by left].
  - intros [H|H%list_elem_of_singleton]%elem_of_app; auto.
Qed.

Lemma start_inv s k :
  cn_inv s -> serving s = true -> goroutine_ok (mkGoroutine k GRunning) -> holds (mkGoroutine k GRunning) = 0 ->
  handles (mkGoroutine k GRunning) = None -> counts (mkGoroutine k GRunning) = 1 -> cn_inv (snd (start_worker k s)).
Proof.
  intros I Hs Hok Hh Hd Hc. unfold start_worker, goRun. destruct (workers_closed (workers s)) eqn:E; [done|]. cbn [snd].
  apply add_inv; try done; cbn [wg]; [rewrite Hc; lia|]. intros H. destruct (cv_waited _ I H). congruence.
Qed.

(** The channels change, but not whose they are. *)
Lemma channels_inv s c :
  cn_inv s -> chstep limiter maxSessions (channels s) c -> ch_workers c = ch_workers (channels s) ->
  ch_others c = ch_others (channels s) -> cn_inv (set_channels c s).
Proof. intros I Hc Hw Ho. split_cn I. split; cbn; rewrite ?Hw, ?Ho; try done. by eapply chr_step. Qed.

Lemma dispatch_shape known isSession c :
  let '(refusal, c') := dispatchChannel limiter maxSessions known isSession c in
  ch_others c' = ch_others c /\
  ch_workers c' = match refusal with Some _ => ch_workers c | None => ch_workers c ++ [isSession] end.
Proof.
  unfold dispatchChannel. destruct known; [|done]. cbn [negb]. destruct (arun _ _) as [[] st]; [|done]. cbn [negb].
  by destruct (negb (isSession && _) || _).
Qed.

Lemma channel_turn_inv known isSession s l :
  cn_inv s -> todo s = HvServe :: l -> serving s = true -> cn_inv (channel_turn limiter maxSessions known isSession s).
Proof.
  intros I Ht Hs. unfold channel_turn. pose proof (dispatch_shape known isSession (channels s)) as H.
  pose proof (ch_dispatch limiter maxSessions known isSession (channels s)) as Hc.
  destruct (dispatchChannel _ _ known isSession (channels s)) as [[r|] c]; destruct H as [Ho Hw]; [by apply channels_inv|].
  pose proof (not_closed _ _ I Ht) as Hn. unfold start_worker, goRun. cbn [workers set_channels]. rewrite Hn. cbn [snd].
  split_cn I. split; cbn; rewrite ?Hn; try done.
  - by eapply chr_step.
  - apply Forall_app. split; [done|]. constructor; [|done]. split; [apply answers_init_inv|done].
  - rewrite sumZ_app. change (sumZ counts [_]) with 1. lia.
  - rewrite Hw, omap_app. by apply Permutation_app.
  - rewrite sumZ_app, Ho. change (sumZ holds [_]) with 0. lia.
  - intros H. destruct (Hwaited H). congruence.
  - by rewrite Hs.
Qed.

Lemma channel_end_inv s j b a i :
  cn_inv s -> goroutines s !! j = Some (mkGoroutine (GChannel b a) GRunning) -> aworker a = WEnded ->
  ch_workers (channels s) !! i = Some b ->
  cn_inv (set_channels (channelDone limiter maxSessions i b (channels s)) (set_goroutine j (GChannel b a) GEnding s)).
Proof.
  intros I Hj Ha Hi. split_cn I. pose proof (Forall_lookup_1 _ _ _ _ Hgo Hj) as [Hinv _]. split; cbn; try done.
  - eapply chr_step; [done|by apply ch_done].
  - by apply ok_insert.
  - rewrite (sumZ_insert _ _ _ _ _ Hj). cbn. lia.
  - apply (Permutation.Permutation_cons_inv (a := b)). rewrite <- (delete_Permutation _ _ _ Hi), Hhand. by apply handles_gone with (1 := Hj).
  - rewrite (sumZ_insert _ _ _ _ _ Hj). cbn. lia.
  - intros E. by rewrite (Hserving E) in Hj.
Qed.

(** A slot is taken, given back or handed over. *)
Lemma slots_inv s j w m m' st o :
  cn_inv s -> goroutines s !! j = Some (mkGoroutine (GOther w m) GRunning) ->
  chstep limiter maxSessions (channels s) (mkChanState st (activeSessions (channels s)) (ch_workers (channels s)) o) ->
  Z.of_nat o - Z.of_nat m' = Z.of_nat (ch_others (channels s)) - Z.of_nat m ->
  cn_inv (set_goroutine j (GOther w m') GRunning
    (set_channels (mkChanState st (activeSessions (channels s)) (ch_workers (channels s)) o) s)).
Proof.
  intros I Hj Hc Ho. split_cn I. split; cbn; try done.
  - by eapply chr_step.
  - by apply ok_insert.
  - rewrite (sumZ_insert _ _ _ _ _ Hj). destruct w; cbn; lia.
  - by rewrite (handles_same _ _ _ _ Hj).
  - rewrite (sumZ_insert _ _ _ _ _ Hj). cbn. lia.
  - intros E. by rewrite (Hserving E) in Hj.
Qed.

Lemma holder_others s j w m p : cn_inv s -> goroutines s !! j = Some (mkGoroutine (GOther w m) p) -> (m <= ch_others (channels s))%nat.
Proof.
  intros I Hj. pose proof (cv_slots _ I) as H. pose proof (sumZ_insert holds _ _ _ (mkGoroutine GRequests GRunning) Hj) as H'. cbn in H'.
  assert (0 <= sumZ holds (<[j := mkGoroutine GRequests GRunning]> (goroutines s))); [|lia].
  apply sumZ_nonneg. intros [[| |? ?] ?]; cbn; lia.
Qed.
Lemma hand_inv s j w m :
  cn_inv s -> goroutines s !! j = Some (mkGoroutine (GOther w (S m)) GRunning) ->
  cn_inv (let '(ok, s) := start_worker (GOther true 1) s in if ok : bool then set_goroutine j (GOther w m) GRunning s else s).
Proof.
  intros I Hj. unfold start_worker, goRun. destruct (workers_closed (workers s)) eqn:E; [done|].
  pose proof (lookup_lt_Some _ _ _ Hj) as Hlt. split_cn I. split; cbn; rewrite ?insert_app_l by done; try done.
  - apply Forall_app. split; [by apply ok_insert|by constructor].
  - rewrite sumZ_app, (sumZ_insert _ _ _ _ _ Hj). change (sumZ counts [_]) with 1. destruct w; cbn; lia.
  - rewrite omap_app, (handles_same _ _ _ _ Hj) by done. change (omap handles [_]) with (@nil bool). by rewrite app_nil_r.
  - rewrite sumZ_app, (sumZ_insert _ _ _ _ _ Hj). change (sumZ holds [_]) with 1. cbn. lia.
  - intros H. destruct (Hwaited H). congruence.
  - intros H. by rewrite (Hserving H) in Hj.
Qed.

Lemma cnstep_inv s s' : cn_inv s -> cnstep limiter maxSessions s s' -> cn_inv s'.
Proof.
  intros I. destruct 1 as [s e l Ht He|s l Ht Hs|s l known isSession Ht Hs|s l Ht Hs|s l Ht Hj|s l Ht|s l Ht Hc Hw
    |s j b a a' p x Hj Hp Hx|s j b a i Hj Ha Hi|s j Hj|s j k Hj|s Hs|s j k Hj|s j w m Hj|s j w m Hj|s j w m Hj|s j Hj|s r Hr Hcl|s c v Hne].
  - eapply next_inv; try done; by intros ->.
  - apply start_inv; try done. split_cn I. split; cbn; try done. rewrite Ht. auto.
  - by eapply channel_turn_inv.
  - by eapply next_inv.
  - by eapply next_inv.
  - split_cn I. split; cbn; try done; rewrite ?Ht; auto. intros H. destruct (Hwaited H). done.
  - by eapply next_inv.
  - destruct (Forall_lookup_1 _ _ _ _ (cv_goroutines _ I) Hj) as [Hinv Hend].
    apply (goroutine_moves _ _ _ _ _ I Hj); try done.
    assert (answer_run [x] a = Some a') as Hrun by (cbn; by rewrite Hx). split; [by eapply answer_run_inv|].
    intros Hp'. specialize (Hend Hp'). destruct x as [k|i err|c]; [| |by specialize (Hp eq_refl)].
    + destruct k; cbn in Hx; by simplify_eq.
    + cbn in Hx. unfold answerer_exec in Hx. repeat case_match; by simplify_eq.
  - by apply channel_end_inv.
  - by apply (goroutine_moves _ _ _ _ _ I Hj).
  - pose proof (Forall_lookup_1 _ _ _ _ (cv_goroutines _ I) Hj) as Hok. split_cn I. split; cbn; try done.
    + apply ok_insert; [done|]. destruct k as [|b a|w m]; [done|destruct Hok as [? Hok]; split; [done|]|]; intros _; by apply Hok.
    + assert (counts (mkGoroutine k GEnding) = 1) as H1 by (destruct k as [| |w m]; [done..|by destruct (Hok ltac:(done)) as [-> _]]).
      assert (counts (mkGoroutine k GEnded) = 0) as H0 by by destruct k as [| |[] ?].
      rewrite (sumZ_insert _ _ _ _ _ Hj), H1, H0.
      assert (0 < wg (workers s))%nat; [|cbn; lia]. pose proof (sumZ_insert counts _ _ _ (mkGoroutine k GEnded) Hj) as E.
      rewrite H1, H0 in E. pose proof (counts_nonneg (<[j := mkGoroutine k GEnded]> (goroutines s))). lia.
    + rewrite (handles_same _ _ _ _ Hj); [done|]. by destruct k.
    + rewrite (sumZ_insert _ _ _ _ _ Hj). destruct k; cbn; lia.
    + intros H. destruct (Hwaited H) as [? ->]. done.
    + intros E. by rewrite (Hserving E) in Hj.
  - assert (add_goroutine (GOther false 0) s = add_goroutine (GOther false 0) (set_workers (workers s) s)) as -> by by destruct s.
    apply add_inv; try done; [cbn; lia|]. intros H. by apply (cv_waited _ I).
  - apply start_inv; try done. destruct (serving s) eqn:Hs; [done|]. by rewrite (cv_serving _ I Hs) in Hj.
  - unfold take_slot. destruct (arun _ _) as [ok st] eqn:Er. pose proof (ch_open limiter maxSessions _ _ _ Er) as Hc.
    apply (slots_inv _ _ _ m _ _ _ I Hj Hc). destruct ok; lia.
  - unfold give_slot. pose proof (holder_others _ _ _ _ _ I Hj) as Ho. destruct (ch_others (channels s)) as [|o] eqn:Eo; [lia|].
    pose proof (ch_close limiter maxSessions _ _ Eo) as Hc. apply (slots_inv _ _ _ (S m) _ _ _ I Hj Hc). cbn. lia.
  - by apply hand_inv.
  - by apply (goroutine_moves _ _ _ _ _ I Hj).
  - pose proof (next_close s) as Hn. pose proof I as I0. split_cn I. split; cbn; try done; [by eapply creach_step|].
    intros H. destruct Hcl as [->|Hcl]; [auto|]. destruct (todo s) as [|e l]; [done|]. cbn in Hcl. simplify_eq. by destruct (Hn l).
  - apply channels_inv; try done. by apply ch_elsewhere.
Qed.

Lemma cn_reachable_inv s : cn_reachable limiter maxSessions trace ts n s -> cn_inv s.
Proof. induction 1 as [st Hst|s s' _ IH Hs]; [by apply cn_init_inv|by eapply cnstep_inv]. Qed.
End Invariant.

(** ** The connection as a whole *)

Lemma served_did env rf t (s : connection) :
  did s = snd (handleConn env rf t) -> HvServe ∈ did s -> HvCloseResources ∈ did s /\ HvCloseWorkers ∈ did s.
Proof.
  intros -> H. destruct (handle_conn_served env rf t) as [Hi|(pre & post & -> & _ & _)]; [by apply immediate_not_in in H|set_solver].
Qed.

Lemma ended_holds_nothing gs :
  Forall goroutine_ok gs -> sumZ counts gs = 0 -> omap handles gs = [] /\
  forall j g, gs !! j = Some g -> g_phase g = GEnded \/ exists m, g_kind g = GOther false m.
Proof.
  intros Hok H. assert (Hz : forall j g, gs !! j = Some g -> counts g = 0).
  { intros j g Hj. pose proof (sumZ_insert counts _ _ _ (mkGoroutine GRequests GEnded) Hj) as E. cbn in E.
    pose proof (counts_nonneg (<[j := mkGoroutine GRequests GEnded]> gs)). destruct g as [[| |[] ?] []]; cbn in *; lia. }
  split.
  - clear -Hz. induction gs as [|g gs IH]; [done|]. pose proof (Hz 0%nat g eq_refl) as Hg.
    cbn. assert (handles g = None) as -> by by destruct g as [[| |[] ?] []]. apply IH. intros j x Hj. by apply (Hz (S j)).
  - intros j g Hj. specialize (Hz j g Hj). destruct g as [[| |[] m] []]; cbn in *; eauto; done.
Qed.

(** C3. When [handleConn] has returned, whatever its path and whatever the
    interleaving, it has executed all the events of its path in order, every
    worker of the connection has ended and none can be started, all slots of
    channels and sessions have been given back (but for those that strays of
    the application still hold), the registry of resources is empty and closed
    to acquisitions and has closed every resource that is still held once, and
    every channel has been answered and closed or its connection closed. *)
Theorem connection_settled limiter maxSessions env rf t ts n s :
  NoDup (counters (channel_chain limiter)) -> Forall start_task ts ->
  cn_reachable limiter maxSessions (snd (handleConn env rf t)) ts n s -> todo s = [] ->
  did s = snd (handleConn env rf t) /\
  (forall j g, goroutines s !! j = Some g -> g_phase g = GEnded \/ exists m, g_kind g = GOther false m) /\
  ch_workers (channels s) = [] /\ (0 < maxSessions -> activeSessions (channels s) = 0) /\
  (0 < ccl_limit limiter -> load (ch_store (channels s)) (ccl_active limiter) = sumZ holds (goroutines s)) /\
  (serving s = true -> fst (goRun (workers s)) = false /\ acquiring (resources s) = 0 /\
     Resources.resources (cr (resources s)) = ∅ /\ beginAcquisition (cr (resources s)) = None /\
     forall i, tasks (resources s) !! i = Some AHeld -> cnt i (close_log (resources s)) = 1) /\
  (forall j b a p, goroutines s !! j = Some (mkGoroutine (GChannel b a) p) -> aworker a = WEnded /\
     (closedConn a = false -> exists k, wire a = [(k, None)] /\ closedChannel a = (if k is KAccept then 1 else 0)%nat)).
Proof.
  intros Hnd Hts Hr Ht. pose proof (cn_reachable_inv _ _ _ _ _ (handle_conn_served env rf t) _ Hr) as I.
  pose proof (chan_invariant _ _ Hnd _ (cv_channels _ _ _ _ _ _ I)) as [Hsl Hse].
  assert (Hdid : did s = snd (handleConn env rf t)) by (rewrite <- (cv_trace _ _ _ _ _ _ I), Ht; by rewrite app_nil_r).
  assert (Hsv : serving s = true -> HvCloseResources ∈ did s /\ HvCloseWorkers ∈ did s).
  { intros Hs. apply (served_did env rf t); [done|]. destruct (cv_served _ _ _ _ _ _ I Hs) as [|H]; [done|by rewrite Ht in H]. }
  assert (Hc : sumZ counts (goroutines s) = 0).
  { destruct (serving s) eqn:Hs; [|by rewrite (cv_serving _ _ _ _ _ _ I Hs)]. destruct (Hsv eq_refl) as [_ H].
    rewrite <- (cv_wg _ _ _ _ _ _ I). by destruct (cv_waited _ _ _ _ _ _ I H) as [_ ->]. }
  destruct (ended_holds_nothing _ (cv_goroutines _ _ _ _ _ _ I) Hc) as [Hh He].
  assert (Hw : ch_workers (channels s) = []) by (apply Permutation.Permutation_nil; by rewrite <- Hh, (cv_handled _ _ _ _ _ _ I)).
  unfold slots, sessions in *. rewrite Hw in *. split_and!; try done.
  - intros Hm. destruct (Hse Hm) as [-> _]. done.
  - intros Hl. destruct (Hsl Hl) as [-> _]. rewrite <- (cv_slots _ _ _ _ _ _ I). cbn. lia.
  - intros Hs. destruct (Hsv Hs) as [H1 H2]. split; [unfold goRun; by destruct (cv_waited _ _ _ _ _ _ I H2) as [-> _]|].
    apply (returned_quiet _ 0%nat); [by apply (cinv_reachable ts n), I|by apply I].
  - intros j b a p Hj. destruct (Forall_lookup_1 _ _ _ _ (cv_goroutines _ _ _ _ _ _ I) Hj) as [Ha Hend].
    assert (Hwk : aworker a = WEnded) by (apply Hend; destruct (He _ _ Hj) as [Hp|[m Hp]]; cbn in Hp; congruence).
    split; [done|]. intros Hcc. destruct (answers_ended a Ha Hwk Hcc) as (k & ? & ? & _). by exists k.
Qed.

(** C4. What is being served never exceeds the limits and has passed the gates:
    while a connection has a goroutine its handshake has succeeded, within the
    connection limit and with a method of client authentication where one is
    required; the channels that are handled and those that the server has opened
    are at most [MaxChannelsPerConnection] together, and the sessions at most
    [MaxSessionsPerConnection]; and every channel that is given a slot gets its
    goroutine. *)
Theorem connection_bounded limiter maxSessions env rf t ts n s :
  NoDup (counters (channel_chain limiter)) -> cn_reachable limiter maxSessions (snd (handleConn env rf t)) ts n s ->
  (goroutines s <> [] -> handshakeError env = None /\ connectionLimit env = true /\
     (Server.RequireClientAuth env = true -> hasClientAuth env = true)) /\
  (0 < ccl_limit limiter ->
     Z.of_nat (length (omap handles (goroutines s))) + sumZ holds (goroutines s) <= ccl_limit limiter) /\
  (0 < maxSessions -> sumZ (fun b : bool => if b then 1 else 0) (omap handles (goroutines s)) <= maxSessions) /\
  (forall l known isSession, todo s = HvServe :: l ->
     fst (dispatchChannel limiter maxSessions known isSession (channels s)) = None ->
     goroutines (channel_turn limiter maxSessions known isSession s) =
       goroutines s ++ [mkGoroutine (GChannel isSession answers_init) GRunning]).
Proof.
  intros Hnd Hr. pose proof (cn_reachable_inv _ _ _ _ _ (handle_conn_served env rf t) _ Hr) as I.
  pose proof (chan_invariant _ _ Hnd _ (cv_channels _ _ _ _ _ _ I)) as [Hsl Hse]. split_and!.
  - intros Hg. assert (Hs : serving s = true).
    { destruct (serving s) eqn:E; [done|]. by destruct (Hg (cv_serving _ _ _ _ _ _ I E)). }
    assert (Hin : HvServe ∈ snd (handleConn env rf t)).
    { rewrite <- (cv_trace _ _ _ _ _ _ I). apply elem_of_app. destruct (cv_served _ _ _ _ _ _ I Hs) as [|H]; [by left|right].
      destruct (todo s); [done|]. cbn in H. simplify_eq. by left. }
    destruct (handle_gate env rf t) as [H1 H2]. destruct (H1 Hin) as (H3 & ? & ?). auto.
  - intros Hl. destruct (Hsl Hl) as [_ H]. unfold slots in H. rewrite <- (cv_handled _ _ _ _ _ _ I), <- (cv_slots _ _ _ _ _ _ I). lia.
  - intros Hm. destruct (Hse Hm) as [_ H]. unfold sessions in H. rewrite <- (sumZ_perm _ _ _ (cv_handled _ _ _ _ _ _ I)). done.
  - intros l known isSession Ht Hd. pose proof (not_closed _ _ _ _ _ (handle_conn_served env rf t) _ _ I Ht) as Hn.
    unfold channel_turn. destruct (dispatchChannel _ _ _ _ _) as [r c]. cbn in Hd. subst r. unfold start_worker, goRun. cbn. by rewrite Hn.
Qed.

(** ** Executions

    Steps as choices, so that an execution can be computed; of the registry
    those that a call of [closeAll] takes. *)
Inductive cnAction :=
| AcMain                               (* handleConn goes on *)
| AcChannel (known isSession : bool)
| AcServed                             (* there are no more channels *)
| AcAnswer (j : nat) (x : answerAction)
| AcChannelEnd (j i : nat)
| AcEnd (j : nat)                      (* handleRequests or another worker returns *)
| AcDone (j : nat)
| AcStray | AcSpawn (j : nat) | AcTake (j : nat) | AcGive (j : nat) | AcHand (j : nat)
| AcCloseFirst | AcCloseWait | AcCloseEnd | AcCloseReturn.

Definition closing_exec (a : cnAction) (r : csystem) : option csystem :=
  match a, main r, closers r !! 0%nat with
  | AcCloseFirst, _, Some CIdle =>
      match closeAll_begin (cr r) with
      | (c, Some (snapshot, wait)) => Some (set_main (set_closer r 0 CFirst) (MClosing snapshot wait) c)
      | _ => None
      end
  | AcCloseWait, MClosing [] wait, _ => if implb wait (drainedClosed (cr r)) then Some (set_main r MSignal (cr r)) else None
  | AcCloseEnd, MSignal, _ => c ← closeAll_end (cr r); Some (set_main r MFinished c)
  | AcCloseReturn, MFinished, Some CFirst => Some (set_closer r 0 CReturned)
  | _, _, _ => None
  end.

Section Executions.
Variable limiter : connectionChannelLimiter.
Variable maxSessions : Z.

Definition cn_exec (a : cnAction) (s : connection) : option connection :=
  let g (j : nat) : option goroutine := goroutines s !! j in
  match a with
  | AcMain =>
      match todo s with
      | HvServe :: _ => if serving s then None else Some (snd (start_worker GRequests (begin_serving s)))
      | HvCloseResources :: l => match closers (resources s) !! 0%nat with Some CReturned => Some (next_event l s) | _ => None end
      | HvCloseWorkers :: l =>
          if workers_closed (workers s) then if decide (wg (workers s) = 0%nat) then Some (next_event l s) else None
          else Some (set_workers (closeAndWait (workers s)) s)
      | _ :: l => Some (next_event l s)
      | [] => None
      end
  | AcChannel known isSession =>
      match todo s with
      | HvServe :: _ => if serving s then Some (channel_turn limiter maxSessions known isSession s) else None
      | _ => None
      end
  | AcServed => match todo s with HvServe :: l => if serving s then Some (next_event l s) else None | _ => None end
  | AcAnswer j x =>
      match g j with
      | Some (mkGoroutine (GChannel b a) p) =>
          if implb (is_worker_action x) (match p with GRunning => true | _ => false end) then
            a' ← answer_exec x a; Some (set_goroutine j (GChannel b a') p s)
          else None
      | _ => None
      end
  | AcChannelEnd j i =>
      match g j, ch_workers (channels s) !! i with
      | Some (mkGoroutine (GChannel b a) GRunning), Some b' =>
          match aworker a with
          | WEnded =>
              if decide (b' = b) then
                Some (set_channels (channelDone limiter maxSessions i b (channels s)) (set_goroutine j (GChannel b a) GEnding s))
              else None
          | _ => None
          end
      | _, _ => None
      end
  | AcEnd j =>
      match g j with
      | Some (mkGoroutine GRequests GRunning) => Some (set_goroutine j GRequests GEnding s)
      | Some (mkGoroutine (GOther true 0) GRunning) => Some (set_goroutine j (GOther true 0) GEnding s)
      | _ => None
      end
  | AcDone j =>
      match g j with
      | Some (mkGoroutine k GEnding) =>
          Some (set_workers (mkWorkers (workers_closed (workers s)) (pred (wg (workers s)))) (set_goroutine j k GEnded s))
      | _ => None
      end
  | AcStray => if serving s then Some (add_goroutine (GOther false 0) s) else None
  | AcSpawn j => match g j with Some (mkGoroutine _ GRunning) => Some (snd (start_worker (GOther true 0) s)) | _ => None end
  | AcTake j =>
      match g j with
      | Some (mkGoroutine (GOther w n) GRunning) =>
          Some (let '(ok, s) := take_slot limiter s in set_goroutine j (GOther w (if ok : bool then S n else n)) GRunning s)
      | _ => None
      end
  | AcGive j =>
      match g j with
      | Some (mkGoroutine (GOther w (S n)) GRunning) => Some (set_goroutine j (GOther w n) GRunning (give_slot limiter s))
      | _ => None
      end
  | AcHand j =>
      match g j with
      | Some (mkGoroutine (GOther w (S n)) GRunning) =>
          Some (let '(ok, s) := start_worker (GOther true 1) s in if ok : bool then set_goroutine j (GOther w n) GRunning s else s)
      | _ => None
      end
  | _ => match todo s with HvCloseResources :: _ => r ← closing_exec a (resources s); Some (set_resources r s) | _ => None end
  end.

Fixpoint cn_run (l : list cnAction) (s : connection) : option connection :=
  match l with
  | [] => Some s
  | a :: l => match cn_exec a s with Some s => cn_run l s | None => None end
  end.

Lemma closing_exec_sound a r r' : closing_exec a r = Some r' -> cstep r r'.
Proof.
  unfold closing_exec. destruct a; try done.
  - destruct (closers r !! 0%nat) as [[]|] eqn:Hj; try (by destruct (main r)).
    destruct (closeAll_begin (cr r)) as [c [[snapshot wait]|]] eqn:Hb; [|by destruct (main r)].
    intros H. assert (r' = set_main (set_closer r 0 CFirst) (MClosing snapshot wait) c) as -> by (by destruct (main r); simplify_eq).
    by eapply c_close_first.
  - destruct (main r) as [|[|] wait| |] eqn:Hm; try done. destruct wait, (drainedClosed (cr r)) eqn:Hd; try done;
      intros [= <-]; eapply c_close_wait; done.
  - destruct (main r) eqn:Hm; try done. destruct (closeAll_end (cr r)) as [c|] eqn:He; [|done]. intros [= <-]. by eapply c_close_end.
  - destruct (main r) eqn:Hm; try done. destruct (closers r !! 0%nat) as [[]|] eqn:Hj; try done. intros [= <-]. by eapply c_return_first.
Qed.

Lemma cn_exec_sound a s s' : cn_exec a s = Some s' -> cnstep limiter maxSessions s s'.
Proof.
  assert (Hres : forall a, match todo s with HvCloseResources :: _ => r ← closing_exec a (resources s); Some (set_resources r s) | _ => None end
    = Some s' -> cnstep limiter maxSessions s s').
  { intros b H. destruct (todo s) as [|e l] eqn:Ht; [done|]. destruct e; try done. destruct (closing_exec b (resources s)) as [r|] eqn:Hr; [|done].
    cbn in H. simplify_eq. eapply cn_resource; [by eapply closing_exec_sound|]. right. by rewrite Ht. }
  destruct a; cbn [cn_exec]; try apply Hres.
  - destruct (todo s) as [|e l] eqn:Ht; [done|].
    destruct e; try (by intros [= <-]; eapply cn_event); repeat case_match; try done; intros [= <-];
      by econstructor.
  - destruct (todo s) as [|[] l] eqn:Ht; try done. destruct (serving s) eqn:Hs; [|done]. intros [= <-]. by eapply cn_channel.
  - destruct (todo s) as [|[] l] eqn:Ht; try done. destruct (serving s) eqn:Hs; [|done]. intros [= <-]. by eapply cn_served.
  - destruct (goroutines s !! j) as [[[|b a|] p]|] eqn:Hj; try done. destruct (implb _ _) eqn:Hi; [|done].
    destruct (answer_exec x a) as [a'|] eqn:Hx; [|done]. intros [= <-]. eapply cn_answer; try done.
    intros Hw. rewrite Hw in Hi. by destruct p.
  - destruct (goroutines s !! j) as [[[|b a|] []]|] eqn:Hj; try done. destruct (ch_workers (channels s) !! i) eqn:Hi; [|done].
    destruct (aworker a) eqn:Ha; try done. case_decide; [subst|done]. intros [= <-]. by apply cn_channel_end.
  - destruct (goroutines s !! j) as [[[|b a|[] []] []]|] eqn:Hj; try done; intros [= <-]; by constructor.
  - destruct (goroutines s !! j) as [[k []]|] eqn:Hj; try done. intros [= <-]. by apply cn_done.
  - destruct (serving s) eqn:Hs; [|done]. intros [= <-]. by apply cn_stray.
  - destruct (goroutines s !! j) as [[k []]|] eqn:Hj; try done. intros [= <-]. by eapply cn_spawn.
  - destruct (goroutines s !! j) as [[[|b a|w m] []]|] eqn:Hj; try done. intros [= <-]. by apply cn_take.
  - destruct (goroutines s !! j) as [[[|b a|w [|m]] []]|] eqn:Hj; try done. intros [= <-]. by apply cn_give.
  - destruct (goroutines s !! j) as [[[|b a|w [|m]] []]|] eqn:Hj; try done. intros [= <-]. by apply cn_hand.
Qed.

Lemma cn_run_reachable trace ts n l s s' :
  cn_reachable limiter maxSessions trace ts n s -> cn_run l s = Some s' -> cn_reachable limiter maxSessions trace ts n s'.
Proof.
  revert s. induction l as [|a l IH]; cbn; intros s Hr H; [by simplify_eq|].
  destruct (cn_exec a s) as [s1|] eqn:E; [|done]. apply (IH s1); [|done]. eapply cn_more; [done|]. by apply (cn_exec_sound a).
Qed.
End Executions.

(** A session is accepted while a stray takes the other slot of the connection
    and hands it to a worker; the peer ends the connection, all workers end, and
    the registry of resources is closed. *)
Definition sample_env : handleEnv :=
  mkHandleEnv None true None None None true true true None None None None true None None true.
Definition sample_trace : list hevent := snd (handleConn sample_env true 0).
Definition sample_connection : list cnAction :=
  replicate 6 AcMain ++ [AcChannel true true; AcStray; AcTake 2; AcHand 2; AcChannel true false] ++
  map (AcAnswer 1) [ACall KAccept; ARun 0 None; ARun 0 None; ARun 0 None].
Definition sample_rest : list cnAction :=
  [AcServed; AcMain; AcMain] ++ map (AcAnswer 1) [AWorker (WcReturn false); AWorker (WcStep false); AWorker (WcStep false)] ++
  [AcChannelEnd 1 0; AcDone 1; AcCloseFirst; AcCloseWait; AcCloseEnd; AcCloseReturn; AcMain; AcMain; AcMain; AcEnd 0; AcDone 0;
   AcGive 3; AcEnd 3; AcDone 3; AcMain; AcMain; AcMain; AcMain].
Definition sample_open : connection :=
  Eval vm_compute in default (cn_init sample_trace [] 1 ∅) (cn_run sample_limiter 1 sample_connection (cn_init sample_trace [] 1 ∅)).
Definition sample_returned : connection := Eval vm_compute in default sample_open (cn_run sample_limiter 1 sample_rest sample_open).

Lemma sample_open_reachable : cn_reachable sample_limiter 1 sample_trace [] 1 sample_open.
Proof. apply (cn_run_reachable _ _ _ _ _ sample_connection (cn_init sample_trace [] 1 ∅)); [by constructor|vm_compute; reflexivity]. Qed.
Lemma sample_returned_reachable : cn_reachable sample_limiter 1 sample_trace [] 1 sample_returned.
Proof. apply (cn_run_reachable _ _ _ _ _ sample_rest sample_open); [exact sample_open_reachable|vm_compute; reflexivity]. Qed.

Lemma connection_settled_witness :
  todo sample_returned = [] /\ serving sample_returned = true /\ length (goroutines sample_returned) = 4%nat /\
  load (ch_store (channels sample_returned)) 1 = 0 /\ fst (goRun (workers sample_returned)) = false.
Proof.
  assert (Hnd : NoDup (counters (channel_chain sample_limiter))) by by_decide.
  assert (Ht : todo sample_returned = []) by reflexivity.
  destruct (connection_settled sample_limiter 1 sample_env true 0 [] 1 sample_returned Hnd ltac:(constructor) sample_returned_reachable Ht)
    as (_ & _ & _ & _ & Hl & Hs & _).
  destruct (Hs eq_refl) as [Hg _]. split; [exact Ht|]. split; [reflexivity|]. split; [reflexivity|]. split; [exact (Hl eq_refl)|exact Hg].
Defined.

Lemma connection_bounded_witness :
  omap handles (goroutines sample_open) = [true] /\ sumZ holds (goroutines sample_open) = 1 /\
  handshakeError sample_env = None /\
  Z.of_nat (length (omap handles (goroutines sample_open))) + sumZ holds (goroutines sample_open) <= 2.
Proof.
  assert (Hnd : NoDup (counters (channel_chain sample_limiter))) by by_decide.
  destruct (connection_bounded sample_limiter 1 sample_env true 0 [] 1 sample_open Hnd sample_open_reachable) as (Hg & Hl & _).
  split; [reflexivity|]. split; [reflexivity|]. split; [apply Hg; done|exact (Hl eq_refl)].
Defined.
