(* ===== verification/ConnectionReturns.v ===== *)
(** ConnectionReturns: [handleConn] can always return.  Whatever a connection has
    come to, its handlers, its workers and the goroutines that acquire resources
    need nothing but their own next steps to end, and then [handleConn] does what
    its path has left and returns. *)
From S2P Require Import Prelude GoErrors Limiter Context Resources Channel ChannelAnswers Server Connection.
Local Open Scope Z_scope.
Local Open Scope list_scope.

#[local] Arguments sumZ {A} f l : simpl never.

(** ** One goroutine *)

Section Winding.
Variable limiter : connectionChannelLimiter.
Variable maxSessions : Z.

(** Steps after which a goroutine [j] is as [g], and the other goroutines and
    [handleConn] are where they were. *)
Definition brings (j : nat) (g : goroutine) (s s' : connection) : Prop :=
  rtc (cnstep limiter maxSessions) s s' /\ goroutines s' = <[j := g]> (goroutines s) /\ todo s' = todo s /\
  workers_closed (workers s') = workers_closed (workers s).

Lemma brings_trans j g g' s s' s'' : brings j g s s' -> brings j g' s' s'' -> brings j g' s s''.
Proof.
  intros (H1 & E1 & T1 & W1) (H2 & E2 & T2 & W2). split; [by etrans|]. split_and!; try congruence.
  by rewrite E2, E1, list_insert_insert_eq.
Qed.

Lemma brings_at j g s s' : brings j g s s' -> (j < length (goroutines s))%nat -> goroutines s' !! j = Some g.
Proof. intros (_ & -> & _) Hlt. by apply list_lookup_insert_eq. Qed.

(** The worker of a channel comes to its end. *)
Lemma channel_worker_ends j b a s :
  goroutines s !! j = Some (mkGoroutine (GChannel b a) GRunning) ->
  exists a' s', brings j (mkGoroutine (GChannel b a') GRunning) s s' /\ aworker a' = WEnded /\ channels s' = channels s.
Proof.
  intros Hj. destruct (worker_ends a) as (l & a' & Hr & Hw).
  assert (exists s', brings j (mkGoroutine (GChannel b a') GRunning) s s' /\ channels s' = channels s) as (s' & ? & ?);
    [|by exists a', s']. clear Hw. revert a s Hj Hr.
  induction l as [|c l IH]; intros a s Hj Hr; cbn in Hr.
  - simplify_eq. exists s. split; [|done]. split_and!; try done. by rewrite list_insert_id.
  - destruct (worker_exec c a) as [a1|] eqn:Hx; [|done].
    assert (Hs : brings j (mkGoroutine (GChannel b a1) GRunning) s (set_goroutine j (GChannel b a1) GRunning s)).
    { split_and!; try done. apply rtc_once. by apply (cn_answer _ _ s j b a a1 GRunning (AWorker c)). }
    destruct (IH a1 (set_goroutine j (GChannel b a1) GRunning s)) as (s' & Hb & Hc); try done.
    { cbn. apply list_lookup_insert_eq. by eapply lookup_lt_Some. }
    exists s'. split; [by eapply brings_trans|done].
Qed.

(** A worker gives its slots back. *)
Lemma slots_given_back j w m s :
  goroutines s !! j = Some (mkGoroutine (GOther w m) GRunning) -> exists s', brings j (mkGoroutine (GOther w 0) GRunning) s s'.
Proof.
  revert s. induction m as [|m IH]; intros s Hj; [exists s; split_and!; try done; by rewrite list_insert_id|].
  assert (Hs : brings j (mkGoroutine (GOther w m) GRunning) s (set_goroutine j (GOther w m) GRunning (give_slot limiter s))).
  { split_and!; try done. apply rtc_once. by apply cn_give. }
  destruct (IH (set_goroutine j (GOther w m) GRunning (give_slot limiter s))) as (s' & Hb).
  { cbn. apply list_lookup_insert_eq. by eapply lookup_lt_Some. }
  exists s'. by eapply brings_trans.
Qed.

Section Invariant.
Variable trace : list hevent.
Variable ts : list task.
Variable n : nat.
Hypothesis trace_served : well_served trace.
Abbreviation inv := (cn_inv limiter maxSessions trace ts n).

Lemma steps_inv s s' : inv s -> rtc (cnstep limiter maxSessions) s s' -> inv s'.
Proof. intros I H. induction H; [done|]. apply IHrtc. by eapply cnstep_inv. Qed.

(** A goroutine that is counted comes to its [wg.Done]. *)
Lemma goroutine_ending s j k p :
  inv s -> goroutines s !! j = Some (mkGoroutine k p) -> counts (mkGoroutine k p) = 1 ->
  exists k' s', brings j (mkGoroutine k' GEnding) s s' /\ counts (mkGoroutine k' GEnding) = 1.
Proof.
  intros I Hj Hc. pose proof (lookup_lt_Some _ _ _ Hj) as Hlt.
  destruct p; [|exists k, s; split; [split_and!; try done; by rewrite list_insert_id|done]|by destruct k as [| |[] ?]].
  destruct k as [|b a|[] m]; [| | |done].
  - exists GRequests, (set_goroutine j GRequests GEnding s). split; [|done]. split_and!; try done. apply rtc_once. by apply cn_requests_end.
  - destruct (channel_worker_ends _ _ _ _ Hj) as (a' & s1 & Hb & Hw & Hch). pose proof (brings_at _ _ _ _ Hb Hlt) as Hj1.
    pose proof (cv_handled _ _ _ _ _ _ (steps_inv _ _ I (proj1 Hb))) as Hh.
    assert (b ∈ ch_workers (channels s1)) as (i & Hi)%list_elem_of_lookup.
    { rewrite Hh. apply list_elem_of_omap. eexists. split; [by eapply list_elem_of_lookup_2|done]. }
    exists (GChannel b a'). eexists. split; [|done]. eapply brings_trans; [exact Hb|].
    split_and!; [apply rtc_once; by apply cn_channel_end|done..].
  - destruct (slots_given_back _ _ _ _ Hj) as (s1 & Hb). pose proof (brings_at _ _ _ _ Hb Hlt) as Hj1.
    exists (GOther true 0). eexists. split; [|done]. eapply brings_trans; [exact Hb|].
    split_and!; [apply rtc_once; by apply cn_other_end|done..].
Qed.

Lemma goroutine_ends s j g :
  inv s -> goroutines s !! j = Some g -> counts g = 1 ->
  exists s' k, brings j (mkGoroutine k GEnded) s s' /\ sumZ counts (goroutines s') = sumZ counts (goroutines s) - 1.
Proof.
  intros I Hj Hc. pose proof (lookup_lt_Some _ _ _ Hj) as Hlt. destruct g as [k p].
  destruct (goroutine_ending _ _ _ _ I Hj Hc) as (k' & s1 & Hb & Hc1). pose proof (brings_at _ _ _ _ Hb Hlt) as Hj1.
  eexists _, k'. split.
  - eapply brings_trans; [exact Hb|]. split_and!; [apply rtc_once; by apply (cn_done _ _ s1 j k')|done..].
  - cbn. rewrite (sumZ_insert _ _ _ _ _ Hj1). destruct Hb as (_ & -> & _). rewrite (sumZ_insert _ _ _ _ _ Hj).
    assert (counts (mkGoroutine k' GEnded) = 0) as -> by by destruct k' as [| |[] ?]. lia.
Qed.

(** All of them do. *)
Lemma goroutines_end s :
  inv s -> exists s', rtc (cnstep limiter maxSessions) s s' /\ sumZ counts (goroutines s') = 0 /\ todo s' = todo s /\
    workers_closed (workers s') = workers_closed (workers s) /\ length (goroutines s') = length (goroutines s).
Proof.
  remember (Z.to_nat (sumZ counts (goroutines s))) as m eqn:E. revert s E. induction m as [m IH] using lt_wf_ind. intros s E I.
  pose proof (counts_nonneg (goroutines s)) as Hnn.
  destruct (decide (sumZ counts (goroutines s) = 0)) as [Hz|Hz]; [by exists s|].
  destruct (sumZ_pos counts (goroutines s)) as (j & g & Hj & Hg); [lia|].
  assert (counts g = 1) as Hc by (destruct g as [[| |[] ?] []]; cbn in *; lia).
  destruct (goroutine_ends _ _ _ I Hj Hc) as (s1 & k & Hb & Hs). pose proof (counts_nonneg (goroutines s1)).
  destruct (IH (Z.to_nat (sumZ counts (goroutines s1))) ltac:(lia) s1 eq_refl (steps_inv _ _ I (proj1 Hb)))
    as (s' & Hr & Hz' & Ht & Hw & Hl).
  destruct Hb as (Hr1 & Eg & Et & Ew). exists s'. split; [by etrans|]. split_and!; try congruence.
  by rewrite Hl, Eg, length_insert.
Qed.

(** ** handleConn *)

Lemma resources_lift s r l :
  rtc cstep (resources s) r -> todo s = HvCloseResources :: l -> rtc (cnstep limiter maxSessions) s (set_resources r s).
Proof.
  intros H. remember (resources s) as r0 eqn:E. revert s E. induction H as [r|r0 r1 r H _ IH]; intros s -> Ht.
  - assert (set_resources (resources s) s = s) as -> by by destruct s. done.
  - eapply rtc_l; [apply (cn_resource _ _ s r1 H); right; by rewrite Ht|].
    change (set_resources r s) with (set_resources r (set_resources r1 s)). by apply IH.
Qed.

(** The event that is due can be executed. *)
Lemma event_over s e l :
  Forall start_task ts -> (0 < n)%nat -> inv s -> todo s = e :: l ->
  exists s', rtc (cnstep limiter maxSessions) s s' /\ todo s' = l.
Proof.
  intros Hts Hn I Ht.
  assert (Hnext : forall x, todo x = e :: l -> todo (next_event l x) = l) by (intros x Hx; unfold next_event; by rewrite Hx).
  destruct (decide (immediate e = true)) as [He|He].
  { exists (next_event l s). split; [apply rtc_once; by eapply cn_event|auto]. }
  destruct e; try done.
  - assert (Hserved : forall x, todo x = HvServe :: l -> serving x = true -> rtc (cnstep limiter maxSessions) x (next_event l x))
      by (intros; apply rtc_once; by apply cn_served).
    destruct (serving s) eqn:Hs; [exists (next_event l s); auto|].
    assert (Hst : forall k x, todo (snd (start_worker k x)) = todo x /\ serving (snd (start_worker k x)) = serving x)
      by (intros k x; unfold start_worker; by destruct (goRun _) as [[] ?]).
    destruct (Hst GRequests (begin_serving s)) as [Ht1 Hs1]. rewrite <- Ht in *. cbn in Ht1, Hs1. rewrite Ht in *.
    exists (next_event l (snd (start_worker GRequests (begin_serving s)))). split; [|auto].
    eapply rtc_l; [by eapply cn_serve|auto].
  - destruct (closeAll_returns ts n (resources s) 0 Hts (cv_resources _ _ _ _ _ _ I) Hn) as (r & Hr & Hret).
    exists (next_event l (set_resources r s)). split; [|auto]. eapply rtc_r; [by eapply resources_lift|by apply cn_resources_closed].
  - pose proof (cn_close_workers limiter maxSessions s l Ht) as Hs. set (s1 := set_workers _ s) in *.
    destruct (goroutines_end s1 ltac:(by eapply cnstep_inv)) as (s' & Hr & Hz & Ht' & Hw & _).
    exists (next_event l s'). split; [|apply Hnext; by rewrite Ht'].
    eapply rtc_l; [exact Hs|]. eapply rtc_r; [exact Hr|]. apply cn_workers_done; [by rewrite Ht'|by rewrite Hw|].
    pose proof (cv_wg _ _ _ _ _ _ (steps_inv _ _ I ltac:(eapply rtc_l; [exact Hs|exact Hr]))). lia.
Qed.

Lemma events_over s :
  Forall start_task ts -> (0 < n)%nat -> inv s -> exists s', rtc (cnstep limiter maxSessions) s s' /\ todo s' = [].
Proof.
  intros Hts Hn. remember (todo s) as l eqn:E. revert s E. induction l as [|e l IH]; intros s E I; [by exists s|].
  destruct (event_over s e l Hts Hn I (eq_sym E)) as (s1 & Hr & Ht).
  destruct (IH s1 (eq_sym Ht) (steps_inv _ _ I Hr)) as (s' & Hr' & Ht'). exists s'. split; [by etrans|done].
Qed.
End Invariant.
End Winding.

(** C5. [handleConn] is never stuck: from every state that a connection can be
    in, whatever the interleaving so far, the handlers can end, the call of
    [closeAll] and the wait for the workers can return, and [handleConn] returns
    having executed all the events of its path. *)
Theorem connection_returns limiter maxSessions env rf t ts n s :
  Forall start_task ts -> (0 < n)%nat -> cn_reachable limiter maxSessions (snd (handleConn env rf t)) ts n s ->
  exists s', rtc (cnstep limiter maxSessions) s s' /\ todo s' = [] /\ did s' = snd (handleConn env rf t).
Proof.
  intros Hts Hn Hr. pose proof (handle_conn_served env rf t) as Hw. pose proof (cn_reachable_inv _ _ _ _ _ Hw _ Hr) as I.
  destruct (events_over _ _ _ _ _ Hw s Hts Hn I) as (s' & Hs & Ht). exists s'. split_and!; try done.
  pose proof (cv_trace _ _ _ _ _ _ (steps_inv _ _ _ _ _ Hw _ _ I Hs)) as H. by rewrite Ht, app_nil_r in H.
Qed.

Lemma connection_returns_witness :
  head (todo sample_open) = Some HvServe /\
  exists s', rtc (cnstep sample_limiter 1) sample_open s' /\ todo s' = [] /\ did s' = sample_trace.
Proof.
  split; [reflexivity|].
  exact (connection_returns sample_limiter 1 sample_env true 0 [] 1 sample_open ltac:(constructor) ltac:(lia) sample_open_reachable).
Defined.
