(* ===== verification/Delivery.v ===== *)
(** Delivery: what a session does with signals, breaks and the exit status
    ([session.go]), made of [Signals] and [Breaks].  One goroutine reads the
    requests of the session and delivers what they carry; the calls of [Signals]
    and [Break], the goroutines that drain buffered signals and the calls of
    [Exit] go on beside it, and [Exit] has to pass the locks of both.

    [Session] treats a request as one turn and what the others do as interference
    between two turns; here the two views are compared. *)
From S2P Require Import Prelude Wire GoErrors ErrorDispatch Request Terminal Signals Breaks Session.
Local Open Scope Z_scope.
Local Open Scope list_scope.

(** ** The parts together *)

(** What the client gets. *)
Inductive answer := AnReply (accepted : bool) | AnExit.

Record delivery := mkDelivery {
  signals_part : signals;
  breaks_part : breaks;
  selected : option sendOutcome;       (* what the send of the signal request has ended with *)
  reading : bool;                      (* the loop over the requests goes on *)
  answers : list answer }.

Definition delivery_init : delivery := mkDelivery signals_init breaks_init None true [].

Definition set_signals_part (x : signals) (s : delivery) : delivery :=
  mkDelivery x (breaks_part s) (selected s) (reading s) (answers s).
Definition set_breaks_part (x : breaks) (s : delivery) : delivery :=
  mkDelivery (signals_part s) x (selected s) (reading s) (answers s).
Definition answer_request (b go_on : bool) (s : delivery) : delivery :=
  mkDelivery (signals_part s) (breaks_part s) None go_on (answers s ++ [AnReply b]).

Definition signal_result (r : sendOutcome) : sendResult :=
  match r with
  | Delivered => SendDelivered
  | Cancelled => SendCancelled
  | ContextDone => SendContextDone
  | ChannelClosed => SendChannelClosed
  end.
Definition break_result (r : sendOutcome) : breakResult :=
  match r with
  | Delivered => BrDelivered
  | Cancelled => BrCancelled
  | ContextDone => BrContextDone
  | ChannelClosed => BrChannelClosed
  end.
Definition is_delivered (r : sendOutcome) : bool := match r with Delivered => true | _ => false end.
Definition goes_on (r : sendOutcome) : bool := match r with ContextDone => false | _ => true end.

Definition signal_idle (s : delivery) : bool := match Signals.request (signals_part s) with Signals.RIdle => true | _ => false end.
Definition requests_idle (s : delivery) : bool := signal_idle s && Breaks.is_idle (Breaks.request (breaks_part s)).

Section Delivery.
Variable cfg : sessionConfig.

(** A signal request, up to the send or the reply. *)
Definition signal_request (payload : list byte) (s : delivery) : option delivery :=
  if reading s && requests_idle s && negb (existsb Breaks.holds_sig (Breaks.exits (breaks_part s))) then
    match unmarshal1 cfg payload with
    | None => Some (answer_request false true s)
    | Some sig =>
        if maxSessionSignalBytes <? zlen sig then Some (answer_request false true s)
        else
          let x := signals_part s in
          x' ← handleSignal (String.string_of_list_byte sig) x;
          let s := set_signals_part x' s in
          Some (if Signals.exiting x then answer_request false false s
                else match Signals.sigCh x with None => answer_request true true s | Some _ => s end)
    end
  else None.

(** The request at hand goes on; [r] is what a send ends with. *)
Definition request_turn (r : sendOutcome) (s : delivery) : option delivery :=
  if signal_idle s then
    x ← Breaks.request_exec (break_result r) (breaks_part s);
    let s' := set_breaks_part x s in
    Some (match Breaks.request (breaks_part s) with QReplying d => answer_request d true s' | _ => s' end)
  else
    x ← Signals.request_exec (signal_result r) (signals_part s);
    let s' := set_signals_part x s in
    Some (match Signals.request (signals_part s), selected s with
          | RSending _ _ _, _ => mkDelivery x (breaks_part s) (Some r) (reading s) (answers s)
          | Signals.RFinishing, Some r => answer_request (is_delivered r) (goes_on r) s'
          | _, _ => s'
          end).

(** The call [i] of [Exit] goes on: it is seen to be exiting by both parts, and
    it gets [sigReplyMu] when [stopSignalDeliveryForExit] has returned and no
    signal request holds it. *)
Definition exit_goes_on (i : nat) (s : delivery) : option delivery :=
  let x := signals_part s in
  b ← exit_exec i (breaks_part s);
  let s' := set_breaks_part b s in
  match Breaks.exits (breaks_part s) !! i with
  | Some XCalled => Some (set_signals_part (set_flags true (Signals.ctxDone x) (Signals.panicked x) x) s')
  | Some XExiting => if Signals.exit_stopped x && signal_idle s then Some s' else None
  | Some XReplyLocked =>
      Some (if Breaks.exited (breaks_part s) then s' else mkDelivery x b (selected s) (reading s) (answers s ++ [AnExit]))
  | _ => Some s'
  end.

Inductive deliveryAction :=
| DSignal (payload : list byte) | DBreak | DRequest (r : sendOutcome)
| DSignals (c : option nat) | DStop | DSetting | DDrain (d : nat) (r : sendResult)
| DBreakCall (c : option nat) | DConfig
| DExit | DExitStep (i : nat)
| DContextDone.

Definition in_signals (a : signalAction) (s : delivery) : option delivery :=
  x ← signal_exec a (signals_part s); Some (set_signals_part x s).
Definition in_breaks (a : breakAction) (s : delivery) : option delivery :=
  x ← break_exec a (breaks_part s); Some (set_breaks_part x s).

Definition delivery_exec (a : deliveryAction) (s : delivery) : option delivery :=
  match a with
  | DSignal payload => signal_request payload s
  | DBreak => if reading s && requests_idle s then in_breaks ABreak s else None
  | DRequest r => request_turn r s
  | DSignals c => in_signals (ASignals c) s
  | DStop => in_signals AStop s
  | DSetting => in_signals ASetting s
  | DDrain d r => in_signals (ADrain d r) s
  | DBreakCall c => in_breaks (ABreakCall c) s
  | DConfig => in_breaks AConfig s
  | DExit => in_breaks AExit s
  | DExitStep i => exit_goes_on i s
  | DContextDone => s ← in_signals Signals.AContextDone s; in_breaks Breaks.AContextDone s
  end.

Fixpoint delivery_run (l : list deliveryAction) (s : delivery) : option delivery :=
  match l with
  | [] => Some s
  | a :: l => match delivery_exec a s with Some s => delivery_run l s | None => None end
  end.
End Delivery.

(** A signal is buffered, drained to a channel and a second one sent to it; a
    break finds no receiver; while a third signal is being sent [Exit] comes in,
    and the loop ends with the signal that is refused. *)
Definition sample_delivery_config : sessionConfig :=
  mkSessionConfig true (fun _ => false) (fun _ => false) None None None None
    (mkDispatchContext true true true) Some (fun _ => None).
Definition sample_bytes (s : string) : list byte := String.list_byte_of_string s.
Definition sample_delivery : list deliveryAction :=
  [DSignal (sample_bytes "HUP"); DSignals (Some 1%nat); DSetting; DSetting; DDrain 0 SendDelivered; DDrain 0 SendDelivered;
   DDrain 0 SendDelivered; DDrain 0 SendDelivered; DDrain 0 SendDelivered; DDrain 0 SendDelivered;
   DSignal (sample_bytes "INT"); DRequest Delivered; DRequest Delivered; DRequest Delivered;
   DBreak; DRequest Delivered; DRequest Delivered; DSignal (sample_bytes "TERM"); DExit; DExitStep 0; DStop; DRequest Cancelled;
   DRequest Cancelled; DRequest Cancelled; DSetting; DSetting; DExitStep 0; DExitStep 0; DConfig; DConfig; DExitStep 0; DExitStep 0;
   DSignal (sample_bytes "KILL")].
Example sample_delivery_run :
  (fun s => (answers s, reading s, Signals.received (signals_part s))) <$> delivery_run sample_delivery_config sample_delivery delivery_init =
  Some ([AnReply true; AnReply true; AnReply false; AnReply false; AnExit; AnReply false], false, [(1%nat, "HUP"%string); (1%nat, "INT"%string)]).
Proof. vm_compute. reflexivity. Qed.

(** ** What the parts do is what they do on their own *)

Definition signals_reach (x x' : signals) : Prop := exists l, signal_run l x = Some x'.
Definition breaks_reach (x x' : breaks) : Prop := exists l, break_run l x = Some x'.

Lemma signals_once a x x' : signal_exec a x = Some x' -> signals_reach x x'.
Proof. intros H. exists [a]. cbn. by rewrite H. Qed.
Lemma breaks_once a x x' : break_exec a x = Some x' -> breaks_reach x x'.
Proof. intros H. exists [a]. cbn. by rewrite H. Qed.

#[export] Instance signals_reach_preorder : PreOrder signals_reach.
Proof.
  split; [by exists []|]. intros x y z [l Hl] [k Hk]. exists (l ++ k). revert x Hl.
  induction l as [|a l IH]; cbn; intros x Hl; [by simplify_eq|]. destruct (signal_exec a x); [auto|done].
Qed.
#[export] Instance breaks_reach_preorder : PreOrder breaks_reach.
Proof.
  split; [by exists []|]. intros x y z [l Hl] [k Hk]. exists (l ++ k). revert x Hl.
  induction l as [|a l IH]; cbn; intros x Hl; [by simplify_eq|]. destruct (break_exec a x); [auto|done].
Qed.

Section Parts.
Variable cfg : sessionConfig.

Lemma in_signals_exec a s s' : in_signals a s = Some s' -> exists x, signal_exec a (signals_part s) = Some x /\ s' = set_signals_part x s.
Proof. unfold in_signals. destruct (signal_exec _ _); intros [= <-]; eauto. Qed.
Lemma in_breaks_exec a s s' : in_breaks a s = Some s' -> exists x, break_exec a (breaks_part s) = Some x /\ s' = set_breaks_part x s.
Proof. unfold in_breaks. destruct (break_exec _ _); intros [= <-]; eauto. Qed.

Lemma parts_exec a s s' :
  delivery_exec cfg a s = Some s' ->
  signals_reach (signals_part s) (signals_part s') /\ breaks_reach (breaks_part s) (breaks_part s').
Proof.
  assert (Hs : forall a s s', in_signals a s = Some s' ->
    signals_reach (signals_part s) (signals_part s') /\ breaks_reach (breaks_part s) (breaks_part s')).
  { intros b x x' (y & Hy & ->)%in_signals_exec. split; [by eapply signals_once|reflexivity]. }
  assert (Hb : forall a s s', in_breaks a s = Some s' ->
    signals_reach (signals_part s) (signals_part s') /\ breaks_reach (breaks_part s) (breaks_part s')).
  { intros b x x' (y & Hy & ->)%in_breaks_exec. split; [reflexivity|by eapply breaks_once]. }
  destruct a as [payload| |r|c| | |d r|c| | |i|]; cbn [delivery_exec]; eauto.
  - unfold signal_request. destruct (_ && _); [|done]. destruct (unmarshal1 cfg payload) as [sig|]; [|by intros [= <-]].
    destruct (_ <? _); [by intros [= <-]|]. destruct (handleSignal _ _) as [x|] eqn:E; [|done]. cbn.
    intros [= <-]. assert (signals_reach (signals_part s) x) by (by eapply (signals_once (ASignal _))).
    destruct (Signals.exiting _); [done|]. by destruct (Signals.sigCh _).
  - destruct (_ && _); [apply Hb|done].
  - unfold request_turn. destruct (signal_idle s).
    + destruct (Breaks.request_exec _ _) as [x|] eqn:E; [|done]. cbn. intros [= <-].
      assert (breaks_reach (breaks_part s) x) by (by eapply (breaks_once (Breaks.ARequest _))). by destruct (Breaks.request _).
    + destruct (Signals.request_exec _ _) as [x|] eqn:E; [|done]. cbn. intros [= <-].
      assert (signals_reach (signals_part s) x) by (by eapply (signals_once (Signals.ARequest _))).
      by destruct (Signals.request _), (selected s).
  - unfold exit_goes_on. destruct (exit_exec i (breaks_part s)) as [b|] eqn:E; [|done]. cbn.
    assert (breaks_reach (breaks_part s) b) by (by eapply (breaks_once (AExitStep i))).
    destruct (Breaks.exits _ !! i) as [[]|]; try (by intros [= <-]).
    + intros [= <-]. split; [by eapply (signals_once AExiting)|done].
    + destruct (_ && _); [|done]. by intros [= <-].
    + destruct (Breaks.exited _); by intros [= <-].
  - destruct (in_signals _ s) as [s1|] eqn:E; [|done]. cbn. intros H.
    destruct (Hs _ _ _ E) as [H1 H2], (Hb Breaks.AContextDone _ _ H) as [H3 H4]. split; by etrans.
Qed.

Lemma parts_run l s s' :
  delivery_run cfg l s = Some s' ->
  signals_reach (signals_part s) (signals_part s') /\ breaks_reach (breaks_part s) (breaks_part s').
Proof.
  revert s. induction l as [|a l IH]; cbn; intros s H; [by simplify_eq|].
  destruct (delivery_exec cfg a s) as [s1|] eqn:E; [|done]. destruct (parts_exec _ _ _ E), (IH _ H). split; by etrans.
Qed.
End Parts.

(** ** Invariant *)

Definition short (sig : string) : Prop := zlen (String.list_byte_of_string sig) <= maxSessionSignalBytes.
(** The signals of RFC 4254, section 6.10. *)
Definition SIGABRT : string := "ABRT".
Definition SIGALRM : string := "ALRM".
Definition SIGFPE : string := "FPE".
Definition SIGHUP : string := "HUP".
Definition SIGILL : string := "ILL".
Definition SIGINT : string := "INT".
Definition SIGKILL : string := "KILL".
Definition SIGPIPE : string := "PIPE".
Definition SIGQUIT : string := "QUIT".
Definition SIGSEGV : string := "SEGV".
Definition SIGTERM : string := "TERM".
Definition SIGUSR1 : string := "USR1".
Definition SIGUSR2 : string := "USR2".
Definition posix_signals : list string :=
  [SIGABRT; SIGALRM; SIGFPE; SIGHUP; SIGILL; SIGINT; SIGKILL; SIGPIPE; SIGQUIT; SIGSEGV; SIGTERM; SIGUSR1; SIGUSR2].

(** None of them is refused for its length. *)
Lemma posix_signals_short : Forall short posix_signals.
Proof. by_decide. Qed.

Definition short_signals (x : signals) : Prop :=
  Forall short (Signals.sigBuf x) /\ forall d o, drains x !! d = Some o -> Forall short (drain_flight (dr_phase o)).

Definition holding (l : list exitCall) : Prop := exists i x, l !! i = Some x /\ holds_sig x = true.
Definition begun (l : list exitCall) : Prop := exists i x, l !! i = Some x /\ x <> XCalled.

(** What the others do to the signals, apart from requests. *)
Definition internal (a : signalAction) : Prop := match a with ASignals _ | AStop | ASetting | ADrain _ _ | Signals.AContextDone => True | _ => False end.

Lemma short_insert x d o l : drains x !! d = Some o -> Forall short l -> (forall d o, drains x !! d = Some o -> Forall short (drain_flight (dr_phase o))) ->
  forall t p c d' o', drain_flight p = l -> <[d := mkDrain t p c]> (drains x) !! d' = Some o' -> Forall short (drain_flight (dr_phase o')).
Proof. intros Hd Hl Hf t p c d' o' Hp [(<- & <- & _)|[_ H]]%list_lookup_insert_Some; [by rewrite <- Hp in Hl|eauto]. Qed.

Record others_keep (x x' : signals) : Prop := mkOthersKeep {
  ok_request : Signals.request x' = Signals.request x;
  ok_exiting : Signals.exiting x' = Signals.exiting x;
  ok_short : short_signals x -> short_signals x';
  ok_buffer : Signals.sigBuf x' = Signals.sigBuf x \/ Signals.sigBuf x' = [] \/
    exists l, (short_signals x -> Forall short l) /\ Signals.sigBuf x' = take Signals.maxSigBufSize (l ++ Signals.sigBuf x) }.

Lemma drain_keeps d r x x' : drain_exec d r x = Some x' -> others_keep x x'.
Proof.
  unfold drain_exec. destruct (drains x !! d) as [o|] eqn:Hd; [|done].
  assert (Hflight : short_signals x -> Forall short (drain_flight (dr_phase o))) by (intros [_ H]; eauto).
  assert (Hgo : forall p, short_signals x -> Forall short (drain_flight p) ->
    forall d' o', <[d := mkDrain (dr_target o) p (dr_cancelled o)]> (drains x) !! d' = Some o' -> Forall short (drain_flight (dr_phase o'))).
  { intros p [_ Hx] Hp d' o' H. by eapply (short_insert x d o _ Hd Hp Hx); [|exact H]. }
  destruct (dr_phase o) as [|[|sig rest]|rest| | |] eqn:Hp; cbn [drain_flight] in *.
  - destruct (Signals.sigBuf x) as [|sig l] eqn:Hb; intros [= <-]; split; cbn; auto; intros Hx; (split; cbn; [by rewrite ?Hb|]); apply Hgo; try done.
    destruct Hx as [Hx _]. by rewrite Hb in Hx.
  - intros [= <-]. split; cbn; auto. intros Hx. split; [apply Hx|by apply Hgo].
  - destruct (Signals.can_take _ _ _); [|done]. intros [= <-].
    destruct r; (split; [done|done| |by left]); intros Hx; specialize (Hflight Hx); (split; [apply Hx|]); apply Hgo; try done; by inversion Hflight.
  - intros [= <-]. split; cbn; [done|done| |right; right; by exists rest].
    intros Hx. split; cbn; [|by apply Hgo]. apply Forall_take, Forall_app. split; [auto|apply Hx].
  - intros [= <-]. split; cbn; auto. intros Hx. split; [apply Hx|by apply Hgo].
  - intros [= <-]. split; cbn; auto. intros Hx. split; [apply Hx|by apply Hgo].
  - done.
Qed.

(** The buffer and the drains' signals stay. *)
Lemma keep_same x x' :
  Signals.request x' = Signals.request x -> Signals.exiting x' = Signals.exiting x -> Signals.sigBuf x' = Signals.sigBuf x ->
  (forall d o', drains x' !! d = Some o' -> drain_flight (dr_phase o') = [] \/ exists d o, drains x !! d = Some o /\ dr_phase o = dr_phase o') ->
  others_keep x x'.
Proof.
  intros H1 H2 H3 H4. split; auto. intros [Hb Hd]. split; [by rewrite H3|]. intros d o' Ho'.
  destruct (H4 d o' Ho') as [->|(d' & o & Ho & <-)]; [done|eauto].
Qed.

Lemma clear_sender_same x : Signals.request (Signals.clear_sender x) = Signals.request x /\ Signals.exiting (Signals.clear_sender x) = Signals.exiting x /\
  Signals.sigBuf (Signals.clear_sender x) = Signals.sigBuf x /\ drains (Signals.clear_sender x) = drains x.
Proof. unfold Signals.clear_sender. destruct (Signals.sigCh x) as [[c i]|]; [|done]. by destruct (bool_decide _). Qed.

Lemma internal_keeps a x x' : internal a -> signal_exec a x = Some x' -> others_keep x x'.
Proof.
  destruct (clear_sender_same x) as (C1 & C2 & C3 & C4).
  assert (Hbegin : forall c e x', begin_setting c e x = Some x' -> others_keep x x').
  { intros c e y. unfold begin_setting. destruct (setting x); try done. destruct (_ && _); [intros [= <-]; apply keep_same; eauto|].
    destruct (sigDrain x) as [d|].
    - destruct (drains x !! d) as [o|] eqn:Hd; [|done]. intros [= <-]. apply keep_same; cbn; try by destruct (dr_cancelled o).
      intros d' o' [(<- & <- & _)|[_ H]]%list_lookup_insert_Some; right; [by exists d, o|eauto].
    - intros [= <-]. apply keep_same; cbn; try done. rewrite C4. eauto. }
  destruct a as [|r|d r|c| | | |]; cbn [signal_exec internal]; intros Ha; try done.
  - apply drain_keeps.
  - apply Hbegin.
  - destruct (Signals.exiting x); [apply Hbegin|done].
  - unfold setting_exec. destruct (setting x) as [|c e d|c e|[c|] e]; [done| | | |].
    + destruct (drains x !! d) as [[t [] b]|]; try done. intros [= <-]. apply keep_same; cbn; try done. rewrite C4. eauto.
    + destruct (_ =? _)%nat; [|done]. intros [= <-]. apply keep_same; cbn; eauto.
    + intros [= <-]. destruct (Signals.sigBuf x) as [|b l] eqn:Hb; apply keep_same; cbn; eauto.
      intros d o [H|[_ [_ <-]%list_lookup_singleton_Some]]%lookup_app_Some; [eauto|by left].
    + intros [= <-]. apply keep_same; cbn; eauto.
  - intros [= <-]. apply keep_same; cbn; eauto.
Qed.

(** What the others do to the breaks, apart from requests and from [Exit]. *)
Definition internal_break (a : breakAction) : Prop := match a with ABreakCall _ | AConfig | AExit | Breaks.AContextDone => True | _ => False end.

Record breaks_keep (b b' : breaks) : Prop := mkBreaksKeep {
  bk_request : Breaks.request b' = Breaks.request b;
  bk_exited : Breaks.exited b' = Breaks.exited b;
  bk_holding : holding (Breaks.exits b') -> holding (Breaks.exits b);
  bk_begun : begun (Breaks.exits b') -> begun (Breaks.exits b) }.

Lemma keep_exits b b' :
  Breaks.request b' = Breaks.request b -> Breaks.exited b' = Breaks.exited b -> Breaks.exits b' = Breaks.exits b -> breaks_keep b b'.
Proof. intros H1 H2 H3. split; by rewrite ?H3. Qed.

Lemma clear_breaks_same b : Breaks.request (Breaks.clear_sender b) = Breaks.request b /\ Breaks.exited (Breaks.clear_sender b) = Breaks.exited b /\
  Breaks.exits (Breaks.clear_sender b) = Breaks.exits b.
Proof. unfold Breaks.clear_sender. by destruct (Breaks.breakCh b) as [[c i]|]. Qed.

Lemma internal_breaks a b b' : binv b -> internal_break a -> break_exec a b = Some b' -> breaks_keep b b'.
Proof.
  intros I. destruct (clear_breaks_same b) as (C1 & C2 & C3). destruct a as [| |c| | |i|]; cbn [break_exec internal_break]; intros Ha; try done.
  - unfold break_call. destruct (config b); [|done..]. destruct (Breaks.exiting b); intros [= <-]; by apply keep_exits.
  - unfold config_exec. pose proof (bi_config_exit _ I) as Hi. destruct (config b) as [|c e|c e] eqn:Hc; [done| |].
    + destruct (_ =? _)%nat; [|done]. intros [= <-]. by apply keep_exits.
    + intros [= <-]. destruct e as [i|]; [|destruct c; by apply keep_exits]. destruct (Hi i eq_refl) as [_ Hx].
      destruct c; (split; cbn; [done|done| |]); intros (j & x & [(<- & <- & _)|[_ Hj]]%list_lookup_insert_Some & Hh);
        (by exists i, XStopping) || (by exists j, x).
  - intros [= <-]. split; cbn; try done; intros (j & x & [Hj|[_ [_ <-]%list_lookup_singleton_Some]]%lookup_app_Some & Hx); try done; by exists j, x.
  - intros [= <-]. by apply keep_exits.
Qed.

Record dinv (s : delivery) : Prop := mkDinv {
  dv_breaks : binv (breaks_part s);
  dv_short : short_signals (signals_part s);
  dv_holding : holding (Breaks.exits (breaks_part s)) -> Signals.request (signals_part s) = Signals.RIdle;
  dv_begun : begun (Breaks.exits (breaks_part s)) -> Signals.exiting (signals_part s) = true;
  dv_one : Signals.request (signals_part s) <> Signals.RIdle -> Breaks.request (breaks_part s) = QIdle;
  dv_selected : match Signals.request (signals_part s) with
    | RSent _ _ r => exists o, selected s = Some o /\ signal_result o = r
    | Signals.RFinishing => is_Some (selected s)
    | _ => True
    end;
  dv_answers : if Breaks.exited (breaks_part s)
    then Signals.request (signals_part s) = Signals.RIdle /\
         exists l n, answers s = l ++ AnExit :: replicate n (AnReply false) /\ AnExit ∉ l
    else AnExit ∉ answers s }.

Lemma delivery_init_inv : dinv delivery_init.
Proof.
  split; try done; try (by intros (i & x & Hx & _)).
  - apply breaks_init_inv.
  - cbn. set_solver.
Qed.

Lemma exited_exiting s : dinv s -> Breaks.exited (breaks_part s) = true -> Signals.exiting (signals_part s) = true.
Proof.
  intros I H. apply (dv_begun _ I). destruct (bi_exited _ (dv_breaks _ I) H) as [(i & x & Hi & Hx) _]. exists i, x. split; [done|by intros ->].
Qed.

Lemma holding_existsb l : holding l <-> existsb holds_sig l = true.
Proof.
  split; [|apply existsb_some]. intros (i & x & Hi & Hx). apply existsb_exists. exists x. split; [|done].
  apply list_elem_of_In. by eapply list_elem_of_lookup_2.
Qed.

Lemma idle_spec s : signal_idle s = true <-> Signals.request (signals_part s) = Signals.RIdle.
Proof. unfold signal_idle. by destruct (Signals.request _). Qed.

(** Answers are added. *)
Lemma no_exit_app l b : AnExit ∉ l -> AnExit ∉ l ++ [AnReply b].
Proof. set_solver. Qed.

Lemma answers_grow s b :
  (Breaks.exited (breaks_part s) = true -> b = false) ->
  (if Breaks.exited (breaks_part s)
   then Signals.request (signals_part s) = Signals.RIdle /\ exists l n, answers s = l ++ AnExit :: replicate n (AnReply false) /\ AnExit ∉ l
   else AnExit ∉ answers s) ->
  if Breaks.exited (breaks_part s)
  then exists l n, answers s ++ [AnReply b] = l ++ AnExit :: replicate n (AnReply false) /\ AnExit ∉ l
  else AnExit ∉ answers s ++ [AnReply b].
Proof.
  destruct (Breaks.exited _); [|intros _; apply no_exit_app]. intros Hb (_ & l & n & -> & Hl). rewrite (Hb eq_refl).
  exists l, (S n). split; [|done]. rewrite <- app_assoc. cbn. do 2 f_equal. symmetry. apply replicate_cons_app.
Qed.

Lemma signals_inv s x : dinv s -> others_keep (signals_part s) x -> dinv (set_signals_part x s).
Proof. intros [] [H1 H2 H3 H4]. split; cbn; rewrite ?H1, ?H2; auto. Qed.

Lemma breaks_inv s b : dinv s -> binv b -> breaks_keep (breaks_part s) b -> dinv (set_breaks_part b s).
Proof. intros [] Hb [H1 H2 H3 H4]. split; cbn; rewrite ?H1, ?H2; auto. Qed.

(** The answer to a request that has not touched the parts. *)
Lemma refused_inv s go : dinv s -> requests_idle s = true -> dinv (answer_request false go s).
Proof.
  intros I [Hs%idle_spec Hb]%andb_true_iff. pose proof (answers_grow s false ltac:(done) (dv_answers _ I)) as Ha.
  destruct I as [H1 H2 H3 H4 H5 H6 H7]. split; cbn; try done; [by rewrite Hs|]. destruct (Breaks.exited _); [by split|done].
Qed.

Section Preservation.
Variable cfg : sessionConfig.

Lemma long_enough sig : (maxSessionSignalBytes <? zlen sig) = false -> short (String.string_of_list_byte sig).
Proof. intros H%Z.ltb_ge. unfold short. by rewrite String.list_byte_of_string_of_list_byte. Qed.

Lemma signal_request_inv payload s s' : dinv s -> signal_request cfg payload s = Some s' -> dinv s'.
Proof.
  intros I. unfold signal_request. destruct (reading s && requests_idle s) eqn:Hr; [|done]. apply andb_true_iff in Hr as [_ Hr].
  destruct (existsb holds_sig _) eqn:Hh; [done|]. cbn.
  destruct (unmarshal1 cfg payload) as [sig|]; [|intros [= <-]; by apply refused_inv].
  destruct (_ <? _) eqn:Hlen; [intros [= <-]; by apply refused_inv|]. apply long_enough in Hlen.
  pose proof Hr as [Hi%idle_spec Hq]%andb_true_iff. unfold handleSignal. rewrite Hi.
  destruct (Signals.exiting (signals_part s)) eqn:He.
  { intros [= <-]. exact (refused_inv s false I Hr). }
  assert (Hned : Breaks.exited (breaks_part s) = false) by
    (destruct (Breaks.exited _) eqn:E; [by rewrite (exited_exiting _ I E) in He|done]).
  pose proof (no_exit_app (answers s) true) as Ha. destruct I as [H1 H2 H3 H4 H5 H6 H7]. rewrite Hned in H7.
  destruct (Signals.sigCh (signals_part s)) as [[t i]|]; cbn.
  - intros [= <-]. split; cbn; rewrite ?Hned; try done; [|by destruct (Breaks.request _)].
    intros Hx%holding_existsb. congruence.
  - intros H. assert (exists y, s' = answer_request true true (set_signals_part y s) /\ Signals.request y = Signals.RIdle /\
                        Signals.exiting y = false /\ short_signals y) as (y & -> & E1 & E2 & E3).
    { destruct (length _ <=? _)%nat; cbn in H; simplify_eq; (eexists; split_and!; [done|done|done|]); [|done].
      split; cbn; [apply Forall_app; split; [apply H2|by constructor]|apply H2]. }
    split; cbn; rewrite ?E1, ?E2, ?Hned; try done; [|auto]. by rewrite He in H4.
Qed.

Lemma break_request_inv s s' : dinv s -> requests_idle s = true -> in_breaks ABreak s = Some s' -> dinv s'.
Proof.
  intros I [Hs%idle_spec Hb]%andb_true_iff (b & Hx & ->)%in_breaks_exec. pose proof (break_exec_inv _ _ _ (dv_breaks _ I) Hx) as Hi.
  cbn in Hx. unfold break_begin in Hx. destruct (_ && _); [|done]. simplify_eq. destruct I as [H1 H2 H3 H4 H5 H6 H7].
  by split.
Qed.

(** What has been answered [true] before the exit status. *)
Lemma replying b d : binv b -> Breaks.request b = QReplying d -> Breaks.exited b = true -> d = false.
Proof. intros I Hr He. destruct (bi_exited _ I He) as [_ H]. rewrite Hr in H. by destruct d. Qed.

Lemma break_turn_same r b b' :
  Breaks.request_exec r b = Some b' -> Breaks.exited b' = Breaks.exited b /\ Breaks.exits b' = Breaks.exits b /\
  (is_idle (Breaks.request b') = match Breaks.request b with QReplying _ => true | _ => false end).
Proof. unfold Breaks.request_exec. repeat case_match; intros; by simplify_eq. Qed.

Lemma signal_turn_same r x x' :
  Signals.request_exec r x = Some x' -> Signals.exiting x' = Signals.exiting x /\ Signals.sigBuf x' = Signals.sigBuf x /\ drains x' = drains x /\
  match Signals.request x with
  | RSending sig t _ => Signals.request x' = RSent sig t r
  | RSent _ _ _ => Signals.request x' = Signals.RFinishing
  | Signals.RFinishing => Signals.request x' = Signals.RIdle
  | Signals.RIdle => False
  end.
Proof. unfold Signals.request_exec. repeat case_match; intros; by simplify_eq. Qed.

Lemma request_turn_inv r s s' : dinv s -> request_turn r s = Some s' -> dinv s'.
Proof.
  intros I. unfold request_turn. destruct (signal_idle s) eqn:Hi.
  - apply idle_spec in Hi. destruct (Breaks.request_exec _ _) as [b|] eqn:Hx; [|done]. cbn. intros [= <-].
    pose proof (deliver_exec_inv _ _ _ (dv_breaks _ I) Hx) as Hb. destruct (break_turn_same _ _ _ Hx) as (E1 & E2 & E3).
    assert (Hd : forall d, Breaks.request (breaks_part s) = QReplying d -> Breaks.exited (breaks_part s) = true -> d = false)
      by (intros d; by apply replying, I).
    pose proof (fun d H => answers_grow s d H (dv_answers _ I)) as Hgrow.
    destruct I as [H1 H2 H3 H4 H5 H6 H7]. rewrite Hi in H7.
    destruct (Breaks.request (breaks_part s)) as [| | | | |d]; split; cbn; rewrite ?E1, ?E2, ?Hi; try done.
    specialize (Hgrow d (Hd d eq_refl)). by destruct (Breaks.exited _).
  - assert (Hn : Signals.request (signals_part s) <> Signals.RIdle) by (intros H%idle_spec; congruence).
    destruct (Signals.request_exec _ _) as [x|] eqn:Hx; [|done]. cbn. intros [= <-].
    destruct (signal_turn_same _ _ _ Hx) as (E1 & E2 & E3 & E4).
    assert (Hsh : short_signals x) by (destruct (dv_short _ I); split; by rewrite ?E2, ?E3).
    destruct I as [H1 H2 H3 H4 H5 H6 H7].
    assert (Hned : Breaks.exited (breaks_part s) = false) by (destruct (Breaks.exited _); [by destruct H7|done]).
    rewrite Hned in H7. destruct (Signals.request (signals_part s)) as [|sig t i|sig t r'|]; [done| | |].
    + split; cbn; rewrite ?E1, ?E4, ?Hned; try done; [by intros ?%H3|by intros _; apply H5|by exists r].
    + destruct H6 as (o & H6 & _). split; cbn; rewrite ?E1, ?E4, ?Hned, ?H6; try done; [by intros ?%H3|by intros _; apply H5].
    + destruct H6 as [o ->]. split; cbn; rewrite ?E1, ?E4, ?Hned; try done. by apply no_exit_app.
Qed.

(** A call of [Exit]: where it comes to. *)
Definition exit_next (x : exitCall) (again : bool) : exitCall :=
  match x with XCalled => XExiting | XExiting => XSigLocked | XSigLocked => XStopping | XStopped => XReplyLocked | _ => XReturned (negb again) end.

Lemma exit_exec_shape i b b' :
  exit_exec i b = Some b' -> exists x, Breaks.exits b !! i = Some x /\ Breaks.request b' = Breaks.request b /\
    Breaks.exits b' = <[i := exit_next x (Breaks.exited b)]> (Breaks.exits b) /\
    Breaks.exited b' = (Breaks.exited b || match x with XReplyLocked => true | _ => false end) /\ (x = XReplyLocked \/ x <> XReplyLocked /\ x <> XStopping).
Proof.
  unfold exit_exec. destruct (Breaks.exits b !! i) as [x|]; [|done]. intros H. exists x. split; [done|].
  destruct x; repeat case_match; simplify_eq; cbn; rewrite ?orb_false_r, ?orb_true_r; split_and!; try done; auto;
    try (by right); unfold Breaks.clear_sender; cbn; by destruct (Breaks.breakCh b) as [[? ?]|].
Qed.

Lemma exit_goes_on_inv i s s' : dinv s -> exit_goes_on i s = Some s' -> dinv s'.
Proof.
  intros I. unfold exit_goes_on. destruct (exit_exec i (breaks_part s)) as [b|] eqn:Hx; [|done]. cbn.
  pose proof (exit_exec_inv _ _ _ (dv_breaks _ I) Hx) as Hb. destruct (exit_exec_shape _ _ _ Hx) as (x & Hi & E1 & E2 & E3 & Hne).
  rewrite Hi. destruct I as [H1 H2 H3 H4 H5 H6 H7].
  assert (Hhold : x <> XExiting -> holding (Breaks.exits b) -> holding (Breaks.exits (breaks_part s))).
  { intros Hxe (j & y & Hj & Hy). rewrite E2 in Hj. apply list_lookup_insert_Some in Hj as [(<- & <- & _)|[_ Hj]]; [|by exists j, y].
    exists i, x. split; [done|]. by destruct x. }
  assert (Hbeg : x <> XCalled -> begun (Breaks.exits (breaks_part s))) by (intros; by exists i, x).
  assert (Hself : holds_sig x = true -> Signals.request (signals_part s) = Signals.RIdle) by (intros; apply H3; by exists i, x).
  destruct x; rewrite ?orb_false_r in E3; try (intros [= <-]; split; cbn; rewrite ?E1, ?E3; try done; auto; fail).
  - destruct (signal_idle s) eqn:Hidle; [apply idle_spec in Hidle|by rewrite andb_false_r].
    destruct (Signals.exit_stopped _); [|done]. intros [= <-]. split; cbn; rewrite ?E1, ?E3; try done. auto.
  - rewrite orb_true_r in E3. destruct (Breaks.exited (breaks_part s)) eqn:He; intros [= <-]; split; cbn; rewrite ?E1, ?E3; try done; auto.
    split; [by apply Hself|]. by exists (answers s), 0%nat.
Qed.

Lemma delivery_exec_inv a s s' : dinv s -> delivery_exec cfg a s = Some s' -> dinv s'.
Proof.
  assert (Hs : forall a s s', internal a -> dinv s -> in_signals a s = Some s' -> dinv s').
  { intros b y y' Hb I (x & Hx & ->)%in_signals_exec. apply signals_inv; [done|]. by eapply internal_keeps. }
  assert (Hb : forall a s s', internal_break a -> dinv s -> in_breaks a s = Some s' -> dinv s').
  { intros b y y' Hb I (x & Hx & ->)%in_breaks_exec. apply breaks_inv; [done| |].
    - by eapply break_exec_inv; [apply I|].
    - by eapply internal_breaks; [apply I| |]. }
  intros I. destruct a as [payload| |r|c| | |d r|c| | |i|]; cbn [delivery_exec]; try (by apply Hs); try (by apply Hb).
  - by apply signal_request_inv.
  - destruct (reading s); [|done]. cbn. destruct (requests_idle s) eqn:Hr; [|done]. by apply break_request_inv.
  - by apply request_turn_inv.
  - by apply exit_goes_on_inv.
  - destruct (in_signals Signals.AContextDone s) as [s1|] eqn:E; [|done]. intros H.
    apply (Hb Breaks.AContextDone s1); [done|by apply (Hs Signals.AContextDone s)|exact H].
Qed.

Lemma delivery_run_inv l s s' : dinv s -> delivery_run cfg l s = Some s' -> dinv s'.
Proof.
  revert s. induction l as [|a l IH]; cbn; intros s I H; [by simplify_eq|].
  destruct (delivery_exec cfg a s) as [s1|] eqn:E; [|done]. apply (IH s1); [by eapply delivery_exec_inv|done].
Qed.
End Preservation.

(** ** Requests are answered *)

Definition is_request (a : deliveryAction) : bool := match a with DSignal _ | DBreak => true | _ => false end.
Definition replied (l : list answer) : nat := length (List.filter (fun a => match a with AnReply _ => true | AnExit => false end) l).
Definition busy (s : delivery) : nat := if requests_idle s then 0 else 1.

#[local] Arguments replied l : simpl never.

Lemma replied_snoc l a : replied (l ++ [a]) = (replied l + match a with AnReply _ => 1 | AnExit => 0 end)%nat.
Proof. unfold replied. rewrite List.filter_app, length_app. by destruct a. Qed.

Lemma busy_parts s s' :
  Signals.request (signals_part s') = Signals.request (signals_part s) -> Breaks.request (breaks_part s') = Breaks.request (breaks_part s) ->
  busy s' = busy s.
Proof. unfold busy, requests_idle, signal_idle. by intros -> ->. Qed.

Lemma busy_not s : requests_idle s = true -> busy s = 0%nat.
Proof. unfold busy. by intros ->. Qed.

Lemma request_answered cfg a s s' :
  dinv s -> delivery_exec cfg a s = Some s' ->
  (replied (answers s') + busy s' = replied (answers s) + busy s + if is_request a then 1 else 0)%nat.
Proof.
  assert (Hs : forall a s s', internal a -> in_signals a s = Some s' -> (replied (answers s') + busy s' = replied (answers s) + busy s)%nat).
  { intros b y y' Hb (x & Hx & ->)%in_signals_exec. rewrite (busy_parts y); try done. by apply (internal_keeps _ _ _ Hb Hx). }
  assert (Hb : forall a s s', internal_break a -> dinv s -> in_breaks a s = Some s' -> (replied (answers s') + busy s' = replied (answers s) + busy s)%nat).
  { intros b y y' Hb I (x & Hx & ->)%in_breaks_exec. rewrite (busy_parts y); try done. by apply (internal_breaks _ _ _ (dv_breaks _ I) Hb Hx). }
  intros I. destruct a as [payload| |r|c| | |d r|c| | |i|]; cbn [delivery_exec is_request]; rewrite ?Nat.add_0_r;
    try (by apply Hs); try (by apply Hb).
  - unfold signal_request. destruct (reading s && requests_idle s) eqn:Hr; [|done]. apply andb_true_iff in Hr as [_ Hr].
    rewrite (busy_not _ Hr). destruct (existsb _ _); [done|]. cbn [negb andb].
    assert (Hrep : forall b go s', requests_idle s' = true -> answers s' = answers s ->
      (replied (answers (answer_request b go s')) + busy (answer_request b go s') = replied (answers s) + 0 + 1)%nat).
    { intros b go y Hy E. cbn. rewrite replied_snoc, E. change (busy (answer_request b go y)) with (busy y). rewrite (busy_not _ Hy). lia. }
    destruct (unmarshal1 cfg payload) as [sig|]; [|intros [= <-]; by apply Hrep].
    destruct (_ <? _); [intros [= <-]; by apply Hrep|]. pose proof Hr as [Hi%idle_spec Hq]%andb_true_iff. unfold handleSignal. rewrite Hi.
    destruct (Signals.exiting _); [intros [= <-]; by apply Hrep|]. destruct (Signals.sigCh _) as [[t i]|]; cbn.
    + intros [= <-]. unfold busy, requests_idle, signal_idle. cbn. lia.
    + intros H. assert (Hid : forall y, Signals.request y = Signals.RIdle -> requests_idle (set_signals_part y s) = true).
      { intros y Hy. unfold requests_idle, signal_idle. cbn. by rewrite Hy, Hq. }
      destruct (length _ <=? _)%nat; cbn in H; simplify_eq; apply Hrep; try done; by apply Hid.
  - destruct (reading s); [|done]. cbn [andb]. destruct (requests_idle s) eqn:Hr; [|done]. rewrite (busy_not _ Hr).
    intros (b & Hx & ->)%in_breaks_exec. cbn in Hx. unfold break_begin in Hx. destruct (_ && _); [|done]. simplify_eq.
    unfold busy, requests_idle. cbn. rewrite andb_false_r. lia.
  - unfold request_turn. destruct (signal_idle s) eqn:Hi.
    + destruct (Breaks.request_exec _ _) as [b|] eqn:Hx; [|done]. cbn. intros [= <-]. destruct (break_turn_same _ _ _ Hx) as (_ & _ & E).
      assert (Hnq : is_idle (Breaks.request (breaks_part s)) = false) by (unfold Breaks.request_exec in Hx; by destruct (Breaks.request _)).
      unfold busy, requests_idle. rewrite Hi, Hnq. destruct (Breaks.request (breaks_part s)); cbn; rewrite ?replied_snoc;
        unfold signal_idle in *; cbn; rewrite Hi, E; cbn; lia.
    + assert (Hn : Signals.request (signals_part s) <> Signals.RIdle) by (intros H%idle_spec; congruence).
      pose proof (dv_one _ I Hn) as Hq. pose proof (dv_selected _ I) as Hsel.
      destruct (Signals.request_exec _ _) as [x|] eqn:Hx; [|done]. cbn. intros [= <-].
      destruct (signal_turn_same _ _ _ Hx) as (_ & _ & _ & E). unfold busy, requests_idle. rewrite Hi.
      destruct (Signals.request (signals_part s)) as [|sig t i|sig t r'|]; [done| | |].
      * unfold signal_idle. cbn. by rewrite E.
      * unfold signal_idle. cbn. by rewrite E.
      * destruct Hsel as [o ->]. unfold signal_idle. cbn. rewrite replied_snoc, E, Hq. cbn. lia.
  - unfold exit_goes_on. destruct (exit_exec i _) as [b|] eqn:Hx; [|done]. cbn. destruct (exit_exec_shape _ _ _ Hx) as (x & Hi & E1 & _).
    rewrite Hi. destruct x; try (intros [= <-]; by rewrite (busy_parts s)).
    + destruct (_ && _); [|done]. intros [= <-]. by rewrite (busy_parts s).
    + destruct (Breaks.exited _); intros [= <-]; rewrite (busy_parts s); try done. cbn. rewrite replied_snoc. lia.
  - destruct (in_signals Signals.AContextDone s) as [s1|] eqn:E; [|done]. intros H.
    rewrite <- (Hs Signals.AContextDone s s1 ltac:(done) E). apply (Hb Breaks.AContextDone); [done| |exact H].
    apply in_signals_exec in E as (x & Hx & ->). apply signals_inv; [done|]. by apply (internal_keeps Signals.AContextDone).
Qed.

Lemma requests_answered cfg l s s' :
  dinv s -> delivery_run cfg l s = Some s' ->
  (replied (answers s') + busy s' = replied (answers s) + busy s + length (List.filter is_request l))%nat.
Proof.
  revert s. induction l as [|a l IH]; intros s I H; [cbn in *; simplify_eq; lia|]. cbn [delivery_run] in H.
  destruct (delivery_exec cfg a s) as [s1|] eqn:E; [|done]. rewrite (IH s1 (delivery_exec_inv cfg a s s1 I E) H), (request_answered cfg a s s1 I E).
  cbn [List.filter]. destruct (is_request a); cbn; lia.
Qed.


Definition sample_delivery_end : delivery :=
  Eval vm_compute in default delivery_init (delivery_run sample_delivery_config sample_delivery delivery_init).
Lemma sample_delivery_reach : delivery_run sample_delivery_config sample_delivery delivery_init = Some sample_delivery_end.
Proof. vm_compute. reflexivity. Qed.

