(* ===== verification/DeliveryRefines.v ===== *)
(** DeliveryRefines: the view that [Session] has of signals, breaks and exit
    statuses - a request is one turn of the loop, and what other goroutines do
    happens between two turns - covers every interleaving that [Delivery]
    allows. *)
From S2P Require Import Prelude Wire GoErrors ErrorDispatch Request Terminal Signals Breaks Session Delivery.
Local Open Scope Z_scope.
Local Open Scope list_scope.

(** What the client gets of the effects of a session. *)
Definition answer_of (e : sevent) : option answer :=
  match e with SReply b => Some (AnReply b) | SExitStatus _ => Some AnExit | _ => None end.
Definition answers_of (w : list sevent) : list answer := omap answer_of w.

Lemma answers_of_app w w' : answers_of (w ++ w') = answers_of w ++ answers_of w'.
Proof. apply omap_app. Qed.

Section Refinement.
Variable int_bits : Z.
Variable cfg : sessionConfig.
Abbreviation run := (session_run int_bits cfg).

(** The state of a session that has the parts of [d]; which channels are
    installed changes between two turns. *)
Record agrees (d : delivery) (s : session) : Prop := mkAgrees {
  ag_deferred : deferredState s = 0;
  ag_buffer : Session.sigBuf s = map String.list_byte_of_string (Signals.sigBuf (signals_part d));
  ag_exiting : Session.exiting s = Signals.exiting (signals_part d);
  ag_exited : Session.exited s = Breaks.exited (breaks_part d) }.

(** A request whose send is going on, or has been decided, counts as handled:
    with every result [r] that it can still have. *)
Definition still_possible (d : delivery) (r : sendOutcome) : Prop :=
  match Signals.request (signals_part d) with
  | Signals.RIdle =>
      match Breaks.request (breaks_part d) with
      | QIdle | QLocked | QSending _ _ => True
      | QSent _ x => fst (sendBreak x) = is_delivered r
      | QFinishing b | QReplying b => b = is_delivered r
      end
  | RSending _ _ _ => True
  | _ => selected d = Some r
  end.
Definition handled_request (d : delivery) (r : sendOutcome) : list answer :=
  match Signals.request (signals_part d), Breaks.request (breaks_part d) with
  | Signals.RIdle, (QIdle | QLocked) => []
  | _, _ => [AnReply (is_delivered r)]
  end.
Definition control_after (d : delivery) (r : sendOutcome) : control :=
  if reading d then
    match Signals.request (signals_part d) with
    | Signals.RIdle => Continue
    | _ => if goes_on r then Continue else Stop
    end
  else Stop.

Definition covered (d : delivery) : Prop :=
  forall r, still_possible d r -> exists s w,
    run s w (control_after d r) /\ answers_of w = answers d ++ handled_request d r /\ agrees d s.

(** Between two turns channels come and go. *)
Lemma channels_change s w c d b1 b2 :
  run s w c -> agrees d s -> exists s', run s' w c /\ agrees d s' /\ Session.sigCh s' = b1 /\ Session.breakCh s' = b2.
Proof.
  intros Hr [H1 H2 H3 H4]. exists (set_break (set_signals s b1 (Session.sigBuf s)) b2). split; [|by split].
  eapply run_interference; [|apply i_break]. eapply run_interference; [exact Hr|]. apply i_signals. by exists [].
Qed.

(** What the others do is interference. *)
Lemma signals_covered d x :
  dinv d -> others_keep (signals_part d) x -> covered d -> covered (set_signals_part x d).
Proof.
  intros I [H1 H2 _ H4] Hc r Hp. unfold still_possible in Hp. cbn in Hp. rewrite H1 in Hp. destruct (Hc r Hp) as (s & w & Hr & Ha & [G1 G2 G3 G4]).
  assert (exists s', run s' w (control_after d r) /\ agrees (set_signals_part x d) s') as (s' & Hr' & Hag).
  { destruct H4 as [E|[E|(l & Hl & E)]].
    - exists s. split; [done|]. split; cbn; rewrite ?E, ?H2; done.
    - exists (set_signals s (Session.sigCh s) []). split; [|by split; cbn; rewrite ?E, ?H2].
      eapply run_interference; [exact Hr|]. apply i_signals. exists (Session.sigBuf s). by rewrite app_nil_r.
    - exists (set_signals s (Session.sigCh s) (requeueSignals (map String.list_byte_of_string l) (Session.sigBuf s))).
      split; [|split; cbn; rewrite ?H2; try done].
      + eapply run_interference; [exact Hr|]. apply i_requeue. apply Forall_map. exact (Hl (dv_short _ I)).
      + rewrite E. unfold requeueSignals. rewrite G2, <- map_app. by rewrite <- firstn_map. }
  exists s', w. unfold control_after, handled_request. cbn. rewrite H1. by split_and!.
Qed.

Lemma breaks_covered d b :
  Breaks.request b = Breaks.request (breaks_part d) -> Breaks.exited b = Breaks.exited (breaks_part d) ->
  covered d -> covered (set_breaks_part b d).
Proof.
  intros H1 H2 Hc r Hp. unfold still_possible in Hp. cbn in Hp. rewrite H1 in Hp. destruct (Hc r Hp) as (s & w & Hr & Ha & [G1 G2 G3 G4]).
  exists s, w. unfold control_after, handled_request. cbn. rewrite H1. split_and!; try done. split; cbn; congruence.
Qed.

(** ** Turns *)

Definition turn_env (r : sendOutcome) : requestEnv := mkRequestEnv None false TimedOut false false r [].

Lemma signal_turn r payload s w :
  handleSessionRequest int_bits cfg (turn_env r) s (mkSessionRequest "signal" payload) w =
  handleSignalRequest cfg (turn_env r) s (mkSessionRequest "signal" payload) w.
Proof. reflexivity. Qed.
Lemma break_turn r s w :
  handleSessionRequest int_bits cfg (turn_env r) s (mkSessionRequest "break" []) w = handleBreak (turn_env r) s w.
Proof. reflexivity. Qed.

(** The state before a request. *)
Lemma before_request d :
  requests_idle d = true -> reading d = true -> covered d ->
  forall b1 b2, exists s w, run s w Continue /\ answers_of w = answers d /\ agrees d s /\ Session.sigCh s = b1 /\ Session.breakCh s = b2.
Proof.
  intros [Hi%idle_spec Hq]%andb_true_iff Hrd Hc b1 b2.
  assert (Breaks.request (breaks_part d) = QIdle) as Hq' by by destruct (Breaks.request _).
  destruct (Hc Delivered) as (s & w & Hr & Ha & Hag); [unfold still_possible; by rewrite Hi, Hq'|].
  unfold control_after, handled_request in *. rewrite Hrd, Hi, Hq' in *. rewrite app_nil_r in Ha.
  destruct (channels_change s w Continue d b1 b2 Hr Hag) as (s' & ? & ? & ? & ?). by exists s', w.
Qed.

(** A request that is answered at once. *)
Lemma answered_covered d d' s w b go :
  reading d = true -> requests_idle d' = true -> reading d' = go -> answers d' = answers d ++ [AnReply b] ->
  answers_of w = answers d -> run s (w ++ [SReply b]) (if go then Continue else Stop) -> agrees d' s -> covered d'.
Proof.
  intros Hrd [Hi%idle_spec Hq]%andb_true_iff Hgo Ha Hw Hr Hag r _.
  assert (Breaks.request (breaks_part d') = QIdle) as Hq' by by destruct (Breaks.request _).
  exists s, (w ++ [SReply b]). unfold control_after, handled_request. rewrite Hi, Hq', Hgo, app_nil_r. split; [by destruct go|].
  split; [|done]. by rewrite answers_of_app, Hw, Ha.
Qed.

Lemma signal_request_covered payload d d' : dinv d -> covered d -> signal_request cfg payload d = Some d' -> covered d'.
Proof.
  intros I Hc. unfold signal_request. destruct (reading d && requests_idle d) eqn:Hr; [|done]. apply andb_true_iff in Hr as [Hrd Hr].
  destruct (existsb _ _); [done|]. cbn [andb negb].
  destruct (before_request d Hr Hrd Hc (if Signals.sigCh (signals_part d) is Some _ then true else false) false) as (s & w & Hrun & Ha & Hag & Hch & _).
  assert (Hturn : forall r s' w' c, handleSignalRequest cfg (turn_env r) s (mkSessionRequest "signal" payload) w = (s', w', c) -> run s' w' c).
  { intros r s' w' c H. eapply run_request; [exact Hrun|by left|]. by rewrite signal_turn. }
  unfold handleSignalRequest, rejectRequest in Hturn. cbn [Payload sent turn_env] in Hturn.
  destruct (unmarshal1 cfg payload) as [sig|]; [|intros [= <-]; apply (answered_covered d _ s w false true); try done; [by apply (Hturn Delivered)|by destruct Hag]].
  destruct (_ <? _); [intros [= <-]; apply (answered_covered d _ s w false true); try done; [by apply (Hturn Delivered)|by destruct Hag]|].
  pose proof Hr as [Hi%idle_spec Hq]%andb_true_iff. unfold handleSignal. rewrite Hi. destruct Hag as [G1 G2 G3 G4]. rewrite G3, Hch in Hturn.
  destruct (Signals.exiting (signals_part d)) eqn:He.
  { intros [= <-]. apply (answered_covered d _ s w false false); try done; [by apply (Hturn Delivered)|]. split; cbn; congruence. }
  destruct (Signals.sigCh (signals_part d)) as [[t i]|]; cbn [negb] in Hturn.
  - intros [= <-] r _. unfold covered, control_after, handled_request. cbn. rewrite Hrd.
    pose proof (Hturn r _ _ _ eq_refl) as Ht.
    destruct r; (eexists _, _; split; [exact Ht|]; split; [by rewrite answers_of_app, Ha|]; split; cbn; congruence).
  - cbn. intros H. rewrite G2, length_map in Hturn.
    assert (Hlt : (Z.of_nat (length (Signals.sigBuf (signals_part d))) <? Session.maxSigBufSize) = (length (Signals.sigBuf (signals_part d)) <=? 127)%nat).
    { unfold Session.maxSigBufSize. destruct (Z.ltb_spec (Z.of_nat (length (Signals.sigBuf (signals_part d)))) 128);
        destruct (Nat.leb_spec (length (Signals.sigBuf (signals_part d))) 127); done || lia. }
    rewrite Hlt in Hturn.
    assert (Hid : forall y, Signals.request y = Signals.RIdle -> requests_idle (answer_request true true (set_signals_part y d)) = true).
    { intros y Hy. unfold requests_idle, signal_idle. cbn. by rewrite Hy, Hq. }
    destruct (length _ <=? _)%nat; cbn in H; simplify_eq; (eapply (answered_covered d _ _ w true true); [done|by apply Hid|done|done|done|by apply (Hturn Delivered)|]);
      (split; cbn; try congruence). rewrite map_app. cbn. by rewrite String.list_byte_of_string_of_list_byte.
Qed.

(** A request that is at hand is read by the loop. *)
Definition busy_reading (d : delivery) : Prop := requests_idle d = false -> reading d = true.

Lemma idle_request x d : Signals.request x = Signals.request (signals_part d) -> requests_idle (set_signals_part x d) = requests_idle d.
Proof. unfold requests_idle, signal_idle. cbn. by intros ->. Qed.

Lemma busy_reading_exec a d d' : dinv d -> busy_reading d -> delivery_exec cfg a d = Some d' -> busy_reading d'.
Proof.
  assert (Hs : forall a d d', internal a -> busy_reading d -> in_signals a d = Some d' -> busy_reading d').
  { intros b y y' Hb I (x & Hx & ->)%in_signals_exec. unfold busy_reading. rewrite idle_request; [done|]. by apply (internal_keeps b). }
  assert (Hb : forall a d d', internal_break a -> binv (breaks_part d) -> busy_reading d -> in_breaks a d = Some d' -> busy_reading d').
  { intros b y y' Hb I Hy (x & Hx & ->)%in_breaks_exec. unfold busy_reading, requests_idle in *. cbn.
    by rewrite (bk_request _ _ (internal_breaks _ _ _ I Hb Hx)). }
  intros I Hd. pose proof (dv_breaks _ I) as Hi. destruct a as [payload| |r|c| | |d0 r|c| | |i|]; cbn [delivery_exec]; try (by apply Hs); try (by apply Hb).
  - unfold signal_request. destruct (reading d && requests_idle d) eqn:Hr; [|done]. apply andb_true_iff in Hr as [Hrd Hr].
    destruct (existsb _ _); [done|]. cbn [negb andb]. destruct (unmarshal1 cfg payload); [|by intros [= <-]].
    destruct (_ <? _); [by intros [= <-]|]. destruct (handleSignal _ _) as [x|] eqn:Hx; [|done]. cbn. intros [= <-].
    destruct (Signals.exiting _) eqn:He; [|by destruct (Signals.sigCh _); intros ?]. intros H. unfold handleSignal in Hx. rewrite He in Hx.
    assert (x = signals_part d) as -> by (destruct (Signals.request (signals_part d)); congruence). unfold requests_idle, signal_idle in *. cbn in *. congruence.
  - destruct (reading d) eqn:Hrd; [|done]. destruct (_ && _); [|done]. intros (x & Hx & ->)%in_breaks_exec ?. done.
  - unfold request_turn. destruct (signal_idle d) eqn:Hidle.
    + destruct (Breaks.request_exec _ _) as [b|] eqn:Hx; [|done]. cbn. intros [= <-].
      assert (reading d = true) as Hrd; [|by destruct (Breaks.request (breaks_part d)); intros ?].
      apply Hd. unfold requests_idle. rewrite Hidle. unfold Breaks.request_exec in Hx. by destruct (Breaks.request _).
    + assert (reading d = true) as Hrd by (apply Hd; unfold requests_idle; by rewrite Hidle).
      assert (Hn : Signals.request (signals_part d) <> Signals.RIdle) by (intros H%idle_spec; congruence).
      pose proof (dv_one _ I Hn) as Hq. destruct (Signals.request_exec _ _) as [x|] eqn:Hx; [|done]. cbn. intros [= <-].
      destruct (signal_turn_same _ _ _ Hx) as (_ & _ & _ & E). destruct (Signals.request (signals_part d)); [done|by intros ?|by intros ?|].
      destruct (selected d); [|by intros ?]. unfold busy_reading, requests_idle, signal_idle. cbn. by rewrite E, Hq.
  - unfold exit_goes_on. destruct (exit_exec i _) as [b|] eqn:Hx; [|done]. cbn. destruct (exit_exec_shape _ _ _ Hx) as (x & Hx' & E1 & _).
    intros H. assert (reading d' = reading d /\ requests_idle d' = requests_idle d) as [E2 E3]; [|unfold busy_reading; by rewrite E2, E3].
    rewrite Hx' in H. clear -H E1. destruct x; repeat case_match; simplify_eq;
      (split; [done|]; unfold requests_idle, signal_idle; cbn; by rewrite E1).
Qed.

(** The send of a request. *)
Lemma request_turn_covered r d d' : dinv d -> busy_reading d -> covered d -> request_turn r d = Some d' -> covered d'.
Proof.
  intros I Hb Hc. unfold request_turn. destruct (signal_idle d) eqn:Hi.
  - assert (Hrd : Breaks.request (breaks_part d) <> QIdle -> reading d = true).
    { intros Hn. apply Hb. unfold requests_idle. rewrite Hi. by destruct (Breaks.request _). }
    apply idle_spec in Hi. destruct (Breaks.request_exec _ _) as [b|] eqn:Hx; [|done]. cbn. intros [= <-].
    destruct (break_turn_same _ _ _ Hx) as (E1 & _ & _). unfold Breaks.request_exec in Hx.
    assert (Hag : forall bo s, agrees d s -> agrees (answer_request bo true (set_breaks_part b d)) s /\ agrees (set_breaks_part b d) s)
      by (intros bo s []; split; split; cbn; congruence).
    unfold covered, still_possible, handled_request, control_after in *. rewrite Hi in Hc.
    destruct (Breaks.request (breaks_part d)) as [| |t i|t x|bo|bo] eqn:Hq; [done| | | | |]; rewrite (Hrd ltac:(done)) in Hc.
    + intros r' Hp. cbn in Hp. rewrite Hi in Hp. destruct (Hc r' Logic.I) as (s & w & Hr & Ha & Hs). cbn. rewrite Hi, (Hrd ltac:(done)).
      destruct (channels_change s w Continue d (Session.sigCh s) (if Breaks.breakCh (breaks_part d) is Some _ then true else false) Hr Hs)
        as (s1 & Hr1 & Hs1 & _ & Hch).
      assert (Hturn : forall s' w' c, handleBreak (turn_env r') s1 w = (s', w', c) -> run s' w' c).
      { intros s' w' c H. eapply run_request; [exact Hr1|by left|]. by rewrite break_turn. }
      unfold handleBreak in Hturn. rewrite Hch in Hturn. cbn [sent turn_env] in Hturn.
      assert (Hb' : Breaks.request b = match Breaks.breakCh (breaks_part d) with Some (t, i) => QSending t i | None => QReplying false end)
        by (destruct (Breaks.breakCh _) as [[t i]|]; by simplify_eq).
      rewrite Hb' in *. destruct (Breaks.breakCh (breaks_part d)) as [[t i]|].
      * pose proof (Hturn _ _ _ eq_refl) as Ht. exists (match r' with ChannelClosed => set_break s1 false | _ => s1 end), (w ++ [SReply (is_delivered r')]).
        split; [exact Ht|]. split; [by rewrite answers_of_app, Ha, app_nil_r|]. apply (Hag true). destruct Hs1. by destruct r'.
      * pose proof (Hturn _ _ _ eq_refl) as Ht. exists s1, (w ++ [SReply (is_delivered r')]). rewrite <- Hp.
        split; [exact Ht|]. split; [by rewrite answers_of_app, Ha, app_nil_r|]. by apply (Hag true).
    + destruct (Breaks.can_take _ _ _); [|done]. simplify_eq. intros r' Hp. cbn in *. rewrite Hi in *.
      destruct (Hc r' Logic.I) as (s & w & Hr & Ha & Hs). exists s, w. rewrite (Hrd ltac:(done)). split_and!; try done. by apply (Hag true).
    + intros r' Hp. cbn in Hp. rewrite Hi in Hp. assert (Hb' : Breaks.request b = QFinishing (fst (sendBreak x))).
      { destruct (sendBreak x) as [dl cl]. injection Hx as <-. destruct (Breaks.breakCh (breaks_part d)) as [[c j]|]; [by destruct (_ && _)|done]. }
      rewrite Hb' in Hp. destruct (Hc r' Hp) as (s & w & Hr & Ha & Hs). exists s, w. cbn. rewrite Hi, (Hrd ltac:(done)), Hb'.
      split_and!; try done. by apply (Hag true).
    + simplify_eq. intros r' Hp. cbn in *. rewrite Hi in *. destruct (Hc r' Hp) as (s & w & Hr & Ha & Hs). exists s, w.
      rewrite (Hrd ltac:(done)). split_and!; try done. by apply (Hag true).
    + simplify_eq. intros r' _. cbn. rewrite Hi. destruct (Hc (if bo then Delivered else Cancelled)) as (s & w & Hr & Ha & Hs); [by destruct bo|].
      exists s, w. split; [exact Hr|]. split; [rewrite Ha, app_nil_r; by destruct bo|]. by apply (Hag bo).
  - assert (Hrd : reading d = true) by (apply Hb; unfold requests_idle; by rewrite Hi).
    assert (Hn : Signals.request (signals_part d) <> Signals.RIdle) by (intros H%idle_spec; congruence).
    pose proof (dv_one _ I Hn) as Hq. pose proof (dv_selected _ I) as Hsel.
    destruct (Signals.request_exec _ _) as [x|] eqn:Hx; [|done]. cbn. intros [= <-]. destruct (signal_turn_same _ _ _ Hx) as (E1 & E2 & _ & E).
    assert (Hag : forall sel go l s, agrees d s -> agrees (mkDelivery x (breaks_part d) sel go l) s) by (intros sel go l s []; split; cbn; congruence).
    unfold covered, still_possible, handled_request, control_after in *. rewrite Hrd, ?Hq in *.
    destruct (Signals.request (signals_part d)) as [|sig t i|sig t r0|]; [done| | |].
    + cbn. rewrite E. intros r' [= <-]. destruct (Hc r Logic.I) as (s & w & Hr & Ha & Hs). exists s, w. split_and!; try done. by apply Hag.
    + cbn. rewrite E, Hrd. intros r' Hp. destruct (Hc r' Hp) as (s & w & Hr & Ha & Hs). exists s, w. split_and!; try done. by apply Hag.
    + destruct Hsel as [o Ho]. rewrite Ho. cbn. rewrite E, Hq. intros r' _. destruct (Hc o Ho) as (s & w & Hr & Ha & Hs). exists s, w.
      split; [by destruct o|]. split; [by rewrite Ha, app_nil_r|]. by apply Hag.
Qed.

(** [Exit]. *)
Lemma exit_covered i d d' : dinv d -> covered d -> exit_goes_on i d = Some d' -> covered d'.
Proof.
  intros I Hc. unfold exit_goes_on. destruct (exit_exec i (breaks_part d)) as [b|] eqn:Hx; [|done]. cbn.
  destruct (exit_exec_shape _ _ _ Hx) as (x & Hi & E1 & _ & E3 & _). rewrite Hi.
  destruct x; rewrite ?orb_false_r in E3; try (intros [= <-]; by apply breaks_covered).
  - intros [= <-] r Hp. unfold covered, still_possible, handled_request, control_after in *. cbn in *. rewrite E1 in *.
    destruct (Hc r Hp) as (s & w & Hr & Ha & [G1 G2 G3 G4]). exists (set_exiting s), w. split_and!; try done.
    + eapply run_interference; [exact Hr|]. constructor.
    + split; cbn; congruence.
  - destruct (_ && _); [|done]. intros [= <-]. by apply breaks_covered.
  - rewrite orb_true_r in E3. destruct (Breaks.exited (breaks_part d)) eqn:He; intros [= <-]; [by apply breaks_covered; rewrite ?He|].
    pose proof (dv_holding _ I ltac:(by exists i, XReplyLocked)) as Hsi. pose proof (bi_reply _ (dv_breaks _ I) _ Hi) as Hq.
    pose proof (dv_begun _ I ltac:(by exists i, XReplyLocked)) as Hex.
    intros r _. destruct (Hc Delivered) as (s & w & Hr & Ha & [G1 G2 G3 G4]); [unfold still_possible; by rewrite Hsi, Hq|].
    unfold handled_request, control_after in *. cbn. rewrite E1, Hsi, Hq in *. rewrite app_nil_r in Ha.
    exists (set_exited (set_exiting s)), ((w ++ [SExitStatus 0]) ++ [SCloseSession]). split_and!.
    + apply (run_exit int_bits cfg (mkExitEnv TimedOut None None) 0 (errors_Join [None; None]) s w _ _ _ Hr).
      unfold Exit. rewrite G1. cbn. rewrite G4, He. unfold session_Close. cbn. by rewrite G1.
    + by rewrite !answers_of_app, Ha.
    + split; cbn; congruence.
Qed.

Lemma delivery_exec_covered a d d' : dinv d -> busy_reading d -> covered d -> delivery_exec cfg a d = Some d' -> covered d'.
Proof.
  assert (Hs : forall a d d', internal a -> dinv d -> covered d -> in_signals a d = Some d' -> covered d').
  { intros b y y' Hb I Hc (x & Hx & ->)%in_signals_exec. apply signals_covered; [done| |done]. by apply (internal_keeps b). }
  assert (Hb : forall a d d', internal_break a -> binv (breaks_part d) -> covered d -> in_breaks a d = Some d' -> covered d').
  { intros b y y' Hb I Hc (x & Hx & ->)%in_breaks_exec. destruct (internal_breaks _ _ _ I Hb Hx). by apply breaks_covered. }
  intros I Hd Hc. pose proof (dv_breaks _ I) as Hi. destruct a as [payload| |r|c| | |d0 r|c| | |i|]; cbn [delivery_exec]; try (by apply Hs); try (by apply Hb).
  - by apply signal_request_covered.
  - destruct (reading d) eqn:Hrd; [|done]. destruct (requests_idle d) eqn:Hr; [|done]. cbn [andb]. intros (b & Hx & ->)%in_breaks_exec.
    cbn in Hx. unfold break_begin in Hx. destruct (_ && _); [|done]. simplify_eq. pose proof Hr as [Hsi%idle_spec Hq]%andb_true_iff.
    intros r _. destruct (before_request d Hr Hrd Hc false false) as (s & w & Hrun & Ha & [G1 G2 G3 G4] & _). exists s, w.
    unfold control_after, handled_request. cbn. rewrite Hsi, Hrd, app_nil_r. split_and!; try done.
  - by apply request_turn_covered.
  - by apply exit_covered.
  - destruct (in_signals Signals.AContextDone d) as [d1|] eqn:E; [|done]. intros H.
    pose proof (Hs Signals.AContextDone d d1 ltac:(done) I Hc E) as H1. apply in_signals_exec in E as (x & _ & ->).
    by apply (Hb Breaks.AContextDone (set_signals_part x d) d' Logic.I Hi H1 H).
Qed.

Lemma delivery_run_covered l d d' :
  dinv d -> busy_reading d -> covered d -> delivery_run cfg l d = Some d' -> covered d' /\ busy_reading d'.
Proof.
  revert d. induction l as [|a l IH]; cbn; intros d I Hb Hc H; [by simplify_eq|].
  destruct (delivery_exec cfg a d) as [d1|] eqn:E; [|done].
  apply (IH d1); [by eapply delivery_exec_inv|by eapply busy_reading_exec|by eapply delivery_exec_covered|done].
Qed.
End Refinement.

(** C21. The session's view of signals, breaks and exit statuses is right: for
    every interleaving there is a run of [Session], in which each request is
    one turn, that gives the client the same answers and exit status in the
    same order, with the request at hand, if it has got to its send, handled
    with a result that it still can have; between two requests that run buffers
    the same signals, knows as much about the exit, has the same channels
    installed, and its loop goes on exactly if that of the session does.  And
    each part goes on as it does on its own. *)
Theorem delivery_refines int_bits cfg l d :
  delivery_run cfg l delivery_init = Some d ->
  (exists ls, signal_run ls signals_init = Some (signals_part d)) /\
  (exists lb, break_run lb breaks_init = Some (breaks_part d)) /\
  (forall r, still_possible d r -> exists s w,
     session_run int_bits cfg s w (control_after d r) /\ answers_of w = answers d ++ handled_request d r) /\
  (requests_idle d = true -> exists s w,
     session_run int_bits cfg s w (if reading d then Continue else Stop) /\ answers_of w = answers d /\
     Session.sigBuf s = map String.list_byte_of_string (Signals.sigBuf (signals_part d)) /\
     Session.sigCh s = bool_decide (is_Some (Signals.sigCh (signals_part d))) /\
     Session.breakCh s = bool_decide (is_Some (Breaks.breakCh (breaks_part d))) /\
     Session.exiting s = Signals.exiting (signals_part d) /\ Session.exited s = Breaks.exited (breaks_part d)).
Proof.
  intros Hr. destruct (parts_run _ _ _ _ Hr) as [H1 H2].
  destruct (delivery_run_covered int_bits cfg l delivery_init d delivery_init_inv) as [Hc _]; [done| |done|].
  - intros r _. exists newSession, []. split; [constructor|]. by split.
  - split_and!; try done.
    + intros r Hp. destruct (Hc r Hp) as (s & w & ? & ? & _). by exists s, w.
    + intros [Hi%idle_spec Hq]%andb_true_iff. assert (Breaks.request (breaks_part d) = QIdle) as Hq' by by destruct (Breaks.request _).
      destruct (Hc Delivered) as (s & w & Hw & Ha & Hag); [unfold still_possible; by rewrite Hi, Hq'|].
      unfold control_after, handled_request in *. rewrite Hi, Hq', ?app_nil_r in *.
      destruct (channels_change int_bits cfg s w _ d (bool_decide (is_Some (Signals.sigCh (signals_part d))))
                  (bool_decide (is_Some (Breaks.breakCh (breaks_part d)))) Hw Hag) as (s' & Hw' & [G1 G2 G3 G4] & Hs & Hb).
      by exists s', w.
Qed.

Lemma delivery_refines_witness :
  requests_idle sample_delivery_end = true /\
  exists s w, session_run 64 sample_delivery_config s w Stop /\ answers_of w = answers sample_delivery_end /\ Session.exited s = true.
Proof.
  split; [reflexivity|].
  destruct (delivery_refines 64 sample_delivery_config sample_delivery sample_delivery_end sample_delivery_reach) as (_ & _ & _ & H).
  destruct (H eq_refl) as (s & w & Hr & Ha & _ & _ & _ & _ & He). exists s, w. split; [exact Hr|]. split; [exact Ha|exact He].
Defined.
