(* ===== verification/ForwardRequests.v ===== *)
(** ForwardRequests: the requests of [ForwardHandlers], which run without
    interruption there, are executions of the interleaved system of [Forward]:
    whatever forwards a connection already has and whatever their goroutines are
    doing, a handler that is not interrupted takes steps of that system and
    leaves the map and the forwards as it does there. *)
From S2P Require Import Prelude GoErrors Limiter Resources Context Forward Net ForwardHandlers.
Local Open Scope Z_scope.
Local Open Scope list_scope.

(** ** Executions *)

Definition fruns (x x' : fsystem) : Prop := exists l, forward_run l x = Some x'.

Lemma fruns_one a x x' : forward_exec a x = Some x' -> fruns x x'.
Proof. intros H. exists [a]. cbn. by rewrite H. Qed.

#[export] Instance fruns_preorder : PreOrder fruns.
Proof.
  split; [by exists []|]. intros x y z [l Hl] [k Hk]. exists (l ++ k). revert x Hl.
  induction l as [|a l IH]; cbn; intros x Hl; [by simplify_eq|]. destruct (forward_exec a x); [cbn in *; auto|done].
Qed.

(** No call of [f.close] is under way. *)
Definition settled_object (o : forward) : Prop := fw_stage o = NotClosed \/ fw_stage o = AllClosed.
Definition settle (o : forward) : forward := match fw_stage o with NotClosed => close_body o | _ => o end.

Lemma settle_settled o : settled_object o -> settled_object (settle o) /\ fw_key (settle o) = fw_key o /\ fw_stage (settle o) = AllClosed /\ fw_pending (settle o) = fw_pending o.
Proof. destruct o as [k c p st d l r]. intros [H|H]; cbn in H; subst; cbn; split_and!; try done; by right. Qed.

Lemma run_thread i t c x x' : threads x !! i = Some t -> thread_exec i t c x = Some x' -> fruns x x'.
Proof. intros Ht Hx. apply (fruns_one (Run i c)). cbn. by rewrite Ht. Qed.

(** A goroutine calls [f.close], and the call returns. *)
Lemma close_runs i t f o next x :
  threads x !! i = Some t -> objects x !! f = Some o -> settled_object o ->
  (forall y o', objects y !! f = Some o' -> thread_exec i t true y = in_close i f o' next y) ->
  fruns x (set_thread i next (set_object f (settle o) x)).
Proof.
  intros Ht Ho Hs Hx. pose proof (lookup_lt_Some _ _ _ Ho) as Hlt.
  assert (Hend : forall y o', threads y !! i = Some t -> objects y !! f = Some o' -> fw_stage o' = AllClosed -> fruns y (set_thread i next y)).
  { intros y o' Hy Ho' Hst. apply (run_thread _ _ true _ _ Hy). rewrite (Hx _ _ Ho'). unfold in_close. by rewrite Hst. }
  destruct o as [k c p st d l r]. destruct Hs as [Hs|Hs]; cbn in Hs; subst st.
  - set (at_stage st c d l r := set_object f (mkForward k c p st d l r) x).
    assert (Hat : forall st c d l r, objects (at_stage st c d l r) !! f = Some (mkForward k c p st d l r))
      by (intros; by apply list_lookup_insert_eq).
    assert (Hnext : forall st c d l r o', closeNext (mkForward k c p st d l r) = Some o' -> fruns (at_stage st c d l r) (set_object f o' x)).
    { intros st' c' d' l' r' o' Hc. apply (fruns_one (RunClose f)). cbn [forward_exec]. rewrite Hat. cbn [mbind option_bind]. rewrite Hc. cbn.
      unfold set_object. cbn. by rewrite list_insert_insert_eq. }
    transitivity (at_stage Marking c d l r).
    { apply (run_thread _ _ true _ _ Ht). by rewrite (Hx _ _ Ho). }
    transitivity (at_stage ClosingDone true d l r); [by apply Hnext|].
    transitivity (at_stage ClosingListener true (S d) l r); [by apply Hnext|].
    transitivity (at_stage Releasing true (S d) (S l) r); [by apply Hnext|].
    transitivity (at_stage AllClosed true (S d) (S l) (S r)); [by apply Hnext|].
    apply (Hend _ (mkForward k true p AllClosed (S d) (S l) (S r))); [done|apply Hat|done].
  - cbn. assert (set_object f (mkForward k c p AllClosed d l r) x = x) as ->
      by (destruct x; unfold set_object; cbn in *; by rewrite list_insert_id).
    by eapply Hend.
Qed.

(** A new goroutine that closes the forward. *)
Lemma closed_by_other f o x :
  objects x !! f = Some o -> settled_object o -> fruns x (add_thread (TClosed f) (set_object f (settle o) x)).
Proof.
  intros Ho Hs. transitivity (add_thread (TClosing f) x).
  - apply (fruns_one (CloseForward f)). cbn. by rewrite Ho.
  - pose proof (close_runs (length (threads x)) (TClosing f) f o (TClosed f) (add_thread (TClosing f) x)) as H.
    unfold set_thread, add_thread, set_object in *. cbn in *. rewrite insert_app_r_alt, Nat.sub_diag in H by lia. apply H; try done.
    + by rewrite lookup_app_r, Nat.sub_diag by lia.
    + intros y o' Hy. cbn. by rewrite Hy.
Qed.

(** ** The handlers *)

(** The map and the forwards are the same. *)
Record shared (s : handlerState) (x : fsystem) : Prop := mkShared {
  sh_forwards : forwards x = h_forwards s;
  sh_objects : objects x = h_objects s;
  sh_settled : Forall settled_object (h_objects s) }.

Section Requests.
Variable limiter : option resourceLimiter.
Variable resource : nat.

Lemma closeForward_shared f o s :
  h_objects s !! f = Some o -> settled_object o ->
  h_objects (closeForward limiter f s) = <[f := settle o]> (h_objects s) /\ h_forwards (closeForward limiter f s) = h_forwards s.
Proof.
  intros Ho Hs. unfold closeForward, settle. rewrite Ho. destruct (fw_stage o) eqn:E; cbn; try done; by rewrite list_insert_id.
Qed.

(** Only the registry and the counters change, unless the forward is closed. *)
Lemma finish_shared close s :
  (forall f, close = Some f -> exists o, h_objects s !! f = Some o /\ settled_object o) ->
  h_forwards (finish_acquisition limiter resource close s) = h_forwards s /\
  (h_objects (finish_acquisition limiter resource close s) = h_objects s \/
   exists f o, close = Some f /\ h_objects s !! f = Some o /\
     h_objects (finish_acquisition limiter resource close s) = <[f := settle o]> (h_objects s)).
Proof.
  intros Hc. unfold finish_acquisition. destruct (h_resources s) as [r|]; [|by split; [|left]].
  destruct (finish_insert _ _ r) as [[r1 registered] call].
  assert (Hset : forall y, h_forwards (match finish_done r1 with Some r => set_h_resources (Some r) y | None => set_h_panicked y end) = h_forwards y /\
    h_objects (match finish_done r1 with Some r => set_h_resources (Some r) y | None => set_h_panicked y end) = h_objects y) by (intros y; by destruct (finish_done r1)).
  destruct close as [f|]; [|destruct (Hset (set_h_resources (Some r1) s)) as [-> ->]; by split; [|left]].
  destruct (Hc f eq_refl) as (o & Ho & Hs). destruct call.
  - destruct (closeForward_shared f o (set_h_resources (Some r1) s) Ho Hs) as [E1 E2]. destruct (Hset (closeForward limiter f (set_h_resources (Some r1) s))) as [-> ->].
    rewrite E1, E2. split; [done|]. right. by exists f, o.
  - destruct (Hset (set_h_resources (Some r1) s)) as [-> ->]. by split; [|left].
Qed.

(** The goroutines of a request that has made a forward: its own, that of the
    worker, and one that closes the forward while it is being registered. *)
Definition request_goroutines (ok : bool) (f : nat) (new : list fthread) : Prop :=
  exists cl, (cl = [] \/ cl = [TClosed f]) /\ new = (if ok then TAccepted f :: cl ++ [TServing f] else TRejected f :: cl).

Section Registration.
Variable x : fsystem.
Let i := length (threads x).
Let f := length (objects x).

(** The system with the new forward and the goroutine of the request. *)
Definition mid (t : fthread) (cl : list fthread) (o : forward) (m : gmap forwardKey nat) : fsystem :=
  mkFSystem m (objects x ++ [o]) (threads x ++ t :: cl).

Lemma mid_thread t cl o m : threads (mid t cl o m) !! i = Some t.
Proof. apply list_lookup_middle. done. Qed.
Lemma mid_object t cl o m : objects (mid t cl o m) !! f = Some o.
Proof. apply list_lookup_middle. done. Qed.
Lemma mid_set_thread t t' cl o m : set_thread i t' (mid t cl o m) = mid t' cl o m.
Proof. unfold mid, set_thread. cbn. by rewrite insert_app_r_alt, Nat.sub_diag by (subst i; lia). Qed.
Lemma mid_set_object t cl o o' m : set_object f o' (mid t cl o m) = mid t cl o' m.
Proof. unfold mid, set_object. cbn. by rewrite insert_app_r_alt, Nat.sub_diag by (subst f; lia). Qed.
Lemma mid_add t u cl o m : add_thread u (mid t cl o m) = mid t (cl ++ [u]) o m.
Proof. unfold mid, add_thread. cbn. by rewrite <- app_assoc. Qed.

Lemma mid_step c t cl o m y z : thread_exec i t c (mid t cl o m) = Some y -> y = z -> fruns (mid t cl o m) z.
Proof. intros H <-. by eapply run_thread; [apply mid_thread|]. Qed.

Lemma mid_close t cl o m :
  settled_object o -> t = TDuplicate f \/ t = TUndoClose f -> fruns (mid t cl o m) (mid (TRejected f) cl (settle o) m).
Proof.
  intros Hs Ht. pose proof (close_runs i t f o (TRejected f) (mid t cl o m) (mid_thread _ _ _ _) (mid_object _ _ _ _) Hs) as H.
  rewrite mid_set_object, mid_set_thread in H. apply H. intros y o' Hy. by destruct Ht as [-> | ->]; cbn; rewrite Hy.
Qed.

(** The forward has been registered, or has been closed by a registry that no
    longer takes anything; its goroutine comes to the map next. *)
Record inserted (key : forwardKey) (s : handlerState) (o : forward) (cl : list fthread) : Prop := mkInserted {
  in_forwards : h_forwards s = forwards x;
  in_objects : h_objects s = objects x ++ [o];
  in_settled : settled_object o;
  in_key : fw_key o = key;
  in_closer : cl = [] \/ cl = [TClosed f];
  in_runs : fruns x (mid (TInsert f) cl o (forwards x)) }.

Lemma register_inserted key s :
  shared s x ->
  exists o cl, inserted key (finish_acquisition limiter resource (Some f) (set_h_objects (h_objects s ++ [newForward key]) s)) o cl.
Proof.
  intros [Hm Ho _]. set (s1 := set_h_objects _ s). assert (Hn : settled_object (newForward key)) by by left.
  assert (E1 : h_objects s1 = objects x ++ [newForward key]) by by rewrite Ho.
  destruct (finish_shared (Some f) s1) as [Hf2 Ho2].
  { intros g [= <-]. exists (newForward key). split; [|done]. rewrite E1. by apply list_lookup_middle. }
  set (s2 := finish_acquisition _ _ _ s1) in *. clearbody s2. assert (Hf : h_forwards s2 = forwards x) by by rewrite Hf2, Hm.
  assert (H1 : fruns x (mid (TInsert f) [] (newForward key) (forwards x))) by by apply (fruns_one (Register key)).
  destruct Ho2 as [E|(g & o & [= <-] & Hg & E)].
  - exists (newForward key), []. split; try done; [congruence|by left].
  - rewrite E1 in Hg. assert (o = newForward key) as -> by (rewrite list_lookup_middle in Hg by done; by simplify_eq).
    destruct (settle_settled _ Hn) as (Hs' & Hk' & _). exists (settle (newForward key)), [TClosed f]. split; try done; [|by right|].
    + rewrite E, E1. by rewrite insert_app_r_alt, Nat.sub_diag by (subst f; lia).
    + etrans; [exact H1|]. pose proof (closed_by_other f _ _ (mid_object (TInsert f) [] (newForward key) (forwards x)) Hn) as H2.
      by rewrite mid_set_object, mid_add in H2.
Qed.

Section Inserted.
Context {key : forwardKey} {s2 : handlerState} {o : forward} {cl : list fthread}.
Hypothesis In : inserted key s2 o cl.

(** The registered forward is closed: by a request that has found its key taken,
    or that has got no worker. *)
Lemma inserted_rejected t s3 :
  Forall settled_object (objects x) -> fruns x (mid t cl o (forwards x)) -> t = TDuplicate f \/ t = TUndoClose f ->
  h_forwards s3 = forwards x -> h_objects s3 = objects x ++ [o] ->
  exists x' new, fruns x x' /\ shared (closeForward limiter f s3) x' /\ threads x' = threads x ++ new /\ request_goroutines false f new.
Proof.
  intros Hall Hrun Ht Ef Eo. destruct In as [_ _ Hs _ Hcl _].
  destruct (closeForward_shared f o s3) as [E1 E2]; [rewrite Eo; by apply list_lookup_middle|done|].
  rewrite Eo, insert_app_r_alt, Nat.sub_diag in E1 by (unfold f; lia). cbn in E1.
  exists (mid (TRejected f) cl (settle o) (forwards x)), (TRejected f :: cl).
  split; [etrans; [exact Hrun|by apply mid_close]|]. split; [|split; [done|by exists cl]].
  split; [by rewrite E2, Ef|by rewrite E1|]. rewrite E1. apply Forall_app. split; [done|]. constructor; [by apply settle_settled|done].
Qed.

(** The turn at the map. *)
Lemma inserted_duplicate g : forwards x !! key = Some g -> fruns x (mid (TDuplicate f) cl o (forwards x)).
Proof.
  intros Hkey. etrans; [apply (in_runs _ _ _ _ In)|]. eapply (mid_step true); [|apply mid_set_thread].
  cbn [thread_exec thread_forward mbind option_bind]. rewrite mid_object. cbn [mbind option_bind].
  rewrite (in_key _ _ _ _ In). cbn [forwards mid]. by rewrite Hkey.
Qed.

Lemma inserted_start : forwards x !! key = None -> fruns x (mid (TStartWorker f) cl o (<[key := f]> (forwards x))).
Proof.
  intros Hkey. etrans; [apply (in_runs _ _ _ _ In)|]. eapply (mid_step true).
  - cbn [thread_exec thread_forward mbind option_bind]. rewrite mid_object. cbn [mbind option_bind].
    rewrite (in_key _ _ _ _ In). cbn [forwards mid]. rewrite Hkey. reflexivity.
  - unfold set_forwards. cbn [mid objects threads]. by rewrite <- (mid_set_thread (TInsert f)).
Qed.

(** A worker that is not started: the forward is taken out of the map again. *)
Lemma inserted_undo : forwards x !! key = None -> fruns x (mid (TUndoClose f) cl o (forwards x)).
Proof.
  intros Hkey. etrans; [by apply inserted_start|]. transitivity (mid (TUndoRemove f) cl o (<[key := f]> (forwards x))).
  { eapply (mid_step false); [|apply mid_set_thread]. cbn [thread_exec thread_forward mbind option_bind]. by rewrite mid_object. }
  eapply (mid_step true).
  - cbn [thread_exec thread_forward mbind option_bind]. rewrite mid_object. reflexivity.
  - unfold removeForward. cbn [forwards mid]. rewrite (in_key _ _ _ _ In), decide_True by apply lookup_insert_eq.
    rewrite delete_insert_id by done. apply (mid_set_thread (TUndoRemove f)).
Qed.

Lemma inserted_serves :
  forwards x !! key = None -> fruns x (mid (TAccepted f) (cl ++ [TServing f]) o (<[key := f]> (forwards x))).
Proof.
  intros Hkey. etrans; [by apply inserted_start|]. eapply (mid_step true).
  - cbn [thread_exec thread_forward mbind option_bind]. rewrite mid_object. reflexivity.
  - by rewrite mid_set_thread, mid_add.
Qed.
End Inserted.

Lemma unregister_same s : h_objects (unregister_resource resource s) = h_objects s /\ h_forwards (unregister_resource resource s) = h_forwards s.
Proof. unfold unregister_resource. by destruct (h_resources s). Qed.

Lemma start_worker_same g s : h_forwards (snd (start_worker g s)) = h_forwards s /\ h_objects (snd (start_worker g s)) = h_objects s.
Proof. unfold start_worker. destruct (h_workers s) as [w|]; [|done]. by destruct (goRun w). Qed.

Lemma register_runs key s :
  shared s x ->
  let '(ok, s') := register_forward limiter resource key s in
  exists x' new, fruns x x' /\ shared s' x' /\ threads x' = threads x ++ new /\ request_goroutines ok f new.
Proof.
  intros Hsh. pose proof Hsh as [Hm Ho Hs]. destruct (register_inserted key s Hsh) as (o & cl & I). unfold register_forward.
  rewrite <- Ho in *. fold f. set (s2 := finish_acquisition _ _ _ _) in *. clearbody s2.
  pose proof I as [Ef Eo Hset Hk Hcl _]. rewrite Ef. destruct (forwards x !! key) as [g|] eqn:Hkey.
  - destruct (unregister_same s2) as [E1 E2].
    apply (inserted_rejected I (TDuplicate f)); [done|by eapply inserted_duplicate|by left|congruence|congruence].
  - set (s3 := set_h_forwards _ s2). pose proof (start_worker_same f s3) as [E4 E5].
    destruct (start_worker f s3) as [[] s4]; cbn [snd] in E4, E5; cbn in E4, E5; rewrite Eo in E5.
    + exists (mid (TAccepted f) (cl ++ [TServing f]) o (<[key := f]> (forwards x))), (TAccepted f :: cl ++ [TServing f]).
      split; [by apply (inserted_serves I)|]. split; [|split; [done|by exists cl]].
      split; [by rewrite E4|by rewrite E5|]. rewrite E5. apply Forall_app. split; [done|by constructor].
    + destruct (unregister_same s4) as [E6 E7]. set (s5 := unregister_resource resource s4) in *. clearbody s5.
      assert (remove_forward key f s5 = set_h_forwards (forwards x) s5) as ->.
      { unfold remove_forward. rewrite E7, E4, decide_True by apply lookup_insert_eq. by rewrite delete_insert_id. }
      apply (inserted_rejected I (TUndoClose f)); [done|by apply (inserted_undo I)|by right|done|cbn; congruence].
Qed.
End Registration.

(** Of the map and the forwards nothing changes before the registration. *)
Definition same_forwards (s s' : handlerState) : Prop := h_forwards s' = h_forwards s /\ h_objects s' = h_objects s.

Lemma shared_same s s' x : same_forwards s s' -> shared s x -> shared s' x.
Proof. intros [H1 H2] []. split; by rewrite ?H1, ?H2. Qed.

Lemma same_trans s1 s2 s3 : same_forwards s1 s2 -> same_forwards s2 s3 -> same_forwards s1 s3.
Proof. intros [] []. split; congruence. Qed.

Lemma reserve_same s : same_forwards s (snd (reserve_slot limiter s)).
Proof. unfold reserve_slot. by destruct (arun _ _). Qed.
Lemma release_same s : same_forwards s (release_slot limiter s).
Proof. done. Qed.
Lemma begin_same s s' : begin_acquisition s = Some s' -> same_forwards s s'.
Proof. unfold begin_acquisition. intros. repeat case_match; by simplify_eq. Qed.
Lemma meanwhile_same b s : same_forwards s (meanwhile b s).
Proof. by destruct b. Qed.
Lemma abandon_same b s : same_forwards s (abandon limiter resource b s).
Proof.
  unfold abandon. eapply same_trans; [|apply release_same].
  set (s1 := if b then closeListener s else s). assert (same_forwards s s1) by (subst s1; by destruct b).
  eapply same_trans; [done|]. destruct (finish_shared None s1) as [H1 [H2|(f & o & ? & _)]]; done.
Qed.

(** What a request leaves running. *)
Inductive left_running (f : nat) : bool -> bool -> list fthread -> Prop :=
| lr_refused cancels : left_running f cancels false []
| lr_forward ok new : request_goroutines ok f new -> left_running f false ok new
| lr_not_found : left_running f true false [TNotFound]
| lr_cancelled g w : left_running f true true [TCancelled g w].

(** A state that the interleaved system can be in, after steps of [x]. *)
Definition continues (x : fsystem) (cancels accepted : bool) (s' : handlerState) : Prop :=
  exists x' new, fruns x x' /\ shared s' x' /\ threads x' = threads x ++ new /\ left_running (length (objects x)) cancels accepted new.

Lemma continues_refused c s x : shared s x -> continues x c false s.
Proof. intros H. exists x, []. split_and!; [done|done|by rewrite app_nil_r|constructor]. Qed.

Lemma continues_same c s s' x : same_forwards s s' -> shared s x -> continues x c false s'.
Proof. intros Hs H. apply continues_refused. by eapply shared_same. Qed.

Lemma continues_register key s x : shared s x -> let '(ok, s') := register_forward limiter resource key s in continues x false ok s'.
Proof.
  intros H. pose proof (register_runs x key s H) as Hr. destruct (register_forward _ _ _ _) as [ok s'].
  destruct Hr as (x' & new & ? & ? & ? & ?). exists x', new. split_and!; try done. by constructor.
Qed.

(** A cancellation: the forward is closed, and removed by the one that waits
    until no channel is being opened for it. *)
Lemma continues_cancel key (waits : bool) s x :
  fruns forward_init x -> shared s x ->
  (waits = true -> forall f o, h_forwards s !! key = Some f -> h_objects s !! f = Some o -> fw_pending o = 0) ->
  match h_forwards s !! key with
  | Some f => continues x true true (if waits then remove_forward key f (closeForward limiter f s) else closeForward limiter f s)
  | None => continues x true false s
  end.
Proof.
  intros [l Hx] Hsh Hpend. pose proof (fi_map _ (forward_run_finv _ _ _ finv_init Hx)) as Hmap. pose proof Hsh as [Hm Ho Hs].
  set (i := length (threads x)). set (at_thread t y := mkFSystem (forwards y) (objects y) (threads x ++ [t])).
  assert (Hat : forall t y, threads (at_thread t y) !! i = Some t) by (intros; by apply list_lookup_middle).
  assert (Hset : forall t t' y, set_thread i t' (at_thread t y) = at_thread t' y)
    by (intros; unfold at_thread, set_thread; cbn; by rewrite insert_app_r_alt, Nat.sub_diag by (subst i; lia)).
  assert (H0 : fruns x (at_thread (TCancel key waits) x)) by by apply (fruns_one (Cancel key waits)).
  destruct (h_forwards s !! key) as [f|] eqn:Hk; rewrite <- Hm in Hk.
  - destruct (Hmap _ _ Hk) as (o & Hf & Hko). rewrite Ho in Hf. assert (Hso : settled_object o) by (by eapply Forall_lookup_1).
    destruct (closeForward_shared f o s Hf Hso) as [E1 E2]. destruct (settle_settled o Hso) as (Hs' & Hk' & Hst & Hp).
    assert (Hall : Forall settled_object (<[f := settle o]> (h_objects s))) by by apply Forall_insert.
    set (y := set_object f (settle o) x).
    assert (H1 : forall next, next = (if waits then TCancelWait f else TCancelled f false) -> fruns x (at_thread next y)).
    { intros next ->. etrans; [exact H0|]. transitivity (at_thread (TCancelClose f waits) x).
      - eapply (run_thread i _ true); [apply Hat|]. cbn. rewrite Hk. by rewrite Hset.
      - pose proof (close_runs i (TCancelClose f waits) f o (if waits then TCancelWait f else TCancelled f false) (at_thread (TCancelClose f waits) x)) as H.
        rewrite <- Ho in Hf. specialize (H (Hat _ _) Hf Hso).
        change (set_object f (settle o) (at_thread (TCancelClose f waits) x)) with (at_thread (TCancelClose f waits) y) in H. rewrite Hset in H.
        apply H. intros z o' Hz. cbn. by rewrite Hz. }
    assert (Hfy : objects y !! f = Some (settle o)) by (apply list_lookup_insert_eq; rewrite Ho; by eapply lookup_lt_Some).
    destruct waits.
    + exists (at_thread (TCancelled f true) (set_forwards (delete key (forwards x)) y)), [TCancelled f true]. split; [|split].
      * etrans; [by apply H1|]. transitivity (at_thread (TCancelRemove f) y).
        -- eapply (run_thread i _ true); [apply Hat|]. cbn [thread_exec thread_forward mbind option_bind].
           change (objects (at_thread (TCancelWait f) y)) with (objects y). rewrite Hfy. cbn [mbind option_bind].
           rewrite Hp, (Hpend eq_refl f o) by (done || by rewrite <- Hm). cbn. by rewrite Hset.
        -- eapply (run_thread i _ true); [apply Hat|]. cbn [thread_exec thread_forward mbind option_bind].
           change (objects (at_thread (TCancelRemove f) y)) with (objects y). rewrite Hfy. cbn [mbind option_bind]. unfold removeForward.
           change (forwards (at_thread (TCancelRemove f) y)) with (forwards x). rewrite Hk', Hko, decide_True by done.
           change (set_forwards (delete key (forwards x)) (at_thread (TCancelRemove f) y)) with
             (at_thread (TCancelRemove f) (set_forwards (delete key (forwards x)) y)). by rewrite Hset.
      * unfold remove_forward. rewrite E2, <- Hm, decide_True by done. split; cbn; [done|by rewrite E1, Ho|by rewrite E1].
      * split; [done|apply lr_cancelled].
    + exists (at_thread (TCancelled f false) y), [TCancelled f false].
      split; [by apply H1|]. split; [split; cbn; [by rewrite E2|by rewrite E1, Ho|by rewrite E1]|split; [done|apply lr_cancelled]].
  - exists (at_thread TNotFound x), [TNotFound]. split; [|split; [|split; [done|apply lr_not_found]]].
    + etrans; [exact H0|]. eapply (run_thread i _ true); [apply Hat|]. cbn. rewrite Hk. by rewrite Hset.
    + by destruct Hsh.
Qed.
End Requests.

Definition is_accept (r : fwReply) : bool := match r with FwAccept _ => true | _ => false end.

(** Requests for a forward, up to [newForward]. *)
Lemma tcpip_forward_runs conn limiter resource closes callback listenCallback net_Listen payload s x :
  shared s x ->
  let '(reply, s') := tcpip_forward conn limiter resource closes callback listenCallback net_Listen payload s in continues x false (is_accept reply) s'.
Proof.
  intros Hsh. pose proof (fun s' H => continues_same false s s' x H Hsh) as Hsame. unfold tcpip_forward.
  destruct payload as [e|[addr port]]; [by apply Hsame|]. destruct callback as [cb|]; [|by apply Hsame].
  destruct (cb addr port) as [[] [e|]]; try by apply Hsame. pose proof (reserve_same limiter s) as H1.
  destruct (reserve_slot limiter s) as [ok s1]. cbn [snd] in H1. destruct ok; cbn [negb]; [|by apply Hsame].
  destruct (begin_acquisition s1) as [s2|] eqn:E2; [|apply Hsame; eapply same_trans; [exact H1|apply release_same]].
  assert (H3 : same_forwards s (meanwhile closes s2)) by (eapply same_trans; [exact H1|eapply same_trans; [by apply begin_same|apply meanwhile_same]]).
  set (s3 := meanwhile closes s2) in *. clearbody s3.
  assert (Hab : forall b, continues x false false (abandon limiter resource b s3)) by (intros b; apply Hsame; eapply same_trans; [exact H3|apply abandon_same]).
  destruct (match listenCallback with Some f => _ | None => _ end) as [[l|] [e|]]; try apply Hab.
  destruct (listener_port l) as [e|p]; [apply Hab|]. destruct (_ && _); [apply Hab|].
  pose proof (continues_register limiter resource (tcp_key conn addr p) s3 x (shared_same _ _ _ H3 Hsh)) as Hr.
  by destruct (register_forward _ _ _ _) as [[] s4].
Qed.

Lemma streamlocal_forward_runs conn limiter resource closes denied callback payload s x :
  shared s x ->
  let '(reply, s') := streamlocal_forward conn limiter resource closes denied callback payload s in continues x false (is_accept reply) s'.
Proof.
  intros Hsh. pose proof (fun s' H => continues_same false s s' x H Hsh) as Hsame. unfold streamlocal_forward.
  destruct payload as [e|path]; [by apply Hsame|]. destruct callback as [cb|]; [|by apply Hsame].
  destruct (h_forwards s !! _); [by apply Hsame|]. pose proof (reserve_same limiter s) as H1.
  destruct (reserve_slot limiter s) as [ok s1]. cbn [snd] in H1. destruct ok; cbn [negb]; [|by apply Hsame].
  destruct (begin_acquisition s1) as [s2|] eqn:E2; [|apply Hsame; eapply same_trans; [exact H1|apply release_same]].
  assert (H3 : same_forwards s (meanwhile closes s2)) by (eapply same_trans; [exact H1|eapply same_trans; [by apply begin_same|apply meanwhile_same]]).
  set (s3 := meanwhile closes s2) in *. clearbody s3.
  assert (Hab : forall b, continues x false false (abandon limiter resource b s3)) by (intros b; apply Hsame; eapply same_trans; [exact H3|apply abandon_same]).
  destruct (cb path) as [[l|] [e|]]; [destruct (errors_Is _ _); apply Hab| |destruct (errors_Is _ _); apply Hab|apply Hab].
  pose proof (continues_register limiter resource (mkForwardKey conn path) s3 x (shared_same _ _ _ H3 Hsh)) as Hr.
  by destruct (register_forward _ _ _ _) as [[] s4].
Qed.

(** ** The requests as executions *)

(** A request to either handler. *)
Inductive forward_request :=
| RqTCP (type : string) (payload : error + (string * Z))
| RqUnix (type : string) (payload : error + string).

Definition is_cancel (q : forward_request) : bool :=
  match q with
  | RqTCP type _ => bool_decide (type = "cancel-tcpip-forward")
  | RqUnix type _ => bool_decide (type = "cancel-streamlocal-forward@openssh.com")
  end.

Section Handling.
Variable limiter : option resourceLimiter.
Variable callback : option (string -> Z -> bool * option error).
Variable listenCallback : option (string -> Z -> option listener * option error).
Variable net_Listen : string -> option listener * option error.
Variable denied : error.
Variable unixCallback : option (string -> option listener * option error).

Definition HandleSSHRequest (q : forward_request) (nil_argument no_context : bool) (conn : option nat) (resource : nat) (closes : bool)
    : handlerState -> fwReply * handlerState :=
  match q with
  | RqTCP type payload =>
      tcp_HandleSSHRequest nil_argument no_context conn limiter resource closes callback listenCallback net_Listen type payload
  | RqUnix type payload => unix_HandleSSHRequest nil_argument no_context conn limiter resource closes denied unixCallback type payload
  end.
End Handling.

(** C11. The request handlers refine the interleaved system of forwards: whatever
    state the forwards of a handler have come to under whatever interleaving, a
    request that runs while no forward is being closed - and, if it is a
    cancellation that waits, while no channel is being opened for its forward -
    takes steps of that system, leaves the map and the forwards as they are
    there, and leaves running what they say: nothing if it is refused before
    it has a listener, the worker of its forward if it is accepted, and
    otherwise only goroutines that have returned. *)
Theorem requests_refine limiter callback listenCallback net_Listen denied unixCallback q nil_argument no_context conn resource closes s x :
  fruns forward_init x -> shared s x ->
  (forall payload, q = RqTCP "cancel-tcpip-forward" payload ->
     forall k f o, h_forwards s !! k = Some f -> h_objects s !! f = Some o -> fw_pending o = 0) ->
  let '(reply, s') := HandleSSHRequest limiter callback listenCallback net_Listen denied unixCallback q nil_argument no_context conn resource closes s in
  exists x' new, fruns forward_init x' /\ fruns x x' /\ shared s' x' /\ threads x' = threads x ++ new /\
    left_running (length (objects x)) (is_cancel q) (is_accept reply) new.
Proof.
  intros Hx Hsh Hp.
  enough (let '(reply, s') := HandleSSHRequest limiter callback listenCallback net_Listen denied unixCallback q nil_argument no_context conn resource closes s in
    continues x (is_cancel q) (is_accept reply) s') as H.
  { destruct (HandleSSHRequest _ _ _ _ _ _ _ _ _ _ _ _ _) as [reply s']. destruct H as (x' & new & Hr & H). exists x', new. split; [by etrans|done]. }
  pose proof (continues_refused (is_cancel q) s x Hsh) as Href.
  destruct q as [type payload|type payload]; cbn [HandleSSHRequest]; unfold tcp_HandleSSHRequest, unix_HandleSSHRequest, handle_request;
    (destruct nil_argument; [done|]); (destruct no_context; [done|]); (destruct conn as [conn|]; [|done]); case_bool_decide.
  - subst type. by apply tcpip_forward_runs.
  - case_bool_decide; [subst type|done]. unfold cancel_tcpip_forward. destruct payload as [e|[addr port]]; [done|].
    pose proof (continues_cancel limiter (tcp_key conn addr port) true s x Hx Hsh) as Hc. specialize (Hp _ eq_refl).
    specialize (Hc (fun _ f o Hf Ho => Hp _ f o Hf Ho)). by destruct (h_forwards s !! _).
  - subst type. by apply streamlocal_forward_runs.
  - case_bool_decide; [subst type|done]. unfold cancel_streamlocal_forward. destruct payload as [e|path]; [done|].
    pose proof (continues_cancel limiter (mkForwardKey conn path) false s x Hx Hsh ltac:(done)) as Hc.
    by destruct (h_forwards s !! _).
Qed.

(** A forward of a socket is granted, and cancelled. *)
Definition sample_unix_callback : option (string -> option listener * option error) := Some (fun _ => (Some (mkListener None), None)).
Definition sample_handle (q : forward_request) : handlerState -> fwReply * handlerState :=
  HandleSSHRequest None None None sample_net_Listen (ErrNew 900 "permission denied") sample_unix_callback q false false (Some 0%nat) 7 false.
Definition sample_request : forward_request := RqUnix "streamlocal-forward@openssh.com" (inr "/s"%string).
Definition sample_cancel : forward_request := RqUnix "cancel-streamlocal-forward@openssh.com" (inr "/s"%string).
Definition sample_granted : handlerState := Eval vm_compute in snd (sample_handle sample_request sample_handler_state).
Definition sample_closed_forward : handlerState := Eval vm_compute in snd (sample_handle sample_cancel sample_granted).

Lemma requests_refine_witness :
  exists x, fruns forward_init x /\ shared sample_closed_forward x /\ map fw_stage (objects x) = [AllClosed].
Proof.
  pose proof (requests_refine None None None sample_net_Listen (ErrNew 900 "permission denied") sample_unix_callback) as H.
  assert (H0 : shared sample_handler_state forward_init) by (split; [done..|constructor]).
  destruct (H sample_request false false (Some 0%nat) 7%nat false sample_handler_state forward_init (reflexivity _) H0 ltac:(done))
    as (x1 & n1 & Hx1 & _ & H1 & _).
  change (shared sample_granted x1) in H1.
  destruct (H sample_cancel false false (Some 0%nat) 7%nat false sample_granted x1 Hx1 H1 ltac:(done)) as (x2 & n2 & Hx2 & _ & H2 & _).
  change (shared sample_closed_forward x2) in H2.
  exists x2. split; [exact Hx2|]. split; [exact H2|]. by rewrite (sh_objects _ _ H2).
Defined.
