(* ===== verification/ForwardLedger.v ===== *)
(** ForwardLedger: all reverse forwards of a server.  Every connection reads its
    global requests in a loop ([handleRequests] in [server.go], see [Request]); the
    handlers of forwards ([ForwardHandlers]) keep one map each for all
    connections, take slots of the limits on forwards and register what they make
    with their connection.  The worker of a forward ends it ([tcpip.go],
    [streamlocal.go]), whoever holds [f.close] may call it, and a connection
    that ends closes what is registered ([closeAll] in [context.go]).

    An action here is a whole turn of a loop, a whole call of [f.close], or what
    the worker of a forward does at its end, once no channel is being opened for
    it; [Forward] interleaves their parts, and [ForwardRequests] relates the two.
    Each request comes with the answers that callbacks, the system and the client
    give while it is handled ([requestEnv]). *)
From S2P Require Import Prelude GoErrors ErrorDispatch Request Limiter Resources Context Forward Net ForwardHandlers ForwardRequests Settings Wiring.
Local Open Scope string_scope.
Local Open Scope Z_scope.
Local Open Scope list_scope.

(** ** State *)

Inductive fwKind := KTCP | KUnix.

(** A connection: what [closeAll] has taken from the registry and not yet closed,
    whether its loop goes on, and what it has written. *)
Record connPart := mkConnPart {
  cp_resources : connectionResources;
  cp_workers : connectionWorkers;
  cp_taken : gset nat;
  cp_running : bool;
  cp_events : list revent }.

(** The maps of the two handlers, the forwards and counters of the server and its
    connections.  A resource has the number of its forward.  [lg_obtained]
    counts the listeners that the handlers have been given. *)
Record ledger := mkLedger {
  lg_tcp : gmap forwardKey nat;
  lg_unix : gmap forwardKey nat;
  lg_objects : list forward;
  lg_counters : gmap nat Z;
  lg_serving : list nat;
  lg_listener_closes : nat;
  lg_panicked : bool;
  lg_conns : gmap nat connPart;
  lg_obtained : Z }.

Definition map_of (k : fwKind) (g : ledger) : gmap forwardKey nat := match k with KTCP => lg_tcp g | KUnix => lg_unix g end.

(** The state that the handler of one kind sees on a connection, and back. *)
Definition view (k : fwKind) (p : connPart) (g : ledger) : handlerState :=
  mkHandlerState (map_of k g) (lg_objects g) (lg_counters g) (Some (cp_resources p)) (Some (cp_workers p))
    (lg_serving g) (lg_listener_closes g) (lg_panicked g).

Definition write_back (k : fwKind) (s : handlerState) (g : ledger) : ledger :=
  mkLedger (match k with KTCP => h_forwards s | KUnix => lg_tcp g end) (match k with KUnix => h_forwards s | KTCP => lg_unix g end)
    (h_objects s) (h_counters s) (h_serving s) (h_listener_closes s) (h_panicked s) (lg_conns g) (lg_obtained g).

Definition set_conn (i : nat) (p : connPart) (g : ledger) : ledger :=
  mkLedger (lg_tcp g) (lg_unix g) (lg_objects g) (lg_counters g) (lg_serving g) (lg_listener_closes g) (lg_panicked g)
    (<[i := p]> (lg_conns g)) (lg_obtained g).

Definition add_obtained (n : Z) (g : ledger) : ledger :=
  mkLedger (lg_tcp g) (lg_unix g) (lg_objects g) (lg_counters g) (lg_serving g) (lg_listener_closes g) (lg_panicked g)
    (lg_conns g) (lg_obtained g + n).

(** The connection after a handler has run in its view: if the registry was
    closed meanwhile, [closeAll] has taken what was registered. *)
Definition after_handler (p : connPart) (s : handlerState) : connPart :=
  let r := default (cp_resources p) (h_resources s) in
  mkConnPart r (default (cp_workers p) (h_workers s))
    (if negb (closed (cp_resources p)) && closed r then cp_taken p ∪ resources (cp_resources p) else cp_taken p)
    (cp_running p) (cp_events p).

Definition set_loop (running : bool) (l : list revent) (p : connPart) : connPart :=
  mkConnPart (cp_resources p) (cp_workers p) (cp_taken p) running l.

Definition newConnection : connPart := mkConnPart emptyResources (mkWorkers false 0) ∅ true [].
Definition newLedger (counters : gmap nat Z) : ledger := mkLedger ∅ ∅ [] counters [] 0 false ∅ 0.

(** The world as one request finds it: what the callbacks, the system, the client's
    connection and the error handler answer while it is handled.  Another request
    may find other answers. *)
Record requestEnv := mkRequestEnv {
  env_callback : option (string -> Z -> bool * option error);
  env_listenCallback : option (string -> Z -> option listener * option error);
  env_net_Listen : string -> option listener * option error;
  env_unixCallback : option (string -> option listener * option error);
  env_reply : bool -> string -> option error;
  env_errorHandler : option ErrorHandler }.

Section Ledger.
Variable limiter : nat -> option resourceLimiter.     (* of the forwards of a connection *)
Variable denied : error.
Variable registered : string -> option fwKind.        (* the RequestHandlers of the server *)
Variable ctx : dispatchContext.
(* gossh.Unmarshal and gossh.Marshal of the payloads *)
Variable unmarshal_bind : string -> error + (string * Z).
Variable unmarshal_path : string -> error + string.
Variable marshal_port : Z -> string.

(** ** One global request *)

(** What a handler ends with: its last call, whose error it returns. *)
Definition forward_program (r : fwReply) : requestProgram :=
  match r with
  | FwAccept port => QAccept (match port with Some port => marshal_port port | None => "" end) QReturn
  | FwReject message => QReject message QReturn
  | FwError err => QReturn (Some err)
  end.

Definition parse (k : fwKind) (t payload : string) : forward_request :=
  match k with KTCP => RqTCP t (unmarshal_bind payload) | KUnix => RqUnix t (unmarshal_path payload) end.

Definition run_handler_of (env : requestEnv) (k : fwKind) (i : nat) (t payload : string) (closes : bool) (s : handlerState) : fwReply * handlerState :=
  HandleSSHRequest (limiter i) (env_callback env) (env_listenCallback env) (env_net_Listen env) denied (env_unixCallback env)
    (parse k t payload) false false (Some i) (length (h_objects s)) closes s.

(** The listeners that the handler is given and has to close. *)
Definition obtained (env : requestEnv) (k : fwKind) (i : nat) (t payload : string) (s : handlerState) : Z :=
  match k with
  | KTCP => if bool_decide (t = "tcpip-forward")
            then obtained_listener (tcp_listen (limiter i) (env_callback env) (env_listenCallback env) (env_net_Listen env) (unmarshal_bind payload) s) else 0
  | KUnix => if bool_decide (t = "streamlocal-forward@openssh.com")
             then owned_listener (unix_listen i (limiter i) (env_unixCallback env) (unmarshal_path payload) s) else 0
  end.

(** What a request asks for: the key of the forward and the port of the reply. *)
Definition asks (k : fwKind) (i : nat) (t payload : string) (key : forwardKey) (port : option Z) : Prop :=
  match k with
  | KTCP => t = "tcpip-forward" /\ exists addr asked bound,
      unmarshal_bind payload = inr (addr, asked) /\ key = tcp_key i addr bound /\ port = Some bound /\ (asked = 0 \/ bound = asked)
  | KUnix => t = "streamlocal-forward@openssh.com" /\ exists path,
      unmarshal_path payload = inr path /\ key = mkForwardKey i path /\ port = None
  end.

(** The key that a request asks to cancel. *)
Definition cancels (k : fwKind) (i : nat) (t payload : string) (key : forwardKey) : Prop :=
  match k with
  | KTCP => t = "cancel-tcpip-forward" /\ exists addr port, unmarshal_bind payload = inr (addr, port) /\ key = tcp_key i addr port
  | KUnix => t = "cancel-streamlocal-forward@openssh.com" /\ exists path, unmarshal_path payload = inr path /\ key = mkForwardKey i path
  end.

Definition handler_for (t : string) : option fwKind :=
  match registered t with Some k => Some k | None => registered "default" end.

Definition request_turn (i : nat) (env : requestEnv) (t : string) (want : bool) (payload : string) (closes : bool) (p : connPart) (g : ledger) : ledger :=
  match handler_for t with
  | None =>
      let '(ok, w) := handleRequest (env_reply env) ctx (env_errorHandler env) None want (cp_events p) in
      set_conn i (set_loop ok (revents w) p) g
  | Some k =>
      let '(r, s) := run_handler_of env k i t payload closes (view k p g) in
      let '(ok, w) := handleRequest (env_reply env) ctx (env_errorHandler env) (Some (forward_program r)) want (cp_events p) in
      set_conn i (set_loop ok (revents w) (after_handler p s))
        (add_obtained (obtained env k i t payload (view k p g)) (write_back k s g))
  end.

(** ** Everything that happens *)

Inductive ledgerAction :=
| LConnect (i : nat)
| LRequest (i : nat) (env : requestEnv) (t : string) (want : bool) (payload : string) (closes : bool)
| LClose (f : nat)               (* a call of f.close *)
| LEnd (f : nat)                 (* the deferred functions of the worker of a forward *)
| LCloseAll (i : nat)
| LTaken (i f : nat).            (* closeAll closes a resource *)

(** [f.close], with the limiter that the forward was made with. *)
Definition close_forward (f : nat) (o : forward) (p : connPart) (g : ledger) : ledger :=
  write_back KTCP (closeForward (limiter (key_conn (fw_key o))) f (view KTCP p g)) g.

(** [if h.forwards[key] == f { delete(h.forwards, key) }], in the map it is in. *)
Definition remove_entry (f : nat) (o : forward) (p : connPart) (g : ledger) : ledger :=
  let g := write_back KTCP (remove_forward (fw_key o) f (view KTCP p g)) g in
  write_back KUnix (remove_forward (fw_key o) f (view KUnix p g)) g.

Definition ledger_exec (a : ledgerAction) (g : ledger) : option ledger :=
  match a with
  | LConnect i => match lg_conns g !! i with Some _ => None | None => Some (set_conn i newConnection g) end
  | LRequest i env t want payload closes =>
      p ← lg_conns g !! i;
      if cp_running p then Some (request_turn i env t want payload closes p g) else None
  | LClose f =>
      o ← lg_objects g !! f;
      p ← lg_conns g !! key_conn (fw_key o);
      Some (close_forward f o p g)
  | LEnd f =>
      o ← lg_objects g !! f;
      p ← lg_conns g !! key_conn (fw_key o);
      let g := remove_entry f o p (close_forward f o p g) in
      Some (set_conn (key_conn (fw_key o)) (after_handler p (unregister_resource f (view KTCP p g))) g)
  | LCloseAll i =>
      p ← lg_conns g !! i;
      Some (set_conn i (after_handler p (meanwhile true (view KTCP p g))) g)
  | LTaken i f =>
      p ← lg_conns g !! i;
      if bool_decide (f ∈ cp_taken p) then
        o ← lg_objects g !! f;
        let g := close_forward f o p g in
        Some (set_conn i (mkConnPart (cp_resources p) (cp_workers p) (cp_taken p ∖ {[f]}) (cp_running p) (cp_events p)) g)
      else None
  end.

Fixpoint ledger_run (l : list ledgerAction) (g : ledger) : option ledger :=
  match l with
  | [] => Some g
  | a :: l => g ← ledger_exec a g; ledger_run l g
  end.
End Ledger.

(** ** The books *)

#[local] Arguments sumZ {A} f l : simpl never.

Definition live (o : forward) : bool := match fw_stage o with NotClosed => true | _ => false end.
Definition lives (l : list forward) : Z := sumZ (fun o => if live o then 1 else 0) l.

(** The registry of the connection has the forward, or [closeAll] will close it. *)
Definition covers (p : connPart) (f : nat) : Prop :=
  if closed (cp_resources p) then f ∈ cp_taken p else f ∈ resources (cp_resources p).

(** The connection of each forward. *)
Definition owners (l : list forward) : list nat := map (fun o => key_conn (fw_key o)) l.

Definition closed_listeners (g : ledger) : Z :=
  Z.of_nat (lg_listener_closes g) + sumZ (fun o => Z.of_nat (fw_listener_closes o)) (lg_objects g).

Record conn_ok (i : nat) (own : list nat) (p : connPart) : Prop := mkConnOk {
  co_pending : pendingAcquisitions (cp_resources p) = 0;
  co_resources : forall f, f ∈ resources (cp_resources p) -> own !! f = Some i;
  co_taken : forall f, f ∈ cp_taken p -> own !! f = Some i;
  co_open : closed (cp_resources p) = false ->
            acquisitionsDrained (cp_resources p) = false /\ drainedClosed (cp_resources p) = false }.

Section Books.
Variable limiter : nat -> option resourceLimiter.
Variable counters0 : gmap nat Z.
Variable lim : nat -> Z.                       (* the limit of each counter *)
Hypothesis Hlimiter : forall i, limiter_ok (limiter i).
Hypothesis Hlim : forall i l, limiter i = Some l -> respects lim l.

Definition slots_of (i : nat) : list nat := limiter_counters (limiter i).
(** What a forward has of a counter. *)
Definition charge (c : nat) (o : forward) : Z := if live o then cnt c (slots_of (key_conn (fw_key o))) else 0.

Record ledger_ok (g : ledger) : Prop := mkLedgerOk {
  lo_objects : Forall (fun o => (fw_stage o = NotClosed /\ fw_listener_closes o = 0%nat) \/ closed_forward o) (lg_objects g);
  lo_counters : forall c, load (lg_counters g) c = load counters0 c + sumZ (charge c) (lg_objects g);
  lo_bound : forall c, load (lg_counters g) c <= Z.max (load counters0 c) (lim c);
  lo_obtained : lg_obtained g = Z.of_nat (lg_listener_closes g) + Z.of_nat (length (lg_objects g));
  lo_map : forall k key f, map_of k g !! key = Some f -> exists o, lg_objects g !! f = Some o /\ fw_key o = key;
  lo_live : forall f o, lg_objects g !! f = Some o -> live o = true ->
    (exists k, map_of k g !! fw_key o = Some f) /\ exists p, lg_conns g !! key_conn (fw_key o) = Some p /\ covers p f;
  lo_conns : forall i p, lg_conns g !! i = Some p -> conn_ok i (owners (lg_objects g)) p;
  lo_panicked : lg_panicked g = false }.

Lemma newLedger_ok : ledger_ok (newLedger counters0).
Proof using Type. split; try done; [intros c; unfold sumZ; cbn; lia|intros c; cbn; lia|by intros []]. Qed.

Lemma view_ok k p g i : ledger_ok g -> lg_conns g !! i = Some p -> handler_ok (length (lg_objects g)) (view k p g).
Proof using Type.
  intros Hg Hp. destruct (lo_conns g Hg i p Hp) as [Hpend Hres _ Hopen]. split; [by apply Hg|]. cbn. rewrite Hpend.
  split_and!; [done| |done]. intros H%Hres%lookup_lt_Some. unfold owners in H. rewrite length_map in H. lia.
Qed.

(** A connection whose registry and taken resources cover what they did. *)
Lemma set_conn_ok i p p' g :
  ledger_ok g -> lg_conns g !! i = Some p -> conn_ok i (owners (lg_objects g)) p' ->
  (forall f o, lg_objects g !! f = Some o -> live o = true -> covers p f -> covers p' f) -> ledger_ok (set_conn i p' g).
Proof using Type.
  intros [] Hp Hok Hc. split; try done; cbn.
  - intros f o Ho Hl. destruct (lo_live0 f o Ho Hl) as (Hm & p1 & Hp1 & Hc1). split; [done|].
    destruct (decide (key_conn (fw_key o) = i)) as [<-|Hi].
    + rewrite lookup_insert_eq. exists p'. split; [done|]. apply (Hc f o Ho Hl). congruence.
    + rewrite lookup_insert_ne by done. by exists p1.
  - intros j q [[<- <-]|[_ Hj]]%lookup_insert_Some; [done|by eapply lo_conns0].
Qed.

Lemma connect_ok i g : ledger_ok g -> lg_conns g !! i = None -> ledger_ok (set_conn i newConnection g).
Proof using Type.
  intros [] Hi. split; try done; cbn.
  - intros f o Ho Hl. destruct (lo_live0 f o Ho Hl) as (Hm & p1 & Hp1 & Hc1). split; [done|].
    rewrite lookup_insert_ne by congruence. by exists p1.
  - intros j q [[<- <-]|[_ Hj]]%lookup_insert_Some; [by split|by eapply lo_conns0].
Qed.

(** ** Closing *)

Lemma charge_closed c o : live o = false -> charge c o = 0.
Proof using Type. unfold charge. by intros ->. Qed.

Lemma charge_nonneg c o : 0 <= charge c o.
Proof using Type. unfold charge. destruct (live o); [apply cnt_nonneg|done]. Qed.

(** [f.close]: of the state of a handler only the forward and the counters change. *)
Lemma closeForward_books k p f o g :
  ledger_ok g -> lg_objects g !! f = Some o ->
  let s := closeForward (limiter (key_conn (fw_key o))) f (view k p g) in
  exists o' cs, s = set_h_counters cs (set_h_objects (<[f := o']> (lg_objects g)) (view k p g)) /\
    fw_key o' = fw_key o /\ closed_forward o' /\ forall c, load cs c = load (lg_counters g) c - charge c o.
Proof using Hlimiter.
  intros Hg Ho. pose proof (proj1 (Forall_lookup _ _) (lo_objects g Hg) f o Ho) as Hs. cbn zeta.
  destruct Hs as [[Hs Hl]|[Hs Hl]].
  - destruct (closeForward_open _ (Hlimiter (key_conn (fw_key o))) f o (view k p g) Ho Hs) as (cs & -> & Hc).
    exists (close_body o), cs. destruct o as [key c p0 st d l r]. cbn in Hs, Hl. subst. cbn. split_and!; try done.
  - exists o, (lg_counters g). unfold closeForward. cbn [view h_objects]. rewrite Ho, Hs. split_and!; try done.
    + unfold set_h_counters, set_h_objects, view. cbn. by rewrite list_insert_id.
    + intros c. rewrite charge_closed by (unfold live; by rewrite Hs). lia.
Qed.

Lemma owners_insert f o o' l : l !! f = Some o -> fw_key o' = fw_key o -> owners (<[f := o']> l) = owners l.
Proof using Type.
  intros Ho Hk. unfold owners. rewrite <- (list_insert_id _ _ _ Ho) at 2. rewrite !(list_fmap_insert (fun o => key_conn (fw_key o))). by rewrite Hk.
Qed.

(** A forward that is replaced by one that is closed, in the books. *)
Lemma replace_ok f o o' cs g g' :
  ledger_ok g -> lg_objects g !! f = Some o -> fw_key o' = fw_key o -> closed_forward o' ->
  (forall c, load cs c = load (lg_counters g) c - charge c o) ->
  g' = mkLedger (lg_tcp g) (lg_unix g) (<[f := o']> (lg_objects g)) cs (lg_serving g) (lg_listener_closes g) (lg_panicked g)
         (lg_conns g) (lg_obtained g) -> ledger_ok g'.
Proof using Type.
  intros [] Ho Hk Hcl Hc ->. assert (Hdead : live o' = false) by (unfold live; by destruct Hcl as [-> _]).
  split; try done; cbn.
  - apply Forall_insert; [done|by right].
  - intros c. rewrite Hc, lo_counters0, (sumZ_insert _ _ _ _ _ Ho), (charge_closed c o' Hdead). lia.
  - intros c. rewrite Hc. specialize (lo_bound0 c). pose proof (charge_nonneg c o). lia.
  - by rewrite length_insert.
  - intros k key x Hx. destruct (lo_map0 k key x Hx) as (y & Hy & Hky). destruct (decide (x = f)) as [->|Hn].
    + exists o'. rewrite list_lookup_insert_eq by by eapply lookup_lt_Some. split; [done|]. congruence.
    + exists y. by rewrite list_lookup_insert_ne.
  - intros x y Hy Hl. destruct (decide (x = f)) as [->|Hn].
    + rewrite list_lookup_insert_eq in Hy by by eapply lookup_lt_Some. congruence.
    + rewrite list_lookup_insert_ne in Hy by done. by apply lo_live0.
  - intros i p Hp. rewrite owners_insert with (o := o); [by apply lo_conns0|done..].
Qed.

Definition settles (f : nat) (g g' : ledger) : Prop :=
  (forall o, lg_objects g' !! f = Some o -> live o = false) /\ lg_conns g' = lg_conns g /\
  (forall k, map_of k g' = map_of k g) /\ length (lg_objects g') = length (lg_objects g) /\
  (forall x, x <> f -> lg_objects g' !! x = lg_objects g !! x).

Lemma closed_dead o : closed_forward o -> live o = false.
Proof using Type. unfold live. by intros [-> _]. Qed.

Lemma close_ok k f o p g :
  ledger_ok g -> lg_objects g !! f = Some o ->
  let g' := write_back k (closeForward (limiter (key_conn (fw_key o))) f (view k p g)) g in
  ledger_ok g' /\ settles f g g' /\ exists o', lg_objects g' !! f = Some o' /\ fw_key o' = fw_key o.
Proof using Hlimiter.
  intros Hg Ho. destruct (closeForward_books k p f o g Hg Ho) as (o' & cs & -> & Hk & Hcl & Hc). cbv zeta.
  assert (Hin : <[f:=o']> (lg_objects g) !! f = Some o') by by apply list_lookup_insert_eq, (lookup_lt_Some _ _ _ Ho).
  split_and!.
  - apply (replace_ok f o o' cs g); try done. unfold write_back, map_of. by destruct k, g.
  - split_and!; cbn.
    + intros y Hy. assert (y = o') as -> by congruence. by apply closed_dead.
    + done.
    + by intros []; destruct k.
    + by rewrite length_insert.
    + intros x Hx. by apply list_lookup_insert_ne.
  - exists o'. split; [|done]. by destruct k.
Qed.

Lemma write_back_objects k p g m :
  ledger_ok g -> (forall key f, m !! key = Some f -> map_of k g !! key = Some f) ->
  (forall f o, lg_objects g !! f = Some o -> live o = true -> map_of k g !! fw_key o = Some f -> m !! fw_key o = Some f) ->
  ledger_ok (write_back k (set_h_forwards m (view k p g)) g).
Proof using Type.
  intros [] Hm Hl. split; try done; cbn.
  - intros k' key f Hf. apply (lo_map0 k'). destruct k, k'; cbn in *; auto.
  - intros f o Ho Hlo. destruct (lo_live0 f o Ho Hlo) as ((k' & Hk') & Hp). split; [|done]. exists k'.
    destruct k, k'; cbn in *; auto.
Qed.

(** An entry of a forward that is closed is taken out. *)
Lemma remove_ok k f key p g :
  ledger_ok g -> (forall o, lg_objects g !! f = Some o -> live o = false) ->
  ledger_ok (write_back k (remove_forward key f (view k p g)) g).
Proof using Type.
  intros Hg Hf. unfold remove_forward. case_decide as Hd.
  - apply (write_back_objects k p g (delete key (map_of k g)) Hg).
    + intros key' x H. apply lookup_delete_Some in H. tauto.
    + intros x o Ho Hlo Hx. rewrite lookup_delete_ne; [done|]. intros ->. cbn in Hd.
      assert (x = f) as -> by congruence. by rewrite (Hf o Ho) in Hlo.
  - replace (write_back k (view k p g) g) with g; [done|]. by destruct k, g.
Qed.

(** ** What a handler does *)
Section Handler.
Variable denied : error.
Variable unmarshal_bind : string -> error + (string * Z).
Variable unmarshal_path : string -> error + string.

#[local] Abbreviation run_handler_of := (run_handler_of limiter denied unmarshal_bind unmarshal_path).
#[local] Abbreviation obtained := (obtained limiter unmarshal_bind unmarshal_path).
#[local] Abbreviation asks := (asks unmarshal_bind unmarshal_path).
#[local] Abbreviation cancels := (cancels unmarshal_bind unmarshal_path).

(** The ways a handler ends. *)
Inductive handler_end (k : fwKind) (i : nat) (t payload : string) (n : Z) (s : handlerState) : fwReply -> handlerState -> Prop :=
| he_granted key port s' :
    asks k i t payload key port -> n = 1 -> slot_room (limiter i) (h_counters s) = true ->
    granted (limiter i) (length (h_objects s)) key s s' -> handler_end k i t payload n s (FwAccept port) s'
| he_undone r s' :
    is_accept r = false -> undone n s s' -> (forall key, cancels k i t payload key -> h_forwards s !! key = None) ->
    handler_end k i t payload n s r s'
| he_cancelled f key s' :
    cancels k i t payload key -> h_forwards s !! key = Some f -> n = 0 ->
    s' = match k with
         | KTCP => remove_forward key f (closeForward (limiter i) f s)
         | KUnix => closeForward (limiter i) f s
         end -> handler_end k i t payload n s (FwAccept None) s'.

Lemma asks_conn k i t payload key port : asks k i t payload key port -> key_conn key = i.
Proof using Type. destruct k; cbn; [intros (_ & ? & ? & ? & _ & -> & _)|intros (_ & ? & _ & -> & _)]; done. Qed.

Lemma cancels_conn k i t payload key : cancels k i t payload key -> key_conn key = i.
Proof using Type. destruct k; cbn; [intros (_ & ? & ? & _ & ->)|intros (_ & ? & _ & ->)]; done. Qed.

(** A request for a forward cancels none. *)
Lemma asking_cancels_none k i t payload : t = "tcpip-forward" \/ t = "streamlocal-forward@openssh.com" -> forall key, ~ cancels k i t payload key.
Proof using Type. intros Ht key. destruct k; cbn; intros [-> _]; by destruct Ht. Qed.

Lemma handler_ends env k i t payload closes s :
  handler_ok (length (h_objects s)) s ->
  let '(r, s') := run_handler_of env k i t payload closes s in handler_end k i t payload (obtained env k i t payload s) s r s'.
Proof using Hlimiter.
  intros Hok. pose proof (undone_refl s (ho_panicked _ _ Hok)) as Hrefl. unfold ForwardLedger.run_handler_of, ForwardLedger.obtained.
  destruct k; cbn [parse HandleSSHRequest]; unfold tcp_HandleSSHRequest, unix_HandleSSHRequest, handle_request.
  - case_bool_decide as Ht.
    + set (q := unmarshal_bind payload). assert (Hnone : forall key, cancels KTCP i t payload key -> h_forwards s !! key = None)
        by (intros key []%asking_cancels_none; auto).
      pose proof (tcpip_forward_contract i (limiter i) (length (h_objects s)) closes (env_callback env) (env_listenCallback env) (env_net_Listen env) q s (Hlimiter i) Hok) as H.
      destruct (tcpip_forward _ _ _ _ _ _ _ _ _) as [[port|m|e] s']; cbv zeta in H; [|by apply he_undone..].
      destruct H as (addr & p & l & dest & Hq & Ha & _ & -> & _ & Hp & Hg).
      apply (he_granted _ _ _ _ _ _ (tcp_key i addr dest)); [|by rewrite Ha| |done].
      * split; [done|]. by exists addr, p, dest.
      * unfold tcp_listen in Ha. destruct q as [|[]], (env_callback env); try done. destruct (slot_room _ _); [done|]. by rewrite andb_false_r in Ha.
    + case_bool_decide as Hc; [|by apply he_undone; [..|intros key [??]]]. unfold cancel_tcpip_forward.
      destruct (unmarshal_bind payload) as [e|[addr port]] eqn:Hq; [by apply he_undone; [..|intros key (_ & ? & ? & ? & _); congruence]|].
      destruct (h_forwards s !! tcp_key i addr port) as [f|] eqn:Hf;
        [|apply he_undone; [done|done|intros key (_ & ? & ? & E & ->); congruence]].
      eapply he_cancelled; [|exact Hf|done|done]. split; [done|]. by exists addr, port.
  - case_bool_decide as Ht.
    + set (q := unmarshal_path payload). assert (Hnone : forall key, cancels KUnix i t payload key -> h_forwards s !! key = None)
        by (intros key []%asking_cancels_none; auto).
      pose proof (streamlocal_forward_contract i (limiter i) (length (h_objects s)) closes denied (env_unixCallback env) q s (Hlimiter i) Hok) as H.
      destruct (streamlocal_forward _ _ _ _ _ _ _ _) as [[port|m|e] s']; cbv zeta in H; [|by apply he_undone; [|apply H|]..].
      destruct H as (path & l & Hq & Ha & -> & Hg).
      apply (he_granted _ _ _ _ _ _ (mkForwardKey i path)); [|by rewrite Ha| |done].
      * split; [done|]. by exists path.
      * unfold unix_listen in Ha. destruct q, (env_unixCallback env); try done. destruct (slot_room _ _); [done|]. by rewrite andb_false_r in Ha.
    + case_bool_decide as Hc; [|by apply he_undone; [..|intros key [??]]]. unfold cancel_streamlocal_forward.
      destruct (unmarshal_path payload) as [e|path] eqn:Hq; [by apply he_undone; [..|intros key (_ & ? & ? & _); congruence]|].
      destruct (h_forwards s !! mkForwardKey i path) as [f|] eqn:Hf;
        [|apply he_undone; [done|done|intros key (_ & ? & E & ->); congruence]].
      eapply he_cancelled; [|exact Hf|done|done]. split; [done|]. by exists path.
Qed.
End Handler.

(** ** The connection after a handler *)

Lemma owners_app l l' i f : owners l !! f = Some i -> owners (l ++ l') !! f = Some i.
Proof using Type. unfold owners. rewrite map_app. apply lookup_app_l_Some. Qed.

Lemma after_handler_ok added k i p g s' n' :
  conn_ok i (owners (lg_objects g)) p -> (forall f, owners (lg_objects g) !! f = Some i -> n' !! f = Some i) -> registry_kept added (view k p g) s' ->
  pending_acquisitions s' = 0 -> (forall f, f ∈ held_resources s' -> n' !! f = Some i) ->
  conn_ok i n' (after_handler p s') /\ (forall f, covers p f -> covers (after_handler p s') f).
Proof using Hlimiter Hlim.
  intros [Hpend Hres Htak Hopen] Hown Hk Hp Hh. unfold registry_kept, pending_acquisitions, held_resources in *. cbn in Hk.
  destruct (h_resources s') as [r'|] eqn:Er; [|done]. unfold after_handler, covers. rewrite Er. cbn [default].
  split; [split; cbn; try done|]; cbn.
  - intros f Hf. apply Hown. destruct (negb (closed (cp_resources p)) && closed r'); [apply elem_of_union in Hf as [Hf|Hf]|]; auto.
  - intros Hc. destruct Hk as [Hk|(H1 & _ & _ & -> & ->)]; [congruence|auto].
  - intros f. destruct Hk as [-> |(-> & -> & -> & _)]; [|cbn; set_solver].
    destruct (closed (cp_resources p)); cbn; set_solver.
Qed.

Lemma set_loop_ok i ok l p n : conn_ok i n p -> conn_ok i n (set_loop ok l p).
Proof using Type. by intros []; split. Qed.

Lemma listeners_view k p g : listeners_closed (view k p g) = Z.of_nat (lg_listener_closes g) + sumZ (fun o => Z.of_nat (fw_listener_closes o)) (lg_objects g).
Proof using Type. done. Qed.

Lemma closed_sums l : Forall closed_forward l ->
  sumZ (fun o => Z.of_nat (fw_listener_closes o)) l = Z.of_nat (length l) /\ forall c, sumZ (charge c) l = 0.
Proof using Type.
  induction 1 as [|o l [Hs Hl] H [IH1 IH2]]; [by split|]. unfold sumZ in *. cbn. rewrite Hl, IH1. split; [lia|].
  intros c. rewrite IH2, charge_closed; [lia|]. unfold live. by rewrite Hs.
Qed.

(** What the handler has left in its view, on the ledger. *)
Definition settle_view (k : fwKind) (i : nat) (ok : bool) (l : list revent) (n : Z) (p : connPart) (s : handlerState) (g : ledger) : ledger :=
  set_conn i (set_loop ok l (after_handler p s)) (add_obtained n (write_back k s g)).

Lemma undone_ok k i ok l n p s g :
  ledger_ok g -> lg_conns g !! i = Some p -> undone n (view k p g) s -> ledger_ok (settle_view k i ok l n p s g).
Proof using Hlimiter Hlim.
  intros Hg Hp Hu. pose proof (lo_conns g Hg i p Hp) as Hcp. destruct Hu as [Hf Hc _ Hpend Hres Hreg (new & Ho & Hnew) Hl Hpan].
  cbn in Hf, Ho, Hpan. destruct (closed_sums new Hnew) as [Hs1 Hs2]. rewrite listeners_view in Hl. unfold listeners_closed in Hl. rewrite Ho, sumZ_app, Hs1 in Hl.
  destruct (after_handler_ok ∅ k i p g s (owners (lg_objects g ++ new)) Hcp (owners_app _ _ _) Hreg) as [Hok Hcov].
  { rewrite Hpend. apply Hcp. }
  { intros f Hf'. by apply owners_app, (co_resources _ _ _ Hcp), Hres. }
  destruct Hg. unfold settle_view. split; cbn; try done.
  - rewrite Ho. apply Forall_app_2; [done|]. eapply Forall_impl; [exact Hnew|auto].
  - intros c. rewrite Ho, sumZ_app, Hs2, Hc. cbn. rewrite lo_counters0. lia.
  - intros c. by rewrite Hc.
  - rewrite Ho, length_app. lia.
  - intros k' key f Hk'. destruct (lo_map0 k' key f) as (o & Hlo & Hko); [destruct k, k'; cbn in *; congruence|].
    exists o. split; [|done]. rewrite Ho. by apply lookup_app_l_Some.
  - intros f o Hfo Hlive. rewrite Ho in Hfo. apply lookup_app_Some in Hfo as [Hfo|[_ Hfo]].
    2:{ apply list_elem_of_lookup_2 in Hfo. apply (proj1 (Forall_forall _ _) Hnew) in Hfo. by rewrite (closed_dead o Hfo) in Hlive. }
    destruct (lo_live0 f o Hfo Hlive) as ((k' & Hk') & p1 & Hp1 & Hc1). split.
    + exists k'. destruct k, k'; cbn in *; congruence.
    + destruct (decide (key_conn (fw_key o) = i)) as [<-|Hi].
      * rewrite lookup_insert_eq. eexists. split; [done|]. apply Hcov. congruence.
      * rewrite lookup_insert_ne by done. by exists p1.
  - intros j q [[<- <-]|[_ Hj]]%lookup_insert_Some; rewrite Ho; [by apply set_loop_ok|].
    destruct (lo_conns0 j q Hj) as [H1 H2 H3 H4]. split; try done; intros f Hff; first [by apply owners_app, (H2 f)|by apply owners_app, (H3 f)].
Qed.

(** A slot that there was room for. *)
Lemma room_bound i st c :
  slot_room (limiter i) st = true -> 0 < cnt c (slots_of i) -> load st c + cnt c (slots_of i) <= lim c.
Proof using Hlimiter Hlim.
  unfold slots_of, slot_room. specialize (Hlimiter i). specialize (Hlim i). unfold limiter_ok, limiter_counters in *.
  destruct (limiter i) as [l|]; [|done]. specialize (Hlim l eq_refl). intros Hroom Hc.
  assert (Hin : c ∈ counters l).
  { destruct (decide (c ∈ counters l)) as [?|Hn]; [done|]. rewrite (cnt_zero c (counters l) Hn) in Hc. lia. }
  pose proof (cnt_NoDup c (counters l) Hlimiter).
  unfold counters in Hin. apply list_elem_of_fmap in Hin as ([x n] & -> & Hin). cbn in *.
  unfold has_room in Hroom. rewrite forallb_forall in Hroom. specialize (Hroom (x, n) (proj1 (list_elem_of_In _ _) Hin)). cbn in Hroom.
  rewrite (Hlim _ _ Hin). lia.
Qed.

(** The counters, the listeners and the registry after a forward has been made,
    whether it is open or has been closed at once. *)
Lemma granted_books k i key p s g o :
  ledger_ok g -> lg_conns g !! i = Some p -> key_conn key = i -> fw_key o = key -> h_objects s = lg_objects g ++ [o] ->
  granted (limiter i) (length (lg_objects g)) key (view k p g) s ->
  (forall c, load (h_counters s) c = load (lg_counters g) c + charge c o) /\
  Z.of_nat (h_listener_closes s) = Z.of_nat (lg_listener_closes g) /\
  exists added, registry_kept added (view k p g) s /\ forall f, f ∈ held_resources s -> owners (lg_objects g ++ [o]) !! f = Some i.
Proof using Type.
  intros Hg Hp Hki Hko Ho [_ _ _ _ (o' & Ho' & _ & Hcase) _]. cbn in Ho', Hcase.
  assert (o' = o) as -> by (rewrite Ho in Ho'; by apply app_inj_tail in Ho' as [_ ?]).
  pose proof (lo_conns g Hg i p Hp) as Hcp. split; [|split].
  - intros c. destruct Hcase as [(Hs & _ & Hc & _)|(Hs & Hc & _)]; rewrite Hc.
    + unfold charge, live, slots_of. by rewrite Hs, Hko, Hki.
    + rewrite charge_closed; [lia|]. by apply closed_dead.
  - destruct Hcase as [(_ & Hl & _ & H & _)|([_ Hl] & _ & H & _)]; rewrite listeners_view in H; unfold listeners_closed in H;
      rewrite Ho, sumZ_app in H; unfold sumZ in H at 2; cbn in H; rewrite Hl in H; lia.
  - destruct Hcase as [(_ & _ & _ & _ & Hh & Hr & _)|(_ & _ & _ & r & Hr & Hcl & Hre)].
    + eexists. split; [exact Hr|]. intros f. specialize (Hh ltac:(done)). rewrite Hh. cbn.
      intros [->%elem_of_singleton|H]%elem_of_union.
      * unfold owners. rewrite map_app. cbn. rewrite list_lookup_middle; [congruence|by rewrite length_map].
      * by apply owners_app, (co_resources _ _ _ Hcp).
    + exists ∅. unfold registry_kept, held_resources. rewrite Hr. split; [by left|]. intros f. by rewrite Hre.
Qed.

Lemma granted_ok k i key ok l p s g :
  ledger_ok g -> lg_conns g !! i = Some p -> key_conn key = i -> slot_room (limiter i) (lg_counters g) = true ->
  granted (limiter i) (length (lg_objects g)) key (view k p g) s -> ledger_ok (settle_view k i ok l 1 p s g).
Proof using Hlimiter Hlim.
  intros Hg Hp Hki Hroom Hgr. pose proof Hgr as [Hfree Hf _ Hpend (o & Ho & Hko & Hcase) Hpan]. pose proof (lo_conns g Hg i p Hp) as Hcp.
  cbn in Hfree, Hf, Ho, Hcase, Hpan.
  destruct (granted_books k i key p s g o Hg Hp Hki Hko Ho Hgr) as (Hch & Hls & added & Hreg & Hheld). clear Hgr.
  destruct (after_handler_ok added k i p g s (owners (lg_objects g ++ [o])) Hcp (owners_app _ _ _) Hreg ltac:(rewrite Hpend; apply Hcp) Hheld) as [Hok Hcov].
  destruct Hg. unfold settle_view. split; cbn; try done.
  - rewrite Ho. apply Forall_app_2; [done|]. constructor; [|done]. destruct Hcase as [(? & ? & _)|(? & _)]; auto.
  - intros c. rewrite Ho, sumZ_app, Hch, lo_counters0. unfold sumZ at 3. cbn. lia.
  - intros c. destruct Hcase as [(Hs & _ & Hc & _)|(_ & Hc & _)]; rewrite Hc; [|done].
    destruct (decide (0 < cnt c (slots_of i))) as [Hpos|Hz].
    + pose proof (room_bound i (lg_counters g) c Hroom Hpos). unfold slots_of in *. lia.
    + pose proof (cnt_nonneg c (slots_of i)). specialize (lo_bound0 c). unfold slots_of in *. cbn. lia.
  - rewrite Ho, length_app. cbn. lia.
  - intros k' key' f Hk'. rewrite Ho.
    assert (Hcases : (key' = key /\ f = length (lg_objects g)) \/ map_of k' g !! key' = Some f).
    { destruct k, k'; cbn in *; auto; rewrite Hf in Hk'; apply lookup_insert_Some in Hk' as [[<- <-]|[_ ?]]; auto. }
    destruct Hcases as [[-> ->]|H]; [exists o; split; [by apply list_lookup_middle|done]|].
    destruct (lo_map0 k' key' f H) as (o1 & Ho1 & ?). exists o1. split; [|done]. by apply lookup_app_l_Some.
  - intros f o1 Hfo Hlive. rewrite Ho in Hfo. apply lookup_app_Some in Hfo as [Hfo|[Hge Hfo]].
    + destruct (lo_live0 f o1 Hfo Hlive) as ((k' & Hk') & p1 & Hp1 & Hc1). split.
      * exists k'. assert (Hne : k' = k -> fw_key o1 <> key) by (intros -> E; congruence).
        destruct k, k'; cbn in *; try done; rewrite Hf, lookup_insert_ne; auto using not_eq_sym.
      * destruct (decide (key_conn (fw_key o1) = i)) as [<-|Hi].
        -- rewrite lookup_insert_eq. eexists. split; [done|]. apply Hcov. congruence.
        -- rewrite lookup_insert_ne by done. by exists p1.
    + apply list_lookup_singleton_Some in Hfo as [Hz ->]. assert (f = length (lg_objects g)) as -> by lia.
      rewrite Hko. split.
      * exists k. destruct k; cbn; by rewrite Hf, lookup_insert_eq.
      * rewrite Hki, lookup_insert_eq. eexists. split; [done|].
        destruct Hcase as [(_ & _ & _ & _ & Hh & _ & Hop)|(Hcl & _)]; [|by rewrite (closed_dead _ Hcl) in Hlive].
        specialize (Hh ltac:(done)). unfold covers, after_handler, held_resources in *. cbn in *.
        unfold registry_kept in Hreg. cbn in Hreg. destruct (h_resources s) as [r|]; [|done]. cbn. rewrite (Hop r eq_refl), Hh. set_solver.
  - intros j q [[<- <-]|[_ Hj]]%lookup_insert_Some; rewrite Ho; [by apply set_loop_ok|].
    destruct (lo_conns0 j q Hj) as [H1 H2 H3 H4]. split; try done; intros f Hff; first [by apply owners_app, (H2 f)|by apply owners_app, (H3 f)].
Qed.

(** ** Every action *)

Lemma view_after_close k p f o g :
  ledger_ok g -> lg_objects g !! f = Some o ->
  let s := closeForward (limiter (key_conn (fw_key o))) f (view k p g) in
  view k p (write_back k s g) = s /\ h_forwards s = map_of k g /\ h_resources s = Some (cp_resources p).
Proof using Hlimiter.
  intros Hg Ho. destruct (closeForward_books k p f o g Hg Ho) as (o' & cs & -> & _). by destruct k.
Qed.

Lemma cancelled_ok k i f key ok l p s g :
  ledger_ok g -> lg_conns g !! i = Some p -> map_of k g !! key = Some f -> key_conn key = i ->
  s = closeForward (limiter i) f (view k p g) \/ s = remove_forward key f (closeForward (limiter i) f (view k p g)) ->
  ledger_ok (settle_view k i ok l 0 p s g).
Proof using Hlimiter.
  intros Hg Hp Hm Hi Hs. destruct (lo_map g Hg k key f Hm) as (o & Ho & Hk).
  assert (E : limiter i = limiter (key_conn (fw_key o))) by congruence. rewrite E in Hs.
  destruct (close_ok k f o p g Hg Ho) as (H1 & (Hdead & Hconns & _ & _) & _).
  destruct (view_after_close k p f o g Hg Ho) as (Hv & _ & Hr). set (s1 := closeForward _ f (view k p g)) in *. cbv zeta in *.
  assert (Hs' : ledger_ok (write_back k s g) /\ h_resources s = Some (cp_resources p) /\ lg_conns (write_back k s g) = lg_conns g).
  { destruct Hs as [-> | ->]; [by split_and!|].
    pose proof (remove_ok k f key p (write_back k s1 g) H1 Hdead) as H. rewrite Hv in H.
    replace (write_back k (remove_forward key f s1) (write_back k s1 g)) with (write_back k (remove_forward key f s1) g) in H by by destruct k.
    split_and!; [done| |done]. unfold remove_forward. by case_decide. }
  destruct Hs' as (Hok & Hres & Hcs). unfold settle_view. replace (add_obtained 0 (write_back k s g)) with (write_back k s g)
    by (unfold add_obtained, write_back; cbn; by rewrite Z.add_0_r).
  apply (set_conn_ok i p); [done|by rewrite Hcs| |].
  - destruct (lo_conns _ Hok i p ltac:(by rewrite Hcs)) as [C1 C2 C3 C4]. split; unfold after_handler; rewrite Hres; cbn; rewrite ?andb_negb_l; done.
  - intros x y _ _. unfold covers, set_loop, after_handler. rewrite Hres. cbn. by destruct (closed (cp_resources p)).
Qed.

Lemma remove_entry_ok f o p g :
  ledger_ok g -> (forall o, lg_objects g !! f = Some o -> live o = false) ->
  ledger_ok (remove_entry f o p g) /\ lg_conns (remove_entry f o p g) = lg_conns g /\ lg_objects (remove_entry f o p g) = lg_objects g.
Proof using Type.
  intros Hg Hf. unfold remove_entry. set (g1 := write_back KTCP _ g).
  assert (Ho : lg_objects g1 = lg_objects g) by (subst g1; unfold remove_forward; by case_decide).
  split_and!.
  - apply remove_ok; [by apply remove_ok|]. by rewrite Ho.
  - done.
  - unfold remove_forward at 1. case_decide; cbn; apply Ho.
Qed.

Section Steps.
Variable denied : error.
Variable registered : string -> option fwKind.
Variable ctx : dispatchContext.
Variable unmarshal_bind : string -> error + (string * Z).
Variable unmarshal_path : string -> error + string.
Variable marshal_port : Z -> string.

#[local] Abbreviation exec := (ledger_exec limiter denied registered ctx unmarshal_bind unmarshal_path marshal_port).
#[local] Abbreviation run := (ledger_run limiter denied registered ctx unmarshal_bind unmarshal_path marshal_port).

Lemma ledger_request_ok i env t want payload closes p g :
  ledger_ok g -> lg_conns g !! i = Some p ->
  ledger_ok (request_turn limiter denied registered ctx unmarshal_bind unmarshal_path marshal_port i env t want payload closes p g).
Proof using Hlimiter Hlim.
  intros Hg Hp. unfold request_turn. destruct (handler_for registered t) as [k|].
  - pose proof (handler_ends denied unmarshal_bind unmarshal_path env k i t payload closes (view k p g) (view_ok k p g i Hg Hp)) as H.
    destruct (run_handler_of _ _ _ _ _ _ _ _ _ _ _) as [r s]. destruct (handleRequest _ _ _ _ _ _) as [ok w].
    change (ledger_ok (settle_view k i ok (revents w) (obtained limiter unmarshal_bind unmarshal_path env k i t payload (view k p g)) p s g)).
    destruct H as [key port s Hk%asks_conn -> Hroom Hgr|r s _ Hu _|f key s Hk%cancels_conn Hf -> Hs].
    + by eapply granted_ok.
    + by apply undone_ok.
    + eapply cancelled_ok; try done. destruct k; [by right|by left].
  - destruct (handleRequest _ _ _ _ _ _) as [ok w]. apply (set_conn_ok i p); [done..| |done].
    apply set_loop_ok. by apply (lo_conns g Hg i).
Qed.

Lemma exec_ok a g g' : ledger_ok g -> exec a g = Some g' -> ledger_ok g'.
Proof using Hlimiter Hlim.
  intros Hg. destruct a as [i|i env t want payload closes|f|f|i|i f]; cbn [ledger_exec].
  - destruct (lg_conns g !! i) eqn:E; [done|]. intros [= <-]. by apply connect_ok.
  - destruct (lg_conns g !! i) as [p|] eqn:Hp; [|done]. cbn. destruct (cp_running p); [|done]. intros [= <-]. by apply ledger_request_ok.
  - destruct (lg_objects g !! f) as [o|] eqn:Ho; [|done]. cbn. destruct (lg_conns g !! _) as [p|]; [|done]. cbn. intros [= <-].
    by apply (close_ok KTCP f o p g Hg Ho).
  - destruct (lg_objects g !! f) as [o|] eqn:Ho; [|done]. cbn. destruct (lg_conns g !! _) as [p|] eqn:Hp; [|done]. cbn. intros [= <-].
    destruct (close_ok KTCP f o p g Hg Ho) as (H1 & (Hdead & Hconns & _) & _). fold (close_forward limiter f o p g) in *.
    destruct (remove_entry_ok f o p (close_forward limiter f o p g) H1 Hdead) as (H2 & Hc2 & Ho2).
    apply (set_conn_ok _ p); [done|by rewrite Hc2, Hconns| |].
    + destruct (lo_conns _ H2 (key_conn (fw_key o)) p ltac:(by rewrite Hc2, Hconns)) as [C1 C2 C3 C4]. split; cbn; rewrite ?andb_negb_l; try done. set_solver.
    + intros x y Hy Hl. rewrite Ho2 in Hy. assert (x <> f) by (intros ->; by rewrite (Hdead y Hy) in Hl).
      unfold covers, after_handler. cbn. destruct (closed (cp_resources p)); cbn; set_solver.
  - destruct (lg_conns g !! i) as [p|] eqn:Hp; [|done]. cbn. intros [= <-]. pose proof (lo_conns g Hg i p Hp) as [C1 C2 C3 C4].
    apply (set_conn_ok i p); [done|done| |].
    + unfold after_handler, meanwhile, closeAll_begin. cbn. destruct (closed (cp_resources p)) eqn:Ecl; split; cbn; try done; rewrite ?Ecl; cbn; set_solver.
    + intros x y _ _. unfold covers, after_handler, meanwhile, closeAll_begin. cbn.
      destruct (closed (cp_resources p)) eqn:Ecl; cbn; rewrite ?Ecl; cbn; set_solver.
  - destruct (lg_conns g !! i) as [p|] eqn:Hp; [|done]. cbn. case_bool_decide; [|done].
    destruct (lg_objects g !! f) as [o|] eqn:Ho; [|done]. cbn. intros [= <-].
    destruct (close_ok KTCP f o p g Hg Ho) as (H1 & (Hdead & Hconns & _) & _). fold (close_forward limiter f o p g) in *.
    apply (set_conn_ok i p); [done|by rewrite Hconns| |].
    + destruct (lo_conns _ H1 i p ltac:(by rewrite Hconns)) as [C1 C2 C3 C4]. split; try done. cbn. set_solver.
    + intros x y Hy Hl. assert (x <> f) by (intros ->; by rewrite (Hdead y Hy) in Hl).
      unfold covers. cbn. destruct (closed (cp_resources p)); cbn; set_solver.
Qed.

Lemma run_ok l g g' : ledger_ok g -> run l g = Some g' -> ledger_ok g'.
Proof using Hlimiter Hlim.
  revert g. induction l as [|a l IH]; intros g Hg; cbn; [by intros [= <-]|].
  destruct (ledger_exec _ _ _ _ _ _ _ a g) as [g1|] eqn:E; [|done]. cbn. apply IH. by eapply exec_ok.
Qed.

(** ** The end of a connection *)

Lemma no_live g i p :
  ledger_ok g -> lg_conns g !! i = Some p -> closed (cp_resources p) = true -> cp_taken p = ∅ ->
  forall f o, lg_objects g !! f = Some o -> key_conn (fw_key o) = i -> live o = false.
Proof using Type.
  intros Hg Hp Hc Ht f o Ho Hk. destruct (live o) eqn:Hl; [|done]. exfalso.
  destruct (lo_live g Hg f o Ho Hl) as (_ & q & Hq & Hcov). assert (q = p) as -> by congruence.
  unfold covers in Hcov. rewrite Hc, Ht in Hcov. by apply not_elem_of_empty in Hcov.
Qed.

Lemma taken_run i l : forall g p,
  ledger_ok g -> lg_conns g !! i = Some p -> NoDup l -> cp_taken p = list_to_set l ->
  exists g' p', run (map (LTaken i) l) g = Some g' /\ ledger_ok g' /\ lg_conns g' !! i = Some p' /\
    cp_resources p' = cp_resources p /\ cp_taken p' = ∅ /\
    forall f o, lg_objects g !! f = Some o -> key_conn (fw_key o) <> i -> lg_objects g' !! f = Some o.
Proof using Hlimiter Hlim.
  induction l as [|x l IH]; intros g p Hg Hp Hnd Ht; [by exists g, p|]. apply NoDup_cons in Hnd as [Hx Hnd].
  destruct (lo_conns g Hg i p Hp) as [_ _ Hown _]. specialize (Hown x ltac:(rewrite Ht; set_solver)).
  unfold owners in Hown. apply list_lookup_fmap_Some in Hown as (o & Hk & Ho).
  assert (He : exec (LTaken i x) g = Some (set_conn i (mkConnPart (cp_resources p) (cp_workers p) (cp_taken p ∖ {[x]}) (cp_running p) (cp_events p))
             (close_forward limiter x o p g))).
  { cbn [ledger_exec]. rewrite Hp. cbn. rewrite bool_decide_true by (rewrite Ht; set_solver). by rewrite Ho. }
  pose proof (exec_ok _ _ _ Hg He) as Hg1.
  destruct (close_ok KTCP x o p g Hg Ho) as (_ & (_ & _ & _ & _ & Hkeep) & _). fold (close_forward limiter x o p g) in Hkeep.
  edestruct (IH _ (mkConnPart (cp_resources p) (cp_workers p) (cp_taken p ∖ {[x]}) (cp_running p) (cp_events p)) Hg1)
    as (g' & p' & Hr & Hg' & Hp' & Hres & Htak & Hf); [apply lookup_insert_eq|done|cbn; rewrite Ht; set_solver|].
  exists g', p'. split_and!; try done; [by cbn [map ledger_run]; rewrite He|].
  intros f o1 Ho1 Hk1. apply Hf; [|done]. cbn. rewrite Hkeep; [done|]. intros ->. congruence.
Qed.

(** Whatever has happened, [closeAll] of a connection can close all its forwards,
    and touches no other. *)
Lemma connection_end l g i p :
  run l (newLedger counters0) = Some g -> lg_conns g !! i = Some p ->
  exists taken g', run (LCloseAll i :: map (LTaken i) taken) g = Some g' /\ ledger_ok g' /\
    (forall f o, lg_objects g' !! f = Some o -> key_conn (fw_key o) = i -> live o = false) /\
    (forall f o, lg_objects g !! f = Some o -> key_conn (fw_key o) <> i -> lg_objects g' !! f = Some o).
Proof using Hlimiter Hlim.
  intros Hrun Hp. pose proof (run_ok _ _ _ newLedger_ok Hrun) as Hg.
  set (p1 := after_handler p (meanwhile true (view KTCP p g))).
  assert (He : exec (LCloseAll i) g = Some (set_conn i p1 g)) by (cbn [ledger_exec]; by rewrite Hp).
  pose proof (exec_ok _ _ _ Hg He) as Hg1.
  destruct (taken_run i (elements (cp_taken p1)) (set_conn i p1 g) p1 Hg1) as (g' & p' & Hr & Hg' & Hp' & Hres & Htak & Hf);
    [apply lookup_insert_eq|apply NoDup_elements|by rewrite list_to_set_elements_L|].
  exists (elements (cp_taken p1)), g'. split_and!; [|done| |exact Hf].
  - cbn [ledger_run]. by rewrite He.
  - apply (no_live g' i p'); [done..| |done]. rewrite Hres. subst p1. unfold after_handler, meanwhile, closeAll_begin. cbn.
    by destruct (closed (cp_resources p)) eqn:E.
Qed.
End Steps.
End Books.

(** ** The theorems *)

(** C9. The books of all reverse forwards, whatever the connections, their
    requests, workers and closes do in whatever order: each counter is what it was at
    the start plus one for each open forward that counts on it, and within its
    limit; the listeners that were obtained are those of the open forwards and
    those that have been closed; an open forward is in the map of its handler
    under its own key, and can be reached by the [closeAll] of its connection, so
    that a connection whose [closeAll] has come through has none. *)
Theorem forwards_accounted limiter counters0 lim denied registered ctx unmarshal_bind unmarshal_path marshal_port l g :
  (forall i, limiter_ok (limiter i)) -> (forall i l, limiter i = Some l -> respects lim l) ->
  ledger_run limiter denied registered ctx unmarshal_bind unmarshal_path marshal_port l (newLedger counters0) = Some g ->
  (forall c, load (lg_counters g) c = load counters0 c + sumZ (charge limiter c) (lg_objects g) /\
             load (lg_counters g) c <= Z.max (load counters0 c) (lim c)) /\
  lg_obtained g = closed_listeners g + lives (lg_objects g) /\
  (forall f o, lg_objects g !! f = Some o -> live o = true -> exists k, map_of k g !! fw_key o = Some f) /\
  (forall i p, lg_conns g !! i = Some p -> closed (cp_resources p) = true -> cp_taken p = ∅ ->
     forall f o, lg_objects g !! f = Some o -> key_conn (fw_key o) = i -> live o = false) /\
  lg_panicked g = false.
Proof.
  intros Hl Hlim Hrun. pose proof (run_ok limiter counters0 lim Hl Hlim _ _ _ _ _ _ _ _ _ (newLedger_ok _ _ _) Hrun) as Hg.
  split_and!; [intros c; split; by apply Hg| |intros f o Ho Hlo; by apply Hg| |by apply Hg].
  - rewrite (lo_obtained _ _ _ _ Hg). unfold closed_listeners. enough (forall l,
      Forall (fun o => (fw_stage o = NotClosed /\ fw_listener_closes o = 0%nat) \/ closed_forward o) l ->
      Z.of_nat (length l) = sumZ (fun o => Z.of_nat (fw_listener_closes o)) l + lives l) as -> by (by apply Hg || lia).
    intros l0. unfold lives, sumZ, live. induction 1 as [|o l0 [[Hs Hc]|[Hs Hc]] _ IH]; cbn in *; [done|rewrite Hs, Hc; lia..].
  - intros i p Hp Hc Ht. by apply (no_live limiter counters0 lim g i p).
Qed.

(** At any time [closeAll] of a connection can close what it takes from the
    registry, and then none of the forwards of the connection is open and no
    forward of another connection has been touched; when no forward of the server
    is open, every counter is what it was at the start. *)
Theorem connection_end_closes limiter counters0 lim denied registered ctx unmarshal_bind unmarshal_path marshal_port l g i p :
  (forall i, limiter_ok (limiter i)) -> (forall i l, limiter i = Some l -> respects lim l) ->
  let run := ledger_run limiter denied registered ctx unmarshal_bind unmarshal_path marshal_port in
  run l (newLedger counters0) = Some g -> lg_conns g !! i = Some p ->
  exists taken g', run (LCloseAll i :: map (LTaken i) taken) g = Some g' /\
    (forall f o, lg_objects g' !! f = Some o -> key_conn (fw_key o) = i -> live o = false) /\
    (forall f o, lg_objects g !! f = Some o -> key_conn (fw_key o) <> i -> lg_objects g' !! f = Some o) /\
    ((forall f o, lg_objects g' !! f = Some o -> live o = false) -> forall c, load (lg_counters g') c = load counters0 c).
Proof.
  intros Hl Hlim run Hrun Hp. subst run.
  destruct (connection_end limiter counters0 lim Hl Hlim _ _ _ _ _ _ _ _ i p Hrun Hp) as (taken & g' & Hr & Hg' & Hdead & Hother).
  exists taken, g'. split_and!; try done. intros Hnone c. rewrite (lo_counters _ _ _ _ Hg').
  rewrite (sumZ_zero (charge limiter c)); [lia|]. intros o [f Ho]%list_elem_of_lookup_1. apply charge_closed. by apply (Hnone f).
Qed.

Lemma forward_limiters_ok srv i : limiter_ok (Some (forwardLimiter srv i)).
Proof.
  unfold limiter_ok, limiter_counters, counters. cbn. unfold activeReverseForwards, globalReverseForwards.
  destruct (0 <? _), (0 <? _); cbn; repeat constructor; set_solver by lia.
Qed.

Definition lives_of (i : nat) (l : list forward) : Z :=
  sumZ (fun o => if live o && bool_decide (key_conn (fw_key o) = i) then 1 else 0) l.

(** C10. With the limiters that [handleConn] makes ([Wiring]): however requests,
    workers and closes of all connections follow each other, no connection has more open reverse
    forwards than [MaxReverseForwardsPerConnection] or its default, and all
    together no more than [MaxReverseForwards] or its default. *)
Theorem reverse_forwards_bounded srv denied registered ctx unmarshal_bind unmarshal_path marshal_port l g :
  ledger_run (fun i => Some (forwardLimiter srv i)) denied registered ctx unmarshal_bind unmarshal_path marshal_port l (newLedger ∅) = Some g ->
  (forall i, 0 < configuredLimit (MaxReverseForwardsPerConnection srv) DefaultMaxReverseForwardsPerConnection ->
     lives_of i (lg_objects g) <= configuredLimit (MaxReverseForwardsPerConnection srv) DefaultMaxReverseForwardsPerConnection) /\
  (0 < configuredLimit (MaxReverseForwards srv) DefaultMaxReverseForwards ->
     lives (lg_objects g) <= configuredLimit (MaxReverseForwards srv) DefaultMaxReverseForwards).
Proof.
  intros Hrun. set (limiter := fun i => Some (forwardLimiter srv i)) in *.
  assert (Hl : forall i, limiter_ok (limiter i)) by apply forward_limiters_ok.
  assert (Hlim : forall i l, limiter i = Some l -> respects (limit_of srv) l).
  { intros i l' [= <-]. pose proof (users_respect srv [UForward i]) as H. by inversion_clear H. }
  pose proof (run_ok limiter ∅ (limit_of srv) Hl Hlim _ _ _ _ _ _ _ _ _ (newLedger_ok _ _ _) Hrun) as Hg.
  assert (Hsum : forall c, sumZ (charge limiter c) (lg_objects g) <= Z.max 0 (limit_of srv c)).
  { intros c. pose proof (lo_counters _ _ _ _ Hg c) as E. pose proof (lo_bound _ _ _ _ Hg c) as B. assert (load (∅ : store) c = 0) as Z0 by (unfold load; by rewrite lookup_empty). rewrite Z0 in E, B. lia. }
  split.
  - intros i Hpos. specialize (Hsum (activeReverseForwards i)). rewrite limit_of_forward in Hsum.
    enough (lives_of i (lg_objects g) <= sumZ (charge limiter (activeReverseForwards i)) (lg_objects g)) by lia.
    apply sumZ_le. intros o _. unfold charge, slots_of. destruct (live o); [|done]. cbn [andb].
    case_bool_decide as Hi; [subst i|apply cnt_nonneg]. apply cnt_elem. cbn. unfold counters. cbn. rewrite (proj2 (Z.ltb_lt _ _) Hpos). cbn. left.
  - intros Hpos. specialize (Hsum globalReverseForwards). cbn [limit_of globalReverseForwards] in Hsum.
    enough (lives (lg_objects g) <= sumZ (charge limiter globalReverseForwards) (lg_objects g)) by lia.
    apply sumZ_le. intros o _. unfold charge, slots_of. destruct (live o); [|done].
    apply cnt_elem. cbn. unfold counters. cbn. rewrite (proj2 (Z.ltb_lt _ _) Hpos). destruct (0 <? _); cbn; set_solver.
Qed.

(** ** Two connections that share the limit of one forward *)

Definition sample_registered (t : string) : option fwKind :=
  if bool_decide (t ∈ ["tcpip-forward"; "cancel-tcpip-forward"]) then Some KTCP else None.
Definition sample_unmarshal (payload : string) : error + (string * Z) :=
  inr ("localhost", if bool_decide (payload = "any") then 0 else 4022).
Definition sample_ledger_run : list ledgerAction -> ledger -> option ledger :=
  ledger_run (fun _ => sample_forward_limiter) (ErrNew 900 "permission denied") sample_registered sample_context sample_unmarshal inr FormatUint.
(** The server listens on one port after the other. *)
Definition sample_env (listen : string) : requestEnv :=
  mkRequestEnv sample_tcp_callback None (fun _ => (Some (mkListener (Some listen)), None)) None (fun _ _ => None) None.

(** The second connection gets no slot before the first has cancelled. *)
Definition sample_actions : list ledgerAction :=
  let env := sample_env "127.0.0.1:4022" in
  [LConnect 0; LConnect 1; LRequest 0 env "tcpip-forward" true "any" false; LRequest 1 env "tcpip-forward" true "any" false;
   LRequest 0 env "cancel-tcpip-forward" true "4022" false; LRequest 1 env "tcpip-forward" true "any" false; LEnd 0].
Definition sample_books : ledger := Eval vm_compute in default (newLedger ∅) (sample_ledger_run sample_actions (newLedger ∅)).

Lemma sample_ledger_runs : sample_ledger_run sample_actions (newLedger ∅) = Some sample_books.
Proof. vm_compute. reflexivity. Qed.

Lemma sample_forward_respects : forall (i : nat) l, sample_forward_limiter = Some l -> respects (fun _ => 1) l.
Proof. intros _ l [= <-] c n. cbn. intros ?%list_elem_of_singleton. by simplify_eq. Qed.

Lemma forwards_accounted_witness :
  map live (lg_objects sample_books) = [false; true] /\ lg_obtained sample_books = 2 /\ closed_listeners sample_books = 1 /\
  load (lg_counters sample_books) 0 = 1 /\
  lg_obtained sample_books = closed_listeners sample_books + lives (lg_objects sample_books).
Proof.
  split; [by vm_compute|]. split; [by vm_compute|]. split; [by vm_compute|]. split; [by vm_compute|].
  exact (proj1 (proj2 (forwards_accounted _ _ _ _ _ _ _ _ _ _ _ (fun _ => sample_limiter_ok) sample_forward_respects sample_ledger_runs))).
Defined.

Lemma connection_end_closes_witness :
  exists taken g', sample_ledger_run (LCloseAll 1 :: map (LTaken 1) taken) sample_books = Some g' /\
    (forall f o, lg_objects g' !! f = Some o -> key_conn (fw_key o) = 1%nat -> live o = false).
Proof.
  destruct (connection_end_closes _ _ _ _ _ _ _ _ _ _ _ 1%nat _ (fun _ => sample_limiter_ok) sample_forward_respects sample_ledger_runs eq_refl)
    as (taken & g' & H1 & H2 & _).
  exists taken, g'. split; [exact H1|exact H2].
Defined.

(** A server that allows two forwards in all; a connection has both, on two ports
    of one address. *)
Definition sample_limits : limitFields := mkLimitFields None None (Some 2) None None.
Definition sample_bounded_run : option ledger :=
  ledger_run (fun i => Some (forwardLimiter sample_limits i)) (ErrNew 900 "permission denied")
    sample_registered sample_context sample_unmarshal inr FormatUint
    [LConnect 0; LConnect 1; LRequest 0 (sample_env "127.0.0.1:4022") "tcpip-forward" true "any" false;
     LRequest 0 (sample_env "127.0.0.1:4023") "tcpip-forward" true "any" false;
     LRequest 1 (sample_env "127.0.0.1:4024") "tcpip-forward" true "any" false] (newLedger ∅).
Definition sample_bounded : ledger := Eval vm_compute in default (newLedger ∅) sample_bounded_run.

Lemma reverse_forwards_bounded_witness :
  configuredLimit (MaxReverseForwards sample_limits) DefaultMaxReverseForwards = 2 /\
  lives (lg_objects sample_bounded) = 2 /\ lives (lg_objects sample_bounded) <= 2.
Proof.
  assert (E : sample_bounded_run = Some sample_bounded) by (vm_compute; reflexivity).
  split; [reflexivity|]. split; [vm_compute; reflexivity|].
  exact (proj2 (reverse_forwards_bounded sample_limits _ _ _ _ _ _ _ _ E) eq_refl).
Defined.
