(* ===== verification/ForwardReplies.v ===== *)
(** ForwardReplies: what a client is told about its forwards.  A handler of
    [ForwardHandlers] makes one call of [Accept] or [Reject] at its end, or returns
    an error; [handleRequest] ([Request]) makes a reply of it.  Here the replies
    are compared with what the handler has done on the server ([ForwardLedger]),
    and a forward that has been accepted is followed to its cancellation. *)
From S2P Require Import Prelude GoErrors ErrorDispatch Request Limiter Resources Context Forward Net ForwardHandlers ForwardRequests ForwardLedger.
Local Open Scope string_scope.
Local Open Scope Z_scope.
Local Open Scope list_scope.

#[local] Arguments sumZ {A} f l : simpl never.

(** ** After the handler

    A property that the error response, the dispatch and the end of an iteration
    keep holds at the end if it held when the handler returned: they only emit
    events and reject. *)
Section Keeps.
Variable reply : bool -> string -> option error.
Variable ctx : dispatchContext.
Variable eh : option ErrorHandler.
Variable P : rworld -> Prop.
Hypothesis P_emit : forall l w, P w -> P (emit l w).
Hypothesis P_reject : forall m ra w, P w -> P (snd (request_respond reply false m ra w)).
Hypothesis P_response : forall f w, f = expire \/ f = release \/ f = completeWithoutResponse -> P w -> P (on_response f w).

Lemma keeps_responder wantReply : response_keeps P (newErrorResponse (Some (requestErrorResponder reply ctx wantReply))).
Proof using P_emit P_reject.
  intros f m c w [= <-] Hw. unfold requestErrorResponder, rejectFromErrorHandler. destruct wantReply; cbn [negb].
  - specialize (P_reject m false w Hw). destruct (request_respond reply false m false w) as [err w1]. cbn [snd] in *.
    destruct (errors_Is err _), c; cbn [snd]; auto.
  - destruct c; cbn [snd]; auto.
Qed.

Lemma keeps_reply_error e w : P w -> P (handleRequestReplyError ctx eh e w).
Proof using P_emit.
  intros Hw. unfold handleRequestReplyError.
  pose proof (escalate_keeps P P_emit ctx eh ErrorScopeRequest ErrorOperationReply (Some e) None
    (Some defaultClosingConnectionAndLogErrorAction) None w ltac:(done) Hw) as H.
  destruct (dispatchErrorOrEscalate _ _ _ _ _ _ _ _ _) as [b d]. by apply P_emit.
Qed.

Lemma keeps_finish handlerErr canContinue want w : P w -> P (snd (finishRequest reply ctx eh handlerErr canContinue want w)).
Proof using P_emit P_reject P_response.
  intros Hw. unfold finishRequest. destruct (result (response_of w)) as [[[attempted complete] acc] rerr].
  assert (Hrel : forall w, P w -> P (on_response release w)) by (intros; apply P_response; auto).
  destruct (if attempted && negb complete then _ else rerr) as [e|].
  - destruct (_ || _); cbn [snd]; [by apply keeps_reply_error, Hrel|by apply P_emit, Hrel].
  - assert (Hpair : P (snd (if negb attempted then if want then request_respond reply false "" false w
                            else (None, on_response completeWithoutResponse w) else (None, w)))).
    { destruct attempted; [done|]. destruct want; [by apply P_reject|]. apply P_response; auto. }
    destruct (if negb attempted then _ else _) as [err w1]. cbn [snd] in Hpair.
    destruct err; cbn [snd]; [by apply keeps_reply_error, Hrel|]. destruct canContinue; cbn [negb snd]; auto.
Qed.

Lemma handleRequest_keeps p want l :
  P (snd (run_request_handler reply p (mkRWorld (newRequestResponse want) l))) ->
  P (snd (handleRequest reply ctx eh (Some p) want l)).
Proof using P_emit P_reject P_response.
  intros Hp. unfold handleRequest. destruct (run_request_handler reply p _) as [herr w]. cbn [snd] in Hp.
  assert (Hw : P (on_response expire w)) by (apply P_response; auto). set (w1 := on_response expire w) in *. clearbody w1.
  destruct (if _ && _ && _ then _ else herr) as [e|]; [|by apply keeps_finish].
  match goal with |- context [d_result ?d] => assert (H2 : P (d_world d)) end.
  { apply dispatch_keeps; [done| |done]. intros r [= <-]. apply keeps_responder. }
  destruct (d_result _) as [c [de|]]; [|by apply keeps_finish].
  destruct (resolveErrorLocation _ _ _) as [sc op]. cbn [snd]. apply P_response; [auto|]. apply P_response; [auto|]. by apply P_emit.
Qed.
End Keeps.

(** ** The reply to a forward request *)
Section Replies.
Variable reply : bool -> string -> option error.
Variable ctx : dispatchContext.
Variable eh : option ErrorHandler.
Variable marshal_port : Z -> string.

Definition grows (Q : revent -> Prop) (base : list revent) (w : rworld) : Prop := exists rest, revents w = base ++ rest /\ Forall Q rest.

Definition no_reply (e : revent) : Prop := is_reply e = false.
Definition no_accept (e : revent) : Prop := forall m, e <> RReply true m.

Lemma grows_emit (Q : revent -> Prop) base l w : (forall e, Q (RDispatch e)) -> grows Q base w -> grows Q base (emit l w).
Proof.
  intros HQ (rest & Hr & Hf). exists (rest ++ map RDispatch l). cbn. rewrite Hr, app_assoc. split; [done|].
  apply Forall_app_2; [done|]. apply Forall_map, Forall_true. auto.
Qed.

(** An attempted response is not replied to any more. *)
Lemma respond_attempted acc m ra w :
  rattempted (response_of w) = true ->
  rattempted (response_of (snd (request_respond reply acc m ra w))) = true /\ revents (snd (request_respond reply acc m ra w)) = revents w.
Proof.
  intros Ha. unfold request_respond, respond_begin. rewrite Ha. by destruct (ra && negb _).
Qed.

Lemma respond_grows (Q : revent -> Prop) base m ra w :
  (forall p, Q (RReply false p)) -> grows Q base w -> grows Q base (snd (request_respond reply false m ra w)).
Proof.
  intros HQ (rest & Hr & Hf). unfold request_respond, respond_begin.
  destruct (ra && negb _); [by exists rest|]. destruct (_ || _); [by exists rest|].
  destruct (match request (response_of w) with Some want => want | None => false end); [|by exists rest].
  exists (rest ++ [RReply false m]). cbn. rewrite Hr, app_assoc. split; [done|]. apply Forall_app_2; [done|]. by constructor.
Qed.

Definition answer (want : bool) (r : fwReply) : list revent :=
  if want then
    match r with
    | FwAccept port => [RReply true (match port with Some port => marshal_port port | None => "" end)]
    | FwReject m => [RReply false m]
    | FwError _ => []
    end
  else [].

(** Of what a handler has ended with, a call is the only reply there is; after
    an error there may be one, which rejects. *)
Lemma forward_reply want r l :
  let '(_, w) := handleRequest reply ctx eh (Some (forward_program marshal_port r)) want l in
  grows (match r with FwError _ => no_accept | _ => no_reply end) (l ++ answer want r) w.
Proof.
  assert (Hcall : forall acc m, let p := if acc : bool then QAccept m QReturn else QReject m QReturn in
    grows no_reply (l ++ if want then [RReply acc m] else []) (snd (handleRequest reply ctx eh (Some p) want l))).
  { intros acc m p. set (base := l ++ _).
    apply (handleRequest_keeps reply ctx eh (fun w => rattempted (response_of w) = true /\ grows no_reply base w)).
    - intros l' w [Ha Hg]. split; [done|]. by apply grows_emit.
    - intros m' ra w [Ha Hg]. destruct (respond_attempted false m' ra w Ha) as [H1 H2]. split; [done|].
      destruct Hg as (rest & Hr & Hf). exists rest. by rewrite H2.
    - intros f w Hf [Ha Hg]. split; [|exact Hg]. destruct Hf as [-> |[-> | ->]]; cbn; try done.
      unfold completeWithoutResponse. by rewrite Ha.
    - assert (Hrun : run_request_handler reply p (mkRWorld (newRequestResponse want) l)
               = request_respond reply acc m true (mkRWorld (newRequestResponse want) l)).
      { subst p. destruct acc; cbn [run_request_handler]; unfold Accept, Reject; by destruct (request_respond reply _ m true _). }
      rewrite Hrun. unfold request_respond, respond_begin. destruct want; cbn; (split; [done|]); exists []; subst base; by rewrite ?app_nil_r. }
  destruct r as [port|m|e]; cbn [forward_program].
  - specialize (Hcall true (match port with Some port => marshal_port port | None => "" end)). cbv zeta in Hcall.
    by destruct (handleRequest _ _ _ _ _ _).
  - specialize (Hcall false m). cbv zeta in Hcall. by destruct (handleRequest _ _ _ _ _ _).
  - assert (H : grows no_accept l (snd (handleRequest reply ctx eh (Some (QReturn (Some e))) want l))).
    { apply (handleRequest_keeps reply ctx eh (grows no_accept l)).
      - intros l' w. apply grows_emit. by intros x m.
      - intros m ra w. apply respond_grows. by intros x m'.
      - done.
      - exists []. by rewrite app_nil_r. }
    unfold answer. replace (if want then [] else []) with (@nil revent) by by destruct want. rewrite app_nil_r.
    by destruct (handleRequest _ _ _ _ _ _).
Qed.

Lemma grows_accepts want r l w :
  grows (match r with FwError _ => no_accept | _ => no_reply end) (l ++ answer want r) w ->
  exists new, revents w = l ++ new /\   forall m, RReply true m ∈ new <->
      want = true /\ exists port, r = FwAccept port /\ m = match port with Some port => marshal_port port | None => "" end.
Proof.
  intros (rest & Hr & Hf). exists (answer want r ++ rest). rewrite Hr, app_assoc. split; [done|]. intros m.
  assert (Hrest : RReply true m ∉ rest).
  { intros Hin. apply (proj1 (Forall_forall _ _) Hf) in Hin. destruct r; [done|done|]. by apply (Hin m). }
  rewrite elem_of_app. unfold answer. destruct want, r as [port|m'|e]; set_solver.
Qed.
End Replies.

(** ** What the handler has done, on the ledger *)

(** The forward is new, under its key and in the map, and open unless the
    connection is closing; nothing else has changed. *)
Definition made (k : fwKind) (p' : connPart) (key : forwardKey) (g g' : ledger) : Prop :=
  map_of k g !! key = None /\ map_of k g' = <[key := length (lg_objects g)]> (map_of k g) /\
  exists o, lg_objects g' = lg_objects g ++ [o] /\ fw_key o = key /\ (live o = true \/ closed (cp_resources p') = true).

(** The forward under the key has been closed and, by the handler of TCP, taken
    out; nothing else has changed. *)
Definition unmade (k : fwKind) (key : forwardKey) (g g' : ledger) : Prop :=
  map_of k g' = match k with KTCP => delete key (map_of k g) | KUnix => map_of k g end /\
  exists f o o', map_of k g !! key = Some f /\ lg_objects g !! f = Some o /\ fw_key o = key /\
    lg_objects g' = <[f := o']> (lg_objects g) /\ fw_key o' = key /\ closed_forward o'.

Lemma granted_made limiter k i ok l n p key s g :
  granted (limiter i) (length (lg_objects g)) key (view k p g) s ->
  made k (set_loop ok l (after_handler p s)) key g (settle_view k i ok l n p s g).
Proof.
  intros [Hfree Hf _ _ (o & Ho & Hk & Hcase) _]. cbn in Hfree, Hf, Ho. split_and!; [done|by destruct k|].
  exists o. split_and!; [done..|]. destruct Hcase as [(Hs & _)|(_ & _ & _ & r & Hr & Hcl & _)].
  - left. unfold live. by rewrite Hs.
  - right. unfold after_handler. by rewrite Hr.
Qed.

Lemma cancelled_unmade limiter counters0 lim k i ok l n p key f s g :
  (forall i, limiter_ok (limiter i)) -> ledger_ok limiter counters0 lim g -> map_of k g !! key = Some f -> key_conn key = i ->
  s = match k with
      | KTCP => remove_forward key f (closeForward (limiter i) f (view k p g))
      | KUnix => closeForward (limiter i) f (view k p g)
      end ->
  unmade k key g (settle_view k i ok l n p s g).
Proof.
  intros Hl Hg Hm <- ->. destruct (lo_map _ _ _ g Hg k key f Hm) as (o & Ho & Hk).
  destruct (closeForward_books limiter counters0 lim Hl k p f o g Hg Ho) as (o' & cs & E & Hk' & Hcl & _). rewrite Hk in E. rewrite E.
  assert (Hrem : remove_forward key f (set_h_counters cs (set_h_objects (<[f:=o']> (lg_objects g)) (view k p g)))
    = set_h_forwards (delete key (map_of k g)) (set_h_counters cs (set_h_objects (<[f:=o']> (lg_objects g)) (view k p g))))
    by (unfold remove_forward; by rewrite decide_True).
  split; [by destruct k; rewrite ?Hrem|]. exists f, o, o'. split_and!; try done; [|congruence]. by destruct k; rewrite ?Hrem.
Qed.

(** ** The theorems *)

(** C12. A global request for a forward, on any connection of a server that has come
    to any state: at most one reply is sent, one if the client wants one and the
    loop goes on, and none otherwise, and a loop that ends closes the connection.
    The client is told of success exactly when the handler accepts.  A request
    that is accepted has either made the forward it asks for, which then is new in
    the handler's map under the key of the request and, unless the connection is
    closing, open, on the port that the client is told, the one it has asked
    for unless that was zero; or it has closed the forward that it names, whose key is free
    at once in the map of TCP and stays until the worker ends in that of Unix
    sockets.  When the handler does not accept, its map and all forwards are as
    before, none is open that was not, and there was none that the request cancels.
    The map of the other handler never changes. *)
Theorem forward_replies_exact limiter counters0 lim denied registered ctx unmarshal_bind unmarshal_path marshal_port l g i p k env t want payload closing :
  (forall i, limiter_ok (limiter i)) -> (forall i l, limiter i = Some l -> respects lim l) -> hasCloseConnection ctx = true ->
  ledger_run limiter denied registered ctx unmarshal_bind unmarshal_path marshal_port l (newLedger counters0) = Some g ->
  lg_conns g !! i = Some p -> handler_for registered t = Some k ->
  let '(r, _) := run_handler_of limiter denied unmarshal_bind unmarshal_path env k i t payload closing (view k p g) in
  let g' := request_turn limiter denied registered ctx unmarshal_bind unmarshal_path marshal_port i env t want payload closing p g in
  exists p' new, lg_conns g' !! i = Some p' /\ cp_events p' = cp_events p ++ new /\
    (replies new <= if want then 1 else 0)%nat /\
    (if cp_running p' then replies new = if want then 1 else 0 else RDispatch EvCloseConnection ∈ cp_events p')%nat /\
    (forall m, RReply true m ∈ new <->
       want = true /\ exists port, r = FwAccept port /\ m = match port with Some port => marshal_port port | None => "" end) /\
    (forall port, r = FwAccept port ->
       (exists key, asks unmarshal_bind unmarshal_path k i t payload key port /\ made k p' key g g') \/
       (port = None /\ exists key, cancels unmarshal_bind unmarshal_path k i t payload key /\ unmade k key g g')) /\
    (is_accept r = false ->
       (forall key, cancels unmarshal_bind unmarshal_path k i t payload key -> map_of k g !! key = None) /\
       map_of k g' = map_of k g /\ exists gone, lg_objects g' = lg_objects g ++ gone /\ Forall closed_forward gone) /\
    (forall k', k' <> k -> map_of k' g' = map_of k' g).
Proof.
  intros Hl Hlim Hclose Hrun Hp Hk.
  pose proof (run_ok limiter counters0 lim Hl Hlim _ _ _ _ _ _ _ _ _ (newLedger_ok _ _ _) Hrun) as Hg.
  pose proof (handler_ends limiter Hl denied unmarshal_bind unmarshal_path env
    k i t payload closing (view k p g) (view_ok limiter counters0 lim k p g i Hg Hp)) as Hend.
  unfold request_turn. rewrite Hk. destruct (run_handler_of _ _ _ _ _ k i t payload closing (view k p g)) as [r s].
  pose proof (forward_reply (env_reply env) ctx (env_errorHandler env) marshal_port want r (cp_events p)) as Hr.
  pose proof (handleRequest_end (env_reply env) ctx (env_errorHandler env) want (Some (forward_program marshal_port r)) (cp_events p) Hclose)
    as (Hf & Hok & Hcl).
  destruct (handleRequest _ _ _ _ _ _) as [ok w]. cbn [fst snd] in *.
  destruct (grows_accepts marshal_port want r (cp_events p) w Hr) as (new & Hnew & Hacc).
  eexists _, new. split; [apply lookup_insert_eq|]. cbn [set_loop after_handler cp_events cp_running]. split; [done|].
  assert (Hcount : (replies (revents w) = replies (cp_events p) + replies new)%nat) by (rewrite Hnew; apply replies_app).
  pose proof (rf_replies _ _ _ Hf) as Hrep. split_and!; try done.
  - rewrite Hrep in Hcount. destruct want, (rattempted (response_of w)); cbn in Hcount; lia.
  - destruct ok; [|by apply Hcl]. specialize (Hok eq_refl). destruct want; [specialize (Hok eq_refl); lia|]. cbn in Hrep. lia.
  - intros port ->. inversion Hend as [key q s' Has _ _ Hgr|r' s' Hna _ _|f key s' Hc Hm _ Hs]; subst; [left|done|right; split; [done|]].
    + exists key. split; [done|]. by apply (granted_made limiter).
    + exists key. split; [done|]. by apply (cancelled_unmade limiter counters0 lim k i _ _ _ p key f _ g Hl Hg Hm (cancels_conn _ _ _ _ _ _ _ Hc)).
  - intros Hna. inversion Hend as [? ? ? _ _ _ _|r' s' _ Hu Hnone|f' key s' _ _ _ _]; subst; [done| |done].
    destruct Hu as [Hfw _ _ _ _ _ Hobj _ _]. split_and!; [done| |exact Hobj]. by destruct k.
  - intros k' Hk'. by destruct k, k'.
Qed.

(** C13. A forward of TCP that a client has been granted can be cancelled with the
    address of the request and the port of the reply, whichever port was asked
    for: the cancellation is accepted, and then the map, every counter and the
    pending acquisitions are what they were before the forward, its listener is
    closed and no forward that was there is touched. *)
Theorem forward_cancel_roundtrip conn limiter resource closing callback listenCallback net_Listen addr port s bound s1 :
  limiter_ok limiter -> handler_ok resource s ->
  tcpip_forward conn limiter resource closing callback listenCallback net_Listen (inr (addr, port)) s = (FwAccept (Some bound), s1) ->
  let '(r, s2) := cancel_tcpip_forward conn limiter (inr (addr, bound)) s1 in
  r = FwAccept None /\ h_forwards s2 = h_forwards s /\ (forall c, load (h_counters s2) c = load (h_counters s) c) /\
  pending_acquisitions s2 = pending_acquisitions s /\ listeners_closed s2 = listeners_closed s + 1 /\
  (forall f o, h_objects s !! f = Some o -> h_objects s2 !! f = Some o) /\
  (port = 0 \/ bound = port).
Proof.
  intros Hlim Hok Hfw. pose proof (tcpip_forward_contract conn limiter resource closing callback listenCallback net_Listen (inr (addr, port)) s Hlim Hok) as H.
  rewrite Hfw in H. cbv zeta in H. destruct H as (a & q & ln & dest & [= <- <-] & _ & _ & [= <-] & _ & Hport & Hgr).
  destruct Hgr as [Hfree Hmap _ Hpend (o & Ho & Hk & Hcase) _]. unfold cancel_tcpip_forward. rewrite Hmap, lookup_insert_eq.
  assert (Hin : h_objects s1 !! length (h_objects s) = Some o) by (rewrite Ho; by apply list_lookup_middle).
  assert (Hrem : forall s', h_forwards s' = h_forwards s1 ->
    remove_forward (tcp_key conn addr bound) (length (h_objects s)) s' = set_h_forwards (h_forwards s) s').
  { intros s' E. unfold remove_forward. rewrite E, Hmap, decide_True by apply lookup_insert_eq. f_equal. by apply delete_insert_id. }
  destruct Hcase as [(Hs & Hlc & Hc & Hl & _)|((Hs & Hlc) & Hc & Hl & _)].
  - destruct (closeForward_open limiter Hlim _ o s1 Hin Hs) as (cs & -> & Hcs). rewrite Hrem by done. cbn. split_and!; try done.
    + intros c. rewrite Hcs, Hc. lia.
    + unfold listeners_closed in *. cbn. rewrite (sumZ_insert _ _ _ _ _ Hin). destruct o as [? ? ? st ? lc ?]. cbn in *. subst st lc. cbn. lia.
    + intros f o' Hf. rewrite Ho. rewrite list_lookup_insert_ne by (apply lookup_lt_Some in Hf; lia). by apply lookup_app_l_Some.
  - unfold closeForward. rewrite Hin, Hs, Hrem by done. cbn. split_and!; try done.
    intros f o' Hf. rewrite Ho. by apply lookup_app_l_Some.
Qed.

(** ** A forward of the first connection, told and cancelled *)

Definition sample_part : connPart := Eval vm_compute in default newConnection (lg_conns sample_books !! 1%nat).

(** Its cancellation is accepted, and the key is free. *)
Lemma forward_replies_exact_witness :
  let env := sample_env "" in
  let told := fst (run_handler_of (fun _ => sample_forward_limiter) (ErrNew 900 "permission denied") sample_unmarshal inr
                     env KTCP 1 "cancel-tcpip-forward" "4022" false (view KTCP sample_part sample_books)) in
  let after := request_turn (fun _ => sample_forward_limiter) (ErrNew 900 "permission denied") sample_registered sample_context
                 sample_unmarshal inr FormatUint 1 env "cancel-tcpip-forward" true "4022" false sample_part sample_books in
  told = FwAccept None /\
  (exists p' new, cp_events p' = cp_events sample_part ++ new /\ (replies new <= 1)%nat /\ RReply true "" ∈ new) /\
  map live (lg_objects sample_books) = [false; true] /\ unmade KTCP (tcp_key 1 "localhost" 4022) sample_books after.
Proof.
  cbv zeta. split; [by vm_compute|].
  pose proof (forward_replies_exact (fun _ => sample_forward_limiter) ∅ (fun _ => 1) (ErrNew 900 "permission denied")
    sample_registered sample_context sample_unmarshal inr FormatUint
    sample_actions sample_books 1 sample_part KTCP (sample_env "") "cancel-tcpip-forward" true "4022" false
    (fun _ => sample_limiter_ok) sample_forward_respects eq_refl sample_ledger_runs eq_refl eq_refl) as H.
  assert (Hr : fst (run_handler_of (fun _ => sample_forward_limiter) (ErrNew 900 "permission denied") sample_unmarshal inr
                     (sample_env "") KTCP 1 "cancel-tcpip-forward" "4022" false (view KTCP sample_part sample_books)) = FwAccept None) by (by vm_compute).
  destruct (run_handler_of _ _ _ _ _ _ _ _ _ _ _) as [r s]. cbn [fst] in Hr. subst r.
  destruct H as (p' & new & _ & He & Hn & _ & Ha & Hdone & _). split; [exists p', new|].
  - split; [exact He|]. split; [exact Hn|]. apply Ha. split; [done|]. by exists None.
  - split; [by vm_compute|]. destruct (Hdone None eq_refl) as [(key & [[=] _] & _)|(_ & key & [_ (addr & port & [= <- <-] & ->)] & Hun)].
    exact Hun.
Defined.

Lemma forward_cancel_roundtrip_witness :
  fst (sample_tcpip_forward false 0) = FwAccept (Some 4022) /\
  h_forwards (snd (cancel_tcpip_forward 0 sample_forward_limiter (inr ("localhost", 4022)) sample_forwarded)) = ∅.
Proof.
  assert (E : sample_tcpip_forward false 0 = (FwAccept (Some 4022), sample_forwarded)) by (vm_compute; reflexivity).
  split; [by rewrite E|].
  pose proof (forward_cancel_roundtrip 0 sample_forward_limiter 7 false sample_tcp_callback None sample_net_Listen "localhost" 0
    sample_handler_state 4022 sample_forwarded sample_limiter_ok sample_handler_ok E) as H.
  destruct (cancel_tcpip_forward _ _ _ _) as [r s2]. exact (proj1 (proj2 H)).
Defined.
