(* ===== verification/ForwardedCopy.v ===== *)
(** ForwardedCopy: a forwarded connection from the start of its copy to its end
    ([contextForChannelRequests] of [tcpip.go] and its callers in [tcpip.go],
    [streamlocal.go] and [agent.go]).

    The copy is the system of [Copy].  Beside it run the goroutine that discards
    the requests of the client's channel, and, once the copy has returned, the
    deferred calls of the worker or channel handler that has called it.  For TCP
    the goroutine cancels the context of the copy when the client has closed the
    channel; for Unix sockets and agents it does not.  Who calls what when is a
    list of actions, as in [Copy]. *)
From S2P Require Import Prelude GoErrors Copy ForwardConnections.
Local Open Scope nat_scope.

(** ** [contextForChannelRequests] *)

Record channelContext := mkChannelContext {
  parent_done : bool;                  (* the context of the connection has ended *)
  requests_closed : bool;              (* the channel of requests, closed by x/crypto/ssh *)
  discarding : bool;                   (* the goroutine runs *)
  cancels : bool;                      (* and calls cancel at its end *)
  channel_cancelled : bool }.          (* cancel has been called *)

Definition contextForChannelRequests (parent requests : bool) : channelContext :=
  mkChannelContext parent requests true true false.
(** [go gossh.DiscardRequests(reqs)], with the context of the connection. *)
Definition discardRequests (parent requests : bool) : channelContext :=
  mkChannelContext parent requests true false false.

Definition context_done (c : channelContext) : bool := parent_done c || channel_cancelled c.

(** [DiscardRequests] returns once the requests are closed. *)
Definition discard_exec (c : channelContext) : option channelContext :=
  if discarding c && requests_closed c
  then Some (mkChannelContext (parent_done c) (requests_closed c) false (cancels c) (channel_cancelled c || cancels c))
  else None.
Definition cancelChannel (c : channelContext) : channelContext :=
  mkChannelContext (parent_done c) (requests_closed c) (discarding c) (cancels c) true.
Definition parent_ends (c : channelContext) : option channelContext :=
  if parent_done c then None
  else Some (mkChannelContext true (requests_closed c) (discarding c) (cancels c) (channel_cancelled c)).
Definition requests_close (c : channelContext) : option channelContext :=
  if requests_closed c then None
  else Some (mkChannelContext (parent_done c) true (discarding c) (cancels c) (channel_cancelled c)).

(** ** The callers *)

Inductive copyPlace := DirectTCP | DirectUnix | Worker (kind : acceptor).

Definition channel_context (p : copyPlace) (parent requests : bool) : channelContext :=
  match p with
  | DirectTCP | Worker TCPForward => contextForChannelRequests parent requests
  | _ => discardRequests parent requests
  end.

(** Whether the close of the client's channel ends the copy. *)
Definition follows_channel (p : copyPlace) : bool := match p with DirectTCP | Worker TCPForward => true | _ => false end.

Definition copy_opts : FullDuplexCopyOpts := mkCopyOpts false false false false.

(** What is left to do when the copy has returned: an error is reported or
    returned, then come the deferred calls, the last one first. *)
Inductive afterCopy := AReport | ACancel | ACloseChannel | ACloseConn | ARelease | AUnregister.

Definition after_copy (p : copyPlace) : list afterCopy :=
  match p with
  | DirectTCP => [ACloseConn; ACloseChannel; ACancel; AUnregister]
  | DirectUnix => [ACloseConn; ACloseChannel; AUnregister]
  | Worker TCPForward => [AReport; ACancel; ACloseChannel; ARelease; ACloseConn; AUnregister]
  | Worker UnixForward => [AReport; ACloseChannel; ACloseConn; ARelease; AUnregister]
  | Worker AgentForward => [AReport; ACloseChannel; ARelease; ACloseConn]
  end.

(** The same calls as events of the traces of [ForwardConnections]. *)
Definition fw_after (a : afterCopy) : list fwevent :=
  match a with
  | AReport => [] | ACancel => [FCancel] | ACloseChannel => [FCloseChannel] | ACloseConn => [FCloseConn]
  | ARelease => [FRelease] | AUnregister => [FUnregister]
  end.
Definition d_after (a : afterCopy) : list devent :=
  match a with
  | ACancel => [DCancel] | ACloseChannel => [DCloseChannel] | ACloseConn => [DCloseConn]
  | AUnregister => [DUnregister] | AReport | ARelease => []
  end.

(** The traces end with these calls, after the copy. *)
Lemma after_copy_traces kind env d :
  w_open_err env = None -> w_copy_err env = None -> d_registers d = true ->
  (exists l, worker kind true env = l ++ FCopy :: concat (map fw_after (after_copy (Worker kind)))) /\
  (exists l, effects None (direct_forward false "direct-tcpip" d) = l ++ DCopy :: concat (map d_after (after_copy DirectTCP))) /\
  (exists l, effects None (direct_forward true "direct-streamlocal" d) = l ++ DCopy :: concat (map d_after (after_copy DirectUnix))).
Proof.
  intros Ho Hc Hd. split_and!.
  - unfold worker, worker_body. rewrite Ho, Hc. destruct kind; cbn.
    + by exists [FOpenChannel; FEndOpen; FContext].
    + by exists [FOpenChannel; FEndOpen; FDiscard].
    + by exists [FOpenChannel; FDiscard].
  - exists [DConn; DFinish; DRegistered; DContext]. unfold direct_forward. by rewrite Hd.
  - exists [DConn; DFinish; DRegistered; DDiscard]. unfold direct_forward. by rewrite Hd.
Qed.

(** ** The system *)

Record forwarded := mkForwarded {
  fd_channel : channelContext;
  fd_copy : copyState;
  fd_todo : list afterCopy;
  fd_done : list afterCopy }.

Inductive forwardedAction :=
| FdCopy (c : copyChoice)              (* of the copy, but for the end of its context *)
| FdNotify                             (* the copy sees the end of its context *)
| FdDiscard                            (* the goroutine of the requests ends *)
| FdAfter                              (* the next call after the copy *)
| FdParent                             (* the context of the connection ends *)
| FdRequests.                          (* the client closes its channel *)

Definition set_channel (c : channelContext) (s : forwarded) : forwarded := mkForwarded c (fd_copy s) (fd_todo s) (fd_done s).
Definition set_copy (c : copyState) (s : forwarded) : forwarded := mkForwarded (fd_channel s) c (fd_todo s) (fd_done s).

Section Forwarded.
Variable closeWriter : side -> bool.
#[local] Abbreviation copy_exec := (copy_exec closeWriter copy_opts).

Definition forwarded_exec (a : forwardedAction) (s : forwarded) : option forwarded :=
  match a with
  | FdCopy CtxDone => None
  | FdCopy c => k ← copy_exec c (fd_copy s); Some (set_copy k s)
  | FdNotify =>
      if context_done (fd_channel s) then k ← copy_exec CtxDone (fd_copy s); Some (set_copy k s) else None
  | FdDiscard => c ← discard_exec (fd_channel s); Some (set_channel c s)
  | FdAfter =>
      match caller (fd_copy s), fd_todo s with
      | MReturned, x :: todo =>
          Some (mkForwarded (match x with ACancel => cancelChannel (fd_channel s) | _ => fd_channel s end)
                  (fd_copy s) todo (fd_done s ++ [x]))
      | _, _ => None
      end
  | FdParent => c ← parent_ends (fd_channel s); Some (set_channel c s)
  | FdRequests => c ← requests_close (fd_channel s); Some (set_channel c s)
  end.

Fixpoint forwarded_run (l : list forwardedAction) (s : forwarded) : option forwarded :=
  match l with
  | [] => Some s
  | a :: l => s ← forwarded_exec a s; forwarded_run l s
  end.

(** What the server does by itself: everything but the calls of the streams, the
    end of the connection and what the client does. *)
Definition own (a : forwardedAction) : bool :=
  match a with FdCopy c => internal c | FdNotify | FdDiscard | FdAfter => true | FdParent | FdRequests => false end.
End Forwarded.

(** The call of the copy, with two streams and a context. *)
Definition forwarded_start (p : copyPlace) (parent requests : bool) : error + forwarded :=
  match FullDuplexCopy false false false with
  | inl e => inl e
  | inr k => inr (mkForwarded (channel_context p parent requests) k (after_copy p) [])
  end.

(** ** Laws *)

Section Laws.
Variable cw : side -> bool.
#[local] Abbreviation copy_step := (copy_exec cw copy_opts).

(** A copy that has returned stays so, and only the end of the context marks it
    as cancelled. *)
Lemma copy_step_flags c s s' :
  copy_step c s = Some s' ->
  (caller s = MReturned -> caller s' = MReturned) /\ (c <> CtxDone -> cancelled s' = cancelled s) /\
  (watching s || cancelled s = true -> watching s' || cancelled s' = true).
Proof. intros H. copy_steps c s H; unfold loopOrReturn; repeat case_match; split_and!; done. Qed.

Record forwarded_inv (p : copyPlace) (s : forwarded) : Prop := mkForwardedInv {
  fi_copy : copy_inv (fd_copy s);
  fi_room : room (fd_copy s);
  fi_watch : watching (fd_copy s) || cancelled (fd_copy s) = true;
  fi_cancelled : channel_cancelled (fd_channel s) = true -> caller (fd_copy s) <> MReturned ->
    requests_closed (fd_channel s) = true /\ cancels (fd_channel s) = true;
  fi_cause : cancelled (fd_copy s) = true -> caller (fd_copy s) <> MReturned ->
    parent_done (fd_channel s) = true \/ requests_closed (fd_channel s) = true /\ cancels (fd_channel s) = true;
  fi_discarding : discarding (fd_channel s) = false ->
    requests_closed (fd_channel s) = true /\ (cancels (fd_channel s) = true -> channel_cancelled (fd_channel s) = true);
  fi_calls : fd_done s ++ fd_todo s = after_copy p;
  fi_early : caller (fd_copy s) <> MReturned -> fd_done s = [];
  fi_cancel : ACancel ∈ fd_done s -> channel_cancelled (fd_channel s) = true;
  fi_place : cancels (fd_channel s) = cancels (channel_context p false false) }.

Lemma forwarded_start_inv p parent requests s : forwarded_start p parent requests = inr s -> forwarded_inv p s.
Proof.
  unfold forwarded_start, FullDuplexCopy. cbn. intros [= <-].
  split; cbn; try done; try by destruct p as [| |[]].
  - unfold room. cbn. lia.
  - by intros ?%not_elem_of_nil.
Qed.

(** An action of the copy, of itself or because its context has ended. *)
Lemma copy_action_inv p c k s :
  (c = CtxDone -> context_done (fd_channel s) = true) -> copy_step c (fd_copy s) = Some k ->
  forwarded_inv p s -> forwarded_inv p (set_copy k s).
Proof.
  intros Hc H [I1 I2 I3 I4 I5 I6 I7 I8 I9 I10]. destruct (copy_step_flags _ _ _ H) as (Hr & Hk & Hw).
  assert (Hn : caller k <> MReturned -> caller (fd_copy s) <> MReturned) by naive_solver.
  split; cbn; auto.
  - by eapply copy_inv_step.
  - by eapply room_step.
  - intros Hx Hn'. assert (c = CtxDone \/ c <> CtxDone) as [->|Hd] by (destruct c; auto); [|rewrite (Hk Hd) in Hx; auto].
    specialize (Hc eq_refl). unfold context_done in Hc. apply orb_true_iff in Hc as [Hc|Hc]; auto.
Qed.

Lemma forwarded_step_inv p a s s' : forwarded_exec cw a s = Some s' -> forwarded_inv p s -> forwarded_inv p s'.
Proof.
  destruct a as [c| | | | |]; cbn [forwarded_exec].
  - intros H I. assert (c <> CtxDone /\ exists k, copy_step c (fd_copy s) = Some k /\ s' = set_copy k s) as (Hc & k & Hk & ->).
    { destruct c; cbn -[copy_exec] in H; try done; (split; [done|]);
        (destruct (copy_step _ _) as [k|] eqn:E; [|done]); exists k; by simplify_eq/=. }
    by apply (copy_action_inv p c).
  - destruct (context_done _) eqn:Hd; [|done]. destruct (copy_step CtxDone _) as [k|] eqn:E; [|done]. intros [= <-].
    by apply (copy_action_inv p CtxDone).
  - unfold discard_exec. destruct (discarding _) eqn:Hd; [|done]. destruct (requests_closed _) eqn:Hq; [|done].
    intros [= <-] [I1 I2 I3 I4 I5 I6 I7 I8 I9 I10]. split; cbn; auto.
    + intros [H|H]%orb_true_iff Hn; [|done]. destruct (I4 H Hn). done.
    + intros H Hn. destruct (I5 H Hn) as [|[_ ?]]; auto.
    + intros _. split; [done|]. intros ->. apply orb_true_r.
    + intros H. by rewrite I9.
  - destruct (caller (fd_copy s)) eqn:Hm; try done. destruct (fd_todo s) as [|x todo] eqn:Ht; [done|]. intros [= <-].
    intros [I1 I2 I3 I4 I5 I6 I7 I8 I9 I10]. rewrite Hm, Ht in *. split; cbn; rewrite ?Hm; auto; try done.
    + destruct x; cbn; auto. intros Hd. by destruct (I6 Hd).
    + by rewrite <- app_assoc.
    + rewrite elem_of_app, list_elem_of_singleton. intros [H|<-]; [specialize (I9 H); by destruct x|done].
    + by destruct x.
  - unfold parent_ends. destruct (parent_done _) eqn:Hp; [done|]. intros [= <-] [I1 I2 I3 I4 I5 I6 I7 I8 I9 I10]. split; cbn; auto.
  - unfold requests_close. destruct (requests_closed _) eqn:Hp; [done|]. intros [= <-] [I1 I2 I3 I4 I5 I6 I7 I8 I9 I10].
    split; cbn; auto.
    + intros H Hn. by destruct (I4 H Hn).
    + intros H Hn. destruct (I5 H Hn) as [|[_ ?]]; auto.
    + intros H. by destruct (I6 H).
Qed.

Lemma forwarded_run_inv p l s s' : forwarded_run cw l s = Some s' -> forwarded_inv p s -> forwarded_inv p s'.
Proof.
  revert s. induction l as [|a l IH]; cbn; intros s; [by intros [= <-]|].
  destruct (forwarded_exec cw a s) as [s1|] eqn:E; [|done]. intros H I. by eapply IH, forwarded_step_inv.
Qed.

(** Every action uses up something. *)
Definition channel_work (c : channelContext) : nat :=
  (if parent_done c then 0 else 1) + (if requests_closed c then 0 else 1) + (if discarding c then 1 else 0).
Definition forwarded_work (s : forwarded) : nat :=
  copy_work (fd_copy s) + channel_work (fd_channel s) + length (fd_todo s).

Lemma forwarded_step_work a s s' : forwarded_exec cw a s = Some s' -> forwarded_work s' < forwarded_work s.
Proof.
  assert (Hk : forall c k, copy_step c (fd_copy s) = Some k -> forwarded_work (set_copy k s) < forwarded_work s).
  { intros c k H%copy_step_work. unfold forwarded_work. cbn. lia. }
  destruct a as [c| | | | |]; cbn [forwarded_exec].
  - destruct c; cbn -[copy_exec]; try done; (destruct (copy_step _ _) as [k|] eqn:E; [|done]); intros [= <-]; by eapply Hk.
  - destruct (context_done _); [|done]. destruct (copy_step CtxDone _) as [k|] eqn:E; [|done]. intros [= <-]. by eapply Hk.
  - unfold discard_exec. destruct (discarding _) eqn:Hd; [|done]. destruct (requests_closed _) eqn:Hq; [|done].
    intros [= <-]. unfold forwarded_work, channel_work. cbn. rewrite Hd, Hq. lia.
  - destruct (caller _); try done. destruct (fd_todo s) as [|x todo] eqn:Ht; [done|]. intros [= <-].
    unfold forwarded_work, channel_work. cbn. rewrite Ht. destruct x; cbn; lia.
  - unfold parent_ends. destruct (parent_done _) eqn:Hp; [done|]. intros [= <-].
    unfold forwarded_work, channel_work. cbn. rewrite Hp. lia.
  - unfold requests_close. destruct (requests_closed _) eqn:Hp; [done|]. intros [= <-].
    unfold forwarded_work, channel_work. cbn. rewrite Hp. lia.
Qed.

Lemma forwarded_run_work l s s' : forwarded_run cw l s = Some s' -> length l + forwarded_work s' <= forwarded_work s.
Proof.
  revert s. induction l as [|a l IH]; cbn; intros s; [by intros [= <-]|].
  destruct (forwarded_exec cw a s) as [s1|] eqn:E; [|done]. intros H%IH. apply forwarded_step_work in E. lia.
Qed.

(** ** Where the server can do nothing by itself *)

Definition stopped (s : forwarded) : Prop := forall a, own a = true -> forwarded_exec cw a s = None.

Lemma stopped_copy s c : stopped s -> internal c = true -> copy_step c (fd_copy s) = None.
Proof.
  intros Hs Hc. specialize (Hs (FdCopy c) Hc). cbn [forwarded_exec] in Hs.
  destruct c; try done; by destruct (copy_step _ _).
Qed.

(** The end of a context has reached the copy. *)
Lemma stopped_notified p s :
  stopped s -> forwarded_inv p s ->
  parent_done (fd_channel s) = true \/ requests_closed (fd_channel s) = true /\ cancels (fd_channel s) = true ->
  cancelled (fd_copy s) = true.
Proof.
  intros Hs I Hc. assert (Hd : context_done (fd_channel s) = true).
  { unfold context_done. destruct Hc as [->|[Hq Hk]]; [done|]. apply orb_true_iff. right.
    specialize (Hs FdDiscard eq_refl). cbn in Hs. unfold discard_exec in Hs. rewrite Hq in Hs.
    destruct (discarding _) eqn:E; [done|]. by apply (fi_discarding _ _ I). }
  specialize (Hs FdNotify eq_refl). cbn in Hs. rewrite Hd in Hs. pose proof (fi_watch _ _ I) as Hw.
  destruct (watching _), (cancelled _); done.
Qed.

(** What there is after the copy has returned. *)
Lemma stopped_returned p s :
  stopped s -> forwarded_inv p s -> caller (fd_copy s) = MReturned ->
  caller (fd_copy s) = MReturned /\ fd_done s = after_copy p /\ ACloseConn ∈ fd_done s /\ ACloseChannel ∈ fd_done s /\
  (follows_channel p = true -> context_done (fd_channel s) = true) /\
  (requests_closed (fd_channel s) = true -> discarding (fd_channel s) = false).
Proof.
  intros Hs I Hm. pose proof (fi_calls _ _ I) as Hd. pose proof (Hs FdAfter eq_refl) as Ha. cbn in Ha. rewrite Hm in Ha.
  destruct (fd_todo s); [|done]. rewrite app_nil_r in Hd. split_and!; [done|done|..].
  1-2: rewrite Hd; destruct p as [| |[]]; set_solver.
  - intros Hf. unfold context_done. apply orb_true_iff. right. apply (fi_cancel _ _ I). rewrite Hd.
    destruct p as [| |[]]; set_solver.
  - pose proof (Hs FdDiscard eq_refl) as Hq. cbn in Hq. unfold discard_exec in Hq. intros E. rewrite E in Hq.
    by destruct (discarding _).
Qed.
End Laws.

(** ** The end of a forwarded connection *)

(** C33. A forwarded connection comes to its end.  No execution has more than
    fifty-five actions.  Until it returns its copy is cancelled only because the
    connection has ended or, for TCP, the client has closed its channel.  And
    where the server has nothing more to do by itself, either the copy has
    returned, and the connection and the channel have been closed with everything
    else the caller has to do, and the goroutine of the requests has ended unless
    the channel still has requests to come; or the copy waits for a call of a
    stream, and then both streams have been closed if the connection has ended,
    a copy has failed or, for TCP, the client has closed its channel. *)
Theorem forwarded_copy_ends cw p parent requests s0 l s :
  forwarded_start p parent requests = inr s0 -> forwarded_run cw l s0 = Some s ->
  length l <= 55 /\
  (cancelled (fd_copy s) = true -> caller (fd_copy s) <> MReturned ->
   parent_done (fd_channel s) = true \/ requests_closed (fd_channel s) = true /\ follows_channel p = true) /\
  (stopped cw s ->
   (caller (fd_copy s) = MReturned /\ fd_done s = after_copy p /\ ACloseConn ∈ fd_done s /\ ACloseChannel ∈ fd_done s /\
    (follows_channel p = true -> context_done (fd_channel s) = true) /\
    (requests_closed (fd_channel s) = true -> discarding (fd_channel s) = false)) \/
   (in_stream cw (fd_copy s) /\ fd_done s = [] /\
    (parent_done (fd_channel s) = true \/ rErr (result_so_far (fd_copy s)) <> None \/
     requests_closed (fd_channel s) = true /\ follows_channel p = true ->
     closes_of (stream_calls (fd_copy s)) = [Left; Right]))).
Proof.
  intros H0 Hr. pose proof (forwarded_run_inv cw p _ _ _ Hr (forwarded_start_inv p _ _ _ H0)) as I.
  assert (Hp : cancels (fd_channel s) = follows_channel p) by (rewrite (fi_place _ _ I); by destruct p as [| |[]]).
  split_and!.
  - apply forwarded_run_work in Hr. unfold forwarded_start in H0. cbn in H0. injection H0 as <-.
    unfold forwarded_work, copy_work, channel_work in Hr. cbn in Hr.
    destruct parent, requests, p as [| |[]]; cbn in Hr; lia.
  - rewrite <- Hp. apply (fi_cause _ _ I).
  - intros Hs. pose proof (fun c => stopped_copy cw s c Hs) as Hc.
    assert (Hm : caller (fd_copy s) = MReturned \/ caller (fd_copy s) <> MReturned) by (destruct (caller (fd_copy s)); auto).
    destruct (copy_stuck cw copy_opts (fd_copy s) (fi_copy _ _ I) (fi_room _ _ I) Hc) as [Hr'|[Hin Hcl]];
      [|destruct Hm as [Hr'|Hn]].
    1-2: left; by apply (stopped_returned cw p).
    right. split_and!; [done|by apply (fi_early _ _ I)|]. intros Hx. apply Hcl. rewrite <- Hp in Hx.
    destruct Hx as [Hx|[Hx|Hx]]; [left|by right|left]; eapply (stopped_notified cw p); eauto.
Qed.

(** A TCP connection whose client closes the channel while both directions wait
    for data, up to the point where the streams have been closed, and to the end
    after they have answered. *)
Definition sample_place : copyPlace := Worker TCPForward.
Definition sample_forwarded : forwarded :=
  mkForwarded (contextForChannelRequests false false) sample_copy_start (after_copy sample_place) [].
Definition sample_cut : list forwardedAction :=
  [FdCopy CallerStart; FdCopy (CopyStart true); FdCopy (CopyStart false); FdRequests; FdDiscard; FdNotify; FdCopy CallerCtx;
   FdCopy CloseNext; FdCopy CloseNext; FdCopy CloseNext; FdCopy CallerLeave].
Definition sample_rest : list forwardedAction :=
  [FdCopy (CopyReturn true 0 (Some sample_error)); FdCopy (CopyReturn false 5 None); FdCopy (CopyEnd true);
   FdCopy (CopySend true); FdCopy CallerRecv; FdCopy (CopyCloseBoth false); FdCopy CallerLeave; FdCopy (CopyLeave false);
   FdCopy (CopyEnd false); FdCopy (CopySend false); FdCopy CallerRecv; FdCopy CallerOnEnd; FdCopy CallerCloseObserver;
   FdAfter; FdAfter; FdAfter; FdAfter; FdAfter; FdAfter].

Definition sample_cut_end : forwarded :=
  Eval vm_compute in default sample_forwarded (forwarded_run sample_closeWriter sample_cut sample_forwarded).
Definition sample_end : forwarded :=
  Eval vm_compute in default sample_forwarded (forwarded_run sample_closeWriter (sample_cut ++ sample_rest) sample_forwarded).

Example sample_forwarded_runs :
  closes_of (stream_calls (fd_copy sample_cut_end)) = [Left; Right] /\ caller (fd_copy sample_cut_end) = MLoop 0 /\
  caller (fd_copy sample_end) = MReturned /\ fd_done sample_end = after_copy sample_place /\
  rErr (result_so_far (fd_copy sample_end)) = Some sample_error.
Proof. by vm_compute. Qed.

Lemma sample_end_run :
  forwarded_run sample_closeWriter (sample_cut ++ sample_rest) sample_forwarded = Some sample_end.
Proof. by vm_compute. Qed.

Lemma sample_cut_run : forwarded_run sample_closeWriter sample_cut sample_forwarded = Some sample_cut_end.
Proof. by vm_compute. Qed.

(** An action of a copy is one of finitely many but for what a stream answers. *)
Lemma stopped_decide cw s :
  forallb (fun a => match forwarded_exec cw a s with None => true | Some _ => false end)
    (FdNotify :: FdDiscard :: FdAfter ::
     map FdCopy ([CallerStart; CallerCtx; CallerRecv; CallerLeave; CallerOnEnd; CallerCloseObserver; CloseNext] ++
       concat (map (fun d => [CopyStart d; CopyCloseBoth d; CopyLeave d; CopyEnd d; CopySend d]) [true; false]))) = true ->
  stopped cw s.
Proof.
  rewrite forallb_forall. intros H a Ha.
  assert (Hin : In a (FdNotify :: FdDiscard :: FdAfter ::
     map FdCopy ([CallerStart; CallerCtx; CallerRecv; CallerLeave; CallerOnEnd; CallerCloseObserver; CloseNext] ++
       concat (map (fun d => [CopyStart d; CopyCloseBoth d; CopyLeave d; CopyEnd d; CopySend d]) [true; false])))).
  { destruct a as [c| | | | |]; try done; [destruct c as [| | | | | |d|d n e|d e|d|d|d|d| | |]; try done; try destruct d|..]; cbn; tauto. }
  specialize (H a Hin). by destruct (forwarded_exec cw a s).
Qed.

Lemma forwarded_copy_ends_witness :
  forwarded_start sample_place false false = inr sample_forwarded /\
  closes_of (stream_calls (fd_copy sample_cut_end)) = [Left; Right] /\ ACloseConn ∈ fd_done sample_end.
Proof.
  split; [done|]. split.
  - destruct (forwarded_copy_ends sample_closeWriter sample_place false false sample_forwarded sample_cut sample_cut_end
                eq_refl sample_cut_run) as (_ & _ & H).
    destruct H as [(Hm & _)|(_ & _ & H)]; [by apply stopped_decide|discriminate Hm|].
    apply H. right. right. done.
  - destruct (forwarded_copy_ends sample_closeWriter sample_place false false sample_forwarded _ sample_end
                eq_refl sample_end_run) as (_ & _ & H).
    destruct H as [(_ & _ & Hc & _)|(_ & Hd & _)]; [by apply stopped_decide|exact Hc|discriminate Hd].
Defined.
