(* ===== verification/Platform.v ===== *)
(** Platform: the three builds of [_isClosedError] ([io-util_unix.go],
    [io-util_windows.go], [io-util_other.go]) and what they change in
    [isClosedError].  The other files use the one of Unix. *)
From S2P Require Import Prelude GoErrors.

Inductive platform := Unix | Windows | Other.

Section Builds.
Variable WSAECONNRESET WSAECONNABORTED : error.   (* of x/sys/windows *)

Definition windows_isClosedError (err : error) : bool :=
  match errors_find as_syscall err with
  | Some (Some inner) => error_eqb inner WSAECONNRESET || error_eqb inner WSAECONNABORTED
  | _ => false
  end.

Definition other_isClosedError (err : error) : bool := false.

Definition build_isClosedError (p : platform) : error -> bool :=
  match p with Unix => _isClosedError | Windows => windows_isClosedError | Other => other_isClosedError end.

(** [isClosedError] of a build. *)
Definition isClosedError_on (p : platform) (err : option error) : bool :=
  match err with
  | None => false
  | Some e =>
      if errors_Is err (Some io_ErrClosedPipe) || errors_Is err (Some io_EOF) || errors_Is err (Some net_ErrClosed)
      then true
      else if build_isClosedError p e then true
      else match errors_find as_netop e with
           | Some (Some inner) => bool_decide (error_text inner = "use of closed network connection"%string)
           | _ => false
           end
  end.

Lemma isClosedError_unix err : isClosedError_on Unix err = isClosedError err.
Proof. by destruct err. Qed.

Lemma isClosedError_build p e :
  isClosedError_on p (Some e) = isClosedError_on Other (Some e) || build_isClosedError p e.
Proof.
  unfold isClosedError_on. cbn [build_isClosedError other_isClosedError].
  destruct (_ || _ || _); [done|]. destruct (build_isClosedError p e); [by rewrite orb_true_r|by rewrite orb_false_r].
Qed.

(** The error number that the first [*os.SyscallError] of the tree holds. *)
Definition errno_of (e : error) : option error :=
  match errors_find as_syscall e with Some (Some inner) => Some inner | _ => None end.

(** What one build takes for a closed connection and another does not is an
    error with one of the numbers of its platform, which are: *)
Definition closed_errnos (p : platform) : list error :=
  match p with Unix => [unix_EPIPE] | Windows => [WSAECONNRESET; WSAECONNABORTED] | Other => [] end.

Lemma build_isClosedError_errno p e :
  build_isClosedError p e = true <-> exists inner n, errno_of e = Some inner /\ n ∈ closed_errnos p /\ error_eqb inner n = true.
Proof.
  unfold errno_of. destruct p; cbn; unfold _isClosedError, windows_isClosedError, other_isClosedError;
    destruct (errors_find as_syscall e) as [[inner|]|]; rewrite ?orb_true_iff; set_solver.
Qed.

Lemma platforms_differ p q err :
  isClosedError_on p err = true -> isClosedError_on q err = false ->
  exists e inner n, err = Some e /\ errno_of e = Some inner /\ n ∈ closed_errnos p /\ error_eqb inner n = true.
Proof.
  destruct err as [e|]; [|done]. rewrite (isClosedError_build p), (isClosedError_build q).
  intros [H|H]%orb_prop; [by rewrite H|]. intros _.
  apply build_isClosedError_errno in H as (inner & n & H). by exists e, inner, n.
Qed.
End Builds.
