(* ===== verification/Examples.v ===== *)
(** Examples: the programs under [src/_examples] as clients of the package:
    their handlers and callbacks, run by the definitions of the components.
    What system calls, commands and other libraries answer is an argument.
    Log lines are left out; the handlers that write one line and return the error
    of the write are in [ExampleServers]. *)
From S2P Require Import Prelude Net Limiter Forward Channel ForwardConnections ForwardHandlers Lifecycle Auth GoErrors ErrorDispatch Session SessionLaws.
Local Open Scope string_scope.
Local Open Scope Z_scope.
Local Open Scope list_scope.

Definition line (text : string) : string := text +:+ String (Ascii.ascii_of_nat 10) "".

(** ** [ssh-errorhandling] *)

Definition errFatal := ErrNew 500 "fatal example failure".
Definition errIgnored := ErrNew 501 "ignored example failure".

(** [writeErr]: what [fmt.Fprintf(session, ...)] returns. *)
Definition errorhandling_Handler (rawCommand : string) (writeErr : option error) : option error :=
  if decide (rawCommand = "fail") then Some (ErrNew 502 "example command failed")
  else if decide (rawCommand = "fatal") then Some errFatal
  else if decide (rawCommand = "ignore") then Some errIgnored
  else writeErr.

Definition errorhandling_ErrorHandler : ErrorHandler := fun scope operation err =>
  if errors_Is (Some err) (Some errIgnored) then HReturn true None
  else if errors_Is (Some err) (Some errFatal)
  then HRespond (line "The connection must be closed.") true (fun responseErr => HReturn false responseErr)
  else if (scope =? ErrorScopeSession) && (operation =? ErrorOperationHandle)
  then HRespond (line "The command could not be completed.") false (fun responseErr =>
         match responseErr with
         | Some e => HReturn false (Some (ErrWrap ("report session error: " +:+ error_text e) e))
         | None => HReturn false None
         end)
  else HNext (Some (ErrWrap ("example server: " +:+ error_text err) err)) (fun canContinue err => HReturn canContinue err).

Lemma respondToError_writes ctx outcome m c w : SStderr (truncate m) ∈ snd (respondToError ctx outcome m c w).
Proof. unfold respondToError. destruct outcome, c; cbn; set_solver. Qed.

Section ErrorHandling.
Variable cfg : sessionConfig.
Variable x : exitEnv.
Hypothesis handler : sessionErrorHandler cfg = Some errorhandling_ErrorHandler.

(** An error of a session's handler. *)
Definition of_session (e : error) : Prop :=
  resolveErrorLocation ErrorScopeSession ErrorOperationHandle (Some e) = (ErrorScopeSession, ErrorOperationHandle).

(** What [handlerError] does with a handler that responds once and does not go on. *)
Lemma handlerError_responds e w h m c k :
  of_session e -> sessionErrorHandler cfg = Some h ->
  h ErrorScopeSession ErrorOperationHandle e = HRespond m c k -> (forall err, exists f, k err = HReturn false f) ->
  exists w1, handlerError cfg x e w = (false, c, w1) /\
    forall y, y ∈ snd (respondToError (sessionContext cfg) (exit_outcome x) m c w) -> y ∈ w1.
Proof.
  unfold of_session. intros Hl Hh Hr Hk. unfold handlerError, dispatchError. rewrite Hl, Hh, Hr.
  cbn [run_handler fst fmap option_map option_fmap]. unfold send. cbn [send_begin newErrorResponse resp_active attempted respond negb].
  destruct (respondToError _ _ _ _ _) as [err w1]. destruct (Hk err) as [f ->]. cbn -[response_failed isOnlyErrorOpt logEscalate].
  assert (Hlog : forall op e' w y, y ∈ w -> y ∈ logEscalate op e' e w) by (intros op [e'|] w0 y H; cbn; set_solver).
  destruct f as [f|], (response_failed err); cbn -[isOnlyErrorOpt logEscalate];
    try destruct (isOnlyErrorOpt _ _); cbn -[logEscalate]; (eexists; split; [done|]); intros y Hy;
    repeat first [exact Hy|apply Hlog|apply elem_of_app; left].
Qed.

Lemma errorhandling_ignored e w :
  of_session e -> errors_Is (Some e) (Some errIgnored) = true -> handlerError cfg x e w = (true, false, w).
Proof.
  unfold of_session. intros Hl Hi. unfold handlerError, dispatchError. rewrite Hl, handler. unfold errorhandling_ErrorHandler. by rewrite Hi.
Qed.

Lemma errorhandling_fatal e w :
  of_session e -> errors_Is (Some e) (Some errIgnored) = false -> errors_Is (Some e) (Some errFatal) = true ->
  exists w1, handlerError cfg x e w = (false, true, w1) /\ SCloseConn ∈ w1.
Proof.
  intros Hl Hi Hf.
  edestruct handlerError_responds as (w1 & Hw & Hin); [done|exact handler| | |].
  { unfold errorhandling_ErrorHandler. by rewrite Hi, Hf. }
  { eauto. }
  exists w1. split; [done|]. apply Hin. unfold respondToError. case_match. cbn [snd]. set_solver.
Qed.

(** Any other error is reported to the client, and the handler has failed. *)
Lemma errorhandling_failed e w :
  of_session e -> errors_Is (Some e) (Some errIgnored) = false -> errors_Is (Some e) (Some errFatal) = false ->
  exists w1, handlerError cfg x e w = (false, false, w1) /\ SStderr (line "The command could not be completed.") ∈ w1.
Proof.
  intros Hl Hi Hf.
  edestruct handlerError_responds as (w1 & Hw & Hin); [done|exact handler| | |].
  { unfold errorhandling_ErrorHandler. rewrite Hi, Hf. reflexivity. }
  { intros [err|]; eauto. }
  exists w1. split; [done|]. apply Hin. apply (respondToError_writes _ _ (line "The command could not be completed.")).
Qed.
End ErrorHandling.

(** ** Handlers that end with a status *)

Lemma reportExit_mono cfg err w y : y ∈ w -> y ∈ reportExit cfg err w.
Proof.
  intros Hy. unfold reportExit. destruct err; [|done]. apply (escalate_keeps (fun v => y ∈ v)); [|done|done].
  intros l v Hv. cbn. set_solver.
Qed.

Lemma Exit_mono x code s w y : y ∈ w -> y ∈ snd (Exit x code s w).
Proof. intros Hy. unfold Exit, session_Close. repeat case_match; simplify_eq/=; set_solver. Qed.

(** What the client sees of a handler's error stays in the trace of the end. *)
Lemma finishHandler_mono cfg x err s w y :
  exclusiveSessionExitError err = None ->
  y ∈ snd (handlerError cfg x err w) -> y ∈ snd (finishHandler cfg x (Some err) s w).
Proof.
  intros He Hy. unfold finishHandler. cbn [exclusiveSessionExitErrorOpt]. rewrite He.
  destruct (handlerError cfg x err w) as [[cc c] w1]. cbn [snd] in Hy.
  destruct c; [cbn; set_solver|]. destruct (exited s); [done|].
  set (code := if _ : bool then 1 else 0). pose proof (Exit_mono x code s w1 y Hy) as Hx.
  destruct (Exit x code s w1) as [[exitErr s'] w']. by apply reportExit_mono.
Qed.

(** The error policy of the example: for a session that has not exited, a command that fails is told to
    the client and ends with status 1; an ignored error ends with status 0, like
    a command that has been answered; a fatal one closes the connection and
    sends no status. *)
Theorem errorhandling_commands cfg x command writeErr s w :
  sessionErrorHandler cfg = Some errorhandling_ErrorHandler -> exited s = false -> deferredState s = 0 ->
  command ∈ ["fail"; "fatal"; "ignore"] \/ writeErr = None ->
  let '(s', w') := finishHandler cfg x (errorhandling_Handler command writeErr) s w in
  exits w' = exits w ++ (if decide (command = "fatal") then [] else [SExitStatus (if decide (command = "fail") then 1 else 0)]) /\
  (command = "fatal" -> SCloseConn ∈ w') /\
  (command = "fail" -> SStderr (line "The command could not be completed.") ∈ w').
Proof.
  intros Hh Hx Hd Hc.
  pose proof (handler_exit_status cfg x (errorhandling_Handler command writeErr) s w) as Hs.
  pose proof (finishHandler_mono cfg x) as Hm.
  destruct (finishHandler _ _ _ _ _) as [s' w'] eqn:Hf. cbv zeta in Hs. destruct Hs as (Hs & _).
  rewrite <- exit_code_called_for in Hs. unfold exit_code, exit_allowed in Hs. rewrite Hx, Hd in Hs.
  unfold errorhandling_Handler in Hs, Hf.
  destruct (decide (command = "fail")) as [->|Hnf].
  { destruct (errorhandling_failed cfg x Hh (ErrNew 502 "example command failed") w) as (w1 & Hw1 & Hin); [done..|].
    cbn [exclusiveSessionExitErrorOpt exclusiveSessionExitError errors_find as_exit] in Hs. rewrite Hw1 in Hs. split_and!; [done|done|].
    intros _. specialize (Hm (ErrNew 502 "example command failed") s w _ eq_refl ltac:(rewrite Hw1; exact Hin)). by rewrite Hf in Hm. }
  destruct (decide (command = "fatal")) as [->|Hnt].
  { destruct (errorhandling_fatal cfg x Hh errFatal w) as (w1 & Hw1 & Hin); [done..|].
    cbn [exclusiveSessionExitErrorOpt exclusiveSessionExitError errors_find as_exit errFatal] in Hs.
    change (ErrNew 500 "fatal example failure") with errFatal in Hs. rewrite Hw1 in Hs. split_and!; [done| |done].
    intros _. specialize (Hm errFatal s w _ eq_refl ltac:(rewrite Hw1; exact Hin)). by rewrite Hf in Hm. }
  split_and!; [|done|done]. destruct (decide (command = "ignore")) as [->|Hni].
  - cbn [exclusiveSessionExitErrorOpt exclusiveSessionExitError errors_find as_exit errIgnored] in Hs.
    change (ErrNew 501 "ignored example failure") with errIgnored in Hs.
    by rewrite (errorhandling_ignored cfg x Hh errIgnored w) in Hs.
  - destruct Hc as [Hc| ->]; [set_solver|done].
Qed.

Definition sample_errorhandling : sessionConfig :=
  mkSessionConfig true (fun _ => false) (fun _ => false) None None None (Some errorhandling_ErrorHandler)
    (mkDispatchContext true true true) (fun _ => None) (fun _ => None).

Lemma errorhandling_commands_witness :
  sessionErrorHandler sample_errorhandling = Some errorhandling_ErrorHandler /\
  let end_of command := exits (snd (finishHandler sample_errorhandling (mkExitEnv (Written 36 None) None None)
                                      (errorhandling_Handler command None) newSession [])) in
  end_of "fail" = [SExitStatus 1] /\ end_of "fatal" = [] /\ end_of "ignore" = [SExitStatus 0] /\ end_of "uptime" = [SExitStatus 0].
Proof.
  split; [reflexivity|].
  pose proof (fun command => errorhandling_commands sample_errorhandling (mkExitEnv (Written 36 None) None None) command None
    newSession [] eq_refl eq_refl eq_refl (or_intror eq_refl)) as H.
  split; [|split; [|split]].
  - specialize (H "fail"). destruct (finishHandler _ _ _ _ _). exact (proj1 H).
  - specialize (H "fatal"). destruct (finishHandler _ _ _ _ _). exact (proj1 H).
  - specialize (H "ignore"). destruct (finishHandler _ _ _ _ _). exact (proj1 H).
  - specialize (H "uptime"). destruct (finishHandler _ _ _ _ _). exact (proj1 H).
Defined.

(** ** [ssh-pty] *)

Definition maxUint16 : Z := 2 ^ 16 - 1.

(** The [h, w] given to the ioctl, or nothing. *)
Definition setWinsize (w h : Z) : option (Z * Z) :=
  if (w <=? 0) || (h <=? 0) || (maxUint16 <? w) || (maxUint16 <? h) then None
  else Some (h mod 2 ^ 16, w mod 2 ^ 16).

Definition NewSessionExitError (code : Z) (message : string) : error := ErrExit (Some (mkSessionExitError code message)).

(** [waitErr]: of the command, which is waited for however the copy ends. *)
Definition pty_Handler (isPty : bool) (startErr copyErr closeErr waitErr : option error) : option error :=
  if negb isPty then Some (NewSessionExitError 1 (line "No PTY requested."))
  else
    match startErr with
    | Some e => Some (ErrWrap "start top in PTY" e)
    | None =>
        let copyErr := if errors_Is copyErr (Some syscall_EIO) then None else copyErr in
        errors_Join [copyErr; closeErr; waitErr]
    end.

(** The two conversions of [setWinsize] change nothing. *)
Lemma setWinsize_exact w h r : setWinsize w h = Some r -> r = (h, w) /\ 1 <= w <= maxUint16 /\ 1 <= h <= maxUint16.
Proof.
  unfold setWinsize, maxUint16. destruct (Z.leb_spec w 0), (Z.leb_spec h 0); cbn [orb]; try done.
  destruct (Z.ltb_spec (2 ^ 16 - 1) w), (Z.ltb_spec (2 ^ 16 - 1) h); cbn [orb]; try done.
  intros [= <-]. rewrite !Z.mod_small by lia. repeat split; lia.
Qed.

(** Without a PTY the client is told so, and the status is 1. *)
Lemma pty_required cfg x startErr copyErr closeErr waitErr s w :
  exited s = false -> deferredState s = 0 ->
  let '(s', w') := finishHandler cfg x (pty_Handler false startErr copyErr closeErr waitErr) s w in
  exits w' = exits w ++ [SExitStatus 1] /\ SStderr (line "No PTY requested.") ∈ w' /\ exited s' = true.
Proof.
  intros Hx Hd. pose proof (handler_exit_status cfg x (pty_Handler false startErr copyErr closeErr waitErr) s w) as Hs.
  cbn [pty_Handler negb] in *.
  assert (Hin : SStderr (line "No PTY requested.") ∈ snd (finishHandler cfg x (Some (NewSessionExitError 1 (line "No PTY requested."))) s w)).
  { unfold finishHandler. cbn [exclusiveSessionExitErrorOpt exclusiveSessionExitError NewSessionExitError]. rewrite Hx. unfold applyExitError.
    pose proof (respondToError_writes (sessionContext cfg) (exit_outcome x) (line "No PTY requested.") false w) as Hr.
    cbn [Message bool_decide]. rewrite bool_decide_false by done. destruct (respondToError _ _ _ _ _) as [e1 w1].
    pose proof (Exit_mono x 1 s w1 _ Hr) as He. cbn [Code]. destruct (Exit x 1 s w1) as [[e2 s2] w2].
    by apply reportExit_mono. }
  destruct (finishHandler _ _ _ _ _) as [s' w']. cbv zeta in Hs. unfold called_for, exit_allowed in Hs.
  cbn [exclusiveSessionExitErrorOpt exclusiveSessionExitError NewSessionExitError Code] in Hs. rewrite Hx, Hd in Hs.
  destruct Hs as (Hs & _ & _ & Hx'). by rewrite bool_decide_true in Hx' by done.
Qed.

(** ** [ssh-sftpserver] *)

Definition SftpHandler (newErr serveErr closeErr : option error) : option error :=
  match newErr with
  | Some e => Some (ErrWrap "initialize sftp server" e)
  | None =>
      let serveErr := if errors_Is serveErr (Some io_EOF) then None else serveErr in
      errors_Join [serveErr; closeErr]
  end.

(** The end of the client is no error of the handler, and hides none of the close. *)
Lemma sftp_end serveErr closeErr :
  errors_Is serveErr (Some io_EOF) = true ->
  SftpHandler None serveErr closeErr = errors_Join [closeErr].
Proof. intros H. unfold SftpHandler. rewrite H. by destruct closeErr. Qed.

(** ** [ssh-timeouts] *)

(** A turn per result of the [select]: another second, or the end of the context. *)
Inductive secondOutcome := AfterSecond | ContextEnds.

Fixpoint timeouts_Handler (i : Z) (l : list secondOutcome) : option (Z * option error) :=
  match l with
  | [] => None
  | AfterSecond :: l => timeouts_Handler (i + 1) l
  | ContextEnds :: _ => Some (i + 1, None)
  end.

Definition DeadlineTimeout : Z := 30 * 10 ^ 9.
Definition IdleTimeout : Z := 10 * 10 ^ 9.

(** The handler returns once its context ends, however many seconds later. *)
Lemma timeouts_Handler_returns n l i : timeouts_Handler i (replicate n AfterSecond ++ ContextEnds :: l) = Some (i + Z.of_nat n + 1, None).
Proof. revert i. induction n as [|n IH]; intros i; cbn; [f_equal; f_equal; lia|]. rewrite IH. f_equal. f_equal. lia. Qed.

(** ** [ssh-gracefulshutdown] *)

Inductive mainEnd := MainFatal (err : error) | MainStopped (err : error) | MainSilent.

Definition graceful_main (err : option error) : mainEnd :=
  match err with
  | Some e => if negb (errors_Is err (Some context_Canceled)) || errors_Is err (Some ErrGracefulShutdownTimeout)
              then MainFatal e else MainStopped e
  | None => MainSilent
  end.

Lemma not_Is_Join errs t :
  (forall l, error_eqb (ErrJoin l) t = false) -> Forall (fun e => e = None \/ errors_Is e (Some t) = false) errs ->
  errors_Is (errors_Join errs) (Some t) = false.
Proof.
  intros Ht H. unfold errors_Join. assert (Hf : Forall (fun e => errors_Is (Some e) (Some t) = false) (omap id errs)).
  { induction H as [|[e|] errs [|] ? IH]; cbn; try done; by constructor. }
  clear H. destruct (omap id errs) as [|x l]; [done|]. unfold errors_Is in *. rewrite errors_find_unfold, Ht. cbn [error_children].
  induction Hf as [|y l' Hy _ IH]; [done|]. cbn [find_first]. by destruct (errors_find _ y).
Qed.

Definition gracefulPeriod : Z := 10 * 10 ^ 9.

(** The process fails exactly when connections are left at the end of the
    grace period; an error of a close alone does not make it fail. *)
Lemma graceful_main_exit listener_Close close_result cause waited drained_first order s :
  errors_Is (Some cause) (Some context_Canceled) = true -> errors_Is (Some cause) (Some ErrGracefulShutdownTimeout) = false ->
  errors_Is listener_Close (Some ErrGracefulShutdownTimeout) = false ->
  errors_Is (listenerCloseError s) (Some ErrGracefulShutdownTimeout) = false ->
  let '(err, _, _) := shutdown listener_Close close_result (Some cause) (Some (gracefulPeriod, None)) waited drained_first order s in
  (exists e, err = Some e) /\
  ((exists e, graceful_main err = MainFatal e) <-> drained_first = false /\ size (connections waited) <> 0%nat).
Proof.
  intros Hc Ht Hl Hs. unfold shutdown. cbn [gracefulPeriod]. set (l := stopAccepting listener_Close s).
  assert (Hl' : fst l = None \/ errors_Is (fst l) (Some ErrGracefulShutdownTimeout) = false).
  { subst l. unfold stopAccepting, scope_closeListener.
    replace (listenerCloseError (stopAccepting_locked s)) with (listenerCloseError s)
      by (unfold stopAccepting_locked, maybeCloseDrainedLocked; repeat case_match; done).
    destruct (listenerCloseOnce _); [by right|]. cbn [fst]. unfold Lifecycle.closeListener. repeat case_match; auto. }
  destruct l as [le s1]. cbn [fst] in Hl'. change (gracefulPeriod <=? 0) with false. cbv iota.
  assert (Hok : exists e, errors_Join [Some cause; le] = Some e /\ graceful_main (Some e) = MainStopped e).
  { destruct (errors_Join [Some cause; le]) as [e|] eqn:He; [|by destruct le]. exists e. split; [done|].
    assert (errors_Is (Some e) (Some context_Canceled) = true) as Hi.
    { rewrite <- He. eapply (errors_Is_Join _ cause); [left|exact Hc]. }
    assert (errors_Is (Some e) (Some ErrGracefulShutdownTimeout) = false) as Hn.
    { rewrite <- He. apply not_Is_Join; [done|]. apply Forall_cons. split; [by right|]. by apply Forall_singleton. }
    unfold graceful_main. by rewrite Hi, Hn. }
  destruct drained_first; [|destruct (bool_decide_reflect (size (connections waited) = 0%nat)) as [Hz|Hz]].
  1,2: destruct Hok as (e & He & Hm); rewrite He, Hm; split; [by exists e|]; split; [by intros [? [=]]|by intros [? ?]].
  destruct (force _ _ _ _ _) as [[fe s2] acts].
  set (j := errors_Join _). assert (Hj : errors_Is j (Some ErrGracefulShutdownTimeout) = true).
  { subst j. eapply errors_Is_Join; [left|]. eapply errors_Is_child; [right; left|]. apply errors_Is_refl. }
  destruct j as [e|]; [|done]. split; [by exists e|]. unfold graceful_main. rewrite Hj, orb_true_r. split; [done|by exists e].
Qed.

(** ** [ssh-localforward] *)

Definition destinationHost : string := "127.0.0.1".
Definition destinationPort : Z := 8080.

Definition localforward_Callback (host : string) (port : Z) : bool * option error :=
  (bool_decide (host = destinationHost) && (port =? destinationPort), None).

(** Through [DirectTCPIPHandler] nothing but the one destination is dialled, and
    a channel is accepted only when that dial succeeds. *)
Lemma localforward_only dial payload env acceptErr rejectErr ctx eh :
  let p := DirectTCPIPHandler (Some localforward_Callback) dial payload env in
  (forall dest, DDial dest ∈ effects acceptErr p -> dest = "127.0.0.1:8080") /\
  ((0 < accepts (chevents (handleChannel acceptErr rejectErr ctx eh (to_channel p))))%nat -> dial "127.0.0.1:8080" = None) /\
  (forall addr port, d_missing env = false -> payload = inr (addr, port) -> (addr, port) <> (destinationHost, destinationPort) ->
     ChReject Prohibited "port forwarding is disabled" ∈ chevents (handleChannel acceptErr rejectErr ctx eh (to_channel p))).
Proof.
  pose proof (direct_tcpip_gated (Some localforward_Callback) dial payload env acceptErr rejectErr ctx eh) as (Hd & Ha & Hr & _).
  assert (Hone : forall cb addr port, Some localforward_Callback = Some cb -> cb addr port = (true, None) ->
            JoinHostPort addr (FormatUint port) = "127.0.0.1:8080").
  { intros cb addr port [= <-]. unfold localforward_Callback. intros [= H]. apply andb_prop in H as [->%bool_decide_eq_true ->%Z.eqb_eq].
    reflexivity. }
  split_and!.
  - intros dest H. destruct (Hd dest H) as (cb & addr & port & H1 & _ & H2 & _ & ->). by apply (Hone cb).
  - intros H. destruct (Ha H) as (dest & (cb & addr & port & H1 & _ & H2 & _ & ->) & Hdial). by rewrite (Hone cb) in Hdial.
  - intros addr port Hm Hp Hn. apply (Hr addr port Hm Hp). right. exists localforward_Callback. split; [done|].
    unfold localforward_Callback. f_equal. destruct (bool_decide_reflect (addr = destinationHost)), (Z.eqb_spec port destinationPort); naive_solver.
Qed.

(** ** [ssh-streamlocal] *)

Definition directSocketPath : string := "/tmp/ssh-server-go-direct.sock".
Definition reverseSocketPath : string := "/tmp/ssh-server-go-reverse.sock".

(** [dial]: [dialer.DialContext(ctx, "unix", socketPath)]. *)
Definition LocalUnixForwardingCallback (dial : string -> bool * option error) (socketPath : string) : bool * option error :=
  if negb (bool_decide (socketPath = directSocketPath)) then (false, Some ErrServerPermissionDenied) else dial socketPath.

Record reverseEnv := mkReverseEnv {
  rv_listen : option error;
  rv_unlinker : bool;                   (* the listener has SetUnlinkOnClose *)
  rv_chmod : option error }.

Inductive sockevent := KListen (path : string) | KUnlinkOnClose | KChmod (path : string) (mode : Z) | KClose.

Definition ReverseUnixForwardingCallback (env : reverseEnv) (socketPath : string) : (option listener * option error) * list sockevent :=
  if negb (bool_decide (socketPath = reverseSocketPath)) then ((None, Some ErrServerPermissionDenied), [])
  else
    match rv_listen env with
    | Some e => ((None, Some e), [])
    | None =>
        if negb (rv_unlinker env)
        then ((None, Some (ErrNew 503 "unix listener does not support unlink-on-close")), [KListen socketPath; KClose])
        else
          match rv_chmod env with
          | Some e => ((None, Some e), [KListen socketPath; KUnlinkOnClose; KChmod socketPath 384; KClose])   (* 0o600 *)
          | None => ((Some (mkListener (Some socketPath)), None), [KListen socketPath; KUnlinkOnClose; KChmod socketPath 384])
          end
    end.

(** The callback hands over a listener only on its path, with the socket
    private and unlinked when it is closed; a listener that it does not hand over is closed. *)
Lemma reverse_callback_clean env path :
  let '((l, e), w) := ReverseUnixForwardingCallback env path in
  match l with
  | Some _ => e = None /\ w = [KListen reverseSocketPath; KUnlinkOnClose; KChmod reverseSocketPath 384]
  | None => is_Some e /\ (w = [] \/ exists m, w = KListen reverseSocketPath :: m ++ [KClose])
  end.
Proof.
  unfold ReverseUnixForwardingCallback. case_bool_decide as Hp; cbn [negb]; [subst path|by eauto].
  destruct (rv_listen env); [by eauto|]. destruct (rv_unlinker env); cbn [negb].
  - destruct (rv_chmod env); [|done]. split; [by eauto|]. right. by exists [KUnlinkOnClose; KChmod reverseSocketPath 384].
  - split; [by eauto|]. right. by exists [].
Qed.

(** Through the handlers of the package: a client is let through to the one
    socket it may dial, may listen on the one path, and any other path is
    refused, which is not reported as an error. *)
Lemma streamlocal_direct_only dial path env acceptErr rejectErr ctx eh :
  d_missing env = false -> d_acquires env = true ->
  let w := chevents (handleChannel acceptErr rejectErr ctx eh (to_channel
             (DirectStreamLocalHandler ErrServerPermissionDenied (Some (LocalUnixForwardingCallback dial)) (inr path) env))) in
  ((0 < accepts w)%nat -> path = directSocketPath /\ dial path = (true, None)) /\
  (path <> directSocketPath -> ChReject Prohibited "unix forwarding is denied" ∈ w).
Proof.
  intros Hm Ha. pose proof (direct_streamlocal_gated ErrServerPermissionDenied (Some (LocalUnixForwardingCallback dial)) (inr path) env
    acceptErr rejectErr ctx eh) as (_ & Hacc & Hden & _). split.
  - intros H. destruct (Hacc H) as (cb & p & [= <-] & (? & _ & [= <-] & _) & Hcb). unfold LocalUnixForwardingCallback in Hcb.
    by case_bool_decide.
  - intros Hn. destruct (Hden path Hm eq_refl) as [_ Hr]. apply (Hr _ false ErrServerPermissionDenied eq_refl); [|done|done].
    unfold LocalUnixForwardingCallback. by rewrite bool_decide_false.
Qed.

Lemma streamlocal_reverse_only conn limiter resource closes env path s :
  limiter_ok limiter -> handler_ok resource s ->
  let callback path := fst (ReverseUnixForwardingCallback env path) in
  let '(reply, s') := streamlocal_forward conn limiter resource closes ErrServerPermissionDenied (Some callback) (inr path) s in
  path <> reverseSocketPath -> reply = FwReject "" /\ undone 0 s s'.
Proof.
  intros Hl Hs callback.
  pose proof (streamlocal_forward_contract conn limiter resource closes ErrServerPermissionDenied (Some callback) (inr path) s Hl Hs) as H.
  destruct (streamlocal_forward _ _ _ _ _ _ _ _) as [reply s'] eqn:Hf. cbv zeta in H. intros Hn.
  assert (Hcb : callback path = (None, Some ErrServerPermissionDenied)).
  { subst callback. cbv beta. unfold ReverseUnixForwardingCallback. by rewrite bool_decide_false. }
  assert (Hr : reply = FwReject "").
  { revert Hf. unfold streamlocal_forward. rewrite Hcb, errors_Is_refl. repeat case_match; intros; by simplify_eq. }
  subst reply. split; [done|]. destruct H as [H _]. unfold unix_listen in H. rewrite Hcb in H. by repeat case_match.
Qed.

(** ** [ssh-remoteforward] *)

Definition ReversePortForwardingCallback (host : string) (port : Z) : bool * option error := (true, None).

(** ** [ssh-publickey] *)

(** The two writes: of the line, and of the key; the second is made only after the first. *)
Definition publickey_Handler (lineErr keyErr : option error) : option error * list string :=
  match lineErr with
  | Some e => (Some e, ["line"])
  | None => (keyErr, ["line"; "key"])
  end.

(** ** [ssh-forwardagent] *)

Inductive agentRun := ANewListener | AForward | ARun (environ : option (list string)) | AClose.

(** [environ]: what [Environ] returns, nil for none; [listen]: the address of the
    listener or the error of [NewAgentListener]. *)
Definition forwardagent_Handler (requested : bool) (environ : option (list string)) (listen : error + string)
    (runErr : option error) : option error * list agentRun :=
  let result := match runErr with Some e => Some (ErrWrap "run ssh-add" e) | None => None end in
  if requested then
    match listen with
    | inl e => (Some (ErrWrap "create agent listener" e), [ANewListener])
    | inr addr => (result, [ANewListener; AForward; ARun (Some (default [] environ ++ ["SSH_AUTH_SOCK=" +:+ addr])); AClose])
    end
  else (result, [ARun environ]).

(** The environment a command runs with: its own process's where there is none. *)
Definition exec_environ (own : list string) (cmdEnv : option (list string)) : list string := default own cmdEnv.

(** With a forwarded agent the command is told its socket and the listener is
    closed; without one, a session that was sent no variables runs the command
    in the server's own environment. *)
Lemma forwardagent_environment own environ addr runErr :
  let '(_, w) := forwardagent_Handler true environ (inr addr) runErr in
  (w = [ANewListener; AForward] ++ [ARun (Some (default [] environ ++ ["SSH_AUTH_SOCK=" +:+ addr]))] ++ [AClose]) /\
  forwardagent_Handler false None (inr addr) runErr = (fst (forwardagent_Handler true environ (inr addr) runErr), [ARun None]) /\
  exec_environ own None = own.
Proof. done. Qed.
