(* ===== verification/ExampleServers.v ===== *)
(** ExampleServers: the servers that the programs under [src/_examples] put
    together, and the handlers of sessions that greet: what each program serves
    once its [main] has called [Handle], [ListenAndServe] or neither.  Log lines
    are left out. *)
From S2P Require Import Prelude GoErrors ErrorDispatch Session SessionLaws Settings Accessors Preparation.
Local Open Scope string_scope.
Local Open Scope list_scope.

(** ** Handlers that greet *)

Definition newline : string := String (Ascii.ascii_of_nat 10) "".

(** What is written, and the error, which is the one of the write. *)
Definition greeting (text : string) (writeErr : option error) : option error * string := (writeErr, text +:+ newline).

Definition simple_Handler (user : string) := greeting ("Hello " +:+ user).
Definition proxy_Handler (remoteAddr : string) := greeting ("Your address is " +:+ remoteAddr).
Definition graceful_Handler := greeting "Press Ctrl+C in the server terminal to stop gracefully.".
Definition localforward_Handler := greeting "Local forwarding is available".
Definition remoteforward_Handler := greeting "Remote forwarding available...".
Definition streamlocal_Handler := greeting "Unix socket forwarding is available".

(** The callbacks that allow everything: of the programs for public keys and agents. *)
Definition publickey_Callback : bool * option error := (true, None).
Definition forwardagent_Callback : bool * option error := (true, None).

(** A session that has been greeted ends with status 0. *)
Lemma greeting_status cfg x text s w :
  exit_allowed s 0 = true ->
  let '(s', w') := finishHandler cfg x (fst (greeting text None)) s w in exits w' = exits w ++ [SExitStatus 0] /\ exited s' = true.
Proof.
  intros Ha. pose proof (handler_exit_status cfg x None s w) as H. cbn [greeting fst]. unfold called_for in H.
  cbn [exclusiveSessionExitErrorOpt] in H. rewrite Ha in H. destruct (finishHandler cfg x None s w) as [s' w'].
  destruct H as (H & _ & _ & Hx). by rewrite bool_decide_true, orb_true_r in Hx by done.
Qed.

(** ** Programs *)

(** The functions of the programs, by the names of their definitions. *)
Inductive exampleFn :=
| FnSimple | FnProxy | FnGraceful | FnLocalForward | FnRemoteForward | FnStreamLocal | FnPublicKey | FnAgent | FnPty
| FnTimeouts | FnErrors                                  (* handlers of sessions *)
| FnErrorPolicy                                          (* errorhandling_ErrorHandler *)
| FnAnyKey.                                              (* accepts every public key *)

Inductive exampleServed :=
| DefaultSession | DirectTCPIP | DirectStreamLocal       (* channels *)
| TCPForwards | UnixForwards                             (* requests *)
| Sftp.                                                  (* SftpHandler *)

(** The contexts, the arguments of callbacks, the keys and the PROXY protocol
    do not matter here. *)
Abbreviation exampleProxy := (@ProxyProtocolConfig string unit unit).
Abbreviation exampleServer := (@Server exampleFn unit unit exampleProxy string).
Abbreviation exampleOption := (@Option exampleFn unit unit exampleProxy string).
Abbreviation exampleMap := (gmap string (option exampleServed)).

Record program := mkProgram {
  DefaultHandler : option exampleFn;                     (* what main has registered *)
  served : error + exampleServer;                        (* the server that listens *)
  ChannelHandlers : option exampleMap;
  RequestHandlers : option exampleMap;
  SubsystemHandlers : option exampleMap }.

Definition listenAddress : string := "127.0.0.1:2222".

(** [ssh.Handle(fn)] and [ssh.ListenAndServe(ctx, addr, nil, options...)]. *)
Definition registered_main (fn : exampleFn) (options : list exampleOption) : program :=
  mkProgram (default_Handle (Some fn) None) (applyOptions options (newServer listenAddress None)) None None None.

(** A server of the program's own. *)
Definition server_main (fn : option exampleFn) : exampleServer := newServer listenAddress fn.

Definition zero_proxy : exampleProxy := mkProxyProtocolConfig None None 0 0.
Definition proxy_server : exampleServer :=
  mkServer listenAddress (Some FnProxy) [] false None None None None None None None (Some zero_proxy).
Definition graceful_server : exampleServer :=
  mkServer listenAddress (Some FnGraceful) [] false None None None None None None
    (Some (inr (NewGracefulShutdownTimeoutHandler (10 * 10 ^ 9)))) None.
Definition errorhandling_server : exampleServer :=
  mkServer listenAddress (Some FnErrors) [] false None None None None None (Some FnErrorPolicy) None None.

Definition simple_main : program := registered_main FnSimple [].
Definition publickey_main : program := registered_main FnPublicKey [PublicKeyAuth (Some FnAnyKey)].
Definition pty_main : program := registered_main FnPty [].

(** These register a handler and start a server that has none. *)
Definition timeouts_main : program := mkProgram (default_Handle (Some FnTimeouts) None) (inr (server_main None)) None None None.
Definition forwardagent_main : program := mkProgram (default_Handle (Some FnAgent) None) (inr (server_main None)) None None None.

Definition proxy_main : program := mkProgram None (inr proxy_server) None None None.
Definition gracefulshutdown_main : program := mkProgram None (inr graceful_server) None None None.
Definition errorhandling_main : program := mkProgram None (inr errorhandling_server) None None None.
Definition sftp_main : program := mkProgram None (inr (server_main None)) None None (Some {["sftp" := Some Sftp]}).

Definition localforward_main : program :=
  mkProgram None (inr (server_main (Some FnLocalForward)))
    (Some {["session" := Some DefaultSession; "direct-tcpip" := Some DirectTCPIP]}) None None.
Definition remoteforward_main : program :=
  mkProgram None (inr (server_main (Some FnRemoteForward))) None
    (Some {["tcpip-forward" := Some TCPForwards; "cancel-tcpip-forward" := Some TCPForwards]}) None.
Definition streamlocal_main : program :=
  mkProgram None (inr (server_main (Some FnStreamLocal)))
    (Some {["session" := Some DefaultSession; "direct-streamlocal@openssh.com" := Some DirectStreamLocal]})
    (Some {["streamlocal-forward@openssh.com" := Some UnixForwards; "cancel-streamlocal-forward@openssh.com" := Some UnixForwards]}) None.

(** ** What they serve *)

Definition session_handler (p : program) : option exampleFn :=
  match served p with
  | inl _ => None
  | inr s => handler s (fst (getDefaultHandler (DefaultHandler p)))
  end.
Definition channel_served (p : program) : string -> option exampleServed := handler_of (channelHandlers DefaultSession (ChannelHandlers p)).
Definition request_served (p : program) : string -> option exampleServed := handler_of (requestHandlers (RequestHandlers p)).

(** Each program runs its own handler, whether it has given it to its server or
    to the package; the one for SFTP has none, and serves the subsystem alone. *)
Lemma example_handlers :
  map session_handler [simple_main; publickey_main; pty_main; timeouts_main; forwardagent_main; proxy_main;
                       gracefulshutdown_main; errorhandling_main; localforward_main; remoteforward_main; streamlocal_main; sftp_main] =
    [Some FnSimple; Some FnPublicKey; Some FnPty; Some FnTimeouts; Some FnAgent; Some FnProxy;
     Some FnGraceful; Some FnErrors; Some FnLocalForward; Some FnRemoteForward; Some FnStreamLocal; None] /\
  (forall name, default None (subsystemHandlers (SubsystemHandlers sftp_main) !! name) = Some Sftp <-> name = "sftp").
Proof.
  split; [by vm_compute|]. intros name. cbn. split; [|by intros ->].
  destruct (decide (name = "sftp")) as [->|Hn]; [done|]. by rewrite lookup_singleton_ne.
Qed.

Lemma served_two (a b : string) (x y : exampleServed) t v :
  a <> b -> a <> "default" -> b <> "default" ->
  handler_of {[a := Some x; b := Some y]} t = Some v <-> (t = a /\ v = x) \/ (t = b /\ v = y).
Proof.
  intros Hab Ha Hb. unfold handler_of.
  assert (Hd : ({[a := Some x; b := Some y]} : exampleMap) !! "default" = None)
    by (rewrite lookup_insert_ne, lookup_singleton_ne by done; done).
  rewrite Hd. cbn [default].
  destruct (decide (t = a)) as [->|Hta]; [rewrite lookup_insert_eq; cbn; naive_solver|].
  rewrite lookup_insert_ne by done.
  destruct (decide (t = b)) as [->|Htb]; [rewrite lookup_singleton_eq; cbn; naive_solver|].
  rewrite lookup_singleton_ne by done. cbn. naive_solver.
Qed.

(** Forwarding is served by the programs about it and by nothing else in them:
    the one for local forwarding answers no request for a remote forward, the one
    for remote forwarding accepts no channel but sessions. *)
Lemma example_forwards t v :
  (channel_served localforward_main t = Some v <-> (t = "session" /\ v = DefaultSession) \/ (t = "direct-tcpip" /\ v = DirectTCPIP)) /\
  request_served localforward_main t = None /\
  (channel_served remoteforward_main t = Some v <-> t = "session" /\ v = DefaultSession) /\
  (request_served remoteforward_main t = Some v <-> (t = "tcpip-forward" \/ t = "cancel-tcpip-forward") /\ v = TCPForwards) /\
  (channel_served streamlocal_main t = Some v <->
     (t = "session" /\ v = DefaultSession) \/ (t = "direct-streamlocal@openssh.com" /\ v = DirectStreamLocal)) /\
  (request_served streamlocal_main t = Some v <->
     (t = "streamlocal-forward@openssh.com" \/ t = "cancel-streamlocal-forward@openssh.com") /\ v = UnixForwards).
Proof.
  unfold channel_served, request_served. cbn [ChannelHandlers RequestHandlers localforward_main remoteforward_main streamlocal_main
    channelHandlers requestHandlers]. rewrite !served_two by done. split_and!; try naive_solver.
  unfold handler_of, DefaultChannelHandlers. destruct (decide (t = "session")) as [->|Hn].
  - rewrite lookup_singleton_eq. cbn. naive_solver.
  - rewrite !lookup_singleton_ne by done. cbn. naive_solver.
Qed.

(** The options of the package would make the same servers. *)
Lemma example_options :
  applyOptions [EnableProxyProtocol zero_proxy []] (server_main (Some FnProxy)) = served proxy_main /\
  applyOptions [WithGracefulShutdownTimeout (10 * 10 ^ 9)] (server_main (Some FnGraceful)) = served gracefulshutdown_main /\
  applyOptions [WithErrorHandler (Some FnErrorPolicy)] (server_main (Some FnErrors)) = served errorhandling_main.
Proof. done. Qed.

(** The program for the PROXY protocol requires a header of every client, and
    believes it: it has no policy and no check of its own. *)
Lemma proxy_main_trusts {conn} (is_proxy_conn : conn -> bool) NewConn RemoteAddr LocalAddr (c : conn) (REQUIRE SKIP : unit) :
  (ProxyProtocol <$> match served proxy_main with inr s => Some s | inl _ => None end) = Some (Some zero_proxy) /\
  (is_proxy_conn c = false ->
   wrapProxyProtocolConn REQUIRE SKIP is_proxy_conn NewConn RemoteAddr LocalAddr c zero_proxy = inl (NewConn c [WithPolicy REQUIRE])).
Proof. split; [done|]. unfold wrapProxyProtocolConn. by intros ->. Qed.
